(* ===== verification/_CoqProject ===== *)
-Q . S2P
Prelude.v
Ord.v
KvTables.v
CacheBlock.v
Text.v
Json.v
Whitespace.v
KvFormat.v
LayerKv.v
LayerKvInv.v
LayerKvOps.v
LayerKvWindow.v
LayerKvTheorems.v
BlockPool.v
BlockPoolInv.v
BlockPoolOps.v
BlockPoolReach.v
BlockPoolTheorems.v
Scheduler.v
SchedulerInv.v
SchedulerTheorems.v
RateLimit.v
Requests.v
Stop.v
Backend.v
Api.v
MlxStop.v
ToolParse.v
TemplateError.v
ToolMarkup.v
CompletionStream.v
ResponseValidation.v
ToolCalls.v
JsonMode.v
NoProgress.v
ChatStream.v
JsonBytes.v
Validation.v
ValidationTheorems.v
ResponseValidationTheorems.v
ChatStreamTheorems.v
ChatStreamPlain.v
TokenEstimate.v
CanonicalJson.v
ChatTemplate.v
ControlTokens.v
ChatTemplateTheorems.v
ChatTemplateFamilies.v
Runtime.v
RuntimeTheorems.v
Hub.v
HubTheorems.v
PrefixCache.v
PrefixCacheInv.v
PrefixCacheTheorems.v
QwenXml.v
TagScan.v
QwenXmlSteps.v
QwenXmlRun.v
QwenXmlArguments.v
QwenXmlRoundtrip.v
QwenXmlTheorems.v
ToolParseBlocks.v
MlxSse.v
MlxSseLines.v
MlxSseTheorems.v
ToolParseGemma.v
ToolParseTheorems.v
