(* ===== verification/Prelude.v ===== *)
(** * kir-ai: a verification development

    kir-ai serves local language models behind an OpenAI-compatible HTTP API.  A
    request arrives at [llm-server], which rate-limits it, registers it for
    cancellation and waits for a slot of the model scheduler; [llm-runtime]
    validates it ([llm-api]), writes the prompt ([llm-chat-template]), sends a
    backend request and turns the tokens that come back into a whole or streamed
    response, cutting it at stop sequences and reading tool calls out of it
    ([llm-tool-parser]).  The backend is either the bridge to an MLX server
    ([llm-engine]), whose event stream it parses, or the native one, which keeps
    keys and values in [llm-kv-cache] and whole prefixes in its prefix cache.
    [llm-hub] plans which model files are downloaded and which are removed.
    This development models those parts as Rocq functions translated from the
    source and proves what they promise.  Paths below are relative to
    [src/crates].

    ** Components and files

    - [Prelude]: 64-bit arithmetic with the source's saturating, checked and
      wrapping operations; results that return, fail or panic; record update;
      vectors; iteration order of hash tables as a class; counting over maps.
    - [Ord]: derived orderings and [BTreeSet].
    - [Text], [Whitespace], [Json]: strings as UTF-8 bytes with the panics of
      slicing off a character boundary, searching, trimming, decoding;
      [serde_json] values, and the compact text of a value as a specification.

    Paged key/value cache ([llm-kv-cache/src]):
    - [KvTables] ([lib.rs], [block_id.rs], [block_table.rs]): the token budget,
      block identifiers, a session's block table.
    - [CacheBlock] ([block.rs]): a block of tokens over shared storage; the store
      of storages is explicit, because clones and retained snapshots alias it
      until a write makes them unique.
    - [BlockPool] ([block_pool.rs]): every locked operation of the pool as a
      function on its state: allocation, references, sessions, eviction,
      copy-on-write, prefix registration.  [BlockPoolInv], [BlockPoolOps],
      [BlockPoolReach]: its invariant, preservation by each operation, and
      reachability over client calls.  [BlockPoolTheorems]: accounting of blocks
      and reference counts, isolation of sessions, attachment, eviction order.
    - [KvFormat] ([format.rs]): compressed formats over an interface of f32
      arithmetic; packing and unpacking of codes are inverse.
    - [LayerKv] ([layer.rs]): the per-layer cache.  [LayerKvInv], [LayerKvOps],
      [LayerKvWindow], [LayerKvTheorems]: it refines a bounded sliding window of
      token rows, clones and snapshots are isolated from later writes, and a
      restored snapshot is the saved window.

    In-memory prefix cache ([llm-native-runtime/src/native_text/prefix_cache.rs]):
    - [PrefixCache], [PrefixCacheInv], [PrefixCacheTheorems]: the two-level map,
      length index, LRU order and byte count stay consistent and within the
      budget; a lookup serves the longest usable prefix.

    Admission ([llm-server/src/engine]):
    - [Scheduler] ([scheduler.rs]): lock sections as functions on [State]; the
      asynchronous [acquire] and readmission loops as a step relation over tasks
      that interleave between lock sections, with wake-ups explicit.
      [SchedulerInv], [SchedulerTheorems]: limits, queue contents and counters in
      every interleaving; which request is admitted next; the bound on decode
      starvation; a reachable missed wake-up; the phase gauges.
    - [TokenEstimate] ([scheduler.rs]): the size estimates that classify requests.
    - [RateLimit] ([rate_limit.rs], [router.rs]): the sliding-window limiter,
      refined by a log of all requests; the advertised retry time suffices.
    - [Requests] ([requests.rs]): the active-request registry against an
      interface of cancellation tokens.

    Requests ([llm-api/src], [llm-util/src]):
    - [Api] ([types.rs], [request.rs], [tool_schema.rs], [limits.rs], [error.rs]).
    - [JsonBytes], [Validation] ([validation.rs], [validation/helpers.rs],
      [sampling.rs]): every check with its message.  [ValidationTheorems]:
      accepted conversations are exactly those that follow the tool-call
      protocol; accepted schemas are exactly those in bounds; all failures are
      client errors.  [JsonBytes] proves that the byte counter measures the text.
    - [CanonicalJson] ([tool_schema.rs], [llm-runtime/src/backend_request.rs]):
      canonical tool schemas are a complete normal form up to member order.

    Prompts ([llm-chat-template/src], [llm-runtime/src/adapters.rs]):
    - [TemplateError], [ChatTemplate]: the prompts of the four model families.
      [ControlTokens], [ChatTemplateTheorems], [ChatTemplateFamilies]: read back
      as control tokens and text, a prompt has the turns of its request and no
      other, where every text written is checked; where Gemma's is not, a tool
      result or a function name can forge a turn.

    Generation ([llm-runtime/src], [llm-backend-contracts/src]):
    - [Backend] ([lib.rs]): cache-key identity, outputs, chunks, errors.
    - [Stop] ([stop.rs]): stop sequences, whole and incremental.
    - [CompletionStream] ([streaming.rs], [completions.rs], [error.rs],
      [no_progress.rs]): the text-completion stream as a list of events, compared
      with the whole completion.
    - [ToolMarkup] ([adapters.rs]): how much of a stream may be sent before a tool
      call; the incremental state is what a scan of the whole text finds.
    - [ResponseValidation] ([response_validation.rs]), [ToolCalls]
      ([tool_call.rs]), [JsonMode] ([json_mode.rs]), [NoProgress]
      ([no_progress.rs]): the checks of generated calls, their deltas, replies in
      JSON mode, replies without progress.  [ResponseValidationTheorems]: the
      calls that pass are those that conform; a refusal blames the call.
    - [ChatStream] ([streaming.rs], [chat.rs]): the chat stream and the whole chat
      completion.  [ChatStreamTheorems], [ChatStreamPlain]: the protocol of the
      events, validated calls, JSON mode, agreement of the two on plain text.
    - [Runtime], [RuntimeTheorems] ([runtime.rs], [capabilities.rs],
      [backend_request.rs], [cache_identity.rs]): the entry points, with the
      requests sent to the backend as state; only validated requests are sent,
      and what their cache identity is.

    Reading model output ([llm-tool-parser/src], [llm-engine/src/mlx]):
    - [ToolParse], [ToolParseBlocks], [ToolParseGemma], [ToolParseTheorems]: the
      parsers of the families' markup; they return, and read back what the MLX
      bridge renders.
    - [MlxStop] ([sse.rs], [protocol.rs]): the control-token filter truncates the
      text at the first token however it arrives.
    - [QwenXml] ([sse.rs]), [TagScan], [QwenXmlSteps], [QwenXmlRun],
      [QwenXmlArguments], [QwenXmlRoundtrip], [QwenXmlTheorems]: the incremental
      parser of Qwen's tool markup: typing, termination, independence of how the
      text is cut, arguments that are JSON, reading back a conversation.
    - [MlxSse], [MlxSseLines], [MlxSseTheorems] ([sse.rs]): the event-stream
      parser: independence of the cuts, token counts, text and calls.

    Models on disk ([llm-hub/src]):
    - [Hub], [HubTheorems] ([repo.rs], [plan.rs], [prune.rs]): planned paths stay
      inside the store; pruning keeps what is active, aliased or recent.

    ** Conventions

    A definition keeps the name of the code it translates; constructors and
    fields are prefixed where Rocq needs distinct names.  A mutating method is a
    function from the state to its result and the new state; a generator is a
    function that appends to the events already yielded, so that an error leaves
    them in place; a function that appends to a string returns what it appends.
    [usize] and [u64] are [N] with the source's own overflow behaviour (the sums
    of the pruning plan wrap); counters that the source adds without a check are
    bounded by the length of the run, which the reachability predicates limit to
    2^64 steps; vector lengths are below [isize::MAX].  The staging copies of a
    layer cache are values, since they are written only when uniquely owned; the
    release of shared storage on its error paths is not modelled.

    Code outside the repository is a parameter: the SHA-256 digest, the printer
    and the arithmetic of floating-point numbers, the JSON parser and serializer,
    the Unicode tables, the order of hash-table iteration, cancellation tokens,
    the clock, generated identifiers (one list of uuids for each parse), the
    backend behind the runtime, and what the disk answers.

    Loops carry fuel only where they are not structural: eviction from the pool
    (one session per round) and from the prefix cache (one more than its
    entries), the blocks of a layer (their number), the JSON counter
    ([value_steps] iterations), nested schemas (one more level than the limit
    allows), decimal digits (20 for a [u64]), the lines and the buffer of the
    event stream (one more than their length), tagged blocks (one more than the
    text's length) and Gemma's arguments (twice that length and two).  The
    theorems about them hold with the fuel the definitions use.

    ** Findings

    Theorems that state behaviour the code does not seem to intend:
    [missed_wakeup_reachable] (admitting the front of a queue does not wake the
    next waiter); [natural_stop_drops_tail] (the text-completion stream loses the
    withheld tail when the backend itself reports a stop);
    [gemma_result_forges_turn] and [gemma_name_forges_turn] (a tool result with a
    split control token, or a function name with one, opens a turn of its own in
    a Gemma prompt).  The manifest lists further ones, with their lines, that
    the definitions show when evaluated.

    ** Not modelled

    The tensor kernels, the Metal device layer, the sampler and the prototype of
    quantization (floating-point arithmetic and foreign calls), the
    linear-attention cache that holds their tensors, the wrapper of the
    third-party tokenizer; the loading, generation loop and disk cache of the
    native runtime, the staging and downloads of the model store, the HTTP server
    and its client (I/O around the parts above); the readers of model
    configuration, telemetry, the command line, benchmarks and test support. *)
From Stdlib Require Import Sorted.
From stdpp Require Import base gmap sets numbers sorting list.

(** ** Machine integers

    [usize] and [u64] are both 64 bits wide on the targets of the program; a
    value is an [N] and every operation of the source that can leave the range
    is written with the arithmetic the source uses: saturating, checked,
    wrapping. *)
Declare Scope mach_scope.
Delimit Scope mach_scope with mach.

Definition u64_max : N := 18446744073709551615.
Definition u64_modulus : N := 18446744073709551616.
Definition sat_add (a b : N) : N := N.min (a + b) u64_max.
Definition sat_sub (a b : N) : N := (a - b)%N.
Definition sat_mul (a b : N) : N := N.min (a * b) u64_max.
Definition wrap_add (a b : N) : N := ((a + b) mod u64_modulus)%N.
Definition wrap_sub (a b : N) : N := ((a + u64_modulus - b) mod u64_modulus)%N.
Definition wrap_mul (a b : N) : N := ((a * b) mod u64_modulus)%N.
Definition checked_add (a b : N) : option N :=
  if (a + b <=? u64_max)%N then Some (a + b)%N else None.
Definition checked_mul (a b : N) : option N :=
  if (a * b <=? u64_max)%N then Some (a * b)%N else None.

Infix "+|" := sat_add (at level 50, left associativity) : mach_scope.
Infix "-|" := sat_sub (at level 50, left associativity) : mach_scope.
Infix "*|" := sat_mul (at level 40, left associativity) : mach_scope.

Lemma checked_add_Some a b c :
  checked_add a b = Some c ↔ c = (a + b)%N ∧ (a + b ≤ u64_max)%N.
Proof.
  unfold checked_add. destruct (N.leb_spec (a + b) u64_max); split; try naive_solver.
  intros [-> ?]. lia.
Qed.

Lemma checked_mul_Some a b c :
  checked_mul a b = Some c ↔ c = (a * b)%N ∧ (a * b ≤ u64_max)%N.
Proof.
  unfold checked_mul. destruct (N.leb_spec (a * b) u64_max); split; try naive_solver.
  intros [-> ?]. lia.
Qed.

Lemma sat_add_small a b : (a + b ≤ u64_max)%N → sat_add a b = (a + b)%N.
Proof. unfold sat_add. lia. Qed.

Lemma wrap_add_small a b : (a + b ≤ u64_max)%N → wrap_add a b = (a + b)%N.
Proof. intros. apply N.mod_small. unfold u64_max, u64_modulus in *. lia. Qed.

Lemma wrap_mul_small a b : (a * b ≤ u64_max)%N → wrap_mul a b = (a * b)%N.
Proof. intros. apply N.mod_small. unfold u64_max, u64_modulus in *. lia. Qed.

Lemma wrap_sub_small a b : (b ≤ a)%N → (a ≤ u64_max)%N → wrap_sub a b = (a - b)%N.
Proof.
  intros. unfold wrap_sub, u64_max, u64_modulus in *.
  replace (a + 18446744073709551616 - b)%N with (a - b + 1 * 18446744073709551616)%N by lia.
  rewrite N.Div0.mod_add. apply N.mod_small. lia.
Qed.

(** ** Results

    A call of the source returns normally ([Ok]), returns the error of its
    [Result] ([Err]), or panics ([Panic]: a slice or index out of range). *)
Inductive outcome (E A : Type) : Type :=
| Ok (a : A)
| Err (e : E)
| Panic.
Arguments Ok {E A} a.
Arguments Err {E A} e.
Arguments Panic {E A}.

#[export] Instance outcome_bind {E} : MBind (outcome E) := λ A B f m,
  match m with Ok a => f a | Err e => Err e | Panic => Panic end.
#[export] Instance outcome_ret {E} : MRet (outcome E) := λ A a, Ok a.
#[export] Instance outcome_fmap {E} : FMap (outcome E) := λ A B f m,
  match m with Ok a => Ok (f a) | Err e => Err e | Panic => Panic end.

(** [Option::ok_or] and a bounds-checked access. *)
Definition ok_or {E A} (e : E) (o : option A) : outcome E A :=
  match o with Some a => Ok a | None => Err e end.
Definition or_panic {E A} (o : option A) : outcome E A :=
  match o with Some a => Ok a | None => Panic end.

(** [Option::or_else]. *)
Definition or_else {A} (a b : option A) : option A := match a with Some _ => a | None => b end.

(** ** State and errors

    A method of the source on [&mut self]: its result, and the state it leaves
    behind also when it returns an error. *)
Definition stm (S E A : Type) : Type := S → outcome E A * S.
#[export] Instance stm_ret {S E} : MRet (stm S E) := λ A a s, (Ok a, s).
#[export] Instance stm_bind {S E} : MBind (stm S E) := λ A B f m s,
  match m s with
  | (Ok a, s) => f a s
  | (Err e, s) => (Err e, s)
  | (Panic, s) => (Panic, s)
  end.
Definition get_state {S E} : stm S E S := λ s, (Ok s, s).
Definition gets {S E A} (f : S → A) : stm S E A := λ s, (Ok (f s), s).
Definition modify {S E} (f : S → S) : stm S E unit := λ s, (Ok tt, f s).
Definition lift_outcome {S E A} (o : outcome E A) : stm S E A := λ s, (o, s).

Lemma stm_bind_Ok {S E A B} (m : stm S E A) (f : A → stm S E B) s a s' :
  m s = (Ok a, s') → (m ≫= f) s = f a s'.
Proof. unfold mbind, stm_bind. by intros ->. Qed.

(** A loop whose body can fail, and a loop of a method. *)
Fixpoint try_fold {E A B} (f : B → A → outcome E B) (b : B) (l : list A) : outcome E B :=
  match l with
  | [] => Ok b
  | x :: l => b ← f b x; try_fold f b l
  end.
Fixpoint for_each {S E A} (f : A → stm S E unit) (l : list A) : stm S E unit :=
  match l with
  | [] => mret tt
  | x :: l => _ ← f x; for_each f l
  end.

(** ** Generic tactics *)

(** Split every conditional and match of a hypothesis, discarding the
    impossible branches. *)
Ltac case_match_in H :=
  repeat (case_match; simplify_eq/=; try (inversion H; fail)).

(** Turn boolean tests of the model into propositions for [lia]. *)
Ltac bool_to_prop :=
  repeat match goal with
  | H : (_ && _) = true |- _ => apply andb_true_iff in H as [? ?]
  | H : (_ || _) = false |- _ => apply orb_false_iff in H as [? ?]
  | H : (_ || _) = true |- _ => apply orb_true_iff in H
  | H : (_ && _) = false |- _ => apply andb_false_iff in H
  | H : negb _ = true |- _ => apply negb_true_iff in H
  | H : negb _ = false |- _ => apply negb_false_iff in H
  | H : (_ =? _)%N = true |- _ => apply N.eqb_eq in H
  | H : (_ =? _)%N = false |- _ => apply N.eqb_neq in H
  | H : (_ <? _)%N = true |- _ => apply N.ltb_lt in H
  | H : (_ <? _)%N = false |- _ => apply N.ltb_ge in H
  | H : (_ <=? _)%N = true |- _ => apply N.leb_le in H
  | H : (_ <=? _)%N = false |- _ => apply N.leb_gt in H
  | H : bool_decide _ = true |- _ => apply bool_decide_eq_true in H
  | H : bool_decide _ = false |- _ => apply bool_decide_eq_false in H
  end.

(** ** Record update

    [r <| field := v |>] and [r <| field ::= f |>] rebuild a record with one
    field changed; a record opts in with its eta expansion. *)
Class Eta (R : Type) := { eta : R → R }.
Class Updater {R A : Type} (field : R → A) := { upd : (A → A) → R → R }.
Arguments upd {R A} field {_} f r /.

Ltac build_updater R field :=
  assert_fails (is_evar R);
  let e := eval hnf in (@eta R _) in
  lazymatch eval pattern field in e with
  | ?build _ =>
      let u := eval cbv beta in (fun g => build (fun r => g (field r))) in
      exact {| upd := u |}
  end.
#[export] Hint Extern 1 (@Updater ?R _ ?field) => build_updater R field : typeclass_instances.

Declare Scope record_scope.
Notation "r '<|' field '::=' f '|>'" := (upd field f r)
  (at level 1, f at level 99, left associativity) : record_scope.
Notation "r '<|' field ':=' v '|>'" := (upd field (λ _, v) r)
  (at level 1, v at level 99, left associativity) : record_scope.

(** ** Vectors

    [Vec::pop]: the last element and the rest. *)
Definition vec_pop {A} (l : list A) : option (A * list A) :=
  match last l with
  | Some x => Some (x, take (length l - 1) l)
  | None => None
  end.

(** [Vec] slices [v[start..end]]; [None] is the panic of an out-of-range
    slice. *)
Definition slice {A} (l : list A) (first stop : N) : option (list A) :=
  if (first <=? stop)%N && (stop <=? N.of_nat (length l))%N
  then Some (take (N.to_nat (stop - first)) (drop (N.to_nat first) l))
  else None.

(** [v[start..start + len(w)].copy_from_slice(w)]. *)
Definition write_slice {A} (l : list A) (first : N) (w : list A) : option (list A) :=
  if (first + N.of_nat (length w) <=? N.of_nat (length l))%N
  then Some (take (N.to_nat first) l ++ w
               ++ drop (N.to_nat first + length w) l)
  else None.

Section vec.
Context {A : Type}.
Implicit Types l : list A.

Lemma vec_pop_Some l x l' : vec_pop l = Some (x, l') ↔ l = l' ++ [x].
Proof.
  unfold vec_pop. split.
  - destruct (last l) as [y|] eqn:Hl; [|done]. intros [= -> <-].
    apply last_Some in Hl as [k ->]. rewrite length_app. simpl.
    f_equal. rewrite take_app_le by lia. rewrite take_ge; [done|lia].
  - intros ->. rewrite last_snoc, length_app. simpl.
    rewrite take_app_le by lia. rewrite take_ge; [done|lia].
Qed.

Lemma vec_pop_None l : vec_pop l = None ↔ l = [].
Proof.
  unfold vec_pop. destruct (last l) eqn:Hl.
  - split; [done|]. intros ->. done.
  - apply last_None in Hl. done.
Qed.

Lemma slice_is_Some l first stop :
  (first ≤ stop)%N → (stop ≤ N.of_nat (length l))%N → is_Some (slice l first stop).
Proof. intros H1 H2. unfold slice. rewrite !(proj2 (N.leb_le _ _)) by done. by eexists. Qed.

Lemma write_slice_length l first w l' :
  write_slice l first w = Some l' → length l' = length l.
Proof.
  unfold write_slice. case_match eqn:Hb; [|done]. intros [= <-].
  bool_to_prop. rewrite !length_app, length_take, length_drop. lia.
Qed.

Lemma write_slice_is_Some l first w :
  (first + N.of_nat (length w) ≤ N.of_nat (length l))%N →
  is_Some (write_slice l first w).
Proof. unfold write_slice. intros. case_match; bool_to_prop; [done|lia]. Qed.

Lemma write_slice_lookup l first w l' (i : nat) :
  write_slice l first w = Some l' →
  l' !! i = if decide (N.to_nat first ≤ i < N.to_nat first + length w)
            then w !! (i - N.to_nat first) else l !! i.
Proof.
  unfold write_slice. case_match eqn:Hb; [|done]. intros [= <-]. bool_to_prop.
  assert (length (take (N.to_nat first) l) = N.to_nat first) as Hlen
    by (rewrite length_take; lia).
  case_decide as Hi.
  - rewrite lookup_app_r by lia. rewrite Hlen. rewrite lookup_app_l by lia. done.
  - destruct (decide (i < N.to_nat first)).
    + rewrite lookup_app_l by lia. rewrite lookup_take. by rewrite decide_True by lia.
    + rewrite lookup_app_r by lia. rewrite Hlen. rewrite lookup_app_r by lia.
      rewrite lookup_drop. f_equal. lia.
Qed.
End vec.

(** ** First minimum

    [Iterator::min_by_key] keeps the first of several equal minima; [lt] is the
    strict order of the keys. *)
Definition first_min {A} (lt : A → A → bool) (l : list A) : option A :=
  foldl (λ acc x, match acc with
                  | None => Some x
                  | Some y => if lt x y then Some x else Some y
                  end) None l.

Section first_min.
Context {A : Type} (lt : A → A → bool).
Context (lt_trans_ge : ∀ x y z, lt x y = false → lt y z = false → lt x z = false)
        (lt_asym : ∀ x y, lt x y = true → lt y x = false).

Let step := (λ (acc : option A) x, match acc with
                | None => Some x
                | Some y => if lt x y then Some x else Some y
                end).

Lemma first_min_fold l a m :
  foldl step (Some a) l = Some m →
  (m = a ∨ m ∈ l) ∧ lt a m = false ∧ ∀ x, x ∈ l → lt x m = false.
Proof using lt_trans_ge lt_asym.
  revert a. induction l as [|b l IH]; intros a; simpl.
  - intros [= <-]. split; [by left|]. split; [|set_solver].
    destruct (lt a a) eqn:E; [|done]. rewrite <- E. by apply lt_asym.
  - destruct (lt b a) eqn:Hba; intros H; apply IH in H as (Hin & Hm & Hall).
    + split; [set_solver|]. split.
      * apply (lt_trans_ge a b m); [by apply lt_asym|done].
      * intros x [->|?]%elem_of_cons; [done|by apply Hall].
    + split; [set_solver|]. split; [done|].
      intros x [->|?]%elem_of_cons; [|by apply Hall].
      by apply (lt_trans_ge b a m).
Qed.

Lemma first_min_None l : first_min lt l = None ↔ l = [].
Proof.
  destruct l as [|a l]; [done|]. split; [|done]. unfold first_min. simpl.
  assert (∀ a, foldl step (Some a) l ≠ None) as Hne; [|by intros ?%Hne].
  induction l as [|b l IH]; intros c; simpl; [done|]. destruct (lt b c); apply IH.
Qed.

Lemma first_min_Some l m :
  first_min lt l = Some m → m ∈ l ∧ ∀ x, x ∈ l → lt x m = false.
Proof using lt_trans_ge lt_asym.
  destruct l as [|a l]; [done|]. unfold first_min. simpl. intros H.
  apply first_min_fold in H as (Hin & Ha & Hall). split; [set_solver|].
  intros x [->|?]%elem_of_cons; [done|by apply Hall].
Qed.
End first_min.

(** ** Iteration order of hash tables

    The order in which [HashMap] and [HashSet] yield their elements is
    unspecified.  Code that iterates over one is modelled over an arbitrary
    order, an instance of this class. *)
Class HashOrder := {
  hash_elems : ∀ {K : Type} `{Countable K}, gset K → list K;
  hash_elems_perm : ∀ {K : Type} `{Countable K} (X : gset K),
    hash_elems X ≡ₚ elements X;
}.

(** The order stdpp's [elements] gives, for evaluation on concrete inputs. *)
Definition elements_order : HashOrder := {|
  hash_elems := λ K _ _ X, elements X;
  hash_elems_perm := λ K _ _ X, Permutation_refl _;
|}.

(** The pairs of a [HashMap] in its iteration order. *)
Definition hash_entries `{HashOrder} {K V} `{Countable K} (m : gmap K V) : list (K * V) :=
  omap (λ k, v ← m !! k; Some (k, v)) (hash_elems (dom m)).

Definition hash_values `{HashOrder} {K V} `{Countable K} (m : gmap K V) : list V :=
  (hash_entries m).*2.

Section hash_order.
Context `{HashOrder} {K V : Type} `{Countable K}.
Implicit Types (m : gmap K V) (X : gset K).

Lemma elem_of_hash_elems X k : k ∈ hash_elems X ↔ k ∈ X.
Proof. by rewrite hash_elems_perm, elem_of_elements. Qed.

Lemma NoDup_hash_elems X : NoDup (hash_elems X).
Proof. rewrite hash_elems_perm. apply NoDup_elements. Qed.

Lemma elem_of_hash_entries m k v : (k, v) ∈ hash_entries m ↔ m !! k = Some v.
Proof.
  unfold hash_entries. rewrite list_elem_of_omap. split.
  - intros (k' & _ & Hk). destruct (m !! k') eqn:E; simplify_eq/=. done.
  - intros Hk. exists k. split; [|by rewrite Hk].
    apply elem_of_hash_elems, elem_of_dom. eauto.
Qed.

Lemma elem_of_hash_values m v : v ∈ hash_values m ↔ ∃ k, m !! k = Some v.
Proof.
  unfold hash_values. rewrite list_elem_of_fmap. split.
  - intros ([k v'] & -> & ?%elem_of_hash_entries). eauto.
  - intros [k ?%elem_of_hash_entries]. by exists (k, v).
Qed.

Lemma NoDup_hash_entries m : NoDup (hash_entries m).
Proof.
  unfold hash_entries. generalize (NoDup_hash_elems (dom m)).
  induction (hash_elems (dom m)) as [|k l IH]; simpl; [constructor|].
  intros [Hk Hl]%NoDup_cons. destruct (m !! k) eqn:E; simpl; [|by apply IH].
  apply NoDup_cons. split; [|by apply IH].
  rewrite list_elem_of_omap. intros (k' & Hin & Hk').
  by destruct (m !! k'); simplify_eq/=.
Qed.

Lemma hash_entries_perm m : hash_entries m ≡ₚ map_to_list m.
Proof.
  apply NoDup_Permutation; [apply NoDup_hash_entries|apply NoDup_map_to_list|].
  intros [k v]. by rewrite elem_of_hash_entries, elem_of_map_to_list.
Qed.
End hash_order.

(** ** Characters

    A [char] is its code point. *)
Definition char_is_whitespace (c : N) : bool :=
  ((9 <=? c) && (c <=? 13) || (c =? 32) || (c =? 133) || (c =? 160) || (c =? 5760)
   || (8192 <=? c) && (c <=? 8202) || (c =? 8232) || (c =? 8233) || (c =? 8239)
   || (c =? 8287) || (c =? 12288))%N.

(** ** Counting the entries of a map *)
Definition count_if {K A} `{Countable K} (P : A → bool) (m : gmap K A) : nat :=
  size (filter (λ kv, P kv.2 = true) m).

Section count_if.
Context {K A : Type} `{Countable K}.
Implicit Types (P : A → bool) (m : gmap K A).

Lemma count_if_empty P : count_if P (∅ : gmap K A) = O.
Proof. unfold count_if. by rewrite map_filter_empty, map_size_empty. Qed.

Lemma count_if_insert_fresh P m k x :
  m !! k = None → count_if P (<[k := x]> m) = (Nat.b2n (P x) + count_if P m)%nat.
Proof.
  intros Hk. unfold count_if. destruct (P x) eqn:HP.
  - rewrite map_filter_insert_True by done. rewrite map_size_insert_None; [done|].
    apply map_lookup_filter_None. by left.
  - rewrite map_filter_insert_False by (simpl; congruence). by rewrite delete_id.
Qed.

Lemma count_if_insert P m k x y :
  m !! k = Some x →
  (count_if P (<[k := y]> m) + Nat.b2n (P x) = Nat.b2n (P y) + count_if P m)%nat.
Proof.
  intros Hk. rewrite <- insert_delete_eq, count_if_insert_fresh by apply lookup_delete_eq.
  rewrite <- (insert_id m k x Hk) at 2. rewrite <- insert_delete_eq.
  rewrite count_if_insert_fresh by apply lookup_delete_eq. lia.
Qed.

Lemma count_if_fmap P m (f : A → A) :
  (∀ x, P (f x) = P x) → count_if P (f <$> m) = count_if P m.
Proof.
  intros Hf. unfold count_if. rewrite map_filter_fmap, map_size_fmap.
  f_equal. apply map_filter_ext. intros k x _. simpl. by rewrite Hf.
Qed.

Lemma count_if_disjoint P Q m :
  (∀ x, P x = true → Q x = false) → (count_if P m + count_if Q m ≤ size m)%nat.
Proof.
  intros HPQ. induction m as [|k x m Hk IH] using map_ind.
  - by rewrite !count_if_empty, map_size_empty.
  - rewrite !count_if_insert_fresh, map_size_insert_None by done.
    specialize (HPQ x). destruct (P x), (Q x); simpl; [by specialize (HPQ eq_refl)|lia..].
Qed.

Lemma count_if_le P m : (count_if P m ≤ size m)%nat.
Proof. apply map_size_filter. Qed.

Lemma count_if_pos P m k x :
  m !! k = Some x → (Nat.b2n (P x) ≤ count_if P m)%nat.
Proof.
  intros Hk. rewrite <- (insert_id m k x Hk), <- insert_delete_eq.
  rewrite count_if_insert_fresh by apply lookup_delete_eq. lia.
Qed.
End count_if.

(** ** Sums over finite maps *)
Section map_sum.
Context {K A : Type} `{Countable K} (f : A → N).
Implicit Types m : gmap K A.

Definition map_sum (m : gmap K A) : N := map_fold (λ _ x n, (f x + n)%N) 0%N m.

Lemma map_sum_empty : map_sum ∅ = 0%N.
Proof. apply map_fold_empty. Qed.

Lemma map_sum_insert_fresh m k x :
  m !! k = None → map_sum (<[k := x]> m) = (f x + map_sum m)%N.
Proof. intros Hk. unfold map_sum. rewrite map_fold_insert_L; [done|intros; lia|done]. Qed.

Lemma map_sum_delete m k x :
  m !! k = Some x → map_sum m = (f x + map_sum (delete k m))%N.
Proof. intros Hk. unfold map_sum. rewrite (map_fold_delete_L _ _ k x); [done|intros; lia|done]. Qed.

Lemma map_sum_insert_same m k x y :
  m !! k = Some x → f y = f x → map_sum (<[k := y]> m) = map_sum m.
Proof.
  intros Hk Hf. rewrite (map_sum_delete m k x) by done.
  rewrite <- insert_delete_eq, map_sum_insert_fresh by apply lookup_delete_eq. by rewrite Hf.
Qed.

Lemma map_sum_zero m : (∀ k, m !! k = None) → map_sum m = 0%N.
Proof. intros Hm. assert (m = ∅) as -> by by apply map_empty. apply map_sum_empty. Qed.
End map_sum.

(** ** Sorted queues *)
Lemma StronglySorted_snoc (l : list N) (x : N) :
  StronglySorted N.lt l → (∀ y, y ∈ l → (y < x)%N) → StronglySorted N.lt (l ++ [x]).
Proof.
  induction 1 as [|y l Hl IH Hy]; intros Hx; simpl; [repeat constructor|].
  constructor; [apply IH; set_solver|]. rewrite Forall_app. split; [done|].
  repeat constructor. apply Hx. set_solver.
Qed.

Lemma StronglySorted_NoDup (l : list N) : StronglySorted N.lt l → NoDup l.
Proof.
  induction 1 as [|y l Hl IH Hy]; constructor; [|done].
  rewrite Forall_forall in Hy. intros Hin. specialize (Hy y Hin). lia.
Qed.

(** ** Little-endian integers *)

(** [to_le_bytes] of an [n]-byte unsigned integer. *)
Fixpoint le_bytes (n : nat) (x : N) : list N :=
  match n with
  | O => []
  | S n => (x mod 256)%N :: le_bytes n (x / 256)%N
  end.

Lemma le_bytes_length n x : length (le_bytes n x) = n.
Proof. revert x. induction n as [|n IH]; intros x; simpl; [done|]. by rewrite IH. Qed.

Lemma le_bytes_inj n x y :
  (x < 256 ^ N.of_nat n)%N → (y < 256 ^ N.of_nat n)%N →
  le_bytes n x = le_bytes n y → x = y.
Proof.
  revert x y. induction n as [|n IH]; intros x y Hx Hy; simpl.
  - change (256 ^ N.of_nat 0)%N with 1%N in *. lia.
  - intros [= Hmod Hdiv]. rewrite Nat2N.inj_succ, N.pow_succ_r' in Hx, Hy.
    apply IH in Hdiv; [|apply N.Div0.div_lt_upper_bound; lia..].
    rewrite (N.div_mod x 256), (N.div_mod y 256) by done. by rewrite Hmod, Hdiv.
Qed.
