(* ===== verification/Ord.v ===== *)
(** * Derived orderings and ordered sets

    Rust's [Ord] for the types the program uses as ordered keys (integers,
    [Option], vectors and strings, records through tuples), and [BTreeSet] as
    the strictly increasing list of its elements. *)
From Stdlib Require Import Sorted.
From stdpp Require Import base sets numbers list.
From S2P Require Import Prelude.

Class Ord (A : Type) := { cmp : A → A → comparison }.
Arguments cmp {A _} x y.

(** A total order. *)
Class OrdLaws (A : Type) `{Ord A} := {
  cmp_eq : ∀ x y, cmp x y = Eq ↔ x = y;
  cmp_swap : ∀ x y, cmp y x = CompOpp (cmp x y);
  cmp_lt_trans : ∀ x y z, cmp x y = Lt → cmp y z = Lt → cmp x z = Lt;
}.

(** ** Instances *)
#[export] Instance N_ord : Ord N := { cmp := N.compare }.
#[export] Instance N_ord_laws : OrdLaws N.
Proof.
  split; simpl; intros.
  - apply N.compare_eq_iff.
  - apply N.compare_antisym.
  - rewrite N.compare_lt_iff in *. lia.
Qed.

(** [None] is less than every [Some]. *)
#[export] Instance option_ord `{Ord A} : Ord (option A) := { cmp x y :=
  match x, y with
  | None, None => Eq
  | None, Some _ => Lt
  | Some _, None => Gt
  | Some x, Some y => cmp x y
  end }.
#[export] Instance option_ord_laws `{OrdLaws A} : OrdLaws (option A).
Proof.
  split.
  - intros [x|] [y|]; simpl; try done. rewrite cmp_eq. naive_solver.
  - intros [x|] [y|]; simpl; try done. apply cmp_swap.
  - intros [x|] [y|] [z|]; simpl; try done. apply cmp_lt_trans.
Qed.

(** Fields in order, the first difference deciding. *)
Definition cmp_then (c d : comparison) : comparison := match c with Eq => d | _ => c end.

#[export] Instance prod_ord `{Ord A, Ord B} : Ord (A * B) := { cmp x y := cmp_then (cmp x.1 y.1) (cmp x.2 y.2) }.
#[export] Instance prod_ord_laws `{OrdLaws A, OrdLaws B} : OrdLaws (A * B).
Proof.
  split; simpl.
  - intros [a b] [c d]; simpl. destruct (cmp a c) eqn:E; simpl.
    + apply cmp_eq in E as ->. rewrite cmp_eq. naive_solver.
    + split; [done|]. intros [= -> ->]. assert (cmp c c = Eq) by by apply cmp_eq. congruence.
    + split; [done|]. intros [= -> ->]. assert (cmp c c = Eq) by by apply cmp_eq. congruence.
  - intros [a b] [c d]; simpl. rewrite (cmp_swap a c). destruct (cmp a c); simpl; [apply cmp_swap|done|done].
  - intros [a b] [c d] [e f]; simpl. destruct (cmp a c) eqn:E1, (cmp c e) eqn:E2; simpl; try done.
    + apply cmp_eq in E1 as ->. rewrite E2. apply cmp_lt_trans.
    + apply cmp_eq in E1 as ->. by rewrite E2.
    + apply cmp_eq in E2 as ->. by rewrite E1.
    + by rewrite (cmp_lt_trans _ _ _ E1 E2).
Qed.

(** Vectors and strings are compared lexicographically, a prefix first. *)
Fixpoint list_cmp `{Ord A} (x y : list A) : comparison :=
  match x, y with
  | [], [] => Eq
  | [], _ :: _ => Lt
  | _ :: _, [] => Gt
  | a :: x, b :: y => cmp_then (cmp a b) (list_cmp x y)
  end.
#[export] Instance list_ord `{Ord A} : Ord (list A) := { cmp := list_cmp }.
#[export] Instance list_ord_laws `{OrdLaws A} : OrdLaws (list A).
Proof.
  split; simpl.
  - induction x as [|a x IH]; intros [|b y]; simpl; try done.
    destruct (cmp a b) eqn:E; simpl.
    + apply cmp_eq in E as ->. rewrite IH. naive_solver.
    + split; [done|]. intros [= -> ->]. assert (cmp b b = Eq) by by apply cmp_eq. congruence.
    + split; [done|]. intros [= -> ->]. assert (cmp b b = Eq) by by apply cmp_eq. congruence.
  - induction x as [|a x IH]; intros [|b y]; simpl; try done.
    rewrite (cmp_swap a b). destruct (cmp a b); simpl; [apply IH|done|done].
  - induction x as [|a x IH]; intros [|b y] [|c z]; simpl; try done.
    destruct (cmp a b) eqn:E1, (cmp b c) eqn:E2; simpl; try done.
    + apply cmp_eq in E1 as ->. rewrite E2. apply IH.
    + apply cmp_eq in E1 as ->. by rewrite E2.
    + apply cmp_eq in E2 as ->. by rewrite E1.
    + by rewrite (cmp_lt_trans _ _ _ E1 E2).
Qed.

(** A type ordered through an injection into an ordered one: how a derived
    [Ord] compares a record, by the tuple of its fields. *)
Definition ord_via {A B} `{Ord B} (f : A → B) : Ord A := {| cmp x y := cmp (f x) (f y) |}.
Lemma ord_via_laws {A B} `{OrdLaws B} (f : A → B) `{!Inj (=) (=) f} : @OrdLaws A (ord_via f).
Proof.
  split; simpl; intros.
  - rewrite cmp_eq. split; [apply inj; apply _|by intros ->].
  - apply cmp_swap.
  - by eapply cmp_lt_trans.
Qed.

(** ** BTreeSet *)
Fixpoint btree_insert `{Ord A} (x : A) (l : list A) : list A :=
  match l with
  | [] => [x]
  | y :: l' =>
      match cmp x y with
      | Lt => x :: l
      | Eq => l
      | Gt => y :: btree_insert x l'
      end
  end.

Fixpoint btree_remove `{Ord A} (x : A) (l : list A) : list A :=
  match l with
  | [] => []
  | y :: l' => match cmp x y with Eq => l' | _ => y :: btree_remove x l' end
  end.

Section btree.
Context {A : Type} `{OrdLaws A}.
Implicit Types (x y : A) (l : list A).

Definition increasing l : Prop := StronglySorted (λ x y, cmp x y = Lt) l.

Lemma cmp_refl x : cmp x x = Eq.
Proof. by apply cmp_eq. Qed.

Lemma cmp_gt_lt x y : cmp x y = Gt ↔ cmp y x = Lt.
Proof. rewrite (cmp_swap y x). destruct (cmp y x); by split. Qed.

Lemma cmp_lt_ne x y : cmp x y = Lt → x ≠ y.
Proof. intros Hlt ->. rewrite cmp_refl in Hlt. done. Qed.

Lemma elem_of_btree_insert x y l : y ∈ btree_insert x l ↔ y = x ∨ y ∈ l.
Proof.
  induction l as [|z l IH]; simpl; [set_solver|].
  destruct (cmp x z) eqn:E; [apply cmp_eq in E as ->|..]; set_solver.
Qed.

Lemma increasing_insert x l : increasing l → increasing (btree_insert x l).
Proof.
  unfold increasing. induction 1 as [|z l Hl IH Hz]; simpl; [repeat constructor|].
  destruct (cmp x z) eqn:E.
  - by constructor.
  - constructor; [by constructor|]. constructor; [done|].
    eapply Forall_impl; [exact Hz|]. intros w Hw. simpl in Hw. by eapply cmp_lt_trans.
  - constructor; [done|]. apply Forall_forall. intros w [->|Hw]%elem_of_btree_insert.
    + by apply cmp_gt_lt.
    + rewrite Forall_forall in Hz. by apply Hz.
Qed.

Lemma elem_of_btree_remove x y l : increasing l → y ∈ btree_remove x l ↔ y ≠ x ∧ y ∈ l.
Proof.
  unfold increasing. induction 1 as [|z l Hl IH Hz]; simpl; [set_solver|].
  rewrite Forall_forall in Hz. destruct (cmp x z) eqn:E.
  - apply cmp_eq in E as ->. rewrite elem_of_cons. split; [|naive_solver].
    intros Hy. split; [|by right]. intros ->. by apply (cmp_lt_ne z z (Hz z Hy)).
  - rewrite !elem_of_cons, IH. apply cmp_lt_ne in E. naive_solver.
  - rewrite !elem_of_cons, IH. apply cmp_gt_lt, cmp_lt_ne in E. naive_solver.
Qed.

Lemma increasing_remove x l : increasing l → increasing (btree_remove x l).
Proof.
  intros Hs. assert (increasing l) as Hs' by done. revert Hs. unfold increasing.
  induction 1 as [|z l Hl IH Hz]; simpl; [constructor|].
  destruct (cmp x z); [done|..]; (constructor; [by apply IH|]; rewrite Forall_forall in *;
    intros w Hw; apply Hz; apply elem_of_btree_remove in Hw; [by destruct Hw|done]).
Qed.

Lemma increasing_NoDup l : increasing l → NoDup l.
Proof.
  unfold increasing. induction 1 as [|z l Hl IH Hz]; constructor; [|done].
  rewrite Forall_forall in Hz. intros Hin. by apply (cmp_lt_ne z z (Hz z Hin)).
Qed.

Lemma increasing_head x l y : increasing (x :: l) → y ∈ l → cmp x y = Lt.
Proof. intros [_ Hf]%StronglySorted_inv Hy. rewrite Forall_forall in Hf. by apply Hf. Qed.

Lemma increasing_tail x l : increasing (x :: l) → increasing l.
Proof. by intros [? _]%StronglySorted_inv. Qed.

Lemma btree_remove_length x l : (length (btree_remove x l) ≤ length l)%nat.
Proof. induction l as [|y l IH]; simpl; [done|]. destruct (cmp x y); simpl; lia. Qed.

Lemma btree_remove_head x l : btree_remove x (x :: l) = l.
Proof. simpl. by rewrite cmp_refl. Qed.
End btree.
