(* ===== verification/KvTables.v ===== *)
(** * Token budget, block identifiers and block tables of [llm-kv-cache]

    Models [lib.rs] ([KvCacheBudget], [KvCacheError]), [block_id.rs] and
    [block_table.rs] of [crates/llm-kv-cache/src].  The tables are the data the
    allocator of [BlockPool.v] threads through its operations. *)
From stdpp Require Import base gmap sets numbers list.
From S2P Require Import Prelude.
Open Scope N_scope.

(** ** Errors *)
Inductive KvCacheFormat := FormatF32 | FormatF16 | FormatInt8 | FormatAsymmetricVq.

Inductive KvCacheError :=
| CapacityExceeded (requested available : N)
| ShapeMismatch (expected actual : N)
| UnsupportedFormat (format : KvCacheFormat)
| NonFiniteValue
| InvalidShape.

#[export] Instance KvCacheFormat_eq_dec : EqDecision KvCacheFormat.
Proof. solve_decision. Defined.
#[export] Instance KvCacheError_eq_dec : EqDecision KvCacheError.
Proof. solve_decision. Defined.

(** ** Token budget *)
Module KvCacheBudget.
Record t := Make { max_tokens : N; used_tokens : N }.

Definition new (max_tokens : N) : t := Make max_tokens 0.

(** [self.max_tokens - self.used_tokens]: an unchecked subtraction. *)
Definition remaining_tokens (b : t) : N := wrap_sub (max_tokens b) (used_tokens b).

Definition reserve (tokens : N) (b : t) : outcome KvCacheError unit * t :=
  match checked_add (used_tokens b) tokens with
  | None => (Err (CapacityExceeded tokens (remaining_tokens b)), b)
  | Some next =>
      if max_tokens b <? next
      then (Err (CapacityExceeded tokens (remaining_tokens b)), b)
      else (Ok tt, Make (max_tokens b) next)
  end.

Definition release (tokens : N) (b : t) : t :=
  Make (max_tokens b) (sat_sub (used_tokens b) tokens).

(** One call of a client, and a run of several. *)
Inductive call := Reserve (tokens : N) | Release (tokens : N).

Definition apply_call (b : t) (c : call) : t :=
  match c with
  | Reserve n => (reserve n b).2
  | Release n => release n b
  end.

Definition run (b : t) (cs : list call) : t := foldl apply_call b cs.

Definition wf (b : t) : Prop := used_tokens b ≤ max_tokens b ∧ max_tokens b ≤ u64_max.

Lemma reserve_spec n b :
  wf b →
  reserve n b =
    if used_tokens b + n <=? max_tokens b
    then (Ok tt, Make (max_tokens b) (used_tokens b + n))
    else (Err (CapacityExceeded n (max_tokens b - used_tokens b)), b).
Proof.
  intros [Hu Hm]. unfold reserve, checked_add, remaining_tokens.
  rewrite wrap_sub_small by lia.
  destruct (N.leb_spec (used_tokens b + n) u64_max);
    destruct (N.leb_spec (used_tokens b + n) (max_tokens b)); try lia; try done.
  - destruct (N.ltb_spec (max_tokens b) (used_tokens b + n)); [lia|done].
  - destruct (N.ltb_spec (max_tokens b) (used_tokens b + n)); [done|lia].
Qed.

Lemma apply_call_wf b c : wf b → wf (apply_call b c).
Proof.
  intros Hb. destruct c as [n|n]; simpl.
  - rewrite reserve_spec by done. case_match; bool_to_prop; [|done].
    destruct Hb. unfold wf; simpl. lia.
  - unfold wf, release, sat_sub in *; simpl. lia.
Qed.

Lemma run_wf b cs : wf b → wf (run b cs).
Proof. revert b. induction cs; intros b Hb; simpl; [done|]. by apply IHcs, apply_call_wf. Qed.

Lemma run_max b cs : max_tokens (run b cs) = max_tokens b.
Proof.
  revert b. induction cs as [|c cs IH]; intros b; simpl; [done|]. rewrite IH.
  destruct c; simpl; [|done]. unfold reserve. repeat case_match; done.
Qed.

(** C40: after any sequence of reservations and releases on a fresh budget, a
    reservation of [n] tokens succeeds exactly when [n] fits in what remains,
    adds [n] to the used tokens, and otherwise fails with the exact free amount
    and leaves the budget as it was; no arithmetic of the budget wraps. *)
Theorem budget_reserve_exact max cs n :
  max ≤ u64_max →
  let b := run (new max) cs in
  used_tokens b ≤ max
  ∧ remaining_tokens b = max - used_tokens b
  ∧ reserve n b =
      if n <=? max - used_tokens b
      then (Ok tt, Make max (used_tokens b + n))
      else (Err (CapacityExceeded n (max - used_tokens b)), b).
Proof.
  intros Hmax b.
  assert (wf b) as Hb by (apply run_wf; unfold wf, new; simpl; lia).
  assert (max_tokens b = max) as Hm by apply run_max.
  pose proof Hb as [Hu _]. rewrite Hm in Hu. split; [done|]. split.
  - unfold remaining_tokens. rewrite Hm. apply wrap_sub_small; lia.
  - rewrite reserve_spec by done. rewrite Hm.
    destruct (N.leb_spec (used_tokens b + n) max), (N.leb_spec n (max - used_tokens b));
      try lia; done.
Qed.

Lemma budget_reserve_exact_witness :
  (reserve 2 (run (new 4) [Reserve 3; Reserve 2])).1 = Err (CapacityExceeded 2 1).
Proof.
  pose proof (budget_reserve_exact 4 [Reserve 3; Reserve 2] 2) as H.
  destruct H as (_ & _ & H); [vm_compute; discriminate|]. rewrite H. reflexivity.
Defined.
End KvCacheBudget.

(** ** Block identifiers

    [BlockId(u64)]: zero is [INVALID].  The counter behind [BlockId::next] is a
    process-wide atomic, an explicit state here. *)
Module BlockId.
Definition INVALID : N := 0.
Definition new (raw : N) : option N := if raw =? 0 then None else Some raw.
Definition is_valid (id : N) : bool := negb (id =? 0).
Definition is_invalid (id : N) : bool := id =? 0.

(** [NEXT_BLOCK_ID] before the first call. *)
Definition first_block_id : N := 1.

(** [fetch_update(.., |current| current.checked_add(1).filter(|next| ..))]:
    the value before the update, or the error and an unchanged counter. *)
Definition next (counter : N) : outcome KvCacheError N * N :=
  match checked_add counter 1 with
  | Some n =>
      if n =? INVALID then (Err InvalidShape, counter) else (Ok counter, n)
  | None => (Err InvalidShape, counter)
  end.

Lemma next_Ok counter id counter' :
  next counter = (Ok id, counter') → id = counter ∧ counter' = counter + 1.
Proof.
  unfold next. destruct (checked_add counter 1) as [n|] eqn:Hn; [|done].
  apply checked_add_Some in Hn as [-> ?]. case_match; intros; simplify_eq. done.
Qed.

Lemma next_not_Panic counter c' : next counter ≠ (Panic, c').
Proof. unfold next. repeat case_match; done. Qed.
End BlockId.

Abbreviation BlockIdT := N (only parsing).
Abbreviation SessionIdT := N (only parsing).

(** ** Block tables *)
Module BlockTable.
Record t := Make { blocks : list BlockIdT }.

Definition new : t := Make [].

Definition append (block_id : BlockIdT) (tb : t) : outcome KvCacheError t :=
  if BlockId.is_invalid block_id then Err InvalidShape
  else Ok (Make (blocks tb ++ [block_id])).

Definition block_count (tb : t) : nat := length (blocks tb).
Definition is_empty (tb : t) : bool :=
  match blocks tb with [] => true | _ => false end.
Definition get (index : nat) (tb : t) : option BlockIdT := blocks tb !! index.

(** [replace] returns the previous identifier and the updated table. *)
Definition replace (index : nat) (block_id : BlockIdT) (tb : t)
    : outcome KvCacheError (BlockIdT * t) :=
  if BlockId.is_invalid block_id then Err InvalidShape
  else match blocks tb !! index with
       | None => Err InvalidShape
       | Some previous => Ok (previous, Make (<[index := block_id]> (blocks tb)))
       end.

Definition contains (block_id : BlockIdT) (tb : t) : bool :=
  bool_decide (block_id ∈ blocks tb).

Definition remove_last (tb : t) : option (BlockIdT * t) :=
  '(id, rest) ← vec_pop (blocks tb); Some (id, Make rest).

Definition clear (tb : t) : t := Make [].
End BlockTable.

(** ** Session tables *)
Module SessionBlockTable.
Record t := Make {
  session_id : SessionIdT;
  created_at : N;
  last_access : N;
  block_table : BlockTable.t;
  owned_blocks : gset BlockIdT;
}.

Definition new (session_id created_at : N) : outcome KvCacheError t :=
  if session_id =? 0 then Err InvalidShape
  else Ok (Make session_id created_at created_at BlockTable.new ∅).

Definition block_count (s : t) : nat := BlockTable.block_count (block_table s).
Definition owned_block_count (s : t) : nat := size (owned_blocks s).
Definition is_empty (s : t) : bool := BlockTable.is_empty (block_table s).
Definition block_ids (s : t) : list BlockIdT := BlockTable.blocks (block_table s).
Definition read_block (index : nat) (s : t) : option BlockIdT :=
  BlockTable.get index (block_table s).
Definition owns_block (block_id : BlockIdT) (s : t) : bool :=
  bool_decide (block_id ∈ owned_blocks s).

Definition with_blocks (tb : BlockTable.t) (owned : gset BlockIdT) (s : t) : t :=
  Make (session_id s) (created_at s) (last_access s) tb owned.

(** [append_owned_block]: the boolean is [HashSet::insert]'s, true when the
    session did not own the block before. *)
Definition append_owned_block (block_id : BlockIdT) (s : t)
    : outcome KvCacheError (bool * t) :=
  if BlockId.is_invalid block_id then Err InvalidShape
  else tb ← BlockTable.append block_id (block_table s);
       Ok (negb (owns_block block_id s),
           with_blocks tb ({[block_id]} ∪ owned_blocks s) s).

Definition append_block (block_id : BlockIdT) (s : t) : outcome KvCacheError t :=
  snd <$> append_owned_block block_id s.

(** [replace_owned_block]: the previous identifier, whether its ownership must
    be released, and the session. *)
Definition replace_owned_block (index : nat) (block_id : BlockIdT) (s : t)
    : outcome KvCacheError (BlockIdT * bool * t) :=
  '(previous, tb) ← BlockTable.replace index block_id (block_table s);
  let owned := {[block_id]} ∪ owned_blocks s in
  let should_release_previous := negb (BlockTable.contains previous tb) in
  let owned := if should_release_previous then owned ∖ {[previous]} else owned in
  Ok (previous, should_release_previous, with_blocks tb owned s).

Definition touch (access : N) (s : t) : t :=
  Make (session_id s) (created_at s) access (block_table s) (owned_blocks s).

(** A session owns exactly the blocks its table lists, all of them valid. *)
Definition wf (s : t) : Prop :=
  session_id s ≠ 0
  ∧ (∀ id, id ∈ owned_blocks s ↔ id ∈ block_ids s)
  ∧ 0 ∉ owned_blocks s.

Lemma new_wf sid at_ s : new sid at_ = Ok s → wf s.
Proof.
  unfold new. case_match eqn:H; [done|]. intros [= <-]. bool_to_prop.
  split; [done|]. split; [|set_solver]. intros. unfold block_ids; simpl. set_solver.
Qed.

Lemma append_owned_block_Ok id s newly s' :
  append_owned_block id s = Ok (newly, s') ↔
  id ≠ 0 ∧ newly = bool_decide (id ∉ owned_blocks s)
  ∧ s' = with_blocks (BlockTable.Make (block_ids s ++ [id])) ({[id]} ∪ owned_blocks s) s.
Proof.
  unfold append_owned_block, BlockTable.append, BlockId.is_invalid, owns_block.
  destruct (N.eqb_spec id 0) as [->|Hid]; simpl.
  - split; [done|]. by intros (? & _).
  - rewrite <- bool_decide_not. split; [by intros [= <- <-]|]. by intros (_ & -> & ->).
Qed.

Lemma append_owned_block_wf id s newly s' :
  wf s → append_owned_block id s = Ok (newly, s') → wf s'.
Proof.
  intros (Hs & Hown & H0). rewrite append_owned_block_Ok. intros (Hid & _ & ->).
  unfold wf, with_blocks, block_ids in *; simpl. split; [done|]. split.
  - intros x. rewrite elem_of_app. set_solver.
  - set_solver.
Qed.

Lemma replace_owned_block_Ok index id s prev rel s' :
  wf s →
  replace_owned_block index id s = Ok (prev, rel, s') →
  id ≠ 0 ∧ block_ids s !! index = Some prev
  ∧ block_ids s' = <[index := id]> (block_ids s)
  ∧ rel = bool_decide (prev ∉ block_ids s')
  ∧ wf s' ∧ session_id s' = session_id s
  ∧ created_at s' = created_at s ∧ last_access s' = last_access s.
Proof.
  intros (Hs & Hown & H0). unfold replace_owned_block, BlockTable.replace, BlockId.is_invalid.
  destruct (N.eqb_spec id 0) as [->|Hid]; simpl; [done|].
  change (BlockTable.blocks (block_table s)) with (block_ids s).
  destruct (block_ids s !! index) as [p|] eqn:Hp; simpl; [|done].
  intros [= <- <- <-].
  unfold BlockTable.contains, with_blocks; simpl. rewrite <- bool_decide_not.
  assert (∀ x, x ∈ <[index:=id]> (block_ids s) ↔
            x = id ∨ (x ∈ block_ids s ∧ (x ≠ p ∨ x ∈ <[index:=id]> (block_ids s)))) as Hins.
  { intros x. assert (index < length (block_ids s))%nat as Hlt by (by eapply lookup_lt_Some).
    split.
    - intros Hx. destruct (decide (x = id)); [by left|right]. split; [|by right].
      apply list_elem_of_lookup in Hx as [i Hi].
      destruct (decide (i = index)) as [->|Hne].
      + rewrite list_lookup_insert_eq in Hi by done. congruence.
      + rewrite list_lookup_insert_ne in Hi by done. by eapply list_elem_of_lookup_2.
    - intros [->|[Hx [Hne|Hx']]]; [|..|done].
      + apply (list_elem_of_lookup_2 _ index). by apply list_lookup_insert_eq.
      + apply list_elem_of_lookup in Hx as [i Hi].
        apply (list_elem_of_lookup_2 _ i). rewrite list_lookup_insert_ne; congruence. }
  split_and!; try done. unfold wf, block_ids at 1; simpl.
  change (BlockTable.blocks (block_table s)) with (block_ids s).
  split; [done|]. split.
  - intros x. rewrite (Hins x). case_bool_decide as Hpin;
      rewrite ?elem_of_difference, ?elem_of_union, ?elem_of_singleton, Hown.
    + destruct (decide (x = p)) as [->|]; [|naive_solver].
      rewrite Hins in Hpin. naive_solver.
    + destruct (decide (x = p)) as [->|]; naive_solver.
  - case_bool_decide; set_solver.
Qed.
End SessionBlockTable.
