(* ===== verification/CacheBlock.v ===== *)
(** * Cache blocks with copy-on-write storage

    Models [crates/llm-kv-cache/src/block.rs].  A block's key and value vectors
    live in an [Arc]: clones and retained snapshots share the cell, and every
    write goes through [Arc::make_mut], which copies a shared cell first.  The
    model keeps the cells in an explicit heap with their strong counts. *)
From stdpp Require Import base gmap sets numbers list.
From S2P Require Import Prelude KvTables.
Open Scope N_scope.

(** ** [std::sync::Arc] *)
Module Arc.
Record cell (A : Type) := Cell { strong : N; payload : A }.
Arguments Cell {A} _ _.
Arguments strong {A} _.
Arguments payload {A} _.

Record heap (A : Type) := Heap { cells : gmap N (cell A); next_loc : N }.
Arguments Heap {A} _ _.
Arguments cells {A} _.
Arguments next_loc {A} _.

Section arc.
Context {A : Type}.
Implicit Types (h : heap A) (l : N) (v : A).

Definition empty : heap A := Heap ∅ 0.
Definition new v h : N * heap A :=
  (next_loc h, Heap (<[next_loc h := Cell 1 v]> (cells h)) (next_loc h + 1)).
Definition get l h : option A := payload <$> cells h !! l.
Definition strong_count l h : N :=
  match cells h !! l with Some c => strong c | None => 0 end.
Definition clone l h : heap A :=
  Heap (alter (λ c, Cell (strong c + 1) (payload c)) l (cells h)) (next_loc h).
Definition drop l h : heap A :=
  match cells h !! l with
  | Some c => if strong c <=? 1
              then Heap (delete l (cells h)) (next_loc h)
              else Heap (<[l := Cell (strong c - 1) (payload c)]> (cells h)) (next_loc h)
  | None => h
  end.
(** [*Arc::get_mut(..) = v] on the cell [make_mut] returned. *)
Definition set l v h : heap A :=
  Heap (alter (λ c, Cell (strong c) v) l (cells h)) (next_loc h).
(** [Arc::make_mut]: the location to write to.  A shared payload is moved to
    a fresh cell and the old one loses a reference. *)
Definition make_mut l h : N * heap A :=
  match cells h !! l with
  | Some c => if strong c <=? 1 then (l, h) else new (payload c) (drop l h)
  | None => (l, h)
  end.

(** Live cells are counted and older than the allocation pointer. *)
Definition wf h : Prop :=
  ∀ l c, cells h !! l = Some c → 1 ≤ strong c ∧ l < next_loc h.

Lemma fresh_not_alive h : wf h → cells h !! next_loc h = None.
Proof.
  intros Hh. destruct (cells h !! next_loc h) eqn:E; [|done].
  apply Hh in E. lia.
Qed.

Lemma arc_new_wf v h : wf h → wf (new v h).2.
Proof.
  intros Hh l c. simpl. rewrite lookup_insert. case_decide.
  - intros [= <-]. simpl. lia.
  - intros Hl. apply Hh in Hl. lia.
Qed.

Lemma get_new_ne v h l : l ≠ next_loc h → get l (new v h).2 = get l h.
Proof. intros. unfold get. simpl. by rewrite lookup_insert_ne. Qed.

Lemma set_wf l v h : wf h → wf (set l v h).
Proof.
  intros Hh l' c. simpl. rewrite lookup_alter. case_decide; [subst|by apply Hh].
  destruct (cells h !! l') eqn:E; simpl; [|done]. intros [= <-]. simpl. by apply (Hh _ _ E).
Qed.

Lemma get_set l l' v h :
  get l' (set l v h) = if decide (l = l') then (λ _, v) <$> get l h else get l' h.
Proof.
  unfold get. simpl. rewrite lookup_alter. case_decide; [subst|done].
  by destruct (cells h !! l').
Qed.

Lemma drop_wf l h : wf h → wf (drop l h).
Proof.
  intros Hh. unfold drop. destruct (cells h !! l) as [c|] eqn:E; [|done].
  pose proof (Hh _ _ E). case_match; bool_to_prop; intros l' c'; simpl.
  - rewrite lookup_delete. case_decide; [done|]. apply Hh.
  - rewrite lookup_insert. case_decide; [intros [= <-]; simpl; subst; lia|apply Hh].
Qed.

Lemma get_drop_ne l l' h : l ≠ l' → get l' (drop l h) = get l' h.
Proof.
  intros. unfold get, drop. repeat case_match; simpl; [| |done].
  - by rewrite lookup_delete_ne.
  - by rewrite lookup_insert_ne.
Qed.

Lemma get_drop_shared l l' h :
  1 < strong_count l h → get l' (drop l h) = get l' h.
Proof.
  intros Hs. destruct (decide (l = l')) as [->|]; [|by apply get_drop_ne].
  unfold get, drop, strong_count in *. destruct (cells h !! l') as [c|] eqn:E; [|lia].
  case_match; bool_to_prop; [lia|]. simpl. by rewrite lookup_insert_eq.
Qed.

Lemma next_loc_drop l h : next_loc (drop l h) = next_loc h.
Proof. unfold drop. repeat case_match; done. Qed.

Lemma make_mut_spec l h v :
  wf h → get l h = Some v →
  let '(l', h') := make_mut l h in
  wf h' ∧ get l' h' = Some v ∧ strong_count l' h' = 1
  ∧ (∀ k, k ≠ l → get k h ≠ None → get k h' = get k h ∧ k ≠ l')
  ∧ (1 < strong_count l h → get l h' = Some v ∧ l ≠ l')
  ∧ (strong_count l h ≤ 1 → l' = l ∧ h' = h).
Proof.
  intros Hh Hl. unfold make_mut, get, strong_count in *.
  destruct (cells h !! l) as [c|] eqn:E; simplify_eq/=.
  pose proof (Hh _ _ E) as [Hc Hlt]. destruct (N.leb_spec (strong c) 1) as [Hle|Hgt].
  - rewrite E. split_and!; try done; lia.
  - assert (1 < strong_count l h) as Hsc by (unfold strong_count; by rewrite E).
    assert (∀ k, get k (drop l h) = get k h) as Hget by (intros; by apply get_drop_shared).
    pose proof (drop_wf l h Hh) as Hd.
    assert (∀ k, get k h ≠ None → k ≠ next_loc h) as Hold.
    { intros k Hk ->. apply Hk. unfold get. by rewrite fresh_not_alive. }
    assert (next_loc (drop l h) = next_loc h) as Hnext by apply next_loc_drop.
    unfold new. split_and!.
    + apply (arc_new_wf (payload c) _ Hd).
    + simpl. by rewrite lookup_insert_eq.
    + simpl. by rewrite lookup_insert_eq.
    + intros k Hk Hk'. rewrite Hnext. split; [|by apply Hold].
      assert (cells h !! k ≠ None) by (intros Hn; apply Hk'; by rewrite Hn).
      simpl. rewrite lookup_insert_ne.
      * apply (Hget k).
      * rewrite ?Hnext. intros <-. by apply (Hold (next_loc h)).
    + intros _. rewrite Hnext. split; [|lia]. simpl.
      rewrite lookup_insert_ne by lia. change (get l (drop l h) = Some (payload c)).
      rewrite Hget. unfold get. by rewrite E.
    + lia.
Qed.
End arc.
End Arc.

(** ** Storage and world *)

(** An [f32] the cache only moves around: its bit pattern.  [0.0] is 0. *)
Abbreviation F32 := N (only parsing).
Abbreviation CacheBlockHash := (list N) (only parsing).

Module CacheBlockStorage.
Record t := Make { keys : list F32; values : list F32 }.
Definition new (storage_len : N) : t :=
  Make (replicate (N.to_nat storage_len) 0) (replicate (N.to_nat storage_len) 0).
Definition fill_zero (s : t) : t :=
  Make (replicate (length (keys s)) 0) (replicate (length (values s)) 0).
End CacheBlockStorage.

(** What the blocks of a process share: the identifier counter and the heap of
    storages. *)
Record World := MkWorld {
  next_block_id : N;
  storages : Arc.heap CacheBlockStorage.t;
}.
Definition initial_world : World := MkWorld BlockId.first_block_id Arc.empty.
Definition with_storages (h : Arc.heap CacheBlockStorage.t) (w : World) : World :=
  MkWorld (next_block_id w) h.
Definition next_id (w : World) : outcome KvCacheError N * World :=
  let '(r, c) := BlockId.next (next_block_id w) in (r, MkWorld c (storages w)).

(** [f32_bytes]: [len as u64] times [size_of::<f32>()], saturating. *)
Definition f32_bytes (values : list F32) : N := sat_mul (N.of_nat (length values)) 4.

(** ** Content hash

    The bytes [cache_block_chain_hash] feeds to the SHA-256 hasher; the digest
    itself is a parameter. *)
Definition update_hash_with_bytes (value : list N) : list N :=
  le_bytes 8 (N.of_nat (length value)) ++ value.

(** ["kir-ai-kv-block-chain/v1"] *)
Definition chain_domain : list N :=
  [107; 105; 114; 45; 97; 105; 45; 107; 118; 45; 98; 108; 111; 99; 107; 45;
   99; 104; 97; 105; 110; 47; 118; 49].

Definition cache_block_chain_input (model_id cache_context : list N)
    (previous_hash : CacheBlockHash) (token_ids : list N) : list N :=
  chain_domain ++ update_hash_with_bytes model_id
    ++ update_hash_with_bytes cache_context ++ previous_hash
    ++ le_bytes 8 (N.of_nat (length token_ids)) ++ (token_ids ≫= le_bytes 4).

Definition cache_block_chain_hash (sha256 : list N → CacheBlockHash)
    (model_id cache_context : list N) (previous_hash : CacheBlockHash)
    (token_ids : list N) : CacheBlockHash :=
  sha256 (cache_block_chain_input model_id cache_context previous_hash token_ids).

(** ** Blocks *)
Module CacheBlock.
Record t := Make {
  id : BlockIdT;
  revision : N;
  shared : bool;
  capacity_tokens : N;
  vector_len : N;
  token_count : N;
  ref_count : N;
  content_hash : option CacheBlockHash;
  last_access : N;
  storage : N;
}.

(** [RetainedCacheBlock]: the block's identity and a handle on its storage. *)
Record retained := Retained {
  r_id : BlockIdT;
  r_revision : N;
  r_capacity_tokens : N;
  r_vector_len : N;
  r_token_count : N;
  r_content_hash : option CacheBlockHash;
  r_storage : N;
}.

(** The storage behind a handle; a handle is never dangling in the source. *)
Definition storage_of (l : N) (w : World) : CacheBlockStorage.t :=
  default (CacheBlockStorage.Make [] []) (Arc.get l (storages w)).

Definition new (capacity_tokens vector_len : N) (w : World)
    : outcome KvCacheError t * World :=
  if (capacity_tokens =? 0) || (vector_len =? 0) then (Err InvalidShape, w)
  else match checked_mul capacity_tokens vector_len with
       | None => (Err InvalidShape, w)
       | Some storage_len =>
           match next_id w with
           | (Ok id, w) =>
               let '(l, h) := Arc.new (CacheBlockStorage.new storage_len) (storages w) in
               (Ok (Make id 0 false capacity_tokens vector_len 0 0 None 0 l),
                with_storages h w)
           | (Err e, w) => (Err e, w)
           | (Panic, w) => (Panic, w)
           end
       end.

Definition ensure_exclusive_identity (b : t) (w : World) : outcome KvCacheError t * World :=
  if shared b || (1 <? Arc.strong_count (storage b) (storages w))
  then match next_id w with
       | (Ok id, w) =>
           (Ok (Make id (revision b) false (capacity_tokens b) (vector_len b)
                  (token_count b) (ref_count b) (content_hash b) (last_access b)
                  (storage b)), w)
       | (Err e, w) => (Err e, w)
       | (Panic, w) => (Panic, w)
       end
  else (Ok b, w).

Definition from_retained (r : retained) (w : World) : outcome KvCacheError t * World :=
  if (r_capacity_tokens r =? 0) || (r_vector_len r =? 0)
     || (r_capacity_tokens r <? r_token_count r)
  then (Err InvalidShape, w)
  else match checked_mul (r_capacity_tokens r) (r_vector_len r) with
       | None => (Err InvalidShape, w)
       | Some expected_len =>
           let s := storage_of (r_storage r) w in
           if negb (N.of_nat (length (CacheBlockStorage.keys s)) =? expected_len)
              || negb (N.of_nat (length (CacheBlockStorage.values s)) =? expected_len)
           then (Err InvalidShape, w)
           else (Ok (Make (r_id r) (r_revision r) true (r_capacity_tokens r)
                       (r_vector_len r) (r_token_count r) 0 (r_content_hash r) 0
                       (r_storage r)),
                 with_storages (Arc.clone (r_storage r) (storages w)) w)
       end.

Definition retain_storage (b : t) (w : World) : retained * World :=
  (Retained (id b) (revision b) (capacity_tokens b) (vector_len b) (token_count b)
     (content_hash b) (storage b),
   with_storages (Arc.clone (storage b) (storages w)) w).

(** [impl Clone for CacheBlock]. *)
Definition clone (b : t) (w : World) : t * World :=
  (Make (id b) (revision b) true (capacity_tokens b) (vector_len b) (token_count b)
     (ref_count b) (content_hash b) (last_access b) (storage b),
   with_storages (Arc.clone (storage b) (storages w)) w).

Definition remaining_tokens (b : t) : N := wrap_sub (capacity_tokens b) (token_count b).
Definition is_full (b : t) : bool := token_count b =? capacity_tokens b.

Definition payload_bytes (b : t) (w : World) : N :=
  let s := storage_of (storage b) w in
  sat_add (f32_bytes (CacheBlockStorage.keys s)) (f32_bytes (CacheBlockStorage.values s)).

Definition with_ref_count (n : N) (b : t) : t :=
  Make (id b) (revision b) (shared b) (capacity_tokens b) (vector_len b)
    (token_count b) n (content_hash b) (last_access b) (storage b).
Definition increment_ref_count (b : t) : N * t :=
  let n := sat_add (ref_count b) 1 in (n, with_ref_count n b).
Definition decrement_ref_count (b : t) : N * t :=
  let n := sat_sub (ref_count b) 1 in (n, with_ref_count n b).

Definition set_content_hash (h : option CacheBlockHash) (b : t) : t :=
  Make (id b) (revision b) (shared b) (capacity_tokens b) (vector_len b)
    (token_count b) (ref_count b) h (last_access b) (storage b).

Definition touch (access : N) (b : t) : t :=
  Make (id b) (revision b) (shared b) (capacity_tokens b) (vector_len b)
    (token_count b) (ref_count b) (content_hash b) access (storage b).

Definition validate_token_shape (key value : list F32) (b : t) : outcome KvCacheError unit :=
  if negb (N.of_nat (length key) =? vector_len b)
  then Err (ShapeMismatch (vector_len b) (N.of_nat (length key)))
  else if negb (N.of_nat (length value) =? vector_len b)
  then Err (ShapeMismatch (vector_len b) (N.of_nat (length value)))
  else Ok tt.

(** The two [copy_from_slice]s both writers end with, through [Arc::make_mut]. *)
Definition write_token (token_index : N) (key value : list F32) (b : t) (w : World)
    : outcome KvCacheError (N * World) :=
  let start := wrap_mul token_index (vector_len b) in
  let '(l, h) := Arc.make_mut (storage b) (storages w) in
  let s := default (CacheBlockStorage.Make [] []) (Arc.get l h) in
  ks ← or_panic (write_slice (CacheBlockStorage.keys s) start key);
  vs ← or_panic (write_slice (CacheBlockStorage.values s) start value);
  Ok (l, with_storages (Arc.set l (CacheBlockStorage.Make ks vs) h) w).

(** [append]: the token index, the block and the world. *)
Definition append (key value : list F32) (b : t) (w : World)
    : outcome KvCacheError (N * t * World) :=
  _ ← validate_token_shape key value b;
  if is_full b then Err (CapacityExceeded 1 0)
  else
    let token_index := token_count b in
    '(l, w') ← write_token token_index key value b w;
    Ok (token_index,
        Make (id b) (sat_add (revision b) 1) (shared b) (capacity_tokens b)
          (vector_len b) (wrap_add (token_count b) 1) (ref_count b) None
          (last_access b) l,
        w').

Definition write_at (token_index : N) (key value : list F32) (b : t) (w : World)
    : outcome KvCacheError (t * World) :=
  _ ← validate_token_shape key value b;
  if token_count b <=? token_index then Err InvalidShape
  else
    '(l, w') ← write_token token_index key value b w;
    Ok (Make (id b) (sat_add (revision b) 1) (shared b) (capacity_tokens b)
          (vector_len b) (token_count b) (ref_count b) None (last_access b) l,
        w').

(** [token_slice]: [Ok None] beyond the stored tokens. *)
Definition token_slice (st : list F32) (token_index : N) (b : t)
    : outcome KvCacheError (option (list F32)) :=
  if token_count b <=? token_index then Ok None
  else
    let start := wrap_mul token_index (vector_len b) in
    Some <$> or_panic (slice st start (wrap_add start (vector_len b))).

Definition key (token_index : N) (b : t) (w : World) : outcome KvCacheError (option (list F32)) :=
  token_slice (CacheBlockStorage.keys (storage_of (storage b) w)) token_index b.
Definition value (token_index : N) (b : t) (w : World) : outcome KvCacheError (option (list F32)) :=
  token_slice (CacheBlockStorage.values (storage_of (storage b) w)) token_index b.

Definition used_len (b : t) : N := wrap_mul (token_count b) (vector_len b).
Definition keys (b : t) (w : World) : outcome KvCacheError (list F32) :=
  or_panic (slice (CacheBlockStorage.keys (storage_of (storage b) w)) 0 (used_len b)).
Definition values (b : t) (w : World) : outcome KvCacheError (list F32) :=
  or_panic (slice (CacheBlockStorage.values (storage_of (storage b) w)) 0 (used_len b)).

Definition clear (b : t) (w : World) : t * World :=
  let s := storage_of (storage b) w in
  let '(sh, l, h) :=
    if 1 <? Arc.strong_count (storage b) (storages w)
    then
      (* the assignment drops the old handle after the new cell exists *)
      let fresh := CacheBlockStorage.new (N.of_nat (length (CacheBlockStorage.keys s))) in
      let '(l, h) := Arc.new fresh (storages w) in
      (true, l, Arc.drop (storage b) h)
    else
      let '(l, h) := Arc.make_mut (storage b) (storages w) in
      (false, l, Arc.set l (CacheBlockStorage.fill_zero s) h) in
  (Make (id b) (sat_add (revision b) 1) sh (capacity_tokens b) (vector_len b) 0 0 None 0 l,
   with_storages h w).

Definition reset_for_allocation (access : N) (b : t) (w : World) : t * World :=
  let '(b, w) := clear b w in (touch access (with_ref_count 1 b), w).

(** [copy_contents_from]: [self] is [b]. *)
Definition copy_contents_from (source : t) (access : N) (b : t) (w : World)
    : outcome KvCacheError (t * World) :=
  if negb (capacity_tokens b =? capacity_tokens source)
     || negb (vector_len b =? vector_len source)
  then Err InvalidShape
  else
    let src := storage_of (storage source) w in
    let '(l, h) := Arc.make_mut (storage b) (storages w) in
    let dst := default (CacheBlockStorage.Make [] []) (Arc.get l h) in
    if (length (CacheBlockStorage.keys dst) =? length (CacheBlockStorage.keys src))%nat
       && (length (CacheBlockStorage.values dst) =? length (CacheBlockStorage.values src))%nat
    then
      Ok (Make (id b) (sat_add (revision b) 1) (shared b) (capacity_tokens b)
            (vector_len b) (token_count source) 1 (content_hash source) access l,
          with_storages (Arc.set l src h) w)
    else Panic.
End CacheBlock.

(** ** Well-formed blocks *)
Import CacheBlock.

Definition storage_wf (n : N) (s : CacheBlockStorage.t) : Prop :=
  N.of_nat (length (CacheBlockStorage.keys s)) = n
  ∧ N.of_nat (length (CacheBlockStorage.values s)) = n.

Definition shape_wf (b : t) : Prop :=
  0 < capacity_tokens b ∧ 0 < vector_len b
  ∧ capacity_tokens b * vector_len b ≤ u64_max
  ∧ token_count b ≤ capacity_tokens b.

Definition block_wf (b : t) (w : World) : Prop :=
  shape_wf b
  ∧ ∃ s, Arc.get (storage b) (storages w) = Some s
         ∧ storage_wf (capacity_tokens b * vector_len b) s.

Definition world_wf (w : World) : Prop := Arc.wf (storages w).

(** Two block handles that do not alias: different cells, or a cell whose
    count records the second reference. *)
Definition independent (b other : t) (w : World) : Prop :=
  storage other ≠ storage b ∨ 1 < Arc.strong_count (storage b) (storages w).

(** Everything a reader of [other] sees is the same in both worlds. *)
Definition same_storage (other : t) (w w' : World) : Prop :=
  Arc.get (storage other) (storages w') = Arc.get (storage other) (storages w).

Lemma same_storage_key other w w' i :
  same_storage other w w' →
  key i other w' = key i other w ∧ value i other w' = value i other w.
Proof. unfold same_storage, key, value, storage_of. by intros ->. Qed.

(** [Arc::make_mut] followed by a store: what every writer of a block does to
    the heap. *)
Lemma make_mut_set l (h : Arc.heap CacheBlockStorage.t) v v' :
  Arc.wf h → Arc.get l h = Some v →
  let '(l', h1) := Arc.make_mut l h in
  Arc.get l' h1 = Some v
  ∧ Arc.wf (Arc.set l' v' h1)
  ∧ Arc.get l' (Arc.set l' v' h1) = Some v'
  ∧ (∀ k, Arc.get k h ≠ None → k ≠ l ∨ 1 < Arc.strong_count l h →
       Arc.get k (Arc.set l' v' h1) = Arc.get k h ∧ k ≠ l').
Proof.
  intros Hh Hl. pose proof (Arc.make_mut_spec l h v Hh Hl) as H.
  destruct (Arc.make_mut l h) as [l' h1]. destruct H as (Hw & Hg & Hc & Ho & Hs & _).
  split_and!; [done|by apply Arc.set_wf| |].
  - rewrite Arc.get_set, decide_True by done. by rewrite Hg.
  - intros k Hk Hcase. rewrite Arc.get_set. destruct (decide (k = l)) as [->|Hne].
    + destruct Hcase as [?|Hlt]; [done|]. destruct (Hs Hlt) as [-> ?].
      rewrite decide_False by done. by rewrite Hl.
    + destruct (Ho k Hne Hk). by rewrite decide_False by done.
Qed.

(** The row arithmetic of a block never wraps. *)
Lemma row_bounds b i :
  shape_wf b → i < capacity_tokens b →
  wrap_mul i (vector_len b) = i * vector_len b
  ∧ wrap_add (i * vector_len b) (vector_len b) = i * vector_len b + vector_len b
  ∧ i * vector_len b + vector_len b ≤ capacity_tokens b * vector_len b.
Proof.
  intros (Hc & Hv & Hm & Ht) Hi.
  assert (i * vector_len b + vector_len b ≤ capacity_tokens b * vector_len b) by nia.
  split_and!; [apply wrap_mul_small; lia|apply wrap_add_small; lia|done].
Qed.

(** A row read back after a row was written. *)
Lemma slice_write_slice (st st' row : list F32) (i j v : N) :
  N.of_nat (length row) = v →
  write_slice st (j * v) row = Some st' →
  slice st' (i * v) (i * v + v)
  = if i =? j then Some row else slice st (i * v) (i * v + v).
Proof.
  intros Hrow Hw. pose proof (write_slice_length _ _ _ _ Hw) as Hlen.
  assert (j * v + v ≤ N.of_nat (length st)) as Hj.
  { unfold write_slice in Hw. case_match eqn:E; [|done]. bool_to_prop. lia. }
  unfold slice. rewrite Hlen. replace (i * v + v - i * v) with v by lia.
  destruct (N.eqb_spec i j) as [->|Hij].
  - assert (((j * v <=? j * v + v) && (j * v + v <=? N.of_nat (length st))) = true) as ->.
    { apply andb_true_iff. split; apply N.leb_le; lia. }
    f_equal. apply list_eq. intros k.
    rewrite lookup_take, lookup_drop, (write_slice_lookup _ _ _ _ _ Hw). case_decide.
    + rewrite decide_True by lia. f_equal. lia.
    + symmetry. apply lookup_ge_None. lia.
  - case_match eqn:E; [|done]. f_equal. apply list_eq. intros k.
    rewrite !lookup_take, !lookup_drop, (write_slice_lookup _ _ _ _ _ Hw).
    case_decide; [|done]. rewrite decide_False; [done|]. nia.
Qed.

Lemma validate_token_shape_Ok ks vs b :
  validate_token_shape ks vs b = Ok tt ↔
  N.of_nat (length ks) = vector_len b ∧ N.of_nat (length vs) = vector_len b.
Proof.
  unfold validate_token_shape.
  destruct (N.eqb_spec (N.of_nat (length ks)) (vector_len b)),
    (N.eqb_spec (N.of_nat (length vs)) (vector_len b)); simpl; naive_solver.
Qed.

(** What writing row [j] of a block does: the row reads back, the other rows
    and every independent handle are as before. *)
Record row_written (j : N) (ks vs : list F32) (b : t) (w : World) (l : N) (w' : World) : Prop := {
  rw_world : world_wf w';
  rw_storage : ∃ s, Arc.get l (storages w') = Some s
                    ∧ storage_wf (capacity_tokens b * vector_len b) s;
  rw_rows : ∀ b' i, storage b' = l → vector_len b' = vector_len b →
    i < token_count b' → token_count b' ≤ capacity_tokens b →
    i ≠ j → i < token_count b → key i b' w' = key i b w ∧ value i b' w' = value i b w;
  rw_row : ∀ b', storage b' = l → vector_len b' = vector_len b →
    j < token_count b' →
    key j b' w' = Ok (Some ks) ∧ value j b' w' = Ok (Some vs);
  rw_frame : ∀ k, Arc.get k (storages w) ≠ None →
    k ≠ storage b ∨ 1 < Arc.strong_count (storage b) (storages w) →
    Arc.get k (storages w') = Arc.get k (storages w) ∧ k ≠ l;
  rw_ids : next_block_id w' = next_block_id w;
}.

Lemma write_token_spec j ks vs b w :
  world_wf w → block_wf b w → j < capacity_tokens b →
  N.of_nat (length ks) = vector_len b → N.of_nat (length vs) = vector_len b →
  ∃ l w', write_token j ks vs b w = Ok (l, w') ∧ row_written j ks vs b w l w'.
Proof.
  intros Hw (Hshape & s & Hs & Hks & Hvs) Hj Hlk Hlv.
  destruct (row_bounds b j Hshape Hj) as (Hmul & Hadd & Hle).
  unfold write_token. rewrite Hmul.
  pose proof (λ v', make_mut_set _ _ _ v' Hw Hs) as Hmm.
  destruct (Arc.make_mut (storage b) (storages w)) as [l h].
  destruct (Hmm s) as (Hget & _). rewrite Hget. simpl.
  destruct (write_slice_is_Some (CacheBlockStorage.keys s) (j * vector_len b) ks) as [ks' Hks'];
    [lia|].
  destruct (write_slice_is_Some (CacheBlockStorage.values s) (j * vector_len b) vs) as [vs' Hvs'];
    [lia|].
  rewrite Hks', Hvs'. simpl. eexists _, _. split; [done|].
  destruct (Hmm (CacheBlockStorage.Make ks' vs')) as (_ & Hwf & Hset & Hframe).
  assert (∀ b' i, storage b' = l → vector_len b' = vector_len b → i < token_count b' →
    i < capacity_tokens b →
    key i b' (with_storages (Arc.set l (CacheBlockStorage.Make ks' vs') h) w)
      = Some <$> or_panic (slice ks' (i * vector_len b) (i * vector_len b + vector_len b))
    ∧ value i b' (with_storages (Arc.set l (CacheBlockStorage.Make ks' vs') h) w)
      = Some <$> or_panic (slice vs' (i * vector_len b) (i * vector_len b + vector_len b)))
    as Hread.
  { intros b' i Hb' Hv' Hi Hic. destruct (row_bounds b i Hshape Hic) as (Hm & Ha & _).
    unfold key, value, token_slice, storage_of. simpl. rewrite Hb', Hset. simpl.
    destruct (N.leb_spec (token_count b') i); [lia|]. rewrite Hv', Hm, Ha. done. }
  constructor.
  - done.
  - eexists. split; [exact Hset|]. split; simpl.
    + by rewrite (write_slice_length _ _ _ _ Hks').
    + by rewrite (write_slice_length _ _ _ _ Hvs').
  - intros b' i Hb' Hv' Hi Hcap Hne Hib.
    destruct (Hread b' i Hb' Hv' Hi ltac:(lia)) as [-> ->].
    rewrite (slice_write_slice _ _ _ i j _ Hlk Hks'), (slice_write_slice _ _ _ i j _ Hlv Hvs').
    destruct (N.eqb_spec i j); [done|].
    destruct (row_bounds b i Hshape ltac:(lia)) as (Hm & Ha & _).
    unfold key, value, token_slice, storage_of. rewrite Hs. simpl.
    destruct (N.leb_spec (token_count b) i); [lia|]. by rewrite Hm, Ha.
  - intros b' Hb' Hv' Hjb. destruct (Hread b' j Hb' Hv' Hjb Hj) as [-> ->].
    rewrite (slice_write_slice _ _ _ j j _ Hlk Hks'), (slice_write_slice _ _ _ j j _ Hlv Hvs').
    by rewrite N.eqb_refl.
  - done.
  - done.
Qed.

(** ** Appending and overwriting tokens *)

Lemma row_written_frame j ks vs b w l w' other :
  row_written j ks vs b w l w' → block_wf other w → independent b other w →
  same_storage other w w' ∧ storage other ≠ l ∧ block_wf other w'.
Proof.
  intros Hr (Hsh & s & Hs & Hst) Hind.
  destruct (rw_frame _ _ _ _ _ _ _ Hr (storage other)) as [Hsame Hne].
  - congruence.
  - destruct Hind as [?|Hlt]; [by left|]. by right.
  - split_and!; [done|done|]. split; [done|]. exists s. by rewrite Hsame.
Qed.

(** [CacheBlock::append] on a well-formed block never panics; it fails with
    the exact shape or capacity error and otherwise stores the token at the next
    index, where it reads back, keeps every earlier token, clears the content
    hash, keeps the block well-formed, and leaves every independent handle
    (a clone, a retained snapshot, another block) reading what it read before. *)
Theorem cache_block_append_correct ks vs b w :
  world_wf w → block_wf b w →
  match append ks vs b w with
  | Ok (i, b', w') =>
      N.of_nat (length ks) = vector_len b ∧ N.of_nat (length vs) = vector_len b
      ∧ i = token_count b ∧ token_count b < capacity_tokens b
      ∧ token_count b' = token_count b + 1 ∧ content_hash b' = None
      ∧ ref_count b' = ref_count b ∧ id b' = id b
      ∧ world_wf w' ∧ block_wf b' w'
      ∧ key i b' w' = Ok (Some ks) ∧ value i b' w' = Ok (Some vs)
      ∧ (∀ j, j < token_count b → key j b' w' = key j b w ∧ value j b' w' = value j b w)
      ∧ (∀ other, block_wf other w → independent b other w →
           block_wf other w' ∧
           ∀ j, key j other w' = key j other w ∧ value j other w' = value j other w)
  | Err e =>
      (N.of_nat (length ks) ≠ vector_len b
       ∧ e = ShapeMismatch (vector_len b) (N.of_nat (length ks)))
      ∨ (N.of_nat (length ks) = vector_len b ∧ N.of_nat (length vs) ≠ vector_len b
         ∧ e = ShapeMismatch (vector_len b) (N.of_nat (length vs)))
      ∨ (N.of_nat (length ks) = vector_len b ∧ N.of_nat (length vs) = vector_len b
         ∧ token_count b = capacity_tokens b ∧ e = CapacityExceeded 1 0)
  | Panic => False
  end.
Proof.
  intros Hw Hb. pose proof Hb as (Hshape & _). pose proof Hshape as (Hc & Hv & Hm & Ht).
  unfold append, validate_token_shape.
  destruct (N.eqb_spec (N.of_nat (length ks)) (vector_len b)) as [Hk|]; simpl; [|by left].
  destruct (N.eqb_spec (N.of_nat (length vs)) (vector_len b)) as [Hl|]; simpl;
    [|by right; left].
  unfold is_full. destruct (N.eqb_spec (token_count b) (capacity_tokens b)); [by right; right|].
  destruct (write_token_spec (token_count b) ks vs b w Hw Hb ltac:(lia) Hk Hl)
    as (l & w' & Heq & Hr).
  assert (wrap_add (token_count b) 1 = token_count b + 1) as Hinc
    by (apply wrap_add_small; nia).
  rewrite Heq. simpl.
  destruct (rw_row _ _ _ _ _ _ _ Hr
    (Make (id b) (sat_add (revision b) 1) (shared b) (capacity_tokens b) (vector_len b)
       (wrap_add (token_count b) 1) (ref_count b) None (last_access b) l)
    eq_refl eq_refl) as [Hkey Hval]; [simpl; lia|].
  split_and!; try done; try lia; [apply Hr|..].
  - split; [|apply Hr]. unfold shape_wf; simpl. lia.
  - intros j Hj. apply (rw_rows _ _ _ _ _ _ _ Hr); simpl; try done; lia.
  - intros other Ho Hind. destruct (row_written_frame _ _ _ _ _ _ _ _ Hr Ho Hind) as (Hs & _ & ?).
    split; [done|]. intros j. by apply same_storage_key.
Qed.

(** A two-token block of two-element rows, for evaluation. *)
Definition demo_block : outcome KvCacheError CacheBlock.t * World := new 2 2 initial_world.
Definition demo_appended (ks vs : list F32) : outcome KvCacheError (N * CacheBlock.t * World) :=
  match demo_block with
  | (Ok b, w) => append ks vs b w
  | _ => Panic
  end.

Lemma new_spec cap vlen w :
  world_wf w →
  match new cap vlen w with
  | (Ok b, w') =>
      world_wf w' ∧ block_wf b w' ∧ id b = next_block_id w
      ∧ next_block_id w' = next_block_id w + 1
      ∧ capacity_tokens b = cap ∧ vector_len b = vlen
      ∧ token_count b = 0 ∧ ref_count b = 0 ∧ content_hash b = None
      ∧ storage b = Arc.next_loc (storages w)
      ∧ Arc.next_loc (storages w') = Arc.next_loc (storages w) + 1
      ∧ (∀ k, Arc.get k (storages w) ≠ None → Arc.get k (storages w') = Arc.get k (storages w))
  | (Err e, w') => e = InvalidShape ∧ w' = w
                   ∧ (cap = 0 ∨ vlen = 0 ∨ u64_max < cap * vlen ∨ next_block_id w = u64_max
                      ∨ u64_max < next_block_id w)
  | (Panic, _) => False
  end.
Proof.
  intros Hw. unfold new.
  destruct (N.eqb_spec cap 0); simpl; [naive_solver|].
  destruct (N.eqb_spec vlen 0); simpl; [naive_solver|].
  destruct (checked_mul cap vlen) as [len|] eqn:Hmul.
  2: { unfold checked_mul in Hmul. case_match; [done|]. bool_to_prop. naive_solver. }
  apply checked_mul_Some in Hmul as [-> Hmul].
  unfold next_id, BlockId.next, checked_add, BlockId.INVALID. destruct w as [c h]; simpl.
  destruct (N.leb_spec (c + 1) u64_max); simpl.
  - destruct (N.eqb_spec (c + 1) 0); [lia|]. simpl. split_and!; try done.
    + by apply (Arc.arc_new_wf _ _ Hw).
    + split; [unfold shape_wf; simpl; lia|]. simpl.
      eexists. unfold Arc.get; simpl. rewrite lookup_insert_eq. split; [done|].
      unfold storage_wf, CacheBlockStorage.new; simpl. rewrite !length_replicate. lia.
    + intros k Hk. unfold Arc.get; simpl. rewrite lookup_insert_ne; [done|].
      intros <-. apply Hk. unfold Arc.get. pose proof (Arc.fresh_not_alive _ Hw) as Hf.
      simpl in Hf. by rewrite Hf.
  - split_and!; try done. right; right; right. lia.
Qed.

Lemma initial_world_wf : world_wf initial_world.
Proof. intros l c. simpl. by rewrite lookup_empty. Qed.

Lemma cache_block_append_correct_witness :
  ∃ b' w', demo_appended [7; 8] [9; 10] = Ok (0, b', w')
           ∧ key 0 b' w' = Ok (Some [7; 8]).
Proof.
  pose proof (new_spec 2 2 initial_world initial_world_wf) as Hnew.
  unfold demo_appended, demo_block. destruct (new 2 2 initial_world) as [r w] eqn:E.
  vm_compute in E. injection E as <- <-. destruct Hnew as (Hw & Hb & _).
  pose proof (cache_block_append_correct [7; 8] [9; 10] _ _ Hw Hb) as H.
  destruct (append [7; 8] [9; 10] _ _) as [[[i b'] w']|e|] eqn:Ea.
  - destruct H as (_ & _ & -> & _ & _ & _ & _ & _ & _ & _ & Hk & _). eauto.
  - vm_compute in Ea. discriminate.
  - destruct H.
Defined.

(** [CacheBlock::write_at] replaces exactly the named stored token, keeps
    the token count and every other token, and leaves independent handles
    untouched; an index at or beyond the token count is [InvalidShape]. *)
Theorem cache_block_write_at_correct i ks vs b w :
  world_wf w → block_wf b w →
  N.of_nat (length ks) = vector_len b → N.of_nat (length vs) = vector_len b →
  match write_at i ks vs b w with
  | Ok (b', w') =>
      i < token_count b ∧ token_count b' = token_count b ∧ content_hash b' = None
      ∧ world_wf w' ∧ block_wf b' w'
      ∧ (∀ j, j < token_count b →
           (key j b' w', value j b' w')
           = if j =? i then (Ok (Some ks), Ok (Some vs)) else (key j b w, value j b w))
      ∧ (∀ other, block_wf other w → independent b other w → same_storage other w w')
  | Err e => token_count b ≤ i ∧ e = InvalidShape
  | Panic => False
  end.
Proof.
  intros Hw Hb Hk Hl. pose proof Hb as (Hshape & _). pose proof Hshape as (Hc & Hv & Hm & Ht).
  unfold write_at. rewrite (proj2 (validate_token_shape_Ok ks vs b)) by done. simpl.
  destruct (N.leb_spec (token_count b) i); [done|].
  destruct (write_token_spec i ks vs b w Hw Hb ltac:(lia) Hk Hl) as (l & w' & Heq & Hr).
  rewrite Heq. simpl. split_and!; try done; try lia; [apply Hr|..].
  - split; [exact Hshape|apply Hr].
  - intros j Hj. set (b' := Make _ _ _ _ _ _ _ _ _ _). destruct (N.eqb_spec j i) as [->|].
    + by destruct (rw_row _ _ _ _ _ _ _ Hr b' eq_refl eq_refl) as [-> ->].
    + destruct (rw_rows _ _ _ _ _ _ _ Hr b' j) as [-> ->]; try done; simpl; lia.
  - intros other Ho Hind. by apply (row_written_frame _ _ _ _ _ _ _ _ Hr Ho Hind).
Qed.

Lemma cache_block_write_at_correct_witness :
  match demo_appended [7; 8] [9; 10] with
  | Ok (_, b, w) => write_at 1 [1; 1] [2; 2] b w = Err InvalidShape
  | _ => False
  end.
Proof.
  pose proof (new_spec 2 2 initial_world initial_world_wf) as Hnew.
  unfold demo_appended, demo_block. destruct (new 2 2 initial_world) as [r w] eqn:E.
  vm_compute in E. injection E as <- <-. destruct Hnew as (Hw & Hb & _).
  pose proof (cache_block_append_correct [7; 8] [9; 10] _ _ Hw Hb) as H.
  destruct (append [7; 8] [9; 10] _ _) as [[[i b'] w']|e|] eqn:Ea;
    [|vm_compute in Ea; discriminate|destruct H].
  destruct H as (_ & _ & _ & _ & Ht & _ & _ & _ & Hw' & Hb' & _).
  vm_compute in Ea. injection Ea as <- <- <-.
  pose proof (cache_block_write_at_correct 1 [1; 1] [2; 2] _ _ Hw' Hb' eq_refl eq_refl) as H.
  destruct (write_at 1 [1; 1] [2; 2] _ _) as [[b2 w2]|e|] eqn:Ew.
  - vm_compute in Ew. discriminate.
  - destruct H as [_ ->]. done.
  - destruct H.
Defined.

(** ** Recycling and copying *)

(** What an operation that rewrites a block's storage leaves alone. *)
Definition storage_frame (b b' : t) (w w' : World) : Prop :=
  next_block_id w' = next_block_id w
  ∧ (∀ k, Arc.get k (storages w) ≠ None →
       k ≠ storage b ∨ 1 < Arc.strong_count (storage b) (storages w) →
       Arc.get k (storages w') = Arc.get k (storages w) ∧ k ≠ storage b').

Lemma fill_zero_wf n s : storage_wf n s → storage_wf n (CacheBlockStorage.fill_zero s).
Proof. unfold storage_wf. simpl. by rewrite !length_replicate. Qed.

Lemma new_storage_wf n : storage_wf n (CacheBlockStorage.new n).
Proof. unfold storage_wf. simpl. rewrite !length_replicate. lia. Qed.

Lemma clear_spec b w :
  world_wf w → block_wf b w →
  let '(b', w') := clear b w in
  world_wf w' ∧ block_wf b' w' ∧ storage_frame b b' w w'
  ∧ id b' = id b ∧ capacity_tokens b' = capacity_tokens b ∧ vector_len b' = vector_len b
  ∧ token_count b' = 0 ∧ ref_count b' = 0 ∧ content_hash b' = None ∧ last_access b' = 0
  ∧ shared b' = (1 <? Arc.strong_count (storage b) (storages w)).
Proof.
  intros Hw ((Hc & Hv & Hm & Ht) & s & Hs & Hst).
  unfold clear, storage_of. rewrite Hs. simpl. rewrite (proj1 Hst).
  assert (∀ rv sh l, shape_wf (Make (id b) rv sh (capacity_tokens b) (vector_len b) 0 0 None 0 l))
    as Hshape by (intros; unfold shape_wf; simpl; lia).
  destruct (N.ltb_spec 1 (Arc.strong_count (storage b) (storages w))) as [Hlt|Hle].
  - unfold Arc.new. simpl.
    set (v := CacheBlockStorage.new _). set (nl := Arc.next_loc (storages w)).
    set (h1 := Arc.Heap _ _).
    assert (Arc.wf h1) as Hw1 by apply (Arc.arc_new_wf v _ Hw).
    assert (∀ k, Arc.get k (storages w) ≠ None → k ≠ nl) as Hold.
    { intros k Hk ->. apply Hk. unfold Arc.get, nl. by rewrite (Arc.fresh_not_alive _ Hw). }
    assert (storage b ≠ nl) as Hne by (apply Hold; congruence).
    assert (Arc.strong_count (storage b) h1 = Arc.strong_count (storage b) (storages w)) as Hsc.
    { unfold Arc.strong_count, h1. simpl. by rewrite lookup_insert_ne. }
    assert (∀ k, Arc.get k (Arc.drop (storage b) h1) = Arc.get k h1) as Hd.
    { intros k. apply Arc.get_drop_shared. by rewrite Hsc. }
    split_and!; try done.
    + by apply Arc.drop_wf.
    + split; [apply Hshape|]. simpl. exists v. rewrite Hd. unfold Arc.get, h1. simpl.
      rewrite lookup_insert_eq. split; [done|]. apply new_storage_wf.
    + split; [done|]. intros k Hk _. simpl. rewrite Hd. split; [|by apply Hold].
      unfold Arc.get, h1. simpl. rewrite lookup_insert_ne; [done|]. intros <-. by apply (Hold nl).
  - pose proof (make_mut_set _ _ _ (CacheBlockStorage.fill_zero s) Hw Hs) as Hmm.
    destruct (Arc.make_mut (storage b) (storages w)) as [l h].
    destruct Hmm as (_ & Hwf & Hset & Hframe).
    split_and!; try done.
    split; [apply Hshape|]. simpl. eexists. split; [exact Hset|]. by apply fill_zero_wf.
Qed.

Lemma reset_for_allocation_spec access b w :
  world_wf w → block_wf b w →
  let '(b', w') := reset_for_allocation access b w in
  world_wf w' ∧ block_wf b' w' ∧ storage_frame b b' w w'
  ∧ id b' = id b ∧ capacity_tokens b' = capacity_tokens b ∧ vector_len b' = vector_len b
  ∧ token_count b' = 0 ∧ ref_count b' = 1 ∧ content_hash b' = None ∧ last_access b' = access.
Proof.
  intros Hw Hb. pose proof (clear_spec b w Hw Hb) as H. unfold reset_for_allocation.
  destruct (clear b w) as [b' w'].
  destruct H as (? & (Hsh & Hst) & Hf & ? & ? & ? & ? & ? & ? & ? & _).
  split_and!; try done.
Qed.

Lemma copy_contents_from_spec src access b w :
  world_wf w → block_wf b w → block_wf src w →
  capacity_tokens b = capacity_tokens src → vector_len b = vector_len src →
  ∃ b' w', copy_contents_from src access b w = Ok (b', w')
  ∧ world_wf w' ∧ block_wf b' w' ∧ storage_frame b b' w w'
  ∧ id b' = id b ∧ capacity_tokens b' = capacity_tokens b ∧ vector_len b' = vector_len b
  ∧ token_count b' = token_count src ∧ ref_count b' = 1
  ∧ content_hash b' = content_hash src ∧ last_access b' = access
  ∧ (∀ j, key j b' w' = key j src w ∧ value j b' w' = value j src w).
Proof.
  intros Hw ((Hc & Hv & Hm & Ht) & s & Hs & Hst) ((Hc' & Hv' & Hm' & Ht') & s' & Hs' & Hst').
  intros Hcap Hvl. unfold copy_contents_from. rewrite Hcap, Hvl, !N.eqb_refl. simpl.
  pose proof (make_mut_set _ _ _ (storage_of (storage src) w) Hw Hs) as Hmm.
  destruct (Arc.make_mut (storage b) (storages w)) as [l h].
  destruct Hmm as (Hget & Hwf & Hset & Hframe). rewrite Hget. simpl.
  assert (storage_of (storage src) w = s') as Hsrc by (unfold storage_of; by rewrite Hs').
  rewrite Hsrc in *.
  destruct Hst as [Hk Hvv], Hst' as [Hk' Hvv']. rewrite Hcap, Hvl in *.
  assert (length (CacheBlockStorage.keys s) = length (CacheBlockStorage.keys s')) as -> by lia.
  assert (length (CacheBlockStorage.values s) = length (CacheBlockStorage.values s')) as -> by lia.
  rewrite !Nat.eqb_refl. simpl. eexists _, _. split; [done|].
  split_and!; try done.
  - split; [unfold shape_wf; simpl; lia|]. simpl. eexists. split; [exact Hset|]. by split.
  - intros j. unfold key, value, token_slice. simpl.
    unfold storage_of at 1 3. simpl. rewrite Hset, Hsrc. simpl. by rewrite ?Hvl.
Qed.

(** ** The hashed bytes determine the block *)

Lemma app_eq_length {A} (l1 l2 k1 k2 : list A) :
  length l1 = length k1 → l1 ++ l2 = k1 ++ k2 → l1 = k1 ∧ l2 = k2.
Proof. intros Hlen Heq. by apply app_inj_1. Qed.

(** A value whose length is a [u64], as every slice's is. *)
Definition fits_u64 {A} (l : list A) : Prop := N.of_nat (length l) ≤ u64_max.

Lemma length_prefix_inj (v1 v2 r1 r2 : list N) :
  fits_u64 v1 → fits_u64 v2 →
  update_hash_with_bytes v1 ++ r1 = update_hash_with_bytes v2 ++ r2 → v1 = v2 ∧ r1 = r2.
Proof.
  intros H1 H2. unfold update_hash_with_bytes. rewrite <- !app_assoc. intros Heq.
  apply app_eq_length in Heq as [Hlen Heq]; [|by rewrite !le_bytes_length].
  apply le_bytes_inj in Hlen; [|unfold fits_u64, u64_max in *; simpl; lia..].
  apply app_eq_length in Heq; [done|lia].
Qed.

Lemma token_bytes_inj (t1 t2 : list N) :
  length t1 = length t2 →
  Forall (λ t, t < 2 ^ 32) t1 → Forall (λ t, t < 2 ^ 32) t2 →
  (t1 ≫= le_bytes 4) = (t2 ≫= le_bytes 4) → t1 = t2.
Proof.
  revert t2. induction t1 as [|a t1 IH]; intros [|c t2] Hlen Hf1 Hf2; try done.
  rewrite !bind_cons. intros Heq. apply Forall_cons_1 in Hf1 as [Ha Hf1]. apply Forall_cons_1 in Hf2 as [Hc Hf2].
  apply app_eq_length in Heq as [Hac Heq]; [|by rewrite !le_bytes_length].
  apply le_bytes_inj in Hac; [|done..]. simpl in Hlen. f_equal; [done|]. apply IH; auto.
Qed.

(** The byte stream hashed by [cache_block_chain_hash] is an injective
    encoding: two calls feed the hasher the same bytes only for the same model,
    cache context, previous hash and token ids, so the digest identifies the
    whole prefix up to SHA-256 collisions. *)
Theorem chain_input_injective m1 c1 p1 t1 m2 c2 p2 t2 :
  fits_u64 m1 → fits_u64 m2 → fits_u64 c1 → fits_u64 c2 → fits_u64 t1 → fits_u64 t2 →
  length p1 = 32%nat → length p2 = 32%nat →
  Forall (λ t, t < 2 ^ 32) t1 → Forall (λ t, t < 2 ^ 32) t2 →
  cache_block_chain_input m1 c1 p1 t1 = cache_block_chain_input m2 c2 p2 t2 →
  m1 = m2 ∧ c1 = c2 ∧ p1 = p2 ∧ t1 = t2.
Proof.
  intros Hm1 Hm2 Hc1 Hc2 Ht1 Ht2 Hp1 Hp2 Hf1 Hf2. unfold cache_block_chain_input.
  intros Heq. apply app_inv_head in Heq.
  apply length_prefix_inj in Heq as [-> Heq]; [|done..].
  apply length_prefix_inj in Heq as [-> Heq]; [|done..].
  apply app_eq_length in Heq as [-> Heq]; [|congruence].
  apply app_eq_length in Heq as [Hlen Heq]; [|by rewrite !le_bytes_length].
  apply le_bytes_inj in Hlen; [|unfold fits_u64, u64_max in *; simpl; lia..].
  apply token_bytes_inj in Heq; [done|lia|done|done].
Qed.

Lemma chain_input_injective_witness :
  let h := replicate 32 0 in
  cache_block_chain_input [1] [2; 3] h [4] = cache_block_chain_input [1] [2; 3] h [4]
  ∧ [4] = [4].
Proof.
  intros h. split; [reflexivity|].
  assert (fits_u64 [1] ∧ fits_u64 [2; 3] ∧ fits_u64 [4]) as (H1 & H2 & H3)
    by (unfold fits_u64, u64_max; simpl; split_and!; lia).
  destruct (chain_input_injective [1] [2; 3] h [4] [1] [2; 3] h [4]) as (_ & _ & _ & H4);
    try done; repeat constructor.
Defined.
