(* ===== verification/Text.v ===== *)
(** * Strings as UTF-8 bytes

    What the text-handling components use of Rust's [str]: a string is the list
    of its bytes, positions are byte offsets, and slicing off a character
    boundary panics. *)
From Stdlib Require Import Ascii String.
From stdpp Require Import base sets numbers list.
From S2P Require Import Prelude.
Open Scope N_scope.

Abbreviation str := (list N) (only parsing).

(** A string literal of the source. *)
Definition lit (s : string) : str := N_of_ascii <$> list_ascii_of_string s.
Arguments lit s%_string_scope.

(** ** Character boundaries *)
Definition is_continuation (b : N) : bool := (128 <=? b) && (b <? 192).

(** [str::is_char_boundary]. *)
Definition is_char_boundary (s : str) (i : nat) : bool :=
  match i with
  | O => true
  | _ => match s !! i with
         | Some b => negb (is_continuation b)
         | None => bool_decide (i = length s)
         end
  end.

(** [&s[i..]] and [&s[i..j]]; [None] is the panic. *)
Definition str_from (s : str) (i : nat) : option str :=
  if is_char_boundary s i then Some (drop i s) else None.
Definition str_range (s : str) (i j : nat) : option str :=
  if (i <=? j)%nat && is_char_boundary s i && is_char_boundary s j
  then Some (take (j - i) (drop i s)) else None.

(** What is known of the bytes of any [str]: it does not start inside a
    character. *)
Definition starts_char (s : str) : Prop :=
  match s with [] => True | b :: _ => is_continuation b = false end.

(** ** Searching *)
Fixpoint starts_with (needle s : str) : bool :=
  match needle, s with
  | [], _ => true
  | a :: needle, b :: s => (a =? b) && starts_with needle s
  | _ :: _, [] => false
  end.

(** [str::find]: the first offset at which [needle] occurs. *)
Fixpoint find (needle s : str) : option nat :=
  if starts_with needle s then Some O
  else match s with [] => None | _ :: s => S <$> find needle s end.

(** [Iterator::min]. *)
Fixpoint list_min (l : list nat) : option nat :=
  match l with
  | [] => None
  | x :: l => Some (match list_min l with Some y => Nat.min x y | None => x end)
  end.

(** [needle] occurs in [s] at offset [i]. *)
Definition occurs (needle s : str) (i : nat) : Prop :=
  (i ≤ length s)%nat ∧ starts_with needle (drop i s) = true.

(** ** Characters *)

(** The code points of a valid string. *)
Fixpoint chars (s : str) : list N :=
  match s with
  | [] => []
  | b0 :: s =>
      if b0 <? 128 then b0 :: chars s
      else match s with
           | [] => [b0]
           | b1 :: s =>
               if b0 <? 224 then ((b0 mod 32) * 64 + b1 mod 64) :: chars s
               else match s with
                    | [] => [b0]
                    | b2 :: s =>
                        if b0 <? 240
                        then ((b0 mod 16) * 4096 + (b1 mod 64) * 64 + b2 mod 64) :: chars s
                        else match s with
                             | [] => [b0]
                             | b3 :: s =>
                                 ((b0 mod 8) * 262144 + (b1 mod 64) * 4096
                                  + (b2 mod 64) * 64 + b3 mod 64) :: chars s
                             end
                    end
           end
  end.

(** [s.trim().is_empty()]. *)
Definition trim_is_empty (s : str) : bool := forallb char_is_whitespace (chars s).

(** ** Lemmas *)
Lemma omap_ext_in {A B} (f g : A → option B) (l : list A) :
  (∀ x, x ∈ l → f x = g x) → omap f l = omap g l.
Proof.
  induction l as [|x l IH]; intros H; [done|].
  assert (omap f l = omap g l) as IH' by (apply IH; intros y Hy; apply H; by right).
  cbn. rewrite (H x) by (by left). destruct (g x); [f_equal|]; exact IH'.
Qed.

Lemma starts_with_app needle s : starts_with needle s = true ↔ ∃ r, s = needle ++ r.
Proof.
  revert s. induction needle as [|a needle IH]; intros s; simpl; [naive_solver|].
  destruct s as [|b s]; [split; [done|by intros [? ?]]|].
  rewrite andb_true_iff, N.eqb_eq, IH. naive_solver.
Qed.

Lemma starts_with_mono needle s r : starts_with needle s = true → starts_with needle (s ++ r) = true.
Proof. rewrite !starts_with_app. intros [x ->]. exists (x ++ r). by rewrite <- app_assoc. Qed.

Lemma starts_with_length needle s : starts_with needle s = true → (length needle ≤ length s)%nat.
Proof. rewrite starts_with_app. intros [r ->]. rewrite length_app. lia. Qed.

(** A match decided by a prefix long enough to hold it. *)
Lemma starts_with_shorten needle s r :
  (length needle ≤ length s)%nat → starts_with needle (s ++ r) = starts_with needle s.
Proof.
  revert s. induction needle as [|a needle IH]; intros s Hl; simpl in *; [done|].
  destruct s as [|b s]; simpl in *; [lia|]. by rewrite IH by lia.
Qed.

Lemma occurs_length needle s i : occurs needle s i → (i + length needle ≤ length s)%nat.
Proof.
  intros [Hi Hs]. apply starts_with_length in Hs. rewrite length_drop in Hs. lia.
Qed.

Lemma occurs_app_l needle s r i : occurs needle s i → occurs needle (s ++ r) i.
Proof.
  intros [Hi Hs]. split; [rewrite length_app; lia|].
  rewrite drop_app_le by done. by apply starts_with_mono.
Qed.

Lemma occurs_shorten needle s r i :
  (i + length needle ≤ length s)%nat → occurs needle (s ++ r) i → occurs needle s i.
Proof.
  intros Hl [Hi Hs]. split; [lia|]. rewrite drop_app_le in Hs by lia.
  rewrite starts_with_shorten in Hs; [done|]. rewrite length_drop. lia.
Qed.

Lemma occurs_drop needle s k i :
  (k ≤ length s)%nat → occurs needle (drop k s) i ↔ occurs needle s (k + i).
Proof.
  intros Hk. unfold occurs. rewrite length_drop, drop_drop.
  split; intros [? ?]; split; try done; lia.
Qed.

Lemma find_Some needle s i :
  find needle s = Some i ↔ occurs needle s i ∧ ∀ j, (j < i)%nat → ¬ occurs needle s j.
Proof.
  revert i. induction s as [|b s IH]; intros i.
  - simpl. destruct (starts_with needle []) eqn:Hs.
    + split.
      * intros [= <-]. split; [by split|]. intros j Hj. lia.
      * intros [[Hi _] Hmin]. simpl in Hi. f_equal. lia.
    + split; [done|]. intros [[Hi Ho] _]. simpl in Hi. replace i with O in Ho by lia. simpl in Ho. congruence.
  - cbn [find]. destruct (starts_with needle (b :: s)) eqn:Hs.
    + split.
      * intros [= <-]. split; [split; [simpl; lia|done]|]. intros j Hj. lia.
      * intros [_ Hmin]. destruct i as [|i]; [done|]. destruct (Hmin O); [lia|]. split; [simpl; lia|done].
    + rewrite fmap_Some. split.
      * intros (k & Hk & ->). apply IH in Hk as [[Hle Ho] Hmin]. split; [split; [simpl; lia|done]|].
        intros [|j] Hj [? Hoj]; [simpl in Hoj; congruence|]. apply (Hmin j); [lia|]. split; [simpl in *; lia|done].
      * intros [[Hle Ho] Hmin]. destruct i as [|i]; [simpl in Ho; congruence|]. exists i. split; [|done].
        apply IH. split; [split; [simpl in *; lia|done]|].
        intros j Hj [? ?]. apply (Hmin (S j)); [lia|]. split; [simpl; lia|done].
Qed.

Lemma find_None needle s : find needle s = None ↔ ∀ i, ¬ occurs needle s i.
Proof.
  split.
  - intros Hn i Ho. induction i as [i IHi] using lt_wf_ind.
    assert (find needle s = Some i) as Hs; [|congruence].
    apply find_Some. split; [done|]. intros j Hj Hoj. by apply (IHi j).
  - intros Hall. destruct (find needle s) as [i|] eqn:Hf; [|done].
    apply find_Some in Hf as [Ho _]. by apply Hall in Ho.
Qed.

Lemma list_min_Some l x : list_min l = Some x ↔ x ∈ l ∧ ∀ y, y ∈ l → (x ≤ y)%nat.
Proof.
  revert x. induction l as [|z l IH]; intros x; simpl; [set_solver|].
  destruct (list_min l) as [y|] eqn:Hm.
  - destruct (IH y) as [IH1 _]. specialize (IH1 eq_refl) as [Hy Hall]. split.
    + intros [= <-]. split.
      * destruct (Nat.min_spec z y) as [[_ ->]|[_ ->]]; set_solver.
      * intros w [->|Hw]%elem_of_cons; [lia|]. specialize (Hall w Hw). lia.
    + intros [Hx Hmin]. f_equal. pose proof (Hmin z ltac:(set_solver)). pose proof (Hmin y ltac:(set_solver)).
      apply elem_of_cons in Hx as [->|Hx]; [lia|]. specialize (Hall x Hx). lia.
  - assert (l = []) as -> by (destruct l; [done|discriminate]). split.
    + intros [= <-]. set_solver.
    + intros [Hx _]. f_equal. set_solver.
Qed.

Lemma list_min_None l : list_min l = None ↔ l = [].
Proof. destruct l; simpl; [done|]. by split. Qed.

(** An occurrence of a nonempty string starts at a boundary. *)
Lemma occurs_boundary needle s i :
  needle ≠ [] → starts_char needle → occurs needle s i → is_char_boundary s i = true.
Proof.
  intros Hne Hsc [Hi Ho]. destruct needle as [|b needle]; [done|]. simpl in Hsc.
  apply starts_with_app in Ho as [r Hr]. destruct i as [|i]; [done|]. cbn [is_char_boundary].
  assert (s !! S i = Some b) as ->; [|by rewrite Hsc].
  rewrite <- (take_drop (S i) s), Hr. rewrite lookup_app_r by (rewrite length_take; lia).
  rewrite length_take. replace (S i - S i `min` length s)%nat with O by lia. done.
Qed.

Lemma boundary_length s : is_char_boundary s (length s) = true.
Proof.
  destruct s as [|b s]; [done|]. cbn [length is_char_boundary].
  rewrite lookup_ge_None_2 by (simpl; lia). by apply bool_decide_eq_true.
Qed.

(** Appending a string keeps the boundaries there were. *)
Lemma boundary_app s r i :
  starts_char r → (i ≤ length s)%nat → is_char_boundary s i = true → is_char_boundary (s ++ r) i = true.
Proof.
  intros Hr Hi Hb. destruct i as [|i]; [done|]. cbn [is_char_boundary] in *.
  destruct (decide (S i = length s)) as [He|].
  - rewrite lookup_app_r by lia. rewrite He, Nat.sub_diag. destruct r as [|b r]; simpl in *.
    + rewrite app_nil_r. by apply bool_decide_eq_true.
    + by rewrite Hr.
  - rewrite lookup_app_l by lia. destruct (s !! S i) eqn:E; [done|].
    apply lookup_ge_None in E. lia.
Qed.

Lemma str_from_Some s i : is_char_boundary s i = true → str_from s i = Some (drop i s).
Proof. unfold str_from. by intros ->. Qed.

Lemma str_range_Some s i j :
  (i ≤ j)%nat → is_char_boundary s i = true → is_char_boundary s j = true →
  str_range s i j = Some (take (j - i) (drop i s)).
Proof.
  intros Hij Hi Hj. unfold str_range. rewrite Hi, Hj. by rewrite (proj2 (Nat.leb_le i j)).
Qed.

Lemma starts_char_app s r : starts_char s → starts_char r → starts_char (s ++ r).
Proof. by destruct s. Qed.
