(* ===== verification/Json.v ===== *)
(** * JSON values

    The data type of [serde_json::Value] (built with [preserve_order], so an
    object is the list of its members in insertion order), the accessors the
    program uses, UTF-8 encoding, and the compact text of a value, which serves
    as the specification of the sizes the program computes. *)
From Stdlib Require Import String.
From stdpp Require Import base sets numbers list.
From S2P Require Import Prelude Text.
Open Scope N_scope.

(** ** Values *)

(** [serde_json::Number]: a [u64], a negative [i64], or the bits of an [f64]. *)
Inductive number := PosInt (n : N) | NegInt (z : Z) | Float (bits : N).

#[warnings="-register-all"]
Inductive value :=
| Null
| Bool (b : bool)
| Number (n : number)
| JString (s : str)
| Array (l : list value)
| Object (m : list (str * value)).

Abbreviation object := (list (str * value)) (only parsing).

(** Induction with hypotheses for the items of arrays and the members of
    objects. *)
Section value_induction.
Variable P : value → Prop.
Hypotheses (Hnull : P Null) (Hbool : ∀ b, P (Bool b)) (Hnumber : ∀ n, P (Number n))
  (Hstring : ∀ s, P (JString s)) (Harray : ∀ l, Forall P l → P (Array l))
  (Hobject : ∀ m, Forall (λ kv, P kv.2) m → P (Object m)).

Fixpoint value_nested_ind (v : value) : P v :=
  match v with
  | Null => Hnull
  | Bool b => Hbool b
  | Number n => Hnumber n
  | JString s => Hstring s
  | Array l => Harray l ((fix go l : Forall P l :=
      match l with [] => Forall_nil_2 _ | v :: l => Forall_cons_2 _ _ _ (value_nested_ind v) (go l) end) l)
  | Object m => Hobject m ((fix go m : Forall (λ kv, P kv.2) m :=
      match m with [] => Forall_nil_2 _ | kv :: m => Forall_cons_2 _ _ _ (value_nested_ind kv.2) (go m) end) m)
  end.
End value_induction.

(** ** Accessors *)
Definition as_str (v : value) : option str := match v with JString s => Some s | _ => None end.
Definition as_array (v : value) : option (list value) := match v with Array l => Some l | _ => None end.
Definition as_object (v : value) : option object := match v with Object m => Some m | _ => None end.
Definition is_string (v : value) : bool := match v with JString _ => true | _ => false end.

(** [Map::get]. *)
Fixpoint get (key : str) (m : object) : option value :=
  match m with
  | [] => None
  | (k, v) :: m => if bool_decide (k = key) then Some v else get key m
  end.

Definition contains_key (key : str) (m : object) : bool := match get key m with Some _ => true | None => false end.

(** [Map::insert]: a key that is there keeps its position. *)
Fixpoint map_insert (key : str) (v : value) (m : object) : object :=
  match m with
  | [] => [(key, v)]
  | (k, w) :: m => if bool_decide (k = key) then (k, v) :: m else (k, w) :: map_insert key v m
  end.

(** The keys of every object in a value are distinct, as in any [Map]. *)
Fixpoint value_wf (v : value) : Prop :=
  match v with
  | Array l => (fix go l := match l with [] => True | v :: l => value_wf v ∧ go l end) l
  | Object m => NoDup (fst <$> m)
      ∧ (fix go (m : object) := match m with [] => True | (_, v) :: m => value_wf v ∧ go m end) m
  | _ => True
  end.

(** ** UTF-8 *)

(** A Unicode scalar value, and its encoding. *)
Definition is_scalar (c : N) : bool := (c <? 55296) || (57344 <=? c) && (c <? 1114112).

Definition len_utf8 (c : N) : N :=
  if c <? 128 then 1 else if c <? 2048 then 2 else if c <? 65536 then 3 else 4.

Definition utf8_encode (c : N) : str :=
  if c <? 128 then [c]
  else if c <? 2048 then [192 + c / 64; 128 + c mod 64]
  else if c <? 65536 then [224 + c / 4096; 128 + (c / 64) mod 64; 128 + c mod 64]
  else [240 + c / 262144; 128 + (c / 4096) mod 64; 128 + (c / 64) mod 64; 128 + c mod 64].

Definition utf8_text (cs : list N) : str := concat (utf8_encode <$> cs).

(** What holds of every [str]. *)
Definition valid_utf8 (s : str) : Prop := ∃ cs, Forall (λ c, is_scalar c = true) cs ∧ s = utf8_text cs.

(** ** Compact text *)

(** Decimal digits, most significant first; [fuel] bounds their number. *)
Fixpoint decimal_loop (fuel : nat) (n : N) : str :=
  match fuel with
  | O => []
  | S fuel => (if n <? 10 then [] else decimal_loop fuel (n / 10)) ++ [48 + n mod 10]
  end.
Definition decimal (n : N) : str := decimal_loop (S (N.to_nat (N.log2 n))) n.

(** The escape of one byte inside a JSON string. *)
Definition hex_digit (n : N) : N := if n <? 10 then 48 + n else 87 + n.
Definition escape_byte (b : N) : str :=
  if b =? 34 then lit "\" ++ [34]
  else if b =? 92 then lit "\\"
  else if b =? 8 then lit "\b"
  else if b =? 9 then lit "\t"
  else if b =? 10 then lit "\n"
  else if b =? 12 then lit "\f"
  else if b =? 13 then lit "\r"
  else if b <? 32 then lit "\u00" ++ [hex_digit (b / 16); hex_digit (b mod 16)]
  else [b].

Definition string_text (s : str) : str := [34] ++ concat (escape_byte <$> s) ++ [34].

(** [sep]-separated concatenation. *)
Fixpoint join (sep : str) (l : list str) : str :=
  match l with
  | [] => []
  | [s] => s
  | s :: l => s ++ sep ++ join sep l
  end.

Section text.
(** The shortest decimal form of an [f64], which the number formatter prints. *)
Variable float_text : N → str.

Definition number_text (n : number) : str :=
  match n with
  | PosInt n => decimal n
  | NegInt z => (if (z <? 0)%Z then [45] else []) ++ decimal (Z.abs_N z)
  | Float bits => float_text bits
  end.

Fixpoint json_text (v : value) : str :=
  match v with
  | Null => lit "null"
  | Bool b => if b then lit "true" else lit "false"
  | Number n => number_text n
  | JString s => string_text s
  | Array l => lit "[" ++ join (lit ",") (map json_text l) ++ lit "]"
  | Object m => lit "{" ++ join (lit ",") (map (λ '(k, v), string_text k ++ lit ":" ++ json_text v) m) ++ lit "}"
  end.
End text.

(** ** Lemmas *)
Lemma value_wf_array l : value_wf (Array l) ↔ Forall value_wf l.
Proof.
  simpl. induction l as [|v l IH]; [by rewrite Forall_nil|]. by rewrite Forall_cons, IH.
Qed.

Lemma value_wf_object m : value_wf (Object m) ↔ NoDup (fst <$> m) ∧ Forall (λ kv, value_wf kv.2) m.
Proof.
  simpl. apply and_iff_compat_l. induction m as [|[k v] m IH]; [by rewrite Forall_nil|].
  by rewrite Forall_cons, IH.
Qed.

Lemma utf8_encode_length c : N.of_nat (length (utf8_encode c)) = len_utf8 c.
Proof. unfold utf8_encode, len_utf8. repeat case_match; done. Qed.

Lemma get_Some_in key m v : get key m = Some v → (key, v) ∈ m.
Proof.
  induction m as [|[k w] m IH]; simpl; [done|]. case_bool_decide; [|intros H'; right; by apply IH].
  intros [= ->]. subst. by left.
Qed.

Lemma get_in key m v : NoDup (fst <$> m) → (key, v) ∈ m → get key m = Some v.
Proof.
  induction m as [|[k w] m IH]; simpl; [by intros _ ?%not_elem_of_nil|].
  intros [Hk Hd]%NoDup_cons. intros [[= -> ->]|Hin]%elem_of_cons.
  - by rewrite bool_decide_eq_true_2.
  - rewrite bool_decide_eq_false_2; [by apply IH|]. intros ->. apply Hk.
    apply list_elem_of_fmap. by exists (key, v).
Qed.

Local Ltac Zify.zify_post_hook ::= Z.to_euclidean_division_equations.

(** Decoding what was encoded. *)
Lemma chars_encode c s : is_scalar c = true → chars (utf8_encode c ++ s) = c :: chars s.
Proof.
  intros Hc. assert (c < 1114112) as Hlt.
  { unfold is_scalar in Hc. destruct (N.ltb_spec c 55296); simpl in *; bool_to_prop; lia. }
  clear Hc. unfold utf8_encode.
  destruct (N.ltb_spec c 128); [|destruct (N.ltb_spec c 2048); [|destruct (N.ltb_spec c 65536)]];
    cbn [app chars];
    repeat match goal with |- context [?a <? ?b] => destruct (N.ltb_spec a b); try lia end;
    f_equal; lia.
Qed.

Lemma chars_text cs : Forall (λ c, is_scalar c = true) cs → chars (utf8_text cs) = cs.
Proof.
  induction 1 as [|c cs Hc _ IH]; [done|]. unfold utf8_text in *.
  rewrite fmap_cons. cbn [concat]. by rewrite chars_encode, IH.
Qed.
