(* ===== verification/Whitespace.v ===== *)
(** * Whitespace and the ends of strings

    What the readers of model output use of Rust's [str] beside [Text.v]:
    [ends_with], trimming, and stripping prefixes and suffixes. *)
From Stdlib Require Import String.
From stdpp Require Import base sets numbers list.
From S2P Require Import Prelude Text Json.
Open Scope nat_scope.

(** [str::ends_with]. *)
Definition ends_with (s suffix : str) : bool :=
  (length suffix <=? length s) && bool_decide (drop (length s - length suffix) s = suffix).

(** ** Whitespace

    The characters with the property [White_Space], and what is left of a string
    without those it starts or ends with. *)
Definition whitespace_chars : list N :=
  [9; 10; 11; 12; 13; 32; 133; 160; 5760; 8192; 8193; 8194; 8195; 8196; 8197; 8198; 8199; 8200;
   8201; 8202; 8232; 8233; 8239; 8287; 12288]%N.
Definition whitespace_encodings : list str := utf8_encode <$> whitespace_chars.

Definition leading_space (s : str) : option nat :=
  length <$> List.find (λ w, starts_with w s) whitespace_encodings.
Definition trailing_space (s : str) : option nat :=
  length <$> List.find (λ w, ends_with s w) whitespace_encodings.

Fixpoint trim_start_loop (fuel : nat) (s : str) : str :=
  match fuel with
  | O => s
  | S fuel => match leading_space s with Some n => trim_start_loop fuel (drop n s) | None => s end
  end.
(** [str::trim_start_matches(char::is_whitespace)]. *)
Definition trim_start (s : str) : str := trim_start_loop (length s) s.

Fixpoint trim_end_loop (fuel : nat) (s : str) : str :=
  match fuel with
  | O => s
  | S fuel =>
      match trailing_space s with Some n => trim_end_loop fuel (take (length s - n) s) | None => s end
  end.

Definition trim_end (s : str) : str := trim_end_loop (length s) s.
Definition trim (s : str) : str := trim_end (trim_start s).

(** ** Parts of strings *)
Definition contains (s needle : str) : bool := match find needle s with Some _ => true | None => false end.
Definition strip_prefix (prefix s : str) : option str :=
  if starts_with prefix s then Some (drop (length prefix) s) else None.

Definition strip_suffix (suffix s : str) : option str :=
  if ends_with s suffix then Some (take (length s - length suffix) s) else None.
Definition split_once (delimiter s : str) : option (str * str) :=
  (λ i, (take i s, drop (i + length delimiter) s)) <$> find delimiter s.

(** [str::rfind]: the last offset at which [needle] occurs. *)
Fixpoint rfind (needle s : str) : option nat :=
  match s with
  | [] => if starts_with needle [] then Some 0 else None
  | _ :: r => match rfind needle r with
              | Some i => Some (S i)
              | None => if starts_with needle s then Some 0 else None
              end
  end.

(** [str::trim_start_matches] and [str::trim_end_matches] of a nonempty
    pattern; [fuel] bounds the repetitions. *)
Fixpoint trim_start_matches_loop (fuel : nat) (pattern s : str) : str :=
  match fuel with
  | O => s
  | S fuel => match strip_prefix pattern s with Some s => trim_start_matches_loop fuel pattern s | None => s end
  end.
Definition trim_start_matches (pattern s : str) : str := trim_start_matches_loop (length s) pattern s.
Fixpoint trim_end_matches_loop (fuel : nat) (pattern s : str) : str :=
  match fuel with
  | O => s
  | S fuel => match strip_suffix pattern s with Some s => trim_end_matches_loop fuel pattern s | None => s end
  end.
Definition trim_end_matches (pattern s : str) : str := trim_end_matches_loop (length s) pattern s.

(** ** Lemmas *)
Lemma ends_with_spec s x : ends_with s x = true ↔ ∃ p, s = p ++ x.
Proof.
  unfold ends_with. rewrite andb_true_iff, bool_decide_eq_true, Nat.leb_le. split.
  - intros [Hl Hd]. exists (take (length s - length x) s). by rewrite <- Hd at 2; rewrite take_drop.
  - intros [p ->]. rewrite length_app. split; [lia|]. rewrite Nat.add_sub, drop_app_length. done.
Qed.

Definition encoding_ok (w : str) : bool :=
  match w with b :: r => negb (is_continuation b) && forallb is_continuation r | [] => false end.

Lemma encodings_ok : forallb encoding_ok whitespace_encodings = true.
Proof. by vm_compute. Qed.

(** No two encodings start the same string. *)
Lemma encodings_prefix_free :
  forallb (λ w, forallb (λ x, negb (starts_with w x) || bool_decide (w = x)) whitespace_encodings)
    whitespace_encodings = true.
Proof. by vm_compute. Qed.

Lemma encoding_wf w : w ∈ whitespace_encodings →
  0 < length w ∧ ∀ i b, w !! i = Some b → 0 < i → is_continuation b = true.
Proof.
  intros Hw%list_elem_of_In. pose proof (proj1 (forallb_forall _ _) encodings_ok w Hw) as H.
  destruct w as [|b r]; [done|]. cbn in H. apply andb_true_iff in H as [_ Hr]. split; [simpl; lia|].
  intros [|i] c Hi Hp; [lia|]. rewrite forallb_forall in Hr. change (r !! i = Some c) in Hi.
  apply Hr, list_elem_of_In. by apply (list_elem_of_lookup_2 r i).
Qed.

Lemma encodings_same w x s : w ∈ whitespace_encodings → x ∈ whitespace_encodings →
  starts_with w s = true → starts_with x s = true → w = x.
Proof.
  assert (∀ w x, w ∈ whitespace_encodings → x ∈ whitespace_encodings →
    starts_with w s = true → starts_with x s = true → length w ≤ length x → w = x) as Hle.
  { clear. intros w x Hw%list_elem_of_In Hx%list_elem_of_In Hs Ht Hl.
    pose proof (proj1 (forallb_forall _ _) encodings_prefix_free w Hw) as H. cbn beta in H.
    pose proof (proj1 (forallb_forall _ _) H x Hx) as H'. cbn beta in H'.
    apply orb_true_iff in H' as [H'|H']; [|by apply bool_decide_eq_true in H'].
    apply negb_true_iff in H'. apply starts_with_app in Ht as [r ->].
    by rewrite starts_with_shorten in Hs by done; congruence. }
  intros Hw Hx Hs Ht. destruct (le_ge_dec (length w) (length x)); [by apply Hle|symmetry; by apply Hle].
Qed.

Lemma leading_space_Some s n :
  leading_space s = Some n ↔ ∃ w, w ∈ whitespace_encodings ∧ starts_with w s = true ∧ n = length w.
Proof.
  unfold leading_space. rewrite fmap_Some. split.
  - intros (w & Hf & ->). apply List.find_some in Hf as [Hin%list_elem_of_In Hs]. eauto.
  - intros (w & Hw & Hs & ->). destruct (List.find (λ w, starts_with w s) whitespace_encodings) as [x|] eqn:E.
    + exists x. split; [done|]. apply List.find_some in E as [Hx%list_elem_of_In Ht].
      by rewrite (encodings_same w x s).
    + exfalso. apply list_elem_of_In in Hw. pose proof (List.find_none _ _ E w Hw) as H. cbn in H. congruence.
Qed.

Lemma leading_space_length s n : leading_space s = Some n → 0 < n ≤ length s.
Proof.
  intros (w & Hw & Hs & ->)%leading_space_Some. apply encoding_wf in Hw as [? _].
  apply starts_with_length in Hs. lia.
Qed.

(** A whole string decides whether it starts with whitespace. *)
Lemma leading_space_app u v : u ≠ [] → starts_char v → leading_space (u ++ v) = leading_space u.
Proof.
  intros Hu Hv. apply option_eq. intros n. rewrite !leading_space_Some.
  split; intros (w & Hw & Hs & Hn); exists w; split_and!; try done; [|by apply starts_with_mono].
  pose proof (encoding_wf w Hw) as [Hlw Hcont].
  destruct (decide (length w ≤ length u)); [by rewrite <- (starts_with_shorten w u v)|].
  exfalso. apply starts_with_app in Hs as [x Hx].
  destruct v as [|b v]; [rewrite app_nil_r in Hx; apply (f_equal length) in Hx; rewrite length_app in Hx; lia|].
  assert (w !! length u = Some b) as Hb.
  { rewrite <- (lookup_app_l w x) by lia. rewrite <- Hx, lookup_app_r, Nat.sub_diag by lia. done. }
  apply Hcont in Hb; [|destruct u; [done|simpl; lia]]. cbn in Hv. congruence.
Qed.

Lemma trim_start_loop_fuel f g s : length s ≤ f → length s ≤ g → trim_start_loop f s = trim_start_loop g s.
Proof.
  revert g s. induction f as [|f IH]; intros g s Hf Hg.
  - destruct s; [|simpl in Hf; lia]. by destruct g.
  - destruct g as [|g]; [destruct s; [reflexivity|simpl in Hg; lia]|]. cbn [trim_start_loop].
    destruct (leading_space s) as [n|] eqn:E; [|done]. apply leading_space_length in E.
    apply IH; rewrite length_drop; lia.
Qed.

Lemma trim_start_step s :
  trim_start s = match leading_space s with Some n => trim_start (drop n s) | None => s end.
Proof.
  unfold trim_start at 1. destruct s as [|b s]; [done|]. cbn [trim_start_loop length].
  destruct (leading_space (b :: s)) as [n|] eqn:E; [|done]. apply leading_space_length in E.
  apply trim_start_loop_fuel; [|done]. rewrite length_drop. simpl in *. lia.
Qed.

Lemma trim_start_ind (P : str → Prop) :
  (∀ s, leading_space s = None → P s) →
  (∀ s n, leading_space s = Some n → P (drop n s) → P s) → ∀ s, P s.
Proof.
  intros Hnone Hsome s. induction s as [s IH] using (induction_ltof1 _ length). unfold ltof in IH.
  destruct (leading_space s) as [n|] eqn:E; [|by apply Hnone]. apply (Hsome s n E), IH.
  apply leading_space_length in E. rewrite length_drop. lia.
Qed.

Lemma trim_start_suffix s : ∃ k, k ≤ length s ∧ trim_start s = drop k s.
Proof.
  induction s as [s E|s n E (k & Hk & He)] using trim_start_ind; rewrite trim_start_step, E.
  - exists 0. split; [lia|done].
  - apply leading_space_length in E. rewrite length_drop in Hk. exists (n + k). split; [lia|].
    by rewrite He, drop_drop.
Qed.

Lemma trim_start_shorter s n : leading_space s = Some n → length (trim_start s) < length s.
Proof.
  intros E. rewrite trim_start_step, E. destruct (trim_start_suffix (drop n s)) as (k & _ & ->).
  apply leading_space_length in E. rewrite !length_drop. lia.
Qed.

Lemma trim_start_drop s : drop (length s - length (trim_start s)) s = trim_start s.
Proof.
  destruct (trim_start_suffix s) as (k & Hk & ->). rewrite length_drop. f_equal. lia.
Qed.

Lemma trim_start_done s : leading_space (trim_start s) = None.
Proof. induction s as [s E|s n E IH] using trim_start_ind; by rewrite trim_start_step, E. Qed.

Lemma trim_start_none s : leading_space s = None ↔ trim_start s = s.
Proof.
  split; [intros E; by rewrite trim_start_step, E|intros <-; apply trim_start_done].
Qed.

Lemma trim_start_app u v : starts_char v →
  trim_start (u ++ v) = match trim_start u with [] => trim_start v | _ => trim_start u ++ v end.
Proof.
  intros Hv. induction u as [u E|u n E IH] using trim_start_ind.
  - rewrite (trim_start_step u), E. destruct u as [|b u]; [done|].
    by rewrite trim_start_step, leading_space_app, E.
  - assert (u ≠ []) as Hu by (intros ->; apply leading_space_length in E; simpl in E; lia).
    rewrite (trim_start_step u), E, trim_start_step, leading_space_app, E by done.
    apply leading_space_length in E. by rewrite drop_app_le by lia.
Qed.
