(* ===== verification/KvFormat.v ===== *)
(** * Compressed key/value formats

    Models [crates/llm-kv-cache/src/format.rs]: the cache configuration, the
    packing of quantization codes into bytes, the quantized blocks and the
    stores a layer cache mirrors its blocks into.  An [f32] is its bit pattern;
    its arithmetic is the interface [F32Arith]. *)
From Stdlib Require Import String.
From stdpp Require Import base sets numbers list.
From S2P Require Import Prelude Text KvTables.
Open Scope N_scope.
Open Scope record_scope.

(** ** 32-bit floats *)
Abbreviation F32 := N (only parsing).

(** [f32::is_finite], [f32::abs] and [==] on bit patterns. *)
Definition is_finite (x : F32) : bool := negb ((x / 2 ^ 23) mod 256 =? 255).
Definition is_nan (x : F32) : bool := ((x / 2 ^ 23) mod 256 =? 255) && negb (x mod 2 ^ 23 =? 0).
Definition f32_abs (x : F32) : F32 := x mod 2 ^ 31.
Definition f32_eq (x y : F32) : bool :=
  negb (is_nan x) && negb (is_nan y) && ((x =? y) || ((f32_abs x =? 0) && (f32_abs y =? 0))).
Definition f32_infinity : F32 := 0x7F800000.
Definition f32_neg_infinity : F32 := 0xFF800000.

(** The rounding operations; [f32_from] is the exact conversion of a small
    integer, [f32_as_int] the truncating cast. *)
Class F32Arith := {
  f32_min : F32 → F32 → F32;
  f32_max : F32 → F32 → F32;
  f32_add : F32 → F32 → F32;
  f32_sub : F32 → F32 → F32;
  f32_mul : F32 → F32 → F32;
  f32_div : F32 → F32 → F32;
  f32_round : F32 → F32;
  f32_clamp : Z → Z → F32 → F32;
  f32_from : Z → F32;
  f32_as_int : F32 → Z;
}.

(** A value clamped to an integer range (or NaN, cast to zero) is cast into
    the range. *)
Class F32ArithLaws `{F32Arith} := {
  clamp_cast : ∀ lo hi x, (lo ≤ 0 ≤ hi)%Z → (lo ≤ f32_as_int (f32_clamp lo hi x) ≤ hi)%Z;
}.

(** ** Configuration *)
Definition format_display (f : KvCacheFormat) : str :=
  match f with
  | FormatF32 => lit "f32"
  | FormatF16 => lit "f16"
  | FormatInt8 => lit "int8"
  | FormatAsymmetricVq => lit "asymmetric_vq"
  end.

Inductive KvCacheValueQuantizationBits := Three | Four | Eight.
#[export] Instance KvCacheValueQuantizationBits_eq_dec : EqDecision KvCacheValueQuantizationBits.
Proof. solve_decision. Defined.

Definition bit_width (bits : KvCacheValueQuantizationBits) : N :=
  match bits with Three => 3 | Four => 4 | Eight => 8 end.
Definition level_count (bits : KvCacheValueQuantizationBits) : N := N.shiftl 1 (bit_width bits).
Definition bits_payload_bytes (value_count : N) (bits : KvCacheValueQuantizationBits)
    : outcome KvCacheError N :=
  ok_or InvalidShape
    (b ← checked_mul value_count (bit_width bits);
     b ← checked_add b 7;
     Some (b / 8)).

Record AsymmetricVqCacheConfig := MkVqConfig { value_bits : KvCacheValueQuantizationBits }.
Record KvCacheConfig := MkConfig {
  format : KvCacheFormat;
  asymmetric_vq_config : option AsymmetricVqCacheConfig;
}.
#[export] Instance AsymmetricVqCacheConfig_eq_dec : EqDecision AsymmetricVqCacheConfig.
Proof. solve_decision. Defined.
#[export] Instance KvCacheConfig_eq_dec : EqDecision KvCacheConfig.
Proof. solve_decision. Defined.

Definition config_f32 : KvCacheConfig := MkConfig FormatF32 None.
Definition config_f16 : KvCacheConfig := MkConfig FormatF16 None.
Definition config_int8 : KvCacheConfig := MkConfig FormatInt8 None.
Definition config_asymmetric_vq (c : AsymmetricVqCacheConfig) : KvCacheConfig :=
  MkConfig FormatAsymmetricVq (Some c).

(** ** Packing codes *)

(** [0..n]. *)
Definition range (n : N) : list N := N.of_nat <$> seq 0 (N.to_nat n).

Definition pack_bit (base_bit code : N) (bytes : list N) (code_bit : N)
    : outcome KvCacheError (list N) :=
  if N.land (N.shiftr code code_bit) 1 =? 1 then
    bit_index ← ok_or InvalidShape (checked_add base_bit code_bit);
    byte ← ok_or InvalidShape (bytes !! N.to_nat (bit_index / 8));
    Ok (<[N.to_nat (bit_index / 8) := N.lor byte (N.shiftl 1 (bit_index mod 8))]> bytes)
  else Ok bytes.

Definition pack_code (bits : KvCacheValueQuantizationBits) (bytes : list N) (x : N * N)
    : outcome KvCacheError (list N) :=
  let '(value_index, code) := x in
  if level_count bits - 1 <? code then Err InvalidShape
  else
    base_bit ← ok_or InvalidShape (checked_mul value_index (bit_width bits));
    try_fold (pack_bit base_bit code) bytes (range (bit_width bits)).

Definition pack_codes (bits : KvCacheValueQuantizationBits) (codes : list N)
    : outcome KvCacheError (list N) :=
  len ← bits_payload_bytes (N.of_nat (length codes)) bits;
  try_fold (pack_code bits) (replicate (N.to_nat len) 0) (zip (range (N.of_nat (length codes))) codes).

Definition unpack_bit (base_bit : N) (bytes : list N) (code code_bit : N) : outcome KvCacheError N :=
  bit_index ← ok_or InvalidShape (checked_add base_bit code_bit);
  byte ← ok_or InvalidShape (bytes !! N.to_nat (bit_index / 8));
  if N.land (N.shiftr byte (bit_index mod 8)) 1 =? 1
  then Ok (N.lor code (N.shiftl 1 code_bit)) else Ok code.

Definition unpack_code (bits : KvCacheValueQuantizationBits) (bytes : list N) (value_index : N)
    : outcome KvCacheError N :=
  base_bit ← ok_or InvalidShape (checked_mul value_index (bit_width bits));
  try_fold (unpack_bit base_bit bytes) 0 (range (bit_width bits)).

Definition unpack_codes (bits : KvCacheValueQuantizationBits) (value_count : N) (bytes : list N)
    : outcome KvCacheError (list N) :=
  len ← bits_payload_bytes value_count bits;
  if negb (N.of_nat (length bytes) =? len) then Err InvalidShape
  else mapM (unpack_code bits bytes) (range value_count).

(** ** Rows

    [chunks_exact]. *)
Fixpoint chunks_loop {A} (fuel : nat) (n : nat) (l : list A) : list (list A) :=
  match fuel with
  | O => []
  | S fuel => if (length l <? n)%nat then [] else take n l :: chunks_loop fuel n (drop n l)
  end.
Definition chunks_exact {A} (n : N) (l : list A) : list (list A) :=
  chunks_loop (length l) (N.to_nat n) l.

Definition is_multiple_of (a b : N) : bool := if b =? 0 then a =? 0 else a mod b =? 0.

(** [values.is_empty() || vector_len == 0 || !values.len().is_multiple_of(vector_len)]. *)
Definition bad_rows (values : list F32) (vector_len : N) : bool :=
  bool_decide (values = []) || (vector_len =? 0) || negb (is_multiple_of (N.of_nat (length values)) vector_len).

Section quantize.
Context `{F32Arith}.

(** *** Symmetric 8-bit rows *)
Definition max_abs_step (max_abs value : F32) : outcome KvCacheError F32 :=
  if negb (is_finite value) then Err NonFiniteValue else Ok (f32_max max_abs (f32_abs value)).

Definition quantize_int8_row (row : list F32) : outcome KvCacheError (list Z * F32) :=
  max_abs ← try_fold max_abs_step 0 row;
  let scale := if f32_eq max_abs 0 then 0 else f32_div max_abs (f32_from 127) in
  Ok ((λ value, if f32_eq scale 0 then 0%Z
                else f32_as_int (f32_clamp (-127) 127 (f32_round (f32_div value scale)))) <$> row, scale).

Definition quantize_int8_rows (values : list F32) (vector_len : N)
    : outcome KvCacheError (list Z * list F32) :=
  if bad_rows values vector_len then Err InvalidShape
  else
    rows ← mapM quantize_int8_row (chunks_exact vector_len values);
    Ok (mjoin rows.*1, rows.*2).

Definition dequantize_int8_rows (codes : list Z) (scales : list F32) (vector_len : N)
    : outcome KvCacheError (list F32) :=
  if (vector_len =? 0) || negb (is_multiple_of (N.of_nat (length codes)) vector_len) then Err InvalidShape
  else
    let token_count := N.of_nat (length codes) / vector_len in
    if negb (N.of_nat (length scales) =? token_count)
    then Err (ShapeMismatch token_count (N.of_nat (length scales)))
    else Ok (mjoin ((λ x : list Z * F32, (λ code, f32_mul (f32_from code) x.2) <$> x.1)
                      <$> zip (chunks_exact vector_len codes) scales)).

Record Int8KvBlock := MkInt8Block {
  i8_vector_len : N;
  i8_token_count : N;
  key_scales : list F32;
  value_scales : list F32;
  key_codes : list Z;
  value_codes : list Z;
}.

Definition int8_quantize (keys values : list F32) (vector_len : N) : outcome KvCacheError Int8KvBlock :=
  if bool_decide (keys = []) || (vector_len =? 0) || negb (length keys =? length values)%nat
     || negb (is_multiple_of (N.of_nat (length keys)) vector_len)
  then Err InvalidShape
  else
    '(kc, ks) ← quantize_int8_rows keys vector_len;
    '(vc, vs) ← quantize_int8_rows values vector_len;
    Ok (MkInt8Block vector_len (N.of_nat (length keys) / vector_len) ks vs kc vc).

Definition dequantize_keys (b : Int8KvBlock) : outcome KvCacheError (list F32) :=
  dequantize_int8_rows (key_codes b) (key_scales b) (i8_vector_len b).
Definition dequantize_values (b : Int8KvBlock) : outcome KvCacheError (list F32) :=
  dequantize_int8_rows (value_codes b) (value_scales b) (i8_vector_len b).

Definition int8_payload_bytes (b : Int8KvBlock) : N :=
  sat_add (N.of_nat (length (key_codes b))) (N.of_nat (length (value_codes b))).
Definition int8_metadata_bytes (b : Int8KvBlock) : N :=
  sat_add (sat_mul (sat_add (N.of_nat (length (key_scales b))) (N.of_nat (length (value_scales b)))) 4)
    (sat_mul 2 8).

(** [LayerInt8KvStore]. *)
Record LayerInt8KvStore := MkInt8Store { int8_vector_len : N; int8_blocks : list (option Int8KvBlock) }.

Definition int8_store_new (block_count vector_len : N) : outcome KvCacheError LayerInt8KvStore :=
  if (block_count =? 0) || (vector_len =? 0) then Err InvalidShape
  else Ok (MkInt8Store vector_len (replicate (N.to_nat block_count) None)).

Definition int8_update_block (block_index : nat) (keys values : list F32) (s : LayerInt8KvStore)
    : outcome KvCacheError LayerInt8KvStore :=
  if (length (int8_blocks s) <=? block_index)%nat || bool_decide (keys = [])
     || negb (length keys =? length values)%nat
     || negb (is_multiple_of (N.of_nat (length keys)) (int8_vector_len s))
  then Err InvalidShape
  else
    b ← int8_quantize keys values (int8_vector_len s);
    Ok (MkInt8Store (int8_vector_len s) (<[block_index := Some b]> (int8_blocks s))).

Definition int8_clear (s : LayerInt8KvStore) : LayerInt8KvStore :=
  MkInt8Store (int8_vector_len s) ((λ _, None) <$> int8_blocks s).

Definition int8_block (block_index : nat) (s : LayerInt8KvStore) : outcome KvCacheError Int8KvBlock :=
  ok_or InvalidShape (mjoin (int8_blocks s !! block_index)).
Definition dequantized_key_block (block_index : nat) (s : LayerInt8KvStore) : outcome KvCacheError (list F32) :=
  int8_block block_index s ≫= dequantize_keys.
Definition dequantized_value_block (block_index : nat) (s : LayerInt8KvStore) : outcome KvCacheError (list F32) :=
  int8_block block_index s ≫= dequantize_values.

(** [Iterator::sum] of [u64], which wraps. *)
Definition wrap_sum (l : list N) : N := foldl wrap_add 0 l.
Definition int8_store_payload_bytes (s : LayerInt8KvStore) : N :=
  wrap_sum (int8_payload_bytes <$> omap id (int8_blocks s)).
Definition int8_store_metadata_bytes (s : LayerInt8KvStore) : N :=
  wrap_sum (int8_metadata_bytes <$> omap id (int8_blocks s)).
Definition int8_store_resident_bytes (s : LayerInt8KvStore) : N :=
  sat_add (int8_store_payload_bytes s) (int8_store_metadata_bytes s).

(** *** Asymmetric value rows *)
Record QuantizedValueRow := MkRow { zero_point : F32; scale : F32 }.
Record QuantizedValueBlock := MkQBlock {
  q_bits : KvCacheValueQuantizationBits;
  q_vector_len : N;
  value_count : N;
  q_rows : list QuantizedValueRow;
  payload : list N;
}.

Definition min_max_step (y : F32 * F32) (value : F32) : outcome KvCacheError (F32 * F32) :=
  if negb (is_finite value) then Err NonFiniteValue
  else Ok (f32_min y.1 value, f32_max y.2 value).

Definition value_code (bits : KvCacheValueQuantizationBits) (row : QuantizedValueRow) (value : F32) : N :=
  if f32_eq (scale row) 0 then 0
  else Z.to_N (f32_as_int (f32_clamp 0 (Z.of_N (level_count bits - 1))
                 (f32_round (f32_div (f32_sub value (zero_point row)) (scale row))))).

Definition row_scale (bits : KvCacheValueQuantizationBits) (min max : F32) : F32 :=
  if f32_eq min max then 0 else f32_div (f32_sub max min) (f32_from (Z.of_N (level_count bits - 1))).

Definition quantize_value_row (bits : KvCacheValueQuantizationBits) (row : list F32)
    : outcome KvCacheError (QuantizedValueRow * list N) :=
  '(min, max) ← try_fold min_max_step (f32_infinity, f32_neg_infinity) row;
  let r := MkRow min (row_scale bits min max) in
  packed ← pack_codes bits (value_code bits r <$> row);
  Ok (r, packed).

Definition q_quantize (bits : KvCacheValueQuantizationBits) (values : list F32) (vector_len : N)
    : outcome KvCacheError QuantizedValueBlock :=
  if bad_rows values vector_len then Err InvalidShape
  else
    _ ← bits_payload_bytes (N.of_nat (length values)) bits;
    rows ← mapM (quantize_value_row bits) (chunks_exact vector_len values);
    Ok (MkQBlock bits vector_len (N.of_nat (length values)) rows.*1 (mjoin rows.*2)).

Definition dequantize_code (row : QuantizedValueRow) (code : N) : F32 :=
  f32_add (zero_point row) (f32_mul (f32_from (Z.of_N code)) (scale row)).

Definition dequantize_row (bits : KvCacheValueQuantizationBits) (vector_len row_payload_bytes : N)
    (payload : list N) (x : N * QuantizedValueRow) : outcome KvCacheError (list F32) :=
  payload_start ← ok_or InvalidShape (checked_mul x.1 row_payload_bytes);
  payload_end ← ok_or InvalidShape (checked_add payload_start row_payload_bytes);
  bytes ← ok_or InvalidShape (slice payload payload_start payload_end);
  codes ← unpack_codes bits vector_len bytes;
  Ok (map (dequantize_code x.2) codes).

Definition q_dequantize (b : QuantizedValueBlock) : outcome KvCacheError (list F32) :=
  if (q_vector_len b =? 0) || negb (is_multiple_of (value_count b) (q_vector_len b)) then Err InvalidShape
  else
    row_payload_bytes ← bits_payload_bytes (q_vector_len b) (q_bits b);
    expected ← ok_or InvalidShape (checked_mul row_payload_bytes (N.of_nat (length (q_rows b))));
    if negb (N.of_nat (length (payload b)) =? expected) then Err InvalidShape
    else
      mjoin <$> mapM (dequantize_row (q_bits b) (q_vector_len b) row_payload_bytes (payload b))
                  (zip (range (N.of_nat (length (q_rows b)))) (q_rows b)).

(** [size_of::<QuantizedValueRow>()] is 8, [size_of::<usize>()] 8 and
    [size_of::<KvCacheValueQuantizationBits>()] 1. *)
Definition q_payload_bytes (b : QuantizedValueBlock) : N := N.of_nat (length (payload b)).
Definition q_metadata_bytes (b : QuantizedValueBlock) : N :=
  sat_add (sat_add (sat_mul (N.of_nat (length (q_rows b))) 8) 16) 1.

Record LayerQuantizedValueStore := MkQStore {
  q_config : AsymmetricVqCacheConfig;
  qs_vector_len : N;
  q_blocks : list (option QuantizedValueBlock);
}.

Definition q_store_new (block_count vector_len : N) (config : AsymmetricVqCacheConfig)
    : outcome KvCacheError LayerQuantizedValueStore :=
  if (block_count =? 0) || (vector_len =? 0) then Err InvalidShape
  else Ok (MkQStore config vector_len (replicate (N.to_nat block_count) None)).

Definition q_update_block (block_index : nat) (values : list F32) (s : LayerQuantizedValueStore)
    : outcome KvCacheError LayerQuantizedValueStore :=
  if (length (q_blocks s) <=? block_index)%nat || bool_decide (values = [])
     || negb (is_multiple_of (N.of_nat (length values)) (qs_vector_len s))
  then Err InvalidShape
  else
    b ← q_quantize (value_bits (q_config s)) values (qs_vector_len s);
    Ok (MkQStore (q_config s) (qs_vector_len s) (<[block_index := Some b]> (q_blocks s))).

Definition q_clear (s : LayerQuantizedValueStore) : LayerQuantizedValueStore :=
  MkQStore (q_config s) (qs_vector_len s) ((λ _, None) <$> q_blocks s).

Definition dequantized_block (block_index : nat) (s : LayerQuantizedValueStore) : outcome KvCacheError (list F32) :=
  b ← ok_or InvalidShape (mjoin (q_blocks s !! block_index));
  q_dequantize b.

Definition q_store_payload_bytes (s : LayerQuantizedValueStore) : N :=
  wrap_sum (q_payload_bytes <$> omap id (q_blocks s)).
Definition q_store_metadata_bytes (s : LayerQuantizedValueStore) : N :=
  wrap_sum (q_metadata_bytes <$> omap id (q_blocks s)).
Definition q_store_resident_bytes (s : LayerQuantizedValueStore) : N :=
  sat_add (q_store_payload_bytes s) (q_store_metadata_bytes s).
End quantize.

(** ** Error-carrying loops *)
Lemma mapM_Ok {E A B} (f : A → outcome E B) (g : A → B) (l : list A) :
  (∀ x, x ∈ l → f x = Ok (g x)) → mapM f l = Ok (g <$> l).
Proof.
  induction l as [|x l IH]; intros Hf; [done|]. cbn. rewrite (Hf x) by (by left). cbn.
  rewrite IH by (intros y Hy; apply Hf; by right). done.
Qed.

Lemma elem_of_range n x : x ∈ range n ↔ x < n.
Proof.
  unfold range. rewrite list_elem_of_fmap. setoid_rewrite elem_of_seq. split.
  - intros (k & -> & Hk). lia.
  - intros Hx. exists (N.to_nat x). split; lia.
Qed.

Lemma length_range n : length (range n) = N.to_nat n.
Proof. unfold range. by rewrite length_fmap, length_seq. Qed.

Lemma lookup_range n i : (i < N.to_nat n)%nat → range n !! i = Some (N.of_nat i).
Proof. intros Hi. unfold range. rewrite list_lookup_fmap, lookup_seq_lt by done. done. Qed.

(** ** Bits of a byte string *)
Definition get_bit (bytes : list N) (k : N) : bool :=
  N.testbit (default 0 (bytes !! N.to_nat (k / 8))) (k mod 8).

Lemma shift_test c i : (N.land (N.shiftr c i) 1 =? 1) = N.testbit c i.
Proof.
  rewrite <- (N.add_0_l i) at 2. rewrite <- N.shiftr_spec'.
  generalize (N.shiftr c i). intros x. change 1 with (N.ones 1) at 1. rewrite N.land_ones.
  change (2 ^ 1) with 2. rewrite <- N.bit0_mod. by destruct (N.testbit x 0).
Qed.

Lemma set_bit_spec bytes k m byte :
  bytes !! N.to_nat (k / 8) = Some byte →
  get_bit (<[N.to_nat (k / 8) := N.lor byte (N.shiftl 1 (k mod 8))]> bytes) m = get_bit bytes m || (m =? k).
Proof.
  intros Hb. unfold get_bit. destruct (decide (k / 8 = m / 8)) as [Hd|Hd].
  - rewrite <- Hd, Hb, list_lookup_insert_eq by (by eapply lookup_lt_Some). cbn -[N.testbit N.lor N.shiftl N.modulo N.div].
    rewrite N.lor_spec, N.shiftl_1_l, N.pow2_bits_eqb. f_equal.
    pose proof (N.div_mod k 8 ltac:(done)). pose proof (N.div_mod m 8 ltac:(done)).
    destruct (N.eqb_spec (k mod 8) (m mod 8)), (N.eqb_spec m k); [done|lia|congruence|done].
  - rewrite list_lookup_insert_ne by lia. destruct (N.eqb_spec m k) as [->|]; [done|by rewrite orb_false_r].
Qed.

Lemma pack_bit_spec base code bytes cb :
  base + cb ≤ u64_max → (base + cb) / 8 < N.of_nat (length bytes) →
  ∃ bytes', pack_bit base code bytes cb = Ok bytes' ∧ length bytes' = length bytes
  ∧ ∀ m, get_bit bytes' m = get_bit bytes m || ((m =? base + cb) && N.testbit code cb).
Proof.
  intros Hu Hl. unfold pack_bit. rewrite shift_test. destruct (N.testbit code cb).
  - unfold checked_add. rewrite (proj2 (N.leb_le _ _) Hu). cbn.
    destruct (bytes !! N.to_nat ((base + cb) / 8)) as [byte|] eqn:Hb; [|apply lookup_ge_None in Hb; lia].
    cbn. eexists. split; [done|]. split; [apply length_insert|]. intros m.
    by rewrite (set_bit_spec _ _ _ _ Hb), andb_true_r.
  - exists bytes. split; [done|]. split; [done|]. intros m. by rewrite andb_false_r, orb_false_r.
Qed.

Lemma pack_bits_spec base code bytes l :
  (∀ cb, cb ∈ l → base + cb ≤ u64_max ∧ (base + cb) / 8 < N.of_nat (length bytes)) →
  ∃ bytes', try_fold (pack_bit base code) bytes l = Ok bytes' ∧ length bytes' = length bytes
  ∧ ∀ m, get_bit bytes' m = get_bit bytes m || existsb (λ cb, (m =? base + cb) && N.testbit code cb) l.
Proof.
  revert bytes. induction l as [|cb l IH]; intros bytes Hl; cbn [try_fold].
  { exists bytes. split; [done|]. split; [done|]. intros m. by rewrite orb_false_r. }
  destruct (Hl cb) as [Hu Hb]; [by left|].
  destruct (pack_bit_spec base code bytes cb Hu Hb) as (b1 & -> & Hlen & Hg). cbn.
  destruct (IH b1) as (b2 & -> & Hlen2 & Hg2); [intros x Hx; rewrite Hlen; apply Hl; by right|].
  exists b2. split; [done|]. split; [congruence|]. intros m. by rewrite Hg2, Hg, orb_assoc.
Qed.

Lemma existsb_range (n : N) (f : N → bool) : existsb f (range n) = true ↔ ∃ x, x < n ∧ f x = true.
Proof.
  rewrite existsb_exists. split; intros (x & Hx & Hf); exists x; (split; [|done]).
  - apply elem_of_range. by apply list_elem_of_In.
  - apply list_elem_of_In. by apply elem_of_range.
Qed.

(** The bits of the value in slot [i]. *)
Definition slot_bit (w : N) (m : N) (x : N * N) : bool :=
  (x.1 * w <=? m) && (m <? x.1 * w + w) && N.testbit x.2 (m - x.1 * w).

Lemma pack_code_spec bits bytes i c :
  c < level_count bits → i * bit_width bits + bit_width bits ≤ 8 * N.of_nat (length bytes) →
  i * bit_width bits + bit_width bits ≤ u64_max →
  ∃ bytes', pack_code bits bytes (i, c) = Ok bytes' ∧ length bytes' = length bytes
  ∧ ∀ m, get_bit bytes' m = get_bit bytes m || slot_bit (bit_width bits) m (i, c).
Proof.
  intros Hc Hlen Hu. unfold pack_code. destruct (N.ltb_spec (level_count bits - 1) c) as [|_]; [lia|].
  unfold checked_mul. rewrite (proj2 (N.leb_le (i * bit_width bits) u64_max)) by lia. cbn.
  destruct (pack_bits_spec (i * bit_width bits) c bytes (range (bit_width bits))) as (b & -> & Hl & Hg).
  { intros cb Hcb%elem_of_range. split; [lia|]. apply N.Div0.div_lt_upper_bound. lia. }
  exists b. split; [done|]. split; [done|]. intros m. rewrite Hg. f_equal.
  apply eq_bool_prop_intro. rewrite !Is_true_true, existsb_range. unfold slot_bit. cbn [fst snd].
  rewrite !andb_true_iff, N.leb_le, N.ltb_lt. split.
  - intros (x & Hx & [Hm Ht]%andb_true_iff). apply N.eqb_eq in Hm as ->.
    split; [lia|]. by replace (i * bit_width bits + x - i * bit_width bits) with x by lia.
  - intros [[H1 H2] Ht]. exists (m - i * bit_width bits). split; [lia|].
    apply andb_true_iff. split; [apply N.eqb_eq; lia|done].
Qed.

Lemma pack_codes_loop bits bytes l :
  (∀ i c, (i, c) ∈ l → c < level_count bits ∧ i * bit_width bits + bit_width bits ≤ 8 * N.of_nat (length bytes)
    ∧ i * bit_width bits + bit_width bits ≤ u64_max) →
  ∃ bytes', try_fold (pack_code bits) bytes l = Ok bytes' ∧ length bytes' = length bytes
  ∧ ∀ m, get_bit bytes' m = get_bit bytes m || existsb (slot_bit (bit_width bits) m) l.
Proof.
  revert bytes. induction l as [|[i c] l IH]; intros bytes Hl; cbn [try_fold].
  { exists bytes. split; [done|]. split; [done|]. intros m. by rewrite orb_false_r. }
  destruct (Hl i c) as (Hc & Hb & Hu); [by left|].
  destruct (pack_code_spec bits bytes i c Hc Hb Hu) as (b1 & -> & Hlen & Hg). cbn.
  destruct (IH b1) as (b2 & -> & Hlen2 & Hg2); [intros x y Hx; rewrite Hlen; apply Hl; by right|].
  exists b2. split; [done|]. split; [congruence|]. intros m. by rewrite Hg2, Hg, orb_assoc.
Qed.

Lemma unpack_bits_spec base bytes code l :
  (∀ cb, cb ∈ l → base + cb ≤ u64_max ∧ (base + cb) / 8 < N.of_nat (length bytes)) →
  ∃ r, try_fold (unpack_bit base bytes) code l = Ok r
  ∧ ∀ j, N.testbit r j = N.testbit code j || existsb (λ cb, (j =? cb) && get_bit bytes (base + cb)) l.
Proof.
  revert code. induction l as [|cb l IH]; intros code Hl; cbn [try_fold].
  { exists code. split; [done|]. intros j. by rewrite orb_false_r. }
  destruct (Hl cb) as [Hu Hb]; [by left|]. unfold unpack_bit at 2.
  unfold checked_add. rewrite (proj2 (N.leb_le _ _) Hu). cbn -[N.shiftl N.lor N.shiftr N.land N.modulo N.div].
  destruct (bytes !! N.to_nat ((base + cb) / 8)) as [byte|] eqn:He; [|apply lookup_ge_None in He; lia].
  cbn -[N.shiftl N.lor N.shiftr N.land N.modulo N.div]. rewrite shift_test.
  assert (get_bit bytes (base + cb) = N.testbit byte ((base + cb) mod 8)) as Hg by (unfold get_bit; by rewrite He).
  rewrite <- Hg. destruct (get_bit bytes (base + cb)); cbn -[N.shiftl N.lor].
  - destruct (IH (N.lor code (N.shiftl 1 cb))) as (r & -> & Hr); [intros x Hx; apply Hl; by right|].
    exists r. split; [done|]. intros j. rewrite Hr, N.lor_spec, N.shiftl_1_l, N.pow2_bits_eqb.
    by rewrite andb_true_r, (N.eqb_sym cb j), orb_assoc.
  - destruct (IH code) as (r & -> & Hr); [intros x Hx; apply Hl; by right|].
    exists r. split; [done|]. intros j. by rewrite Hr, andb_false_r.
Qed.

Lemma level_count_pow bits : level_count bits = 2 ^ bit_width bits.
Proof. by destruct bits. Qed.

Lemma bits_payload_bytes_Ok n bits :
  n * 8 + 7 ≤ u64_max → bits_payload_bytes n bits = Ok ((n * bit_width bits + 7) / 8).
Proof.
  intros Hn. assert (n * bit_width bits ≤ n * 8) by (destruct bits; cbn; lia).
  unfold bits_payload_bytes, checked_mul, checked_add.
  rewrite (proj2 (N.leb_le (n * bit_width bits) u64_max)) by lia. cbn.
  by rewrite (proj2 (N.leb_le (n * bit_width bits + 7) u64_max)) by lia.
Qed.

Lemma unpack_code_spec bits bytes i :
  i * bit_width bits + bit_width bits ≤ 8 * N.of_nat (length bytes) →
  i * bit_width bits + bit_width bits ≤ u64_max →
  ∃ r, unpack_code bits bytes i = Ok r
  ∧ ∀ j, N.testbit r j = (j <? bit_width bits) && get_bit bytes (i * bit_width bits + j).
Proof.
  intros Hl Hu. unfold unpack_code, checked_mul.
  rewrite (proj2 (N.leb_le (i * bit_width bits) u64_max)) by lia. cbn -[range].
  destruct (unpack_bits_spec (i * bit_width bits) bytes 0 (range (bit_width bits))) as (r & -> & Hr).
  { intros cb Hcb%elem_of_range. split; [lia|]. apply N.Div0.div_lt_upper_bound. lia. }
  exists r. split; [done|]. intros j. rewrite Hr, N.bits_0. cbn [orb].
  apply eq_bool_prop_intro. rewrite !Is_true_true, existsb_range, andb_true_iff, N.ltb_lt. split.
  - intros (x & Hx & [->%N.eqb_eq Hg]%andb_true_iff). done.
  - intros [Hj Hg]. exists j. by rewrite N.eqb_refl.
Qed.

(** What a packed buffer holds at the bits of slot [i]. *)
Lemma slots_bit w codes i c j :
  0 < w → codes !! i = Some c → j < w →
  existsb (slot_bit w (N.of_nat i * w + j)) (zip (range (N.of_nat (length codes))) codes) = N.testbit c j.
Proof.
  intros Hw Hc Hj. pose proof (lookup_lt_Some _ _ _ Hc) as Hi.
  assert (zip (range (N.of_nat (length codes))) codes !! i = Some (N.of_nat i, c)) as Hz.
  { rewrite lookup_zip_with, lookup_range by lia. cbn. by rewrite Hc. }
  apply eq_bool_prop_intro. rewrite !Is_true_true, existsb_exists. split.
  - intros ([i' c'] & Hin & Hs). apply list_elem_of_In, list_elem_of_lookup in Hin as [k Hk].
    unfold slot_bit in Hs. cbn [fst snd] in Hs. rewrite !andb_true_iff, N.leb_le, N.ltb_lt in Hs.
    destruct Hs as [[H1 H2] Ht]. assert (i' = N.of_nat i) as -> by nia.
    rewrite lookup_zip_with in Hk. destruct (range (N.of_nat (length codes)) !! k) as [x|] eqn:Hx; [|done].
    pose proof (lookup_lt_Some _ _ _ Hx) as Hkl. rewrite length_range in Hkl. rewrite lookup_range in Hx by done.
    destruct (codes !! k) as [y|] eqn:Hy; [|done]. cbn in Hk. injection Hx as Hx. injection Hk as Hki ->.
    assert (k = i) as -> by lia. rewrite Hc in Hy. injection Hy as <-.
    by replace (N.of_nat i * w + j - N.of_nat i * w) with j in Ht by lia.
  - intros Ht. exists (N.of_nat i, c). split; [apply list_elem_of_In; by eapply list_elem_of_lookup_2|].
    unfold slot_bit. cbn [fst snd]. rewrite !andb_true_iff, N.leb_le, N.ltb_lt.
    split; [lia|]. by replace (N.of_nat i * w + j - N.of_nat i * w) with j by lia.
Qed.

Lemma pack_unpack bits codes :
  (∀ c, c ∈ codes → c < level_count bits) → N.of_nat (length codes) * 8 + 7 ≤ u64_max →
  ∃ bytes, pack_codes bits codes = Ok bytes
  ∧ N.of_nat (length bytes) = (N.of_nat (length codes) * bit_width bits + 7) / 8
  ∧ unpack_codes bits (N.of_nat (length codes)) bytes = Ok codes.
Proof.
  intros Hcodes Hu. set (n := N.of_nat (length codes)) in *. set (w := bit_width bits).
  assert (0 < w ≤ 8) as Hw by (unfold w; destruct bits; cbn; lia).
  assert (∀ i, i < n → i * w + w ≤ 8 * ((n * w + 7) / 8) ∧ i * w + w ≤ u64_max) as Hfit.
  { intros i Hi. pose proof (N.div_mod (n * w + 7) 8 ltac:(done)).
    pose proof (N.mod_upper_bound (n * w + 7) 8 ltac:(done)). split; nia. }
  unfold pack_codes, unpack_codes. fold n. rewrite bits_payload_bytes_Ok by done. fold w. cbn -[N.div range replicate].
  set (len := (n * w + 7) / 8) in *.
  destruct (pack_codes_loop bits (replicate (N.to_nat len) 0) (zip (range n) codes)) as (bytes & Hp & Hl & Hg).
  { intros i c Hin. rewrite length_replicate, N2Nat.id. apply elem_of_zip_l in Hin as Hi.
    apply elem_of_zip_r in Hin. apply elem_of_range in Hi. fold w. by split; [apply Hcodes|apply Hfit]. }
  exists bytes. rewrite Hp. rewrite length_replicate in Hl. split; [done|]. split; [lia|].
  destruct (N.eqb_spec (N.of_nat (length bytes)) len) as [_|]; [|lia]. cbn [negb].
  assert (∀ m, get_bit (replicate (N.to_nat len) 0) m = false) as H0.
  { intros m. unfold get_bit. destruct (replicate (N.to_nat len) 0 !! _) as [b|] eqn:Hb; [|apply N.bits_0].
    apply lookup_replicate in Hb as [-> _]. apply N.bits_0. }
  rewrite (mapM_Ok _ (λ i, default 0 (codes !! N.to_nat i))).
  - f_equal. apply list_eq. intros i. rewrite list_lookup_fmap. destruct (decide (i < length codes)%nat) as [Hi|Hi].
    + rewrite lookup_range by (unfold n; lia). cbn. rewrite Nat2N.id.
      apply lookup_lt_is_Some in Hi as [c Hc]. by rewrite Hc.
    + rewrite (lookup_ge_None_2 codes) by lia. rewrite lookup_ge_None_2; [done|]. rewrite length_range. unfold n. lia.
  - intros i Hi%elem_of_range. destruct (Hfit i Hi) as [Hb1 Hb2].
    destruct (unpack_code_spec bits bytes i) as (r & -> & Hr); [fold w; lia|done|]. f_equal.
    assert (N.to_nat i < length codes)%nat as Hlt by (unfold n in Hi; lia).
    apply lookup_lt_is_Some in Hlt as [c Hc]. rewrite Hc. cbn.
    apply N.bits_inj. intros j. rewrite Hr, Hg, H0. fold w. cbn [orb]. destruct (N.ltb_spec j w) as [Hj|Hj]; cbn.
    + replace (i * w + j) with (N.of_nat (N.to_nat i) * w + j) by lia.
      apply slots_bit; [lia|done|done].
    + symmetry. assert (c < 2 ^ w) as Hcw.
      { unfold w. rewrite <- level_count_pow. apply Hcodes. by eapply list_elem_of_lookup_2. }
      destruct (decide (c = 0)) as [->|]; [apply N.bits_0|]. apply N.bits_above_log2.
      apply N.log2_lt_pow2 in Hcw; lia.
Qed.

(** A result that is not a panic and whose only error is [InvalidShape]. *)
Definition shape_error_only {A} (r : outcome KvCacheError A) : Prop :=
  match r with Ok _ => True | Err e => e = InvalidShape | Panic => False end.

Lemma shape_error_bind {A B} (r : outcome KvCacheError A) (f : A → outcome KvCacheError B) :
  shape_error_only r → (∀ x, shape_error_only (f x)) → shape_error_only (r ≫= f).
Proof. destruct r; cbn; auto. Qed.

Lemma shape_error_ok_or {A} (o : option A) : shape_error_only (ok_or InvalidShape o).
Proof. by destruct o. Qed.

Lemma shape_error_fold {A B} (f : B → A → outcome KvCacheError B) b l :
  (∀ b x, shape_error_only (f b x)) → shape_error_only (try_fold f b l).
Proof.
  intros Hf. revert b. induction l as [|x l IH]; intros b; cbn [try_fold]; [done|].
  apply shape_error_bind; [done|]. intros b'. apply IH.
Qed.

Lemma pack_codes_errors bits codes : shape_error_only (pack_codes bits codes).
Proof.
  apply shape_error_bind; [apply shape_error_ok_or|]. intros len. apply shape_error_fold.
  intros bytes [i c]. unfold pack_code. destruct (_ <? c); [done|].
  apply shape_error_bind; [apply shape_error_ok_or|]. intros base. apply shape_error_fold.
  intros b cb. unfold pack_bit. destruct (_ =? 1); [|done].
  apply shape_error_bind; [apply shape_error_ok_or|]. intros k.
  apply shape_error_bind; [apply shape_error_ok_or|]. done.
Qed.

Lemma pack_loop_in_range bits bytes l bytes' :
  try_fold (pack_code bits) bytes l = Ok bytes' → ∀ i c, (i, c) ∈ l → c < level_count bits.
Proof.
  assert (0 < level_count bits) as Hpos by by destruct bits.
  revert bytes. induction l as [|[i c] l IH]; intros bytes Hf j d Hin; [by apply elem_of_nil in Hin|].
  cbn [try_fold] in Hf. destruct (pack_code bits bytes (i, c)) as [b1| |] eqn:Hc; try discriminate Hf.
  apply elem_of_cons in Hin as [[= -> ->]|Hin]; [|by eapply IH].
  unfold pack_code in Hc. destruct (N.ltb_spec (level_count bits - 1) c); [discriminate Hc|lia].
Qed.

(** C3: packing quantization codes into bytes and unpacking them gives the codes
    back, for every bit width, in exactly the bytes the width needs; a code
    that does not fit the width is refused. *)
Theorem pack_unpack_roundtrip bits codes :
  N.of_nat (length codes) * 8 + 7 ≤ u64_max →
  match pack_codes bits codes with
  | Ok bytes =>
      (∀ c, c ∈ codes → c < level_count bits)
      ∧ N.of_nat (length bytes) = (N.of_nat (length codes) * bit_width bits + 7) / 8
      ∧ unpack_codes bits (N.of_nat (length codes)) bytes = Ok codes
  | Err e => e = InvalidShape ∧ ∃ c, c ∈ codes ∧ level_count bits ≤ c
  | Panic => False
  end.
Proof.
  intros Hu. pose proof (pack_codes_errors bits codes) as He.
  destruct (decide (Forall (λ c, c < level_count bits) codes)) as [Hall|Hno].
  { rewrite Forall_forall in Hall. destruct (pack_unpack bits codes Hall Hu) as (bytes & -> & Hl & Hun). done. }
  assert (∃ c, c ∈ codes ∧ level_count bits ≤ c) as (c & Hc & Hle).
  { apply not_Forall_Exists in Hno; [|apply _]. apply Exists_exists in Hno as (c & Hc & Hn).
    exists c. split; [done|]. cbn in Hn. lia. }
  destruct (pack_codes bits codes) as [bytes|e|] eqn:Hp; [exfalso|split; [done|by exists c]|done].
  unfold pack_codes in Hp. rewrite bits_payload_bytes_Ok in Hp by done. cbn -[N.div range replicate] in Hp.
  apply list_elem_of_lookup in Hc as [k Hk]. pose proof (lookup_lt_Some _ _ _ Hk) as Hkl.
  pose proof (pack_loop_in_range _ _ _ _ Hp (N.of_nat k) c) as Hlt.
  assert (c < level_count bits); [|lia]. apply Hlt. apply list_elem_of_lookup. exists k.
  rewrite lookup_zip_with, lookup_range by lia. cbn. by rewrite Hk.
Qed.

Lemma pack_unpack_roundtrip_witness :
  pack_codes Three [5; 0; 7; 2; 6] = Ok [0xC5; 0x65] ∧ unpack_codes Three 5 [0xC5; 0x65] = Ok [5; 0; 7; 2; 6].
Proof.
  pose proof (pack_unpack_roundtrip Three [5; 0; 7; 2; 6]) as H.
  assert (pack_codes Three [5; 0; 7; 2; 6] = Ok [0xC5; 0x65]) as Hp by (vm_compute; reflexivity).
  rewrite Hp in H. split; [exact Hp|]. apply H. vm_compute. discriminate.
Defined.

(** ** Quantized blocks *)
Lemma mjoin_cons {A} (x : list A) l : mjoin (x :: l) = x ++ mjoin l.
Proof. done. Qed.

Lemma mjoin_length {A} (n : N) (l : list (list A)) :
  (∀ c, c ∈ l → N.of_nat (length c) = n) → N.of_nat (length (mjoin l)) = N.of_nat (length l) * n.
Proof.
  induction l as [|x l IH]; intros Hl; [done|]. rewrite mjoin_cons, length_app.
  pose proof (Hl x ltac:(by left)). specialize (IH (λ y Hy, Hl y (list_elem_of_further y x l Hy))). cbn [length]. lia.
Qed.

Lemma chunks_loop_spec {A} fuel n (l : list A) k :
  (0 < n)%nat → length l = (k * n)%nat → (length l ≤ fuel)%nat →
  mjoin (chunks_loop fuel n l) = l ∧ length (chunks_loop fuel n l) = k
  ∧ ∀ c, c ∈ chunks_loop fuel n l → length c = n ∧ ∀ x, x ∈ c → x ∈ l.
Proof.
  intros Hn. revert l k. induction fuel as [|fuel IH]; intros l k Hl Hf; cbn [chunks_loop].
  { destruct l; cbn in *; [|lia]. split_and!; [done|destruct k; [done|lia]|by intros c ?%elem_of_nil]. }
  destruct (Nat.ltb_spec (length l) n) as [Hlt|Hge].
  - assert (k = O) as -> by (destruct k; [done|lia]). destruct l; [|cbn in *; lia].
    split_and!; [done|done|by intros c ?%elem_of_nil].
  - destruct k as [|k]; [lia|]. destruct (IH (drop n l) k) as (Hj & Hk & Hc).
    { rewrite length_drop. lia. } { rewrite length_drop. lia. }
    rewrite mjoin_cons. cbn [length]. rewrite Hk. split_and!; [by rewrite Hj, take_drop|done|].
    intros c [->|Hin]%elem_of_cons.
    + rewrite length_take_le by lia. split; [done|]. intros x Hx. rewrite <- (take_drop n l). set_solver.
    + destruct (Hc c Hin) as [Hlen Hx]. split; [done|]. intros x Hxc. rewrite <- (take_drop n l). set_solver.
Qed.

Lemma chunks_exact_spec {A} n (l : list A) :
  0 < n → is_multiple_of (N.of_nat (length l)) n = true →
  mjoin (chunks_exact n l) = l ∧ N.of_nat (length (chunks_exact n l)) * n = N.of_nat (length l)
  ∧ ∀ c, c ∈ chunks_exact n l → N.of_nat (length c) = n ∧ ∀ x, x ∈ c → x ∈ l.
Proof.
  intros Hn Hm. unfold is_multiple_of in Hm. destruct (N.eqb_spec n 0); [lia|]. apply N.eqb_eq in Hm.
  pose proof (N.div_mod (N.of_nat (length l)) n ltac:(lia)) as Hd.
  destruct (chunks_loop_spec (length l) (N.to_nat n) l (N.to_nat (N.of_nat (length l) / n))) as (Hj & Hk & Hc);
    [lia|lia|lia|].
  unfold chunks_exact. split; [done|]. split; [rewrite Hk; lia|]. intros c Hin.
  destruct (Hc c Hin) as [Hlen Hx]. split; [lia|done].
Qed.

(** A row of a buffer of equal rows. *)
Lemma slice_mjoin {A} (rows : list (list A)) n i row :
  (∀ r, r ∈ rows → N.of_nat (length r) = n) → rows !! i = Some row →
  slice (mjoin rows) (N.of_nat i * n) (N.of_nat i * n + n) = Some row.
Proof.
  revert i. induction rows as [|r rows IH]; intros i Hr Hi; [done|].
  assert (N.of_nat (length r) = n) as Hlr by (apply Hr; by left).
  assert (N.of_nat (length (mjoin (r :: rows))) = N.of_nat (length (r :: rows)) * n) as Hlen.
  { by apply mjoin_length. }
  pose proof (lookup_lt_Some _ _ _ Hi) as Hil. unfold slice.
  rewrite (proj2 (N.leb_le _ _)), (proj2 (N.leb_le _ _)) by nia. cbn [andb]. f_equal.
  replace (N.to_nat (N.of_nat i * n + n - N.of_nat i * n)) with (length r) by lia.
  rewrite mjoin_cons. destruct i as [|i].
  - injection Hi as <-. cbn. apply take_app_length.
  - cbn in Hi. specialize (IH i (λ y Hy, Hr y (list_elem_of_further y r rows Hy)) Hi). unfold slice in IH.
    destruct (_ && _) eqn:Hb in IH; [|discriminate IH]. injection IH as IH.
    replace (N.to_nat (N.of_nat (S i) * n)) with (length r + N.to_nat (N.of_nat i * n))%nat by lia.
    rewrite <- drop_drop, drop_app_length. rewrite <- IH. f_equal. lia.
Qed.

Section decode.
Context `{F32ArithLaws}.

(** The extremes a row is quantized between. *)
Definition row_extremes (row : list F32) : F32 * F32 :=
  foldl (λ y v, (f32_min y.1 v, f32_max y.2 v)) (f32_infinity, f32_neg_infinity) row.
Definition row_parameters (bits : KvCacheValueQuantizationBits) (row : list F32) : QuantizedValueRow :=
  MkRow (row_extremes row).1 (row_scale bits (row_extremes row).1 (row_extremes row).2).

(** A row quantized and read back, value by value. *)
Definition requantized_row (bits : KvCacheValueQuantizationBits) (row : list F32) : list F32 :=
  map (dequantize_code (row_parameters bits row)) (value_code bits (row_parameters bits row) <$> row).

Lemma min_max_finite row y :
  Forall (λ v, is_finite v = true) row →
  try_fold min_max_step y row = Ok (foldl (λ y v, (f32_min y.1 v, f32_max y.2 v)) y row).
Proof.
  revert y. induction row as [|v row IH]; intros y Hf; [done|]. apply Forall_cons in Hf as [Hv Hf].
  cbn [try_fold foldl]. unfold min_max_step at 2. rewrite Hv. cbn. by apply IH.
Qed.

Lemma value_code_in_range bits r v : value_code bits r v < level_count bits.
Proof.
  unfold value_code. assert (0 < level_count bits) by by destruct bits.
  destruct (f32_eq _ _); [done|].
  pose proof (clamp_cast 0 (Z.of_N (level_count bits - 1))
    (f32_round (f32_div (f32_sub v (zero_point r)) (scale r))) ltac:(lia)). lia.
Qed.

Lemma quantize_row_spec bits row :
  Forall (λ v, is_finite v = true) row → N.of_nat (length row) * 8 + 7 ≤ u64_max →
  ∃ packed, quantize_value_row bits row = Ok (row_parameters bits row, packed)
  ∧ N.of_nat (length packed) = (N.of_nat (length row) * bit_width bits + 7) / 8
  ∧ unpack_codes bits (N.of_nat (length row)) packed = Ok (value_code bits (row_parameters bits row) <$> row).
Proof.
  intros Hf Hu. unfold quantize_value_row. rewrite min_max_finite by done. fold (row_extremes row).
  destruct (pack_unpack bits (value_code bits (row_parameters bits row) <$> row)) as (packed & Hp & Hl & Hun).
  { intros c (v & -> & _)%list_elem_of_fmap. apply value_code_in_range. }
  { by rewrite length_fmap. }
  rewrite length_fmap in *. exists packed. split; [|done].
  unfold row_parameters in *. destruct (row_extremes row) as [mn mx]. cbn -[pack_codes] in *. by rewrite Hp.
Qed.

(** [mapM] over rows that all quantize. *)
Lemma quantize_rows_spec bits rows vlen :
  (∀ row, row ∈ rows → N.of_nat (length row) = vlen ∧ Forall (λ v, is_finite v = true) row) →
  vlen * 8 + 7 ≤ u64_max →
  ∃ out, mapM (quantize_value_row bits) rows = Ok out
  ∧ out.*1 = row_parameters bits <$> rows
  ∧ (∀ p, p ∈ out.*2 → N.of_nat (length p) = (vlen * bit_width bits + 7) / 8)
  ∧ ∀ i row, rows !! i = Some row → ∃ p, out.*2 !! i = Some p
      ∧ unpack_codes bits vlen p = Ok (value_code bits (row_parameters bits row) <$> row).
Proof.
  intros Hrows Hu. induction rows as [|row rows IH].
  { exists []. split_and!; [done|done|by intros p ?%elem_of_nil|done]. }
  destruct IH as (out & Hm & H1 & H2 & H3); [intros r Hr; apply Hrows; by right|].
  destruct (Hrows row ltac:(by left)) as [Hl Hf].
  destruct (quantize_row_spec bits row Hf) as (packed & Hq & Hlp & Hun); [by rewrite Hl|].
  exists ((row_parameters bits row, packed) :: out). cbn [mapM]. rewrite Hq. cbn. rewrite Hm. cbn.
  rewrite Hl in Hlp, Hun. split_and!; [done|by rewrite H1|by intros p [->|?]%elem_of_cons; auto|].
  intros [|i] r Hi; [injection Hi as <-; by exists packed|]. by apply H3.
Qed.

(** A block of finite values in whole rows always quantizes, and reading it
    back never fails: it yields every row's values re-quantized one by one, the
    packing and the row bookkeeping being invisible. *)
Theorem quantized_block_decodes bits values vlen :
  values ≠ [] → 0 < vlen → is_multiple_of (N.of_nat (length values)) vlen = true →
  Forall (λ v, is_finite v = true) values → N.of_nat (length values) * 8 + 7 ≤ u64_max →
  ∃ b, q_quantize bits values vlen = Ok b
  ∧ q_dequantize b = Ok (mjoin (requantized_row bits <$> chunks_exact vlen values)).
Proof.
  intros Hne Hv Hm Hf Hu. destruct (chunks_exact_spec vlen values Hv Hm) as (Hj & Hlen & Hc).
  set (rows := chunks_exact vlen values) in *. rewrite Forall_forall in Hf.
  assert (1 ≤ N.of_nat (length rows)) as Hpos.
  { destruct rows; [|cbn [length]; lia]. destruct values; [done|]. cbn in Hj. done. }
  assert (vlen ≤ N.of_nat (length values)) as Hvl by nia.
  destruct (quantize_rows_spec bits rows vlen) as (out & Hout & H1 & H2 & H3); [|lia|].
  { intros row Hrow. destruct (Hc row Hrow) as [Hl Hx]. split; [done|]. apply Forall_forall. auto. }
  set (rb := (vlen * bit_width bits + 7) / 8) in *.
  assert (length out = length rows) as Hlo by (rewrite <- (length_fmap (row_parameters bits) rows), <- H1; by rewrite length_fmap).
  assert (N.of_nat (length (mjoin out.*2)) = N.of_nat (length rows) * rb) as Hpl.
  { rewrite (mjoin_length rb) by done. by rewrite length_fmap, Hlo. }
  assert (rb ≤ vlen + 1) as Hrb.
  { assert (vlen * bit_width bits ≤ vlen * 8) by (destruct bits; cbn; lia).
    assert (rb < vlen + 2); [|lia]. apply N.Div0.div_lt_upper_bound. lia. }
  unfold q_quantize, bad_rows. rewrite bool_decide_false, Hm by done. destruct (N.eqb_spec vlen 0); [lia|]. cbn [orb negb].
  rewrite bits_payload_bytes_Ok by done. cbn -[N.div chunks_exact]. fold rows. rewrite Hout. cbn -[N.div].
  eexists. split; [done|]. unfold q_dequantize. cbn -[N.div bits_payload_bytes range checked_mul].
  destruct (N.eqb_spec vlen 0); [lia|]. rewrite Hm. cbn [orb negb].
  rewrite bits_payload_bytes_Ok by lia. fold rb. cbn -[N.div range checked_mul].
  rewrite H1, length_fmap. unfold checked_mul. rewrite (proj2 (N.leb_le _ _)) by nia. cbn -[N.div range].
  rewrite Hpl, (N.mul_comm rb), N.eqb_refl. cbn [negb].
  rewrite (mapM_Ok _ (λ x, requantized_row bits (default [] (rows !! N.to_nat x.1)))).
  - cbn. do 2 f_equal. apply list_eq. intros i. rewrite !list_lookup_fmap, lookup_zip_with.
    destruct (decide (i < length rows)%nat) as [Hi|Hi].
    + rewrite lookup_range by lia. apply lookup_lt_is_Some in Hi as [row Hrow]. cbn.
      rewrite list_lookup_fmap, Hrow. cbn. by rewrite Nat2N.id, Hrow.
    + rewrite (lookup_ge_None_2 rows) by lia. by rewrite (lookup_ge_None_2 (range _)) by (rewrite length_range; lia).
  - intros [i r] Hin. apply list_elem_of_lookup in Hin as [k Hk]. rewrite lookup_zip_with in Hk.
    destruct (range _ !! k) as [x|] eqn:Hx; [|done]. pose proof (lookup_lt_Some _ _ _ Hx) as Hkl.
    rewrite length_range in Hkl. rewrite lookup_range in Hx by done. injection Hx as <-. cbn in Hk.
    rewrite list_lookup_fmap in Hk. destruct (rows !! k) as [row|] eqn:Hrow; [|done]. cbn in Hk. injection Hk as <- <-.
    destruct (H3 k row Hrow) as (p & Hp & Hun). unfold dequantize_row. cbn [fst snd].
    assert (N.of_nat k * rb + rb ≤ u64_max) by nia.
    unfold checked_mul, checked_add. rewrite (proj2 (N.leb_le (N.of_nat k * rb) _)) by lia. cbn -[N.div].
    rewrite (proj2 (N.leb_le (N.of_nat k * rb + rb) _)) by lia. cbn -[N.div].
    rewrite (slice_mjoin _ rb k p H2 Hp). cbn -[N.div]. rewrite Hun. cbn. by rewrite Nat2N.id, Hrow.
Qed.
End decode.

(** Integers in place of floats. *)
Definition toy_arith : F32Arith := {|
  f32_min := N.min; f32_max x y := if x =? f32_neg_infinity then y else N.max x y; f32_add := N.add; f32_sub x y := x - y; f32_mul := N.mul;
  f32_div := N.div; f32_round x := x; f32_clamp lo hi x := Z.to_N (Z.max lo (Z.min hi (Z.of_N x)));
  f32_from := Z.to_N; f32_as_int := Z.of_N |}.
Lemma toy_laws : @F32ArithLaws toy_arith.
Proof. split. cbn. intros. lia. Qed.

Lemma quantized_block_decodes_witness :
  ∃ b, @q_quantize toy_arith Three [1; 8; 3; 5] 2 = Ok b
  ∧ @q_dequantize toy_arith b = Ok [1; 8; 3; 3].
Proof.
  destruct (@quantized_block_decodes toy_arith toy_laws Three [1; 8; 3; 5] 2) as (b & Hq & Hd);
    [discriminate|reflexivity|reflexivity|repeat constructor|vm_compute; discriminate|].
  exists b. split; [exact Hq|]. rewrite Hd. vm_compute. reflexivity.
Defined.
