(* ===== verification/LayerKv.v ===== *)
(** * The per-layer KV cache

    Models [crates/llm-kv-cache/src/layer.rs]: a ring of token rows held in
    copy-on-write blocks, the contiguous staging copy with its lazily rebuilt
    view of a wrapped window, the runs of active rows, the compressed mirrors,
    and the retained prefix states a cache is saved to and restored from.

    [key_stage] and [value_stage] are only written through [Arc::make_mut] or
    after [Arc::get_mut], and their sharing is never observed, so they are
    plain values; block storage is shared and counted, in the heap of
    [CacheBlock.v]. *)
From stdpp Require Import base gmap sets numbers list.
From S2P Require Import Prelude KvTables CacheBlock KvFormat.
Open Scope N_scope.
Open Scope record_scope.

Definition LAYER_KV_BLOCK_TOKENS : N := 256.

(** ** Data *)
Record LayerKvCacheBlockRun := MkRun {
  run_block_index : N;
  run_block_id : BlockIdT;
  logical_token_start : N;
  physical_token_start : N;
  block_token_start : N;
  run_token_count : N;
}.
#[export] Instance eta_run : Eta LayerKvCacheBlockRun := {| eta r :=
  MkRun (run_block_index r) (run_block_id r) (logical_token_start r) (physical_token_start r)
    (block_token_start r) (run_token_count r) |}.

Definition can_extend (block_index : N) (block_id : BlockIdT)
    (logical_token_index physical_token_index block_start : N) (r : LayerKvCacheBlockRun) : bool :=
  (run_block_index r =? block_index) && (run_block_id r =? block_id)
  && bool_decide (checked_add (logical_token_start r) (run_token_count r) = Some logical_token_index)
  && bool_decide (checked_add (physical_token_start r) (run_token_count r) = Some physical_token_index)
  && bool_decide (checked_add (block_token_start r) (run_token_count r) = Some block_start).

Record LayerKvCache := MkLayer {
  cache_id : N;
  revision : N;
  config : KvCacheConfig;
  max_tokens : N;
  key_value_heads : N;
  head_dim : N;
  token_count : N;
  tokens_seen : N;
  window_start : N;
  block_table : BlockTable.t;
  blocks : list CacheBlock.t;
  active_block_runs : list LayerKvCacheBlockRun;
  key_stage : list F32;
  value_stage : list F32;
  key_contiguous_view : option (list F32);
  value_contiguous_view : option (list F32);
  int8_storage : option LayerInt8KvStore;
  quantized_values : option LayerQuantizedValueStore;
}.
#[export] Instance eta_layer : Eta LayerKvCache := {| eta c :=
  MkLayer (cache_id c) (revision c) (config c) (max_tokens c) (key_value_heads c) (head_dim c)
    (token_count c) (tokens_seen c) (window_start c) (block_table c) (blocks c) (active_block_runs c)
    (key_stage c) (value_stage c) (key_contiguous_view c) (value_contiguous_view c)
    (int8_storage c) (quantized_values c) |}.

Record LayerKvCacheSnapshot := MkSnapshot {
  snap_revision : N;
  snap_config : KvCacheConfig;
  snap_max_tokens : N;
  snap_key_value_heads : N;
  snap_head_dim : N;
  snap_token_count : N;
  snap_tokens_seen : N;
  snap_keys : list F32;
  snap_values : list F32;
}.

Record LayerKvCachePrefixBlock := MkPrefixBlock { pb_block_index : N; pb_retained : CacheBlock.retained }.
Record LayerKvCachePrefixState := MkPrefixState {
  ps_revision : N;
  ps_config : KvCacheConfig;
  ps_max_tokens : N;
  ps_key_value_heads : N;
  ps_head_dim : N;
  ps_token_count : N;
  ps_tokens_seen : N;
  ps_window_start : N;
  ps_blocks : list LayerKvCachePrefixBlock;
}.

Record LayerKvCacheAppendTarget := MkTarget {
  target_token_index : N; target_physical_token_index : N; previous_token_count : N }.
Record LayerKvCacheAppend := MkAppend {
  append_token_index : N; append_physical_token_index : N;
  append_token_count : N; append_tokens_seen : N; append_revision : N }.

(** A row view handed to the attention kernels. *)
Record LayerKvCacheBlock := MkBlockView {
  view_block_id : BlockIdT; view_revision : N;
  view_logical_token_start : N; view_physical_token_start : N;
  view_block_token_start : N; view_token_count : N; view_vector_len : N;
  view_key_storage : list F32; view_value_storage : list F32 }.

(** [keys] and [values] of a view; [None] is the panic of the slice. *)
Definition row_slice (v : LayerKvCacheBlock) (storage : list F32) : option (list F32) :=
  let start := wrap_mul (view_block_token_start v) (view_vector_len v) in
  slice storage start (wrap_add start (wrap_mul (view_token_count v) (view_vector_len v))).

(** The process-wide state: blocks and the cache identifier counter. *)
Record LWorld := MkLWorld { cache_id_counter : N; block_world : World }.

(** [next_cache_id]: the atomic counter wraps. *)
Definition next_cache_id (w : LWorld) : N * LWorld :=
  (cache_id_counter w, MkLWorld (wrap_add (cache_id_counter w) 1) (block_world w)).

(** ** Arithmetic *)
Definition vector_len (c : LayerKvCache) : N := wrap_mul (key_value_heads c) (head_dim c).
Definition used_len (c : LayerKvCache) : N := wrap_mul (token_count c) (vector_len c).
Definition remaining_tokens (c : LayerKvCache) : N := wrap_sub (max_tokens c) (token_count c).
Definition div_ceil (a b : N) : N := if a mod b =? 0 then a / b else a / b + 1.

Definition physical_block_position (token_index : N) (c : LayerKvCache) : option (N * N) :=
  if max_tokens c <=? token_index then None
  else Some (token_index / LAYER_KV_BLOCK_TOKENS, token_index mod LAYER_KV_BLOCK_TOKENS).

Definition block_position (token_index : N) (c : LayerKvCache) : option (N * N) :=
  if token_count c <=? token_index then None
  else physical_block_position (wrap_add (window_start c) token_index mod max_tokens c) c.

Definition nth_block (i : N) (c : LayerKvCache) : option CacheBlock.t := blocks c !! N.to_nat i.
Definition table_get (i : N) (c : LayerKvCache) : option BlockIdT :=
  BlockTable.get (N.to_nat i) (block_table c).
Definition set_block (i : N) (b : CacheBlock.t) (c : LayerKvCache) : LayerKvCache :=
  c <| blocks ::= <[N.to_nat i := b]> |>.

Section layer.
Context `{F32Arith}.

(** ** Construction *)

(** The loop that allocates the blocks, [fuel] bounding its rounds. *)
Fixpoint new_blocks (fuel : nat) (remaining vlen : N) (table : BlockTable.t) (bs : list CacheBlock.t) (w : World)
    : outcome KvCacheError (BlockTable.t * list CacheBlock.t) * World :=
  match fuel with
  | O => (Ok (table, bs), w)
  | S fuel =>
      if remaining =? 0 then (Ok (table, bs), w)
      else
        let capacity_tokens := N.min remaining LAYER_KV_BLOCK_TOKENS in
        match CacheBlock.new capacity_tokens vlen w with
        | (Ok b, w) =>
            match BlockTable.append (CacheBlock.id b) table with
            | Ok table => new_blocks fuel (remaining - capacity_tokens) vlen table (bs ++ [b]) w
            | Err e => (Err e, w)
            | Panic => (Panic, w)
            end
        | (Err e, w) => (Err e, w)
        | (Panic, w) => (Panic, w)
        end
  end.

Definition new_with_config (max heads dim : N) (cfg : KvCacheConfig) (w : LWorld)
    : outcome KvCacheError LayerKvCache * LWorld :=
  if (max =? 0) || (heads =? 0) || (dim =? 0) then (Err InvalidShape, w)
  else if bool_decide (format cfg = FormatF16) then (Err (UnsupportedFormat (format cfg)), w)
  else
    match checked_mul heads dim with
    | None => (Err InvalidShape, w)
    | Some vlen =>
        match checked_mul max vlen with
        | None => (Err InvalidShape, w)
        | Some stage_len =>
            let block_count := div_ceil max LAYER_KV_BLOCK_TOKENS in
            match new_blocks (N.to_nat block_count) max vlen BlockTable.new [] (block_world w) with
            | (Ok (table, bs), bw) =>
                let w := MkLWorld (cache_id_counter w) bw in
                let stores :=
                  int8 ← (if bool_decide (format cfg = FormatInt8)
                          then Some <$> int8_store_new block_count vlen else Ok None);
                  quantized ← match asymmetric_vq_config cfg with
                              | Some phase3 => Some <$> q_store_new block_count vlen phase3
                              | None => Ok None
                              end;
                  Ok (int8, quantized) in
                match stores with
                | Ok (int8, quantized) =>
                    let '(id, w) := next_cache_id w in
                    let zeros := replicate (N.to_nat stage_len) 0 in
                    (Ok (MkLayer id 0 cfg max heads dim 0 0 0 table bs [] zeros zeros None None int8 quantized), w)
                | Err e => (Err e, w)
                | Panic => (Panic, w)
                end
            | (Err e, bw) => (Err e, MkLWorld (cache_id_counter w) bw)
            | (Panic, bw) => (Panic, MkLWorld (cache_id_counter w) bw)
            end
        end
    end.

Definition new (max heads dim : N) (w : LWorld) : outcome KvCacheError LayerKvCache * LWorld :=
  new_with_config max heads dim config_f32 w.

(** [impl Clone]. *)
Fixpoint clone_blocks (bs : list CacheBlock.t) (w : World) : list CacheBlock.t * World :=
  match bs with
  | [] => ([], w)
  | b :: bs =>
      let '(b, w) := CacheBlock.clone b w in
      let '(bs, w) := clone_blocks bs w in (b :: bs, w)
  end.
Definition clone (c : LayerKvCache) (w : LWorld) : LayerKvCache * LWorld :=
  let '(id, w) := next_cache_id w in
  let '(bs, bw) := clone_blocks (blocks c) (block_world w) in
  (c <| cache_id := id |> <| blocks := bs |> <| key_contiguous_view := None |>
     <| value_contiguous_view := None |>, MkLWorld (cache_id_counter w) bw).

(** ** Methods on [&mut self] *)
Abbreviation M A := (stm (LayerKvCache * LWorld) KvCacheError A) (only parsing).

Definition self : M LayerKvCache := gets fst.
Definition update (f : LayerKvCache → LayerKvCache) : M unit := modify (prod_map f id).
Definition require {A} (o : option A) : M A := lift_outcome (ok_or InvalidShape o).
Definition check (b : bool) : M unit := lift_outcome (if b then Ok tt else Err InvalidShape).
(** A call on the blocks' world. *)
Definition on_world {A} (f : World → outcome KvCacheError A * World) : M A := λ s,
  let '(r, bw) := f (block_world s.2) in (r, (s.1, MkLWorld (cache_id_counter s.2) bw)).

Definition validate_token_shape (key value : list F32) (c : LayerKvCache) : outcome KvCacheError unit :=
  if negb (N.of_nat (length key) =? vector_len c)
  then Err (ShapeMismatch (vector_len c) (N.of_nat (length key)))
  else if negb (N.of_nat (length value) =? vector_len c)
  then Err (ShapeMismatch (vector_len c) (N.of_nat (length value)))
  else Ok tt.

Definition validate_compressed_token_payload (key value : list F32) (c : LayerKvCache)
    : outcome KvCacheError unit :=
  match quantized_values c, int8_storage c with
  | None, None => Ok tt
  | _, _ => if forallb is_finite (key ++ value) then Ok tt else Err NonFiniteValue
  end.

Definition validate_sliding_append (key value : list F32) (c : LayerKvCache) : outcome KvCacheError unit :=
  _ ← validate_token_shape key value c; validate_compressed_token_payload key value c.

Definition sliding_append_target (c : LayerKvCache) : outcome KvCacheError LayerKvCacheAppendTarget :=
  let '(token_index, physical) :=
    if token_count c <? max_tokens c then (token_count c, token_count c)
    else (wrap_sub (max_tokens c) 1, window_start c) in
  if max_tokens c <=? physical then Err InvalidShape
  else Ok (MkTarget token_index physical (token_count c)).

(** *** Runs *)
Definition refresh_active_block_run_ids (block_index : N) (block_id : BlockIdT) (c : LayerKvCache) : LayerKvCache :=
  c <| active_block_runs ::= fmap (λ r, if run_block_index r =? block_index then r <| run_block_id := block_id |> else r) |>.

Definition append_active_block_run (logical_token_index physical_token_index : N) : M unit :=
  c ← self;
  '(block_index, block_start) ← require (physical_block_position physical_token_index c);
  block_id ← require (table_get block_index c);
  block ← require (nth_block block_index c);
  _ ← check (CacheBlock.id block =? block_id);
  update (λ c, c <| active_block_runs ::= λ runs,
    match last runs with
    | Some previous =>
        if can_extend block_index block_id logical_token_index physical_token_index block_start previous
        then <[(length runs - 1)%nat := previous <| run_token_count ::= λ n, wrap_add n 1 |>]> runs
        else runs ++ [MkRun block_index block_id logical_token_index physical_token_index block_start 1]
    | None => [MkRun block_index block_id logical_token_index physical_token_index block_start 1]
    end |>).

Definition remove_oldest_active_block_token : M unit :=
  c ← self;
  match active_block_runs c with
  | [] => lift_outcome (Err InvalidShape)
  | first :: rest =>
      runs ← (if run_token_count first =? 1 then mret rest
              else
                p ← require (checked_add (physical_token_start first) 1);
                b ← require (checked_add (block_token_start first) 1);
                mret ((first <| physical_token_start := p |> <| block_token_start := b |>
                         <| run_token_count ::= λ n, wrap_sub n 1 |>) :: rest));
      update (λ c, c <| active_block_runs :=
        (λ r, r <| logical_token_start ::= λ n, sat_sub n 1 |>) <$> runs |>)
  end.

Definition rebuild_active_block_runs_from_tokens : M unit :=
  c ← self;
  _ ← update (λ c, c <| active_block_runs := [] |>);
  for_each (λ i, append_active_block_run i (wrap_add (window_start c) i mod max_tokens c)) (range (token_count c)).

(** *** Mirrors *)
Definition refresh_int8_block (block_index : N) : M unit :=
  s ← get_state;
  match int8_storage s.1 with
  | None => mret tt
  | Some store =>
      block ← require (nth_block block_index s.1);
      if CacheBlock.token_count block =? 0 then mret tt
      else
        ks ← lift_outcome (CacheBlock.keys block (block_world s.2));
        vs ← lift_outcome (CacheBlock.values block (block_world s.2));
        store ← lift_outcome (int8_update_block (N.to_nat block_index) ks vs store);
        update (λ c, c <| int8_storage := Some store |>)
  end.

Definition refresh_quantized_block (block_index : N) : M unit :=
  s ← get_state;
  match quantized_values s.1 with
  | None => mret tt
  | Some store =>
      block ← require (nth_block block_index s.1);
      if CacheBlock.token_count block =? 0 then mret tt
      else
        vs ← lift_outcome (CacheBlock.values block (block_world s.2));
        store ← lift_outcome (q_update_block (N.to_nat block_index) vs store);
        update (λ c, c <| quantized_values := Some store |>)
  end.

Definition rebuild_int8_storage : M unit :=
  c ← self;
  match int8_storage c with
  | None => mret tt
  | Some store =>
      _ ← update (λ c, c <| int8_storage := Some (int8_clear store) |>);
      for_each refresh_int8_block (range (N.of_nat (length (blocks c))))
  end.
Definition rebuild_quantized_values : M unit :=
  c ← self;
  match quantized_values c with
  | None => mret tt
  | Some store =>
      _ ← update (λ c, c <| quantized_values := Some (q_clear store) |>);
      for_each refresh_quantized_block (range (N.of_nat (length (blocks c))))
  end.

(** *** Block writes

    The shared beginning of [append_block_token] and [write_block_token]: the
    block of a physical token, with an identity of its own. *)
Definition exclusive_block (token_index : N) : M (N * N) :=
  c ← self;
  '(block_index, block_token_index) ← require (physical_block_position token_index c);
  block_id ← require (table_get block_index c);
  block ← require (nth_block block_index c);
  _ ← check (CacheBlock.id block =? block_id);
  block ← on_world (CacheBlock.ensure_exclusive_identity block);
  _ ← update (set_block block_index block);
  _ ← (if CacheBlock.id block =? block_id then mret tt
       else
         '(_, table) ← lift_outcome (BlockTable.replace (N.to_nat block_index) (CacheBlock.id block) (block_table c));
         _ ← update (λ c, c <| block_table := table |>);
         update (refresh_active_block_run_ids block_index (CacheBlock.id block)));
  mret (block_index, block_token_index).

Definition append_block_token (token_index : N) (key value : list F32) : M unit :=
  '(block_index, expected) ← exclusive_block token_index;
  c ← self;
  block ← require (nth_block block_index c);
  '(i, block) ← on_world (λ w,
    match CacheBlock.append key value block w with
    | Ok (i, block, w) => (Ok (i, block), w)
    | Err e => (Err e, w)
    | Panic => (Panic, w)
    end);
  _ ← update (set_block block_index block);
  _ ← check (i =? expected);
  _ ← refresh_int8_block block_index;
  refresh_quantized_block block_index.

Definition write_block_token (token_index : N) (key value : list F32) : M unit :=
  '(block_index, block_token_index) ← exclusive_block token_index;
  c ← self;
  block ← require (nth_block block_index c);
  block ← on_world (λ w,
    match CacheBlock.write_at block_token_index key value block w with
    | Ok (block, w) => (Ok block, w)
    | Err e => (Err e, w)
    | Panic => (Panic, w)
    end);
  _ ← update (set_block block_index block);
  _ ← refresh_int8_block block_index;
  refresh_quantized_block block_index.

(** *** Staging copies *)
Definition copy_stage_token (vlen token_index : N) (key value : list F32) (stages : list F32 * list F32)
    : outcome KvCacheError (list F32 * list F32) :=
  if negb (N.of_nat (length key) =? vlen) then Err (ShapeMismatch vlen (N.of_nat (length key)))
  else if negb (N.of_nat (length value) =? vlen) then Err (ShapeMismatch vlen (N.of_nat (length value)))
  else
    start ← ok_or InvalidShape (checked_mul token_index vlen);
    _ ← ok_or InvalidShape (checked_add start vlen);
    ks ← ok_or InvalidShape (write_slice stages.1 start key);
    vs ← ok_or InvalidShape (write_slice stages.2 start value);
    Ok (ks, vs).

Definition invalidate_contiguous_stage_views (c : LayerKvCache) : LayerKvCache :=
  c <| key_contiguous_view := None |> <| value_contiguous_view := None |>.

Definition write_stage_token (token_index : N) (key value : list F32) : M unit :=
  c ← self;
  '(ks, vs) ← lift_outcome (copy_stage_token (vector_len c) token_index key value (key_stage c, value_stage c));
  _ ← update (λ c, c <| key_stage := ks |> <| value_stage := vs |>);
  update invalidate_contiguous_stage_views.

Definition clear_stage_storage (c : LayerKvCache) : LayerKvCache :=
  invalidate_contiguous_stage_views
    (c <| key_stage ::= λ l, replicate (length l) 0 |> <| value_stage ::= λ l, replicate (length l) 0 |>).

Definition rebuild_stage_token (c : LayerKvCache) (w : World) (stages : list F32 * list F32) (i : N)
    : outcome KvCacheError (list F32 * list F32) :=
  let physical := wrap_add (window_start c) i mod max_tokens c in
  block ← ok_or InvalidShape (nth_block (physical / LAYER_KV_BLOCK_TOKENS) c);
  k ← CacheBlock.key (physical mod LAYER_KV_BLOCK_TOKENS) block w;
  k ← ok_or InvalidShape k;
  v ← CacheBlock.value (physical mod LAYER_KV_BLOCK_TOKENS) block w;
  v ← ok_or InvalidShape v;
  copy_stage_token (vector_len c) physical k v stages.

Definition rebuild_stage_from_blocks : M unit :=
  _ ← update clear_stage_storage;
  s ← get_state;
  '(ks, vs) ← lift_outcome (try_fold (rebuild_stage_token s.1 (block_world s.2))
                 (key_stage s.1, value_stage s.1) (range (token_count s.1)));
  _ ← update (λ c, c <| key_stage := ks |> <| value_stage := vs |>);
  _ ← rebuild_int8_storage;
  rebuild_quantized_values.

(** *** Appending *)
Definition appended (token_index physical : N) (c : LayerKvCache) : LayerKvCacheAppend :=
  MkAppend token_index physical (token_count c) (tokens_seen c) (revision c).

Definition append_at_end_validated (key value : list F32) : M LayerKvCacheAppend :=
  c ← self;
  if token_count c =? max_tokens c then lift_outcome (Err (CapacityExceeded 1 0))
  else
    seen ← require (checked_add (tokens_seen c) 1);
    let token_index := token_count c in
    _ ← append_block_token token_index key value;
    _ ← write_stage_token token_index key value;
    _ ← append_active_block_run token_index token_index;
    _ ← update (λ c, c <| token_count ::= λ n, wrap_add n 1 |> <| tokens_seen := seen |>
                       <| revision ::= λ n, sat_add n 1 |>);
    gets (λ s, appended token_index token_index s.1).

Definition append_with_metadata (key value : list F32) : M LayerKvCacheAppend :=
  c ← self;
  _ ← lift_outcome (validate_token_shape key value c);
  _ ← lift_outcome (validate_compressed_token_payload key value c);
  if token_count c =? max_tokens c then lift_outcome (Err (CapacityExceeded 1 0))
  else append_at_end_validated key value.

Definition append (key value : list F32) : M N :=
  a ← append_with_metadata key value; mret (append_token_index a).

Definition append_sliding_with_metadata (key value : list F32) : M LayerKvCacheAppend :=
  c ← self;
  _ ← lift_outcome (validate_sliding_append key value c);
  if token_count c <? max_tokens c then append_at_end_validated key value
  else
    seen ← require (checked_add (tokens_seen c) 1);
    let physical := window_start c in
    let token_index := wrap_sub (max_tokens c) 1 in
    _ ← write_block_token physical key value;
    _ ← write_stage_token physical key value;
    _ ← remove_oldest_active_block_token;
    _ ← append_active_block_run token_index physical;
    _ ← update (λ c, c <| window_start ::= λ n, wrap_add n 1 mod max_tokens c |>
                       <| tokens_seen := seen |> <| revision ::= λ n, sat_add n 1 |>);
    gets (λ s, appended token_index physical s.1).

Definition append_sliding (key value : list F32) : M N :=
  a ← append_sliding_with_metadata key value; mret (append_token_index a).

(** *** Clearing *)
Fixpoint clear_blocks (bs : list CacheBlock.t) (w : World) : list CacheBlock.t * World :=
  match bs with
  | [] => ([], w)
  | b :: bs =>
      let '(b, w) := CacheBlock.clear b w in
      let '(bs, w) := clear_blocks bs w in (b :: bs, w)
  end.
Definition clear (c : LayerKvCache) (w : LWorld) : LayerKvCache * LWorld :=
  let '(bs, bw) := clear_blocks (blocks c) (block_world w) in
  let c := c <| token_count := 0 |> <| tokens_seen := 0 |> <| window_start := 0 |> <| blocks := bs |> in
  let c := c <| quantized_values ::= fmap q_clear |> <| int8_storage ::= fmap int8_clear |>
             <| active_block_runs := [] |> in
  (clear_stage_storage c <| revision ::= λ n, sat_add n 1 |>, MkLWorld (cache_id_counter w) bw).

(** *** Reading *)

(** The row of a block, when the table still names the block. *)
Definition lookup_row (read : N → CacheBlock.t → World → outcome KvCacheError (option (list F32)))
    (token_index : N) (c : LayerKvCache) (w : LWorld) : outcome KvCacheError (option (list F32)) :=
  match block_position token_index c with
  | None => Ok None
  | Some (block_index, block_token_index) =>
      match table_get block_index c, nth_block block_index c with
      | Some block_id, Some block =>
          if CacheBlock.id block =? block_id then read block_token_index block (block_world w) else Ok None
      | _, _ => Ok None
      end
  end.
Definition key : N → LayerKvCache → LWorld → outcome KvCacheError (option (list F32)) := lookup_row CacheBlock.key.
Definition value : N → LayerKvCache → LWorld → outcome KvCacheError (option (list F32)) := lookup_row CacheBlock.value.

(** [contiguous_stage_view]: the slice of the stage, or the lazily built view;
    [None] is the panic of a slice out of range. *)
Definition contiguous_stage_view (storage : list F32) (view : option (list F32)) (c : LayerKvCache)
    : option (list F32 * option (list F32)) :=
  let first_token_count := wrap_sub (max_tokens c) (window_start c) in
  let start := wrap_mul (window_start c) (vector_len c) in
  if token_count c <=? first_token_count then
    l ← slice storage start (wrap_add start (used_len c)); Some (l, view)
  else
    match view with
    | Some l => Some (l, Some l)
    | None =>
        let first_len := wrap_mul first_token_count (vector_len c) in
        let second_len := wrap_sub (used_len c) first_len in
        a ← slice storage start (wrap_add start first_len);
        b ← slice storage 0 second_len;
        Some (a ++ b, Some (a ++ b))
    end.

(** [keys] and [values], with the cache whose lazily built view they may have
    filled. *)
Definition keys (c : LayerKvCache) : option (list F32 * LayerKvCache) :=
  '(l, view) ← contiguous_stage_view (key_stage c) (key_contiguous_view c) c;
  Some (l, c <| key_contiguous_view := view |>).
Definition values (c : LayerKvCache) : option (list F32 * LayerKvCache) :=
  '(l, view) ← contiguous_stage_view (value_stage c) (value_contiguous_view c) c;
  Some (l, c <| value_contiguous_view := view |>).

Definition block_view (c : LayerKvCache) (w : LWorld) (r : LayerKvCacheBlockRun)
    : outcome KvCacheError LayerKvCacheBlock :=
  block_id ← ok_or InvalidShape (table_get (run_block_index r) c);
  if negb (block_id =? run_block_id r) then Err InvalidShape
  else
    block ← ok_or InvalidShape (nth_block (run_block_index r) c);
    if negb (CacheBlock.id block =? block_id) then Err InvalidShape
    else
      let st := CacheBlock.storage_of (CacheBlock.storage block) (block_world w) in
      Ok (MkBlockView block_id (CacheBlock.revision block) (logical_token_start r) (physical_token_start r)
            (block_token_start r) (run_token_count r) (vector_len c)
            (CacheBlockStorage.keys st) (CacheBlockStorage.values st)).
Definition active_blocks (c : LayerKvCache) (w : LWorld) : outcome KvCacheError (list LayerKvCacheBlock) :=
  mapM (block_view c w) (active_block_runs c).

(** ** Snapshots *)
Definition snapshot (c : LayerKvCache) : option (LayerKvCacheSnapshot * LayerKvCache) :=
  '(ks, c) ← keys c;
  '(vs, c) ← values c;
  Some (MkSnapshot (revision c) (config c) (max_tokens c) (key_value_heads c) (head_dim c)
          (token_count c) (tokens_seen c) ks vs, c).

Definition from_snapshot (s : LayerKvCacheSnapshot) (w : LWorld) : outcome KvCacheError LayerKvCache * LWorld :=
  if (snap_max_tokens s <? snap_token_count s) || (snap_tokens_seen s <? snap_token_count s)
  then (Err InvalidShape, w)
  else
    match new_with_config (snap_max_tokens s) (snap_key_value_heads s) (snap_head_dim s) (snap_config s) w with
    | (Ok c, w) =>
        match checked_mul (snap_token_count s) (vector_len c) with
        | None => (Err InvalidShape, w)
        | Some used =>
            if negb (N.of_nat (length (snap_keys s)) =? used)
            then (Err (ShapeMismatch used (N.of_nat (length (snap_keys s)))), w)
            else if negb (N.of_nat (length (snap_values s)) =? used)
            then (Err (ShapeMismatch used (N.of_nat (length (snap_values s)))), w)
            else
              let rows := zip (chunks_exact (vector_len c) (snap_keys s)) (chunks_exact (vector_len c) (snap_values s)) in
              match for_each (λ r, _ ← append r.1 r.2; mret tt) rows (c, w) with
              | (Ok _, (c, w)) => (Ok (c <| revision := snap_revision s |> <| tokens_seen := snap_tokens_seen s |>), w)
              | (Err e, (_, w)) => (Err e, w)
              | (Panic, (_, w)) => (Panic, w)
              end
        end
    | (Err e, w) => (Err e, w)
    | (Panic, w) => (Panic, w)
    end.

(** ** Prefix states

    The loop of [prefix_cache_state]: the blocks of the active runs, each
    once. *)
Fixpoint retain_runs (c : LayerKvCache) (runs : list LayerKvCacheBlockRun) (seen : list BlockIdT) (w : World)
    : list LayerKvCachePrefixBlock * World :=
  match runs with
  | [] => ([], w)
  | r :: runs =>
      match table_get (run_block_index r) c with
      | None => retain_runs c runs seen w
      | Some block_id =>
          if negb (block_id =? run_block_id r) || bool_decide (block_id ∈ seen)
          then retain_runs c runs seen w
          else
            let seen := block_id :: seen in
            match nth_block (run_block_index r) c with
            | None => retain_runs c runs seen w
            | Some block =>
                if negb (CacheBlock.id block =? block_id) then retain_runs c runs seen w
                else
                  let '(retained, w) := CacheBlock.retain_storage block w in
                  let '(rest, w) := retain_runs c runs seen w in
                  (MkPrefixBlock (run_block_index r) retained :: rest, w)
            end
      end
  end.

Definition prefix_cache_state (c : LayerKvCache) (w : LWorld) : LayerKvCachePrefixState * LWorld :=
  let '(bs, bw) := retain_runs c (active_block_runs c) [] (block_world w) in
  (MkPrefixState (revision c) (config c) (max_tokens c) (key_value_heads c) (head_dim c)
     (token_count c) (tokens_seen c) (window_start c) bs, MkLWorld (cache_id_counter w) bw).

(** One retained block put in place; the block it replaces is dropped. *)
Definition restore_block (pb : LayerKvCachePrefixBlock) : M unit :=
  block ← on_world (CacheBlock.from_retained (pb_retained pb));
  c ← self;
  let i := pb_block_index pb in
  match nth_block i c with
  | None => lift_outcome (Err InvalidShape)
  | Some old =>
      if negb (CacheBlock.vector_len block =? vector_len c)
         || negb (CacheBlock.capacity_tokens block =? CacheBlock.capacity_tokens old)
      then lift_outcome (Err InvalidShape)
      else
        '(_, table) ← lift_outcome (BlockTable.replace (N.to_nat i) (CacheBlock.id block) (block_table c));
        _ ← update (λ c, c <| block_table := table |>);
        _ ← update (set_block i block);
        on_world (λ w, (Ok tt, with_storages (Arc.drop (CacheBlock.storage old) (storages w)) w))
  end.

Definition from_prefix_cache_state (st : LayerKvCachePrefixState) (w : LWorld)
    : outcome KvCacheError LayerKvCache * LWorld :=
  if (ps_max_tokens st =? 0) || (ps_key_value_heads st =? 0) || (ps_head_dim st =? 0)
     || (ps_max_tokens st <? ps_token_count st) || (ps_tokens_seen st <? ps_token_count st)
     || (ps_max_tokens st <=? ps_window_start st)
  then (Err InvalidShape, w)
  else
    match new_with_config (ps_max_tokens st) (ps_key_value_heads st) (ps_head_dim st) (ps_config st) w with
    | (Ok c, w) =>
        let body : M unit :=
          _ ← for_each restore_block (ps_blocks st);
          _ ← update (λ c, c <| revision := ps_revision st |> <| token_count := ps_token_count st |>
                             <| tokens_seen := ps_tokens_seen st |> <| window_start := ps_window_start st |>);
          _ ← rebuild_active_block_runs_from_tokens;
          rebuild_stage_from_blocks in
        match body (c, w) with
        | (Ok _, (c, w)) => (Ok c, w)
        | (Err e, (_, w)) => (Err e, w)
        | (Panic, (_, w)) => (Panic, w)
        end
    | (Err e, w) => (Err e, w)
    | (Panic, w) => (Panic, w)
    end.

(** ** Sizes *)
Definition compatibility_stage_resident_bytes (c : LayerKvCache) : N :=
  sat_add (sat_add (sat_add (f32_bytes (key_stage c)) (f32_bytes (value_stage c)))
    (default 0 (f32_bytes <$> key_contiguous_view c))) (default 0 (f32_bytes <$> value_contiguous_view c)).
Definition resident_bytes (c : LayerKvCache) (w : LWorld) : N :=
  let f32_total := foldl (λ n b,
    let st := CacheBlock.storage_of (CacheBlock.storage b) (block_world w) in
    sat_add (sat_add n (f32_bytes (CacheBlockStorage.keys st))) (f32_bytes (CacheBlockStorage.values st)))
    (compatibility_stage_resident_bytes c) (blocks c) in
  sat_add (sat_add f32_total (default 0 (int8_store_resident_bytes <$> int8_storage c)))
    (default 0 (q_store_resident_bytes <$> quantized_values c)).

Definition retained_block_payload_bytes (st : LayerKvCachePrefixState) (w : LWorld) : N :=
  foldl (λ n pb,
    let s := CacheBlock.storage_of (CacheBlock.r_storage (pb_retained pb)) (block_world w) in
    sat_add n (sat_add (f32_bytes (CacheBlockStorage.keys s)) (f32_bytes (CacheBlockStorage.values s))))
    0 (ps_blocks st).
(** Eight-byte scalars; [BlockId] is a [u64]. *)
Definition metadata_bytes (st : LayerKvCachePrefixState) (w : LWorld) : N :=
  let scalar_bytes := sat_add 8 (sat_mul 6 8) in
  let block_metadata_bytes := sat_mul (N.of_nat (length (ps_blocks st))) (sat_add (sat_add 8 8) (sat_mul 4 8)) in
  sat_add (sat_add scalar_bytes block_metadata_bytes) (retained_block_payload_bytes st w).
End layer.
