(* ===== verification/LayerKvInv.v ===== *)
(** * The layer cache: invariant

    What a layer cache stores, as the list of its logical token rows, and what
    each step of its methods does to the parts of that representation: the
    runs, the blocks, the staging copies. *)
From Stdlib Require Import ZifyN ZifyNat.
From stdpp Require Import base gmap sets numbers list.
From S2P Require Import Prelude KvTables CacheBlock KvFormat LayerKv.
Open Scope N_scope.
Open Scope record_scope.

#[local] Ltac Zify.zify_post_hook ::= Z.to_euclidean_division_equations.

(** ** Runs *)
#[local] Ltac run_arith :=
  cbn [run_block_index run_block_id logical_token_start physical_token_start block_token_start run_token_count
       upd eta_run] in *; unfold LAYER_KV_BLOCK_TOKENS in *; first [done|lia].

(** The (logical, physical) positions a run covers. *)
Definition run_tokens (r : LayerKvCacheBlockRun) : list (N * N) :=
  (λ t, (logical_token_start r + t, physical_token_start r + t)) <$> range (run_token_count r).
Definition flat_runs (runs : list LayerKvCacheBlockRun) : list (N * N) := runs ≫= run_tokens.

Record run_ok (max : N) (ids : list BlockIdT) (r : LayerKvCacheBlockRun) : Prop := {
  ro_count : 0 < run_token_count r;
  ro_block : run_block_index r = physical_token_start r / LAYER_KV_BLOCK_TOKENS;
  ro_start : block_token_start r = physical_token_start r mod LAYER_KV_BLOCK_TOKENS;
  ro_inside : block_token_start r + run_token_count r ≤ LAYER_KV_BLOCK_TOKENS;
  ro_max : physical_token_start r + run_token_count r ≤ max;
  ro_id : ids !! N.to_nat (run_block_index r) = Some (run_block_id r);
}.

Lemma range_S n : range (n + 1) = range n ++ [n].
Proof.
  unfold range. replace (N.to_nat (n + 1)) with (S (N.to_nat n)) by lia.
  rewrite seq_S, fmap_app. cbn. by rewrite N2Nat.id.
Qed.

Lemma range_cons n : 0 < n → range n = 0 :: ((λ t, t + 1) <$> range (n - 1)).
Proof.
  intros Hn. unfold range. replace (N.to_nat n) with (S (N.to_nat (n - 1))) by lia.
  rewrite <- cons_seq, <- fmap_S_seq. cbn [fmap list_fmap]. f_equal. rewrite <- !list_fmap_compose.
  apply list_fmap_ext. intros i x _. cbn. lia.
Qed.

Lemma flat_runs_app a b : flat_runs (a ++ b) = flat_runs a ++ flat_runs b.
Proof. apply bind_app. Qed.

Lemma insert_last {A} (l : list A) x y : <[(length (l ++ [x]) - 1)%nat := y]> (l ++ [x]) = l ++ [y].
Proof.
  rewrite length_app. change (length [x]) with 1%nat. rewrite Nat.add_sub.
  rewrite insert_app_r_alt by done. by rewrite Nat.sub_diag.
Qed.

(** The runs after [append_active_block_run]. *)
Definition push_run (block_index : N) (block_id : BlockIdT) (logical physical block_start : N)
    (runs : list LayerKvCacheBlockRun) : list LayerKvCacheBlockRun :=
  match last runs with
  | Some previous =>
      if can_extend block_index block_id logical physical block_start previous
      then <[(length runs - 1)%nat := previous <| run_token_count ::= λ n, wrap_add n 1 |>]> runs
      else runs ++ [MkRun block_index block_id logical physical block_start 1]
  | None => [MkRun block_index block_id logical physical block_start 1]
  end.

Lemma push_run_spec max ids logical physical id runs :
  Forall (run_ok max ids) runs → physical < max →
  ids !! N.to_nat (physical / LAYER_KV_BLOCK_TOKENS) = Some id →
  let runs' := push_run (physical / LAYER_KV_BLOCK_TOKENS) id logical physical
                 (physical mod LAYER_KV_BLOCK_TOKENS) runs in
  Forall (run_ok max ids) runs' ∧ flat_runs runs' = flat_runs runs ++ [(logical, physical)].
Proof.
  intros Hok Hp Hid. cbv zeta. unfold push_run. set (fresh := MkRun _ _ _ _ _ _).
  assert (run_ok max ids fresh) as Hfresh.
  { unfold fresh. split; run_arith. }
  assert (run_tokens fresh = [(logical, physical)]) as Htok.
  { unfold run_tokens, fresh. cbn [logical_token_start physical_token_start run_token_count].
    change (range 1) with [0]. cbn [fmap list_fmap]. by rewrite !N.add_0_r. }
  destruct (last runs) as [prev|] eqn:Hl.
  2:{ destruct runs as [|r runs]; [|by destruct (last_is_Some (r :: runs)) as [_ []]; [done|congruence]].
      split; [apply Forall_singleton; exact Hfresh|]. unfold flat_runs. cbn [mbind list_bind]. by rewrite app_nil_r, Htok. }
  apply last_Some in Hl as [init ->]. pose proof Hok as [Hinit Hprev]%Forall_app.
  apply (proj1 (Forall_singleton _ _)) in Hprev. destruct (can_extend _ _ _ _ _ prev) eqn:He.
  - unfold can_extend in He. bool_to_prop.
    repeat match goal with X : checked_add _ _ = Some _ |- _ => apply checked_add_Some in X as [? ?] end.
    destruct Hprev as [Hc Hb Hs Hi Hm Hx]. rewrite insert_last.
    unfold LAYER_KV_BLOCK_TOKENS in *.
    assert (wrap_add (run_token_count prev) 1 = run_token_count prev + 1) as Hw.
    { apply wrap_add_small. unfold u64_max. lia. }
    split.
    + apply Forall_app. split; [done|]. apply Forall_singleton. split; cbn; rewrite ?Hw; run_arith.
    + rewrite !flat_runs_app, <- app_assoc. f_equal. unfold flat_runs. cbn [mbind list_bind]. rewrite !app_nil_r.
      unfold run_tokens. cbn. rewrite Hw, range_S, fmap_app. cbn. do 2 f_equal. f_equal; lia.
  - split; [apply Forall_app; split; [exact Hok|by apply Forall_singleton]|].
    rewrite flat_runs_app. f_equal. unfold flat_runs. cbn [mbind list_bind]. by rewrite app_nil_r, Htok.
Qed.

(** The runs after [remove_oldest_active_block_token]. *)
Definition pop_run (runs : list LayerKvCacheBlockRun) : option (list LayerKvCacheBlockRun) :=
  match runs with
  | [] => None
  | first :: rest =>
      Some ((λ r, r <| logical_token_start ::= λ n, sat_sub n 1 |>) <$>
        (if run_token_count first =? 1 then rest
         else (first <| physical_token_start := physical_token_start first + 1 |>
                 <| block_token_start := block_token_start first + 1 |>
                 <| run_token_count ::= λ n, wrap_sub n 1 |>) :: rest))
  end.

Lemma run_ok_shift max ids r :
  run_ok max ids r → run_ok max ids (r <| logical_token_start ::= λ n, sat_sub n 1 |>).
Proof. intros []. split; cbn; done. Qed.

Lemma run_tokens_shift r :
  0 < logical_token_start r →
  run_tokens (r <| logical_token_start ::= λ n, sat_sub n 1 |>) = (λ x, (x.1 - 1, x.2)) <$> run_tokens r.
Proof.
  intros Hr. unfold run_tokens. cbn. rewrite <- list_fmap_compose. apply list_fmap_ext. intros i x _.
  cbn. unfold sat_sub. f_equal. lia.
Qed.

Lemma flat_runs_shift runs :
  Forall (λ r, 0 < logical_token_start r) runs →
  flat_runs ((λ r, r <| logical_token_start ::= λ n, sat_sub n 1 |>) <$> runs)
  = (λ x, (x.1 - 1, x.2)) <$> flat_runs runs.
Proof.
  induction 1 as [|r runs Hr Hruns IH]; [done|]. unfold flat_runs in *. cbn [fmap list_fmap mbind list_bind].
  rewrite fmap_app, run_tokens_shift by done. f_equal. exact IH.
Qed.

Lemma pop_run_spec max ids runs x rest :
  Forall (run_ok max ids) runs → flat_runs runs = (0, x) :: rest → (∀ y, y ∈ rest → 0 < y.1) →
  ∃ runs', pop_run runs = Some runs' ∧ Forall (run_ok max ids) runs'
  ∧ flat_runs runs' = (λ y, (y.1 - 1, y.2)) <$> rest.
Proof.
  intros Hok Hf Hpos. destruct runs as [|r runs]; [done|]. apply Forall_cons in Hok as [Hr Hok].
  pose proof Hr as [Hc Hb Hs Hi Hm Hx].
  unfold flat_runs in Hf. cbn [mbind list_bind] in Hf. unfold run_tokens in Hf at 1.
  rewrite (range_cons (run_token_count r)) in Hf by done. cbn [fmap list_fmap app] in Hf.
  rewrite !N.add_0_r in Hf. injection Hf as Hl0 Hp0 Hrest.
  assert (Forall (λ r, 0 < logical_token_start r) runs) as Hls.
  { rewrite Forall_forall in Hok |- *. intros r' Hr'. destruct (Hok r' Hr') as [Hc' _ _ _ _ _].
    assert ((logical_token_start r', physical_token_start r') ∈ rest) as Hin; [|by apply (Hpos _ Hin)].
    rewrite <- Hrest. apply elem_of_app. right. apply list_elem_of_bind. exists r'. split; [|done].
    unfold run_tokens. rewrite range_cons by done. cbn [fmap list_fmap]. rewrite !N.add_0_r. by left. }
  cbn [pop_run]. eexists. split; [done|]. destruct (N.eqb_spec (run_token_count r) 1) as [H1|H1].
  - rewrite H1 in Hrest. cbn in Hrest. subst rest. split.
    + apply Forall_fmap. eapply Forall_impl; [exact Hok|]. intros r'. apply run_ok_shift.
    + by apply flat_runs_shift.
  - assert (wrap_sub (run_token_count r) 1 = run_token_count r - 1) as Hw.
    { apply wrap_sub_small; [lia|]. unfold LAYER_KV_BLOCK_TOKENS, u64_max in *. lia. }
    set (r1 := r <| physical_token_start := physical_token_start r + 1 |> <| block_token_start := block_token_start r + 1 |>
                 <| run_token_count ::= λ n, wrap_sub n 1 |>).
    assert (run_ok max ids r1) as Hr1.
    { unfold r1. split; cbn; rewrite ?Hw; run_arith. }
    split.
    + cbn [fmap list_fmap]. constructor; [by apply run_ok_shift|].
      apply Forall_fmap. eapply Forall_impl; [exact Hok|]. intros r'. apply run_ok_shift.
    + cbn [fmap list_fmap]. unfold flat_runs. cbn [mbind list_bind]. rewrite <- Hrest, fmap_app. f_equal.
      * unfold run_tokens, r1. cbn -[range]. rewrite Hw, <- !list_fmap_compose. apply list_fmap_ext.
        intros i t _. cbn. unfold sat_sub. f_equal; lia.
      * by apply flat_runs_shift.
Qed.

(** Renaming the block of a run, when its block gets a fresh identity. *)
Definition rename_runs (block_index : N) (block_id : BlockIdT) (runs : list LayerKvCacheBlockRun) :=
  (λ r, if run_block_index r =? block_index then r <| run_block_id := block_id |> else r) <$> runs.

Lemma rename_runs_ok max ids i id runs :
  is_Some (ids !! N.to_nat i) → Forall (run_ok max ids) runs →
  Forall (run_ok max (<[N.to_nat i := id]> ids)) (rename_runs i id runs)
  ∧ flat_runs (rename_runs i id runs) = flat_runs runs.
Proof.
  intros [old Hi] Hok. split.
  - apply Forall_fmap. eapply Forall_impl; [exact Hok|]. intros r [Hc Hb Hs Hin Hm Hx]. cbn.
    destruct (N.eqb_spec (run_block_index r) i) as [He|Hne].
    + split; try done. cbn. rewrite He. apply list_lookup_insert_eq. by eapply lookup_lt_Some.
    + split; try done. rewrite list_lookup_insert_ne; [done|lia].
  - unfold flat_runs, rename_runs. clear Hok. induction runs as [|r runs IH]; [done|].
    cbn [fmap list_fmap mbind list_bind]. f_equal; [|exact IH]. by case_match.
Qed.

(** ** Blocks *)

(** The rows of block [i] of a cache of [max] tokens that stores [n] of them. *)
Record block_fits (max vl n : N) (i : nat) (b : CacheBlock.t) : Prop := {
  bf_vector : CacheBlock.vector_len b = vl;
  bf_capacity : CacheBlock.capacity_tokens b = N.min LAYER_KV_BLOCK_TOKENS (max - LAYER_KV_BLOCK_TOKENS * N.of_nat i);
  bf_count : CacheBlock.token_count b
             = N.min (CacheBlock.capacity_tokens b) (n - LAYER_KV_BLOCK_TOKENS * N.of_nat i);
}.

Record blocks_ok (max vl : N) (bs : list CacheBlock.t) (ids : list BlockIdT) (w : World) (n : N) : Prop := {
  bo_length : N.of_nat (length bs) = div_ceil max LAYER_KV_BLOCK_TOKENS;
  bo_fits : ∀ i b, bs !! i = Some b → block_fits max vl n i b;
  bo_wf : ∀ i b, bs !! i = Some b → block_wf b w;
  bo_ids : ∀ i b, bs !! i = Some b → ids !! i = Some (CacheBlock.id b);
  bo_distinct : ∀ i j b b', bs !! i = Some b → bs !! j = Some b' →
    CacheBlock.storage b = CacheBlock.storage b' → i = j;
}.

Abbreviation Row := (list F32 * list F32)%type (only parsing).

(** The row a physical position reads. *)
Definition block_row (bs : list CacheBlock.t) (w : World) (p : N) : option Row :=
  b ← bs !! N.to_nat (p / LAYER_KV_BLOCK_TOKENS);
  match CacheBlock.key (p mod LAYER_KV_BLOCK_TOKENS) b w, CacheBlock.value (p mod LAYER_KV_BLOCK_TOKENS) b w with
  | Ok (Some k), Ok (Some v) => Some (k, v)
  | _, _ => None
  end.

Lemma div_ceil_spec a b i : 0 < b → (i < div_ceil a b ↔ i * b < a).
Proof.
  intros Hb. unfold div_ceil. pose proof (N.div_mod a b). pose proof (N.mod_lt a b).
  destruct (N.eqb_spec (a mod b) 0); nia.
Qed.

Lemma blocks_ok_lookup max vl bs ids w n p :
  blocks_ok max vl bs ids w n → p < max →
  ∃ b, bs !! N.to_nat (p / LAYER_KV_BLOCK_TOKENS) = Some b.
Proof.
  intros [Hlen _ _ _ _] Hp. apply lookup_lt_is_Some.
  pose proof (proj2 (div_ceil_spec max LAYER_KV_BLOCK_TOKENS (p / LAYER_KV_BLOCK_TOKENS) eq_refl)) as H.
  rewrite <- Hlen in H. unfold LAYER_KV_BLOCK_TOKENS in *. lia.
Qed.

Lemma block_wf_storages b w w' : storages w' = storages w → block_wf b w → block_wf b w'.
Proof. unfold block_wf. by intros ->. Qed.
Lemma block_row_storages bs w w' p : storages w' = storages w → block_row bs w' p = block_row bs w p.
Proof.
  unfold block_row, CacheBlock.key, CacheBlock.value, CacheBlock.storage_of. intros ->. done.
Qed.

(** A block replaced by one with the same storage under another identity. *)
Lemma blocks_ok_rename max vl bs ids w w1 n i b b1 :
  blocks_ok max vl bs ids w n → bs !! i = Some b → storages w1 = storages w →
  CacheBlock.storage b1 = CacheBlock.storage b → CacheBlock.vector_len b1 = CacheBlock.vector_len b →
  CacheBlock.capacity_tokens b1 = CacheBlock.capacity_tokens b → CacheBlock.token_count b1 = CacheBlock.token_count b →
  blocks_ok max vl (<[i := b1]> bs) (<[i := CacheBlock.id b1]> ids) w1 n
  ∧ ∀ p, block_row (<[i := b1]> bs) w1 p = block_row bs w p.
Proof.
  intros [Hlen Hfits Hwf Hids Hdist] Hi Hw Hst Hvl Hcap Htc.
  pose proof (lookup_lt_Some _ _ _ Hi) as Hlt. pose proof (lookup_lt_Some _ _ _ (Hids _ _ Hi)) as Hlt'.
  assert (∀ j b', <[i:=b1]> bs !! j = Some b' →
    (j = i ∧ b' = b1) ∨ (j ≠ i ∧ bs !! j = Some b')) as Hcase.
  { intros j b' Hj. apply list_lookup_insert_Some in Hj. naive_solver. }
  split; [split|].
  - by rewrite length_insert.
  - intros j b' Hj. destruct (Hcase _ _ Hj) as [[-> ->]|[_ Hj']]; [|by apply Hfits].
    destruct (Hfits _ _ Hi). split; congruence.
  - intros j b' Hj. destruct (Hcase _ _ Hj) as [[-> ->]|[_ Hj']].
    + apply (block_wf_storages _ w); [done|]. destruct (Hwf _ _ Hi) as [Hs Hg].
      unfold block_wf, shape_wf in *. by rewrite Hst, Hvl, Hcap, Htc.
    + apply (block_wf_storages _ w); [done|by eapply Hwf].
  - intros j b' Hj. destruct (Hcase _ _ Hj) as [[-> ->]|[Hne Hj']].
    + by apply list_lookup_insert_eq.
    + rewrite list_lookup_insert_ne by done. by apply Hids.
  - intros j j' b' b'' Hj Hj' Hs. destruct (Hcase _ _ Hj) as [[-> ->]|[_ Hj1]], (Hcase _ _ Hj') as [[-> ->]|[_ Hj2]];
      try done; eapply Hdist; try done; congruence.
  - intros p. rewrite (block_row_storages _ w) by done. unfold block_row.
    destruct (decide (N.to_nat (p / LAYER_KV_BLOCK_TOKENS) = i)) as [->|Hne].
    + rewrite list_lookup_insert_eq, Hi by done. cbn [mbind option_bind].
      unfold CacheBlock.key, CacheBlock.value, CacheBlock.token_slice. by rewrite Hst, Hvl, Htc.
    + by rewrite list_lookup_insert_ne.
Qed.

(** The rows stored below [n] all read. *)
Lemma block_row_is_Some max vl bs ids w n p :
  blocks_ok max vl bs ids w n → p < n → n ≤ max → is_Some (block_row bs w p).
Proof.
  intros Hb Hp Hn. destruct (blocks_ok_lookup _ _ _ _ _ _ p Hb) as [b Hi]; [lia|].
  destruct Hb as [Hlen Hfits Hwf _ _]. pose proof (Hfits _ _ Hi) as [Hvl Hcap Htc].
  destruct (Hwf _ _ Hi) as [Hshape (s & Hs & Hks & Hvs)].
  unfold LAYER_KV_BLOCK_TOKENS in *.
  assert (p mod 256 < CacheBlock.token_count b) as Hlt by lia.
  assert (p mod 256 < CacheBlock.capacity_tokens b) as Hltc by lia.
  destruct (row_bounds b (p mod 256) Hshape Hltc) as (Hm & Ha & Hle).
  unfold block_row, CacheBlock.key, CacheBlock.value, CacheBlock.token_slice, CacheBlock.storage_of,
    LAYER_KV_BLOCK_TOKENS.
  rewrite Hi. cbn [mbind option_bind]. rewrite Hs.
  change (default (CacheBlockStorage.Make [] []) (Some s)) with s.
  rewrite (proj2 (N.leb_gt _ _)) by exact Hlt. rewrite Hm, Ha.
  destruct (slice_is_Some (CacheBlockStorage.keys s) (p mod 256 * CacheBlock.vector_len b)
    (p mod 256 * CacheBlock.vector_len b + CacheBlock.vector_len b)) as [k ->]; [lia..|].
  destruct (slice_is_Some (CacheBlockStorage.values s) (p mod 256 * CacheBlock.vector_len b)
    (p mod 256 * CacheBlock.vector_len b + CacheBlock.vector_len b)) as [v ->]; [lia..|].
  cbn. by eexists.
Qed.

Lemma count_other (p cap : N) (j : nat) :
  j ≠ N.to_nat (p / 256) → cap ≤ 256 →
  N.min cap (p + 1 - 256 * N.of_nat j) = N.min cap (p - 256 * N.of_nat j).
Proof.
  intros Hj Hcap. pose proof (N.div_mod p 256 ltac:(lia)). pose proof (N.mod_lt p 256 ltac:(lia)).
  set (q := p / 256) in *. clearbody q. destruct (N.lt_gt_cases (N.of_nat j) q) as [[Hlt|Hgt] _]; [lia| |]; lia.
Qed.

Lemma same_block_other p p' n cap max :
  N.to_nat (p' / 256) = N.to_nat (p / 256) → p' ≠ p → p' < n → n ≤ max →
  cap = N.min 256 (max - 256 * N.of_nat (N.to_nat (p / 256))) →
  p' mod 256 ≠ p mod 256 ∧ p' mod 256 < N.min cap (n - 256 * N.of_nat (N.to_nat (p / 256))).
Proof.
  intros Hq Hne Hn Hm ->. apply N2Nat.inj in Hq. rewrite N2Nat.id, <- Hq.
  pose proof (N.div_mod p 256 ltac:(lia)). pose proof (N.div_mod p' 256 ltac:(lia)).
  pose proof (N.mod_lt p' 256 ltac:(lia)). rewrite <- Hq in *. lia.
Qed.

(** Row [p] written through its block: [b] is the block before and [b2] the
    block after. *)
Lemma blocks_ok_write max vl bs ids w n p b b2 k v w' :
  blocks_ok max vl bs ids w n → p < max → p ≤ n → n ≤ max → bs !! N.to_nat (p / LAYER_KV_BLOCK_TOKENS) = Some b →
  row_written (p mod LAYER_KV_BLOCK_TOKENS) k v b w (CacheBlock.storage b2) w' →
  CacheBlock.id b2 = CacheBlock.id b → CacheBlock.vector_len b2 = CacheBlock.vector_len b →
  CacheBlock.capacity_tokens b2 = CacheBlock.capacity_tokens b →
  CacheBlock.token_count b2 = N.max (CacheBlock.token_count b) (p mod LAYER_KV_BLOCK_TOKENS + 1) →
  let bs' := <[N.to_nat (p / LAYER_KV_BLOCK_TOKENS) := b2]> bs in
  blocks_ok max vl bs' ids w' (N.max n (p + 1))
  ∧ block_row bs' w' p = Some (k, v)
  ∧ ∀ p', p' < n → p' ≠ p → block_row bs' w' p' = block_row bs w p'.
Proof.
  intros [Hlen Hfits Hwf Hids Hdist] Hpm Hpn Hnm Hi Hw Hid Hvl Hcap Htc. cbv zeta.
  unfold LAYER_KV_BLOCK_TOKENS in *. set (i := N.to_nat (p / 256)) in *.
  pose proof (lookup_lt_Some _ _ _ Hi) as Hlt. pose proof (Hfits _ _ Hi) as [Hbv Hbc Hbt].
  pose proof (Hwf _ _ Hi) as [Hshape _].
  unfold LAYER_KV_BLOCK_TOKENS in *.
  assert (∀ j b', <[i:=b2]> bs !! j = Some b' →
    (j = i ∧ b' = b2) ∨ (j ≠ i ∧ bs !! j = Some b')) as Hcase.
  { intros j b' Hj. apply list_lookup_insert_Some in Hj. naive_solver. }
  assert (∀ j b', j ≠ i → bs !! j = Some b' → same_storage b' w w' ∧ CacheBlock.storage b' ≠ CacheBlock.storage b2
    ∧ block_wf b' w') as Hother.
  { intros j b' Hne Hj. apply (row_written_frame _ _ _ _ _ _ _ _ Hw); [by eapply Hwf|].
    left. intros Heq. apply Hne. by apply (Hdist _ _ _ _ Hj Hi). }
  split; [split|split].
  - by rewrite length_insert.
  - intros j b' Hj. destruct (Hcase _ _ Hj) as [[-> ->]|[Hne Hj']].
    + split; unfold LAYER_KV_BLOCK_TOKENS; lia.
    + destruct (Hfits _ _ Hj') as [? Hc Ht]. unfold LAYER_KV_BLOCK_TOKENS in *. split; [done|done|].
      unfold LAYER_KV_BLOCK_TOKENS. rewrite Ht. destruct (N.le_gt_cases (p + 1) n) as [Hle|Hgt]; [by rewrite N.max_l|].
      assert (n = p) as -> by (clear -Hgt Hpn; lia). rewrite N.max_r by (clear; lia). symmetry.
      apply (count_other p _ j Hne). rewrite Hc. clear. lia.
  - intros j b' Hj. destruct (Hcase _ _ Hj) as [[-> ->]|[Hne Hj']]; [|by eapply Hother].
    split; [|rewrite Hvl, Hcap; apply Hw]. unfold shape_wf in *. rewrite Hvl, Hcap, Htc. lia.
  - intros j b' Hj. destruct (Hcase _ _ Hj) as [[-> ->]|[Hne Hj']]; [|by apply Hids].
    rewrite Hid. by apply Hids.
  - intros j j' b' b'' Hj Hj' Hs. destruct (Hcase _ _ Hj) as [[-> ->]|[Hj1 Hl1]], (Hcase _ _ Hj') as [[-> ->]|[Hj2 Hl2]];
      [done| | |by eapply Hdist].
    + by destruct (Hother _ _ Hj2 Hl2) as (_ & ? & _).
    + by destruct (Hother _ _ Hj1 Hl1) as (_ & ? & _).
  - unfold block_row, LAYER_KV_BLOCK_TOKENS. fold i. rewrite list_lookup_insert_eq by done. cbn [mbind option_bind].
    destruct (rw_row _ _ _ _ _ _ _ Hw b2 eq_refl Hvl) as [-> ->]; [rewrite Htc; clear; lia|done].
  - intros p' Hp' Hne. unfold block_row, LAYER_KV_BLOCK_TOKENS. destruct (decide (N.to_nat (p' / 256) = i)) as [He|Hd].
    + rewrite He, list_lookup_insert_eq, Hi by done. cbn [mbind option_bind].
      assert (p' mod 256 ≠ p mod 256 ∧ p' mod 256 < CacheBlock.token_count b) as [Hm1 Hm2].
      { rewrite Hbt. by apply (same_block_other _ _ _ _ max). }
      destruct (rw_rows _ _ _ _ _ _ _ Hw b2 (p' mod 256) eq_refl Hvl) as [-> ->]; try done.
      { rewrite Htc. clear -Hm2. lia. }
      { clear -Hpm Hbt Hbc Htc. lia. }
    + rewrite list_lookup_insert_ne by done. destruct (bs !! N.to_nat (p' / 256)) as [b'|] eqn:Hj; [|done]. cbn [mbind option_bind].
      destruct (Hother _ _ Hd Hj) as [Hs _]. by destruct (same_storage_key b' w w' (p' mod 256) Hs) as [-> ->].
Qed.

(** ** Sharing

    What an operation that owns the blocks at [locs] leaves alone: a live
    storage that is not one of them, or that someone else holds too, keeps its
    contents and stays protected from the blocks at [locs'] the operation ends
    with. *)
Definition guarded (locs : list N) (w : World) (l : N) : Prop :=
  Arc.get l (storages w) ≠ None ∧ (l ∉ locs ∨ 1 < Arc.strong_count l (storages w)).
Definition leaves_others (locs : list N) (w : World) (locs' : list N) (w' : World) : Prop :=
  ∀ l, guarded locs w l → guarded locs' w' l ∧ Arc.get l (storages w') = Arc.get l (storages w).

Lemma leaves_others_refl locs w w' : storages w' = storages w → leaves_others locs w locs w'.
Proof. unfold leaves_others, guarded. by intros ->. Qed.
Lemma leaves_others_trans l1 w1 l2 w2 l3 w3 :
  leaves_others l1 w1 l2 w2 → leaves_others l2 w2 l3 w3 → leaves_others l1 w1 l3 w3.
Proof. intros H1 H2 l Hl. destruct (H1 l Hl) as [Hg <-]. by apply H2. Qed.

Lemma set_count {A} l k (v : A) h : Arc.strong_count k (Arc.set l v h) = Arc.strong_count k h.
Proof.
  unfold Arc.strong_count, Arc.set. cbn. rewrite lookup_alter. case_decide; [subst|done].
  by destruct (Arc.cells h !! k).
Qed.

Lemma make_mut_count {A} l k (h : Arc.heap A) :
  Arc.wf h → k ≠ l → Arc.get k h ≠ None → Arc.strong_count k (Arc.make_mut l h).2 = Arc.strong_count k h.
Proof.
  intros Hh Hne Hk. unfold Arc.make_mut. destruct (Arc.cells h !! l) as [c|] eqn:E; [|done].
  destruct (Arc.strong c <=? 1) eqn:Hc; [done|]. unfold Arc.new, Arc.strong_count.
  cbn [fst snd Arc.cells]. rewrite Arc.next_loc_drop.
  rewrite lookup_insert_ne.
  - unfold Arc.drop. rewrite E, Hc. cbn [Arc.cells]. by rewrite lookup_insert_ne.
  - intros <-. apply Hk. unfold Arc.get. by rewrite Arc.fresh_not_alive.
Qed.

Lemma write_token_count j ks vs b w l w' k :
  world_wf w → CacheBlock.write_token j ks vs b w = Ok (l, w') → k ≠ CacheBlock.storage b →
  Arc.get k (storages w) ≠ None →
  Arc.strong_count k (storages w') = Arc.strong_count k (storages w).
Proof.
  intros Hw Heq Hne Hk. unfold CacheBlock.write_token in Heq.
  pose proof (make_mut_count (CacheBlock.storage b) k _ Hw Hne Hk) as Hc.
  destruct (Arc.make_mut (CacheBlock.storage b) (storages w)) as [l1 h1]. cbn in Heq, Hc.
  destruct (write_slice _ _ ks) as [ks'|]; cbn in Heq; [|done].
  destruct (write_slice _ _ vs) as [vs'|]; cbn in Heq; [|done].
  injection Heq as <- <-. etrans; [|exact Hc]. cbn [storages with_storages]. apply set_count.
Qed.

(** A write through one of the blocks is such an operation. *)
Lemma write_leaves_others j ks vs b w l w' bs i b2 :
  (∀ i j b b', bs !! i = Some b → bs !! j = Some b' → CacheBlock.storage b = CacheBlock.storage b' → i = j) →
  world_wf w → CacheBlock.write_token j ks vs b w = Ok (l, w') → row_written j ks vs b w l w' →
  bs !! i = Some b → CacheBlock.storage b2 = l →
  leaves_others (CacheBlock.storage <$> bs) w (CacheBlock.storage <$> <[i := b2]> bs) w'.
Proof.
  intros Hdist Hw Heq Hr Hi Hb2 k [Hk Hg].
  destruct (rw_frame _ _ _ _ _ _ _ Hr k Hk) as [Hget Hne].
  { destruct (decide (k = CacheBlock.storage b)) as [->|]; [right|by left]. destruct Hg as [[]|]; [|done].
    apply list_elem_of_fmap. exists b. split; [done|]. by eapply list_elem_of_lookup_2. }
  split; [|done]. split; [by rewrite Hget|].
  assert (k ∈ CacheBlock.storage <$> <[i:=b2]> bs → ∃ j b', j ≠ i ∧ bs !! j = Some b' ∧ CacheBlock.storage b' = k) as Hin.
  { intros (b' & -> & [j' Hj]%list_elem_of_lookup_1)%list_elem_of_fmap.
    apply list_lookup_insert_Some in Hj as [(_ & <- & _)|[Hji Hj]]; [congruence|]. exists j', b'. by split_and!; [apply not_eq_sym| |]. }
  destruct (decide (k ∈ CacheBlock.storage <$> <[i:=b2]> bs)) as [Hk2|]; [right|by left].
  destruct (Hin Hk2) as (j' & b' & Hne' & Hj' & <-).
  assert (CacheBlock.storage b' ≠ CacheBlock.storage b) as Hns.
  { intros Hs. apply Hne'. by apply (Hdist _ _ _ _ Hj' Hi). }
  rewrite (write_token_count _ _ _ _ _ _ _ _ Hw Heq Hns Hk). destruct Hg as [[]|]; [|done].
  apply list_elem_of_fmap. exists b'. split; [done|]. by eapply list_elem_of_lookup_2.
Qed.
