(* ===== verification/LayerKvOps.v ===== *)
(** * The layer cache: what each step of an append does

    Specifications of the block write, the staging copy and the run updates
    that the appending methods are composed of, over uncompressed caches. *)
From Stdlib Require Import ZifyN ZifyNat.
From stdpp Require Import base gmap sets numbers list.
From S2P Require Import Prelude KvTables CacheBlock KvFormat LayerKv LayerKvInv.
Open Scope N_scope.
Open Scope record_scope.

#[local] Ltac Zify.zify_post_hook ::= Z.to_euclidean_division_equations.

(** Runs a method whose primitives are given. *)
Ltac run_method :=
  lazy beta iota zeta delta [mbind stm_bind mret stm_ret self gets get_state update modify require check on_world
    lift_outcome ok_or prod_map id fst snd].

Definition with_blocks (bs : list CacheBlock.t) (tb : BlockTable.t) (runs : list LayerKvCacheBlockRun)
    (c : LayerKvCache) : LayerKvCache :=
  c <| blocks := bs |> <| block_table := tb |> <| active_block_runs := runs |>.

(** A process state in which blocks can be allocated. *)
Definition lworld_ok (w : LWorld) : Prop :=
  world_wf (block_world w) ∧ 0 < next_block_id (block_world w).
Definition ids_exhausted (w : LWorld) : Prop := u64_max ≤ next_block_id (block_world w).

(** What writing a row leaves alone: the process-wide counters only grow. *)
Definition counters_grow (w w' : LWorld) : Prop :=
  cache_id_counter w' = cache_id_counter w ∧ next_block_id (block_world w) ≤ next_block_id (block_world w').

Section layer_ops.
Context `{F32Arith}.

(** ** The block of a row *)

(** The cached blocks and runs of a cache that stores [n] rows. *)
Record stored (max vl n : N) (bs : list CacheBlock.t) (tb : BlockTable.t) (runs : list LayerKvCacheBlockRun)
    (w : World) : Prop := {
  st_blocks : blocks_ok max vl bs (BlockTable.blocks tb) w n;
  st_runs : Forall (run_ok max (BlockTable.blocks tb)) runs;
}.
Definition stored_cache (n : N) (c : LayerKvCache) (w : LWorld) : Prop :=
  stored (max_tokens c) (vector_len c) n (blocks c) (block_table c) (active_block_runs c) (block_world w).

Lemma next_id_spec w : 0 < next_block_id w →
  (u64_max ≤ next_block_id w ∧ next_id w = (Err InvalidShape, w))
  ∨ (next_block_id w < u64_max
     ∧ next_id w = (Ok (next_block_id w), MkWorld (next_block_id w + 1) (storages w))).
Proof.
  intros Hpos. unfold next_id, BlockId.next, checked_add. destruct w as [n h]. cbn [next_block_id storages] in *.
  destruct (N.leb_spec (n + 1) u64_max) as [Hle|Hlt]; [right|left].
  - unfold BlockId.INVALID. rewrite (proj2 (N.eqb_neq (n + 1) 0)) by lia. split; [lia|done].
  - split; [lia|done].
Qed.

(** The rest of [exclusive_block], from the block with its own identity. *)
Definition install_block (i : N) (block_id : BlockIdT) (b1 : CacheBlock.t) : stm (LayerKvCache * LWorld) KvCacheError unit :=
  c ← self;
  _ ← update (set_block i b1);
  if CacheBlock.id b1 =? block_id then mret tt
  else
    '(_, table) ← lift_outcome (BlockTable.replace (N.to_nat i) (CacheBlock.id b1) (block_table c));
    _ ← update (λ c, c <| block_table := table |>);
    update (refresh_active_block_run_ids i (CacheBlock.id b1)).

(** What giving the block at [p] an identity of its own does. *)
Record exclusive_at (n p : N) (c : LayerKvCache) (w : LWorld) (bs : list CacheBlock.t) (tb : BlockTable.t)
    (runs : list LayerKvCacheBlockRun) (w' : World) (b : CacheBlock.t) : Prop := {
  ex_stored : stored (max_tokens c) (vector_len c) n bs tb runs w';
  ex_flat : flat_runs runs = flat_runs (active_block_runs c);
  ex_storages : (CacheBlock.storage <$> bs) = (CacheBlock.storage <$> blocks c);
  ex_rows : ∀ q, block_row bs w' q = block_row (blocks c) (block_world w) q;
  ex_block : bs !! N.to_nat (p / LAYER_KV_BLOCK_TOKENS) = Some b;
}.

Lemma fmap_insert_same {A B} (f : A → B) (l : list A) i x y :
  l !! i = Some x → f y = f x → f <$> <[i := y]> l = f <$> l.
Proof. intros Hi Hf. rewrite list_fmap_insert, Hf, list_insert_id; [done|]. by rewrite list_lookup_fmap, Hi. Qed.

Lemma install_block_spec n p c w w1 b b1 :
  stored_cache n c w → blocks c !! N.to_nat (p / LAYER_KV_BLOCK_TOKENS) = Some b →
  storages (block_world w1) = storages (block_world w) →
  CacheBlock.storage b1 = CacheBlock.storage b → CacheBlock.vector_len b1 = CacheBlock.vector_len b →
  CacheBlock.capacity_tokens b1 = CacheBlock.capacity_tokens b → CacheBlock.token_count b1 = CacheBlock.token_count b →
  (CacheBlock.id b1 = CacheBlock.id b ∨ 0 < CacheBlock.id b1) →
  ∃ bs tb runs,
    install_block (p / LAYER_KV_BLOCK_TOKENS) (CacheBlock.id b) b1 (c, w1) = (Ok tt, (with_blocks bs tb runs c, w1))
    ∧ exclusive_at n p c w bs tb runs (block_world w1) b1.
Proof.
  intros [Hb Hr] Hi Hw Hst Hvl Hcap Htc Hid. pose proof Hb as [_ _ _ Hids _]. pose proof (Hids _ _ Hi) as Hti.
  destruct (blocks_ok_rename _ _ _ _ _ (block_world w1) _ _ _ b1 Hb Hi Hw Hst Hvl Hcap Htc) as [Hb1 Hrow].
  pose proof (lookup_lt_Some _ _ _ Hi) as Hlt.
  set (i := p / LAYER_KV_BLOCK_TOKENS) in *.
  unfold install_block. run_method. destruct (N.eqb_spec (CacheBlock.id b1) (CacheBlock.id b)) as [He|Hne].
  - exists (<[N.to_nat i := b1]> (blocks c)), (block_table c), (active_block_runs c). split; [done|].
    rewrite He, (list_insert_id (BlockTable.blocks (block_table c)) _ (CacheBlock.id b)) in Hb1 by done. split; [by split|done|by eapply fmap_insert_same|done|].
    by apply list_lookup_insert_eq.
  - destruct Hid as [|Hpos]; [done|]. unfold BlockTable.replace, BlockId.is_invalid.
    rewrite (proj2 (N.eqb_neq _ 0)) by lia. rewrite Hti.
    destruct (rename_runs_ok _ _ i (CacheBlock.id b1) _ (ex_intro _ _ Hti) Hr) as [Hr1 Hf1].
    eexists (<[N.to_nat i := b1]> (blocks c)),
      (BlockTable.Make (<[N.to_nat i := CacheBlock.id b1]> (BlockTable.blocks (block_table c)))),
      (rename_runs i (CacheBlock.id b1) (active_block_runs c)). split; [done|].
    split; [by split|done|by eapply fmap_insert_same|done|]. by apply list_lookup_insert_eq.
Qed.

Lemma exclusive_block_spec n p c w :
  lworld_ok w → stored_cache n c w → p < max_tokens c →
  (ids_exhausted w ∧ exclusive_block p (c, w) = (Err InvalidShape, (c, w)))
  ∨ ∃ bs tb runs w' b,
      exclusive_block p (c, w)
        = (Ok (p / LAYER_KV_BLOCK_TOKENS, p mod LAYER_KV_BLOCK_TOKENS), (with_blocks bs tb runs c, w'))
      ∧ lworld_ok w' ∧ counters_grow w w' ∧ storages (block_world w') = storages (block_world w)
      ∧ exclusive_at n p c w bs tb runs (block_world w') b.
Proof.
  intros [Hw Hid] Hst Hp. pose proof Hst as [Hb Hr]. pose proof Hb as [_ _ _ Hids _].
  destruct (blocks_ok_lookup _ _ _ _ _ _ p Hb Hp) as [b Hi]. pose proof (Hids _ _ Hi) as Hti.
  assert (exclusive_block p (c, w) =
    (b1 ← on_world (CacheBlock.ensure_exclusive_identity b);
     _ ← install_block (p / LAYER_KV_BLOCK_TOKENS) (CacheBlock.id b) b1;
     mret (p / LAYER_KV_BLOCK_TOKENS, p mod LAYER_KV_BLOCK_TOKENS)) (c, w)) as ->.
  { unfold exclusive_block, install_block, physical_block_position, table_get, nth_block, BlockTable.get.
    run_method. rewrite (proj2 (N.leb_gt _ _)) by exact Hp. rewrite Hti, Hi, N.eqb_refl.
    destruct (CacheBlock.ensure_exclusive_identity b _) as [[b1|e|] bw]; [|done..].
    destruct (CacheBlock.id b1 =? _); [done|]. destruct (BlockTable.replace _ _ _) as [[? ?]|?|]; done. }
  destruct w as [cid bw]. cbn [block_world] in *.
  assert ((ids_exhausted (MkLWorld cid bw) ∧ CacheBlock.ensure_exclusive_identity b bw = (Err InvalidShape, bw))
    ∨ ∃ b1 bw1, CacheBlock.ensure_exclusive_identity b bw = (Ok b1, bw1)
      ∧ storages bw1 = storages bw ∧ next_block_id bw ≤ next_block_id bw1
      ∧ CacheBlock.storage b1 = CacheBlock.storage b ∧ CacheBlock.vector_len b1 = CacheBlock.vector_len b
      ∧ CacheBlock.capacity_tokens b1 = CacheBlock.capacity_tokens b
      ∧ CacheBlock.token_count b1 = CacheBlock.token_count b
      ∧ (CacheBlock.id b1 = CacheBlock.id b ∨ 0 < CacheBlock.id b1)) as [[Hex He]|(b1 & bw1 & He & Hs1 & Hn1 & H1 & H2 & H3 & H4 & H5)].
  { unfold CacheBlock.ensure_exclusive_identity. destruct (_ || _).
    - destruct (next_id_spec bw Hid) as [[Hex ->]|[Hlt ->]]; [by left|right].
      eexists _, _. split; [done|]. split_and!; try done; cbn; [lia|by right].
    - right. exists b, bw. split_and!; try done. by left. }
  - left. split; [done|]. run_method. cbn [block_world]. by rewrite He.
  - right. destruct (install_block_spec n p c (MkLWorld cid bw) (MkLWorld cid bw1) b b1 Hst Hi Hs1 H1 H2 H3 H4 H5)
      as (bs & tb & runs & Hrun & Hat).
    exists bs, tb, runs, (MkLWorld cid bw1), b1. split_and!; try done.
    + unfold on_world at 1. unfold mbind at 1, stm_bind. cbn [block_world snd fst cache_id_counter]. rewrite He.
      unfold mbind, stm_bind. by rewrite Hrun.
    + unfold lworld_ok, world_wf in *. cbn [block_world]. rewrite Hs1. split; [done|]. lia.
Qed.

(** ** Writing a row into its block *)

(** A block after one of its rows was written. *)
Record row_put (j count : N) (k v : list F32) (b : CacheBlock.t) (w : World) (b2 : CacheBlock.t) (w' : World) : Prop := {
  rp_write : CacheBlock.write_token j k v b w = Ok (CacheBlock.storage b2, w');
  rp_written : row_written j k v b w (CacheBlock.storage b2) w';
  rp_id : CacheBlock.id b2 = CacheBlock.id b;
  rp_vector : CacheBlock.vector_len b2 = CacheBlock.vector_len b;
  rp_capacity : CacheBlock.capacity_tokens b2 = CacheBlock.capacity_tokens b;
  rp_count : CacheBlock.token_count b2 = count;
}.

Lemma append_row_put k v b w :
  world_wf w → block_wf b w → CacheBlock.token_count b < CacheBlock.capacity_tokens b →
  N.of_nat (length k) = CacheBlock.vector_len b → N.of_nat (length v) = CacheBlock.vector_len b →
  ∃ b2 w', CacheBlock.append k v b w = Ok (CacheBlock.token_count b, b2, w')
    ∧ row_put (CacheBlock.token_count b) (CacheBlock.token_count b + 1) k v b w b2 w'.
Proof.
  intros Hw Hb Ht Hk Hv. unfold CacheBlock.append, CacheBlock.is_full.
  rewrite (proj2 (validate_token_shape_Ok k v b)) by done.
  destruct (write_token_spec _ k v b w Hw Hb Ht Hk Hv) as (l & w' & Heq & Hr).
  cbn [mbind outcome_bind]. rewrite (proj2 (N.eqb_neq _ _)) by lia. rewrite Heq. eexists _, _. split; [done|].
  destruct Hb as [(? & ? & ? & ?) _]. split; try done. cbn. apply wrap_add_small. nia.
Qed.

Lemma write_at_row_put j k v b w :
  world_wf w → block_wf b w → j < CacheBlock.token_count b →
  N.of_nat (length k) = CacheBlock.vector_len b → N.of_nat (length v) = CacheBlock.vector_len b →
  ∃ b2 w', CacheBlock.write_at j k v b w = Ok (b2, w') ∧ row_put j (CacheBlock.token_count b) k v b w b2 w'.
Proof.
  intros Hw Hb Ht Hk Hv. unfold CacheBlock.write_at.
  rewrite (proj2 (validate_token_shape_Ok k v b)) by done. pose proof Hb as [(? & ? & ? & ?) _].
  destruct (write_token_spec j k v b w Hw Hb ltac:(lia) Hk Hv) as (l & w' & Heq & Hr).
  cbn [mbind outcome_bind]. rewrite (proj2 (N.leb_gt _ _)) by lia. rewrite Heq. eexists _, _. split; [done|].
  by split.
Qed.

Record row_stored (n n' p : N) (k v : list F32) (c : LayerKvCache) (w : LWorld) (bs : list CacheBlock.t)
    (tb : BlockTable.t) (runs : list LayerKvCacheBlockRun) (w' : LWorld) : Prop := {
  rs_world : lworld_ok w';
  rs_counters : counters_grow w w';
  rs_stored : stored (max_tokens c) (vector_len c) n' bs tb runs (block_world w');
  rs_flat : flat_runs runs = flat_runs (active_block_runs c);
  rs_row : block_row bs (block_world w') p = Some (k, v);
  rs_rows : ∀ q, q < n → q ≠ p → block_row bs (block_world w') q = block_row (blocks c) (block_world w) q;
  rs_others : leaves_others (CacheBlock.storage <$> blocks c) (block_world w) (CacheBlock.storage <$> bs) (block_world w');
}.

Lemma row_put_stored n p count c w bs tb runs w1 b b2 bw2 k v :
  n ≤ max_tokens c → p < max_tokens c → p ≤ n → lworld_ok w1 → counters_grow w w1 →
  storages (block_world w1) = storages (block_world w) →
  exclusive_at n p c w bs tb runs (block_world w1) b →
  row_put (p mod LAYER_KV_BLOCK_TOKENS) count k v b (block_world w1) b2 bw2 →
  count = N.max (CacheBlock.token_count b) (p mod LAYER_KV_BLOCK_TOKENS + 1) →
  row_stored n (N.max n (p + 1)) p k v c w (<[N.to_nat (p / LAYER_KV_BLOCK_TOKENS) := b2]> bs) tb runs
    (MkLWorld (cache_id_counter w1) bw2).
Proof.
  intros Hn Hpm Hpn [Hw1 Hpos] [Hc1 Hc2] Hs [[Hb Hr] Hflat Hsto Hrows Hi] [Hwt Hwr Hid Hvl Hcap Htc] Hcount.
  destruct (blocks_ok_write _ _ _ _ _ _ _ _ _ _ _ _ Hb Hpm Hpn Hn Hi Hwr Hid Hvl Hcap) as (Hb2 & Hrow & Hother);
    [congruence|].
  split; cbn [block_world cache_id_counter].
  - split; [apply Hwr|]. cbn. by rewrite (rw_ids _ _ _ _ _ _ _ Hwr).
  - split; cbn; [done|]. by rewrite (rw_ids _ _ _ _ _ _ _ Hwr).
  - by split.
  - done.
  - done.
  - intros q Hq Hne. rewrite Hother by done. apply Hrows.
  - rewrite <- Hsto. eapply leaves_others_trans; [by apply (leaves_others_refl _ _ (block_world w1))|].
    eapply write_leaves_others; try done. apply Hb.
Qed.

(** Only the uncompressed caches: no mirror to refresh. *)
Definition plain (c : LayerKvCache) : Prop := int8_storage c = None ∧ quantized_values c = None.

Lemma refresh_plain i c w : plain c →
  refresh_int8_block i (c, w) = (Ok tt, (c, w)) ∧ refresh_quantized_block i (c, w) = (Ok tt, (c, w)).
Proof.
  intros [Hi Hq]. unfold refresh_int8_block, refresh_quantized_block. run_method. by rewrite Hi, Hq.
Qed.

Lemma append_block_token_spec p k v c w :
  plain c → lworld_ok w → stored_cache p c w → p < max_tokens c →
  N.of_nat (length k) = vector_len c → N.of_nat (length v) = vector_len c →
  (ids_exhausted w ∧ append_block_token p k v (c, w) = (Err InvalidShape, (c, w)))
  ∨ ∃ bs tb runs w', append_block_token p k v (c, w) = (Ok tt, (with_blocks bs tb runs c, w'))
      ∧ row_stored p (p + 1) p k v c w bs tb runs w'.
Proof.
  intros Hplain Hw Hst Hp Hk Hv. unfold append_block_token.
  destruct (exclusive_block_spec p p c w Hw Hst Hp) as [[Hex He]|(bs & tb & runs & w1 & b & He & Hw1 & Hc1 & Hs1 & Hat)].
  { left. split; [done|]. unfold mbind, stm_bind. by rewrite He. }
  right. rewrite (stm_bind_Ok _ _ _ _ _ He). pose proof Hat as [[Hb Hr] _ _ _ Hi].
  pose proof (bo_fits _ _ _ _ _ _ Hb _ _ Hi) as [Hbv Hbc Hbt].
  assert (CacheBlock.token_count b = p mod LAYER_KV_BLOCK_TOKENS
    ∧ CacheBlock.token_count b < CacheBlock.capacity_tokens b) as [Hpt Hroom].
  { rewrite Hbt, Hbc. clear -Hp. unfold LAYER_KV_BLOCK_TOKENS. rewrite N2Nat.id.
    pose proof (N.div_mod p 256 ltac:(lia)). pose proof (N.mod_lt p 256 ltac:(lia)). lia. }
  destruct (append_row_put k v b (block_world w1)) as (b2 & w2 & Ha & Hput);
    [apply Hw1|by eapply bo_wf|done|congruence|congruence|].
  exists (<[N.to_nat (p / LAYER_KV_BLOCK_TOKENS) := b2]> bs), tb, runs, (MkLWorld (cache_id_counter w1) w2). split.
  - unfold nth_block. run_method. change (blocks (with_blocks bs tb runs c)) with bs. rewrite Hi, Ha, Hpt, N.eqb_refl.
    destruct (refresh_plain (p / LAYER_KV_BLOCK_TOKENS)
      (set_block (p / LAYER_KV_BLOCK_TOKENS) b2 (with_blocks bs tb runs c)) (MkLWorld (cache_id_counter w1) w2)) as [-> ->]; done.
  - rewrite Hpt in Hput. replace (p + 1) with (N.max p (p + 1)) by lia. eapply row_put_stored; try done; lia.
Qed.

Lemma write_block_token_spec n p k v c w :
  plain c → lworld_ok w → stored_cache n c w → n ≤ max_tokens c → p < n →
  N.of_nat (length k) = vector_len c → N.of_nat (length v) = vector_len c →
  (ids_exhausted w ∧ write_block_token p k v (c, w) = (Err InvalidShape, (c, w)))
  ∨ ∃ bs tb runs w', write_block_token p k v (c, w) = (Ok tt, (with_blocks bs tb runs c, w'))
      ∧ row_stored n n p k v c w bs tb runs w'.
Proof.
  intros Hplain Hw Hst Hn Hp Hk Hv. unfold write_block_token.
  destruct (exclusive_block_spec n p c w Hw Hst) as [[Hex He]|(bs & tb & runs & w1 & b & He & Hw1 & Hc1 & Hs1 & Hat)]; [lia| |].
  { left. split; [done|]. unfold mbind, stm_bind. by rewrite He. }
  right. rewrite (stm_bind_Ok _ _ _ _ _ He). pose proof Hat as [[Hb Hr] _ _ _ Hi].
  pose proof (bo_fits _ _ _ _ _ _ Hb _ _ Hi) as [Hbv Hbc Hbt].
  assert (p mod LAYER_KV_BLOCK_TOKENS < CacheBlock.token_count b) as Hlt.
  { rewrite Hbt, Hbc. clear -Hp Hn. unfold LAYER_KV_BLOCK_TOKENS. rewrite N2Nat.id.
    pose proof (N.div_mod p 256 ltac:(lia)). pose proof (N.mod_lt p 256 ltac:(lia)). lia. }
  destruct (write_at_row_put (p mod LAYER_KV_BLOCK_TOKENS) k v b (block_world w1)) as (b2 & w2 & Ha & Hput);
    [apply Hw1|by eapply bo_wf|done|congruence|congruence|].
  exists (<[N.to_nat (p / LAYER_KV_BLOCK_TOKENS) := b2]> bs), tb, runs, (MkLWorld (cache_id_counter w1) w2). split.
  - unfold nth_block. run_method. change (blocks (with_blocks bs tb runs c)) with bs. rewrite Hi, Ha.
    destruct (refresh_plain (p / LAYER_KV_BLOCK_TOKENS)
      (set_block (p / LAYER_KV_BLOCK_TOKENS) b2 (with_blocks bs tb runs c)) (MkLWorld (cache_id_counter w1) w2)) as [-> ->]; done.
  - replace n with (N.max n (p + 1)) at 2 by lia. eapply row_put_stored; try done; lia.
Qed.

(** ** Staging copies *)

(** Row [p] of a staging copy. *)
Definition stage_row (vl : N) (stages : list F32 * list F32) (p : N) : option Row :=
  k ← slice stages.1 (p * vl) (p * vl + vl);
  v ← slice stages.2 (p * vl) (p * vl + vl);
  Some (k, v).

Definition stage_sized (max vl : N) (stages : list F32 * list F32) : Prop :=
  N.of_nat (length stages.1) = max * vl ∧ N.of_nat (length stages.2) = max * vl.

Lemma copy_stage_token_spec max vl p k v stages :
  max * vl ≤ u64_max → stage_sized max vl stages → p < max →
  N.of_nat (length k) = vl → N.of_nat (length v) = vl →
  ∃ stages', copy_stage_token vl p k v stages = Ok stages' ∧ stage_sized max vl stages'
    ∧ ∀ q, stage_row vl stages' q = if q =? p then Some (k, v) else stage_row vl stages q.
Proof.
  intros Hmax [Hk Hv] Hp Hlk Hlv. unfold copy_stage_token.
  rewrite Hlk, Hlv, N.eqb_refl. cbn [negb].
  assert (p * vl + vl ≤ max * vl) as Hle by nia.
  rewrite (proj2 (checked_mul_Some p vl _)) by (split; [done|lia]). cbn [ok_or mbind outcome_bind].
  rewrite (proj2 (checked_add_Some (p * vl) vl _)) by (split; [done|lia]). cbn [ok_or mbind outcome_bind].
  destruct (write_slice_is_Some stages.1 (p * vl) k) as [ks Hks]; [lia|].
  destruct (write_slice_is_Some stages.2 (p * vl) v) as [vs Hvs]; [lia|].
  rewrite Hks, Hvs. exists (ks, vs). split; [done|]. split.
  - unfold stage_sized. cbn. by rewrite (write_slice_length _ _ _ _ Hks), (write_slice_length _ _ _ _ Hvs).
  - intros q. unfold stage_row. cbn [fst snd].
    rewrite (slice_write_slice _ _ _ q p _ Hlk Hks), (slice_write_slice _ _ _ q p _ Hlv Hvs).
    by destruct (q =? p).
Qed.

Definition with_stages (stages : list F32 * list F32) (c : LayerKvCache) : LayerKvCache :=
  c <| key_stage := stages.1 |> <| value_stage := stages.2 |>.

Lemma write_stage_token_spec p k v c w :
  max_tokens c * vector_len c ≤ u64_max → stage_sized (max_tokens c) (vector_len c) (key_stage c, value_stage c) →
  p < max_tokens c → N.of_nat (length k) = vector_len c → N.of_nat (length v) = vector_len c →
  ∃ stages, write_stage_token p k v (c, w)
      = (Ok tt, (invalidate_contiguous_stage_views (with_stages stages c), w))
    ∧ stage_sized (max_tokens c) (vector_len c) stages
    ∧ ∀ q, stage_row (vector_len c) stages q
           = if q =? p then Some (k, v) else stage_row (vector_len c) (key_stage c, value_stage c) q.
Proof.
  intros Hmax Hs Hp Hk Hv. destruct (copy_stage_token_spec _ _ p k v _ Hmax Hs Hp Hk Hv) as ([ks vs] & Heq & Hsz & Hrow).
  exists (ks, vs). split; [|done]. unfold write_stage_token. run_method. by rewrite Heq.
Qed.

(** ** Runs of active rows *)

Definition with_runs (runs : list LayerKvCacheBlockRun) (c : LayerKvCache) : LayerKvCache :=
  c <| active_block_runs := runs |>.

Lemma append_active_block_run_spec n logical p c w :
  stored_cache n c w → p < max_tokens c →
  ∃ runs, append_active_block_run logical p (c, w) = (Ok tt, (with_runs runs c, w))
    ∧ Forall (run_ok (max_tokens c) (BlockTable.blocks (block_table c))) runs
    ∧ flat_runs runs = flat_runs (active_block_runs c) ++ [(logical, p)].
Proof.
  intros [Hb Hr] Hp. destruct (blocks_ok_lookup _ _ _ _ _ _ p Hb Hp) as [b Hi].
  pose proof (bo_ids _ _ _ _ _ _ Hb _ _ Hi) as Hti.
  eexists (push_run (p / LAYER_KV_BLOCK_TOKENS) (CacheBlock.id b) logical p (p mod LAYER_KV_BLOCK_TOKENS) (active_block_runs c)).
  split; [|by apply push_run_spec].
  unfold append_active_block_run, physical_block_position, table_get, nth_block, BlockTable.get.
  run_method. rewrite (proj2 (N.leb_gt _ _)) by exact Hp. rewrite Hti, Hi, N.eqb_refl. done.
Qed.

Lemma remove_oldest_spec ids c w x rest :
  max_tokens c ≤ u64_max → Forall (run_ok (max_tokens c) ids) (active_block_runs c) →
  flat_runs (active_block_runs c) = (0, x) :: rest → (∀ y, y ∈ rest → 0 < y.1) →
  ∃ runs, remove_oldest_active_block_token (c, w) = (Ok tt, (with_runs runs c, w))
    ∧ Forall (run_ok (max_tokens c) ids) runs ∧ flat_runs runs = (λ y, (y.1 - 1, y.2)) <$> rest.
Proof.
  intros Hmax Hok Hf Hpos. destruct (pop_run_spec _ _ _ _ _ Hok Hf Hpos) as (runs & Hp & Hr & Hfr).
  exists runs. split; [|done]. destruct (active_block_runs c) as [|first tl] eqn:He; [done|].
  unfold remove_oldest_active_block_token. run_method. rewrite He.
  apply Forall_cons in Hok as [[Hc Hb Hs Hi Hm Hx] _]. cbn [pop_run] in Hp.
  destruct (run_token_count first =? 1).
  - injection Hp as <-. done.
  - rewrite (proj2 (checked_add_Some (physical_token_start first) 1 _)) by (split; [done|lia]).
    rewrite (proj2 (checked_add_Some (block_token_start first) 1 _))
      by (split; [done|unfold LAYER_KV_BLOCK_TOKENS, u64_max in *; lia]).
    injection Hp as <-. done.
Qed.
End layer_ops.
