(* ===== verification/LayerKvWindow.v ===== *)
(** * The layer cache: a bounded sliding window of token rows

    The abstract state of an uncompressed layer cache is the list of its
    logical rows; [layer_repr] relates it to the ring of blocks, the staging
    copies, the active runs and the lazily built views, and the theorems show
    that every method implements the window. *)
From Stdlib Require Import ZifyN ZifyNat.
From stdpp Require Import base gmap sets numbers list.
From S2P Require Import Prelude KvTables CacheBlock KvFormat LayerKv LayerKvInv LayerKvOps.
Open Scope N_scope.
Open Scope record_scope.

(** ** The abstract window *)

(** The window of [max] rows after a row arrives. *)
Definition window_push {A} (max : N) (q : list A) (r : A) : list A :=
  (if N.of_nat (length q) <? max then q else tail q) ++ [r].

(** Where the logical row [i] is stored. *)
Definition position (c : LayerKvCache) (i : N) : N := (window_start c + i) mod max_tokens c.

(** A [Vec<f32>] never holds more than [isize::MAX] bytes. *)
Definition isize_max : N := 9223372036854775807.

Section layer_theorems.
Context `{F32Arith}.

Record layer_shape (c : LayerKvCache) : Prop := {
  sh_heads : 0 < key_value_heads c;
  sh_dim : 0 < head_dim c;
  sh_vector : vector_len c = key_value_heads c * head_dim c;
  sh_max : 0 < max_tokens c;
  sh_total : max_tokens c * vector_len c * 4 ≤ isize_max;
  sh_count : token_count c ≤ max_tokens c;
  sh_seen : token_count c ≤ tokens_seen c ≤ u64_max;
  sh_start : window_start c < max_tokens c;
  sh_unwrapped : token_count c < max_tokens c → window_start c = 0;
  sh_config : config c = config_f32;
  sh_plain : plain c;
  sh_stages : stage_sized (max_tokens c) (vector_len c) (key_stage c, value_stage c);
}.

Lemma shape_bounds c : layer_shape c →
  0 < vector_len c ∧ 2 * max_tokens c ≤ u64_max ∧ max_tokens c * vector_len c ≤ u64_max.
Proof.
  intros [Hh Hd Hv Hm Ht _ _ _ _ _ _ _].
  assert (0 < vector_len c) by (rewrite Hv; nia). unfold isize_max, u64_max in *. split_and!; nia.
Qed.

(** A view is either not built or holds the rows it is a view of. *)
Definition view_ok (view : option (list F32)) (rows : list (list F32)) : Prop :=
  view = None ∨ view = Some (mjoin rows).

(** The cache [c] stores the logical rows [q], oldest first. *)
Record layer_repr (c : LayerKvCache) (w : LWorld) (q : list Row) : Prop := {
  lr_shape : layer_shape c;
  lr_length : N.of_nat (length q) = token_count c;
  lr_stored : stored_cache (token_count c) c w;
  lr_flat : flat_runs (active_block_runs c) = (λ i, (i, position c i)) <$> range (token_count c);
  lr_block : ∀ i r, q !! i = Some r → block_row (blocks c) (block_world w) (position c (N.of_nat i)) = Some r;
  lr_stage : ∀ i r, q !! i = Some r →
    stage_row (vector_len c) (key_stage c, value_stage c) (position c (N.of_nat i)) = Some r;
  lr_key_view : view_ok (key_contiguous_view c) q.*1;
  lr_value_view : view_ok (value_contiguous_view c) q.*2;
}.

(** *** Positions *)
Lemma position_lt c i : 0 < max_tokens c → position c i < max_tokens c.
Proof. intros. apply N.mod_lt. lia. Qed.

Lemma ring_inj s i j max :
  s < max → i < max → j < max → (s + i) mod max = (s + j) mod max → i = j.
Proof.
  intros Hs Hi Hj Heq.
  assert (∀ k, k < max → (s + k) mod max = if s + k <? max then s + k else s + k - max) as Hm.
  { intros k Hk. destruct (N.ltb_spec (s + k) max); [by apply N.mod_small|].
    replace (s + k) with (s + k - max + 1 * max) at 1 by lia. rewrite N.Div0.mod_add. apply N.mod_small. lia. }
  rewrite !Hm in Heq by done. destruct (N.ltb_spec (s + i) max), (N.ltb_spec (s + j) max); lia.
Qed.

Lemma position_inj c i j :
  window_start c < max_tokens c → i < max_tokens c → j < max_tokens c → position c i = position c j → i = j.
Proof. apply ring_inj. Qed.

Lemma position_unwrapped c i : window_start c = 0 → i < max_tokens c → position c i = i.
Proof. intros Hs Hi. unfold position. rewrite Hs. by apply N.mod_small. Qed.

(** ** Appending a row

    The cache after the row [p] was stored, staged and added to the runs. *)
Definition advanced (bs : list CacheBlock.t) (tb : BlockTable.t) (stages : list F32 * list F32)
    (runs : list LayerKvCacheBlockRun) (c : LayerKvCache) : LayerKvCache :=
  with_runs runs (invalidate_contiguous_stage_views (with_stages stages (with_blocks bs tb runs c))).

(** What a successful append to [c] leaves, [p] being the row it wrote. *)
Record pushed (c : LayerKvCache) (w : LWorld) (q : list Row) (p : N)
    (a : LayerKvCacheAppend) (c' : LayerKvCache) (w' : LWorld) : Prop := {
  pu_repr : layer_repr c' w' q;
  pu_world : lworld_ok w';
  pu_counters : counters_grow w w';
  pu_seen : tokens_seen c' = tokens_seen c + 1;
  pu_revision : revision c' = sat_add (revision c) 1;
  pu_same : cache_id c' = cache_id c ∧ max_tokens c' = max_tokens c
            ∧ key_value_heads c' = key_value_heads c ∧ head_dim c' = head_dim c;
  pu_append : a = MkAppend (token_count c' - 1) p (token_count c') (tokens_seen c') (revision c');
  pu_position : p = position c' (token_count c' - 1);
  pu_others : leaves_others (CacheBlock.storage <$> blocks c) (block_world w)
                (CacheBlock.storage <$> blocks c') (block_world w');
}.

(** The error of an append that changed nothing. *)
Definition append_refused (c : LayerKvCache) (w : LWorld) (e : KvCacheError) (s : LayerKvCache * LWorld) : Prop :=
  e = InvalidShape ∧ s = (c, w) ∧ (tokens_seen c = u64_max ∨ ids_exhausted w).

Lemma repr_positions c w q i :
  layer_repr c w q → (i < length q)%nat → position c (N.of_nat i) < max_tokens c.
Proof. intros Hr _. apply position_lt. apply Hr. Qed.

Lemma lookup_snoc_Some {A} (l : list A) x i y :
  (l ++ [x]) !! i = Some y → (l !! i = Some y ∧ (i < length l)%nat) ∨ (i = length l ∧ y = x).
Proof.
  intros [Hl|[Hge Hl]]%lookup_app_Some; [left; split; [done|by eapply lookup_lt_Some]|right].
  destruct (i - length l)%nat as [|n] eqn:E; [|done]. cbn in Hl. split; [lia|congruence].
Qed.

Lemma position_stored c i :
  layer_shape c → i < token_count c → position c i < token_count c.
Proof.
  intros Hs Hi. pose proof (sh_count _ Hs). destruct (N.lt_ge_cases (token_count c) (max_tokens c)) as [Hlt|Hge].
  - rewrite position_unwrapped; [done|by apply sh_unwrapped|lia].
  - pose proof (position_lt c i (sh_max _ Hs)). lia.
Qed.

(** The cache an append ends with. *)
Definition settled (bs : list CacheBlock.t) (tb : BlockTable.t) (stages : list F32 * list F32)
    (runs : list LayerKvCacheBlockRun) (count seen start : N) (c : LayerKvCache) : LayerKvCache :=
  advanced bs tb stages runs c <| token_count := count |> <| window_start := start |>
    <| tokens_seen := seen |> <| revision ::= λ n, sat_add n 1 |>.

Lemma settled_repr c w q p k v bs tb runs0 w' stages runs count seen start q' :
  layer_repr c w q →
  row_stored (token_count c) count p k v c w bs tb runs0 w' →
  stage_sized (max_tokens c) (vector_len c) stages →
  (∀ i, stage_row (vector_len c) stages i
        = if i =? p then Some (k, v) else stage_row (vector_len c) (key_stage c, value_stage c) i) →
  Forall (run_ok (max_tokens c) (BlockTable.blocks tb)) runs →
  N.of_nat (length q') = count → count ≤ max_tokens c → count ≤ seen ≤ u64_max →
  start < max_tokens c → (count < max_tokens c → start = 0) →
  let c' := settled bs tb stages runs count seen start c in
  flat_runs runs = (λ i, (i, position c' i)) <$> range count →
  (∀ i r, q' !! i = Some r →
     (r = (k, v) ∧ position c' (N.of_nat i) = p)
     ∨ ∃ j, q !! j = Some r ∧ position c' (N.of_nat i) = position c (N.of_nat j) ∧ position c (N.of_nat j) ≠ p) →
  layer_repr c' w' q'.
Proof.
  intros Hr Hrs Hsz Hst Hruns Hlen Hcount Hseen Hstart Hzero c' Hflat Hrows.
  pose proof (lr_shape _ _ _ Hr) as Hshape. split.
  - destruct Hshape. by split.
  - done.
  - split; [|exact Hruns]. apply Hrs.
  - exact Hflat.
  - intros i r Hi. change (blocks c') with bs. destruct (Hrows i r Hi) as [[-> ->]|(j & Hj & -> & Hne)].
    + apply Hrs.
    + rewrite (rs_rows _ _ _ _ _ _ _ _ _ _ _ Hrs); [by eapply lr_block| |done].
      apply position_stored; [done|]. rewrite <- (lr_length _ _ _ Hr). apply lookup_lt_Some in Hj. lia.
  - intros i r Hi. change (stage_row (vector_len c) (stages.1, stages.2) (position c' (N.of_nat i)) = Some r).
    rewrite <- surjective_pairing, Hst. destruct (Hrows i r Hi) as [[-> ->]|(j & Hj & -> & Hne)].
    + by rewrite N.eqb_refl.
    + rewrite (proj2 (N.eqb_neq _ _)) by done. by eapply lr_stage.
  - by left.
  - by left.
Qed.

Lemma repr_append c w q k v i r :
  layer_repr c w q → token_count c < max_tokens c → (q ++ [(k, v)]) !! i = Some r →
  (r = (k, v) ∧ N.of_nat i = token_count c)
  ∨ q !! i = Some r ∧ N.of_nat i < token_count c.
Proof.
  intros Hr Ht Hi. pose proof (lr_length _ _ _ Hr).
  apply lookup_snoc_Some in Hi as [[Hl Hlt]|[-> ->]]; [right|left]; split; try done; lia.
Qed.

Lemma append_at_end_spec c w q k v :
  layer_repr c w q → lworld_ok w → token_count c < max_tokens c →
  N.of_nat (length k) = vector_len c → N.of_nat (length v) = vector_len c →
  match append_at_end_validated k v (c, w) with
  | (Ok a, (c', w')) => tokens_seen c < u64_max
      ∧ pushed c w (q ++ [(k, v)]) (token_count c) a c' w'
  | (Err e, s) => append_refused c w e s
  | (Panic, _) => False
  end.
Proof.
  intros Hr Hw Ht Hk Hv. pose proof (lr_shape _ _ _ Hr) as Hs. set (p := token_count c) in *.
  destruct (shape_bounds c Hs) as (Hvl & Hmax & Htot). pose proof (sh_unwrapped _ Hs Ht) as Hws.
  pose proof (sh_seen _ Hs) as Hseen. fold p in Hseen.
  unfold append_at_end_validated. run_method. fold p. rewrite (proj2 (N.eqb_neq _ _)) by lia.
  destruct (checked_add (tokens_seen c) 1) as [seen|] eqn:Hc.
  2:{ split; [done|]. split; [done|]. left. unfold checked_add in Hc. case_match; [done|]. bool_to_prop. lia. }
  apply checked_add_Some in Hc as [-> Hc].
  destruct (append_block_token_spec p k v c w (sh_plain _ Hs) Hw (lr_stored _ _ _ Hr) Ht Hk Hv)
    as [[Hex ->]|(bs & tb & runs0 & w' & -> & Hrs)]; [by split_and!; [| |right]|].
  destruct (write_stage_token_spec p k v (with_blocks bs tb runs0 c) w') as (stages & -> & Hsz & Hst);
    [done|apply Hs|done|done|done|].
  set (c2 := invalidate_contiguous_stage_views (with_stages stages (with_blocks bs tb runs0 c))).
  destruct (append_active_block_run_spec (p + 1) p p c2 w') as (runs & -> & Hruns & Hflat); [apply Hrs|done|].
  assert (wrap_add p 1 = p + 1) as Hwrap by (apply wrap_add_small; lia).
  change (match (Ok (appended p p (settled bs tb stages runs (wrap_add p 1) (tokens_seen c + 1) (window_start c) c)),
                 (settled bs tb stages runs (wrap_add p 1) (tokens_seen c + 1) (window_start c) c, w')) with
    | (Ok a, (c'0, w'0)) => tokens_seen c < u64_max ∧ pushed c w (q ++ [(k, v)]) p a c'0 w'0
    | (Err e, s) => append_refused c w e s
    | (Panic, _) => False end).
  rewrite Hwrap. set (c' := settled bs tb stages runs (p + 1) (tokens_seen c + 1) (window_start c) c).
  cbv beta iota. split; [lia|].
  split; try done; try apply Hrs.
  - unfold c'. eapply settled_repr; try done; try lia.
    + rewrite length_app. pose proof (lr_length _ _ _ Hr). cbn [length]. lia.
    + fold c'. rewrite Hflat, range_S, fmap_app. f_equal.
      * etrans; [apply Hrs|apply (lr_flat _ _ _ Hr)].
      * cbn [fmap list_fmap]. f_equal. f_equal. symmetry. by apply (position_unwrapped c).
    + fold c'. intros i r Hi. destruct (repr_append _ _ _ _ _ _ _ Hr Ht Hi) as [[-> Hp]|[Hq Hp]].
      * left. split; [done|]. rewrite Hp. by apply (position_unwrapped c).
      * right. exists i. split; [done|]. split; [done|]. rewrite position_unwrapped by (done || lia). lia.
  - change (MkAppend p p (p + 1) (tokens_seen c + 1) (sat_add (revision c) 1)
            = MkAppend (p + 1 - 1) p (p + 1) (tokens_seen c + 1) (sat_add (revision c) 1)). f_equal. lia.
  - change (p = position c (p + 1 - 1)). rewrite position_unwrapped; [lia|done|lia].
Qed.

(** *** A full window slides *)
Lemma slid_position c start i :
  window_start c < max_tokens c → max_tokens c ≤ u64_max →
  start = wrap_add (window_start c) 1 mod max_tokens c →
  (start + i) mod max_tokens c = position c (i + 1).
Proof.
  intros Hs Hm ->. unfold position. rewrite wrap_add_small by lia.
  rewrite N.Div0.add_mod_idemp_l. f_equal. lia.
Qed.

Lemma position_full c : window_start c < max_tokens c → position c (max_tokens c) = position c 0.
Proof.
  intros Hs. unfold position. rewrite N.add_0_r. replace (window_start c + max_tokens c) with (window_start c + 1 * max_tokens c) by lia.
  apply N.Div0.mod_add.
Qed.

Lemma validate_append_ok k v c :
  plain c → N.of_nat (length k) = vector_len c → N.of_nat (length v) = vector_len c →
  validate_token_shape k v c = Ok tt ∧ validate_compressed_token_payload k v c = Ok tt.
Proof.
  intros [Hi Hq] Hk Hv. unfold validate_token_shape, validate_compressed_token_payload.
  by rewrite Hk, Hv, N.eqb_refl, Hi, Hq.
Qed.

Lemma slide_spec c w q k v :
  layer_repr c w q → lworld_ok w → token_count c = max_tokens c →
  N.of_nat (length k) = vector_len c → N.of_nat (length v) = vector_len c →
  match append_sliding_with_metadata k v (c, w) with
  | (Ok a, (c', w')) => tokens_seen c < u64_max
      ∧ pushed c w (tail q ++ [(k, v)]) (window_start c) a c' w'
  | (Err e, s) => append_refused c w e s
  | (Panic, _) => False
  end.
Proof.
  intros Hr Hw Ht Hk Hv. pose proof (lr_shape _ _ _ Hr) as Hs. pose proof (lr_length _ _ _ Hr) as Hlen.
  destruct (shape_bounds c Hs) as (Hvl & Hmax & Htot). pose proof (sh_start _ Hs) as Hstart.
  pose proof (sh_max _ Hs) as Hpos. pose proof (sh_seen _ Hs) as Hseen.
  destruct (validate_append_ok k v c (sh_plain _ Hs) Hk Hv) as [Hv1 Hv2].
  unfold append_sliding_with_metadata, validate_sliding_append. run_method. rewrite Hv1. cbn [outcome_bind].
  rewrite Hv2, (proj2 (N.ltb_ge _ _)) by lia. set (p := window_start c) in *.
  destruct (checked_add (tokens_seen c) 1) as [seen|] eqn:Hc.
  2:{ split; [done|]. split; [done|]. left. unfold checked_add in Hc. case_match; [done|]. bool_to_prop. lia. }
  apply checked_add_Some in Hc as [-> Hc].
  destruct (write_block_token_spec (token_count c) p k v c w (sh_plain _ Hs) Hw (lr_stored _ _ _ Hr) ltac:(lia) ltac:(lia) Hk Hv)
    as [[Hex ->]|(bs & tb & runs0 & w' & -> & Hrs)]; [by split_and!; [| |right]|].
  destruct (write_stage_token_spec p k v (with_blocks bs tb runs0 c) w') as (stages & -> & Hsz & Hst);
    [done|apply Hs|done|done|done|].
  set (c2 := invalidate_contiguous_stage_views (with_stages stages (with_blocks bs tb runs0 c))).
  assert (flat_runs runs0 = (0, p) :: ((λ i, (i + 1, position c (i + 1))) <$> range (max_tokens c - 1))) as Hf0.
  { etrans; [apply Hrs|]. etrans; [apply (lr_flat _ _ _ Hr)|]. rewrite Ht, (range_cons (max_tokens c)) by done.
    cbn [fmap list_fmap]. f_equal; [|by rewrite <- list_fmap_compose]. f_equal. unfold position.
    rewrite N.add_0_r. by apply N.mod_small. }
  destruct (remove_oldest_spec (BlockTable.blocks tb) c2 w' _ _ ltac:(change (max_tokens c2) with (max_tokens c); lia) (st_runs _ _ _ _ _ _ _ (rs_stored _ _ _ _ _ _ _ _ _ _ _ Hrs)) Hf0)
    as (runs1 & -> & Hruns1 & Hf1).
  { intros y (i & -> & _)%list_elem_of_fmap. cbn. lia. }
  destruct (append_active_block_run_spec (token_count c) (wrap_sub (max_tokens c) 1) p (with_runs runs1 c2) w')
    as (runs & -> & Hruns & Hflat); [split; [apply Hrs|done]|done|].
  set (start := wrap_add p 1 mod max_tokens c).
  change (match (Ok (appended (wrap_sub (max_tokens c) 1) p (settled bs tb stages runs (token_count c) (tokens_seen c + 1) start c)),
                 (settled bs tb stages runs (token_count c) (tokens_seen c + 1) start c, w')) with
    | (Ok a, (c'0, w'0)) => tokens_seen c < u64_max ∧ pushed c w (tail q ++ [(k, v)]) p a c'0 w'0
    | (Err e, s) => append_refused c w e s
    | (Panic, _) => False end).
  cbv beta iota.
  assert (∀ i, (start + i) mod max_tokens c = position c (i + 1)) as Hpos'.
  { intros i. apply slid_position; [done|lia|done]. }
  assert (wrap_sub (max_tokens c) 1 = max_tokens c - 1) as Hsub by (apply wrap_sub_small; lia).
  rewrite Hsub in *.
  assert (position c (max_tokens c - 1 + 1) = p) as Hlast.
  { rewrite N.sub_add by lia. rewrite position_full by done. unfold position. rewrite N.add_0_r. by apply N.mod_small. }
  assert (N.of_nat (length (tail q ++ [(k, v)])) = token_count c) as Hlen'.
  { rewrite length_app. cbn [length]. destruct q; cbn [tail length] in *; lia. }
  set (c' := settled bs tb stages runs (token_count c) (tokens_seen c + 1) start c).
  split; [lia|].
  assert (layer_repr c' w' (tail q ++ [(k, v)])) as Hr'.
  { unfold c'. eapply settled_repr; try done; try lia.
    - rewrite Hflat. change (flat_runs (active_block_runs (with_runs runs1 c2))) with (flat_runs runs1).
      rewrite Hf1, <- list_fmap_compose, Ht. replace (range (max_tokens c)) with (range (max_tokens c - 1 + 1)) by (f_equal; lia).
      rewrite range_S, fmap_app. f_equal.
      + apply list_fmap_ext. intros i x _. cbn [fst snd compose].
        change (position (settled bs tb stages runs (max_tokens c) (tokens_seen c + 1) start c) x) with ((start + x) mod max_tokens c).
        rewrite Hpos'. f_equal. lia.
      + cbn [fmap list_fmap]. do 2 f_equal. symmetry. etrans; [apply Hpos'|exact Hlast].
    - intros i r Hi. fold c'. change (position c' (N.of_nat i)) with ((start + N.of_nat i) mod max_tokens c).
      rewrite Hpos'. apply lookup_snoc_Some in Hi as [[Hi Hlt]|[-> ->]].
      + right. exists (S i). rewrite lookup_tail in Hi. split; [done|]. rewrite Nat2N.inj_succ, <- N.add_1_r. split; [done|].
        intros Heq. apply lookup_lt_Some in Hi.
        assert (position c (N.of_nat i + 1) = position c 0) as Heq0.
        { rewrite Heq. unfold position. rewrite N.add_0_r. symmetry. by apply N.mod_small. }
        apply position_inj in Heq0; [lia|done|lia|done].
      + left. split; [done|]. replace (N.of_nat (length (tail q))) with (max_tokens c - 1); [done|].
        rewrite length_app in Hlen'. cbn [length] in Hlen'. lia. }
  split; try done; try apply Hrs.
  - change (MkAppend (max_tokens c - 1) p (token_count c) (tokens_seen c + 1) (sat_add (revision c) 1)
            = MkAppend (token_count c - 1) p (token_count c) (tokens_seen c + 1) (sat_add (revision c) 1)). by rewrite Ht.
  - change (p = (start + (token_count c - 1)) mod max_tokens c). by rewrite Hpos', Ht.
Qed.

(** ** Reading *)
Lemma slice_append {A} (l : list A) x y z a b :
  slice l x y = Some a → slice l y z = Some b → slice l x z = Some (a ++ b).
Proof.
  unfold slice. intros Ha Hb. case_match eqn:E1; [|done]. case_match eqn:E2; [|done]. simplify_eq.
  bool_to_prop. rewrite !(proj2 (N.leb_le _ _)) by lia. cbn. f_equal.
  replace (N.to_nat (z - x)) with (N.to_nat (y - x) + N.to_nat (z - y))%nat by lia.
  rewrite <- (take_take_drop (drop (N.to_nat x) l)), drop_drop. do 3 f_equal. lia.
Qed.

Lemma slice_empty {A} (l : list A) x : x ≤ N.of_nat (length l) → slice l x x = Some [].
Proof. intros Hx. unfold slice. rewrite !(proj2 (N.leb_le _ _)) by lia. cbn. by rewrite N.sub_diag. Qed.

(** Consecutive rows of a buffer, read at once. *)
Lemma slice_rows (st : list F32) vl a (rows : list (list F32)) :
  (a + N.of_nat (length rows)) * vl ≤ N.of_nat (length st) →
  (∀ i r, rows !! i = Some r → slice st ((a + N.of_nat i) * vl) ((a + N.of_nat i) * vl + vl) = Some r) →
  slice st (a * vl) (a * vl + N.of_nat (length rows) * vl) = Some (mjoin rows).
Proof.
  revert a. induction rows as [|r rows IH]; intros a Hlen Hrows.
  - cbn. rewrite N.add_0_r. apply slice_empty. cbn in Hlen. lia.
  - change (mjoin (r :: rows)) with (r ++ mjoin rows).
    apply (slice_append _ _ (a * vl + vl)).
    + specialize (Hrows 0%nat r eq_refl). cbn in Hrows. by rewrite N.add_0_r in Hrows.
    + replace (a * vl + N.of_nat (length (r :: rows)) * vl) with ((a + 1) * vl + N.of_nat (length rows) * vl)
        by (cbn [length]; lia).
      replace (a * vl + vl) with ((a + 1) * vl) by lia. apply IH.
      * cbn [length] in Hlen. lia.
      * intros i r' Hi. replace (a + 1 + N.of_nat i) with (a + N.of_nat (S i)) by lia. by apply Hrows.
Qed.

Lemma lookup_row_spec c w q i :
  layer_repr c w q →
  key i c w = Ok (fst <$> q !! N.to_nat i) ∧ value i c w = Ok (snd <$> q !! N.to_nat i).
Proof.
  intros Hr. pose proof (lr_shape _ _ _ Hr) as Hs. pose proof (lr_length _ _ _ Hr) as Hlen.
  destruct (shape_bounds c Hs) as (Hvl & Hmax & Htot). pose proof (sh_start _ Hs). pose proof (sh_count _ Hs).
  unfold key, value, lookup_row, block_position. destruct (N.leb_spec (token_count c) i) as [Hge|Hlt].
  { rewrite lookup_ge_None_2 by lia. done. }
  destruct (lookup_lt_is_Some_2 q (N.to_nat i)) as [[k v] Hq]; [lia|]. rewrite Hq.
  pose proof (lr_block _ _ _ Hr _ _ Hq) as Hb. rewrite N2Nat.id in Hb.
  assert (wrap_add (window_start c) i mod max_tokens c = position c i) as ->.
  { unfold position. by rewrite wrap_add_small by lia. }
  unfold physical_block_position. rewrite (proj2 (N.leb_gt _ _)) by (by apply position_lt, sh_max).
  unfold block_row in Hb. destruct (blocks c !! _) as [b|] eqn:Hi; [|done]. cbn [mbind option_bind] in Hb.
  unfold table_get, BlockTable.get, nth_block.
  rewrite (bo_ids _ _ _ _ _ _ (st_blocks _ _ _ _ _ _ _ (lr_stored _ _ _ Hr)) _ _ Hi), Hi, N.eqb_refl.
  destruct (CacheBlock.key _ b _) as [[?|]|?|]; [|done..]. destruct (CacheBlock.value _ b _) as [[?|]|?|]; [|done..].
  by injection Hb as -> ->.
Qed.

(** The staged copy of either component, [f] selecting it. *)
Lemma contiguous_stage_view_spec c w q storage view (f : Row → list F32) :
  layer_repr c w q → N.of_nat (length storage) = max_tokens c * vector_len c →
  (∀ i r, q !! i = Some r →
     slice storage (position c (N.of_nat i) * vector_len c)
       (position c (N.of_nat i) * vector_len c + vector_len c) = Some (f r)) →
  view_ok view (f <$> q) →
  ∃ view', contiguous_stage_view storage view c = Some (mjoin (f <$> q), view') ∧ view_ok view' (f <$> q).
Proof.
  intros Hr Hst Hrows Hview. pose proof (lr_shape _ _ _ Hr) as Hs. pose proof (lr_length _ _ _ Hr) as Hlen.
  destruct (shape_bounds c Hs) as (Hvl & Hmax & Htot). pose proof (sh_start _ Hs) as Hstart. pose proof (sh_count _ Hs) as Hcount.
  set (vl := vector_len c) in *. set (start := window_start c) in *. set (first := max_tokens c - start).
  assert (start * vl ≤ max_tokens c * vl) as Hb1 by nia.
  assert (token_count c * vl ≤ max_tokens c * vl) as Hb2 by nia.
  assert (first * vl = max_tokens c * vl - start * vl) as Hb3 by (unfold first; apply N.mul_sub_distr_r).
  unfold contiguous_stage_view, used_len. fold vl start.
  rewrite wrap_sub_small by lia. fold first. rewrite !wrap_mul_small by lia.
  assert (∀ base a rows, base + N.of_nat (length rows) ≤ max_tokens c →
    (∀ i r, rows !! i = Some r → ∃ r', (f <$> q) !! (a + i)%nat = Some r' ∧ r = r' ∧ position c (N.of_nat (a + i)) = base + N.of_nat i) →
    slice storage (base * vl) (base * vl + N.of_nat (length rows) * vl) = Some (mjoin rows)) as Hpart.
  { intros base a rows Hfit Hsame. apply slice_rows; [rewrite Hst; nia|].
    intros i r Hi. destruct (Hsame i r Hi) as (r' & Hr' & -> & Hp).
    rewrite list_lookup_fmap in Hr'. destruct (q !! _) as [x|] eqn:Hq; [|done]. cbn in Hr'. injection Hr' as <-.
    rewrite <- Hp. by apply Hrows. }
  destruct (N.leb_spec (token_count c) first) as [Hle|Hgt].
  - exists view. split; [|done]. assert (token_count c * vl ≤ first * vl) by (by apply N.mul_le_mono_r).
    rewrite wrap_add_small by lia.
    rewrite <- Hlen, <- (length_fmap f q), (Hpart start 0%nat); [done| |].
    + rewrite length_fmap. unfold first in Hle. lia.
    + intros i r Hi. exists r. split_and!; [done|done|]. apply lookup_lt_Some in Hi. rewrite length_fmap in Hi.
      unfold position. apply N.mod_small. fold start. unfold first in Hle. lia.
  - assert (token_count c = max_tokens c) as Hfull.
    { destruct (N.lt_ge_cases (token_count c) (max_tokens c)) as [Hl|]; [|lia].
      pose proof (sh_unwrapped _ Hs Hl). unfold first, start in *. lia. }
    destruct Hview as [-> | ->]; [|eexists; split; [done|by right]].
    rewrite wrap_sub_small by lia. rewrite wrap_add_small by lia.
    assert (N.of_nat (length (f <$> q)) = max_tokens c) as Hlq by (rewrite length_fmap; lia).
    set (rows1 := take (N.to_nat first) (f <$> q)). set (rows2 := drop (N.to_nat first) (f <$> q)).
    assert (N.of_nat (length rows1) = first) as Hl1 by (unfold rows1, first; rewrite length_take; lia).
    assert (N.of_nat (length rows2) = start) as Hl2 by (unfold rows2, first; rewrite length_drop; lia).
    assert (slice storage (start * vl) (start * vl + first * vl) = Some (mjoin rows1)) as ->.
    { rewrite <- Hl1. apply (Hpart start 0%nat); [unfold first in *; lia|].
      intros i r Hi. apply lookup_take_Some in Hi as [Hi Hlt]. exists r. split_and!; [done|done|].
      unfold position. apply N.mod_small. fold start. unfold first in *. lia. }
    assert (slice storage 0 (token_count c * vl - first * vl) = Some (mjoin rows2)) as ->.
    { replace (token_count c * vl - first * vl) with (0 * vl + start * vl) by (rewrite Hfull; nia).
      change 0 with (0 * vl) at 1. rewrite <- Hl2. apply (Hpart 0 (N.to_nat first)); [unfold first in *; lia|].
      intros i r Hi. unfold rows2 in Hi. rewrite lookup_drop in Hi. exists r. split_and!; [done|done|].
      apply lookup_lt_Some in Hi. unfold position. fold start.
      replace (start + N.of_nat (N.to_nat first + i)) with (N.of_nat i + 1 * max_tokens c) by (unfold first in *; lia).
      rewrite N.Div0.mod_add. apply N.mod_small. unfold first in *. lia. }
    cbn [mbind option_bind]. rewrite <- join_app. unfold rows1, rows2. rewrite take_drop.
    eexists. split; [done|by right].
Qed.

(** Filling a lazy view changes nothing else. *)
Lemma with_views_repr c w q kv vv :
  layer_repr c w q → view_ok kv q.*1 → view_ok vv q.*2 →
  layer_repr (c <| key_contiguous_view := kv |> <| value_contiguous_view := vv |>) w q.
Proof.
  intros [Hs Hl Hst Hf Hb Hsr _ _] Hk Hv. split; try done. destruct Hs. by split.
Qed.

Lemma stage_row_parts c w q i r :
  layer_repr c w q → q !! i = Some r →
  slice (key_stage c) (position c (N.of_nat i) * vector_len c) (position c (N.of_nat i) * vector_len c + vector_len c) = Some r.1
  ∧ slice (value_stage c) (position c (N.of_nat i) * vector_len c) (position c (N.of_nat i) * vector_len c + vector_len c) = Some r.2.
Proof.
  intros Hr Hi. pose proof (lr_stage _ _ _ Hr _ _ Hi) as Hst. unfold stage_row in Hst. cbn [fst snd] in Hst.
  destruct (slice (key_stage c) _ _) as [k|]; [|done]. destruct (slice (value_stage c) _ _) as [v|]; [|done].
  cbn [mbind option_bind] in Hst. by injection Hst as <-.
Qed.

Lemma keys_spec c w q :
  layer_repr c w q →
  ∃ view, keys c = Some (mjoin q.*1, c <| key_contiguous_view := view |>)
    ∧ layer_repr (c <| key_contiguous_view := view |>) w q.
Proof.
  intros Hr. destruct (contiguous_stage_view_spec c w q (key_stage c) (key_contiguous_view c) fst Hr) as (view & Heq & Hv).
  - apply (sh_stages _ (lr_shape _ _ _ Hr)).
  - intros i r Hi. by eapply stage_row_parts.
  - apply Hr.
  - exists view. split; [unfold keys; by rewrite Heq|].
    apply (with_views_repr c w q view (value_contiguous_view c) Hr Hv). apply Hr.
Qed.

Lemma values_spec c w q :
  layer_repr c w q →
  ∃ view, values c = Some (mjoin q.*2, c <| value_contiguous_view := view |>)
    ∧ layer_repr (c <| value_contiguous_view := view |>) w q.
Proof.
  intros Hr. destruct (contiguous_stage_view_spec c w q (value_stage c) (value_contiguous_view c) snd Hr) as (view & Heq & Hv).
  - apply (sh_stages _ (lr_shape _ _ _ Hr)).
  - intros i r Hi. by eapply stage_row_parts.
  - apply Hr.
  - exists view. split; [unfold values; by rewrite Heq|].
    apply (with_views_repr c w q (key_contiguous_view c) view Hr); [apply Hr|done].
Qed.

Lemma snapshot_spec c w q :
  layer_repr c w q →
  ∃ c', snapshot c = Some (MkSnapshot (revision c) (config c) (max_tokens c) (key_value_heads c) (head_dim c)
                             (token_count c) (tokens_seen c) (mjoin q.*1) (mjoin q.*2), c')
    ∧ layer_repr c' w q.
Proof.
  intros Hr. destruct (keys_spec c w q Hr) as (kv & Hk & Hr1). destruct (values_spec _ w q Hr1) as (vv & Hv & Hr2).
  unfold snapshot. rewrite Hk. cbn [mbind option_bind]. rewrite Hv. cbn [mbind option_bind].
  eexists. by split.
Qed.

(** ** The active blocks *)
Lemma range_app a b : range (a + b) = range a ++ ((λ t, a + t) <$> range b).
Proof.
  unfold range. rewrite N2Nat.inj_add, seq_app, fmap_app. f_equal. cbn [Nat.add].
  rewrite <- (Nat.add_0_r (N.to_nat a)) at 1. rewrite <- fmap_add_seq, <- !list_fmap_compose.
  apply list_fmap_ext. intros i x _. cbn. lia.
Qed.
Lemma size_range n : N.of_nat (length (range n)) = n.
Proof. unfold range. rewrite length_fmap, length_seq. lia. Qed.

(** The rows of a run, as a segment of the window. *)
Definition run_segment {A} (q : list A) (r : LayerKvCacheBlockRun) : list A :=
  take (N.to_nat (run_token_count r)) (drop (N.to_nat (logical_token_start r)) q).

Lemma run_segments {A} (q : list A) runs a n :
  Forall (λ r, 0 < run_token_count r) runs →
  (flat_runs runs).*1 = (λ t, a + t) <$> range n →
  runs ≫= run_segment q = take (N.to_nat n) (drop (N.to_nat a) q).
Proof.
  intros Hpos. revert a n. induction Hpos as [|r runs Hr Hruns IH]; intros a n Hf.
  - cbn in Hf. apply (f_equal length) in Hf. rewrite length_fmap in Hf. cbn in Hf.
    pose proof (size_range n). replace n with 0 by lia. done.
  - unfold flat_runs in Hf. cbn [mbind list_bind] in Hf |- *. rewrite fmap_app in Hf.
    assert ((run_tokens r).*1 = (λ t, logical_token_start r + t) <$> range (run_token_count r)) as Hrt.
    { unfold run_tokens. by rewrite <- list_fmap_compose. }
    rewrite Hrt in Hf. pose proof (f_equal length Hf) as Hlen. rewrite length_app, !length_fmap in Hlen.
    pose proof (size_range n). pose proof (size_range (run_token_count r)).
    assert (run_token_count r ≤ n) as Hle by lia.
    replace n with (run_token_count r + (n - run_token_count r)) in Hf by lia.
    rewrite range_app, fmap_app in Hf. apply app_inj_1 in Hf as [Hf1 Hf2]; [|by rewrite !length_fmap].
    assert (logical_token_start r = a) as <-.
    { apply (f_equal head) in Hf1. rewrite (range_cons (run_token_count r)) in Hf1 by done.
      cbn in Hf1. rewrite !N.add_0_r in Hf1. by injection Hf1. }
    rewrite <- list_fmap_compose in Hf2.
    change (run_segment q r ++ (runs ≫= run_segment q) = take (N.to_nat n) (drop (N.to_nat (logical_token_start r)) q)).
    rewrite (IH (logical_token_start r + run_token_count r) (n - run_token_count r)).
    + unfold run_segment. replace (N.to_nat n) with (N.to_nat (run_token_count r) + N.to_nat (n - run_token_count r))%nat by lia.
      rewrite <- take_take_drop, drop_drop. do 3 f_equal. lia.
    + etrans; [exact Hf2|]. apply list_fmap_ext. intros i x _. cbn. lia.
Qed.

Lemma mapM_all_Ok {E A B} (f : A → outcome E B) (P : A → B → Prop) (l : list A) :
  (∀ x, x ∈ l → ∃ y, f x = Ok y ∧ P x y) → ∃ ys, mapM f l = Ok ys ∧ Forall2 P l ys.
Proof.
  induction l as [|x l IH]; intros Hf; [by exists []|].
  destruct (Hf x) as (y & Hy & HP); [by left|]. destruct IH as (ys & Hys & HF); [intros; apply Hf; by right|].
  exists (y :: ys). split; [|by constructor].
  change (mapM f (x :: l)) with (z ← f x; zs ← mapM f l; mret (z :: zs)). by rewrite Hy, Hys.
Qed.

(** What the view of a run gives: the rows of its segment of the window. *)
Definition view_of_run (q : list Row) (r : LayerKvCacheBlockRun) (v : LayerKvCacheBlock) : Prop :=
  view_logical_token_start v = logical_token_start r ∧ view_physical_token_start v = physical_token_start r
  ∧ view_token_count v = run_token_count r ∧ view_block_id v = run_block_id r
  ∧ row_slice v (view_key_storage v) = Some (mjoin (run_segment q r).*1)
  ∧ row_slice v (view_value_storage v) = Some (mjoin (run_segment q r).*2).

(** The rows of a block's storage. *)
Lemma block_row_slices b s w j k v :
  block_wf b w → Arc.get (CacheBlock.storage b) (storages w) = Some s → j < CacheBlock.capacity_tokens b →
  CacheBlock.key j b w = Ok (Some k) → CacheBlock.value j b w = Ok (Some v) →
  let vl := CacheBlock.vector_len b in
  slice (CacheBlockStorage.keys s) (j * vl) (j * vl + vl) = Some k
  ∧ slice (CacheBlockStorage.values s) (j * vl) (j * vl + vl) = Some v.
Proof.
  intros [Hshape _] Hs Hj Hk Hv. cbv zeta. destruct (row_bounds b j Hshape Hj) as (Hm & Ha & _).
  unfold CacheBlock.key, CacheBlock.value, CacheBlock.token_slice, CacheBlock.storage_of in *.
  rewrite Hs in *. destruct (CacheBlock.token_count b <=? j); [done|]. rewrite Hm, Ha in *.
  destruct (slice _ _ _); [|done]. destruct (slice (CacheBlockStorage.values _) _ _); [|done].
  cbn in Hk, Hv. by injection Hk as ->; injection Hv as ->.
Qed.

(** The rows a run covers are rows of its block's storage. *)
Lemma run_rows c w q r b s t :
  layer_repr c w q → r ∈ active_block_runs c → blocks c !! N.to_nat (run_block_index r) = Some b →
  Arc.get (CacheBlock.storage b) (storages (block_world w)) = Some s → t < run_token_count r →
  let at_ := (block_token_start r + t) * vector_len c in
  ∃ k v, q !! N.to_nat (logical_token_start r + t) = Some (k, v)
    ∧ slice (CacheBlockStorage.keys s) at_ (at_ + vector_len c) = Some k
    ∧ slice (CacheBlockStorage.values s) at_ (at_ + vector_len c) = Some v.
Proof.
  intros Hr Hin Hi Hgs Ht. cbv zeta. pose proof (lr_length _ _ _ Hr) as Hlen.
  pose proof (lr_stored _ _ _ Hr) as [Hb Hruns]. rewrite Forall_forall in Hruns.
  destruct (Hruns r Hin) as [Hc Hbi Hbs Hinside Hmax Hid].
  pose proof (bo_fits _ _ _ _ _ _ Hb _ _ Hi) as [Hbv Hbc _].
  pose proof (N.div_mod (physical_token_start r) LAYER_KV_BLOCK_TOKENS ltac:(done)) as Hdm. rewrite <- Hbi, <- Hbs in Hdm.
  assert ((logical_token_start r + t, physical_token_start r + t) ∈ flat_runs (active_block_runs c)) as Hfl.
  { apply list_elem_of_bind. exists r. split; [|done]. apply list_elem_of_fmap. exists t. split; [done|].
    apply list_elem_of_fmap. exists (N.to_nat t). split; [lia|]. apply elem_of_seq. lia. }
  rewrite (lr_flat _ _ _ Hr) in Hfl. apply list_elem_of_fmap in Hfl as (i & [= Hi1 Hi2] & Hir).
  apply list_elem_of_fmap in Hir as (i' & -> & Hi'). apply elem_of_seq in Hi'.
  destruct (lookup_lt_is_Some_2 q i') as [[k v] Hq]; [lia|]. exists k, v.
  rewrite Hi1, Nat2N.id. split; [done|]. pose proof (lr_block _ _ _ Hr _ _ Hq) as Hrow. rewrite <- Hi2 in Hrow.
  assert ((physical_token_start r + t) / LAYER_KV_BLOCK_TOKENS = run_block_index r
    ∧ (physical_token_start r + t) mod LAYER_KV_BLOCK_TOKENS = block_token_start r + t) as [Hd Hm].
  { replace (physical_token_start r + t) with (block_token_start r + t + run_block_index r * LAYER_KV_BLOCK_TOKENS) by lia.
    rewrite N.div_add, N.Div0.mod_add by done. rewrite N.div_small, N.mod_small by lia. done. }
  unfold block_row in Hrow. rewrite Hd, Hm, Hi in Hrow. cbn [mbind option_bind] in Hrow.
  destruct (CacheBlock.key _ b _) as [[?|]|?|] eqn:Hk; [|done..].
  destruct (CacheBlock.value _ b _) as [[?|]|?|] eqn:Hv; [|done..].
  injection Hrow as -> ->. rewrite <- Hbv.
  apply (block_row_slices b s (block_world w)); try done; [by eapply bo_wf|].
  rewrite Hbc, N2Nat.id. clear -Hdm Hinside Hmax Ht. lia.
Qed.

(** The slice a view reads, [f] selecting the component. *)
Lemma run_slice (f : Row → list F32) c w q r st :
  layer_repr c w q → r ∈ active_block_runs c →
  (block_token_start r + run_token_count r) * vector_len c ≤ N.of_nat (length st) →
  N.of_nat (length st) ≤ u64_max →
  (∀ t, t < run_token_count r → ∃ x, q !! N.to_nat (logical_token_start r + t) = Some x
     ∧ slice st ((block_token_start r + t) * vector_len c) ((block_token_start r + t) * vector_len c + vector_len c) = Some (f x)) →
  slice st (wrap_mul (block_token_start r) (vector_len c))
    (wrap_add (wrap_mul (block_token_start r) (vector_len c)) (wrap_mul (run_token_count r) (vector_len c)))
  = Some (mjoin (f <$> run_segment q r)).
Proof.
  intros Hr Hin Hfit Hmax Hrows. rewrite !wrap_mul_small, wrap_add_small by nia.
  assert (N.of_nat (length (f <$> run_segment q r)) = run_token_count r) as Hl.
  { pose proof (lr_stored _ _ _ Hr) as [_ Hruns]. rewrite Forall_forall in Hruns. pose proof (ro_count _ _ _ (Hruns r Hin)) as Hc.
    destruct (Hrows (run_token_count r - 1)) as (x & Hx & _); [lia|]. apply lookup_lt_Some in Hx.
    unfold run_segment. rewrite length_fmap, length_take, length_drop. lia. }
  rewrite <- Hl at 1. apply slice_rows; [by rewrite Hl|]. intros i y Hi.
  pose proof (lookup_lt_Some _ _ _ Hi) as Hlt. destruct (Hrows (N.of_nat i)) as (x & Hx & ->); [lia|].
  rewrite list_lookup_fmap in Hi. unfold run_segment in Hi. rewrite lookup_take in Hi. case_decide; [|done].
  rewrite lookup_drop in Hi. replace (N.to_nat (logical_token_start r) + i)%nat with (N.to_nat (logical_token_start r + N.of_nat i)) in Hi by lia.
  rewrite Hx in Hi. by injection Hi as ->.
Qed.

Lemma block_view_spec c w q r :
  layer_repr c w q → r ∈ active_block_runs c → ∃ v, block_view c w r = Ok v ∧ view_of_run q r v.
Proof.
  intros Hr Hin. pose proof (lr_stored _ _ _ Hr) as [Hb Hruns]. rewrite Forall_forall in Hruns.
  destruct (Hruns r Hin) as [Hc Hbi Hbs Hinside Hmax Hid].
  destruct (blocks_ok_lookup _ _ _ _ _ _ (physical_token_start r) Hb) as [b Hi]; [lia|]. rewrite <- Hbi in Hi.
  pose proof (bo_ids _ _ _ _ _ _ Hb _ _ Hi) as Hti. pose proof (bo_fits _ _ _ _ _ _ Hb _ _ Hi) as [Hbv Hbc _].
  pose proof (bo_wf _ _ _ _ _ _ Hb _ _ Hi) as [(_ & _ & Hmul & _) (s & Hgs & Hks & Hvs)].
  unfold block_view, table_get, BlockTable.get, nth_block. rewrite Hid. cbn [ok_or mbind outcome_bind].
  rewrite N.eqb_refl, Hi. cbn [negb ok_or mbind outcome_bind]. rewrite Hid in Hti. injection Hti as Hrid.
  rewrite Hrid, N.eqb_refl. cbn [negb]. eexists. split; [done|].
  assert ((block_token_start r + run_token_count r) * vector_len c ≤ CacheBlock.capacity_tokens b * CacheBlock.vector_len b) as Hfit.
  { rewrite Hbv. apply N.mul_le_mono_r. rewrite Hbc, Hbi, N2Nat.id.
    pose proof (N.div_mod (physical_token_start r) LAYER_KV_BLOCK_TOKENS ltac:(done)). lia. }
  unfold view_of_run, row_slice. cbn. unfold CacheBlock.storage_of. rewrite Hgs.
  change (default (CacheBlockStorage.Make [] []) (Some s)) with s. split_and!; try done.
  - apply (run_slice fst c w q r _ Hr Hin); [lia|lia|]. intros t Ht.
    destruct (run_rows c w q r b s t Hr Hin Hi Hgs Ht) as (k & v & Hq & Hk & Hv). by exists (k, v).
  - apply (run_slice snd c w q r _ Hr Hin); [lia|lia|]. intros t Ht.
    destruct (run_rows c w q r b s t Hr Hin Hi Hgs Ht) as (k & v & Hq & Hk & Hv). by exists (k, v).
Qed.

Lemma active_blocks_spec c w q :
  layer_repr c w q →
  ∃ views, active_blocks c w = Ok views ∧ Forall2 (view_of_run q) (active_block_runs c) views
    ∧ (active_block_runs c ≫= run_segment q) = q.
Proof.
  intros Hr. destruct (mapM_all_Ok (block_view c w) (view_of_run q) (active_block_runs c)) as (vs & Hvs & HF).
  { intros r Hin. by apply block_view_spec. }
  exists vs. split; [done|]. split; [done|].
  rewrite (run_segments q _ 0 (token_count c)).
  - rewrite drop_0, take_ge; [done|]. pose proof (lr_length _ _ _ Hr). lia.
  - pose proof (lr_stored _ _ _ Hr) as [_ Hruns]. eapply Forall_impl; [exact Hruns|]. intros r []. done.
  - rewrite (lr_flat _ _ _ Hr), <- list_fmap_compose. by apply list_fmap_ext.
Qed.
End layer_theorems.
