(* ===== verification/LayerKvTheorems.v ===== *)
(** * The layer cache: theorems

    A layer cache is a bounded sliding window of token rows: what a fresh,
    cleared, cloned or restored cache stores, what an append does to it, and
    what its readers return. *)
From Stdlib Require Import ZifyN ZifyNat.
From stdpp Require Import base gmap sets numbers list.
From S2P Require Import Prelude KvTables CacheBlock KvFormat LayerKv LayerKvInv LayerKvOps LayerKvWindow.
Open Scope N_scope.
Open Scope record_scope.

Section layer_properties.
Context `{F32Arith}.

(** ** A fresh cache *)

(** The blocks the allocation loop has made so far. *)
Record partial_blocks (max vl : N) (tb : BlockTable.t) (bs : list CacheBlock.t) (w0 w : World) : Prop := {
  pb_world : world_wf w ∧ 0 < next_block_id w;
  pb_ids : BlockTable.blocks tb = CacheBlock.id <$> bs;
  pb_fits : ∀ i b, bs !! i = Some b → block_fits max vl 0 i b;
  pb_wf : ∀ i b, bs !! i = Some b → block_wf b w;
  pb_fresh : ∀ i b, bs !! i = Some b → Arc.next_loc (storages w0) ≤ CacheBlock.storage b < Arc.next_loc (storages w);
  pb_distinct : ∀ i j b b', bs !! i = Some b → bs !! j = Some b' → CacheBlock.storage b = CacheBlock.storage b' → i = j;
  pb_old : ∀ l, Arc.get l (storages w0) ≠ None → Arc.get l (storages w) = Arc.get l (storages w0);
  pb_next : Arc.next_loc (storages w0) ≤ Arc.next_loc (storages w) ∧ next_block_id w0 ≤ next_block_id w;
}.

Lemma partial_snoc max vl tb bs w0 w b w' :
  partial_blocks max vl tb bs w0 w →
  CacheBlock.new (N.min (max - LAYER_KV_BLOCK_TOKENS * N.of_nat (length bs)) LAYER_KV_BLOCK_TOKENS) vl w = (Ok b, w') →
  Arc.wf (storages w0) →
  CacheBlock.id b ≠ 0
  ∧ partial_blocks max vl (BlockTable.Make (BlockTable.blocks tb ++ [CacheBlock.id b])) (bs ++ [b]) w0 w'.
Proof.
  intros [[Hw Hid] Hids Hfits Hwf Hfresh Hdist Hold [Hn1 Hn2]] Hnew Hw0.
  pose proof (new_spec (N.min (max - LAYER_KV_BLOCK_TOKENS * N.of_nat (length bs)) LAYER_KV_BLOCK_TOKENS) vl w Hw) as Hs.
  rewrite Hnew in Hs.
  destruct Hs as (Hw' & Hb & Hbid & Hnext & Hcap & Hvl & Htc & _ & _ & Hst & Hloc & Hframe).
  split; [lia|]. assert (∀ l, Arc.get l (storages w) ≠ None → Arc.get l (storages w') = Arc.get l (storages w)) as Hf by exact Hframe.
  split; cbn [BlockTable.blocks].
  - split; [done|lia].
  - by rewrite fmap_app, Hids.
  - intros i b' [[Hi _]|[-> ->]]%lookup_snoc_Some; [by apply Hfits|].
    split; [done|rewrite Hcap; apply N.min_comm|]. rewrite Htc. lia.
  - intros i b' [[Hi _]|[-> ->]]%lookup_snoc_Some; [|done].
    destruct (Hwf _ _ Hi) as [Hsh (s & Hs & Hsw)]. split; [done|]. exists s. rewrite Hf by congruence. done.
  - intros i b' [[Hi _]|[-> ->]]%lookup_snoc_Some; [|lia]. pose proof (Hfresh _ _ Hi). lia.
  - intros i j b1 b2 [[Hi Hli]|[-> ->]]%lookup_snoc_Some [[Hj Hlj]|[-> ->]]%lookup_snoc_Some Heq; [by eapply Hdist| | |done].
    + pose proof (Hfresh _ _ Hi). lia.
    + pose proof (Hfresh _ _ Hj). lia.
  - intros l Hl. rewrite Hf, Hold by (rewrite ?Hold; done). done.
  - lia.
Qed.

Lemma new_layer_blocks_spec max vl fuel tb bs w0 w :
  Arc.wf (storages w0) → 0 < vl → max * vl ≤ u64_max →
  partial_blocks max vl tb bs w0 w →
  N.of_nat (length bs) + N.of_nat fuel = div_ceil max LAYER_KV_BLOCK_TOKENS →
  match new_blocks fuel (max - LAYER_KV_BLOCK_TOKENS * N.of_nat (length bs)) vl tb bs w with
  | (Ok (tb', bs'), w') => partial_blocks max vl tb' bs' w0 w'
      ∧ N.of_nat (length bs') = div_ceil max LAYER_KV_BLOCK_TOKENS
  | (Err e, w') => e = InvalidShape ∧ u64_max ≤ next_block_id w'
  | (Panic, _) => False
  end.
Proof.
  intros Hw0 Hvl Hmax. revert tb bs w. induction fuel as [|fuel IH]; intros tb bs w Hp Hlen.
  { cbn. split; [done|lia]. }
  pose proof (proj1 (div_ceil_spec max LAYER_KV_BLOCK_TOKENS (N.of_nat (length bs)) eq_refl) ltac:(lia)) as Hmore.
  cbn [new_blocks]. rewrite (proj2 (N.eqb_neq _ 0)) by lia.
  set (cap := N.min (max - LAYER_KV_BLOCK_TOKENS * N.of_nat (length bs)) LAYER_KV_BLOCK_TOKENS).
  assert (0 < cap) as Hcap0 by (unfold cap, LAYER_KV_BLOCK_TOKENS in *; lia).
  assert (cap * vl ≤ u64_max) as Hcap1 by (unfold cap; nia).
  destruct (CacheBlock.new cap vl w) as [[b|e|] w'] eqn:Hnew.
  - destruct (partial_snoc _ _ _ _ _ _ _ _ Hp Hnew Hw0) as [Hid Hp'].
    unfold BlockTable.append, BlockId.is_invalid. rewrite (proj2 (N.eqb_neq _ 0)) by done.
    specialize (IH _ _ _ Hp'). rewrite length_app in IH. cbn [length] in IH.
    replace (max - LAYER_KV_BLOCK_TOKENS * N.of_nat (length bs) - cap)
      with (max - LAYER_KV_BLOCK_TOKENS * N.of_nat (length bs + 1)).
    + apply IH. lia.
    + unfold cap. lia.
  - pose proof (new_spec cap vl w (proj1 (pb_world _ _ _ _ _ _ Hp))) as Hs. rewrite Hnew in Hs.
    destruct Hs as (-> & -> & Hcase). split; [done|]. lia.
  - pose proof (new_spec cap vl w (proj1 (pb_world _ _ _ _ _ _ Hp))) as Hs. by rewrite Hnew in Hs.
Qed.

(** What a constructor leaves alone: the storages that were alive. *)
Definition keeps_alive (w : LWorld) (c : LayerKvCache) (w' : LWorld) : Prop :=
  ∀ l, Arc.get l (storages (block_world w)) ≠ None →
    Arc.get l (storages (block_world w')) = Arc.get l (storages (block_world w))
    ∧ l ∉ (CacheBlock.storage <$> blocks c).

Record fresh_layer (max heads dim : N) (w : LWorld) (c : LayerKvCache) (w' : LWorld) : Prop := {
  fl_repr : layer_repr c w' [];
  fl_world : lworld_ok w';
  fl_shape : max_tokens c = max ∧ key_value_heads c = heads ∧ head_dim c = dim;
  fl_id : cache_id c = cache_id_counter w;
  fl_counters : tokens_seen c = 0 ∧ revision c = 0 ∧ window_start c = 0;
  fl_keeps : keeps_alive w c w';
}.

Lemma partial_start max vl w : world_wf w → 0 < next_block_id w → partial_blocks max vl BlockTable.new [] w w.
Proof. intros Hw Hid. by split. Qed.

Lemma partial_done max vl tb bs w0 w :
  partial_blocks max vl tb bs w0 w → N.of_nat (length bs) = div_ceil max LAYER_KV_BLOCK_TOKENS →
  blocks_ok max vl bs (BlockTable.blocks tb) w 0.
Proof.
  intros [_ Hids Hfits Hwf _ Hdist _ _] Hlen. split; try done.
  intros i b Hi. by rewrite Hids, list_lookup_fmap, Hi.
Qed.

Lemma new_layer_spec max heads dim w :
  lworld_ok w → max * (heads * dim) * 4 ≤ isize_max →
  match new max heads dim w with
  | (Ok c, w') => 0 < max ∧ 0 < heads ∧ 0 < dim ∧ fresh_layer max heads dim w c w'
  | (Err e, w') => e = InvalidShape ∧ (max = 0 ∨ heads = 0 ∨ dim = 0 ∨ ids_exhausted w')
  | (Panic, _) => False
  end.
Proof.
  intros [Hw Hid] Hmem. unfold new, new_with_config.
  destruct (N.eqb_spec max 0) as [|Hm]; [by split; [|left]|].
  destruct (N.eqb_spec heads 0) as [|Hh]; [by split; [|right; left]|].
  destruct (N.eqb_spec dim 0) as [|Hd]; [by split; [|right; right; left]|].
  cbn [orb]. rewrite bool_decide_eq_false_2 by done.
  assert (0 < heads * dim) as Hvl by lia.
  assert (max * (heads * dim) ≤ u64_max) as Htot by (unfold isize_max, u64_max in *; lia).
  assert (heads * dim ≤ u64_max) as Hmul by nia.
  rewrite (proj2 (checked_mul_Some heads dim _)) by done. rewrite (proj2 (checked_mul_Some max (heads * dim) _)) by done.
  pose proof (new_layer_blocks_spec max (heads * dim) (N.to_nat (div_ceil max LAYER_KV_BLOCK_TOKENS)) BlockTable.new []
    (block_world w) (block_world w) Hw Hvl Htot (partial_start _ _ _ Hw Hid)) as Hnb.
  cbn [length] in Hnb. change (N.of_nat 0) with 0 in Hnb. rewrite N.mul_0_r, N.sub_0_r in Hnb. specialize (Hnb ltac:(lia)).
  destruct (new_blocks _ _ _ _ _ _) as [[[tb bs]|e|] bw] eqn:Enb.
  - destruct Hnb as [Hp Hlen]. pose proof Hp as [[Hbw Hbid] _ _ _ Hfresh _ Hold _].
    rewrite bool_decide_eq_false_2 by done.
    cbv beta iota zeta delta [mbind outcome_bind asymmetric_vq_config config_f32 next_cache_id block_world cache_id_counter].
    split_and!; [lia..|].
    assert (∀ l, Arc.get l (storages (block_world w)) ≠ None → l ∉ (CacheBlock.storage <$> bs)) as Hunsh.
    { intros l Hl (b & -> & [i Hi]%list_elem_of_lookup_1)%list_elem_of_fmap. pose proof (Hfresh _ _ Hi) as Hlo.
      unfold Arc.get in Hl. destruct (Arc.cells (storages (block_world w)) !! CacheBlock.storage b) as [cell|] eqn:Ec; [|done].
      apply Hw in Ec. lia. }
    split; try done.
    + assert (wrap_mul heads dim = heads * dim) as Hwm by (by apply wrap_mul_small). split; try done.
      * split; cbn; try done; try lia; unfold vector_len, stage_sized; cbn; rewrite ?Hwm; try done.
        rewrite !length_replicate. lia.
      * split; [|by constructor]. cbn. unfold vector_len. cbn. rewrite Hwm. by eapply partial_done.
      * by left.
      * by left.
    + intros l Hl. split; [by apply Hold|by apply Hunsh].
  - destruct Hnb as [-> Hex]. split; [done|]. by right; right; right.
  - done.
Qed.

(** ** Clearing *)
Lemma new_count {A} (v : A) h k :
  Arc.wf h → Arc.get k h ≠ None → Arc.strong_count k (Arc.new v h).2 = Arc.strong_count k h.
Proof.
  intros Hh Hk. unfold Arc.strong_count, Arc.new. cbn [snd Arc.cells]. rewrite lookup_insert_ne; [done|].
  intros <-. apply Hk. unfold Arc.get. by rewrite Arc.fresh_not_alive.
Qed.
Lemma drop_count {A} l k (h : Arc.heap A) : k ≠ l → Arc.strong_count k (Arc.drop l h) = Arc.strong_count k h.
Proof.
  intros Hne. unfold Arc.strong_count, Arc.drop. repeat case_match; try done; cbn in *; simplify_map_eq; congruence.
Qed.

Lemma clear_count b w k :
  world_wf w → k ≠ CacheBlock.storage b → Arc.get k (storages w) ≠ None →
  Arc.strong_count k (storages (CacheBlock.clear b w).2) = Arc.strong_count k (storages w).
Proof.
  intros Hw Hne Hk. unfold CacheBlock.clear. destruct (1 <? _).
  - pose proof (new_count (CacheBlockStorage.new (N.of_nat (length (CacheBlockStorage.keys
      (CacheBlock.storage_of (CacheBlock.storage b) w))))) (storages w) k Hw Hk) as Hc.
    destruct (Arc.new _ (storages w)) as [l h]. cbn [snd storages with_storages] in *.
    by rewrite drop_count.
  - pose proof (make_mut_count (CacheBlock.storage b) k (storages w) Hw Hne Hk) as Hc.
    destruct (Arc.make_mut _ _) as [l h]. cbn [snd storages with_storages] in *. by rewrite set_count.
Qed.

(** A block after [CacheBlock::clear]. *)
Definition cleared (b b' : CacheBlock.t) : Prop :=
  CacheBlock.id b' = CacheBlock.id b ∧ CacheBlock.capacity_tokens b' = CacheBlock.capacity_tokens b
  ∧ CacheBlock.vector_len b' = CacheBlock.vector_len b ∧ CacheBlock.token_count b' = 0.

Definition separate (bs : list CacheBlock.t) : Prop := NoDup (CacheBlock.storage <$> bs).

Record blocks_cleared (bs : list CacheBlock.t) (w : World) (bs' : list CacheBlock.t) (w' : World) : Prop := {
  bc_world : world_wf w';
  bc_ids : next_block_id w' = next_block_id w;
  bc_cleared : Forall2 cleared bs bs';
  bc_wf : Forall (λ b, block_wf b w') bs';
  bc_separate : separate bs';
  bc_outside : ∀ l, Arc.get l (storages w) ≠ None → l ∉ (CacheBlock.storage <$> bs) →
    Arc.get l (storages w') = Arc.get l (storages w)
    ∧ Arc.strong_count l (storages w') = Arc.strong_count l (storages w) ∧ l ∉ (CacheBlock.storage <$> bs');
  bc_others : leaves_others (CacheBlock.storage <$> bs) w (CacheBlock.storage <$> bs') w';
}.

Lemma clear_one b w bs :
  world_wf w → block_wf b w → Forall (λ b, block_wf b w) bs → separate (b :: bs) →
  let '(b', w') := CacheBlock.clear b w in
  world_wf w' ∧ next_block_id w' = next_block_id w ∧ cleared b b' ∧ block_wf b' w' ∧ Forall (λ b, block_wf b w') bs
  ∧ CacheBlock.storage b' ∉ (CacheBlock.storage <$> bs)
  ∧ (∀ l, Arc.get l (storages w) ≠ None → l ≠ CacheBlock.storage b →
       Arc.get l (storages w') = Arc.get l (storages w)
       ∧ Arc.strong_count l (storages w') = Arc.strong_count l (storages w) ∧ l ≠ CacheBlock.storage b')
  ∧ leaves_others (CacheBlock.storage <$> b :: bs) w (CacheBlock.storage <$> b' :: bs) w'.
Proof.
  intros Hw Hb Hbs [Hni Hnd]%NoDup_cons. pose proof (clear_spec b w Hw Hb) as Hc.
  pose proof (λ k, clear_count b w k Hw) as Hcount.
  destruct (CacheBlock.clear b w) as [b' w']. cbn [snd] in Hcount.
  destruct Hc as (Hw' & Hb' & [Hid Hframe] & H1 & H2 & H3 & H4 & _).
  assert (∀ x, x ∈ bs → Arc.get (CacheBlock.storage x) (storages w) ≠ None ∧ CacheBlock.storage x ≠ CacheBlock.storage b) as Hx.
  { intros x Hx. rewrite Forall_forall in Hbs. destruct (Hbs x Hx) as [_ (s & Hs & _)]. split; [congruence|].
    intros Heq. apply Hni. rewrite <- Heq. by apply list_elem_of_fmap_2. }
  split_and!; try done.
  - rewrite Forall_forall in Hbs |- *. intros x Hin. destruct (Hx x Hin) as [Ha Hne].
    destruct (Hbs x Hin) as [Hsh (s & Hs & Hsw)]. split; [done|]. exists s.
    destruct (Hframe (CacheBlock.storage x) Ha) as [-> _]; [by left|done].
  - intros (x & Heq & Hin)%list_elem_of_fmap. destruct (Hx x Hin) as [Ha Hne].
    by destruct (Hframe (CacheBlock.storage x) Ha) as [_ []]; [left|].
  - intros l Hl Hne. destruct (Hframe l Hl) as [? ?]; [by left|]. split_and!; [done|by apply Hcount|done].
  - intros l [Hl Hg]. destruct (Hframe l Hl) as [Hget Hnl].
    { destruct (decide (l = CacheBlock.storage b)) as [->|]; [right|by left]. destruct Hg as [[]|]; [by left|done]. }
    split; [|done]. split; [by rewrite Hget|]. cbn [fmap list_fmap] in *.
    destruct (decide (l ∈ CacheBlock.storage <$> bs)) as [Hin|Hout].
    + right. apply list_elem_of_fmap in Hin as (x & -> & Hin). destruct (Hx x Hin) as [Ha Hne].
      rewrite Hcount by done. destruct Hg as [[]|]; [|done]. right. by apply list_elem_of_fmap_2.
    + left. by intros [->|?]%elem_of_cons.
Qed.

Lemma clear_blocks_spec bs w :
  world_wf w → Forall (λ b, block_wf b w) bs → separate bs →
  let '(bs', w') := clear_blocks bs w in blocks_cleared bs w bs' w'.
Proof.
  revert w. induction bs as [|b bs IH]; intros w Hw Hbs Hsep.
  { cbn. by split. }
  apply Forall_cons in Hbs as [Hb Hbs]. pose proof (clear_one b w bs Hw Hb Hbs Hsep) as H1.
  cbn [clear_blocks]. destruct (CacheBlock.clear b w) as [b' w1].
  destruct H1 as (Hw1 & Hid1 & Hcl & Hb' & Hbs1 & Hni & Hout & Hl1).
  apply NoDup_cons in Hsep as [Hnb Hsep]. specialize (IH w1 Hw1 Hbs1 Hsep).
  destruct (clear_blocks bs w1) as [bs' w'] eqn:Ec. destruct IH as [Hw' Hid' Hcl' Hwf' Hsep' Hout' Hl'].
  assert (Arc.get (CacheBlock.storage b') (storages w1) ≠ None) as Halive by (destruct Hb' as [_ (s & -> & _)]; done).
  destruct (Hout' _ Halive Hni) as (Hget' & Hcount' & Hni').
  split; try done.
  - congruence.
  - by constructor.
  - constructor; [|done]. destruct Hb' as [Hsh (s & Hs & Hsw)]. split; [done|]. exists s. by rewrite Hget'.
  - apply NoDup_cons. by split.
  - intros l Hl Hn. apply not_elem_of_cons in Hn as [Hn1 Hn2]. destruct (Hout l Hl Hn1) as (Hg & Hc & Hne).
    destruct (Hout' l) as (Hg' & Hc' & Hn'); [by rewrite Hg|done|]. split_and!; [congruence..|].
    cbn. by apply not_elem_of_cons.
  - intros l Hl. destruct (Hl1 l Hl) as [[Hal Hg] <-]. destruct (Hl' l) as [[Hal' Hg'] Hget].
    { split; [done|]. destruct Hg as [Hg|]; [left|by right]. intros Hin. apply Hg. by right. }
    split; [|done]. split; [done|]. cbn [fmap list_fmap] in *. destruct (decide (l = CacheBlock.storage b')) as [->|Hne].
    + right. rewrite Hcount'. destruct Hg as [[]|]; [by left|done].
    + destruct Hg' as [Hg'|]; [left|by right]. by apply not_elem_of_cons.
Qed.

(** [clear] empties the window. *)
Lemma clear_layer_spec c w q :
  layer_repr c w q → lworld_ok w →
  let '(c', w') := clear c w in
  layer_repr c' w' [] ∧ lworld_ok w' ∧ counters_grow w w'
  ∧ tokens_seen c' = 0 ∧ revision c' = sat_add (revision c) 1
  ∧ max_tokens c' = max_tokens c ∧ key_value_heads c' = key_value_heads c ∧ head_dim c' = head_dim c
  ∧ leaves_others (CacheBlock.storage <$> blocks c) (block_world w) (CacheBlock.storage <$> blocks c') (block_world w').
Proof.
  intros Hr [Hw Hid]. pose proof (lr_shape _ _ _ Hr) as Hs.
  pose proof (lr_stored _ _ _ Hr) as [Hb Hruns]. pose proof Hb as [Hlen Hfits Hwf Hids Hdist].
  pose proof (clear_blocks_spec (blocks c) (block_world w) Hw) as Hc. unfold clear.
  destruct (clear_blocks (blocks c) (block_world w)) as [bs bw]. destruct Hc as [Hw' Hid' Hcl Hwf' Hsep Hout Hothers].
  { apply Forall_lookup. by eapply Hwf. }
  { apply NoDup_alt. intros i j x Hi Hj. rewrite list_lookup_fmap in Hi, Hj.
    destruct (blocks c !! i) as [b|] eqn:Ei; [|done]. destruct (blocks c !! j) as [b'|] eqn:Ej; [|done].
    cbn in Hi, Hj. eapply Hdist; [exact Ei|exact Ej|]. congruence. }
  assert (plain c) as [Hi8 Hqv] by apply Hs.
  split_and!; try done.
  - split; try done.
    + destruct Hs as [? ? ? ? ? ? ? ? ? ? [Hp1 Hp2] [Hs1 Hs2]]. split; try done; cbn; try lia.
      * split; cbn; [by rewrite Hp1|by rewrite Hp2].
      * unfold stage_sized. cbn. by rewrite !length_replicate.
    + split; [|by constructor]. cbn. split.
      * by rewrite <- (Forall2_length _ _ _ Hcl).
      * intros i b' Hi'. destruct (Forall2_lookup_r _ _ _ _ _ Hcl Hi') as (b & Hi & (H1 & H2 & H3 & H4)).
        destruct (Hfits _ _ Hi) as [Hf1 Hf2 _]. split; [unfold vector_len in *; cbn; congruence|cbn; congruence|]. rewrite H4. cbn. lia.
      * by apply Forall_lookup.
      * intros i b' Hi'. destruct (Forall2_lookup_r _ _ _ _ _ Hcl Hi') as (b & Hi & (H1 & H2 & H3 & H4)).
        rewrite H1. by apply Hids.
      * intros i j b1 b2 H1 H2 Heq. eapply (proj1 (NoDup_alt _) Hsep i j); rewrite list_lookup_fmap; [by rewrite H1|].
        rewrite H2. cbn. by rewrite Heq.
    + by left.
    + by left.
  - split; [done|]. cbn. by rewrite Hid'.
  - split; [done|]. cbn. by rewrite Hid'.
Qed.

(** ** Cloning *)
Lemma get_clone {A} l k (h : Arc.heap A) : Arc.get k (Arc.clone l h) = Arc.get k h.
Proof.
  unfold Arc.get, Arc.clone. cbn. rewrite lookup_alter. case_decide; [subst|done].
  by destruct (Arc.cells h !! k).
Qed.
Lemma clone_count {A} l k (h : Arc.heap A) :
  Arc.strong_count k h ≤ Arc.strong_count k (Arc.clone l h)
  ∧ (Arc.get l h ≠ None → Arc.strong_count l h + 1 = Arc.strong_count l (Arc.clone l h)).
Proof.
  unfold Arc.strong_count, Arc.clone, Arc.get. cbn. split.
  - rewrite lookup_alter. case_decide; [subst|done]. destruct (Arc.cells h !! k); cbn; lia.
  - rewrite lookup_alter, decide_True by done. by destruct (Arc.cells h !! l).
Qed.
Lemma clone_wf {A} l (h : Arc.heap A) : Arc.wf h → Arc.wf (Arc.clone l h).
Proof.
  intros Hh k c. cbn. rewrite lookup_alter. case_decide; [subst|by apply Hh].
  destruct (Arc.cells h !! k) eqn:E; cbn; [|done]. intros [= <-]. apply Hh in E. cbn. lia.
Qed.

(** A block handle and its clone. *)
Definition same_block (b b' : CacheBlock.t) : Prop :=
  CacheBlock.id b' = CacheBlock.id b ∧ CacheBlock.storage b' = CacheBlock.storage b
  ∧ CacheBlock.capacity_tokens b' = CacheBlock.capacity_tokens b
  ∧ CacheBlock.vector_len b' = CacheBlock.vector_len b ∧ CacheBlock.token_count b' = CacheBlock.token_count b.

Lemma clone_blocks_spec bs w :
  world_wf w →
  let '(bs', w') := clone_blocks bs w in
  world_wf w' ∧ next_block_id w' = next_block_id w ∧ Forall2 same_block bs bs'
  ∧ (∀ l, Arc.get l (storages w') = Arc.get l (storages w))
  ∧ (∀ l, Arc.strong_count l (storages w) ≤ Arc.strong_count l (storages w'))
  ∧ (∀ b, b ∈ bs → Arc.get (CacheBlock.storage b) (storages w) ≠ None → 1 < Arc.strong_count (CacheBlock.storage b) (storages w')).
Proof.
  revert w. induction bs as [|b bs IH]; intros w Hw.
  { cbn. split_and!; try done. by intros b ?%not_elem_of_nil. }
  cbn [clone_blocks]. unfold CacheBlock.clone. set (w1 := with_storages _ w).
  assert (world_wf w1) as Hw1 by (by apply clone_wf). specialize (IH w1 Hw1).
  destruct (clone_blocks bs w1) as [bs' w']. destruct IH as (Hw' & Hid & HF & Hget & Hc & Hin).
  assert (∀ l, Arc.get l (storages w1) = Arc.get l (storages w)) as Hg1 by (intros; apply get_clone).
  split_and!; try done.
  - by constructor.
  - intros l. by rewrite Hget.
  - intros l. etrans; [|apply Hc]. apply clone_count.
  - intros x [->|Hx]%elem_of_cons Hl; [|apply Hin; [done|by rewrite Hg1]].
    eapply N.lt_le_trans; [|apply Hc]. pose proof (proj2 (clone_count (CacheBlock.storage b) 0 (storages w)) Hl) as Hcl.
    change (storages w1) with (Arc.clone (CacheBlock.storage b) (storages w)). rewrite <- Hcl. clear Hcl.
    unfold Arc.strong_count, Arc.get in *. destruct (Arc.cells (storages w) !! CacheBlock.storage b) eqn:E; [|done].
    apply Hw in E. lia.
Qed.

(** A representation only reads the storages of its blocks. *)
Lemma repr_frame c w w' q :
  (∀ b, b ∈ blocks c → Arc.get (CacheBlock.storage b) (storages (block_world w')) = Arc.get (CacheBlock.storage b) (storages (block_world w))) →
  layer_repr c w q → layer_repr c w' q.
Proof.
  intros Hsame [Hs Hl [[Hlen Hfits Hwf Hids Hdist] Hruns] Hf Hb Hst Hk Hv].
  assert (∀ i b, blocks c !! i = Some b → Arc.get (CacheBlock.storage b) (storages (block_world w')) = Arc.get (CacheBlock.storage b) (storages (block_world w))) as Hsame'.
  { intros i b Hi. apply Hsame. by eapply list_elem_of_lookup_2. }
  split; try done.
  - split; [|done]. split; try done. intros i b Hi. destruct (Hwf i b Hi) as [Hsh (s & Hs' & Hsw)].
    split; [done|]. exists s. by rewrite (Hsame' i b Hi).
  - intros i r Hi. rewrite <- (Hb i r Hi). unfold block_row.
    destruct (blocks c !! N.to_nat (position c (N.of_nat i) / LAYER_KV_BLOCK_TOKENS)) as [b|] eqn:E; [|done].
    cbn [mbind option_bind]. unfold CacheBlock.key, CacheBlock.value, CacheBlock.storage_of. by rewrite (Hsame' _ b E).
Qed.

(** The same cache through cloned handles. *)
Lemma repr_same_blocks c w q bs id :
  Forall2 same_block (blocks c) bs → layer_repr c w q →
  layer_repr (c <| cache_id := id |> <| blocks := bs |> <| key_contiguous_view := None |> <| value_contiguous_view := None |>) w q.
Proof.
  intros HF [Hs Hl [[Hlen Hfits Hwf Hids Hdist] Hruns] Hf Hb Hst Hk Hv].
  assert (∀ i b', bs !! i = Some b' → ∃ b, blocks c !! i = Some b ∧ same_block b b') as Hr.
  { intros i b' Hi. by apply (Forall2_lookup_r _ _ _ _ _ HF Hi). }
  split; try done.
  - destruct Hs. by split.
  - split; [|done]. cbn. split.
    + by rewrite <- (Forall2_length _ _ _ HF).
    + intros i b' Hi. destruct (Hr i b' Hi) as (b & Hb' & (H1 & H2 & H3 & H4 & H5)). destruct (Hfits _ _ Hb').
      split; unfold vector_len in *; cbn; congruence.
    + intros i b' Hi. destruct (Hr i b' Hi) as (b & Hb' & (H1 & H2 & H3 & H4 & H5)).
      destruct (Hwf _ _ Hb') as [Hsh Hg]. unfold block_wf, shape_wf in *. by rewrite H2, H3, H4, H5.
    + intros i b' Hi. destruct (Hr i b' Hi) as (b & Hb' & (H1 & _)). rewrite H1. by apply Hids.
    + intros i j b1 b2 Hi Hj Heq. destruct (Hr i b1 Hi) as (x & Hx & (_ & Hx2 & _)), (Hr j b2 Hj) as (y & Hy & (_ & Hy2 & _)).
      eapply Hdist; [exact Hx|exact Hy|congruence].
  - intros i r Hi. rewrite <- (Hb i r Hi). cbn. unfold block_row, position. cbn.
    destruct (bs !! _) as [b'|] eqn:E.
    + destruct (Hr _ b' E) as (b & -> & (H1 & H2 & H3 & H4 & H5)). cbn [mbind option_bind].
      unfold CacheBlock.key, CacheBlock.value, CacheBlock.token_slice. by rewrite H2, H4, H5.
    + apply lookup_ge_None in E. rewrite (lookup_ge_None_2 (blocks c)); [done|]. by rewrite (Forall2_length _ _ _ HF).
  - by left.
  - by left.
Qed.

(** ** Many appends *)
Fixpoint slide_all (rows : list Row) : stm (LayerKvCache * LWorld) KvCacheError unit :=
  match rows with
  | [] => mret tt
  | r :: rows => _ ← append_sliding r.1 r.2; slide_all rows
  end.

Definition fits_rows (vl : N) (rows : list Row) : Prop :=
  Forall (λ r, N.of_nat (length r.1) = vl ∧ N.of_nat (length r.2) = vl) rows.

(** The window after several rows. *)
Definition window_rows {A} (max : N) (q rows : list A) : list A := foldl (window_push max) q rows.

Lemma append_sliding_spec c w q k v :
  layer_repr c w q → lworld_ok w → N.of_nat (length k) = vector_len c → N.of_nat (length v) = vector_len c →
  match append_sliding_with_metadata k v (c, w) with
  | (Ok a, (c', w')) => tokens_seen c < u64_max
      ∧ pushed c w (window_push (max_tokens c) q (k, v)) (append_physical_token_index a) a c' w'
  | (Err e, s) => append_refused c w e s
  | (Panic, _) => False
  end.
Proof.
  intros Hr Hw Hk Hv. pose proof (lr_shape _ _ _ Hr) as Hs. pose proof (sh_count _ Hs). unfold window_push.
  rewrite (lr_length _ _ _ Hr). destruct (N.ltb_spec (token_count c) (max_tokens c)) as [Hlt|Hge].
  - pose proof (append_at_end_spec c w q k v Hr Hw Hlt Hk Hv) as Ha.
    destruct (validate_append_ok k v c (sh_plain _ Hs) Hk Hv) as [Hv1 Hv2].
    assert (append_sliding_with_metadata k v (c, w) = append_at_end_validated k v (c, w)) as ->.
    { unfold append_sliding_with_metadata, validate_sliding_append. run_method. rewrite Hv1. cbn [outcome_bind].
      by rewrite Hv2, (proj2 (N.ltb_lt _ _) Hlt). }
    destruct (append_at_end_validated k v (c, w)) as [[a|e|] [c' w']]; [|done..].
    destruct Ha as [? Hp]. split; [done|]. pose proof (pu_append _ _ _ _ _ _ _ Hp) as Ha. subst a. exact Hp.
  - pose proof (slide_spec c w q k v Hr Hw ltac:(lia) Hk Hv) as Ha.
    destruct (append_sliding_with_metadata k v (c, w)) as [[a|e|] [c' w']]; [|done..].
    destruct Ha as [? Hp]. split; [done|]. pose proof (pu_append _ _ _ _ _ _ _ Hp) as Ha. subst a. exact Hp.
Qed.

Lemma append_sliding_run k v s :
  append_sliding k v s = (let '(r, s') := append_sliding_with_metadata k v s in (append_token_index <$> r, s')).
Proof.
  unfold append_sliding, mbind, stm_bind. destruct (append_sliding_with_metadata k v s) as [[a|e|] s']; done.
Qed.

(** Rows arrive one after the other; a failure leaves the rows before it. *)
Lemma slide_all_spec rows c w q :
  layer_repr c w q → lworld_ok w → fits_rows (vector_len c) rows →
  let '(r, (c', w')) := slide_all rows (c, w) in
  ∃ n, (n ≤ length rows)%nat
    ∧ layer_repr c' w' (window_rows (max_tokens c) q (take n rows)) ∧ lworld_ok w'
    ∧ max_tokens c' = max_tokens c ∧ tokens_seen c' = tokens_seen c + N.of_nat n
    ∧ leaves_others (CacheBlock.storage <$> blocks c) (block_world w) (CacheBlock.storage <$> blocks c') (block_world w')
    ∧ ((r = Ok tt ∧ n = length rows)
       ∨ (r = Err InvalidShape ∧ (tokens_seen c' = u64_max ∨ ids_exhausted w'))).
Proof.
  revert c w q. induction rows as [|[k v] rows IH]; intros c w q Hr Hw Hfit.
  { cbn. exists O. split_and!; first [done|lia|by left]. }
  apply Forall_cons in Hfit as [[Hk Hv] Hfit]. cbn [slide_all fst snd] in *.
  unfold mbind, stm_bind. rewrite append_sliding_run.
  pose proof (append_sliding_spec c w q k v Hr Hw Hk Hv) as Ha.
  destruct (append_sliding_with_metadata k v (c, w)) as [[a|e|] [c1 w1]]; [| |done]; cbn [fmap outcome_fmap].
  - destruct Ha as [Hseen [Hr1 Hw1 _ Hs1 _ (_ & Hm1 & Hh1 & Hd1) _ _ Ho1]].
    assert (vector_len c1 = vector_len c) as Hvl by (unfold vector_len; congruence).
    specialize (IH c1 w1 _ Hr1 Hw1 ltac:(by rewrite Hvl)). destruct (slide_all rows (c1, w1)) as [r [c' w']].
    destruct IH as (n & Hn & Hr' & Hw' & Hm' & Hs' & Ho' & Hres). exists (S n). cbn [length take]. split_and!.
    + lia.
    + rewrite Hm1 in Hr'. exact Hr'.
    + done.
    + congruence.
    + lia.
    + by eapply leaves_others_trans.
    + destruct Hres as [[-> ->]|Hres]; [by left|by right].
  - destruct Ha as (-> & [= -> ->] & Hex). exists O. cbn [take length]. split_and!; first [done|lia|by right].
Qed.

(** ** Properties

    The rejection of a row of the wrong shape. *)
Definition shape_error (k v : list F32) (c : LayerKvCache) (e : KvCacheError) : Prop :=
  (N.of_nat (length k) ≠ vector_len c ∧ e = ShapeMismatch (vector_len c) (N.of_nat (length k)))
  ∨ (N.of_nat (length k) = vector_len c ∧ N.of_nat (length v) ≠ vector_len c
     ∧ e = ShapeMismatch (vector_len c) (N.of_nat (length v))).

Lemma shape_cases k v c :
  (N.of_nat (length k) = vector_len c ∧ N.of_nat (length v) = vector_len c)
  ∨ ∃ e, validate_token_shape k v c = Err e ∧ shape_error k v c e.
Proof.
  unfold validate_token_shape, shape_error.
  destruct (N.eqb_spec (N.of_nat (length k)) (vector_len c)) as [Hk|Hk]; cbn [negb]; [|right; eexists; by split; [|left]].
  destruct (N.eqb_spec (N.of_nat (length v)) (vector_len c)) as [Hv|Hv]; cbn [negb]; [by left|].
  right. eexists. split; [done|]. right. done.
Qed.

Lemma append_with_metadata_ok c w k v :
  layer_shape c → N.of_nat (length k) = vector_len c → N.of_nat (length v) = vector_len c →
  append_with_metadata k v (c, w)
  = (if token_count c =? max_tokens c then (Err (CapacityExceeded 1 0), (c, w)) else append_at_end_validated k v (c, w)).
Proof.
  intros Hs Hk Hv. destruct (validate_append_ok k v c (sh_plain _ Hs) Hk Hv) as [Hv1 Hv2].
  unfold append_with_metadata. run_method. rewrite Hv1, Hv2. by destruct (token_count c =? max_tokens c).
Qed.


(** The readers of a layer cache return the window it stores: [key] and
    [value] the row of a logical index and nothing beyond the window, [keys]
    and [values] all rows in logical order (whether the ring has wrapped or
    not, and whether or not the contiguous view was built before), and
    [active_blocks] one view per run, which together are the window cut into
    consecutive segments, each read from its own block's storage. *)
Theorem layer_reads_window c w q :
  layer_repr c w q →
  (∀ i, key i c w = Ok (fst <$> q !! N.to_nat i) ∧ value i c w = Ok (snd <$> q !! N.to_nat i))
  ∧ (∃ c', keys c = Some (mjoin q.*1, c') ∧ layer_repr c' w q)
  ∧ (∃ c', values c = Some (mjoin q.*2, c') ∧ layer_repr c' w q)
  ∧ ∃ views, active_blocks c w = Ok views ∧ Forall2 (view_of_run q) (active_block_runs c) views
      ∧ (active_block_runs c ≫= run_segment q) = q.
Proof.
  intros Hr. split_and!.
  - intros i. by apply lookup_row_spec.
  - destruct (keys_spec c w q Hr) as (view & Hk & Hr'). by eexists.
  - destruct (values_spec c w q Hr) as (view & Hk & Hr'). by eexists.
  - by apply active_blocks_spec.
Qed.

Lemma clone_layer_spec c w q :
  layer_repr c w q → lworld_ok w →
  let '(c1, w1) := clone c w in
  layer_repr c w1 q ∧ layer_repr c1 w1 q ∧ lworld_ok w1 ∧ max_tokens c1 = max_tokens c ∧ vector_len c1 = vector_len c
  ∧ (∀ b, b ∈ blocks c → guarded [] (block_world w1) (CacheBlock.storage b)
       ∧ 1 < Arc.strong_count (CacheBlock.storage b) (storages (block_world w1)))
  ∧ (∀ b, b ∈ blocks c1 → ∃ b0, b0 ∈ blocks c ∧ CacheBlock.storage b = CacheBlock.storage b0).
Proof.
  intros Hr [Hw Hid]. pose proof (clone_blocks_spec (blocks c) (block_world w) Hw) as Hc.
  unfold clone, next_cache_id. cbn [block_world cache_id_counter].
  destruct (clone_blocks (blocks c) (block_world w)) as [bs bw]. destruct Hc as (Hw' & Hid' & HF & Hget & Hcount & Hin).
  assert (∀ b, b ∈ blocks c → Arc.get (CacheBlock.storage b) (storages (block_world w)) ≠ None) as Halive.
  { intros b [i Hi]%list_elem_of_lookup_1. pose proof (st_blocks _ _ _ _ _ _ _ (lr_stored _ _ _ Hr)) as Hb.
    destruct (bo_wf _ _ _ _ _ _ Hb _ _ Hi) as [_ (s & -> & _)]. done. }
  split_and!; try done.
  - eapply repr_frame; [|exact Hr]. intros b _. apply Hget.
  - apply repr_same_blocks; [done|]. eapply repr_frame; [|exact Hr]. intros b _. apply Hget.
  - split; [done|]. cbn. by rewrite Hid'.
  - intros b Hb. split; [|by apply Hin, Halive]. split; [|left; apply not_elem_of_nil].
    cbn. rewrite Hget. by apply Halive.
  - intros b [i Hi]%list_elem_of_lookup_1. destruct (Forall2_lookup_r _ _ _ _ _ HF Hi) as (b0 & Hb0 & (_ & H2 & _)).
    exists b0. split; [by eapply list_elem_of_lookup_2|done].
Qed.

(** Appends to [c] leave a cache whose storages are shared alone. *)
Lemma fork_isolated c o w q qo rows :
  layer_repr c w q → layer_repr o w qo → lworld_ok w → fits_rows (vector_len c) rows →
  (∀ b, b ∈ blocks o → 1 < Arc.strong_count (CacheBlock.storage b) (storages (block_world w))) →
  let '(r, (c', w')) := slide_all rows (c, w) in
  layer_repr o w' qo
  ∧ ∃ n, (n ≤ length rows)%nat ∧ layer_repr c' w' (window_rows (max_tokens c) q (take n rows))
      ∧ ((r = Ok tt ∧ n = length rows)
         ∨ (r = Err InvalidShape ∧ (tokens_seen c' = u64_max ∨ ids_exhausted w'))).
Proof.
  intros Hr Ho Hw Hfit Hshared. pose proof (slide_all_spec rows c w q Hr Hw Hfit) as Hsl.
  destruct (slide_all rows (c, w)) as [r [c' w']]. destruct Hsl as (n & Hn & Hr' & Hw' & _ & _ & Hothers & Hres).
  split; [|by exists n]. eapply repr_frame; [|exact Ho]. intros b Hb. apply Hothers. split; [|right; by apply Hshared].
  apply list_elem_of_lookup_1 in Hb as [i Hi]. pose proof (st_blocks _ _ _ _ _ _ _ (lr_stored _ _ _ Ho)) as Hbo.
  destruct (bo_wf _ _ _ _ _ _ Hbo _ _ Hi) as [_ (s & -> & _)]. done.
Qed.


(** ** Snapshots *)
Lemma slice_length {A} (l : list A) a b x : slice l a b = Some x → N.of_nat (length x) = b - a.
Proof.
  unfold slice. case_match eqn:E; [|done]. intros [= <-]. bool_to_prop.
  rewrite length_take, length_drop. lia.
Qed.

Lemma repr_fits c w q : layer_repr c w q → fits_rows (vector_len c) q.
Proof.
  intros Hr. apply Forall_lookup. intros i r Hi. destruct (stage_row_parts c w q i r Hr Hi) as [Hk Hv].
  apply slice_length in Hk, Hv. lia.
Qed.

Lemma chunks_of_rows vl (rows : list (list F32)) :
  0 < vl → Forall (λ r, N.of_nat (length r) = vl) rows → chunks_exact vl (mjoin rows) = rows.
Proof.
  intros Hvl Hrows. unfold chunks_exact.
  assert (∀ fuel, (length (mjoin rows) ≤ fuel)%nat → chunks_loop fuel (N.to_nat vl) (mjoin rows) = rows) as Hc; [|by apply Hc].
  induction Hrows as [|r rows Hr Hrows IH]; intros fuel Hf.
  { destruct fuel; [done|]. cbn [chunks_loop]. rewrite (proj2 (Nat.ltb_lt _ _)); [done|]. cbn. lia. }
  rewrite mjoin_cons in *. rewrite length_app in Hf. destruct fuel as [|fuel]; [lia|]. cbn [chunks_loop].
  rewrite length_app, (proj2 (Nat.ltb_ge _ _)) by lia.
  assert (N.to_nat vl = length r) as Hlr by lia. rewrite Hlr at 1 3.
  rewrite take_app_length, drop_app_length. f_equal. apply IH. lia.
Qed.

Lemma append_run k v s :
  append k v s = (let '(r, s') := append_with_metadata k v s in (append_token_index <$> r, s')).
Proof. unfold append, mbind, stm_bind. destruct (append_with_metadata k v s) as [[a|e|] s']; done. Qed.

Lemma append_all_spec rows c w q :
  layer_repr c w q → lworld_ok w → fits_rows (vector_len c) rows →
  token_count c + N.of_nat (length rows) ≤ max_tokens c → tokens_seen c = token_count c →
  match for_each (λ r : Row, _ ← append r.1 r.2; mret tt) rows (c, w) with
  | (Ok _, (c', w')) => layer_repr c' w' (q ++ rows) ∧ lworld_ok w' ∧ window_start c' = window_start c
      ∧ max_tokens c' = max_tokens c ∧ key_value_heads c' = key_value_heads c ∧ head_dim c' = head_dim c
  | (Err e, (_, w')) => e = InvalidShape ∧ ids_exhausted w'
  | (Panic, _) => False
  end.
Proof.
  revert c w q. induction rows as [|[k v] rows IH]; intros c w q Hr Hw Hfit Hroom Hseen.
  { cbn. rewrite app_nil_r. done. }
  apply Forall_cons in Hfit as [[Hk Hv] Hfit]. cbn [fst snd length] in *.
  pose proof (lr_shape _ _ _ Hr) as Hs. destruct (shape_bounds _ Hs) as (_ & Hmax & _).
  cbn [for_each fst snd]. unfold mbind at 1, stm_bind at 1. unfold mbind at 1, stm_bind at 1. rewrite append_run.
  rewrite append_with_metadata_ok by done. rewrite (proj2 (N.eqb_neq _ _)) by lia.
  pose proof (append_at_end_spec c w q k v Hr Hw ltac:(lia) Hk Hv) as Ha.
  destruct (append_at_end_validated k v (c, w)) as [[a|e|] [c1 w1]]; [| |done]; cbn [fmap outcome_fmap].
  - destruct Ha as [_ [Hr1 Hw1 _ Hs1 _ (_ & Hm1 & Hh1 & Hd1) _ Hp1 _]].
    assert (vector_len c1 = vector_len c) as Hvl by (unfold vector_len; congruence).
    pose proof (lr_length _ _ _ Hr) as Hlq. pose proof (lr_length _ _ _ Hr1) as Hlq1. rewrite length_app in Hlq1. cbn [length] in Hlq1.
    specialize (IH c1 w1 _ Hr1 Hw1 ltac:(by rewrite Hvl) ltac:(lia) ltac:(lia)).
    unfold mret, stm_ret. rewrite <- app_assoc in IH. 
    destruct (for_each _ rows (c1, w1)) as [[?|e|] [c2 w2]]; [|done..].
    destruct IH as (? & ? & Hws & ? & ? & ?). split_and!; try done; try congruence.
    rewrite Hws. rewrite (sh_unwrapped _ Hs) by lia. pose proof (lr_shape _ _ _ Hr1) as Hsh1.
    destruct (N.lt_ge_cases (token_count c1) (max_tokens c1)) as [Hl|Hg]; [by apply sh_unwrapped|].
    unfold position in Hp1. pose proof (sh_start _ Hsh1) as Hst1.
    apply (ring_inj (token_count c1 - 1) (window_start c1) 0 (max_tokens c1)); try lia.
    rewrite (N.add_comm _ (window_start c1)), <- Hp1, N.add_0_r, N.mod_small by lia. lia.
  - destruct Ha as (-> & [= -> ->] & [Hse|Hex]); [lia|done].
Qed.

End layer_properties.

(** ** Witnesses: a window of two one-element rows *)
Definition demo_world : LWorld := MkLWorld 1 initial_world.
Definition demo_rows : list Row := [([11], [21]); ([12], [22]); ([13], [23])].

Lemma demo_world_ok : lworld_ok demo_world.
Proof. split; [exact initial_world_wf|reflexivity]. Qed.

#[local] Instance demo_arith : F32Arith := toy_arith.

Lemma demo_fresh : ∃ c w, new 2 1 1 demo_world = (Ok c, w) ∧ layer_repr c w [] ∧ lworld_ok w.
Proof.
  pose proof (new_layer_spec 2 1 1 demo_world demo_world_ok) as Hn.
  destruct (new 2 1 1 demo_world) as [[c|e|] w] eqn:E.
  - destruct Hn as (_ & _ & _ & [Hr Hw _ _ _ _]); [by vm_compute|]. by exists c, w.
  - vm_compute in E. discriminate.
  - vm_compute in E. discriminate.
Qed.

(** Three rows through the window: the ring has wrapped. *)
Lemma demo_slid : ∃ c w, layer_repr c w [([12], [22]); ([13], [23])] ∧ lworld_ok w
  ∧ window_start c = 1 ∧ vector_len c = 1.
Proof.
  destruct demo_fresh as (c & w & E & Hr & Hw). pose proof (slide_all_spec demo_rows c w [] Hr Hw) as Hsl.
  vm_compute in E. injection E as <- <-. destruct (slide_all _ _) as [r [c' w']] eqn:Es.
  destruct Hsl as (n & Hn & Hr' & Hw' & _ & _ & _ & Hres).
  { unfold fits_rows, demo_rows. repeat constructor. }
  vm_compute in Es. injection Es as <- <- <-. destruct Hres as [[_ ->]|[? _]]; [|discriminate].
  eexists _, _. split; [exact Hr'|]. by split_and!.
Qed.


Lemma layer_reads_window_witness :
  ∃ c w c', layer_repr c w [([12], [22]); ([13], [23])] ∧ window_start c = 1
  ∧ key 1 c w = Ok (Some [13]) ∧ key 2 c w = Ok None ∧ keys c = Some ([12; 13], c').
Proof.
  destruct demo_slid as (c & w & Hr & Hw & Hs & Hvl).
  destruct (layer_reads_window c w _ Hr) as (Hkv & (c' & Hk & _) & _).
  exists c, w, c'. split; [exact Hr|]. split; [exact Hs|]. split; [apply (Hkv 1)|]. split; [apply (Hkv 2)|exact Hk].
Defined.


