(* ===== verification/BlockPool.v ===== *)
(** * The paged KV block allocator

    Models [BlockPoolInner] of [crates/llm-kv-cache/src/block_pool.rs].  The
    public [BlockPool] runs every operation under one mutex, so each operation
    is one atomic step of the state below; the heap and identifier counter of
    [CacheBlock.v] are part of that state. *)
From stdpp Require Import base gmap sets numbers sorting list.
From S2P Require Import Prelude KvTables CacheBlock.
Open Scope N_scope.

(** ** State *)
Record PrefixBlockSnapshot := MkPrefixBlockSnapshot {
  snap_block_id : BlockIdT;
  snap_content_hash : CacheBlockHash;
}.

Module PrefixEntry.
Definition t := list PrefixBlockSnapshot.
Definition block_ids (e : t) : list BlockIdT := snap_block_id <$> e.
Definition terminal_hash (e : t) : option CacheBlockHash := snap_content_hash <$> last e.
End PrefixEntry.

Module PagedKvCacheMetrics.
Record t := Make {
  total_refcount_increments : N;
  total_cow_clones : N;
  cow_bytes_saved : N;
  blocks_evicted_lru : N;
  sessions_evicted_lru : N;
  eviction_high_water_mark : N;
  pool_high_water_blocks : N;
  max_refcount_seen : N;
}.
Definition zero : t := Make 0 0 0 0 0 0 0 0.

Definition record_refcount (ref_count : N) (m : t) : t :=
  Make (total_refcount_increments m) (total_cow_clones m) (cow_bytes_saved m)
    (blocks_evicted_lru m) (sessions_evicted_lru m) (eviction_high_water_mark m)
    (pool_high_water_blocks m) (N.max (max_refcount_seen m) ref_count).

Definition record_shared_refcount_increment (ref_count bytes_saved : N) (m : t) : t :=
  record_refcount ref_count
    (Make (sat_add (total_refcount_increments m) 1) (total_cow_clones m)
       (sat_add (cow_bytes_saved m) bytes_saved)
       (blocks_evicted_lru m) (sessions_evicted_lru m) (eviction_high_water_mark m)
       (pool_high_water_blocks m) (max_refcount_seen m)).

Definition record_cow_clone (m : t) : t :=
  Make (total_refcount_increments m) (sat_add (total_cow_clones m) 1) (cow_bytes_saved m)
    (blocks_evicted_lru m) (sessions_evicted_lru m) (eviction_high_water_mark m)
    (pool_high_water_blocks m) (max_refcount_seen m).

Definition record_eviction (evicted_blocks high_water_blocks : N) (m : t) : t :=
  Make (total_refcount_increments m) (total_cow_clones m) (cow_bytes_saved m)
    (sat_add (blocks_evicted_lru m) evicted_blocks)
    (sat_add (sessions_evicted_lru m) 1)
    (N.max (eviction_high_water_mark m) high_water_blocks)
    (pool_high_water_blocks m) (max_refcount_seen m).

Definition record_pool_residency (resident_blocks : N) (m : t) : t :=
  Make (total_refcount_increments m) (total_cow_clones m) (cow_bytes_saved m)
    (blocks_evicted_lru m) (sessions_evicted_lru m) (eviction_high_water_mark m)
    (N.max (pool_high_water_blocks m) resident_blocks) (max_refcount_seen m).
End PagedKvCacheMetrics.
Import PagedKvCacheMetrics (record_refcount, record_shared_refcount_increment,
  record_cow_clone, record_eviction, record_pool_residency).

Record Pool := MkPool {
  blocks : gmap BlockIdT CacheBlock.t;
  free_list : list BlockIdT;
  prefixes : gmap CacheBlockHash PrefixEntry.t;
  sessions : gmap SessionIdT SessionBlockTable.t;
  next_session_id : SessionIdT;
  access_clock : N;
  metrics : PagedKvCacheMetrics.t;
  world : World;
}.

(** Field updates. *)
Definition set_blocks (b : gmap BlockIdT CacheBlock.t) (p : Pool) : Pool :=
  MkPool b (free_list p) (prefixes p) (sessions p) (next_session_id p) (access_clock p)
    (metrics p) (world p).
Definition set_free_list (l : list BlockIdT) (p : Pool) : Pool :=
  MkPool (blocks p) l (prefixes p) (sessions p) (next_session_id p) (access_clock p)
    (metrics p) (world p).
Definition set_prefixes (m : gmap CacheBlockHash PrefixEntry.t) (p : Pool) : Pool :=
  MkPool (blocks p) (free_list p) m (sessions p) (next_session_id p) (access_clock p)
    (metrics p) (world p).
Definition set_sessions (m : gmap SessionIdT SessionBlockTable.t) (p : Pool) : Pool :=
  MkPool (blocks p) (free_list p) (prefixes p) m (next_session_id p) (access_clock p)
    (metrics p) (world p).
Definition set_next_session_id (n : N) (p : Pool) : Pool :=
  MkPool (blocks p) (free_list p) (prefixes p) (sessions p) n (access_clock p)
    (metrics p) (world p).
Definition set_access_clock (n : N) (p : Pool) : Pool :=
  MkPool (blocks p) (free_list p) (prefixes p) (sessions p) (next_session_id p) n
    (metrics p) (world p).
Definition update_metrics (f : PagedKvCacheMetrics.t → PagedKvCacheMetrics.t) (p : Pool) : Pool :=
  MkPool (blocks p) (free_list p) (prefixes p) (sessions p) (next_session_id p)
    (access_clock p) (f (metrics p)) (world p).
Definition set_world (w : World) (p : Pool) : Pool :=
  MkPool (blocks p) (free_list p) (prefixes p) (sessions p) (next_session_id p)
    (access_clock p) (metrics p) w.
(** A block of the table replaced by its updated value. *)
Definition put_block (id : BlockIdT) (b : CacheBlock.t) (p : Pool) : Pool :=
  set_blocks (<[id := b]> (blocks p)) p.
Definition put_session (id : SessionIdT) (s : SessionBlockTable.t) (p : Pool) : Pool :=
  set_sessions (<[id := s]> (sessions p)) p.

(** ** Construction *)

(** The loop of [BlockPoolInner::new]. *)
Fixpoint new_blocks (n : nat) (cap vlen : N) (bs : gmap BlockIdT CacheBlock.t)
    (free : list BlockIdT) (w : World)
    : outcome KvCacheError (gmap BlockIdT CacheBlock.t * list BlockIdT) * World :=
  match n with
  | O => (Ok (bs, free), w)
  | S n =>
      match CacheBlock.new cap vlen w with
      | (Ok b, w) =>
          new_blocks n cap vlen (<[CacheBlock.id b := b]> bs) (free ++ [CacheBlock.id b]) w
      | (Err e, w) => (Err e, w)
      | (Panic, w) => (Panic, w)
      end
  end.

Definition new (block_count block_capacity_tokens vector_len : N) (w : World)
    : outcome KvCacheError Pool * World :=
  if block_count =? 0 then (Err InvalidShape, w)
  else match new_blocks (N.to_nat block_count) block_capacity_tokens vector_len ∅ [] w with
       | (Ok (bs, free), w) =>
           (Ok (MkPool bs free ∅ ∅ 1 0 PagedKvCacheMetrics.zero w), w)
       | (Err e, w) => (Err e, w)
       | (Panic, w) => (Panic, w)
       end.

(** ** Clocks and gauges *)
Definition total_blocks (p : Pool) : nat := size (blocks p).
Definition free_blocks (p : Pool) : nat := length (free_list p).
Definition session_count (p : Pool) : nat := size (sessions p).

Definition next_access (p : Pool) : N * Pool :=
  let c := sat_add (access_clock p) 1 in (c, set_access_clock c p).

(** [next_session_id]: on overflow the error leaves the counter. *)
Definition take_session_id (p : Pool) : outcome KvCacheError SessionIdT * Pool :=
  let sid := next_session_id p in
  match checked_add sid 1 with
  | Some n => if n =? 0 then (Err InvalidShape, p) else (Ok sid, set_next_session_id n p)
  | None => (Err InvalidShape, p)
  end.

Definition resident_blocks_from_free_list (p : Pool) : N :=
  sat_sub (N.of_nat (size (blocks p))) (N.of_nat (length (free_list p))).

Definition note_pool_residency (p : Pool) : Pool :=
  update_metrics (record_pool_residency (resident_blocks_from_free_list p)) p.

(** ** Blocks: allocate, retain, release, touch *)
Definition allocate (p : Pool) : option BlockIdT * Pool :=
  match vec_pop (free_list p) with
  | None => (None, p)
  | Some (block_id, rest) =>
      let '(access, p) := next_access (set_free_list rest p) in
      match blocks p !! block_id with
      | None => (None, p)
      | Some block =>
          let '(block, w) := CacheBlock.reset_for_allocation access block (world p) in
          let p := set_world w (put_block block_id block p) in
          let p := update_metrics (record_refcount (CacheBlock.ref_count block)) p in
          (Some block_id, note_pool_residency p)
      end
  end.

Definition retain (block_id : BlockIdT) (p : Pool) : bool * Pool :=
  match blocks p !! block_id with
  | None => (false, p)
  | Some block =>
      if CacheBlock.ref_count block =? 0 then (false, p)
      else
        let bytes_saved := CacheBlock.payload_bytes block (world p) in
        let '(ref_count, block) := CacheBlock.increment_ref_count block in
        (true, update_metrics (record_shared_refcount_increment ref_count bytes_saved)
                 (put_block block_id block p))
  end.

Definition release (block_id : BlockIdT) (p : Pool) : bool * Pool :=
  match blocks p !! block_id with
  | None => (false, p)
  | Some block =>
      if CacheBlock.ref_count block =? 0 then (false, p)
      else
        let '(n, block) := CacheBlock.decrement_ref_count block in
        if n =? 0 then
          let '(block, w) := CacheBlock.clear block (world p) in
          (true, set_free_list (free_list p ++ [block_id])
                   (set_world w (put_block block_id block p)))
        else (true, put_block block_id block p)
  end.

Definition deallocate (block_id : BlockIdT) (p : Pool) : bool * Pool := release block_id p.

Definition touch (block_id : BlockIdT) (p : Pool) : option unit * Pool :=
  let '(access, p) := next_access p in
  match blocks p !! block_id with
  | None => (None, p)
  | Some block =>
      if CacheBlock.ref_count block =? 0 then (None, p)
      else (Some tt, put_block block_id (CacheBlock.touch access block) p)
  end.

(** [block_mut]: the block handed to the caller's closure, only when nothing
    else owns it. *)
Definition block_mut (block_id : BlockIdT) (p : Pool) : option CacheBlock.t :=
  block ← blocks p !! block_id;
  if CacheBlock.ref_count block =? 1 then Some block else None.

(** [with_block_mut] for a closure [f] over the block and the heap; the [option]
    is the call's own result. *)
Definition with_block_mut {R} (f : CacheBlock.t → World → R * CacheBlock.t * World)
    (block_id : BlockIdT) (p : Pool) : option R * Pool :=
  match block_mut block_id p with
  | None => (None, p)
  | Some block =>
      let '(r, block, w) := f block (world p) in
      (Some r, set_world w (put_block block_id block p))
  end.

(** ** Sessions *)
Definition create_session (p : Pool) : outcome KvCacheError SessionIdT * Pool :=
  match take_session_id p with
  | (Ok session_id, p) =>
      let '(access, p) := next_access p in
      match SessionBlockTable.new session_id access with
      | Ok session => (Ok session_id, put_session session_id session p)
      | Err e => (Err e, p)
      | Panic => (Panic, p)
      end
  | (r, p) => (r, p)
  end.

Definition block_ref_count (id : BlockIdT) (p : Pool) : option N :=
  CacheBlock.ref_count <$> blocks p !! id.

(** One iteration of the loop of [release_session_inner]. *)
Definition release_owned (acc : N * Pool) (block_id : BlockIdT) : N * Pool :=
  let '(released_blocks, p) := acc in
  let was_resident :=
    match block_ref_count block_id p with Some n => 0 <? n | None => false end in
  let '(ok, p) := release block_id p in
  let now_free :=
    match block_ref_count block_id p with Some n => n =? 0 | None => false end in
  ((if ok && was_resident && now_free then sat_add released_blocks 1 else released_blocks), p).

Section ops.
Context `{HashOrder}.

Definition allocated_blocks (p : Pool) : nat :=
  length (filter (λ b, 0 < CacheBlock.ref_count b) (hash_values (blocks p))).

Definition lru_block (p : Pool) : option BlockIdT :=
  CacheBlock.id <$>
    first_min (λ x y, CacheBlock.last_access x <? CacheBlock.last_access y)
      (filter (λ b, 0 < CacheBlock.ref_count b) (hash_values (blocks p))).

Definition release_session_inner (session_id : SessionIdT) (p : Pool) : option N * Pool :=
  match sessions p !! session_id with
  | None => (None, p)
  | Some session =>
      let p := set_sessions (delete session_id (sessions p)) p in
      let owned_blocks := hash_elems (SessionBlockTable.owned_blocks session) in
      let '(released_blocks, p) := foldl release_owned (0, p) owned_blocks in
      (Some released_blocks, p)
  end.

Definition release_session (session_id : SessionIdT) (p : Pool) : bool * Pool :=
  let '(r, p) := release_session_inner session_id p in (bool_decide (is_Some r), p).

(** The [min_by_key] of [lru_session_except]: lexicographic on the last access,
    the creation stamp and the identifier. *)
Definition session_key_lt (x y : SessionBlockTable.t) : bool :=
  match SessionBlockTable.last_access x ?= SessionBlockTable.last_access y with
  | Lt => true
  | Gt => false
  | Eq =>
      match SessionBlockTable.created_at x ?= SessionBlockTable.created_at y with
      | Lt => true
      | Gt => false
      | Eq => SessionBlockTable.session_id x <? SessionBlockTable.session_id y
      end
  end.

Definition lru_session_except (excluded : option SessionIdT) (p : Pool) : option SessionIdT :=
  SessionBlockTable.session_id <$>
    first_min session_key_lt
      (filter (λ s, SessionBlockTable.is_empty s = false)
         (filter (λ s, Some (SessionBlockTable.session_id s) ≠ excluded)
            (hash_values (sessions p)))).

Definition lru_session (p : Pool) : option SessionIdT := lru_session_except None p.

(** The loop of [evict_sessions_until_free]; each round removes a session, so
    the number of sessions bounds the rounds. *)
Fixpoint evict_loop (fuel : nat) (excluded : SessionIdT) (p : Pool) : Pool :=
  match fuel with
  | O => p
  | S fuel =>
      match free_list p with
      | _ :: _ => p
      | [] =>
          match lru_session_except (Some excluded) p with
          | None => p
          | Some session_id =>
              let high_water_blocks := resident_blocks_from_free_list p in
              match release_session_inner session_id p with
              | (None, p) => p
              | (Some evicted_blocks, p) =>
                  evict_loop fuel excluded
                    (update_metrics (record_eviction evicted_blocks high_water_blocks) p)
              end
          end
      end
  end.

Definition evict_sessions_until_free (excluded : SessionIdT) (p : Pool) : Pool :=
  evict_loop (S (size (sessions p))) excluded p.

Definition append_block_to_session_inner (session_id : SessionIdT) (block_id : BlockIdT)
    (retain_new_owner : bool) (p : Pool) : outcome KvCacheError unit * Pool :=
  match blocks p !! block_id with
  | None => (Err InvalidShape, p)
  | Some block =>
      if CacheBlock.ref_count block =? 0 then (Err InvalidShape, p)
      else
        let '(access, p) := next_access p in
        match sessions p !! session_id with
        | None => (Err InvalidShape, p)
        | Some session =>
            match SessionBlockTable.append_owned_block block_id session with
            | Err e => (Err e, p)
            | Panic => (Panic, p)
            | Ok (newly_owned, session) =>
                let p := put_session session_id (SessionBlockTable.touch access session) p in
                if retain_new_owner && newly_owned then
                  let bytes_saved := CacheBlock.payload_bytes block (world p) in
                  let '(ref_count, block) := CacheBlock.increment_ref_count block in
                  (Ok tt,
                   put_block block_id (CacheBlock.touch access block)
                     (update_metrics (record_shared_refcount_increment ref_count bytes_saved) p))
                else (Ok tt, put_block block_id (CacheBlock.touch access block) p)
            end
        end
  end.

Definition allocate_for_session (session_id : SessionIdT) (p : Pool) : option BlockIdT * Pool :=
  match sessions p !! session_id with
  | None => (None, p)
  | Some _ =>
      let p := match free_list p with
               | [] => evict_sessions_until_free session_id p
               | _ => p
               end in
      match allocate p with
      | (None, p) => (None, p)
      | (Some block_id, p) =>
          match append_block_to_session_inner session_id block_id false p with
          | (Ok _, p) => (Some block_id, p)
          | (_, p) => (None, p)
          end
      end
  end.

Definition append_block_to_session (session_id : SessionIdT) (block_id : BlockIdT) (p : Pool)
    : outcome KvCacheError unit * Pool :=
  append_block_to_session_inner session_id block_id true p.

Definition read_session_block (session_id : SessionIdT) (index : nat) (p : Pool)
    : option BlockIdT * Pool :=
  let '(access, p) := next_access p in
  match sessions p !! session_id with
  | None => (None, p)
  | Some session =>
      match SessionBlockTable.read_block index session with
      | None => (None, p)
      | Some block_id =>
          let p := put_session session_id (SessionBlockTable.touch access session) p in
          match blocks p !! block_id with
          | None => (None, p)
          | Some block =>
              if CacheBlock.ref_count block =? 0 then (None, p)
              else (Some block_id, put_block block_id (CacheBlock.touch access block) p)
          end
      end
  end.

(** ** Prefixes *)
Definition prefix_entry_for (block_ids : list BlockIdT) (p : Pool) : option PrefixEntry.t :=
  mapM (λ block_id,
    block ← blocks p !! block_id;
    if CacheBlock.ref_count block =? 0 then None
    else h ← CacheBlock.content_hash block;
         Some (MkPrefixBlockSnapshot block_id h)) block_ids.

Definition prefix_blocks_match (prefix_hash : CacheBlockHash) (entry : PrefixEntry.t)
    (p : Pool) : bool :=
  bool_decide (PrefixEntry.terminal_hash entry = Some prefix_hash)
  && forallb (λ snapshot,
       match blocks p !! snap_block_id snapshot with
       | Some block =>
           (0 <? CacheBlock.ref_count block)
           && bool_decide (CacheBlock.content_hash block = Some (snap_content_hash snapshot))
       | None => false
       end) entry.

Definition register_prefix (prefix_hash : CacheBlockHash) (block_ids : list BlockIdT)
    (p : Pool) : Pool :=
  match prefix_entry_for block_ids p with
  | Some entry =>
      if bool_decide (PrefixEntry.terminal_hash entry = Some prefix_hash)
      then set_prefixes (<[prefix_hash := entry]> (prefixes p)) p
      else set_prefixes (delete prefix_hash (prefixes p)) p
  | None => set_prefixes (delete prefix_hash (prefixes p)) p
  end.

Definition lookup_prefix (prefix_hash : CacheBlockHash) (p : Pool) : option (list BlockIdT) :=
  entry ← prefixes p !! prefix_hash;
  if prefix_blocks_match prefix_hash entry p then Some (PrefixEntry.block_ids entry) else None.

(** The loop of [attach_prefix_to_session]; [false] is its early [?] return. *)
Fixpoint attach_loop (session_id : SessionIdT) (ids : list BlockIdT) (p : Pool) : bool * Pool :=
  match ids with
  | [] => (true, p)
  | block_id :: ids =>
      match append_block_to_session_inner session_id block_id true p with
      | (Ok _, p) => attach_loop session_id ids p
      | (_, p) => (false, p)
      end
  end.

Definition attach_prefix_to_session (session_id : SessionIdT) (prefix_hash : CacheBlockHash)
    (p : Pool) : option (list BlockIdT) * Pool :=
  match sessions p !! session_id with
  | None => (None, p)
  | Some _ =>
      match lookup_prefix prefix_hash p with
      | None => (None, p)
      | Some block_ids =>
          let '(ok, p) := attach_loop session_id block_ids p in
          (if ok then Some block_ids else None, p)
      end
  end.

(** ** Copy on write *)
Definition touch_session_block (session_id : SessionIdT) (block_id : BlockIdT) (p : Pool)
    : outcome KvCacheError unit * Pool :=
  let '(access, p) := next_access p in
  match sessions p !! session_id with
  | None => (Err InvalidShape, p)
  | Some session =>
      let p := put_session session_id (SessionBlockTable.touch access session) p in
      match blocks p !! block_id with
      | None => (Err InvalidShape, p)
      | Some block =>
          if CacheBlock.ref_count block =? 0 then (Err InvalidShape, p)
          else (Ok tt, put_block block_id (CacheBlock.touch access block) p)
      end
  end.

(** The identifier when the session is the block's only owner, after a touch. *)
Definition touch_sole_owner (session_id : SessionIdT) (block_id : BlockIdT) (p : Pool)
    : outcome KvCacheError BlockIdT * Pool :=
  match touch_session_block session_id block_id p with
  | (Ok _, p) => (Ok block_id, p)
  | (Err e, p) => (Err e, p)
  | (Panic, p) => (Panic, p)
  end.

(** The second half of [copy_on_write_session_block], once the block is known to
    be shared: allocate, copy, replace the table entry. *)
Definition copy_shared_block (session_id : SessionIdT) (index : nat) (block_id : BlockIdT)
    (p : Pool) : outcome KvCacheError BlockIdT * Pool :=
  match allocate p with
  | (None, p) => (Err (CapacityExceeded 1 0), p)
  | (Some new_block_id, p) =>
      let '(access, p) := next_access p in
      match blocks p !! block_id, blocks p !! new_block_id with
      | Some source, Some destination =>
          (* [get_disjoint_mut] panics on a repeated key *)
          if block_id =? new_block_id then (Panic, p) else
          match CacheBlock.copy_contents_from source access destination (world p) with
          | Panic => (Panic, p)
          | Err e => (Err e, (release new_block_id p).2)
          | Ok (destination, w) =>
              let p := set_world w (put_block new_block_id destination p) in
              match sessions p !! session_id with
              | None => (Err InvalidShape, p)
              | Some session =>
                  match SessionBlockTable.replace_owned_block index new_block_id session with
                  | Panic => (Panic, p)
                  | Err e =>
                      let p := put_session session_id (SessionBlockTable.touch access session) p in
                      (Err e, (release new_block_id p).2)
                  | Ok (_, should_release_previous, session) =>
                      let p := put_session session_id (SessionBlockTable.touch access session) p in
                      let p := if should_release_previous then (release block_id p).2 else p in
                      (Ok new_block_id, update_metrics record_cow_clone p)
                  end
              end
          end
      | _, _ => (Err InvalidShape, (release new_block_id p).2)
      end
  end.

Definition session_block_at (session_id : SessionIdT) (index : nat) (p : Pool) : option BlockIdT :=
  session ← sessions p !! session_id; SessionBlockTable.read_block index session.

(** [blocks.get(..).filter(|b| b.ref_count() > 0)] followed by [ref_count()]. *)
Definition live_ref_count (block_id : BlockIdT) (p : Pool) : option N :=
  n ← block_ref_count block_id p; if n =? 0 then None else Some n.

Definition copy_on_write_session_block (session_id : SessionIdT) (index : nat) (p : Pool)
    : outcome KvCacheError BlockIdT * Pool :=
  match session_block_at session_id index p with
  | None => (Err InvalidShape, p)
  | Some block_id =>
      match live_ref_count block_id p with
      | None => (Err InvalidShape, p)
      | Some ref_count =>
          if ref_count =? 1 then touch_sole_owner session_id block_id p
          else
            let p := match free_list p with
                     | [] => evict_sessions_until_free session_id p
                     | _ => p
                     end in
            match live_ref_count block_id p with
            | None => (Err InvalidShape, p)
            | Some ref_count =>
                if ref_count =? 1 then touch_sole_owner session_id block_id p
                else copy_shared_block session_id index block_id p
            end
      end
  end.
End ops.
