(* ===== verification/BlockPoolInv.v ===== *)
(** * Invariant of the block allocator

    The well-formedness of a pool, the reference-count accounting that ties
    every block's count to the handles and sessions that hold it, and the
    preservation of both by each operation of [BlockPool.v]. *)
From stdpp Require Import base gmap sets numbers list.
From S2P Require Import Prelude KvTables CacheBlock BlockPool.
Import CacheBlock.
Open Scope N_scope.

(** ** Sessions that own a block *)
Definition owners (ss : gmap SessionIdT SessionBlockTable.t) (id : BlockIdT) : nat :=
  size (filter (λ kv, id ∈ SessionBlockTable.owned_blocks kv.2) ss).

Definition owns (s : SessionBlockTable.t) (id : BlockIdT) : nat :=
  if decide (id ∈ SessionBlockTable.owned_blocks s) then 1 else 0.

Lemma owners_insert_fresh ss sid s id :
  ss !! sid = None → owners (<[sid := s]> ss) id = (owns s id + owners ss id)%nat.
Proof.
  intros Hsid. unfold owners, owns. case_decide as Hin.
  - rewrite map_filter_insert_True by done. rewrite map_size_insert_None; [done|].
    apply map_lookup_filter_None. by left.
  - rewrite map_filter_insert_False by done. by rewrite delete_id.
Qed.

Lemma owners_delete ss sid s id :
  ss !! sid = Some s → owners ss id = (owns s id + owners (delete sid ss) id)%nat.
Proof.
  intros Hsid. rewrite <- (insert_id ss sid s Hsid) at 1. rewrite <- insert_delete_eq.
  apply owners_insert_fresh. apply lookup_delete_eq.
Qed.

Lemma owners_insert ss sid s s' id :
  ss !! sid = Some s →
  (owners (<[sid := s']> ss) id + owns s id = owns s' id + owners ss id)%nat.
Proof.
  intros Hsid. rewrite <- insert_delete_eq.
  rewrite owners_insert_fresh by apply lookup_delete_eq.
  rewrite (owners_delete ss sid s id Hsid). lia.
Qed.

Lemma owners_insert_same ss sid s s' id :
  ss !! sid = Some s →
  SessionBlockTable.owned_blocks s' = SessionBlockTable.owned_blocks s →
  owners (<[sid := s']> ss) id = owners ss id.
Proof.
  intros Hsid Ho. pose proof (owners_insert ss sid s s' id Hsid) as H.
  unfold owns in H. rewrite Ho in H. lia.
Qed.

Lemma owners_pos ss sid s id :
  ss !! sid = Some s → id ∈ SessionBlockTable.owned_blocks s → (0 < owners ss id)%nat.
Proof.
  intros Hs Hin. rewrite (owners_delete ss sid s id Hs). unfold owns.
  rewrite decide_True by done. lia.
Qed.

(** ** Well-formed pools *)

(** What an update of a block's storage may do to the heap: nothing another
    block of the pool can see. *)
Definition storage_step (b b' : t) (w w' : World) : Prop :=
  ∀ k, Arc.get k (storages w) ≠ None → k ≠ storage b →
    Arc.get k (storages w') = Arc.get k (storages w) ∧ k ≠ storage b'.

Lemma storage_frame_step b b' w w' : storage_frame b b' w w' → storage_step b b' w w'.
Proof. intros [_ Hf] k Hk Hne. apply Hf; auto. Qed.

Lemma storage_step_refl b b' w : storage b' = storage b → storage_step b b' w w.
Proof. intros Heq k Hk Hne. split; congruence. Qed.

(** [ext id] counts the handles on [id] held outside the sessions: one for each
    [allocate] and [retain] not yet given back. *)
Record pool_inv (ext : BlockIdT → nat) (bs : gmap BlockIdT t) (fl : list BlockIdT)
    (ss : gmap SessionIdT SessionBlockTable.t) (ns : N) (w : World) : Prop := {
  pi_world : world_wf w;
  pi_block : ∀ i b, bs !! i = Some b → id b = i ∧ i ≠ 0 ∧ block_wf b w;
  pi_alias : ∀ i j b c, bs !! i = Some b → bs !! j = Some c → storage b = storage c → i = j;
  pi_shape : ∀ i j b c, bs !! i = Some b → bs !! j = Some c →
    capacity_tokens b = capacity_tokens c ∧ vector_len b = vector_len c;
  pi_free_nodup : NoDup fl;
  pi_free : ∀ i, i ∈ fl ↔ ∃ b, bs !! i = Some b ∧ ref_count b = 0;
  pi_session : ∀ sid s, ss !! sid = Some s →
    SessionBlockTable.wf s ∧ SessionBlockTable.session_id s = sid ∧ sid < ns;
  pi_next : 0 < ns;
  pi_count : ∀ i b, bs !! i = Some b → ref_count b = N.of_nat (ext i + owners ss i);
  pi_known : ∀ i, (0 < ext i + owners ss i)%nat → is_Some (bs !! i);
}.

Definition inv (ext : BlockIdT → nat) (p : Pool) : Prop :=
  pool_inv ext (blocks p) (free_list p) (sessions p) (next_session_id p) (world p).

Definition ext_add (id : BlockIdT) (ext : BlockIdT → nat) : BlockIdT → nat :=
  λ i, if decide (i = id) then S (ext i) else ext i.
Definition ext_sub (id : BlockIdT) (ext : BlockIdT → nat) : BlockIdT → nat :=
  λ i, if decide (i = id) then pred (ext i) else ext i.

Create HintDb pool.

Section core.
Context (ext : BlockIdT → nat) (bs : gmap BlockIdT t) (fl : list BlockIdT)
        (ss : gmap SessionIdT SessionBlockTable.t) (ns : N) (w : World).

(** Replacing a block, with the free list following its count. *)
Lemma inv_put_block ext' i b b' w' fl' :
  pool_inv ext bs fl ss ns w → bs !! i = Some b →
  id b' = i → capacity_tokens b' = capacity_tokens b → vector_len b' = vector_len b →
  world_wf w' → block_wf b' w' → storage_step b b' w w' →
  NoDup fl' →
  (∀ x, x ∈ fl' ↔ (x = i ∧ ref_count b' = 0) ∨ (x ≠ i ∧ x ∈ fl)) →
  ref_count b' = N.of_nat (ext' i + owners ss i) →
  (∀ x, x ≠ i → ext' x = ext x) →
  pool_inv ext' (<[i := b']> bs) fl' ss ns w'.
Proof.
  intros Hp Hb Hid Hcap Hvl Hw' Hb' Hstep Hnd Hfl Hrc Hext.
  assert (∀ j c, bs !! j = Some c → j ≠ i → storage c ≠ storage b' ∧ block_wf c w') as Hothers.
  { intros j c Hc Hj. destruct (pi_block _ _ _ _ _ _ Hp j c Hc) as (_ & _ & Hsh & s & Hs & Hst).
    destruct (Hstep (storage c)) as [Hget Hne]; [congruence|..].
    - intros Heq. by apply Hj, (pi_alias _ _ _ _ _ _ Hp j i c b).
    - split; [done|]. split; [done|]. exists s. by rewrite Hget. }
  constructor; try by apply Hp.
  - done.
  - intros j c. rewrite lookup_insert. case_decide as Hj.
    + intros [= <-]. subst j. destruct (pi_block _ _ _ _ _ _ Hp i b Hb) as (_ & ? & _). auto.
    + intros Hc. destruct (pi_block _ _ _ _ _ _ Hp j c Hc) as (? & ? & _).
      split_and!; [done..|]. by apply (Hothers j).
  - intros j k c d. rewrite !lookup_insert. do 2 case_decide; intros; simplify_eq; try done.
    + edestruct (Hothers k d) as [? _]; [done|congruence|congruence].
    + edestruct (Hothers j c) as [? _]; [done|congruence|congruence].
    + by apply (pi_alias _ _ _ _ _ _ Hp j k c d).
  - intros j k c d. rewrite !lookup_insert.
    do 2 case_decide; intros; simplify_eq; try done; rewrite ?Hcap, ?Hvl;
      eapply (pi_shape _ _ _ _ _ _ Hp); done.
  - done.
  - intros x. rewrite Hfl, lookup_insert. case_decide as Hx.
    + subst. split; [|naive_solver]. intros [[_ ?]|[? _]]; [eauto|done].
    + rewrite (pi_free _ _ _ _ _ _ Hp x). naive_solver.
  - intros j c. rewrite lookup_insert. case_decide as Hj; intros; simplify_eq; [done|].
    rewrite Hext by done. by apply (pi_count _ _ _ _ _ _ Hp).
  - intros j Hj. rewrite lookup_insert. case_decide; [done|].
    apply (pi_known _ _ _ _ _ _ Hp). by rewrite <- Hext.
Qed.

(** A block replaced by one with the same count and storage. *)
Lemma inv_put_same i b b' :
  pool_inv ext bs fl ss ns w → bs !! i = Some b →
  id b' = id b → shape_wf b' → capacity_tokens b' = capacity_tokens b →
  vector_len b' = vector_len b →
  ref_count b' = ref_count b → storage b' = storage b →
  pool_inv ext (<[i := b']> bs) fl ss ns w.
Proof.
  intros Hp Hb Hid Hsh Hcap Hvl Hrc Hst.
  destruct (pi_block _ _ _ _ _ _ Hp i b Hb) as (Hi & H0 & _ & s & Hs & Hsw).
  eapply inv_put_block; try done.
  - by rewrite Hid.
  - apply Hp.
  - split; [done|]. exists s. by rewrite Hst, Hcap, Hvl.
  - by apply storage_step_refl.
  - apply Hp.
  - intros x. destruct (decide (x = i)) as [->|]; [|naive_solver].
    rewrite (pi_free _ _ _ _ _ _ Hp). rewrite Hrc. naive_solver.
  - rewrite Hrc. by apply (pi_count _ _ _ _ _ _ Hp).
Qed.

(** A session added, replaced or removed, with [ext'] taking up the difference
    in ownership. *)
Lemma inv_sessions ext' ss' ns' :
  pool_inv ext bs fl ss ns w →
  (∀ sid s, ss' !! sid = Some s →
     SessionBlockTable.wf s ∧ SessionBlockTable.session_id s = sid ∧ sid < ns') →
  0 < ns' →
  (∀ i, (ext' i + owners ss' i = ext i + owners ss i)%nat) →
  pool_inv ext' bs fl ss' ns' w.
Proof.
  intros Hp Hss Hns Heq. constructor; try by apply Hp.
  - done.
  - done.
  - intros i b Hb. rewrite Heq. by apply (pi_count _ _ _ _ _ _ Hp).
  - intros i. rewrite Heq. apply (pi_known _ _ _ _ _ _ Hp).
Qed.

Lemma inv_ext ext' :
  (∀ i, ext' i = ext i) → pool_inv ext bs fl ss ns w → pool_inv ext' bs fl ss ns w.
Proof.
  intros Heq Hp. eapply inv_sessions; [done|apply Hp|apply Hp|]. intros. by rewrite Heq.
Qed.

Lemma inv_put_session sid s s' ext' :
  pool_inv ext bs fl ss ns w → ss !! sid = Some s →
  SessionBlockTable.wf s' → SessionBlockTable.session_id s' = SessionBlockTable.session_id s →
  (∀ i, (ext' i + owns s' i = ext i + owns s i)%nat) →
  pool_inv ext' bs fl (<[sid := s']> ss) ns w.
Proof.
  intros Hp Hs Hwf Hid Heq. eapply inv_sessions; [done| |apply Hp|].
  - intros sid' s'' Hl. rewrite lookup_insert in Hl. case_decide; simplify_eq.
    + destruct (pi_session _ _ _ _ _ _ Hp sid' s Hs) as (_ & <- & ?). auto.
    + by apply (pi_session _ _ _ _ _ _ Hp).
  - intros i. pose proof (owners_insert ss sid s s' i Hs). specialize (Heq i). lia.
Qed.

End core.

(** ** Contents of live blocks *)
Record same_content (c c' : t) (w w' : World) : Prop := {
  sc_tokens : token_count c' = token_count c;
  sc_vector : vector_len c' = vector_len c;
  sc_hash : content_hash c' = content_hash c;
  sc_storage : storage c' = storage c;
  sc_payload : Arc.get (storage c) (storages w') = Arc.get (storage c) (storages w);
}.

(** Every block outside [E] that is live after the step was live before it and
    still holds the same tokens. *)
Definition keeps (E : gset BlockIdT) (p p' : Pool) : Prop :=
  ∀ i c', i ∉ E → blocks p' !! i = Some c' → ref_count c' ≠ 0 →
    ∃ c, blocks p !! i = Some c ∧ ref_count c ≠ 0 ∧ same_content c c' (world p) (world p').

Lemma same_content_refl c w : same_content c c w w.
Proof. done. Qed.

Lemma same_content_read c c' w w' j :
  same_content c c' w w' → key j c' w' = key j c w ∧ value j c' w' = value j c w.
Proof.
  intros [Ht Hv _ Hs Hp]. unfold key, value, token_slice, storage_of.
  by rewrite Ht, Hv, Hs, Hp.
Qed.

Lemma same_content_trans c1 c2 c3 w1 w2 w3 :
  same_content c1 c2 w1 w2 → same_content c2 c3 w2 w3 → same_content c1 c3 w1 w3.
Proof.
  intros [T1 V1 H1 S1 P1] [T2 V2 H2 S2 P2]. rewrite S1 in *.
  constructor; congruence.
Qed.

Lemma keeps_eq E p p' : blocks p' = blocks p → world p' = world p → keeps E p p'.
Proof. intros Hb Hw i c _ Hc Hr. rewrite Hb in Hc. rewrite Hw. by exists c. Qed.

Lemma keeps_refl E p : keeps E p p.
Proof. by apply keeps_eq. Qed.
#[export] Hint Resolve keeps_refl : core pool.

Lemma keeps_trans E p1 p2 p3 : keeps E p1 p2 → keeps E p2 p3 → keeps E p1 p3.
Proof.
  intros H12 H23 i c' Hi Hc' Hr.
  destruct (H23 i c' Hi Hc' Hr) as (c2 & Hc2 & Hr2 & Hs2).
  destruct (H12 i c2 Hi Hc2 Hr2) as (c1 & Hc1 & Hr1 & Hs1).
  exists c1. split_and!; [done..|]. by eapply same_content_trans.
Qed.

Lemma keeps_weaken E E' p p' : E ⊆ E' → keeps E p p' → keeps E' p p'.
Proof. intros Hs Hk i c Hi. apply Hk. set_solver. Qed.

(** A step that only rewrites block [i] keeps the others. *)
Lemma keeps_put (E : gset BlockIdT) p p' i b b' ext :
  inv ext p → blocks p !! i = Some b → blocks p' = <[i := b']> (blocks p) →
  storage_step b b' (world p) (world p') →
  (i ∈ E ∨ ref_count b' = 0 ∨ (ref_count b ≠ 0 ∧ same_content b b' (world p) (world p'))) →
  keeps E p p'.
Proof.
  intros Hp Hb Heq Hstep Hi j c' Hj. rewrite Heq, lookup_insert. case_decide as Hij.
  - intros [= <-] Hr. subst. destruct Hi as [?|[?|[? ?]]]; [done..|]. by exists b.
  - intros Hc Hr. exists c'. split_and!; [done..|].
    destruct (pi_block _ _ _ _ _ _ Hp j c' Hc) as (_ & _ & _ & s & Hs & _).
    destruct (Hstep (storage c')) as [Hg _]; [congruence|..].
    + intros Hst. by apply Hij, (pi_alias _ _ _ _ _ _ Hp i j b c').
    + done.
Qed.

(** ** Release *)
Lemma release_live ext i p :
  inv ext p → (0 < ext i + owners (sessions p) i)%nat →
  ∃ b, blocks p !! i = Some b ∧ ref_count b ≠ 0.
Proof.
  intros Hp Hpos. destruct (pi_known _ _ _ _ _ _ Hp i Hpos) as [b Hb].
  exists b. split; [done|]. rewrite (pi_count _ _ _ _ _ _ Hp i b Hb). lia.
Qed.

Lemma release_spec ext i p :
  inv ext p → (0 < ext i)%nat →
  let '(ok, p') := release i p in
  ok = true ∧ inv (ext_sub i ext) p' ∧ sessions p' = sessions p
  ∧ next_session_id p' = next_session_id p ∧ prefixes p' = prefixes p
  ∧ access_clock p' = access_clock p ∧ keeps ∅ p p'
  ∧ dom (blocks p') = dom (blocks p)
  ∧ free_list p `prefix_of` free_list p'.
Proof.
  intros Hp Hi. destruct (release_live ext i p Hp ltac:(lia)) as (b & Hb & Hr).
  pose proof (pi_count _ _ _ _ _ _ Hp i b Hb) as Hcount.
  destruct (pi_block _ _ _ _ _ _ Hp i b Hb) as (Hid & H0 & Hbw).
  unfold release. rewrite Hb. destruct (N.eqb_spec (ref_count b) 0); [done|].
  unfold decrement_ref_count, sat_sub. remember (ref_count b - 1) as n' eqn:Hn'. cbn [fst snd].
  assert (∀ x, x ≠ i → ext_sub i ext x = ext x) as Hext
    by (intros; unfold ext_sub; by rewrite decide_False).
  assert (ext_sub i ext i = pred (ext i)) as Hexti by (unfold ext_sub; by rewrite decide_True).
  assert (block_wf (with_ref_count n' b) (world p)) as Hbw' by exact Hbw.
  destruct (N.eqb_spec n' 0) as [Hz|Hnz].
  - pose proof (clear_spec (with_ref_count n' b) (world p) (pi_world _ _ _ _ _ _ Hp) Hbw') as Hc.
    destruct (clear (with_ref_count n' b) (world p)) as [b' w'].
    destruct Hc as (Hw' & Hb' & Hf & Hid' & Hcap & Hvl & _ & Hrc & _).
    assert (storage_step b b' (world p) w') as Hstep by (by apply storage_frame_step).
    assert (i ∉ free_list p) as Hnf.
    { rewrite (pi_free _ _ _ _ _ _ Hp). naive_solver. }
    split_and!; try done.
    + apply (inv_put_block ext (blocks p) (free_list p) _ _ (world p) _ i b); try done.
      * by rewrite Hid'.
      * simpl. apply NoDup_app. split_and!; [apply Hp| |apply NoDup_singleton]. set_solver.
      * intros x. simpl. rewrite elem_of_app, list_elem_of_singleton.
        destruct (decide (x = i)) as [->|]; naive_solver.
      * simpl. rewrite Hexti, Hrc. lia.
    + eapply keeps_put; try done. right; by left.
    + simpl. rewrite dom_insert_L. apply elem_of_dom_2 in Hb. set_solver.
    + by apply prefix_app_r.
  - assert (storage_step b (with_ref_count n' b) (world p) (world p)) as Hstep
      by (by apply storage_step_refl).
    split_and!; try done.
    + apply (inv_put_block ext (blocks p) (free_list p) _ _ (world p) _ i b); try done; [apply Hp..| |].
      * intros x. destruct (decide (x = i)) as [->|]; [|naive_solver]. simpl.
        rewrite (pi_free _ _ _ _ _ _ Hp). naive_solver.
      * simpl. rewrite Hexti. lia.
    + eapply keeps_put; try done. by right; right.
    + simpl. rewrite dom_insert_L. apply elem_of_dom_2 in Hb. set_solver.
Qed.

(** ** Allocate, retain, touch *)

(** The block at the end of the free list is unowned. *)
Lemma free_block ext i p :
  inv ext p → i ∈ free_list p →
  ∃ b, blocks p !! i = Some b ∧ ref_count b = 0 ∧ ext i = O ∧ owners (sessions p) i = O.
Proof.
  intros Hp Hi. apply (pi_free _ _ _ _ _ _ Hp) in Hi as (b & Hb & Hr).
  pose proof (pi_count _ _ _ _ _ _ Hp i b Hb). exists b. split_and!; [done|done|lia|lia].
Qed.

Lemma allocate_spec ext p :
  inv ext p →
  match allocate p with
  | (None, p') => free_list p = [] ∧ p' = p
  | (Some i, p') =>
      free_list p = free_list p' ++ [i]
      ∧ ext i = O ∧ owners (sessions p) i = O
      ∧ inv (ext_add i ext) p' ∧ sessions p' = sessions p ∧ prefixes p' = prefixes p
      ∧ next_session_id p' = next_session_id p
      ∧ keeps {[i]} p p' ∧ dom (blocks p') = dom (blocks p)
      ∧ ∃ b', blocks p' !! i = Some b' ∧ ref_count b' = 1 ∧ token_count b' = 0
              ∧ content_hash b' = None
  end.
Proof.
  intros Hp. unfold allocate. destruct (vec_pop (free_list p)) as [[i rest]|] eqn:Hpop.
  2: { by apply vec_pop_None in Hpop. }
  apply vec_pop_Some in Hpop. simpl.
  destruct (free_block ext i p Hp) as (b & Hb & Hr & He & Ho).
  { rewrite Hpop. set_solver. }
  rewrite Hb.
  destruct (pi_block _ _ _ _ _ _ Hp i b Hb) as (Hid & H0 & Hbw).
  pose proof (pi_free_nodup _ _ _ _ _ _ Hp) as Hnd. rewrite Hpop in Hnd.
  apply NoDup_app in Hnd as (Hnd & Hdis & _).
  pose proof (reset_for_allocation_spec (sat_add (access_clock p) 1) b (world p)
    (pi_world _ _ _ _ _ _ Hp) Hbw) as Hc.
  destruct (reset_for_allocation _ b (world p)) as [b' w'].
  destruct Hc as (Hw' & Hb' & Hf & Hid' & Hcap & Hvl & Htok & Hrc & Hhash & _).
  apply storage_frame_step in Hf. split_and!; try done.
  - simpl. apply (inv_put_block ext (blocks p) (free_list p) _ _ (world p) _ i b); try done.
    + by rewrite Hid'.
    + intros x. rewrite Hpop, elem_of_app, list_elem_of_singleton. rewrite Hrc.
      destruct (decide (x = i)) as [->|]; [|naive_solver].
      split; [|naive_solver]. intros Hin. by specialize (Hdis i Hin); set_solver.
    + rewrite Hrc. unfold ext_add. rewrite decide_True by done. simpl. lia.
    + intros x Hx. unfold ext_add. by rewrite decide_False.
  - eapply keeps_put; try done. left; set_solver.
  - simpl. rewrite dom_insert_L. apply elem_of_dom_2 in Hb. set_solver.
  - exists b'. split; [|done]. apply lookup_insert_eq.
Qed.

(** No count of the pool is at the top of [usize]. *)
Definition counts_bounded (p : Pool) : Prop :=
  ∀ i b, blocks p !! i = Some b → ref_count b < u64_max.

Lemma shape_wf_of ext p i b : inv ext p → blocks p !! i = Some b → shape_wf b.
Proof. intros Hp Hb. exact (proj1 (proj2 (proj2 (pi_block _ _ _ _ _ _ Hp i b Hb)))). Qed.

Lemma inv_increment ext p i b a :
  inv ext p → blocks p !! i = Some b → ref_count b ≠ 0 → ref_count b < u64_max →
  pool_inv (ext_add i ext)
    (<[i := CacheBlock.touch a (increment_ref_count b).2]> (blocks p))
    (free_list p) (sessions p) (next_session_id p) (world p).
Proof.
  intros Hp Hb Hr Hmax. destruct (pi_block _ _ _ _ _ _ Hp i b Hb) as (Hid & H0 & Hbw).
  pose proof (pi_count _ _ _ _ _ _ Hp i b Hb) as Hcount.
  assert (ref_count (CacheBlock.touch a (increment_ref_count b).2) = ref_count b + 1) as Hrc.
  { simpl. apply sat_add_small. lia. }
  apply (inv_put_block ext (blocks p) (free_list p) _ _ (world p) _ i b); try done.
  - apply Hp.
  - apply Hp.
  - intros x. destruct (decide (x = i)) as [->|]; [|naive_solver].
    rewrite Hrc, (pi_free _ _ _ _ _ _ Hp). split; [naive_solver|]. intros [[_ ?]|[? _]]; [lia|done].
  - rewrite Hrc, Hcount. unfold ext_add. rewrite decide_True by done. lia.
  - intros x Hx. unfold ext_add. by rewrite decide_False.
Qed.

Lemma inv_touch ext p i b a :
  inv ext p → blocks p !! i = Some b →
  pool_inv ext (<[i := CacheBlock.touch a b]> (blocks p))
    (free_list p) (sessions p) (next_session_id p) (world p).
Proof. intros Hp Hb. eapply inv_put_same; try done. exact (shape_wf_of ext p i b Hp Hb). Qed.

Lemma retain_spec ext i p :
  inv ext p → counts_bounded p →
  let '(ok, p') := retain i p in
  inv (if ok then ext_add i ext else ext) p' ∧ sessions p' = sessions p
  ∧ keeps ∅ p p' ∧ (ok = true ↔ ∃ b, blocks p !! i = Some b ∧ ref_count b ≠ 0).
Proof.
  intros Hp Hbound. unfold retain. destruct (blocks p !! i) as [b|] eqn:Hb.
  2: { split_and!; [done|done|apply keeps_refl|naive_solver]. }
  destruct (N.eqb_spec (ref_count b) 0).
  { split_and!; [done|done|apply keeps_refl|naive_solver]. }
  pose proof (inv_increment ext p i b (last_access b) Hp Hb ltac:(done) (Hbound i b Hb)) as Hi.
  cbn beta iota zeta delta [increment_ref_count] in *. split_and!; [exact Hi|done| |naive_solver].
  eapply (keeps_put ∅ p _ i b); try done. by right; right.
Qed.

Lemma keeps_touch E ext p p' i b a :
  inv ext p → blocks p !! i = Some b →
  blocks p' = <[i := CacheBlock.touch a b]> (blocks p) → world p' = world p →
  keeps E p p'.
Proof.
  intros Hp Hb Heq Hw. eapply keeps_put; [done|done|done|..].
  - rewrite Hw. by apply storage_step_refl.
  - destruct (decide (ref_count b = 0)); [by right; left|]. right; right. by rewrite Hw.
Qed.

Lemma touch_spec ext i p :
  inv ext p → let '(r, p') := BlockPool.touch i p in inv ext p' ∧ sessions p' = sessions p ∧ keeps ∅ p p'.
Proof.
  intros Hp. unfold BlockPool.touch. simpl. destruct (blocks p !! i) as [b|] eqn:Hb.
  2: { split_and!; [done|done|by apply keeps_eq]. }
  destruct (ref_count b =? 0); [split_and!; [done|done|by apply keeps_eq]|].
  split_and!; [by apply (inv_touch ext p)|done|]. by apply (keeps_touch ∅ ext p _ i b (sat_add (access_clock p) 1)).
Qed.

(** ** Releasing a session *)
Definition ext_add_all (l : list BlockIdT) (ext : BlockIdT → nat) : BlockIdT → nat :=
  λ i, (ext i + (if decide (i ∈ l) then 1 else 0))%nat.

Lemma release_owned_spec ext l n p :
  NoDup l → inv (ext_add_all l ext) p →
  let '(n', p') := foldl release_owned (n, p) l in
  inv ext p' ∧ sessions p' = sessions p ∧ next_session_id p' = next_session_id p
  ∧ prefixes p' = prefixes p ∧ keeps ∅ p p' ∧ dom (blocks p') = dom (blocks p)
  ∧ free_list p `prefix_of` free_list p'.
Proof.
  revert n p. induction l as [|i l IH]; intros n p Hnd Hp; simpl.
  - split_and!; try done. eapply inv_ext; [|done].
    intros i. unfold ext_add_all. rewrite decide_False by set_solver. lia.
  - apply NoDup_cons in Hnd as [Hi Hnd].
    assert (ext_add_all (i :: l) ext i = S (ext i)) as Hei.
    { unfold ext_add_all. rewrite decide_True by set_solver. lia. }
    pose proof (release_spec _ i p Hp ltac:(lia)) as Hrel.
    destruct (release i p) as [ok p1]. destruct Hrel as (-> & Hp1 & Hs1 & Hn1 & Hx1 & _ & Hk1 & Hd1 & Hf1).
    assert (inv (ext_add_all l ext) p1) as Hp1'.
    { eapply inv_ext; [|exact Hp1]. intros j. unfold ext_sub. case_decide as Hj.
      - subst. rewrite Hei. unfold ext_add_all. rewrite decide_False by done. simpl. lia.
      - unfold ext_add_all. f_equal.
        destruct (decide (j ∈ l)), (decide (j ∈ i :: l)); set_solver. }
    match goal with |- context [foldl release_owned (?m, p1) l] => generalize m as n1 end.
    intros n1. specialize (IH n1 p1 Hnd Hp1').
    destruct (foldl release_owned (n1, p1) l) as [n' p'].
    destruct IH as (? & -> & -> & -> & ? & -> & ?). split_and!; try done.
    + by eapply keeps_trans.
    + by etrans.
Qed.

Section session_ops.
Context `{HashOrder}.

Lemma inv_delete_session ext p sid s :
  inv ext p → sessions p !! sid = Some s →
  inv (ext_add_all (hash_elems (SessionBlockTable.owned_blocks s)) ext)
    (set_sessions (delete sid (sessions p)) p).
Proof.
  intros Hp Hs. eapply inv_sessions; [exact Hp| |apply Hp|].
  - simpl. intros sid' s' [_ Hl]%lookup_delete_Some. by apply (pi_session _ _ _ _ _ _ Hp).
  - simpl. intros i. rewrite (owners_delete _ _ _ i Hs). unfold ext_add_all, owns.
    destruct (decide (i ∈ hash_elems (SessionBlockTable.owned_blocks s))) as [Hi|Hi];
      rewrite elem_of_hash_elems in Hi.
    + rewrite decide_True by done. simpl. lia.
    + rewrite decide_False by done. simpl. lia.
Qed.

Lemma release_session_inner_spec ext sid p :
  inv ext p →
  match release_session_inner sid p with
  | (None, p') => sessions p !! sid = None ∧ p' = p
  | (Some _, p') =>
      is_Some (sessions p !! sid) ∧ inv ext p' ∧ sessions p' = delete sid (sessions p)
      ∧ next_session_id p' = next_session_id p ∧ prefixes p' = prefixes p
      ∧ keeps ∅ p p' ∧ dom (blocks p') = dom (blocks p)
      ∧ free_list p `prefix_of` free_list p'
  end.
Proof.
  intros Hp. unfold release_session_inner. destruct (sessions p !! sid) as [s|] eqn:Hs; [|done].
  pose proof (release_owned_spec ext _ 0 _ (NoDup_hash_elems (SessionBlockTable.owned_blocks s))
    (inv_delete_session ext p sid s Hp Hs)) as Hloop.
  destruct (foldl release_owned _ _) as [n p'].
  destruct Hloop as (? & ? & ? & ? & ? & ? & ?). by split_and!.
Qed.

(** ** Least recently used session *)
Lemma session_key_lt_false x y :
  session_key_lt x y = false ↔
  (SessionBlockTable.last_access y < SessionBlockTable.last_access x
   ∨ (SessionBlockTable.last_access y = SessionBlockTable.last_access x
      ∧ (SessionBlockTable.created_at y < SessionBlockTable.created_at x
         ∨ (SessionBlockTable.created_at y = SessionBlockTable.created_at x
            ∧ SessionBlockTable.session_id y ≤ SessionBlockTable.session_id x)))).
Proof.
  unfold session_key_lt.
  destruct (N.compare_spec (SessionBlockTable.last_access x) (SessionBlockTable.last_access y));
    [destruct (N.compare_spec (SessionBlockTable.created_at x) (SessionBlockTable.created_at y));
     [rewrite N.ltb_ge| |]| |]; intuition (try discriminate; lia).
Qed.

(** The order in which eviction considers sessions. *)
Definition evicts_before (x y : SessionBlockTable.t) : Prop := session_key_lt y x = false.

Lemma lru_session_except_Some excl p sid :
  (∀ k s, sessions p !! k = Some s → SessionBlockTable.session_id s = k) →
  lru_session_except excl p = Some sid →
  ∃ s, sessions p !! sid = Some s ∧ Some sid ≠ excl ∧ SessionBlockTable.is_empty s = false
  ∧ ∀ k s', sessions p !! k = Some s' → Some k ≠ excl →
      SessionBlockTable.is_empty s' = false → evicts_before s s'.
Proof.
  intros Hids. unfold lru_session_except. rewrite fmap_Some. intros (s & Hmin & ->).
  apply first_min_Some in Hmin as [Hin Hall].
  - rewrite !list_elem_of_filter, elem_of_hash_values in Hin. destruct Hin as (Hne & Hex & k & Hk).
    assert (SessionBlockTable.session_id s = k) as Hsid by (by apply Hids). subst k.
    exists s. split_and!; [done..|]. intros k s' Hk' Hex' Hne'. apply Hall.
    rewrite !list_elem_of_filter, elem_of_hash_values. split_and!; [done| |eauto].
    by rewrite (Hids k s' Hk').
  - intros x y z. rewrite !session_key_lt_false. lia.
  - intros x y Hxy. rewrite session_key_lt_false.
    destruct (session_key_lt y x) eqn:E; [|apply session_key_lt_false in E; revert Hxy].
    2: { unfold session_key_lt.
         destruct (N.compare_spec (SessionBlockTable.last_access x) (SessionBlockTable.last_access y));
         destruct (N.compare_spec (SessionBlockTable.created_at x) (SessionBlockTable.created_at y));
         try discriminate; rewrite ?N.ltb_lt; lia. }
    revert Hxy E. unfold session_key_lt.
    destruct (N.compare_spec (SessionBlockTable.last_access x) (SessionBlockTable.last_access y)) as [E1|E1|E1];
      destruct (N.compare_spec (SessionBlockTable.created_at x) (SessionBlockTable.created_at y)) as [E2|E2|E2];
      try discriminate; rewrite ?N.ltb_lt; lia.
Qed.

Lemma lru_session_except_None excl p :
  lru_session_except (Some excl) p = None ↔
  ∀ k s, sessions p !! k = Some s → SessionBlockTable.session_id s ≠ excl →
    SessionBlockTable.is_empty s = true.
Proof.
  unfold lru_session_except. rewrite fmap_None, first_min_None. split.
  - intros Hnil k s Hk Hne. destruct (SessionBlockTable.is_empty s) eqn:E; [done|].
    assert (s ∈ @nil SessionBlockTable.t) as Hin; [|by apply not_elem_of_nil in Hin].
    rewrite <- Hnil, !list_elem_of_filter, elem_of_hash_values. split_and!; [done|congruence|eauto].
  - intros Hall. destruct (filter _ _) as [|s l] eqn:E; [done|].
    assert (s ∈ s :: l) as Hin by set_solver.
    rewrite <- E, !list_elem_of_filter, elem_of_hash_values in Hin.
    destruct Hin as (Hne & Hex & k & Hk). rewrite (Hall k s Hk) in Hne; congruence.
Qed.

(** ** Eviction *)
Lemma inv_session_ids ext p :
  inv ext p → ∀ k s, sessions p !! k = Some s → SessionBlockTable.session_id s = k.
Proof. intros Hp k s Hs. by destruct (pi_session _ _ _ _ _ _ Hp k s Hs) as (_ & ? & _). Qed.

(** What eviction on behalf of [sid] guarantees. *)
Record evicted (ext : BlockIdT → nat) (sid : SessionIdT) (p p' : Pool) : Prop := {
  ev_inv : inv ext p';
  ev_self : sessions p' !! sid = sessions p !! sid;
  ev_subset : sessions p' ⊆ sessions p;
  ev_next : next_session_id p' = next_session_id p;
  ev_prefixes : prefixes p' = prefixes p;
  ev_keeps : keeps ∅ p p';
  ev_dom : dom (blocks p') = dom (blocks p);
}.

Lemma evicted_refl ext sid p : inv ext p → evicted ext sid p p.
Proof. by constructor. Qed.

Lemma evict_loop_spec ext sid fuel p :
  inv ext p → evicted ext sid p (evict_loop fuel sid p).
Proof.
  revert p. induction fuel as [|fuel IH]; intros p Hp; simpl; [by apply evicted_refl|].
  destruct (free_list p); [|by apply evicted_refl].
  destruct (lru_session_except (Some sid) p) as [victim|] eqn:Hlru; [|by apply evicted_refl].
  apply lru_session_except_Some in Hlru as (s & Hs & Hne & _); [|by eapply inv_session_ids].
  pose proof (release_session_inner_spec ext victim p Hp) as Hrel.
  destruct (release_session_inner victim p) as [[n|] p1]; [|by destruct Hrel as [_ ->]; apply evicted_refl].
  destruct Hrel as (_ & Hp1 & Hs1 & Hn1 & Hx1 & Hk1 & Hd1 & _).
  destruct (IH (update_metrics (PagedKvCacheMetrics.record_eviction n (resident_blocks_from_free_list p)) p1) Hp1)
    as [Hinv Hself Hsub Hnext Hpre Hkeep Hdom]. simpl in *.
  constructor; try congruence.
  - rewrite Hself, Hs1, lookup_delete_ne; [done|congruence].
  - etrans; [exact Hsub|]. rewrite Hs1. apply delete_subseteq.
  - eapply keeps_trans; [exact Hk1|]. exact Hkeep.
Qed.

(** The fuel [S (size sessions)] is enough: the loop stops only because a block
    is free or no session is left to evict. *)
Lemma evict_loop_done ext sid fuel p :
  inv ext p → (size (sessions p) < fuel)%nat →
  let p' := evict_loop fuel sid p in
  free_list p' ≠ [] ∨ lru_session_except (Some sid) p' = None.
Proof.
  revert p. induction fuel as [|fuel IH]; intros p Hp Hfuel; simpl; [lia|].
  destruct (free_list p) eqn:Hfl; [|left; by rewrite Hfl].
  destruct (lru_session_except (Some sid) p) as [victim|] eqn:Hlru; [|by right].
  apply lru_session_except_Some in Hlru as (s & Hs & _); [|by eapply inv_session_ids].
  pose proof (release_session_inner_spec ext victim p Hp) as Hrel.
  destruct (release_session_inner victim p) as [[n|] p1]; [|destruct Hrel as [? _]; congruence].
  destruct Hrel as (_ & Hp1 & Hs1 & _).
  apply (IH (update_metrics (PagedKvCacheMetrics.record_eviction n (resident_blocks_from_free_list p)) p1) Hp1).
  simpl. rewrite Hs1, map_size_delete, Hs. simpl.
  assert (size (sessions p) ≠ O) by (apply map_size_non_empty_iff; intros E; rewrite E in Hs; by rewrite lookup_empty in Hs).
  lia.
Qed.

Lemma evict_sessions_until_free_spec ext sid p :
  inv ext p →
  let p' := evict_sessions_until_free sid p in
  evicted ext sid p p' ∧
  (free_list p' ≠ [] ∨ ∀ k s, sessions p' !! k = Some s → k ≠ sid →
     SessionBlockTable.is_empty s = true).
Proof.
  intros Hp. split; [by apply evict_loop_spec|].
  destruct (evict_loop_done ext sid (S (size (sessions p))) p Hp ltac:(lia)) as [?|Hnone]; [by left|].
  right. intros k s Hk Hne. rewrite lru_session_except_None in Hnone. apply (Hnone k s Hk).
  pose proof (evict_loop_spec ext sid (S (size (sessions p))) p Hp) as Hev.
  by rewrite (inv_session_ids _ _ (ev_inv _ _ _ _ Hev) k s Hk).
Qed.
End session_ops.

(** ** Sessions *)

(** The state after a successful append of block [i] to session [sid]. *)
Record appended (sid : SessionIdT) (i : BlockIdT) (s : SessionBlockTable.t) (p p' : Pool) : Prop := {
  ap_session : ∃ s', sessions p' = <[sid := s']> (sessions p)
    ∧ SessionBlockTable.block_ids s' = SessionBlockTable.block_ids s ++ [i]
    ∧ SessionBlockTable.owned_blocks s' = {[i]} ∪ SessionBlockTable.owned_blocks s;
  ap_keeps : keeps ∅ p p';
  ap_dom : dom (blocks p') = dom (blocks p);
  ap_free : free_list p' = free_list p;
  ap_next : next_session_id p' = next_session_id p;
  ap_prefixes : prefixes p' = prefixes p;
}.

Lemma owns_append s i s' j :
  SessionBlockTable.owned_blocks s' = {[i]} ∪ SessionBlockTable.owned_blocks s →
  owns s' j = if decide (j = i) then 1%nat else owns s j.
Proof.
  intros Ho. unfold owns. rewrite Ho.
  destruct (decide (j = i)) as [->|]; [by rewrite decide_True by set_solver|].
  by destruct (decide (j ∈ SessionBlockTable.owned_blocks s)), (decide (j ∈ {[i]} ∪ SessionBlockTable.owned_blocks s)); set_solver.
Qed.

Section append.
Context (ext : BlockIdT → nat) (sid : SessionIdT) (i : BlockIdT) (p : Pool).

Lemma append_appended b s access b' m :
  inv ext p → sessions p !! sid = Some s → blocks p !! i = Some b → ref_count b ≠ 0 →
  storage b' = storage b → token_count b' = token_count b → vector_len b' = vector_len b →
  content_hash b' = content_hash b →
  let s' := SessionBlockTable.touch access
    (SessionBlockTable.with_blocks (BlockTable.Make (SessionBlockTable.block_ids s ++ [i]))
       ({[i]} ∪ SessionBlockTable.owned_blocks s) s) in
  appended sid i s p
    (put_block i b' (update_metrics m (put_session sid s' (set_access_clock access p)))).
Proof.
  intros Hp Hs Hb Hr Hst Htok Hvl Hh s'. constructor; try done.
  - by exists s'.
  - eapply (keeps_put ∅ p _ i b); [done|done|done| |].
    + by apply storage_step_refl.
    + right; right. split; [done|]. by constructor.
  - simpl. rewrite dom_insert_L. apply elem_of_dom_2 in Hb. set_solver.
Qed.

Lemma append_inner_spec (retain : bool) :
  inv ext p →
  (retain = true → counts_bounded p) →
  (retain = false → 0 < ext i)%nat →
  match append_block_to_session_inner sid i retain p with
  | (Ok _, p') =>
      ∃ s, sessions p !! sid = Some s ∧ (∃ b, blocks p !! i = Some b ∧ ref_count b ≠ 0)
      ∧ appended sid i s p p'
      ∧ inv (if retain || bool_decide (i ∈ SessionBlockTable.owned_blocks s)
             then ext else ext_sub i ext) p'
  | (Err e, p') =>
      e = InvalidShape ∧ inv ext p' ∧ sessions p' = sessions p ∧ keeps ∅ p p'
      ∧ (sessions p !! sid = None ∨ ∀ b, blocks p !! i = Some b → ref_count b = 0)
  | (Panic, _) => False
  end.
Proof.
  intros Hp Hbound Hext. unfold append_block_to_session_inner.
  destruct (blocks p !! i) as [b|] eqn:Hb; [|split_and!; [done|done|done|auto|by right]].
  destruct (N.eqb_spec (ref_count b) 0) as [Hz|Hr]; [split_and!; [done|done|done|auto|right; naive_solver]|].
  simpl. destruct (sessions p !! sid) as [s|] eqn:Hs.
  2: { split_and!; [done|done|done|by apply keeps_eq|by left]. }
  destruct (pi_block _ _ _ _ _ _ Hp i b Hb) as (Hid & H0 & Hbw).
  destruct (pi_session _ _ _ _ _ _ Hp sid s Hs) as (Hwf & Hsid & Hlt).
  unfold SessionBlockTable.append_owned_block, BlockTable.append, BlockId.is_invalid.
  destruct (N.eqb_spec i 0); [done|]. simpl. set (a := sat_add (access_clock p) 1).
  set (s' := SessionBlockTable.touch a _).
  assert (SessionBlockTable.wf s') as Hwf'.
  { apply (SessionBlockTable.append_owned_block_wf i s
      (bool_decide (i ∉ SessionBlockTable.owned_blocks s)) (SessionBlockTable.with_blocks
        (BlockTable.Make (SessionBlockTable.block_ids s ++ [i])) ({[i]} ∪ SessionBlockTable.owned_blocks s) s)); [done|].
    by apply SessionBlockTable.append_owned_block_Ok. }
  pose proof (λ j, owns_append s i s' j eq_refl) as Hown.
  unfold SessionBlockTable.owns_block.
  destruct retain; simpl; [destruct (decide (i ∈ SessionBlockTable.owned_blocks s)) as [Hin|Hin]|].
  - rewrite bool_decide_true by done. simpl. exists s. split_and!; [done|eauto|..].
    + by apply (append_appended b s a _ (λ m, m)).
    + apply (inv_put_session ext _ _ _ _ _ sid s); try done; [by apply (inv_touch ext p)|].
      intros j. rewrite Hown. unfold owns. case_decide; [subst; by rewrite decide_True|done].
  - rewrite bool_decide_false by done. simpl. exists s. split_and!; [done|eauto|..].
    + by apply (append_appended b s a).
    + apply (inv_put_session (ext_add i ext) _ _ _ _ _ sid s); try done.
      { apply (inv_increment ext p); try done. by apply (Hbound eq_refl i). }
      intros j. rewrite Hown. unfold owns, ext_add. case_decide; [subst|done].
      rewrite decide_False by done. lia.
  - exists s. split_and!; [done|eauto|..].
    + by apply (append_appended b s a _ (λ m, m)).
    + apply (inv_put_session ext _ _ _ _ _ sid s); try done; [by apply (inv_touch ext p)|].
      intros j. rewrite Hown. unfold owns, ext_sub. specialize (Hext eq_refl).
      case_bool_decide; repeat case_decide; subst; try done; lia.
Qed.
End append.
