(* ===== verification/BlockPoolOps.v ===== *)
(** * Session-level operations of the block allocator

    Allocation into a session, reads, prefix sharing and copy-on-write of
    [BlockPool.v], each shown to preserve the invariant of [BlockPoolInv.v]
    and to have the effect its callers rely on. *)
From stdpp Require Import base gmap sets numbers list.
From S2P Require Import Prelude KvTables CacheBlock BlockPool BlockPoolInv.
Import CacheBlock.
Open Scope N_scope.

(** ** Bounds on reference counts *)
Lemma owners_le_size ss i : (owners ss i ≤ size ss)%nat.
Proof. apply map_size_filter. Qed.

(** The external handles on a block and one handle per session fit [usize]. *)
Definition room (ext : BlockIdT → nat) (p : Pool) : Prop :=
  ∀ i, N.of_nat (ext i + size (sessions p)) < u64_max.

Lemma room_counts_bounded ext p : inv ext p → room ext p → counts_bounded p.
Proof.
  intros Hp Hr i b Hb. rewrite (pi_count _ _ _ _ _ _ Hp i b Hb).
  specialize (Hr i). pose proof (owners_le_size (sessions p) i). lia.
Qed.

(** A block a session lists exists and is live. *)
Lemma session_block_live ext p sid s i :
  inv ext p → sessions p !! sid = Some s → i ∈ SessionBlockTable.block_ids s →
  i ∈ SessionBlockTable.owned_blocks s ∧ ∃ b, blocks p !! i = Some b ∧ ref_count b ≠ 0.
Proof.
  intros Hp Hs Hi. destruct (pi_session _ _ _ _ _ _ Hp sid s Hs) as ((_ & Hwf & _) & _).
  apply Hwf in Hi. split; [done|]. eapply release_live; [done|].
  pose proof (owners_pos _ _ _ i Hs Hi). lia.
Qed.

Lemma block_of_inv ext p i :
  inv ext p → (0 < ext i + owners (sessions p) i)%nat →
  ∃ b, blocks p !! i = Some b ∧ ref_count b = N.of_nat (ext i + owners (sessions p) i).
Proof.
  intros Hp Hpos. destruct (pi_known _ _ _ _ _ _ Hp i Hpos) as [b Hb].
  exists b. split; [done|]. by apply (pi_count _ _ _ _ _ _ Hp).
Qed.

Lemma ext_sub_add i ext j : ext_sub i (ext_add i ext) j = ext j.
Proof. unfold ext_sub, ext_add. by case_decide. Qed.

(** The other sessions an operation for [sid] leaves behind are ones that were
    there before. *)
Definition others_kept (sid : SessionIdT) (p p' : Pool) : Prop :=
  delete sid (sessions p') ⊆ sessions p.

Lemma others_kept_insert sid s p p1 p' :
  sessions p1 ⊆ sessions p → sessions p' = <[sid := s]> (sessions p1) → others_kept sid p p'.
Proof.
  intros Hsub Heq. unfold others_kept. rewrite Heq, delete_insert_eq.
  etrans; [apply delete_subseteq|done].
Qed.

Lemma others_kept_sub sid p p' : sessions p' ⊆ sessions p → others_kept sid p p'.
Proof. intros Hsub. unfold others_kept. etrans; [apply delete_subseteq|done]. Qed.

Section session_ops.
Context `{HashOrder}.

(** ** Opening a session *)
Lemma create_session_spec ext p :
  inv ext p →
  match create_session p with
  | (Ok sid, p') =>
      sid = next_session_id p ∧ sessions p !! sid = None ∧ inv ext p'
      ∧ (∃ s, sessions p' = <[sid := s]> (sessions p) ∧ SessionBlockTable.block_ids s = [])
      ∧ next_session_id p' = sid + 1 ∧ keeps ∅ p p'
  | (Err e, p') => e = InvalidShape ∧ p' = p ∧ u64_max ≤ next_session_id p
  | (Panic, _) => False
  end.
Proof.
  intros Hp. unfold create_session, take_session_id.
  destruct (checked_add (next_session_id p) 1) as [n|] eqn:Hn.
  2: { split_and!; try done. unfold checked_add in Hn. case_match; [done|]. bool_to_prop. lia. }
  apply checked_add_Some in Hn as [-> Hle].
  destruct (N.eqb_spec (next_session_id p + 1) 0); [lia|]. simpl.
  unfold SessionBlockTable.new. pose proof (pi_next _ _ _ _ _ _ Hp) as Hpos.
  destruct (N.eqb_spec (next_session_id p) 0); [lia|].
  set (s := SessionBlockTable.Make _ _ _ _ _).
  assert (sessions p !! next_session_id p = None) as Hfresh.
  { destruct (sessions p !! next_session_id p) as [s'|] eqn:Hs'; [|done].
    destruct (pi_session _ _ _ _ _ _ Hp _ _ Hs') as (_ & _ & ?). lia. }
  assert (SessionBlockTable.wf s) as Hwf.
  { apply (SessionBlockTable.new_wf (next_session_id p) (sat_add (access_clock p) 1)).
    unfold SessionBlockTable.new. by destruct (N.eqb_spec (next_session_id p) 0). }
  split_and!; try done; [|by exists s|by apply keeps_eq].
  apply (inv_sessions ext (blocks p) (free_list p) (sessions p) (next_session_id p)); try done; simpl.
  - intros sid s'. rewrite lookup_insert. case_decide; intros Hl; simplify_eq.
    + split_and!; [done|done|lia].
    + destruct (pi_session _ _ _ _ _ _ Hp _ _ Hl) as (? & ? & ?). split_and!; [done|done|lia].
  - lia.
  - intros i. rewrite owners_insert_fresh by done. unfold owns, s. simpl.
    rewrite decide_False by set_solver. lia.
Qed.

(** ** Allocating into a session *)
Definition make_room (sid : SessionIdT) (p : Pool) : Pool :=
  match free_list p with [] => evict_sessions_until_free sid p | _ => p end.

Lemma make_room_spec ext sid p :
  inv ext p →
  evicted ext sid p (make_room sid p) ∧
  (free_list (make_room sid p) ≠ [] ∨
   ∀ k s, sessions (make_room sid p) !! k = Some s → k ≠ sid →
     SessionBlockTable.is_empty s = true).
Proof.
  intros Hp. unfold make_room. destruct (free_list p) eqn:Hfl.
  - by apply evict_sessions_until_free_spec.
  - split; [by apply evicted_refl|]. left. by rewrite Hfl.
Qed.

Lemma owners_zero ss sid s i :
  owners ss i = O → ss !! sid = Some s → i ∉ SessionBlockTable.owned_blocks s.
Proof. intros Ho Hs Hi. pose proof (owners_pos ss sid s i Hs Hi). lia. Qed.

Lemma allocate_for_session_spec ext sid p :
  inv ext p →
  match allocate_for_session sid p with
  | (Some i, p') =>
      ∃ s s' b, sessions p !! sid = Some s ∧ sessions p' !! sid = Some s'
      ∧ SessionBlockTable.block_ids s' = SessionBlockTable.block_ids s ++ [i]
      ∧ i ∉ SessionBlockTable.block_ids s
      ∧ blocks p' !! i = Some b ∧ ref_count b = 1 ∧ token_count b = 0
      ∧ ext i = O ∧ owners (sessions p') i = 1%nat
      ∧ inv ext p' ∧ keeps {[i]} p p' ∧ others_kept sid p p'
  | (None, p') =>
      inv ext p' ∧ keeps ∅ p p' ∧ others_kept sid p p'
      ∧ (sessions p !! sid = None
         ∨ (free_list p' = [] ∧ ∀ k s, sessions p' !! k = Some s → k ≠ sid →
              SessionBlockTable.is_empty s = true))
  end.
Proof.
  intros Hp. unfold allocate_for_session. fold (make_room sid p).
  destruct (sessions p !! sid) as [s|] eqn:Hs; [|split_and!; [done|apply keeps_refl|apply delete_subseteq|by left]].
  destruct (make_room_spec ext sid p Hp) as [[Hp1 Hself Hsub Hnext _ Hk1 _] Hfull].
  revert Hp1 Hself Hsub Hnext Hk1 Hfull. generalize (make_room sid p) as p1. intros p1 Hp1 Hself Hsub Hnext Hk1 Hfull.
  pose proof (allocate_spec ext p1 Hp1) as Ha.
  destruct (allocate p1) as [[i|] p2].
  2: { destruct Ha as [Hnil ->]. split_and!; [done|done|by apply (others_kept_sub sid)|]. right. split; [done|]. by destruct Hfull. }
  destruct Ha as (_ & He & Ho & Hp2 & Hs2 & _ & _ & Hk2 & _ & b2 & Hb2 & Hr2 & Ht2 & _).
  pose proof (append_inner_spec (ext_add i ext) sid i p2 false Hp2 ltac:(done)
    ltac:(intros; unfold ext_add; rewrite decide_True by done; lia)) as Happ.
  assert (sessions p2 !! sid = Some s) as Hsp2 by congruence.
  destruct (append_block_to_session_inner sid i false p2) as [[[]|e|] p3]; [| |done].
  2: { destruct Happ as (_ & _ & _ & _ & [?|Hz]); [congruence|]. specialize (Hz b2 Hb2). lia. }
  destruct Happ as (s0 & Hs0 & _ & [(s' & Hs3 & Hids & Hown) Hk3 _ _ _ _] & Hp3).
  rewrite Hsp2 in Hs0. injection Hs0 as <-. rewrite Hs2 in Hsp2.
  pose proof (owners_zero _ _ _ _ Ho Hsp2) as Hni.
  rewrite bool_decide_false in Hp3 by done. simpl in Hp3.
  apply (inv_ext _ _ _ _ _ _ ext) in Hp3; [|intros; by rewrite ext_sub_add].
  assert (owners (sessions p3) i = 1%nat) as Hone.
  { rewrite Hs3, Hs2. pose proof (owners_insert _ sid s s' i Hsp2) as Hoi.
    unfold owns in Hoi. rewrite Hown in Hoi.
    rewrite (decide_False (P := i ∈ SessionBlockTable.owned_blocks s)), decide_True in Hoi by set_solver. lia. }
  destruct (block_of_inv ext p3 i Hp3 ltac:(lia)) as (b & Hb & Hr).
  assert (ref_count b = 1) as Hr1 by lia.
  destruct (Hk3 i b) as (c & Hc & _ & Hsc); [set_solver|done|lia|].
  rewrite Hb2 in Hc. injection Hc as <-.
  exists s, s', b. split_and!; try done.
  - rewrite Hs3. apply lookup_insert_eq.
  - intros Hin. apply Hni.
    by destruct (session_block_live ext p1 sid s i Hp1 Hsp2 Hin).
  - by rewrite (sc_tokens _ _ _ _ Hsc).
  - eapply keeps_trans; [eapply keeps_weaken; [|exact Hk1]; set_solver|].
    eapply keeps_trans; [exact Hk2|]. eapply keeps_weaken; [|exact Hk3]. set_solver.
  - eapply others_kept_insert; [exact Hsub|]. by rewrite Hs3, Hs2.
Qed.

(** ** Reading through a session *)
Lemma read_session_block_spec ext sid index p :
  inv ext p →
  let '(r, p') := read_session_block sid index p in
  r = session_block_at sid index p ∧ inv ext p' ∧ keeps ∅ p p'
  ∧ others_kept sid p p'
  ∧ access_clock p' = sat_add (access_clock p) 1
  ∧ free_list p' = free_list p
  ∧ ∀ k, SessionBlockTable.block_ids <$> sessions p' !! k
         = SessionBlockTable.block_ids <$> sessions p !! k.
Proof.
  intros Hp. unfold read_session_block, session_block_at. simpl.
  destruct (sessions p !! sid) as [s|] eqn:Hs; simpl; [|split_and!; try done; [by apply keeps_eq|by apply others_kept_sub]].
  destruct (SessionBlockTable.read_block index s) as [i|] eqn:Hi; [|split_and!; try done; [by apply keeps_eq|by apply others_kept_sub]].
  set (a := sat_add (access_clock p) 1).
  assert (i ∈ SessionBlockTable.block_ids s) as Hin by (by eapply list_elem_of_lookup_2).
  destruct (session_block_live ext p sid s i Hp Hs Hin) as (_ & b & Hb & Hr). rewrite Hb.
  destruct (N.eqb_spec (ref_count b) 0); [done|].
  destruct (pi_session _ _ _ _ _ _ Hp sid s Hs) as (Hwf & _).
  split_and!; try done.
  - apply (inv_put_session ext _ _ _ _ _ sid s); try done. by apply (inv_touch ext p).
  - by apply (keeps_touch ∅ ext p _ i b a).
  - by eapply (others_kept_insert sid _ p p).
  - intros k. simpl. rewrite lookup_insert. case_decide; [|done]. subst. by rewrite Hs.
Qed.

(** ** Prefix sharing *)
Lemma lookup_prefix_Some h p ids :
  lookup_prefix h p = Some ids →
  (∀ i, i ∈ ids → ∃ b, blocks p !! i = Some b ∧ ref_count b ≠ 0)
  ∧ ∃ i b, last ids = Some i ∧ blocks p !! i = Some b ∧ content_hash b = Some h.
Proof.
  unfold lookup_prefix. destruct (prefixes p !! h) as [e|]; simpl; [|done].
  unfold prefix_blocks_match. case_bool_decide as Ht; simpl; [|done].
  destruct (forallb _ e) eqn:Hall; [|done]. intros [= <-].
  rewrite forallb_forall in Hall. unfold PrefixEntry.block_ids, PrefixEntry.terminal_hash in *.
  assert (∀ x, x ∈ e → ∃ b, blocks p !! snap_block_id x = Some b ∧ ref_count b ≠ 0
    ∧ content_hash b = Some (snap_content_hash x)) as Hlive.
  { intros x Hx. apply list_elem_of_In, Hall in Hx. destruct (blocks p !! snap_block_id x) as [b|]; [|done].
    bool_to_prop. exists b. split_and!; [done|lia|done]. }
  split.
  - intros i (x & -> & Hx)%list_elem_of_fmap. destruct (Hlive x Hx) as (b & ? & ? & _). by exists b.
  - rewrite fmap_Some in Ht. destruct Ht as (x & Hx & ->). rewrite fmap_last, Hx. simpl.
    assert (x ∈ e) as Hin by (apply last_Some in Hx as [l ->]; set_solver).
    destruct (Hlive x Hin) as (b & ? & _ & ?). by exists (snap_block_id x), b.
Qed.

Lemma prefix_entry_for_Some ids p e :
  prefix_entry_for ids p = Some e →
  PrefixEntry.block_ids e = ids
  ∧ Forall (λ x, ∃ b, blocks p !! snap_block_id x = Some b ∧ ref_count b ≠ 0
              ∧ content_hash b = Some (snap_content_hash x)) e.
Proof.
  unfold prefix_entry_for. intros Hm. apply mapM_Some_1 in Hm. revert Hm.
  induction 1 as [|i x ids e Hx Hrest [IHids IHall]]; [done|].
  destruct (blocks p !! i) as [b|] eqn:Hb; simpl in Hx; [|done].
  destruct (N.eqb_spec (ref_count b) 0); [done|].
  destruct (content_hash b) as [ch|] eqn:Hch; simpl in Hx; [|done]. injection Hx as <-.
  split; [unfold PrefixEntry.block_ids; simpl; by f_equal|].
  constructor; [|done]. by exists b.
Qed.

Lemma register_prefix_spec h ids p :
  prefixes (register_prefix h ids p) !! h =
    (e ← prefix_entry_for ids p;
     if bool_decide (PrefixEntry.terminal_hash e = Some h) then Some e else None).
Proof.
  unfold register_prefix. destruct (prefix_entry_for ids p) as [e|]; simpl.
  - case_bool_decide; simpl; [apply lookup_insert_eq|apply lookup_delete_eq].
  - apply lookup_delete_eq.
Qed.

Lemma register_prefix_frame h ids p :
  blocks (register_prefix h ids p) = blocks p ∧ free_list (register_prefix h ids p) = free_list p
  ∧ sessions (register_prefix h ids p) = sessions p ∧ world (register_prefix h ids p) = world p
  ∧ next_session_id (register_prefix h ids p) = next_session_id p
  ∧ ∀ h', h' ≠ h → prefixes (register_prefix h ids p) !! h' = prefixes p !! h'.
Proof.
  unfold register_prefix.
  destruct (prefix_entry_for ids p); [case_bool_decide|]; split_and!; try done;
    intros; simpl; by rewrite ?lookup_insert_ne, ?lookup_delete_ne.
Qed.

(** Registering then looking up the same prefix. *)
Lemma lookup_registered h ids p :
  lookup_prefix h (register_prefix h ids p) = Some ids ↔
  (∃ e, prefix_entry_for ids p = Some e ∧ PrefixEntry.terminal_hash e = Some h).
Proof.
  unfold lookup_prefix. rewrite register_prefix_spec.
  destruct (prefix_entry_for ids p) as [e|] eqn:He; simpl; [|naive_solver].
  case_bool_decide as Ht; simpl; [|naive_solver].
  pose proof (prefix_entry_for_Some _ _ _ He) as [Hids Hall].
  assert (prefix_blocks_match h e (register_prefix h ids p) = true) as ->; [|rewrite Hids; naive_solver].
  unfold prefix_blocks_match. rewrite bool_decide_true by done. simpl.
  apply forallb_forall. intros x Hx%list_elem_of_In.
  rewrite Forall_forall in Hall. destruct (Hall x Hx) as (b & Hb & Hr & Hc).
  rewrite (proj1 (register_prefix_frame h ids p)), Hb, bool_decide_true by done.
  destruct (N.ltb_spec 0 (ref_count b)); [done|lia].
Qed.

(** The blocks live before an append are live after it. *)
Lemma append_live ext sid i p p' s j :
  inv ext p → inv ext p' → appended sid i s p p' → sessions p !! sid = Some s →
  (∃ b, blocks p !! j = Some b ∧ ref_count b ≠ 0) →
  ∃ b, blocks p' !! j = Some b ∧ ref_count b ≠ 0.
Proof.
  intros Hp Hp' [(s' & Hs' & _ & Hown) _ _ _ _ _] Hs (b & Hb & Hr).
  rewrite (pi_count _ _ _ _ _ _ Hp j b Hb) in Hr.
  destruct (block_of_inv ext p' j Hp') as (b' & Hb' & Hr').
  - rewrite Hs'. pose proof (owners_insert _ sid s s' j Hs) as Ho.
    rewrite (owns_append s i s' j Hown) in Ho. case_decide; unfold owns in Ho; try case_decide; lia.
  - exists b'. split; [done|]. rewrite Hr', Hs'. pose proof (owners_insert _ sid s s' j Hs) as Ho.
    rewrite (owns_append s i s' j Hown) in Ho. case_decide; unfold owns in Ho; try case_decide; lia.
Qed.

Lemma attach_loop_spec ext sid ids p s :
  inv ext p → room ext p → sessions p !! sid = Some s →
  (∀ i, i ∈ ids → ∃ b, blocks p !! i = Some b ∧ ref_count b ≠ 0) →
  let '(ok, p') := attach_loop sid ids p in
  ok = true ∧ inv ext p' ∧ keeps ∅ p p' ∧ free_list p' = free_list p
  ∧ prefixes p' = prefixes p ∧ next_session_id p' = next_session_id p
  ∧ ∃ s', sessions p' = <[sid := s']> (sessions p)
      ∧ SessionBlockTable.block_ids s' = SessionBlockTable.block_ids s ++ ids.
Proof.
  revert p s. induction ids as [|i ids IH]; intros p s Hp Hroom Hs Hlive; simpl.
  - split_and!; try done. exists s. by rewrite insert_id, app_nil_r.
  - pose proof (append_inner_spec ext sid i p true Hp
      (λ _, room_counts_bounded ext p Hp Hroom) ltac:(done)) as Ha.
    destruct (append_block_to_session_inner sid i true p) as [[[]|e|] p1]; [| |done].
    2: { destruct Ha as (_ & _ & _ & _ & [?|Hz]); [congruence|].
         destruct (Hlive i) as (b & Hb & Hr); [set_solver|]. by specialize (Hz b Hb). }
    destruct Ha as (s0 & Hs0 & _ & Happ & Hp1). rewrite Hs in Hs0. injection Hs0 as <-.
    simpl in Hp1. pose proof Happ as [(s1 & Hs1 & Hids & _) Hk1 _ Hf1 Hn1 Hx1].
    assert (sessions p1 !! sid = Some s1) as Hs1' by (rewrite Hs1; apply lookup_insert_eq).
    assert (room ext p1) as Hroom1.
    { intros j. rewrite Hs1, map_size_insert, Hs. apply Hroom. }
    specialize (IH p1 s1 Hp1 Hroom1 Hs1').
    destruct (attach_loop sid ids p1) as [ok p'].
    destruct IH as (-> & ? & ? & -> & -> & -> & s' & Hs' & Hids').
    { intros j Hj. eapply append_live; [exact Hp|exact Hp1|exact Happ|exact Hs|].
      apply Hlive. set_solver. }
    split_and!; try done.
    + by eapply keeps_trans.
    + exists s'. rewrite Hs', Hs1, insert_insert_eq. split; [done|].
      by rewrite Hids', Hids, <- app_assoc.
Qed.

Lemma attach_prefix_to_session_spec ext sid h p :
  inv ext p → room ext p →
  match attach_prefix_to_session sid h p with
  | (Some ids, p') =>
      lookup_prefix h p = Some ids ∧ inv ext p' ∧ keeps ∅ p p' ∧ free_list p' = free_list p
      ∧ ∃ s s', sessions p !! sid = Some s ∧ sessions p' = <[sid := s']> (sessions p)
          ∧ SessionBlockTable.block_ids s' = SessionBlockTable.block_ids s ++ ids
  | (None, p') => p' = p ∧ (sessions p !! sid = None ∨ lookup_prefix h p = None)
  end.
Proof.
  intros Hp Hroom. unfold attach_prefix_to_session.
  destruct (sessions p !! sid) as [s|] eqn:Hs; [|by split; [|left]].
  destruct (lookup_prefix h p) as [ids|] eqn:Hl; [|by split; [|right]].
  pose proof (lookup_prefix_Some h p ids Hl) as [Hlive _].
  pose proof (attach_loop_spec ext sid ids p s Hp Hroom Hs Hlive) as Ha.
  destruct (attach_loop sid ids p) as [ok p'].
  destruct Ha as (-> & ? & ? & ? & _ & _ & s' & ? & ?). split_and!; try done.
  by exists s, s'.
Qed.

(** ** Copy on write *)

(** Two blocks of a pool hold the same tokens. *)
Definition same_tokens (b b' : t) (w w' : World) : Prop :=
  token_count b' = token_count b ∧ content_hash b' = content_hash b
  ∧ ∀ j, key j b' w' = key j b w ∧ value j b' w' = value j b w.

Lemma same_content_tokens b b' w w' : same_content b b' w w' → same_tokens b b' w w'.
Proof.
  intros Hs. split_and!; [apply Hs|apply Hs|]. intros j. by apply same_content_read.
Qed.

Lemma same_tokens_trans b1 b2 b3 w1 w2 w3 :
  same_tokens b1 b2 w1 w2 → same_tokens b2 b3 w2 w3 → same_tokens b1 b3 w1 w3.
Proof.
  intros (T1 & H1 & R1) (T2 & H2 & R2). split_and!; [congruence..|].
  intros j. destruct (R1 j), (R2 j). split; congruence.
Qed.

Lemma replace_owned_block_total index i prev s :
  i ≠ 0 → SessionBlockTable.read_block index s = Some prev →
  ∃ rel s', SessionBlockTable.replace_owned_block index i s = Ok (prev, rel, s').
Proof.
  intros Hi Hr. unfold SessionBlockTable.replace_owned_block, BlockTable.replace, BlockId.is_invalid.
  destruct (N.eqb_spec i 0); [done|]. unfold SessionBlockTable.read_block, BlockTable.get in Hr.
  rewrite Hr. simpl. eauto.
Qed.

(** The table entry moved from [i] to a block [j] it did not own: the handle on
    [i] is given up when no other entry of the table names it. *)
Lemma owns_replaced s s' index i j (rel : bool) x :
  SessionBlockTable.wf s → SessionBlockTable.wf s' →
  SessionBlockTable.block_ids s !! index = Some i →
  SessionBlockTable.block_ids s' = <[index := j]> (SessionBlockTable.block_ids s) →
  rel = bool_decide (i ∉ SessionBlockTable.block_ids s') →
  j ∉ SessionBlockTable.owned_blocks s →
  (owns s' x + (if rel then (if decide (x = i) then 1 else 0) else 0)
   = owns s x + (if decide (x = j) then 1 else 0))%nat.
Proof.
  intros (_ & Hw & _) (_ & Hw' & _) Hi Hids -> Hj. unfold owns.
  assert (index < length (SessionBlockTable.block_ids s))%nat as Hlt by (by eapply lookup_lt_Some).
  assert (i ∈ SessionBlockTable.block_ids s) as Hin by (by eapply list_elem_of_lookup_2).
  assert (j ∈ SessionBlockTable.block_ids s') as Hin'.
  { rewrite Hids. eapply list_elem_of_lookup_2. by apply list_lookup_insert_eq. }
  assert (∀ y, y ≠ i → y ≠ j →
    (y ∈ SessionBlockTable.block_ids s' ↔ y ∈ SessionBlockTable.block_ids s)) as Hother.
  { intros y Hyi Hyj. rewrite Hids, !list_elem_of_lookup. split; intros [k Hk];
      (destruct (decide (k = index)) as [->|]; [|exists k]).
    - rewrite list_lookup_insert_eq in Hk by done. congruence.
    - by rewrite list_lookup_insert_ne in Hk.
    - congruence.
    - by rewrite list_lookup_insert_ne. }
  rewrite Hw in Hj. assert (i ≠ j) as Hne by congruence.
  destruct (decide (x = j)) as [->|Hxj].
  - rewrite (decide_True (P := j ∈ SessionBlockTable.owned_blocks s')) by (by apply Hw').
    rewrite (decide_False (P := j ∈ SessionBlockTable.owned_blocks s)) by (by rewrite Hw).
    rewrite (decide_False (P := j = i)) by done. by case_bool_decide.
  - destruct (decide (x = i)) as [->|Hxi].
    + rewrite (decide_True (P := i ∈ SessionBlockTable.owned_blocks s)) by (by apply Hw).
      case_bool_decide as Hb.
      * rewrite decide_False; [done|]. by rewrite Hw'.
      * rewrite decide_True; [done|]. apply Hw'. by destruct (decide (i ∈ SessionBlockTable.block_ids s')).
    + destruct (decide (x ∈ SessionBlockTable.owned_blocks s)) as [Hx|Hx].
      * rewrite decide_True; [by case_bool_decide|]. apply Hw', Hother; [done..|by apply Hw].
      * rewrite decide_False; [by case_bool_decide|]. intros Hx'. apply Hx, Hw, Hother; [done..|].
        by apply Hw'.
Qed.

(** What [copy_on_write_session_block] establishes when it succeeds with [j]
    for the entry [index] of session [sid]. *)
Record unshared (ext : BlockIdT → nat) (sid : SessionIdT) (index : nat) (j : BlockIdT)
    (p p' : Pool) : Prop := {
  un_inv : inv ext p';
  un_session : ∃ s s', sessions p !! sid = Some s ∧ sessions p' !! sid = Some s'
    ∧ SessionBlockTable.block_ids s' = <[index := j]> (SessionBlockTable.block_ids s);
  un_exclusive : ext j = O ∧ owners (sessions p') j = 1%nat;
  un_content : ∃ i b b', session_block_at sid index p = Some i ∧ blocks p !! i = Some b
    ∧ blocks p' !! j = Some b' ∧ ref_count b' = 1
    ∧ same_tokens b b' (world p) (world p');
  un_keeps : keeps {[j]} p p';
  un_others : others_kept sid p p';
}.

Lemma touch_sole_owner_spec ext sid index i s b p :
  inv ext p → sessions p !! sid = Some s →
  SessionBlockTable.read_block index s = Some i →
  blocks p !! i = Some b → ref_count b = 1 →
  ∃ p', touch_sole_owner sid i p = (Ok i, p') ∧ unshared ext sid index i p p'.
Proof.
  intros Hp Hs Hi Hb Hr. unfold touch_sole_owner, touch_session_block. simpl.
  rewrite Hs, Hb, Hr. simpl. set (a := sat_add (access_clock p) 1). eexists. split; [done|].
  assert (i ∈ SessionBlockTable.block_ids s) as Hin by (by eapply list_elem_of_lookup_2).
  destruct (session_block_live ext p sid s i Hp Hs Hin) as (Hown & _).
  destruct (pi_session _ _ _ _ _ _ Hp sid s Hs) as (Hwf & _).
  pose proof (owners_pos _ _ _ i Hs Hown) as Hpos.
  pose proof (pi_count _ _ _ _ _ _ Hp i b Hb) as Hcount.
  constructor; simpl.
  - apply (inv_put_session ext _ _ _ _ _ sid s); try done. by apply (inv_touch ext p).
  - exists s. eexists. split_and!; [done|apply lookup_insert_eq|].
    symmetry. by apply list_insert_id.
  - rewrite (owners_insert_same _ _ s) by done. lia.
  - exists i, b. eexists. unfold session_block_at. rewrite Hs. simpl.
    split_and!; [done|done|apply lookup_insert_eq|done|]. by split_and!.
  - by apply (keeps_touch _ ext p _ i b a).
  - eapply others_kept_insert; [reflexivity|]. done.
Qed.

Lemma copy_shared_block_spec ext sid index i s b p :
  inv ext p → sessions p !! sid = Some s →
  SessionBlockTable.read_block index s = Some i →
  blocks p !! i = Some b → ref_count b ≠ 0 →
  match copy_shared_block sid index i p with
  | (Ok j, p') => unshared ext sid index j p p' ∧ j ≠ i
  | (Err e, p') => e = CapacityExceeded 1 0 ∧ free_list p = [] ∧ p' = p
  | (Panic, _) => False
  end.
Proof.
  intros Hp Hs Hi Hb Hr. unfold copy_shared_block.
  pose proof (allocate_spec ext p Hp) as Ha.
  destruct (allocate p) as [[j|] p1]; [|by destruct Ha as [? ->]].
  destruct Ha as (Hfl & He & Ho & Hp1 & Hs1 & _ & _ & Hk1 & Hd1 & bj & Hbj & Hrj & Htj & Hhj).
  assert (j ≠ i) as Hji.
  { intros ->. destruct (free_block ext i p Hp) as (b0 & ? & ? & _); [rewrite Hfl; set_solver|].
    congruence. }
  pose proof (elem_of_dom_2 _ _ _ Hb) as Hdi. rewrite <- Hd1, elem_of_dom in Hdi.
  destruct Hdi as [b1 Hb1].
  assert (ref_count b1 = ref_count b) as Hrb.
  { rewrite (pi_count _ _ _ _ _ _ Hp1 i b1 Hb1), (pi_count _ _ _ _ _ _ Hp i b Hb), Hs1.
    unfold ext_add. by rewrite decide_False. }
  destruct (Hk1 i b1) as (b0 & Hb0 & _ & Hsc); [set_solver|done|congruence|].
  rewrite Hb in Hb0. injection Hb0 as <-. simpl. rewrite Hb1, Hbj.
  destruct (N.eqb_spec i j); [congruence|].
  destruct (pi_block _ _ _ _ _ _ Hp1 i b1 Hb1) as (_ & _ & Hbw1).
  destruct (pi_block _ _ _ _ _ _ Hp1 j bj Hbj) as (Hidj & Hj0 & Hbwj).
  destruct (pi_shape _ _ _ _ _ _ Hp1 j i bj b1 Hbj Hb1) as [Hcap Hvl].
  set (a := sat_add (access_clock p1) 1).
  destruct (copy_contents_from_spec b1 a bj (world p1) (pi_world _ _ _ _ _ _ Hp1) Hbwj Hbw1 Hcap Hvl)
    as (bj' & w' & -> & Hw' & Hbj' & Hfr & Hid' & Hcap' & Hvl' & Htok' & Hr' & Hh' & _ & Hread).
  apply storage_frame_step in Hfr. rewrite Hs1, Hs.
  destruct (replace_owned_block_total index j i s Hj0 Hi) as (rel & s' & Hrep). rewrite Hrep.
  destruct (pi_session _ _ _ _ _ _ Hp sid s Hs) as (Hwf & Hsid & _).
  pose proof (SessionBlockTable.replace_owned_block_Ok _ _ _ _ _ _ Hwf Hrep)
    as (_ & Hidx & Hids & Hrel & Hwf' & Hsid' & _).
  pose proof (owners_zero _ _ _ _ Ho Hs) as Hnj.
  pose proof (λ x, owns_replaced s s' index i j rel x Hwf Hwf' Hidx Hids Hrel Hnj) as Howns.
  assert (pool_inv (ext_add j ext) (<[j := bj']> (blocks p1)) (free_list p1) (sessions p1)
            (next_session_id p1) w') as Hp2.
  { apply (inv_put_block (ext_add j ext) (blocks p1) (free_list p1) _ _ (world p1) _ j bj); try done.
    - congruence.
    - apply Hp1.
    - intros x. rewrite Hr'. destruct (decide (x = j)) as [->|]; [|naive_solver].
      rewrite (pi_free _ _ _ _ _ _ Hp1). rewrite Hbj. split.
      + intros (? & [= <-] & ?). congruence.
      + intros [[_ ?]|[? _]]; done.
    - rewrite Hr', <- Hrj. by apply (pi_count _ _ _ _ _ _ Hp1). }
  set (s2 := SessionBlockTable.touch a s').
  set (p3 := put_session sid s2 _).
  assert (inv (if rel then ext_add i ext else ext) p3) as Hp3.
  { eapply (inv_put_session (ext_add j ext) _ _ _ _ _ sid s); [exact Hp2|simpl; congruence|exact Hwf'|done|].
    intros x. specialize (Howns x). change (owns s2 x) with (owns s' x). unfold ext_add.
    destruct rel; repeat case_decide; lia. }
  assert (keeps {[j]} p p3) as Hk3.
  { eapply keeps_trans; [exact Hk1|]. eapply (keeps_put _ p1 p3 j bj); [exact Hp1|done|done|exact Hfr|].
    left. set_solver. }
  match goal with |- context [if rel then _ else ?q] => set (p3' := q) end.
  change p3' with p3. clear p3'.
  set (p4 := if rel then (release i p3).2 else p3).
  assert (inv ext p4 ∧ keeps ∅ p3 p4 ∧ sessions p4 = sessions p3) as (Hp4 & Hk4 & Hs4).
  { subst p4. destruct rel; [|done].
    pose proof (release_spec _ i p3 Hp3 ltac:(unfold ext_add; rewrite decide_True by done; lia)) as Hrl.
    destruct (release i p3) as [ok p4]. destruct Hrl as (_ & Hinv & Hss & _ & _ & _ & Hk & _).
    split_and!; [|done|done]. eapply inv_ext; [|exact Hinv]. intros x. by rewrite ext_sub_add. }
  assert (owners (sessions p4) j = 1%nat) as Hone.
  { rewrite Hs4. simpl. rewrite Hs1. pose proof (owners_insert (sessions p) sid s s2 j Hs) as Hoi.
    specialize (Howns j). change (owns s2 j) with (owns s' j) in Hoi.
    rewrite (decide_True (P := j = j)) in Howns by done. rewrite (decide_False (P := j = i)) in Howns by done.
    destruct rel; lia. }
  destruct (block_of_inv ext p4 j Hp4 ltac:(lia)) as (b4 & Hb4 & Hr4).
  destruct (Hk4 j b4) as (c & Hc & _ & Hsc4); [set_solver|done|lia|].
  assert (c = bj') as ->.
  { simpl in Hc. rewrite lookup_insert_eq in Hc. congruence. }
  split; [|done]. constructor; simpl.
  - exact Hp4.
  - exists s, s2. rewrite Hs4. simpl. by rewrite lookup_insert_eq.
  - done.
  - exists i, b, b4. unfold session_block_at. rewrite Hs. simpl.
    split_and!; [done|done|done|lia|].
    eapply same_tokens_trans; [by apply same_content_tokens|].
    eapply (same_tokens_trans b1 bj' b4 _ w'); [by split_and!|].
    by apply same_content_tokens.
  - eapply keeps_trans; [exact Hk3|]. eapply keeps_weaken; [|exact Hk4]. set_solver.
  - apply (others_kept_insert sid s2 p p); [done|].
    change (sessions p4 = <[sid := s2]> (sessions p)). rewrite Hs4. simpl. by rewrite Hs1.
Qed.

Lemma unshared_after_eviction ext sid index j p p1 p' :
  evicted ext sid p p1 → inv ext p → unshared ext sid index j p1 p' → unshared ext sid index j p p'.
Proof.
  intros [Hp1 Hself Hsub _ _ Hk _] Hp [Hinv Hsess Hex Hcont Hkeep Hoth].
  constructor; try done.
  - by rewrite <- Hself.
  - destruct Hcont as (i & b1 & b' & Hat & Hb1 & Hb' & Hr' & Hst).
    unfold session_block_at in *. rewrite Hself in Hat.
    destruct (sessions p !! sid) as [s|] eqn:Hs; [|done]. simpl in Hat.
    destruct (session_block_live ext p1 sid s i Hp1) as (_ & b0 & Hb0 & Hr0);
      [by rewrite Hself|by eapply list_elem_of_lookup_2|].
    rewrite Hb1 in Hb0. injection Hb0 as <-.
    destruct (Hk i b1) as (b & Hb & _ & Hsc); [set_solver|done|done|].
    exists i, b, b'. split_and!; try done.
    eapply same_tokens_trans; [by apply same_content_tokens|done].
  - eapply keeps_trans; [|exact Hkeep]. eapply keeps_weaken; [|exact Hk]. set_solver.
  - unfold others_kept in *. by etrans.
Qed.

Lemma copy_on_write_spec ext sid index p :
  inv ext p →
  match copy_on_write_session_block sid index p with
  | (Ok j, p') => unshared ext sid index j p p'
  | (Err e, p') =>
      inv ext p' ∧ keeps ∅ p p' ∧ others_kept sid p p' ∧ sessions p' !! sid = sessions p !! sid
      ∧ ((e = InvalidShape ∧ p' = p ∧ session_block_at sid index p = None)
         ∨ (e = CapacityExceeded 1 0 ∧ free_list p' = []
            ∧ ∀ k s, sessions p' !! k = Some s → k ≠ sid → SessionBlockTable.is_empty s = true))
  | (Panic, _) => False
  end.
Proof.
  intros Hp. unfold copy_on_write_session_block.
  destruct (session_block_at sid index p) as [i|] eqn:Hat; [|split_and!; auto; by apply others_kept_sub].
  unfold session_block_at in Hat. destruct (sessions p !! sid) as [s|] eqn:Hs; [|done]. simpl in Hat.
  assert (i ∈ SessionBlockTable.block_ids s) as Hin by (by eapply list_elem_of_lookup_2).
  assert (∀ q, inv ext q → sessions q !! sid = Some s →
    ∃ b, blocks q !! i = Some b ∧ ref_count b ≠ 0 ∧ live_ref_count i q = Some (ref_count b)) as Hlive.
  { intros q Hq Hsq. destruct (session_block_live ext q sid s i Hq Hsq Hin) as (_ & b & Hb & Hr).
    exists b. split_and!; [done|done|]. unfold live_ref_count, block_ref_count. rewrite Hb. simpl.
    by destruct (N.eqb_spec (ref_count b) 0). }
  destruct (Hlive p Hp Hs) as (b & Hb & Hr & ->).
  destruct (N.eqb_spec (ref_count b) 1) as [H1|Hn1].
  { by destruct (touch_sole_owner_spec ext sid index i s b p Hp Hs Hat Hb H1) as (p' & -> & ?). }
  fold (make_room sid p). destruct (make_room_spec ext sid p Hp) as [Hev Hfull].
  revert Hev Hfull. generalize (make_room sid p) as p1. intros p1 Hev Hfull.
  pose proof (ev_inv _ _ _ _ Hev) as Hp1.
  assert (sessions p1 !! sid = Some s) as Hs1 by (rewrite <- Hs; apply Hev).
  destruct (Hlive p1 Hp1 Hs1) as (b1 & Hb1 & Hr1 & ->).
  destruct (N.eqb_spec (ref_count b1) 1) as [H1'|Hn1'].
  { destruct (touch_sole_owner_spec ext sid index i s b1 p1 Hp1 Hs1 Hat Hb1 H1') as (p' & -> & ?).
    by eapply unshared_after_eviction. }
  pose proof (copy_shared_block_spec ext sid index i s b1 p1 Hp1 Hs1 Hat Hb1 Hr1) as Hcopy.
  destruct (copy_shared_block sid index i p1) as [[j|e|] p']; [| |done].
  - destruct Hcopy as [Hun _]. by eapply unshared_after_eviction.
  - destruct Hcopy as (-> & Hnil & ->). split_and!; [done|apply Hev|apply others_kept_sub; apply Hev|congruence|].
    right. split_and!; [done|done|]. by destruct Hfull.
Qed.
End session_ops.
