(* ===== verification/BlockPoolReach.v ===== *)
(** * Every pool a client can reach

    The public calls of [BlockPool] ([crates/llm-kv-cache/src/block_pool.rs]),
    each one atomic under the pool's mutex, as labels of a transition system,
    and the guarantees that hold after any sequence of them. *)
From stdpp Require Import base gmap sets numbers list.
From S2P Require Import Prelude KvTables CacheBlock BlockPool BlockPoolInv BlockPoolOps.
Import CacheBlock.
Open Scope N_scope.

(** ** A new pool *)
Record fresh_table (cap vlen : N) (bs : gmap BlockIdT t) (fl : list BlockIdT) (w : World) : Prop := {
  ft_world : world_wf w;
  ft_counter : 0 < next_block_id w;
  ft_block : ∀ i b, bs !! i = Some b →
    id b = i ∧ i ≠ 0 ∧ i < next_block_id w ∧ block_wf b w ∧ ref_count b = 0
    ∧ capacity_tokens b = cap ∧ vector_len b = vlen;
  ft_alias : ∀ i j b c, bs !! i = Some b → bs !! j = Some c → storage b = storage c → i = j;
  ft_free : NoDup fl ∧ ∀ i, i ∈ fl ↔ is_Some (bs !! i);
}.

Lemma fresh_table_add cap vlen bs fl w b w' :
  fresh_table cap vlen bs fl w → CacheBlock.new cap vlen w = (Ok b, w') →
  fresh_table cap vlen (<[id b := b]> bs) (fl ++ [id b]) w' ∧ bs !! id b = None.
Proof.
  intros [Hw Hc Hb Hal [Hnd Hfl]] Hnew. pose proof (new_spec cap vlen w Hw) as Hs.
  rewrite Hnew in Hs. destruct Hs as (Hw' & Hbw & Hid & Hn & Hcap & Hvl & _ & Hr & _ & Hst & _ & Hfr).
  assert (bs !! id b = None) as Hnone.
  { destruct (bs !! id b) as [c|] eqn:E; [|done]. destruct (Hb _ _ E) as (_ & _ & ? & _). lia. }
  assert (∀ j c, bs !! j = Some c → storage c ≠ storage b ∧ block_wf c w') as Hothers.
  { intros j c Hj. destruct (Hb _ _ Hj) as (_ & _ & _ & (Hsh & s & Hs & Hsw) & _).
    assert (Arc.get (storage c) (storages w) ≠ None) as Hne by congruence. split.
    - rewrite Hst. intros E. apply Hne. rewrite E. unfold Arc.get.
      by rewrite (Arc.fresh_not_alive _ Hw).
    - split; [done|]. exists s. by rewrite Hfr. }
  split; [|done]. constructor; [done|lia| | |].
  - intros i c. rewrite lookup_insert. case_decide as Hi.
    + intros [= <-]. split_and!; try done; lia.
    + intros Hl. destruct (Hb _ _ Hl) as (? & ? & ? & ? & ? & ? & ?).
      split_and!; try done; [lia|]. by destruct (Hothers i c Hl).
  - intros i j c d. rewrite !lookup_insert. do 2 case_decide; intros; simplify_eq; try done.
    + destruct (Hothers j d); [done|]. congruence.
    + destruct (Hothers i c); [done|]. congruence.
    + by eapply Hal.
  - split.
    + apply NoDup_app. split_and!; [done| |apply NoDup_singleton].
      intros i Hi ->%list_elem_of_singleton. apply Hfl in Hi as [? ?]. congruence.
    + intros i. rewrite elem_of_app, list_elem_of_singleton, lookup_insert, Hfl.
      case_decide as Hi; [subst; naive_solver|]. naive_solver.
Qed.

Lemma new_blocks_spec n cap vlen bs fl w :
  fresh_table cap vlen bs fl w →
  match new_blocks n cap vlen bs fl w with
  | (Ok (bs', fl'), w') => fresh_table cap vlen bs' fl' w' ∧ size bs' = (n + size bs)%nat
  | (Err e, _) => e = InvalidShape
  | (Panic, _) => False
  end.
Proof.
  revert bs fl w. induction n as [|n IH]; intros bs fl w Hf; simpl; [done|].
  pose proof (new_spec cap vlen w (ft_world _ _ _ _ _ Hf)) as Hs.
  destruct (CacheBlock.new cap vlen w) as [[b|e|] w'] eqn:E; [|by destruct Hs|done].
  destruct (fresh_table_add _ _ _ _ _ _ _ Hf E) as [Hf' Hnone].
  specialize (IH _ _ _ Hf').
  destruct (new_blocks n cap vlen _ _ w') as [[[bs' fl']|e|] w'']; try done.
  destruct IH as [? Hsz]. split; [done|]. rewrite Hsz, map_size_insert, Hnone. lia.
Qed.

Lemma new_spec_pool n cap vlen w :
  world_wf w → 0 < next_block_id w →
  match BlockPool.new n cap vlen w with
  | (Ok p, _) => inv (λ _, O) p ∧ size (blocks p) = N.to_nat n ∧ sessions p = ∅ ∧ n ≠ 0
  | (Err e, _) => e = InvalidShape
  | (Panic, _) => False
  end.
Proof.
  intros Hw Hc. unfold BlockPool.new. destruct (N.eqb_spec n 0); [done|].
  assert (fresh_table cap vlen ∅ [] w) as Hf.
  { constructor; try done; try (intros ???? H; by rewrite lookup_empty in H).
    - split; [constructor|]. intros i. rewrite lookup_empty. split; [set_solver|by intros [? ?]]. }
  pose proof (new_blocks_spec (N.to_nat n) cap vlen ∅ [] w Hf) as Hb.
  destruct (new_blocks _ cap vlen ∅ [] w) as [[[bs fl]|e|] w']; try done.
  destruct Hb as [[Hw' Hc' Hblk Hal [Hnd Hfl]] Hsz].
  rewrite map_size_empty in Hsz. split_and!; try done; [|simpl; lia].
  constructor; simpl; try done.
  - intros i b Hi. by destruct (Hblk i b Hi) as (? & ? & _ & ? & _).
  - intros i j b c Hi Hj. destruct (Hblk i b Hi) as (_ & _ & _ & _ & _ & -> & ->).
    by destruct (Hblk j c Hj) as (_ & _ & _ & _ & _ & -> & ->).
  - intros i. rewrite Hfl. split; [|naive_solver]. intros [b Hi]. exists b.
    by destruct (Hblk i b Hi) as (_ & _ & _ & _ & ? & _).
  - intros i b Hi. destruct (Hblk i b Hi) as (_ & _ & _ & _ & -> & _). unfold owners.
    rewrite map_filter_empty, map_size_empty. done.
  - intros i. unfold owners. rewrite map_filter_empty, map_size_empty. lia.
Qed.

(** ** The blocks of a pool are fixed *)
Definition same_dom (p p' : Pool) : Prop := dom (blocks p') = dom (blocks p).

Lemma same_dom_put i b b' p p' :
  blocks p !! i = Some b → blocks p' = <[i := b']> (blocks p) → same_dom p p'.
Proof. intros Hb Heq. unfold same_dom. rewrite Heq. apply dom_insert_lookup_L. eauto. Qed.

Lemma same_dom_trans p1 p2 p3 : same_dom p1 p2 → same_dom p2 p3 → same_dom p1 p3.
Proof. unfold same_dom. congruence. Qed.

(** Splits an operation into its branches, each of which leaves the blocks or
    replaces one that is there. *)
Ltac solve_same_dom :=
  repeat case_match; simplify_eq/=; try done;
  try (eapply same_dom_put; [eassumption|done]).

Section doms.
Context `{HashOrder}.

Lemma release_dom i p : same_dom p (release i p).2.
Proof. unfold release. solve_same_dom. Qed.

Lemma allocate_dom p : same_dom p (allocate p).2.
Proof. unfold allocate, next_access. solve_same_dom. Qed.

Lemma append_inner_dom sid i r p : same_dom p (append_block_to_session_inner sid i r p).2.
Proof. unfold append_block_to_session_inner, next_access. solve_same_dom. Qed.

Lemma touch_session_block_dom sid i p : same_dom p (touch_session_block sid i p).2.
Proof. unfold touch_session_block, next_access. solve_same_dom. Qed.

Lemma release_owned_dom l n p : same_dom p (foldl release_owned (n, p) l).2.
Proof.
  revert n p. induction l as [|i l IH]; intros n p; [done|]. simpl.
  pose proof (release_dom i p) as Hd. destruct (release i p) as [ok p1]. simpl.
  eapply same_dom_trans; [exact Hd|]. apply IH.
Qed.

Lemma release_session_inner_dom sid p : same_dom p (release_session_inner sid p).2.
Proof.
  unfold release_session_inner. destruct (sessions p !! sid) as [s|]; [|done].
  set (q := set_sessions _ p).
  pose proof (release_owned_dom (hash_elems (SessionBlockTable.owned_blocks s)) 0 q) as Hd.
  destruct (foldl release_owned _ _) as [m p']. exact Hd.
Qed.

Lemma evict_loop_dom fuel sid p : same_dom p (evict_loop fuel sid p).
Proof.
  revert p. induction fuel as [|fuel IH]; intros p; simpl; [done|].
  destruct (free_list p); [|done]. destruct (lru_session_except (Some sid) p) as [v|]; [|done].
  pose proof (release_session_inner_dom v p) as Hd.
  destruct (release_session_inner v p) as [[m|] p1]; [|done].
  eapply same_dom_trans; [exact Hd|]. eapply same_dom_trans; [|apply IH]. done.
Qed.

Lemma make_room_dom sid p : same_dom p (make_room sid p).
Proof. unfold make_room. destruct (free_list p); [apply evict_loop_dom|done]. Qed.

Lemma allocate_for_session_dom sid p : same_dom p (allocate_for_session sid p).2.
Proof.
  unfold allocate_for_session. destruct (sessions p !! sid); [|done]. fold (make_room sid p).
  eapply same_dom_trans; [apply (make_room_dom sid)|].
  pose proof (allocate_dom (make_room sid p)) as Ha.
  destruct (allocate (make_room sid p)) as [[i|] p2]; [|done].
  eapply same_dom_trans; [exact Ha|]. pose proof (append_inner_dom sid i false p2) as Hd.
  by destruct (append_block_to_session_inner sid i false p2) as [[[]|e|] p3].
Qed.

Lemma attach_prefix_dom sid h p : same_dom p (attach_prefix_to_session sid h p).2.
Proof.
  unfold attach_prefix_to_session. destruct (sessions p !! sid); [|done].
  destruct (lookup_prefix h p) as [ids|]; [|done].
  assert (same_dom p (attach_loop sid ids p).2) as Hd.
  { clear. revert p. induction ids as [|i ids IH]; intros p; simpl; [done|].
    pose proof (append_inner_dom sid i true p) as Hd.
    destruct (append_block_to_session_inner sid i true p) as [[[]|e|] p1]; try done.
    eapply same_dom_trans; [exact Hd|apply IH]. }
  by destruct (attach_loop sid ids p) as [[] p'].
Qed.

Lemma touch_sole_owner_dom sid i p : same_dom p (touch_sole_owner sid i p).2.
Proof.
  unfold touch_sole_owner. pose proof (touch_session_block_dom sid i p) as Hd.
  by destruct (touch_session_block sid i p) as [[[]|e|] p1].
Qed.

Lemma copy_shared_block_dom sid index i p : same_dom p (copy_shared_block sid index i p).2.
Proof.
  unfold copy_shared_block. pose proof (allocate_dom p) as Ha.
  destruct (allocate p) as [[j|] p1]; [|done]. eapply same_dom_trans; [exact Ha|].
  clear Ha. simpl. set (p2 := set_access_clock (sat_add (access_clock p1) 1) p1). change (blocks p1) with (blocks p2).
  destruct (blocks p2 !! i) as [b|] eqn:Hb; [|apply (release_dom j p2)].
  destruct (blocks p2 !! j) as [b'|] eqn:Hb'; [|apply (release_dom j p2)].
  destruct (i =? j); [done|]. destruct (copy_contents_from _ _ _ _) as [[d w]|e|]; [|apply (release_dom j p2)|done].
  set (p3 := set_world w (put_block j d p2)).
  assert (same_dom p1 p3) as H3 by (by apply (same_dom_put j b' d)). simpl.
  destruct (sessions p1 !! sid) as [s|]; [|done].
  destruct (SessionBlockTable.replace_owned_block index j s) as [[[pr rel] s']|e|]; [| |done].
  - destruct rel; [|done]. eapply same_dom_trans; [exact H3|].
    apply (release_dom i (put_session sid (SessionBlockTable.touch (sat_add (access_clock p1) 1) s') p3)).
  - eapply same_dom_trans; [exact H3|].
    apply (release_dom j (put_session sid (SessionBlockTable.touch (sat_add (access_clock p1) 1) s) p3)).
Qed.

Lemma copy_on_write_dom sid index p : same_dom p (copy_on_write_session_block sid index p).2.
Proof.
  unfold copy_on_write_session_block. destruct (session_block_at sid index p) as [i|]; [|done].
  destruct (live_ref_count i p) as [r|]; [|done].
  destruct (r =? 1); [apply touch_sole_owner_dom|]. fold (make_room sid p).
  eapply same_dom_trans; [apply (make_room_dom sid)|].
  destruct (live_ref_count i (make_room sid p)) as [r'|]; [|done].
  destruct (r' =? 1); [apply touch_sole_owner_dom|apply copy_shared_block_dom].
Qed.
End doms.

(** ** Calls *)
Inductive call :=
| CreateSession
| ReleaseSession (session_id : SessionIdT)
| AllocateForSession (session_id : SessionIdT)
| AppendBlockToSession (session_id : SessionIdT) (block_id : BlockIdT)
| ReadSessionBlock (session_id : SessionIdT) (index : nat)
| RegisterPrefix (prefix_hash : CacheBlockHash) (block_ids : list BlockIdT)
| AttachPrefixToSession (session_id : SessionIdT) (prefix_hash : CacheBlockHash)
| CopyOnWriteSessionBlock (session_id : SessionIdT) (index : nat)
| Allocate
| Deallocate (block_id : BlockIdT)
| Retain (block_id : BlockIdT)
| Release (block_id : BlockIdT)
| Touch (block_id : BlockIdT)
| WithBlockMut (block_id : BlockIdT) (f : t → World → t * World).

Definition with_unit (f : t → World → t * World) (b : t) (w : World) : unit * t * World :=
  let '(b, w) := f b w in (tt, b, w).

Section calls.
Context `{HashOrder}.

Definition run_call (c : call) (p : Pool) : Pool :=
  match c with
  | CreateSession => (create_session p).2
  | ReleaseSession sid => (release_session sid p).2
  | AllocateForSession sid => (allocate_for_session sid p).2
  | AppendBlockToSession sid i => (append_block_to_session sid i p).2
  | ReadSessionBlock sid index => (read_session_block sid index p).2
  | RegisterPrefix h ids => register_prefix h ids p
  | AttachPrefixToSession sid h => (attach_prefix_to_session sid h p).2
  | CopyOnWriteSessionBlock sid index => (copy_on_write_session_block sid index p).2
  | Allocate => (allocate p).2
  | Deallocate i => (deallocate i p).2
  | Retain i => (retain i p).2
  | Release i => (release i p).2
  | Touch i => (BlockPool.touch i p).2
  | WithBlockMut i f => (with_block_mut (with_unit f) i p).2
  end.

(** The handles the client holds after a call: [allocate] and a successful
    [retain] hand one out, [release] takes one back. *)
Definition ext_after (c : call) (ext : BlockIdT → nat) (p : Pool) : BlockIdT → nat :=
  match c with
  | Allocate => match (allocate p).1 with Some i => ext_add i ext | None => ext end
  | Deallocate i | Release i => ext_sub i ext
  | Retain i => if (retain i p).1 then ext_add i ext else ext
  | _ => ext
  end.

(** What a closure handed to [with_block_mut] may do: anything to the block's
    tokens, nothing to its identity, shape or count, and nothing to the storage
    of another block. *)
Definition closure_ok (f : t → World → t * World) (b : t) (w : World) : Prop :=
  let '(b', w') := f b w in
  id b' = id b ∧ capacity_tokens b' = capacity_tokens b ∧ vector_len b' = vector_len b
  ∧ ref_count b' = ref_count b ∧ world_wf w' ∧ block_wf b' w' ∧ storage_step b b' w w'.

(** A handle is given back by whoever holds one, or names no live block. *)
Definition allowed (ext : BlockIdT → nat) (c : call) (p : Pool) : Prop :=
  match c with
  | Deallocate i | Release i => (0 < ext i)%nat ∨ live_ref_count i p = None
  | WithBlockMut i f => ∀ b, block_mut i p = Some b → closure_ok f b (world p)
  | _ => True
  end.

(** The session a call is made for. *)
Definition caller (c : call) (p : Pool) : option SessionIdT :=
  match c with
  | CreateSession => Some (next_session_id p)
  | ReleaseSession sid | AllocateForSession sid | AppendBlockToSession sid _
  | ReadSessionBlock sid _ | AttachPrefixToSession sid _ | CopyOnWriteSessionBlock sid _ => Some sid
  | _ => None
  end.

(** Client activity on its own clones and retained storages: the heap changes,
    the storage of the pool's blocks does not. *)
Definition client_world (p : Pool) (w' : World) : Prop :=
  world_wf w' ∧ ∀ i b, blocks p !! i = Some b →
    Arc.get (storage b) (storages w') = Arc.get (storage b) (storages (world p)).

Inductive reachable (n cap vlen : N) : (BlockIdT → nat) → Pool → Prop :=
| reach_new w p w' :
    world_wf w → 0 < next_block_id w → BlockPool.new n cap vlen w = (Ok p, w') →
    reachable n cap vlen (λ _, O) p
| reach_call ext c p :
    reachable n cap vlen ext p → allowed ext c p → room ext p →
    reachable n cap vlen (ext_after c ext p) (run_call c p)
| reach_client ext p w' :
    reachable n cap vlen ext p → client_world p w' →
    reachable n cap vlen ext (set_world w' p).

(** ** One call *)
Definition writes (c : call) : gset BlockIdT :=
  match c with WithBlockMut i _ => {[i]} | _ => ∅ end.

(** A call preserves the invariant, leaves every other surviving session as it
    was, and disturbs no block another session owns. *)
Record call_ok (c : call) (ext' : BlockIdT → nat) (p p' : Pool) : Prop := {
  co_inv : inv ext' p';
  co_others : ∀ k s, Some k ≠ caller c p → sessions p' !! k = Some s → sessions p !! k = Some s;
  co_keeps : ∃ E, keeps E p p' ∧
    ∀ i k s, i ∈ E → Some k ≠ caller c p → sessions p' !! k = Some s →
      i ∈ SessionBlockTable.owned_blocks s → i ∈ writes c;
}.

Lemma call_ok_same_sessions c ext' p p' E :
  inv ext' p' → sessions p' = sessions p →
  keeps E p p' → (∀ i, i ∈ E → i ∈ writes c ∨ owners (sessions p') i = O) →
  call_ok c ext' p p'.
Proof.
  intros Hp Hs Hk HE. constructor; [done|by rewrite Hs|].
  exists E. split; [done|]. intros i k s Hi _ Hks Hown. destruct (HE i Hi) as [?|Hz]; [done|].
  pose proof (owners_pos _ _ _ i Hks Hown). lia.
Qed.

Lemma call_ok_session c ext' p p' sid :
  inv ext' p' → caller c p = Some sid →
  others_kept sid p p' → keeps ∅ p p' → call_ok c ext' p p'.
Proof.
  intros Hp Hc Ho Hk. constructor; [done| |].
  - intros k s Hne Hs. rewrite Hc in Hne. apply (lookup_weaken (delete sid (sessions p'))); [|done].
    by rewrite lookup_delete_ne by congruence.
  - exists ∅. set_solver.
Qed.

Lemma call_ok_exclusive c ext' p p' sid i s :
  inv ext' p' → caller c p = Some sid →
  others_kept sid p p' → keeps {[i]} p p' →
  owners (sessions p') i = 1%nat → sessions p' !! sid = Some s →
  i ∈ SessionBlockTable.owned_blocks s → call_ok c ext' p p'.
Proof.
  intros Hp Hc Ho Hk Hone Hs Hi. constructor; [done| |].
  - intros k s' Hne Hs'. rewrite Hc in Hne. apply (lookup_weaken (delete sid (sessions p'))); [|done].
    by rewrite lookup_delete_ne by congruence.
  - exists {[i]}. split; [done|]. intros j k s' ->%elem_of_singleton Hne Hs' Hj. exfalso.
    rewrite Hc in Hne. rewrite (owners_delete _ sid s i Hs) in Hone.
    unfold owns in Hone. rewrite decide_True in Hone by done.
    pose proof (owners_pos (delete sid (sessions p')) k s' i) as Hpos.
    rewrite lookup_delete_ne in Hpos by congruence. specialize (Hpos Hs' Hj). lia.
Qed.

Lemma run_call_dom c p : same_dom p (run_call c p).
Proof.
  destruct c as [|sid|sid|sid i|sid idx|h ids|sid h|sid idx| |i|i|i|i|i f]; simpl.
  - unfold create_session, next_access. solve_same_dom; unfold take_session_id in *; by case_match_in H0.
  - unfold release_session. pose proof (release_session_inner_dom sid p).
    by destruct (release_session_inner sid p).
  - apply allocate_for_session_dom.
  - apply append_inner_dom.
  - unfold read_session_block, next_access. solve_same_dom.
  - unfold register_prefix. solve_same_dom.
  - apply attach_prefix_dom.
  - apply copy_on_write_dom.
  - apply allocate_dom.
  - apply release_dom.
  - unfold retain, increment_ref_count. solve_same_dom.
  - apply release_dom.
  - unfold BlockPool.touch, next_access. solve_same_dom.
  - unfold with_block_mut, with_unit, block_mut. destruct (blocks p !! i) as [b|] eqn:Hb; simpl; [|done].
    destruct (ref_count b =? 1); [|done]. destruct (f b (world p)) as [b' w'].
    by apply (same_dom_put i b b').
Qed.

Lemma others_kept_refl sid p p' : sessions p' = sessions p → others_kept sid p p'.
Proof. unfold others_kept. intros ->. apply delete_subseteq. Qed.

Lemma with_block_mut_ok ext i f p :
  inv ext p → allowed ext (WithBlockMut i f) p →
  call_ok (WithBlockMut i f) ext p (run_call (WithBlockMut i f) p).
Proof.
  intros Hp Hal. simpl in *. unfold with_block_mut, with_unit.
  destruct (block_mut i p) as [b|] eqn:Hm; simpl; [|apply (call_ok_same_sessions _ _ _ _ ∅); [done..|set_solver]].
  unfold block_mut in Hm. destruct (blocks p !! i) as [b0|] eqn:Hb; simpl in Hm; [|done].
  destruct (N.eqb_spec (ref_count b0) 1) as [Hr|]; [|done]. injection Hm as <-.
  specialize (Hal b0 eq_refl). unfold closure_ok in Hal.
  destruct (f b0 (world p)) as [b' w'].
  destruct Hal as (Hid & Hcap & Hvl & Hrc & Hw' & Hb' & Hst).
  destruct (pi_block _ _ _ _ _ _ Hp i b0 Hb) as (Hi & _).
  apply (call_ok_same_sessions _ _ _ _ {[i]}); [|done| |].
  - apply (inv_put_block ext (blocks p) (free_list p) _ _ (world p) _ i b0); try done.
    + congruence.
    + apply Hp.
    + intros x. simpl. destruct (decide (x = i)) as [->|]; [|naive_solver].
      rewrite (pi_free _ _ _ _ _ _ Hp), Hb. split.
      * intros (? & [= <-] & ?). lia.
      * intros [[_ ?]|[? _]]; [lia|done].
    + rewrite Hrc. by apply (pi_count _ _ _ _ _ _ Hp).
  - apply (keeps_put _ p _ i b0 b' ext); try done. left. set_solver.
  - intros j Hj. by left.
Qed.

Lemma release_call_ok ext c i p :
  inv ext p → writes c = ∅ → (0 < ext i)%nat ∨ live_ref_count i p = None →
  call_ok c (ext_sub i ext) p (release i p).2.
Proof.
  intros Hp Hw Hal. destruct (decide (0 < ext i)%nat) as [Hpos|Hz].
  - pose proof (release_spec ext i p Hp Hpos) as Hs. destruct (release i p) as [ok p'].
    destruct Hs as (_ & Hinv & Hss & _ & _ & _ & Hk & _).
    by apply (call_ok_same_sessions _ _ _ _ ∅); [..|set_solver].
  - destruct Hal as [?|Hn]; [done|].
    assert ((release i p).2 = p) as ->.
    { unfold release, live_ref_count, block_ref_count in *. destruct (blocks p !! i) as [b|]; [|done].
      simpl in Hn. by destruct (ref_count b =? 0). }
    apply (call_ok_same_sessions _ _ _ _ ∅); [|done..|set_solver].
    eapply inv_ext; [|exact Hp]. intros j. unfold ext_sub. case_decide; [subst; lia|done].
Qed.

Lemma run_call_ok ext c p :
  inv ext p → allowed ext c p → room ext p → call_ok c (ext_after c ext p) p (run_call c p).
Proof.
  intros Hp Hal Hroom.
  destruct c as [|sid|sid|sid i|sid idx|h ids|sid h|sid idx| |i|i|i|i|i f]; simpl.
  - pose proof (create_session_spec ext p Hp) as Hs. destruct (create_session p) as [[sid|e|] p']; [| |done].
    + destruct Hs as (-> & _ & Hinv & (s & Hs & _) & _ & Hk).
      eapply call_ok_session; [done|done| |done]. by apply (others_kept_insert _ s p p).
    + destruct Hs as (_ & -> & _). apply (call_ok_same_sessions _ _ _ _ ∅); [done..|set_solver].
  - unfold release_session. pose proof (release_session_inner_spec ext sid p Hp) as Hs.
    destruct (release_session_inner sid p) as [[n|] p'].
    + destruct Hs as (_ & Hinv & Hs & _ & _ & Hk & _).
      eapply call_ok_session; [done|done| |done]. unfold others_kept. simpl. rewrite Hs.
      etrans; apply delete_subseteq.
    + destruct Hs as [_ ->]. apply (call_ok_same_sessions _ _ _ _ ∅); [done..|set_solver].
  - pose proof (allocate_for_session_spec ext sid p Hp) as Hs.
    destruct (allocate_for_session sid p) as [[i|] p'].
    + destruct Hs as (s & s' & b & _ & Hs' & Hids & _ & _ & _ & _ & _ & Hone & Hinv & Hk & Ho).
      eapply call_ok_exclusive; [done|done|done|done|done|exact Hs'|].
      destruct (pi_session _ _ _ _ _ _ Hinv sid s' Hs') as ((_ & Hwf & _) & _).
      apply Hwf. rewrite Hids. set_solver.
    + destruct Hs as (Hinv & Hk & Ho & _). by eapply call_ok_session.
  - unfold append_block_to_session.
    pose proof (append_inner_spec ext sid i p true Hp (λ _, room_counts_bounded ext p Hp Hroom) ltac:(done)) as Hs.
    destruct (append_block_to_session_inner sid i true p) as [[[]|e|] p']; [| |done].
    + destruct Hs as (s & _ & _ & [(s' & Hs' & _) Hk _ _ _ _] & Hinv). simpl in Hinv.
      eapply call_ok_session; [done|done| |done]. by apply (others_kept_insert _ s' p p).
    + destruct Hs as (_ & Hinv & Hss & Hk & _). apply (call_ok_same_sessions _ _ _ _ ∅); [done..|set_solver].
  - pose proof (read_session_block_spec ext sid idx p Hp) as Hs.
    destruct (read_session_block sid idx p) as [r p']. destruct Hs as (_ & Hinv & Hk & Ho & _).
    by eapply call_ok_session.
  - destruct (register_prefix_frame h ids p) as (Hb & Hf & Hs & Hw & Hn & _).
    apply (call_ok_same_sessions _ _ _ _ ∅); [|done|by apply keeps_eq|set_solver].
    unfold inv. by rewrite Hb, Hf, Hs, Hw, Hn.
  - pose proof (attach_prefix_to_session_spec ext sid h p Hp Hroom) as Hs.
    destruct (attach_prefix_to_session sid h p) as [[ids|] p'].
    + destruct Hs as (_ & Hinv & Hk & _ & s & s' & _ & Hs' & _).
      eapply call_ok_session; [done|done| |done]. by apply (others_kept_insert _ s' p p).
    + destruct Hs as (-> & _). apply (call_ok_same_sessions _ _ _ _ ∅); [done..|set_solver].
  - pose proof (copy_on_write_spec ext sid idx p Hp) as Hs.
    destruct (copy_on_write_session_block sid idx p) as [[j|e|] p']; [| |done].
    + destruct Hs as [Hinv (s & s' & Hs & Hs' & Hids) [_ Hone] (i & b & b' & Hat & _) Hk Ho].
      eapply call_ok_exclusive; [done|done|done|done|done|exact Hs'|].
      destruct (pi_session _ _ _ _ _ _ Hinv sid s' Hs') as ((_ & Hwf & _) & _).
      apply Hwf. rewrite Hids. unfold session_block_at in Hat. rewrite Hs in Hat. simpl in Hat.
      eapply list_elem_of_lookup_2, list_lookup_insert_eq. by eapply lookup_lt_Some.
    + destruct Hs as (Hinv & Hk & Ho & _). by eapply call_ok_session.
  - pose proof (allocate_spec ext p Hp) as Hs. destruct (allocate p) as [[i|] p'].
    + destruct Hs as (_ & _ & Ho & Hinv & Hss & _ & _ & Hk & _).
      apply (call_ok_same_sessions _ _ _ _ {[i]}); [done..|].
      intros j ->%elem_of_singleton. right. simpl. by rewrite Hss.
    + destruct Hs as [_ ->]. apply (call_ok_same_sessions _ _ _ _ ∅); [done..|set_solver].
  - by apply release_call_ok.
  - pose proof (retain_spec ext i p Hp (room_counts_bounded ext p Hp Hroom)) as Hs.
    destruct (retain i p) as [ok p']. destruct Hs as (Hinv & Hss & Hk & _).
    apply (call_ok_same_sessions _ _ _ _ ∅); [done..|set_solver].
  - by apply release_call_ok.
  - pose proof (touch_spec ext i p Hp) as Hs. destruct (BlockPool.touch i p) as [r p'].
    destruct Hs as (Hinv & Hss & Hk).
    apply (call_ok_same_sessions _ _ _ _ ∅); [done..|set_solver].
  - by apply with_block_mut_ok.
Qed.
End calls.
