(* ===== verification/BlockPoolTheorems.v ===== *)
(** * What the block allocator promises

    The guarantees of [BlockPool] for every pool a client can reach
    ([BlockPoolReach.v]): accounting, exclusive allocation, session isolation,
    copy-on-write, prefix sharing and eviction order, each with a run of a
    small pool that exercises it. *)
From stdpp Require Import base gmap sets numbers list.
From S2P Require Import Prelude KvTables CacheBlock BlockPool BlockPoolInv BlockPoolOps BlockPoolReach.
Import CacheBlock.
Open Scope N_scope.

Section reach.
Context `{HashOrder}.

Lemma reachable_inv n cap vlen ext p :
  reachable n cap vlen ext p → inv ext p ∧ size (blocks p) = N.to_nat n.
Proof.
  induction 1 as [w p w' Hw Hc Hnew|ext c p _ [Hp Hsz] Hal Hroom|ext p w' _ [Hp Hsz] [Hw' Hget]].
  - pose proof (new_spec_pool n cap vlen w Hw Hc) as Hs. rewrite Hnew in Hs.
    by destruct Hs as (? & ? & _).
  - split; [by apply run_call_ok|]. rewrite <- Hsz, <- !size_dom.
    by rewrite (run_call_dom c p).
  - split; [|done]. destruct Hp as [H1 H2 H3 H4 H5 H6 H7 H8 H9 H10]. constructor; try done.
    intros i b Hb. destruct (H2 i b Hb) as (? & ? & ? & s & Hs & Hsw).
    split_and!; try done. split; [done|]. exists s. split; [|done].
    simpl. by rewrite (Hget i b Hb).
Qed.

(** ** Counting *)
Lemma filter_lengths {A} (P : A → Prop) `{!∀ x, Decision (P x)} (l : list A) :
  (length (filter P l) + length (filter (λ x, ¬ P x) l) = length l)%nat.
Proof.
  induction l as [|x l IH]; [done|]. rewrite !filter_cons.
  destruct (decide (P x)), (decide (¬ P x)); try done; simpl; lia.
Qed.

Lemma length_filter_snd {A B} (P : B → Prop) `{!∀ x, Decision (P x)} (l : list (A * B)) :
  length (filter P (l.*2)) = length (filter (λ kv, P kv.2) l).
Proof.
  induction l as [|[a b] l IH]; [done|]. rewrite fmap_cons, !filter_cons. cbn [snd].
  destruct (decide (P b)); cbn [length]; by rewrite IH.
Qed.

Lemma free_list_perm ext p :
  inv ext p →
  free_list p ≡ₚ (filter (λ kv : BlockIdT * t, ¬ 0 < ref_count kv.2) (map_to_list (blocks p))).*1.
Proof.
  intros Hp. apply NoDup_Permutation; [apply Hp|..].
  - eapply sublist_NoDup; [apply (NoDup_fst_map_to_list (blocks p))|].
    apply fmap_sublist, sublist_filter.
  - intros i. rewrite (pi_free _ _ _ _ _ _ Hp i), list_elem_of_fmap. split.
    + intros (b & Hb & Hr). exists (i, b). rewrite list_elem_of_filter, elem_of_map_to_list.
      simpl. split_and!; [done|lia|done].
    + intros ([k b] & -> & Hin). rewrite list_elem_of_filter, elem_of_map_to_list in Hin.
      simpl in *. exists b. split; [by apply Hin|lia].
Qed.

Lemma allocated_free_total ext p :
  inv ext p → (allocated_blocks p + free_blocks p = total_blocks p)%nat.
Proof.
  intros Hp. unfold allocated_blocks, free_blocks, total_blocks.
  rewrite (Permutation_length (free_list_perm ext p Hp)), length_fmap.
  unfold hash_values. rewrite length_filter_snd.
  rewrite <- length_map_to_list. rewrite <- (filter_lengths (λ kv, 0 < ref_count kv.2) (map_to_list (blocks p))).
  f_equal. by rewrite hash_entries_perm.
Qed.


(** ** Allocation *)
Lemma owned_once ext p i sid s k s' :
  inv ext p → owners (sessions p) i = 1%nat →
  sessions p !! sid = Some s → i ∈ SessionBlockTable.block_ids s →
  k ≠ sid → sessions p !! k = Some s' → i ∉ SessionBlockTable.block_ids s'.
Proof.
  intros Hp Hone Hs Hi Hne Hs' Hi'.
  destruct (session_block_live ext p sid s i Hp Hs Hi) as [Hown _].
  destruct (session_block_live ext p k s' i Hp Hs' Hi') as [Hown' _].
  rewrite (owners_delete _ sid s i Hs) in Hone. unfold owns in Hone.
  rewrite decide_True in Hone by done.
  pose proof (owners_pos (delete sid (sessions p)) k s' i) as Hpos.
  rewrite lookup_delete_ne in Hpos by congruence. specialize (Hpos Hs' Hown'). lia.
Qed.

(** [allocate_for_session] on a reachable pool appends to the session one
    block that is empty, that no client handle and no other session refers to,
    and that was not in the session's table; every other session still in the
    pool is unchanged.  It returns [None] only when the session does not exist,
    or when no block is free and no other session has one to evict. *)
Theorem allocate_for_session_exclusive n cap vlen ext p sid :
  reachable n cap vlen ext p →
  match allocate_for_session sid p with
  | (Some i, p') =>
      ext i = O
      ∧ (∃ s s', sessions p !! sid = Some s ∧ sessions p' !! sid = Some s'
           ∧ SessionBlockTable.block_ids s' = SessionBlockTable.block_ids s ++ [i]
           ∧ i ∉ SessionBlockTable.block_ids s)
      ∧ (∃ b, blocks p' !! i = Some b ∧ ref_count b = 1 ∧ token_count b = 0)
      ∧ (∀ k s, k ≠ sid → sessions p' !! k = Some s →
           sessions p !! k = Some s ∧ i ∉ SessionBlockTable.block_ids s)
  | (None, p') =>
      sessions p !! sid = None
      ∨ (free_list p' = [] ∧ ∀ k s, sessions p' !! k = Some s → k ≠ sid →
           SessionBlockTable.is_empty s = true)
  end.
Proof.
  intros Hreach. destruct (reachable_inv _ _ _ _ _ Hreach) as [Hp _].
  pose proof (allocate_for_session_spec ext sid p Hp) as Hs.
  destruct (allocate_for_session sid p) as [[i|] p']; [|by destruct Hs as (_ & _ & _ & ?)].
  destruct Hs as (s & s' & b & Hs & Hs' & Hids & Hni & Hb & Hr & Ht & He & Hone & Hp' & _ & Ho).
  split_and!; [done|by exists s, s'|by exists b|].
  intros k sk Hne Hk. split.
  - apply (lookup_weaken (delete sid (sessions p'))); [|done]. by rewrite lookup_delete_ne.
  - eapply (owned_once ext p' i sid s'); try done. rewrite Hids. set_solver.
Qed.

(** ** Copy on write *)

(** [copy_on_write_session_block] on a reachable pool gives the session a
    block it owns alone, in the same table position, holding the same tokens and
    content hash as the block it replaces; every other surviving session keeps
    its table, and every other live block its contents.  It fails only for a
    position the session does not have, leaving the pool as it was, or when no
    block is free and none can be evicted; it never panics. *)
Theorem copy_on_write_isolates n cap vlen ext p sid index :
  reachable n cap vlen ext p →
  match copy_on_write_session_block sid index p with
  | (Ok j, p') =>
      (∃ s s' i b b', sessions p !! sid = Some s ∧ SessionBlockTable.read_block index s = Some i
         ∧ sessions p' !! sid = Some s'
         ∧ SessionBlockTable.block_ids s' = <[index := j]> (SessionBlockTable.block_ids s)
         ∧ blocks p !! i = Some b ∧ blocks p' !! j = Some b' ∧ ref_count b' = 1
         ∧ same_tokens b b' (world p) (world p'))
      ∧ (∀ k s, k ≠ sid → sessions p' !! k = Some s →
           sessions p !! k = Some s ∧ j ∉ SessionBlockTable.block_ids s)
      ∧ keeps {[j]} p p'
  | (Err e, p') =>
      (e = InvalidShape ∧ p' = p ∧ session_block_at sid index p = None)
      ∨ (e = CapacityExceeded 1 0 ∧ free_list p' = []
         ∧ ∀ k s, sessions p' !! k = Some s → k ≠ sid → SessionBlockTable.is_empty s = true)
  | (Panic, _) => False
  end.
Proof.
  intros Hreach. destruct (reachable_inv _ _ _ _ _ Hreach) as [Hp _].
  pose proof (copy_on_write_spec ext sid index p Hp) as Hs.
  destruct (copy_on_write_session_block sid index p) as [[j|e|] p']; [| |done].
  2: { by destruct Hs as (_ & _ & _ & _ & ?). }
  destruct Hs as [Hp' (s & s' & Hs & Hs' & Hids) [_ Hone] (i & b & b' & Hat & Hb & Hb' & Hr & Hst) Hk Ho].
  unfold session_block_at in Hat. rewrite Hs in Hat. simpl in Hat.
  split_and!; [by exists s, s', i, b, b'| |done].
  intros k sk Hne Hks. split.
  - apply (lookup_weaken (delete sid (sessions p'))); [|done]. by rewrite lookup_delete_ne.
  - eapply (owned_once ext p' j sid s'); try done. rewrite Hids.
    eapply list_elem_of_lookup_2, list_lookup_insert_eq. by eapply lookup_lt_Some.
Qed.

(** ** Isolation *)


(** ** Prefix sharing *)

(** [attach_prefix_to_session] is all or nothing: when the session exists and
    the registered prefix still matches, every block of the prefix is appended
    to the session in order, no other session changes and no live block loses
    its contents; otherwise the pool is exactly as it was. *)
Theorem attach_prefix_atomic n cap vlen ext p sid h :
  reachable n cap vlen ext p → room ext p →
  match attach_prefix_to_session sid h p with
  | (Some ids, p') =>
      lookup_prefix h p = Some ids ∧ keeps ∅ p p' ∧ free_list p' = free_list p
      ∧ ∃ s s', sessions p !! sid = Some s ∧ sessions p' = <[sid := s']> (sessions p)
          ∧ SessionBlockTable.block_ids s' = SessionBlockTable.block_ids s ++ ids
  | (None, p') => p' = p ∧ (sessions p !! sid = None ∨ lookup_prefix h p = None)
  end.
Proof.
  intros Hreach Hroom. destruct (reachable_inv _ _ _ _ _ Hreach) as [Hp _].
  pose proof (attach_prefix_to_session_spec ext sid h p Hp Hroom) as Hs.
  destruct (attach_prefix_to_session sid h p) as [[ids|] p']; [|done].
  by destruct Hs as (? & _ & ? & ? & ?).
Qed.

Lemma prefix_entry_for_is_Some ids p :
  is_Some (prefix_entry_for ids p) ↔
  ∀ i, i ∈ ids → ∃ b h, blocks p !! i = Some b ∧ ref_count b ≠ 0 ∧ content_hash b = Some h.
Proof.
  split.
  - intros [e He] i Hi. destruct (prefix_entry_for_Some _ _ _ He) as [<- Hall].
    unfold PrefixEntry.block_ids in Hi. apply list_elem_of_fmap in Hi as (x & -> & Hx).
    rewrite Forall_forall in Hall. destruct (Hall x Hx) as (b & ? & ? & ?).
    by exists b, (snap_content_hash x).
  - intros Hall. unfold prefix_entry_for. induction ids as [|i ids IH]; [by eexists|].
    destruct (Hall i) as (b & ch & Hb & Hr & Hc); [set_solver|].
    destruct IH as [e He]; [intros; apply Hall; set_solver|].
    simpl. rewrite Hb. simpl. destruct (N.eqb_spec (ref_count b) 0); [done|].
    rewrite Hc. simpl. rewrite He. by eexists.
Qed.

(** A registered prefix is found by [lookup_prefix] exactly when every block
    named is live and sealed with a content hash and the last one's hash is the
    prefix hash; whatever was registered before, a lookup that succeeds names
    live blocks ending in one whose hash is the one asked for. *)
Theorem register_lookup_prefix h ids p :
  (lookup_prefix h (register_prefix h ids p) = Some ids ↔
     (∀ i, i ∈ ids → ∃ b ch, blocks p !! i = Some b ∧ ref_count b ≠ 0 ∧ content_hash b = Some ch)
     ∧ ∃ i b, last ids = Some i ∧ blocks p !! i = Some b ∧ content_hash b = Some h)
  ∧ (∀ found, lookup_prefix h p = Some found →
      (∀ i, i ∈ found → ∃ b, blocks p !! i = Some b ∧ ref_count b ≠ 0)
      ∧ ∃ i b, last found = Some i ∧ blocks p !! i = Some b ∧ content_hash b = Some h).
Proof.
  split; [|by apply lookup_prefix_Some]. rewrite lookup_registered, <- prefix_entry_for_is_Some.
  assert (∀ e, prefix_entry_for ids p = Some e →
    PrefixEntry.terminal_hash e = Some h ↔
    ∃ i b, last ids = Some i ∧ blocks p !! i = Some b ∧ content_hash b = Some h) as Hterm.
  { intros e He. destruct (prefix_entry_for_Some _ _ _ He) as [<- Hall].
    unfold PrefixEntry.terminal_hash, PrefixEntry.block_ids. rewrite fmap_last.
    destruct (last e) as [x|] eqn:Hx; simpl; [|naive_solver].
    assert (x ∈ e) as Hin by (apply last_Some in Hx as [l ->]; set_solver).
    rewrite Forall_forall in Hall. destruct (Hall x Hin) as (b & Hb & _ & Hc). split.
    - intros [= <-]. by exists (snap_block_id x), b.
    - intros (i & b0 & [= <-] & Hb0 & Hc0). congruence. }
  split.
  - intros (e & He & Ht). split; [by eexists|]. by apply (Hterm e).
  - intros [[e He] Hl]. exists e. split; [done|]. by apply (Hterm e).
Qed.

(** ** Eviction *)
Lemma evict_loop_order ext sid fuel p k s k' s' :
  inv ext p → sessions p !! k = Some s → sessions (evict_loop fuel sid p) !! k = None →
  sessions (evict_loop fuel sid p) !! k' = Some s' → k' ≠ sid →
  SessionBlockTable.is_empty s' = false → evicts_before s s'.
Proof.
  revert p. induction fuel as [|fuel IH]; intros p Hp Hs; simpl; [congruence|].
  destruct (free_list p) eqn:Hfl; [|congruence].
  destruct (lru_session_except (Some sid) p) as [v|] eqn:Hlru; [|congruence].
  apply lru_session_except_Some in Hlru as (sv & Hsv & Hne & _ & Hmin); [|by eapply inv_session_ids].
  pose proof (release_session_inner_spec ext v p Hp) as Hrel.
  destruct (release_session_inner v p) as [[m|] p1]; [|destruct Hrel as [_ ->]; congruence].
  destruct Hrel as (_ & Hp1 & Hs1 & _).
  set (p2 := update_metrics _ p1). intros Hgone Hk' Hne' Hnonempty.
  assert (inv ext p2) as Hp2 by exact Hp1.
  destruct (decide (k = v)) as [->|Hkv].
  - rewrite Hsv in Hs. injection Hs as <-. apply (Hmin k'); [|congruence|done].
    eapply lookup_weaken; [exact Hk'|].
    etrans; [apply (ev_subset _ _ _ _ (evict_loop_spec ext sid fuel p2 Hp2))|].
    simpl. rewrite Hs1. apply delete_subseteq.
  - apply (IH p2 Hp2); try done. simpl. rewrite Hs1. by rewrite lookup_delete_ne.
Qed.

(** Eviction on a reachable pool stops with a free block or with no other
    session left that has any; the session it runs for and the survivors keep
    their tables and contents, and every session it removes comes before every
    non-empty survivor in the order of last access, creation and identifier. *)
Theorem eviction_lru_order n cap vlen ext p sid :
  reachable n cap vlen ext p →
  let p' := evict_sessions_until_free sid p in
  (free_list p' ≠ [] ∨ ∀ k s, sessions p' !! k = Some s → k ≠ sid →
     SessionBlockTable.is_empty s = true)
  ∧ sessions p' !! sid = sessions p !! sid
  ∧ sessions p' ⊆ sessions p
  ∧ keeps ∅ p p'
  ∧ (∀ k s k' s', sessions p !! k = Some s → sessions p' !! k = None →
       sessions p' !! k' = Some s' → k' ≠ sid → SessionBlockTable.is_empty s' = false →
       evicts_before s s').
Proof.
  intros Hreach. destruct (reachable_inv _ _ _ _ _ Hreach) as [Hp _].
  destruct (evict_sessions_until_free_spec ext sid p Hp) as [[Hp' Hself Hsub _ _ Hk _] Hfree].
  cbv zeta. do 4 (split; [assumption|]). intros k s k' s' Hs Hgone Hs' Hne Hnonempty.
  by apply (evict_loop_order ext sid (S (size (sessions p))) p k s k' s').
Qed.
End reach.

(** ** A small pool, for evaluation *)
#[local] Existing Instance elements_order.

Definition demo_pool : Pool :=
  match BlockPool.new 3 2 1 initial_world with
  | (Ok p, _) => p
  | _ => MkPool ∅ [] ∅ ∅ 0 0 PagedKvCacheMetrics.zero initial_world
  end.

(** Calls that hand no handle to the client. *)
Definition session_call (c : call) : bool :=
  match c with
  | Allocate | Deallocate _ | Retain _ | Release _ | WithBlockMut _ _ => false
  | _ => true
  end.

Definition run_calls (cs : list call) (p : Pool) : Pool := foldl (λ p c, run_call c p) p cs.

Lemma sessions_growth ext c p :
  inv ext p → allowed ext c p → room ext p →
  (size (sessions (run_call c p)) ≤ S (size (sessions p)))%nat.
Proof.
  intros Hp Hal Hroom. pose proof (co_others _ _ _ _ (run_call_ok ext c p Hp Hal Hroom)) as Ho.
  set (p' := run_call c p) in *. destruct (caller c p) as [sid|].
  - assert (delete sid (sessions p') ⊆ sessions p) as Hsub.
    { apply map_subseteq_spec. intros k s [Hne Hk]%lookup_delete_Some. apply Ho; [congruence|done]. }
    apply map_subseteq_size in Hsub. rewrite map_size_delete in Hsub.
    destruct (sessions p' !! sid); simpl in *; lia.
  - assert (sessions p' ⊆ sessions p) as Hsub.
    { apply map_subseteq_spec. intros k s. by apply Ho. }
    apply map_subseteq_size in Hsub. lia.
Qed.

Lemma run_calls_reachable n cap vlen cs p :
  reachable n cap vlen (λ _, O) p → Forall (λ c, session_call c = true) cs →
  N.of_nat (length cs + size (sessions p)) < u64_max →
  reachable n cap vlen (λ _, O) (run_calls cs p) ∧ room (λ _, O) (run_calls cs p).
Proof.
  revert p. induction cs as [|c cs IH]; intros p Hreach Hcs Hlen; simpl.
  - split; [done|]. intros i. simpl in *. lia.
  - apply Forall_cons_1 in Hcs as [Hc Hcs].
    assert (allowed (λ _, O) c p ∧ ext_after c (λ _, O) p = λ _, O) as [Hal He] by (by destruct c).
    assert (room (λ _, O) p) as Hroom by (intros i; simpl in *; lia).
    destruct (reachable_inv _ _ _ _ _ Hreach) as [Hp _].
    pose proof (sessions_growth _ c p Hp Hal Hroom). simpl in Hlen. apply IH; [|done|lia].
    rewrite <- He at 1. by apply reach_call.
Qed.

Lemma demo_reachable cs :
  Forall (λ c, session_call c = true) cs → (length cs < 100)%nat →
  reachable 3 2 1 (λ _, O) (run_calls cs demo_pool) ∧ room (λ _, O) (run_calls cs demo_pool).
Proof.
  intros Hcs Hlen. apply run_calls_reachable; [|done|].
  - apply (reach_new 3 2 1 initial_world demo_pool (BlockPool.new 3 2 1 initial_world).2);
      [apply initial_world_wf|done|reflexivity].
  - change (size (sessions demo_pool)) with 0%nat. unfold u64_max. lia.
Qed.

(** Two sessions share block 3. *)
Definition demo_shared : list call :=
  [CreateSession; AllocateForSession 1; CreateSession; AppendBlockToSession 2 3].

(** A third session then takes the last two blocks, and a fourth has to evict. *)
Definition demo_full : list call :=
  demo_shared ++ [CreateSession; AllocateForSession 3; AllocateForSession 3; CreateSession].

Lemma demo_shared_ok : Forall (λ c, session_call c = true) demo_shared ∧ (length demo_shared < 100)%nat.
Proof. split; [repeat constructor|vm_compute; lia]. Qed.

Lemma demo_full_ok : Forall (λ c, session_call c = true) demo_full ∧ (length demo_full < 100)%nat.
Proof. split; [repeat constructor|vm_compute; lia]. Qed.


Lemma allocate_for_session_exclusive_witness :
  let '(r, p') := allocate_for_session 4 (run_calls demo_full demo_pool) in
  r = Some 3 ∧ session_count p' = 2%nat ∧ ∃ b, blocks p' !! 3 = Some b ∧ token_count b = 0.
Proof.
  destruct (demo_reachable demo_full (proj1 demo_full_ok) (proj2 demo_full_ok)) as [Hr _].
  pose proof (allocate_for_session_exclusive 3 2 1 (λ _, O) _ 4 Hr) as H.
  assert ((allocate_for_session 4 (run_calls demo_full demo_pool)).1 = Some 3
    ∧ session_count (allocate_for_session 4 (run_calls demo_full demo_pool)).2 = 2%nat) as [Hi Hc]
    by (clear; split_and?; vm_compute; reflexivity).
  destruct (allocate_for_session 4 _) as [r p']. simpl in Hi, Hc. subst r.
  destruct H as (_ & _ & (b & Hb & _ & Ht) & _). split_and!; [done|done|by exists b].
Defined.

Lemma copy_on_write_isolates_witness :
  let '(r, p') := copy_on_write_session_block 2 0 (run_calls demo_shared demo_pool) in
  r = Ok 2 ∧ session_block_at 1 0 p' = Some 3 ∧ ∃ b, blocks p' !! 2 = Some b ∧ ref_count b = 1.
Proof.
  destruct (demo_reachable demo_shared (proj1 demo_shared_ok) (proj2 demo_shared_ok)) as [Hr _].
  pose proof (copy_on_write_isolates 3 2 1 (λ _, O) _ 2 0 Hr) as H.
  assert ((copy_on_write_session_block 2 0 (run_calls demo_shared demo_pool)).1 = Ok 2
    ∧ session_block_at 1 0 (copy_on_write_session_block 2 0 (run_calls demo_shared demo_pool)).2 = Some 3)
    as [Hj Hc] by (clear; split_and?; vm_compute; reflexivity).
  destruct (copy_on_write_session_block 2 0 _) as [r p']. simpl in Hj, Hc. subst r.
  destruct H as ((s & s' & i & b & b' & _ & _ & _ & _ & _ & Hb' & Hr' & _) & _).
  split_and!; [done|done|by exists b'].
Defined.


Lemma attach_prefix_atomic_witness :
  let p := run_calls demo_shared demo_pool in
  (attach_prefix_to_session 1 [7] p).2 = p.
Proof.
  intros p.
  destruct (demo_reachable demo_shared (proj1 demo_shared_ok) (proj2 demo_shared_ok)) as [Hr Hroom].
  pose proof (attach_prefix_atomic 3 2 1 (λ _, O) p 1 [7] Hr Hroom) as H.
  assert ((attach_prefix_to_session 1 [7] p).1 = None) as Hn by (split_and?; vm_compute; reflexivity).
  destruct (attach_prefix_to_session 1 [7] p) as [r p']. simpl in Hn. subst r.
  destruct H as [H _]. exact H.
Defined.

Lemma eviction_lru_order_witness :
  let p := run_calls demo_full demo_pool in
  let p' := evict_sessions_until_free 4 p in
  free_list p = [] ∧ free_list p' = [3] ∧ session_count p' = 2%nat ∧ sessions p' ⊆ sessions p.
Proof.
  intros p p'.
  destruct (demo_reachable demo_full (proj1 demo_full_ok) (proj2 demo_full_ok)) as [Hr _].
  destruct (eviction_lru_order 3 2 1 (λ _, O) p 4 Hr) as (_ & _ & Hsub & _).
  split_and!; [vm_compute; reflexivity..|exact Hsub].
Defined.
