(* ===== verification/Scheduler.v ===== *)
(** * The model scheduler

    Models [crates/llm-server/src/engine/scheduler.rs]: the state behind the
    scheduler's mutex with one definition per method, permits and queue
    tickets with their destructors, the gauges of [GenerationPhaseMetrics],
    and the two asynchronous operations ([acquire] and [yield_prefill_chunk])
    cut at their lock sections and await points into steps of a task. *)
From stdpp Require Import base gmap sets numbers list.
From S2P Require Import Prelude.
Open Scope N_scope.
Open Scope record_scope.

(** ** Phases, classes and options *)
Inductive GenerationPhase := PhasePrefill | PhaseDecode.
Inductive SchedulerClass := ClassPrefill | ClassDecode.
Inductive SchedulerOutcome := Completed | Cancelled | Failed.
Inductive SchedulerAcquireError :=
| QueueFull | QueueTimedOut | AcquireCancelled | CancelledAfterAdmission.

#[export] Instance GenerationPhase_eq_dec : EqDecision GenerationPhase.
Proof. solve_decision. Defined.
#[export] Instance SchedulerClass_eq_dec : EqDecision SchedulerClass.
Proof. solve_decision. Defined.
#[export] Instance SchedulerOutcome_eq_dec : EqDecision SchedulerOutcome.
Proof. solve_decision. Defined.

Definition as_phase (c : SchedulerClass) : GenerationPhase :=
  match c with ClassPrefill => PhasePrefill | ClassDecode => PhaseDecode end.

Record ModelSchedulerOptions := MkOptions {
  concurrency_limit : N;
  queue_limit : N;
  queue_timeout : option N;
  prefill_threshold_chars : N;
  prefill_burst : N;
}.

(** ** The state under the scheduler's mutex *)
Record State := MkState {
  next_ticket : N;
  queued_prefill : list N;
  queued_decode : list N;
  active_prefill : N;
  active_decode : N;
  prefill_admissions_since_decode : N;
  admitted_prefill : N;
  admitted_decode : N;
  completed : N;
  cancelled : N;
  failed : N;
  queued_cancelled : N;
  queue_timeouts : N;
  prefill_yields : N;
  prefill_yields_to_decode : N;
  prefill_yield_reacquire_waits : N;
  prefill_yield_reacquire_wait_nanos_total : N;
  prefill_yield_reacquire_wait_nanos_max : N;
  prefill_chunk_latency_count : N;
  prefill_chunk_latency_nanos_total : N;
  prefill_chunk_latency_nanos_min : N;
  prefill_chunk_latency_nanos_max : N;
  decode_starvation_events : N;
  decode_starvation_waits : N;
  decode_starvation_wait_nanos_total : N;
  decode_starvation_wait_nanos_max : N;
}.
#[export] Instance State_eta : Eta State := {| eta s :=
  MkState (next_ticket s) (queued_prefill s) (queued_decode s) (active_prefill s)
    (active_decode s) (prefill_admissions_since_decode s) (admitted_prefill s)
    (admitted_decode s) (completed s) (cancelled s) (failed s) (queued_cancelled s)
    (queue_timeouts s) (prefill_yields s) (prefill_yields_to_decode s)
    (prefill_yield_reacquire_waits s) (prefill_yield_reacquire_wait_nanos_total s)
    (prefill_yield_reacquire_wait_nanos_max s) (prefill_chunk_latency_count s)
    (prefill_chunk_latency_nanos_total s) (prefill_chunk_latency_nanos_min s)
    (prefill_chunk_latency_nanos_max s) (decode_starvation_events s)
    (decode_starvation_waits s) (decode_starvation_wait_nanos_total s)
    (decode_starvation_wait_nanos_max s) |}.

(** [ModelSchedulerState::default()]. *)
Definition State_default : State :=
  MkState 0 [] [] 0 0 0 0 0 0 0 0 0 0 0 0 0 0 0 0 0 0 0 0 0 0 0.

(** [+= 1] on a 64-bit counter. *)
Definition incr (n : N) : N := wrap_add n 1.
(** Durations are nanoseconds. *)
Definition duration_nanos_u64 (d : N) : N := N.min d u64_max.

Definition active_total (s : State) : N := wrap_add (active_prefill s) (active_decode s).
Definition queued_total (s : State) : N :=
  N.of_nat (length (queued_prefill s)) + N.of_nat (length (queued_decode s)).

Definition queue (c : SchedulerClass) (s : State) : list N :=
  match c with ClassPrefill => queued_prefill s | ClassDecode => queued_decode s end.
Definition queue_mut (c : SchedulerClass) (f : list N → list N) (s : State) : State :=
  match c with
  | ClassPrefill => s <| queued_prefill ::= f |>
  | ClassDecode => s <| queued_decode ::= f |>
  end.

Definition start_active (admission_class : SchedulerClass) (initial_phase : GenerationPhase)
    (s : State) : State :=
  let s := match initial_phase with
           | PhasePrefill => s <| active_prefill ::= incr |>
           | PhaseDecode => s <| active_decode ::= incr |>
           end in
  match admission_class with
  | ClassPrefill =>
      s <| prefill_admissions_since_decode ::= incr |> <| admitted_prefill ::= incr |>
  | ClassDecode =>
      s <| prefill_admissions_since_decode := 0 |> <| admitted_decode ::= incr |>
  end.

Definition finish_inactive (o : SchedulerOutcome) (s : State) : State :=
  match o with
  | Completed => s <| completed ::= incr |>
  | Cancelled => s <| cancelled ::= incr |>
  | Failed => s <| failed ::= incr |>
  end.

Definition finish_active (ph : GenerationPhase) (o : SchedulerOutcome) (s : State) : State :=
  let s := match ph with
           | PhasePrefill => s <| active_prefill ::= λ n, sat_sub n 1 |>
           | PhaseDecode => s <| active_decode ::= λ n, sat_sub n 1 |>
           end in
  finish_inactive o s.

(** [ModelSchedulerState::transition_to_decode]. *)
Definition state_transition_to_decode (s : State) : State :=
  s <| active_prefill ::= λ n, sat_sub n 1 |> <| active_decode ::= incr |>.

(** [PrefillYieldRelease] is the decode admissions counted before the yield. *)
Definition release_prefill_for_yield (s : State) : N * State :=
  (admitted_decode s, s <| active_prefill ::= λ n, sat_sub n 1 |>).

Definition record_prefill_yield_reacquire_wait (wait : N) (s : State) : State :=
  let wait_nanos := duration_nanos_u64 wait in
  s <| prefill_yield_reacquire_waits ::= λ n, sat_add n 1 |>
    <| prefill_yield_reacquire_wait_nanos_total ::= λ n, sat_add n wait_nanos |>
    <| prefill_yield_reacquire_wait_nanos_max ::= λ n, N.max n wait_nanos |>.

Definition record_prefill_yield_success (admitted_decode_before wait : N) (s : State) : State :=
  let s := s <| prefill_yields ::= incr |> in
  let s := if admitted_decode_before <? admitted_decode s
           then s <| prefill_yields_to_decode ::= incr |> else s in
  record_prefill_yield_reacquire_wait wait s.

Definition record_prefill_chunk_latency (latency : N) (s : State) : State :=
  let latency_nanos := duration_nanos_u64 latency in
  let s := if prefill_chunk_latency_count s =? 0
           then s <| prefill_chunk_latency_nanos_min := latency_nanos |>
           else s <| prefill_chunk_latency_nanos_min ::= λ n, N.min n latency_nanos |> in
  s <| prefill_chunk_latency_count ::= λ n, sat_add n 1 |>
    <| prefill_chunk_latency_nanos_total ::= λ n, sat_add n latency_nanos |>
    <| prefill_chunk_latency_nanos_max ::= λ n, N.max n latency_nanos |>.

Definition record_decode_starvation_wait (wait : N) (s : State) : State :=
  let wait_nanos := duration_nanos_u64 wait in
  s <| decode_starvation_waits ::= λ n, sat_add n 1 |>
    <| decode_starvation_wait_nanos_total ::= λ n, sat_add n wait_nanos |>
    <| decode_starvation_wait_nanos_max ::= λ n, N.max n wait_nanos |>.

Definition record_decode_starvation_event (s : State) : State :=
  s <| decode_starvation_events ::= λ n, sat_add n 1 |>.

Definition has_prefill_pressure (s : State) : bool :=
  (0 <? active_prefill s) || negb (bool_decide (queued_prefill s = [])).

Definition next_admissible_class (prefill_burst : N) (s : State) : option SchedulerClass :=
  match queued_prefill s, queued_decode s with
  | [], [] => None
  | _ :: _, [] => Some ClassPrefill
  | [], _ :: _ => Some ClassDecode
  | prefill_ticket :: _, decode_ticket :: _ =>
      if prefill_burst <=? prefill_admissions_since_decode s then Some ClassDecode
      else if decode_ticket <? prefill_ticket then Some ClassDecode
      else Some ClassPrefill
  end.

(** ** Permits *)
Record SchedulerPermit := MkPermit {
  permit_phase : GenerationPhase;
  permit_outcome : SchedulerOutcome;
  permit_active : bool;
  terminal_on_drop : bool;
}.
#[export] Instance SchedulerPermit_eta : Eta SchedulerPermit := {| eta p :=
  MkPermit (permit_phase p) (permit_outcome p) (permit_active p) (terminal_on_drop p) |}.

Definition fresh_permit (initial_phase : GenerationPhase) : SchedulerPermit :=
  MkPermit initial_phase Completed true true.

Definition transition_to_decode (p : SchedulerPermit) (s : State) : SchedulerPermit * State :=
  if bool_decide (permit_phase p = PhaseDecode) || negb (permit_active p) then (p, s)
  else (p <| permit_phase := PhaseDecode |>, state_transition_to_decode s).

Definition mark_failed (p : SchedulerPermit) : SchedulerPermit := p <| permit_outcome := Failed |>.
Definition mark_cancelled (p : SchedulerPermit) : SchedulerPermit :=
  p <| permit_outcome := Cancelled |>.

Definition complete_readmission_error (e : SchedulerAcquireError) (p : SchedulerPermit)
    : SchedulerPermit :=
  match e with
  | AcquireCancelled => p <| permit_outcome := Cancelled |> <| terminal_on_drop := true |>
  | CancelledAfterAdmission => p <| terminal_on_drop := false |>
  | QueueFull | QueueTimedOut => p <| permit_outcome := Failed |> <| terminal_on_drop := true |>
  end.

(** [Drop for SchedulerPermit]; the boolean is whether it notifies. *)
Definition drop_permit (p : SchedulerPermit) (s : State) : bool * State :=
  if terminal_on_drop p
  then (true, if permit_active p then finish_active (permit_phase p) (permit_outcome p) s
              else finish_inactive (permit_outcome p) s)
  else (false, s).

(** ** Queue tickets *)
Record QueuedSchedulerTicket := MkTicket {
  ticket_id : N;
  ticket_class : SchedulerClass;
  decode_starvation : bool;
}.

(** [queue.iter().position(..)] then [queue.remove(index)]. *)
Fixpoint remove_first (x : N) (l : list N) : option (list N) :=
  match l with
  | [] => None
  | y :: l => if x =? y then Some l else cons y <$> remove_first x l
  end.

(** [Drop for QueuedSchedulerTicket] of a ticket that was not admitted. *)
Definition drop_ticket (timeout : bool) (tk : QueuedSchedulerTicket) (s : State) : State :=
  match remove_first (ticket_id tk) (queue (ticket_class tk) s) with
  | Some l =>
      let s := queue_mut (ticket_class tk) (λ _, l) s in
      if timeout then s <| queue_timeouts ::= incr |> else s <| queued_cancelled ::= incr |>
  | None => s
  end.

(** ** The scheduler's lock sections *)
Section scheduler.
Context (options : ModelSchedulerOptions).

Definition classify_estimated_tokens (tokens : N) : SchedulerClass :=
  if prefill_threshold_chars options <=? tokens then ClassPrefill else ClassDecode.

Definition try_acquire_immediate (admission_class : SchedulerClass)
    (initial_phase : GenerationPhase) (s : State) : option SchedulerPermit * State :=
  if (concurrency_limit options <=? active_total s) || (0 <? queued_total s) then (None, s)
  else (Some (fresh_permit initial_phase), start_active admission_class initial_phase s).

Definition enqueue (class : SchedulerClass) (s : State)
    : outcome SchedulerAcquireError QueuedSchedulerTicket * State :=
  if queue_limit options <=? queued_total s then (Err QueueFull, s)
  else
    let starved := bool_decide (class = ClassDecode) && has_prefill_pressure s in
    let s := if starved then record_decode_starvation_event s else s in
    let s := s <| next_ticket ::= incr |> in
    let id := next_ticket s in
    (Ok (MkTicket id class starved), queue_mut class (λ q, q ++ [id]) s).

Definition try_admit_queued (ticket : N) (admission_class : SchedulerClass)
    (initial_phase : GenerationPhase) (s : State) : option SchedulerPermit * State :=
  if concurrency_limit options <=? active_total s then (None, s)
  else match next_admissible_class (prefill_burst options) s with
       | None => (None, s)
       | Some class =>
           if bool_decide (class = admission_class)
              && bool_decide (head (queue admission_class s) = Some ticket)
           then (Some (fresh_permit initial_phase),
                 start_active admission_class initial_phase (queue_mut admission_class tail s))
           else (None, s)
       end.

(** ** Tasks

    A request between the lock sections of [acquire] and
    [yield_prefill_chunk].  [old] is the permit a yielding request still owns,
    with the [PrefillYieldRelease] it recorded; [None] for a first admission. *)
Abbreviation yielding := (option (SchedulerPermit * N)) (only parsing).

(** Where the queue loop of [acquire] is: about to check the token, having
    created its [Notified] future, or awaiting it.  [woken] is set by a
    [notify_waiters] since the future was created. *)
Inductive wait_stage :=
| LoopTop
| Armed (woken : bool)
| Sleeping (woken : bool).

Inductive task :=
| Acquiring (old : yielding) (class : SchedulerClass) (phase : GenerationPhase)
| Enqueueing (old : yielding) (class : SchedulerClass) (phase : GenerationPhase)
| Queued (old : yielding) (tk : QueuedSchedulerTicket) (phase : GenerationPhase) (st : wait_stage)
| JustAdmitted (old : yielding) (starved : bool) (p : SchedulerPermit)
| Readmitted (release : N) (p : SchedulerPermit)
| DropAdmitted (old : yielding) (p : SchedulerPermit)
| Holding (p : SchedulerPermit)
| Dropping (counted : option SchedulerOutcome) (p : SchedulerPermit)
| Finished (counted : option SchedulerOutcome).

(** What happens next to a task: it runs to its next lock section, having seen
    its token cancelled or not and [elapsed] nanoseconds on the clock it reads;
    one of the other branches of the [select!]; its future is dropped; or the
    holder of a permit uses it. *)
Inductive event :=
| Proceed (token_cancelled : bool) (elapsed : N)
| TokenCancelled
| DeadlineReached
| Abandon
| TransitionToDecode
| MarkFailed
| MarkCancelled
| YieldPrefillChunk (token_cancelled : bool)
| DropPermit.

(** [acquire] returns an error: a first admission ends, a yielding request
    completes its old permit and drops it. *)
Definition acquire_error (old : yielding) (e : SchedulerAcquireError) : task :=
  match old with
  | None => Finished None
  | Some (p, _) => Dropping None (complete_readmission_error e p)
  end.

(** The task after an event, the state, and whether [notify_waiters] ran. *)
Definition run_task (ev : event) (t : task) (s : State) : option (task * State * bool) :=
  match t, ev with
  | Acquiring old class ph, Proceed c _ =>
      if c then Some (acquire_error old AcquireCancelled, s, false)
      else match try_acquire_immediate class ph s with
           | (Some p, s) => Some (JustAdmitted old false p, s, false)
           | (None, s) => Some (Enqueueing old class ph, s, false)
           end
  | Enqueueing old class ph, Proceed _ _ =>
      match enqueue class s with
      | (Ok tk, s) => Some (Queued old tk ph LoopTop, s, true)
      | (_, s) => Some (acquire_error old QueueFull, s, false)
      end
  | Queued old tk ph LoopTop, Proceed c _ =>
      if c then Some (acquire_error old AcquireCancelled, drop_ticket false tk s, true)
      else Some (Queued old tk ph (Armed false), s, false)
  | Queued old tk ph (Armed woken), Proceed _ _ =>
      match try_admit_queued (ticket_id tk) (ticket_class tk) ph s with
      | (Some p, s) => Some (JustAdmitted old (decode_starvation tk) p, s, false)
      | (None, s) => Some (Queued old tk ph (Sleeping woken), s, false)
      end
  | Queued old tk ph (Sleeping true), Proceed _ _ => Some (Queued old tk ph LoopTop, s, false)
  | Queued old tk ph (Sleeping _), TokenCancelled =>
      Some (acquire_error old AcquireCancelled, drop_ticket false tk s, true)
  | Queued old tk ph (Sleeping _), DeadlineReached =>
      match queue_timeout options with
      | Some _ => Some (acquire_error old QueueTimedOut, drop_ticket true tk s, true)
      | None => None
      end
  | Queued old tk ph (Sleeping _), Abandon =>
      Some (Finished None, drop_ticket false tk s, true)
  | JustAdmitted old starved p, Proceed c elapsed =>
      let s := if starved then record_decode_starvation_wait elapsed s else s in
      if c then Some (DropAdmitted old (mark_cancelled p), s, false)
      else Some (match old with None => Holding p | Some (_, r) => Readmitted r p end, s, false)
  | Readmitted r p, Proceed _ elapsed =>
      Some (Holding p, record_prefill_yield_success r elapsed s, false)
  | DropAdmitted old p, Proceed _ _ =>
      let '(n, s) := drop_permit p s in
      Some (match old with
            | None => Finished (Some (permit_outcome p))
            | Some (q, _) =>
                Dropping (Some (permit_outcome p))
                  (complete_readmission_error CancelledAfterAdmission q)
            end, s, n)
  | Holding p, TransitionToDecode =>
      let '(p, s) := transition_to_decode p s in Some (Holding p, s, false)
  | Holding p, MarkFailed => Some (Holding (mark_failed p), s, false)
  | Holding p, MarkCancelled => Some (Holding (mark_cancelled p), s, false)
  | Holding p, YieldPrefillChunk c =>
      if bool_decide (permit_phase p = PhaseDecode) || negb (permit_active p)
      then Some (Holding p, s, false)
      else if c then Some (Dropping None (mark_cancelled p), s, false)
      else let '(r, s) := release_prefill_for_yield s in
           let p := p <| permit_active := false |> <| terminal_on_drop := false |> in
           Some (Acquiring (Some (p, r)) ClassPrefill PhasePrefill, s, true)
  | Holding p, DropPermit => Some (Dropping None p, s, false)
  | Dropping counted p, Proceed _ _ =>
      let '(n, s) := drop_permit p s in
      Some (Finished (if terminal_on_drop p then Some (permit_outcome p) else counted), s, n)
  | _, _ => None
  end.

(** ** The scheduler with all its tasks *)
Record sys := MkSys { sched : State; tasks : gmap N task }.
Definition initial_sys : sys := MkSys State_default ∅.

(** [notify_waiters]: every [Notified] created so far completes. *)
Definition wake (t : task) : task :=
  match t with
  | Queued old tk ph (Armed _) => Queued old tk ph (Armed true)
  | Queued old tk ph (Sleeping _) => Queued old tk ph (Sleeping true)
  | t => t
  end.

Inductive sys_event :=
| Spawn (tid : N) (class : SchedulerClass) (phase : GenerationPhase)
| On (tid : N) (ev : event).

Definition sys_step (e : sys_event) (y : sys) : option sys :=
  match e with
  | Spawn tid class ph =>
      match tasks y !! tid with
      | Some _ => None
      | None => Some (MkSys (sched y) (<[tid := Acquiring None class ph]> (tasks y)))
      end
  | On tid ev =>
      t ← tasks y !! tid;
      '(t', s, notify) ← run_task ev t (sched y);
      let ts := <[tid := t']> (tasks y) in
      Some (MkSys s (if notify : bool then wake <$> ts else ts))
  end.

Definition run_sys (es : list sys_event) (y : sys) : option sys :=
  foldl (λ acc e, y ← acc; sys_step e y) (Some y) es.
End scheduler.

(** ** Generation phase gauges

    [GenerationPhaseMetrics] and its guards: the two counters are shared
    atomics, a guard is the phase it currently counts. *)
Module GenerationPhaseMetrics.
Record t := Make { prefill_requests : N; decode_requests : N }.
#[export] Instance t_eta : Eta t := {| eta m := Make (prefill_requests m) (decode_requests m) |}.
Definition default : t := Make 0 0.

Definition increment (ph : GenerationPhase) (m : t) : t :=
  match ph with
  | PhasePrefill => m <| prefill_requests ::= λ n, wrap_add n 1 |>
  | PhaseDecode => m <| decode_requests ::= λ n, wrap_add n 1 |>
  end.
Definition decrement (ph : GenerationPhase) (m : t) : t :=
  match ph with
  | PhasePrefill => m <| prefill_requests ::= λ n, wrap_sub n 1 |>
  | PhaseDecode => m <| decode_requests ::= λ n, wrap_sub n 1 |>
  end.

Definition begin (ph : GenerationPhase) (m : t) : GenerationPhase * t := (ph, increment ph m).
Definition guard_transition_to_decode (guard : GenerationPhase) (m : t) : GenerationPhase * t :=
  if bool_decide (guard = PhaseDecode) then (guard, m)
  else (PhaseDecode, increment PhaseDecode (decrement guard m)).
Definition guard_drop (guard : GenerationPhase) (m : t) : t := decrement guard m.

(** Guards by identity, and what their owners do. *)
Inductive call := Begin (g : N) (ph : GenerationPhase) | Transition (g : N) | DropGuard (g : N).

Definition apply_call (c : call) (x : gmap N GenerationPhase * t) : gmap N GenerationPhase * t :=
  let '(gs, m) := x in
  match c with
  | Begin g ph =>
      match gs !! g with
      | Some _ => x
      | None => let '(guard, m) := begin ph m in (<[g := guard]> gs, m)
      end
  | Transition g =>
      match gs !! g with
      | None => x
      | Some guard =>
          let '(guard, m) := guard_transition_to_decode guard m in (<[g := guard]> gs, m)
      end
  | DropGuard g =>
      match gs !! g with
      | None => x
      | Some guard => (delete g gs, guard_drop guard m)
      end
  end.
Definition run (cs : list call) : gmap N GenerationPhase * t :=
  foldl (λ x c, apply_call c x) (∅, default) cs.
End GenerationPhaseMetrics.
