(* ===== verification/SchedulerInv.v ===== *)
(** * Invariants of the scheduler

    For every interleaving of the tasks of [Scheduler.v]: the active counters
    are the permits in use, the queues are the waiting tickets in order of
    arrival, both within their limits, and each request is counted in one
    outcome at most. *)
From Stdlib Require Import Sorted.
From stdpp Require Import base gmap sets numbers list.
From S2P Require Import Prelude Scheduler.
Open Scope N_scope.

(** ** What the state says about a task *)
Definition active_count (ph : GenerationPhase) (s : State) : N :=
  match ph with PhasePrefill => active_prefill s | PhaseDecode => active_decode s end.
Definition outcome_count (o : SchedulerOutcome) (s : State) : N :=
  match o with Completed => completed s | Cancelled => cancelled s | Failed => failed s end.

Definition active_in (ph : GenerationPhase) (t : task) : bool :=
  match t with
  | JustAdmitted _ _ p | Readmitted _ p | DropAdmitted _ p | Holding p | Dropping _ p =>
      permit_active p && bool_decide (permit_phase p = ph)
  | _ => false
  end.

Definition counted_as (o : SchedulerOutcome) (t : task) : bool :=
  match t with
  | Dropping (Some o') _ | Finished (Some o') => bool_decide (o' = o)
  | _ => false
  end.

Definition ticket_of (t : task) : option (SchedulerClass * N) :=
  match t with Queued _ tk _ _ => Some (ticket_class tk, ticket_id tk) | _ => None end.

Definition live_permit (p : SchedulerPermit) : Prop :=
  permit_active p = true ∧ terminal_on_drop p = true.
Definition old_wf (old : option (SchedulerPermit * N)) : Prop :=
  match old with
  | None => True
  | Some (p, _) => permit_active p = false ∧ terminal_on_drop p = false
  end.

Definition task_wf (t : task) : Prop :=
  match t with
  | Acquiring old _ _ | Enqueueing old _ _ | Queued old _ _ _ => old_wf old
  | JustAdmitted old _ p => old_wf old ∧ live_permit p
  | DropAdmitted old p => old_wf old ∧ live_permit p
  | Readmitted _ p | Holding p => live_permit p
  | Dropping None p => terminal_on_drop p = true
  | Dropping (Some _) p => permit_active p = false ∧ terminal_on_drop p = false
  | Finished _ => True
  end.

(** ** The effect of one task step *)
Section step.
Context (options : ModelSchedulerOptions).

(** Counters that follow a property of the task: the state moves exactly as the
    task does. *)
Definition follows (x x' : N) (b b' : bool) : Prop := x' + N.b2n b = x + N.b2n b'.

Definition bounded (s : State) : Prop :=
  active_prefill s + active_decode s < u64_max
  ∧ completed s < u64_max ∧ cancelled s < u64_max ∧ failed s < u64_max
  ∧ next_ticket s < u64_max.

Inductive queue_effect (s s' : State) : option (SchedulerClass * N) → option (SchedulerClass * N) → Prop :=
| queue_same k :
    (∀ c, queue c s' = queue c s) → next_ticket s' = next_ticket s →
    queue_effect s s' k k
| queue_push c id :
    id = next_ticket s + 1 → next_ticket s' = id → queue c s' = queue c s ++ [id] →
    (∀ c', c' ≠ c → queue c' s' = queue c' s) →
    queued_total s < queue_limit options →
    queue_effect s s' None (Some (c, id))
| queue_remove c id l :
    remove_first id (queue c s) = Some l → queue c s' = l →
    (∀ c', c' ≠ c → queue c' s' = queue c' s) → next_ticket s' = next_ticket s →
    queue_effect s s' (Some (c, id)) None.

Lemma queue_effect_cases s s' k k' :
  queue_effect s s' k k' →
  (k' = k ∧ (∀ c, queue c s' = queue c s) ∧ next_ticket s' = next_ticket s)
  ∨ (∃ c id, k = None ∧ k' = Some (c, id) ∧ id = next_ticket s + 1 ∧ next_ticket s' = id
       ∧ queue c s' = queue c s ++ [id] ∧ (∀ c', c' ≠ c → queue c' s' = queue c' s)
       ∧ queued_total s < queue_limit options)
  ∨ (∃ c id l, k = Some (c, id) ∧ k' = None ∧ remove_first id (queue c s) = Some l
       ∧ queue c s' = l ∧ (∀ c', c' ≠ c → queue c' s' = queue c' s)
       ∧ next_ticket s' = next_ticket s).
Proof. destruct 1; [by left|right; left|right; right]; naive_solver. Qed.

Lemma incr_small n : n < u64_max → incr n = n + 1.
Proof. intros. apply wrap_add_small. lia. Qed.

Lemma remove_first_None x l : remove_first x l = None ↔ x ∉ l.
Proof.
  induction l as [|y l IH]; simpl; [set_solver|].
  destruct (N.eqb_spec x y) as [->|Hne]; [set_solver|].
  rewrite fmap_None, IH. set_solver.
Qed.

Lemma remove_first_length x l l' : remove_first x l = Some l' → length l = S (length l').
Proof.
  revert l'. induction l as [|y l IH]; intros l'; simpl; [done|].
  destruct (x =? y); [by intros [= ->]|]. rewrite fmap_Some. intros (k & Hk & ->).
  simpl. by rewrite (IH k).
Qed.

Lemma remove_first_Some x l l' :
  NoDup l → remove_first x l = Some l' → x ∈ l ∧ ∀ z, z ∈ l' ↔ z ∈ l ∧ z ≠ x.
Proof.
  revert l'. induction l as [|y l IH]; intros l' Hnd; simpl; [done|].
  apply NoDup_cons in Hnd as [Hy Hnd]. destruct (N.eqb_spec x y) as [->|Hne].
  - intros [= ->]. split; [set_solver|]. intros z. split; [|set_solver].
    intros Hz. split; [set_solver|]. by intros ->.
  - rewrite fmap_Some. intros (k & Hk & ->). destruct (IH k Hnd Hk) as [Hin Hmem].
    split; [set_solver|]. intros z. rewrite !elem_of_cons, Hmem. split; [|naive_solver].
    intros [->|?]; naive_solver.
Qed.

Lemma remove_first_sorted x l l' :
  remove_first x l = Some l' → StronglySorted N.lt l → StronglySorted N.lt l'.
Proof.
  revert l'. induction l as [|y l IH]; intros l'; simpl; [done|].
  intros Hr Hs. apply StronglySorted_inv in Hs as [Hs Hy]. destruct (N.eqb_spec x y) as [->|Hne].
  - by injection Hr as <-.
  - rewrite fmap_Some in Hr. destruct Hr as (k & Hk & ->). constructor; [by apply IH|].
    rewrite Forall_forall in Hy |- *. intros z Hz. apply Hy.
    clear -Hk Hz. revert k Hk Hz. induction l as [|w l IH]; intros k; simpl; [done|].
    destruct (x =? w); [intros [= ->]; set_solver|]. rewrite fmap_Some. intros (k' & Hk' & ->) Hz.
    apply elem_of_cons in Hz as [->|Hz]; [set_solver|]. specialize (IH k' Hk' Hz). set_solver.
Qed.

Lemma drop_ticket_effect timeout tk s :
  ticket_id tk ∈ queue (ticket_class tk) s →
  queue_effect s (drop_ticket timeout tk s) (Some (ticket_class tk, ticket_id tk)) None.
Proof.
  intros Hin. unfold drop_ticket.
  destruct (remove_first (ticket_id tk) (queue (ticket_class tk) s)) as [l|] eqn:Hr;
    [|by apply remove_first_None in Hr].
  eapply queue_remove; [exact Hr|..].
  - by destruct timeout, (ticket_class tk).
  - intros c' Hc. by destruct timeout, (ticket_class tk), c'.
  - by destruct timeout, (ticket_class tk).
Qed.

Lemma drop_ticket_frame timeout tk s :
  let s' := drop_ticket timeout tk s in
  (∀ ph, active_count ph s' = active_count ph s) ∧ (∀ o, outcome_count o s' = outcome_count o s).
Proof.
  unfold drop_ticket. destruct (remove_first _ _) as [l|]; [|done].
  by split; intros []; destruct timeout, (ticket_class tk).
Qed.

(** What every step of a task does to the counters and queues. *)
Record task_effect (t t' : task) (s s' : State) : Prop := {
  te_wf : task_wf t';
  te_active : ∀ ph, follows (active_count ph s) (active_count ph s') (active_in ph t) (active_in ph t');
  te_counted : ∀ o, follows (outcome_count o s) (outcome_count o s') (counted_as o t) (counted_as o t');
  te_queue : queue_effect s s' (ticket_of t) (ticket_of t');
  te_limit : active_prefill s + active_decode s ≤ concurrency_limit options →
             active_prefill s' + active_decode s' ≤ concurrency_limit options;
}.

(** A step that leaves every counter and queue alone. *)
Lemma effect_none t t' s s' :
  task_wf t' →
  (∀ ph, active_count ph s' = active_count ph s) → (∀ o, outcome_count o s' = outcome_count o s) →
  (∀ c, queue c s' = queue c s) → next_ticket s' = next_ticket s →
  (∀ ph, active_in ph t' = active_in ph t) → (∀ o, counted_as o t' = counted_as o t) →
  ticket_of t' = ticket_of t → task_effect t t' s s'.
Proof.
  intros Hwf Ha Ho Hq Hn Hat Hct Htk. constructor; [done|..].
  - intros ph. unfold follows. by rewrite Ha, Hat.
  - intros o. unfold follows. by rewrite Ho, Hct.
  - rewrite Htk. by apply queue_same.
  - pose proof (Ha PhasePrefill). pose proof (Ha PhaseDecode). simpl in *. lia.
Qed.

Lemma start_active_effect class ph s t t' :
  bounded s → active_prefill s + active_decode s < concurrency_limit options →
  task_wf t' →
  (∀ ph', active_in ph' t = false) →
  (∀ ph', active_in ph' t' = bool_decide (ph = ph')) →
  (∀ o, counted_as o t' = counted_as o t) →
  let s' := start_active class ph s in
  (∀ c, queue c s' = queue c s) ∧ next_ticket s' = next_ticket s
  ∧ (∀ ph', follows (active_count ph' s) (active_count ph' s') (active_in ph' t) (active_in ph' t'))
  ∧ (∀ o, follows (outcome_count o s) (outcome_count o s') (counted_as o t) (counted_as o t'))
  ∧ active_prefill s' + active_decode s' ≤ concurrency_limit options.
Proof.
  intros (Hb & _) Hlim Hwf Hat Hat' Hct s'. subst s'. unfold start_active, follows.
  split; [intros []; by destruct class, ph|]. split; [by destruct class, ph|].
  split; [|split].
  - intros ph'. rewrite Hat, Hat'.
    destruct ph, ph', class; simpl; rewrite ?incr_small by lia; lia.
  - intros o. rewrite Hct. by destruct o, class, ph.
  - destruct ph, class; simpl; rewrite incr_small by lia; lia.
Qed.

Lemma acquire_error_effect old e t s s' :
  task_wf t → old_wf old → queue_effect s s' (ticket_of t) None → e ≠ CancelledAfterAdmission →
  (∀ ph, active_count ph s' = active_count ph s) → (∀ o, outcome_count o s' = outcome_count o s) →
  (∀ ph, active_in ph t = false) → (∀ o, counted_as o t = false) →
  task_effect t (acquire_error old e) s s'.
Proof.
  intros Hwf Hold Hq He Ha Ho Hat Hct.
  assert (∀ ph, active_in ph (acquire_error old e) = false) as Hat'.
  { intros ph. destruct old as [[p r]|]; [|done]. simpl. destruct Hold as [Hp _].
    by destruct e; simpl; rewrite Hp. }
  assert (∀ o, counted_as o (acquire_error old e) = false) as Hct' by (by destruct old as [[? ?]|]).
  constructor.
  - destruct old as [[p r]|]; [|done]. by destruct e.
  - intros ph. unfold follows. by rewrite Ha, Hat, Hat'.
  - intros o. unfold follows. by rewrite Ho, Hct, Hct'.
  - by destruct old as [[? ?]|].
  - pose proof (Ha PhasePrefill). pose proof (Ha PhaseDecode). simpl in *. lia.
Qed.

(** Dropping a permit counts the request's outcome and frees its slot. *)
Lemma drop_permit_effect p s t t' :
  bounded s → terminal_on_drop p = true →
  (∀ ph, active_in ph t = permit_active p && bool_decide (permit_phase p = ph)) →
  (∀ ph, N.b2n (active_in ph t) ≤ active_count ph s) →
  (∀ o, counted_as o t = false) →
  task_wf t' → (∀ ph, active_in ph t' = false) →
  (∀ o, counted_as o t' = bool_decide (permit_outcome p = o)) →
  ticket_of t = None → ticket_of t' = None →
  task_effect t t' s (drop_permit p s).2.
Proof.
  intros (_ & Hc & Hk & Hf & _) Hterm Hat Hpos Hct Hwf Hat' Hct' Htk Htk'.
  unfold drop_permit. rewrite Hterm. cbn [snd].
  assert (∀ ph, N.b2n (permit_active p && bool_decide (permit_phase p = ph)) ≤ active_count ph s) as Hpos'
    by (intros; rewrite <- Hat; apply Hpos). pose proof (Hpos' PhasePrefill) as HP. pose proof (Hpos' PhaseDecode) as HD.
  constructor; [done|..].
  - intros ph. unfold follows. rewrite Hat, Hat'.
    destruct (permit_active p), (permit_phase p), ph, (permit_outcome p); simpl in *;
      unfold sat_sub; lia.
  - intros o. unfold follows. rewrite Hct, Hct'.
    destruct (permit_active p), (permit_phase p), (permit_outcome p), o; simpl;
      rewrite ?incr_small by done; lia.
  - rewrite Htk, Htk'. apply queue_same.
    + intros []; by destruct (permit_active p), (permit_phase p), (permit_outcome p).
    + by destruct (permit_active p), (permit_phase p), (permit_outcome p).
  - destruct (permit_active p), (permit_phase p), (permit_outcome p); simpl; unfold sat_sub; lia.
Qed.

Lemma acquiring_effect old class ph s p s' :
  bounded s → concurrency_limit options ≤ u64_max → old_wf old →
  try_acquire_immediate options class ph s = (p, s') →
  task_effect (Acquiring old class ph)
    (match p with Some p => JustAdmitted old false p | None => Enqueueing old class ph end) s s'.
Proof.
  intros Hb Hlim Hold. unfold try_acquire_immediate.
  destruct (N.leb_spec (concurrency_limit options) (active_total s)) as [|Hlt]; simpl.
  { intros [= <- <-]. by apply effect_none. }
  destruct (N.ltb_spec 0 (queued_total s)); intros [= <- <-]; [by apply effect_none|].
  pose proof Hb as (Hb' & _). unfold active_total in Hlt. rewrite wrap_add_small in Hlt by lia.
  destruct (start_active_effect class ph s (Acquiring old class ph) (JustAdmitted old false (fresh_permit ph)))
    as (Hq & Hn & Ha & Ho & Hl); try done.
  constructor; try done. by apply queue_same.
Qed.

Lemma admitting_effect old tk ph woken s p s' :
  bounded s → concurrency_limit options ≤ u64_max → old_wf old →
  try_admit_queued options (ticket_id tk) (ticket_class tk) ph s = (p, s') →
  task_effect (Queued old tk ph (Armed woken))
    (match p with
     | Some p => JustAdmitted old (decode_starvation tk) p
     | None => Queued old tk ph (Sleeping woken)
     end) s s'.
Proof.
  intros Hb Hlim Hold. unfold try_admit_queued.
  destruct (N.leb_spec (concurrency_limit options) (active_total s)) as [|Hlt].
  { intros [= <- <-]. by apply effect_none. }
  destruct (next_admissible_class (prefill_burst options) s) as [cl|];
    [|intros [= <- <-]; by apply effect_none].
  case_bool_decide as Hcl; [|intros [= <- <-]; by apply effect_none]. subst cl.
  case_bool_decide as Hhd; [|intros [= <- <-]; by apply effect_none]. simpl. intros [= <- <-].
  pose proof Hb as (Hb' & _). unfold active_total in Hlt. rewrite wrap_add_small in Hlt by lia.
  set (s1 := queue_mut (ticket_class tk) tail s).
  assert (bounded s1 ∧ active_prefill s1 = active_prefill s ∧ active_decode s1 = active_decode s
    ∧ next_ticket s1 = next_ticket s
    ∧ (∀ ph, active_count ph s1 = active_count ph s) ∧ (∀ o, outcome_count o s1 = outcome_count o s))
    as (Hb1 & HP & HD & Hn1 & Ha1 & Ho1).
  { unfold s1. destruct (ticket_class tk); split_and!; try done; by intros []. }
  destruct (start_active_effect (ticket_class tk) ph s1 (Queued old tk ph (Armed woken))
    (JustAdmitted old (decode_starvation tk) (fresh_permit ph))) as (Hq & Hn & Ha & Ho & Hl); try done; [lia|].
  constructor; try done.
  - intros ph'. specialize (Ha ph'). by rewrite Ha1 in Ha.
  - intros o. specialize (Ho o). by rewrite Ho1 in Ho.
  - simpl. destruct (queue (ticket_class tk) s) as [|x l] eqn:Hqs; [done|]. injection Hhd as ->.
    eapply (queue_remove _ _ _ _ l).
    + rewrite Hqs. simpl. by rewrite N.eqb_refl.
    + rewrite Hq. unfold s1. destruct (ticket_class tk); simpl in *; by rewrite Hqs.
    + intros c' Hc'. rewrite Hq. unfold s1. by destruct (ticket_class tk), c'.
    + by rewrite Hn.
Qed.

Lemma enqueue_effect old class ph s tk s' :
  bounded s → old_wf old → enqueue options class s = (Ok tk, s') →
  task_effect (Enqueueing old class ph) (Queued old tk ph LoopTop) s s'.
Proof.
  intros Hb Hold. unfold enqueue.
  destruct (N.leb_spec (queue_limit options) (queued_total s)) as [|Hlt]; [done|].
  pose proof Hb as (_ & _ & _ & _ & Hn).
  set (starved := bool_decide (class = ClassDecode) && has_prefill_pressure s).
  set (s1 := if starved then record_decode_starvation_event s else s).
  assert (next_ticket s1 = next_ticket s ∧ (∀ ph, active_count ph s1 = active_count ph s)
    ∧ (∀ o, outcome_count o s1 = outcome_count o s) ∧ (∀ c, queue c s1 = queue c s)) as (Hn1 & Ha1 & Ho1 & Hq1).
  { unfold s1. destruct starved; split_and!; try done; by intros []. }
  clearbody s1 starved. intros [= <- <-].
  assert (incr (next_ticket s1) = next_ticket s + 1) as Hid by (by rewrite Hn1, incr_small).
  constructor.
  - done.
  - intros ph'. specialize (Ha1 ph'). unfold follows. rewrite <- Ha1. by destruct class, ph'.
  - intros o. specialize (Ho1 o). unfold follows. rewrite <- Ho1. by destruct class, o.
  - simpl. pose proof (Hq1 ClassPrefill) as Hqp. pose proof (Hq1 ClassDecode) as Hqd. simpl in Hqp, Hqd.
    apply queue_push; [done|by destruct class|..].
    + destruct class; simpl; by rewrite ?Hqp, ?Hqd.
    + intros c' Hc'. destruct class, c'; simpl; congruence.
    + done.
  - pose proof (Ha1 PhasePrefill). pose proof (Ha1 PhaseDecode). destruct class; simpl in *; lia.
Qed.

Lemma yield_success_frame r w s :
  let s' := record_prefill_yield_success r w s in
  (∀ ph, active_count ph s' = active_count ph s) ∧ (∀ o, outcome_count o s' = outcome_count o s)
  ∧ (∀ c, queue c s' = queue c s) ∧ next_ticket s' = next_ticket s.
Proof.
  unfold record_prefill_yield_success. simpl.
  destruct (r <? admitted_decode s); split_and!; try done; by intros [].
Qed.

Lemma starvation_wait_frame (b : bool) w s :
  let s' := if b then record_decode_starvation_wait w s else s in
  (∀ ph, active_count ph s' = active_count ph s) ∧ (∀ o, outcome_count o s' = outcome_count o s)
  ∧ (∀ c, queue c s' = queue c s) ∧ next_ticket s' = next_ticket s.
Proof. simpl. destruct b; split_and!; try done; by intros []. Qed.

(** Uses of a permit by its holder. *)
Lemma holding_effect ev p t' s s' n :
  bounded s → live_permit p → (∀ ph, N.b2n (active_in ph (Holding p)) ≤ active_count ph s) →
  run_task options ev (Holding p) s = Some (t', s', n) → task_effect (Holding p) t' s s'.
Proof.
  intros Hb [Hact Hterm] Hpos Hrun. destruct Hb as (Hb & _).
  destruct ev; simpl in Hrun; try done.
  - unfold transition_to_decode in Hrun. rewrite Hact in Hrun. simpl in Hrun.
    case_bool_decide as Hph; simpl in Hrun; injection Hrun as <- <- <-; [by apply effect_none|].
    destruct p as [[] o a td]; simpl in *; [|done]. subst a td.
    specialize (Hpos PhasePrefill). simpl in Hpos.
    constructor; [done|..].
    + intros []; unfold follows; simpl; rewrite ?incr_small by lia; unfold sat_sub; lia.
    + intros []; unfold follows; simpl; lia.
    + by apply queue_same; [intros []|].
    + simpl. rewrite incr_small by lia. unfold sat_sub. lia.
  - injection Hrun as <- <- <-. by apply effect_none.
  - injection Hrun as <- <- <-. by apply effect_none.
  - rewrite Hact in Hrun. simpl in Hrun. case_bool_decide as Hph; simpl in Hrun.
    + injection Hrun as <- <- <-. by apply effect_none.
    + destruct token_cancelled; injection Hrun as <- <- <-; [by apply effect_none|].
      destruct p as [[] o a td]; simpl in *; [|done]. subst a td.
      specialize (Hpos PhasePrefill). simpl in Hpos.
      constructor; [done|..].
      * intros []; unfold follows; simpl; unfold sat_sub; lia.
      * intros []; unfold follows; simpl; lia.
      * by apply queue_same; [intros []|].
      * simpl. unfold sat_sub. lia.
  - injection Hrun as <- <- <-. by apply effect_none.
Qed.

Lemma run_task_effect ev t s t' s' n :
  task_wf t → bounded s → concurrency_limit options ≤ u64_max →
  (∀ ph, N.b2n (active_in ph t) ≤ active_count ph s) →
  (∀ c id, ticket_of t = Some (c, id) → id ∈ queue c s) →
  run_task options ev t s = Some (t', s', n) → task_effect t t' s s'.
Proof.
  intros Hwf Hb Hlim Hpos Hin Hrun.
  destruct t as [old class ph|old class ph|old tk ph st|old starved p|r p|old p|p|counted p|counted].
  - destruct ev; try done. simpl in Hrun. destruct token_cancelled.
    + injection Hrun as <- <- <-. by apply acquire_error_effect; try done; apply queue_same.
    + destruct (try_acquire_immediate options class ph s) as [p s1] eqn:Ht.
      pose proof (acquiring_effect old class ph s p s1 Hb Hlim Hwf Ht).
      by destruct p; injection Hrun as <- <- <-.
  - destruct ev; try done. simpl in Hrun.
    destruct (enqueue options class s) as [[tk|e|] s1] eqn:He; injection Hrun as <- <- <-.
    + by apply enqueue_effect.
    + assert (s1 = s) as -> by (unfold enqueue in He; destruct (_ <=? _); congruence).
      by apply acquire_error_effect; try done; apply queue_same.
    + unfold enqueue in He. destruct (_ <=? _); congruence.
  - assert (∀ b, task_effect (Queued old tk ph st) (Finished None) s (drop_ticket b tk s)
      ∧ ∀ e, e ≠ CancelledAfterAdmission →
             task_effect (Queued old tk ph st) (acquire_error old e) s (drop_ticket b tk s)) as Hdrop.
    { intros b. destruct (drop_ticket_frame b tk s) as [Ha Ho].
      assert (queue_effect s (drop_ticket b tk s) (Some (ticket_class tk, ticket_id tk)) None) as Hq
        by (apply drop_ticket_effect, Hin; done).
      split; [|intros e He; by apply acquire_error_effect].
      by apply (acquire_error_effect None AcquireCancelled (Queued old tk ph st)). }
    destruct st as [|woken|woken].
    + destruct ev; try done. simpl in Hrun. destruct token_cancelled; injection Hrun as <- <- <-.
      * by apply Hdrop.
      * by apply effect_none.
    + destruct ev; try done. simpl in Hrun.
      destruct (try_admit_queued options (ticket_id tk) (ticket_class tk) ph s) as [p s1] eqn:Ht.
      pose proof (admitting_effect old tk ph woken s p s1 Hb Hlim Hwf Ht).
      by destruct p; injection Hrun as <- <- <-.
    + destruct woken, ev; simpl in Hrun; try done;
        try (destruct (queue_timeout options); [|done]);
        injection Hrun as <- <- <-; try (by apply Hdrop); by apply effect_none.
  - destruct ev; try done. simpl in Hrun. destruct Hwf as [Hold [Hact Hterm]].
    destruct (starvation_wait_frame starved elapsed s) as (Ha & Ho & Hq & Hn).
    destruct token_cancelled; injection Hrun as <- <- <-; [by apply effect_none|].
    by destruct old as [[q r]|]; apply effect_none.
  - destruct ev; try done. unfold run_task in Hrun.
    destruct (yield_success_frame r elapsed s) as (Ha & Ho & Hq & Hn).
    injection Hrun as <- <- <-. by apply effect_none.
  - destruct ev; try done. simpl in Hrun. destruct Hwf as [Hold [Hact Hterm]].
    destruct (drop_permit p s) as [nt s1] eqn:Hd. injection Hrun as <- <- <-.
    assert (s1 = (drop_permit p s).2) as -> by (by rewrite Hd).
    destruct old as [[q r]|]; apply (drop_permit_effect p); try done;
      destruct Hold as [Hq _]; [done|]. intros ph. simpl. by rewrite Hq.
  - by eapply holding_effect.
  - destruct ev; try done. simpl in Hrun.
    destruct (drop_permit p s) as [nt s1] eqn:Hd. injection Hrun as <- <- <-.
    assert (s1 = (drop_permit p s).2) as -> by (by rewrite Hd).
    destruct counted as [o|]; simpl in Hwf.
    + destruct Hwf as [Hact Hterm]. unfold drop_permit. rewrite Hterm.
      apply effect_none; try done. intros ph. simpl. by rewrite Hact.
    + rewrite Hwf. by apply (drop_permit_effect p).
  - by destruct ev.
Qed.
End step.

(** ** The whole system *)
Lemma wake_frame t :
  (∀ ph, active_in ph (wake t) = active_in ph t) ∧ (∀ o, counted_as o (wake t) = counted_as o t)
  ∧ ticket_of (wake t) = ticket_of t ∧ (task_wf t → task_wf (wake t)).
Proof. by destruct t as [| |old tk ph []| | | | | |]. Qed.

(** [n] bounds the tasks started and the tickets drawn so far. *)
Record sched_inv (options : ModelSchedulerOptions) (n : N) (y : sys) : Prop := {
  si_wf : ∀ tid t, tasks y !! tid = Some t → task_wf t;
  si_active : ∀ ph, active_count ph (sched y) = N.of_nat (count_if (active_in ph) (tasks y));
  si_counted : ∀ o, outcome_count o (sched y) = N.of_nat (count_if (counted_as o) (tasks y));
  si_limit : active_prefill (sched y) + active_decode (sched y) ≤ concurrency_limit options;
  si_sorted : ∀ c, StronglySorted N.lt (queue c (sched y));
  si_drawn : ∀ c id, id ∈ queue c (sched y) → id ≤ next_ticket (sched y);
  si_queue : ∀ c id, id ∈ queue c (sched y) ↔
    ∃ tid t, tasks y !! tid = Some t ∧ ticket_of t = Some (c, id);
  si_unique : ∀ tid tid' t t' c c' id, tasks y !! tid = Some t → tasks y !! tid' = Some t' →
    ticket_of t = Some (c, id) → ticket_of t' = Some (c', id) → tid = tid';
  si_queued : queued_total (sched y) ≤ queue_limit options;
  si_tickets : next_ticket (sched y) ≤ n;
  si_size : N.of_nat (size (tasks y)) ≤ n;
}.

Lemma initial_sched_inv options : sched_inv options 0 initial_sys.
Proof.
  constructor; simpl; try (intros; by rewrite ?count_if_empty); try lia; try done.
  - intros []; by rewrite count_if_empty.
  - intros []; by rewrite count_if_empty.
  - intros []; constructor.
  - intros [] id Hid; by apply not_elem_of_nil in Hid.
  - intros c id. split; [destruct c; set_solver|]. intros (tid & t & Ht & _).
    by rewrite lookup_empty in Ht.
  - unfold queued_total. simpl. lia.
Qed.

Section system.
Context (options : ModelSchedulerOptions).

Lemma inv_bounded n y :
  sched_inv options n y → n < u64_max → bounded (sched y).
Proof.
  intros Hi Hn. pose proof (si_size _ _ _ Hi) as Hsz. unfold bounded.
  pose proof (si_active _ _ _ Hi PhasePrefill) as HP. pose proof (si_active _ _ _ Hi PhaseDecode) as HD.
  pose proof (count_if_disjoint (active_in PhasePrefill) (active_in PhaseDecode) (tasks y)) as Hdis.
  assert (∀ t, active_in PhasePrefill t = true → active_in PhaseDecode t = false) as Hx.
  { intros t. destruct t as [| | |? ? [[] ? [] ?]|? [[] ? [] ?]|? [[] ? [] ?]|[[] ? [] ?]|? [[] ? [] ?]|]; done. }
  specialize (Hdis Hx). simpl in HP, HD.
  pose proof (λ o, si_counted _ _ _ Hi o) as Hc.
  pose proof (λ o, count_if_le (counted_as o) (tasks y)) as Hle.
  pose proof (Hc Completed). pose proof (Hc Cancelled). pose proof (Hc Failed).
  pose proof (Hle Completed). pose proof (Hle Cancelled). pose proof (Hle Failed). simpl in *.
  pose proof (si_tickets _ _ _ Hi). split_and!; lia.
Qed.

Ltac queue_cases Hq :=
  destruct (queue_effect_cases _ _ _ _ _ Hq) as
    [(Hk & Hqs & Hns)
    |[(c1 & id1 & Hk & Hk' & Hid1 & Hns & Hqs & Hqo & Hlim)
     |(c1 & id1 & l & Hk & Hk' & Hrem & Hqs & Hqo & Hns)]].

(** A task of the map replaced after a step with the effect above. *)
Lemma inv_task_step n s ts tid t t' s' :
  sched_inv options n (MkSys s ts) → n < u64_max → ts !! tid = Some t →
  task_effect options t t' s s' → sched_inv options (n + 1) (MkSys s' (<[tid := t']> ts)).
Proof.
  intros Hi Hn Ht [Hwf Ha Hc Hq Hl]. destruct Hi as [Iwf Ia Ic Il Is Id Iq Iu Iqt In Isz]; simpl in *.
  assert (∀ c id l, remove_first id (queue c s) = Some l → ∀ z, z ∈ l ↔ z ∈ queue c s ∧ z ≠ id) as Hrm.
  { intros c id l Hr. by apply (remove_first_Some id _ l (StronglySorted_NoDup _ (Is c)) Hr). }
  assert (∀ c id, id ∈ queue c s' ↔
    ∃ k u, <[tid := t']> ts !! k = Some u ∧ ticket_of u = Some (c, id)) as Hq'.
  { intros c id. transitivity (ticket_of t' = Some (c, id) ∨ (ticket_of t ≠ Some (c, id) ∧ id ∈ queue c s)).
    - queue_cases Hq.
      + rewrite Hqs, Hk. destruct (decide (ticket_of t = Some (c, id))) as [E|]; [|naive_solver].
        split; [by left|]. intros _. apply Iq. by exists tid, t.
      + rewrite Hk, Hk'. destruct (decide (c = c1)) as [->|Hne].
        * rewrite Hqs, elem_of_app, list_elem_of_singleton. naive_solver.
        * rewrite Hqo by done. naive_solver.
      + rewrite Hk, Hk'. destruct (decide (c = c1)) as [->|Hne].
        * rewrite Hqs, (Hrm _ _ _ Hrem). naive_solver.
        * rewrite Hqo by done. naive_solver.
    - split.
      + intros [Htk|[Hne Hid]]; [exists tid, t'; by rewrite lookup_insert_eq|].
        apply Iq in Hid as (k & u & Hk & Hu). exists k, u. split; [|done].
        rewrite lookup_insert_ne; [done|]. intros <-. congruence.
      + intros (k & u & Hk & Hu). rewrite lookup_insert in Hk. case_decide as Hkt; [left; congruence|].
        right. split; [|apply Iq; by exists k, u].
        intros Htk. apply Hkt. by apply (Iu tid k t u c c id). }
  constructor; simpl.
  - intros k u. rewrite lookup_insert. case_decide; [by intros [= <-]|by apply Iwf].
  - intros ph. specialize (Ha ph). specialize (Ia ph). unfold follows in Ha.
    pose proof (count_if_insert (active_in ph) ts tid t t' Ht).
    destruct (active_in ph t), (active_in ph t'); simpl in *; lia.
  - intros o. specialize (Hc o). specialize (Ic o). unfold follows in Hc.
    pose proof (count_if_insert (counted_as o) ts tid t t' Ht).
    destruct (counted_as o t), (counted_as o t'); simpl in *; lia.
  - by apply Hl.
  - intros c. queue_cases Hq; [by rewrite Hqs|..];
      (destruct (decide (c = c1)) as [->|]; [|by rewrite Hqo]).
    + rewrite Hqs. apply StronglySorted_snoc; [done|]. intros y Hy. specialize (Id c1 y Hy). lia.
    + rewrite Hqs. by eapply remove_first_sorted.
  - intros c id. queue_cases Hq.
    + rewrite Hqs, Hns. apply Id.
    + destruct (decide (c = c1)) as [->|].
      * rewrite Hqs, elem_of_app, list_elem_of_singleton.
        intros [Hid|Hid]; [specialize (Id c1 id Hid)|]; lia.
      * rewrite Hqo by done. intros Hid. specialize (Id c id Hid). lia.
    + rewrite Hns. destruct (decide (c = c1)) as [->|].
      * rewrite Hqs, (Hrm _ _ _ Hrem). intros [Hid _]. by apply (Id c1).
      * rewrite Hqo by done. apply Id.
  - done.
  - assert (∀ j v c2 c3 id, ts !! j = Some v → j ≠ tid → ticket_of v = Some (c2, id) →
      ticket_of t' = Some (c3, id) → False) as Hclash.
    { intros j v c2 c3 id Hj Hjt Hv Ht'. queue_cases Hq; rewrite Ht' in *; simplify_eq.
      - apply Hjt. by apply (Iu j tid v t c2 c3 id).
      - assert (next_ticket s + 1 ≤ next_ticket s); [|lia].
        eapply (Id c2), Iq. exists j, v. split; [done|]. congruence. }
    intros k k' u u' c c' id. rewrite !lookup_insert.
    do 2 case_decide; intros; simplify_eq; try done.
    + by edestruct (Hclash k' u' c').
    + by edestruct (Hclash k u c).
    + by eapply (Iu k k').
  - queue_cases Hq; unfold queued_total in *.
    + pose proof (Hqs ClassPrefill) as H1. pose proof (Hqs ClassDecode) as H2.
      simpl in H1, H2. by rewrite H1, H2.
    + destruct c1; [pose proof (Hqo ClassDecode) as H2|pose proof (Hqo ClassPrefill) as H2];
        simpl in H2, Hqs; rewrite Hqs, H2 by done; rewrite length_app; simpl; lia.
    + apply remove_first_length in Hrem.
      destruct c1; [pose proof (Hqo ClassDecode) as H2|pose proof (Hqo ClassPrefill) as H2];
        simpl in *; rewrite Hqs, H2 by done; lia.
  - queue_cases Hq; lia.
  - rewrite map_size_insert, Ht. simpl. lia.
Qed.

Lemma inv_wake n s ts :
  sched_inv options n (MkSys s ts) → sched_inv options n (MkSys s (wake <$> ts)).
Proof.
  intros [Iwf Ia Ic Il Is Id Iq Iu Iqt In Isz]; simpl in *.
  assert (∀ k u, (wake <$> ts) !! k = Some u ↔ ∃ v, ts !! k = Some v ∧ u = wake v) as Hl.
  { intros k u. rewrite lookup_fmap, fmap_Some. naive_solver. }
  constructor; simpl; try done.
  - intros k u (v & Hv & ->)%Hl. by apply wake_frame, (Iwf k).
  - intros ph. rewrite count_if_fmap; [done|]. intros t. apply wake_frame.
  - intros o. rewrite count_if_fmap; [done|]. intros t. apply wake_frame.
  - intros c id. rewrite Iq. split.
    + intros (k & v & Hv & Htk). exists k, (wake v). rewrite Hl. split; [by exists v|].
      by rewrite (proj1 (proj2 (proj2 (wake_frame v)))).
    + intros (k & u & (v & Hv & ->)%Hl & Htk). exists k, v. split; [done|].
      by rewrite (proj1 (proj2 (proj2 (wake_frame v)))) in Htk.
  - intros k k' u u' c c' id (v & Hv & ->)%Hl (v' & Hv' & ->)%Hl.
    rewrite (proj1 (proj2 (proj2 (wake_frame v)))), (proj1 (proj2 (proj2 (wake_frame v')))).
    by apply Iu.
  - by rewrite map_size_fmap.
Qed.

Lemma inv_spawn n s ts tid class ph :
  sched_inv options n (MkSys s ts) → ts !! tid = None →
  sched_inv options (n + 1) (MkSys s (<[tid := Acquiring None class ph]> ts)).
Proof.
  intros [Iwf Ia Ic Il Is Id Iq Iu Iqt In Isz] Ht; simpl in *.
  constructor; simpl; try done.
  - intros k u. rewrite lookup_insert. case_decide; [by intros [= <-]|by apply Iwf].
  - intros ph'. rewrite count_if_insert_fresh by done. by rewrite Ia.
  - intros o. rewrite count_if_insert_fresh by done. by rewrite Ic.
  - intros c id. rewrite Iq. split; intros (k & u & Hk & Hu); exists k, u; (split; [|done]).
    + rewrite lookup_insert_ne; [done|]. intros <-. congruence.
    + rewrite lookup_insert in Hk. case_decide; [by simplify_eq|done].
  - intros k k' u u' c c' id. rewrite !lookup_insert.
    do 2 case_decide; intros; simplify_eq/=; try done. by eapply (Iu k k').
  - lia.
  - rewrite map_size_insert_None by done. lia.
Qed.

Lemma sys_step_inv n e y y' :
  concurrency_limit options ≤ u64_max → n < u64_max →
  sched_inv options n y → sys_step options e y = Some y' → sched_inv options (n + 1) y'.
Proof.
  intros Hlim Hn Hi Hstep. destruct y as [s ts]. destruct e as [tid class ph|tid ev]; simpl in Hstep.
  - destruct (ts !! tid) eqn:Ht; [done|]. injection Hstep as <-. by apply inv_spawn.
  - destruct (ts !! tid) as [t|] eqn:Ht; simpl in Hstep; [|done].
    destruct (run_task options ev t s) as [[[t' s'] nt]|] eqn:Hrun; simpl in Hstep; [|done].
    injection Hstep as <-.
    assert (sched_inv options (n + 1) (MkSys s' (<[tid := t']> ts))) as Hi'.
    { eapply inv_task_step; [exact Hi|done|exact Ht|]. eapply run_task_effect; [|by apply (inv_bounded n (MkSys s ts))|done| | |exact Hrun].
      - by apply (si_wf _ _ _ Hi tid).
      - intros ph. pose proof (si_active _ _ _ Hi ph) as Ha. simpl in Ha. rewrite Ha.
        pose proof (count_if_pos (active_in ph) ts tid t Ht). destruct (active_in ph t); simpl in *; lia.
      - intros c id Htk. apply (si_queue _ _ _ Hi). by exists tid, t. }
    destruct nt; [by apply inv_wake|done].
Qed.

Lemma run_sys_None es : foldl (λ acc e, y ← acc; sys_step options e y) None es = None.
Proof. by induction es. Qed.

Lemma run_sys_cons e es y :
  run_sys options (e :: es) y = (y' ← sys_step options e y; run_sys options es y').
Proof.
  unfold run_sys. simpl. destruct (sys_step options e y) as [y'|]; simpl; [done|]. apply run_sys_None.
Qed.

Lemma run_sys_inv n es y y' :
  concurrency_limit options ≤ u64_max → n + N.of_nat (length es) ≤ u64_max →
  sched_inv options n y → run_sys options es y = Some y' →
  sched_inv options (n + N.of_nat (length es)) y'.
Proof.
  revert n y. induction es as [|e es IH]; intros n y Hlim Hn Hi Hrun.
  - injection Hrun as <-. by rewrite N.add_0_r.
  - rewrite run_sys_cons in Hrun. destruct (sys_step options e y) as [y1|] eqn:Hs; simpl in Hrun; [|done].
    simpl in Hn |- *. pose proof (sys_step_inv n e y y1 Hlim ltac:(lia) Hi Hs) as Hi1.
    replace (n + N.of_nat (S (length es))) with (n + 1 + N.of_nat (length es)) by lia.
    apply IH with y1; [done|lia|done|done].
Qed.
End system.
