(* ===== verification/SchedulerTheorems.v ===== *)
(** * What the scheduler promises

    Statements about every interleaving of the scheduler's tasks, from the
    invariant of [SchedulerInv.v]: limits and accounting, admission order, the
    bound on decode starvation, the phase gauges, and a wake-up the admission
    path does not send. *)
From Stdlib Require Import Sorted.
From stdpp Require Import base gmap sets numbers list.
From S2P Require Import Prelude Scheduler SchedulerInv.
Open Scope N_scope.

(** Runs short enough for the 64-bit counters and ticket numbers. *)
Definition reachable (options : ModelSchedulerOptions) (y : sys) : Prop :=
  concurrency_limit options ≤ u64_max
  ∧ ∃ es, N.of_nat (length es) < u64_max ∧ run_sys options es initial_sys = Some y.

Lemma reachable_sched_inv options y :
  reachable options y → ∃ n, n < u64_max ∧ sched_inv options n y.
Proof.
  intros (Hlim & es & Hlen & Hrun). exists (N.of_nat (length es)). split; [done|].
  apply (run_sys_inv options 0 es initial_sys y); [done|lia|apply initial_sched_inv|done].
Qed.

(** A request waiting in a queue. *)
Definition waits (y : sys) (tid : N) (tk : QueuedSchedulerTicket) (ph : GenerationPhase) : Prop :=
  ∃ old st, tasks y !! tid = Some (Queued old tk ph st).

Lemma waits_in_queue options n y tid tk ph :
  sched_inv options n y → waits y tid tk ph →
  ticket_id tk ∈ queue (ticket_class tk) (sched y).
Proof.
  intros Hi (old & st & Ht). apply (si_queue _ _ _ Hi). by exists tid, (Queued old tk ph st).
Qed.

Lemma in_queue_waits options n y c id :
  sched_inv options n y → id ∈ queue c (sched y) →
  ∃ tid tk ph, waits y tid tk ph ∧ ticket_class tk = c ∧ ticket_id tk = id.
Proof.
  intros Hi Hid. apply (si_queue _ _ _ Hi) in Hid as (tid & t & Ht & Htk).
  destruct t as [| |old tk ph st| | | | | |]; try done. injection Htk as <- <-.
  exists tid, tk, ph. split; [by exists old, st|done].
Qed.

(** C8: in every interleaving, the active counters are exactly the permits in
    use by phase and never exceed the concurrency limit, the queues are exactly
    the waiting tickets, each once and oldest first, within the queue limit, and
    the outcome counters are exactly the requests that ended with that outcome,
    so no request is ever counted in two of them. *)
Theorem scheduler_accounting options y :
  reachable options y →
  (∀ ph, active_count ph (sched y) = N.of_nat (count_if (active_in ph) (tasks y)))
  ∧ active_prefill (sched y) + active_decode (sched y) ≤ concurrency_limit options
  ∧ (∀ c, StronglySorted N.lt (queue c (sched y)))
  ∧ (∀ c id, id ∈ queue c (sched y) ↔
       ∃ tid tk ph, waits y tid tk ph ∧ ticket_class tk = c ∧ ticket_id tk = id)
  ∧ queued_total (sched y) ≤ queue_limit options
  ∧ (∀ o, outcome_count o (sched y) = N.of_nat (count_if (counted_as o) (tasks y))).
Proof.
  intros Hr. destruct (reachable_sched_inv _ _ Hr) as (n & _ & Hi).
  split_and!; [apply Hi|apply Hi|apply Hi| |apply Hi|apply Hi].
  intros c id. split; [by eapply in_queue_waits|].
  intros (tid & tk & ph & Hw & <- & <-). by eapply waits_in_queue.
Qed.

(** ** Admission *)
Lemma next_class_front burst s :
  0 < queued_total s →
  ∃ c id l, next_admissible_class burst s = Some c ∧ queue c s = id :: l.
Proof.
  unfold queued_total, next_admissible_class. intros Hq.
  destruct (queued_prefill s) as [|x l] eqn:Hp, (queued_decode s) as [|y k] eqn:Hd; simpl in Hq; [lia|..].
  - exists ClassDecode, y, k. done.
  - exists ClassPrefill, x, l. done.
  - destruct (burst <=? _); [|destruct (y <? x)];
      [exists ClassDecode, y, k|exists ClassDecode, y, k|exists ClassPrefill, x, l]; done.
Qed.

Definition admissible (options : ModelSchedulerOptions) (tk : QueuedSchedulerTicket)
    (ph : GenerationPhase) (s : State) : Prop :=
  is_Some (try_admit_queued options (ticket_id tk) (ticket_class tk) ph s).1.

Lemma admissible_iff options tk ph s :
  admissible options tk ph s ↔
  active_total s < concurrency_limit options
  ∧ next_admissible_class (prefill_burst options) s = Some (ticket_class tk)
  ∧ head (queue (ticket_class tk) s) = Some (ticket_id tk).
Proof.
  unfold admissible, try_admit_queued.
  destruct (N.leb_spec (concurrency_limit options) (active_total s)).
  { split; [by intros [? ?]|]. intros [? _]. lia. }
  destruct (next_admissible_class (prefill_burst options) s) as [c|].
  2: { split; [by intros [? ?]|]. by intros (_ & ? & _). }
  case_bool_decide as Hc; simpl; [|split; [by intros [? ?]|by intros (_ & [= ?] & _)]].
  case_bool_decide as Hh; simpl; [|split; [by intros [? ?]|by intros (_ & _ & ?)]].
  subst. split; [done|]. by eexists.
Qed.

(** C33: whenever a slot is free and requests are waiting, exactly one waiting
    request would be admitted if it looked, and it is the one that has waited
    longest in its class. *)
Theorem admission_unique_oldest options y :
  reachable options y →
  active_total (sched y) < concurrency_limit options → 0 < queued_total (sched y) →
  ∃ tid tk ph, waits y tid tk ph ∧ admissible options tk ph (sched y)
  ∧ (∀ tid' tk' ph', waits y tid' tk' ph' → admissible options tk' ph' (sched y) → tid' = tid)
  ∧ (∀ tid' tk' ph', waits y tid' tk' ph' → ticket_class tk' = ticket_class tk →
       ticket_id tk ≤ ticket_id tk').
Proof.
  intros Hr Hfree Hq. destruct (reachable_sched_inv _ _ Hr) as (n & _ & Hi).
  destruct (next_class_front (prefill_burst options) _ Hq) as (c & id & l & Hc & Hql).
  destruct (in_queue_waits _ _ _ c id Hi) as (tid & tk & ph & Hw & Htc & Hti); [rewrite Hql; set_solver|].
  exists tid, tk, ph. split; [done|]. split; [|split].
  - apply admissible_iff. by rewrite Htc, Hti, Hql.
  - intros tid' tk' ph' Hw' (_ & Hc' & Hh')%admissible_iff.
    rewrite Hc in Hc'. injection Hc' as Hc'. rewrite <- Hc', Hql in Hh'. injection Hh' as Hid.
    destruct Hw as (old & st & Ht), Hw' as (old' & st' & Ht').
    eapply (si_unique _ _ _ Hi tid' tid _ _ (ticket_class tk') c id); [exact Ht'|exact Ht|..]; simpl; congruence.
  - intros tid' tk' ph' Hw' Hcc. pose proof (waits_in_queue _ _ _ _ _ _ Hi Hw') as Hin.
    pose proof (si_sorted _ _ _ Hi c) as Hs. rewrite Hcc, Htc, Hql in Hin. rewrite Hql in Hs.
    apply StronglySorted_inv in Hs as [_ Hall]. rewrite Forall_forall in Hall.
    rewrite Hti. apply elem_of_cons in Hin as [->|Hin]; [done|]. specialize (Hall _ Hin). lia.
Qed.

(** ** Decode starvation *)

(** What a task step does to the admission counters. *)
Definition admission_effect (burst : N) (s s' : State) : Prop :=
  (admitted_prefill s' = admitted_prefill s ∧ admitted_decode s' = admitted_decode s
   ∧ prefill_admissions_since_decode s' = prefill_admissions_since_decode s)
  ∨ (admitted_prefill s' = incr (admitted_prefill s) ∧ admitted_decode s' = admitted_decode s
     ∧ prefill_admissions_since_decode s' = incr (prefill_admissions_since_decode s)
     ∧ (queued_decode s ≠ [] → prefill_admissions_since_decode s < burst))
  ∨ (admitted_prefill s' = admitted_prefill s ∧ admitted_decode s' = incr (admitted_decode s)
     ∧ prefill_admissions_since_decode s' = 0).

Lemma admission_same burst s s' :
  admitted_prefill s' = admitted_prefill s → admitted_decode s' = admitted_decode s →
  prefill_admissions_since_decode s' = prefill_admissions_since_decode s →
  admission_effect burst s s'.
Proof. intros. by left. Qed.

Lemma start_active_admission burst class ph s :
  (class = ClassPrefill → queued_decode s ≠ [] → prefill_admissions_since_decode s < burst) →
  ∀ s1, admitted_prefill s1 = admitted_prefill s → admitted_decode s1 = admitted_decode s →
  prefill_admissions_since_decode s1 = prefill_admissions_since_decode s →
  admission_effect burst s (start_active class ph s1).
Proof.
  intros Hc s1 H1 H2 H3. destruct class; [right; left|right; right];
    destruct ph; simpl; rewrite ?H1, ?H2, ?H3; split_and!; auto.
Qed.

Lemma next_class_prefill burst s :
  next_admissible_class burst s = Some ClassPrefill → queued_decode s ≠ [] →
  prefill_admissions_since_decode s < burst.
Proof.
  unfold next_admissible_class. destruct (queued_prefill s), (queued_decode s); try done.
  destruct (N.leb_spec burst (prefill_admissions_since_decode s)); done.
Qed.

Lemma drop_permit_admission burst p s : admission_effect burst s (drop_permit p s).2.
Proof.
  unfold drop_permit. destruct (terminal_on_drop p), (permit_active p), (permit_phase p), (permit_outcome p);
    by apply admission_same.
Qed.

Lemma drop_ticket_admission burst b tk s : admission_effect burst s (drop_ticket b tk s).
Proof.
  unfold drop_ticket. destruct (remove_first _ _); [|by apply admission_same].
  destruct b, (ticket_class tk); by apply admission_same.
Qed.

Lemma run_task_admission options ev t s t' s' n :
  run_task options ev t s = Some (t', s', n) → admission_effect (prefill_burst options) s s'.
Proof.
  intros Hrun.
  destruct t as [old class ph|old class ph|old tk ph st|old starved p|r p|old p|p|counted p|counted].
  - destruct ev; try done. simpl in Hrun. destruct token_cancelled; [by simplify_eq; apply admission_same|].
    unfold try_acquire_immediate in Hrun.
    destruct (_ <=? active_total s); simpl in Hrun; [by simplify_eq; apply admission_same|].
    destruct (N.ltb_spec 0 (queued_total s)) as [|Hz]; simplify_eq; [by apply admission_same|].
    apply start_active_admission; [|done..]. intros _ Hd. unfold queued_total in Hz.
    destruct (queued_decode s); simpl in Hz; [done|lia].
  - destruct ev; try done. simpl in Hrun. unfold enqueue in Hrun.
    destruct (_ <=? _); [by simplify_eq; apply admission_same|]. simplify_eq.
    destruct class, (has_prefill_pressure s); by apply admission_same.
  - destruct st as [|w|w]; simpl in Hrun.
    + destruct ev; try done. destruct token_cancelled; simplify_eq; [apply drop_ticket_admission|by apply admission_same].
    + destruct ev; try done. unfold try_admit_queued in Hrun.
      destruct (_ <=? _); [by simplify_eq; apply admission_same|].
      destruct (next_admissible_class _ s) as [c|] eqn:Hc; [|by simplify_eq; apply admission_same].
      case_bool_decide as Hcc; [|by simplify_eq/=; apply admission_same]. subst c.
      case_bool_decide; [|by simplify_eq/=; apply admission_same]. simpl in Hrun. simplify_eq.
      apply start_active_admission; [|by destruct (ticket_class tk)..].
      intros Hp. rewrite Hp in Hc. by apply next_class_prefill.
    + destruct w, ev; try done; try (destruct (queue_timeout options); [|done]); simplify_eq;
        first [apply drop_ticket_admission|by apply admission_same].
  - destruct ev; try done. simpl in Hrun.
    destruct token_cancelled, starved; simplify_eq; by apply admission_same.
  - destruct ev; try done. unfold run_task, record_prefill_yield_success in Hrun. simplify_eq.
    destruct (r <? _); by apply admission_same.
  - destruct ev; try done. simpl in Hrun. pose proof (drop_permit_admission (prefill_burst options) p s) as Hd.
    destruct (drop_permit p s). simplify_eq. done.
  - destruct ev; try done; simpl in Hrun; try (by simplify_eq; apply admission_same).
    + unfold transition_to_decode in Hrun. destruct (_ || _); simplify_eq; by apply admission_same.
    + destruct (_ || _); [by simplify_eq; apply admission_same|].
      destruct token_cancelled; simplify_eq; by apply admission_same.
  - destruct ev; try done. simpl in Hrun. pose proof (drop_permit_admission (prefill_burst options) p s) as Hd.
    destruct (drop_permit p s). simplify_eq. done.
  - by destruct ev.
Qed.

Lemma sys_step_admission options e y y' :
  sys_step options e y = Some y' → admission_effect (prefill_burst options) (sched y) (sched y').
Proof.
  destruct e as [tid c ph|tid ev]; simpl.
  - destruct (tasks y !! tid); [done|]. intros [= <-]. by apply admission_same.
  - destruct (tasks y !! tid) as [t|]; simpl; [|done].
    destruct (run_task options ev t (sched y)) as [[[t' s'] n]|] eqn:Hrun; simpl; [|done].
    intros [= <-]. by eapply run_task_admission.
Qed.

(** A run during which the decode queue is never empty. *)
Fixpoint run_while_decode_waits (options : ModelSchedulerOptions) (es : list sys_event) (y : sys)
    : option sys :=
  match es with
  | [] => Some y
  | e :: es =>
      if bool_decide (queued_decode (sched y) = []) then None
      else y' ← sys_step options e y; run_while_decode_waits options es y'
  end.

(** The admission counters after [n] steps. *)
Definition admissions_le (n : N) (s : State) : Prop :=
  admitted_prefill s ≤ n ∧ admitted_decode s ≤ n ∧ prefill_admissions_since_decode s ≤ n.

Lemma admission_effect_le burst n s s' :
  admission_effect burst s s' → n < u64_max → admissions_le n s → admissions_le (n + 1) s'.
Proof.
  unfold admission_effect, admissions_le. intros He Hn (H1 & H2 & H3).
  destruct He as [(-> & -> & ->)|[(-> & -> & -> & _)|(-> & -> & ->)]];
    rewrite ?incr_small by lia; lia.
Qed.

Lemma run_sys_admissions options es n y y' :
  run_sys options es y = Some y' → n + N.of_nat (length es) < u64_max →
  admissions_le n (sched y) → admissions_le (n + N.of_nat (length es)) (sched y').
Proof.
  revert n y. induction es as [|e es IH]; intros n y Hrun Hn Ha.
  - injection Hrun as <-. by rewrite N.add_0_r.
  - rewrite run_sys_cons in Hrun. destruct (sys_step options e y) as [y1|] eqn:Hs; simpl in Hrun; [|done].
    simpl in Hn |- *. replace (n + N.of_nat (S (length es))) with (n + 1 + N.of_nat (length es)) by lia.
    apply IH with y1; [done|lia|]. eapply admission_effect_le; [by eapply sys_step_admission|lia|done].
Qed.

Lemma decode_wait_bound options es n y y' :
  n + N.of_nat (length es) < u64_max → admissions_le n (sched y) →
  run_while_decode_waits options es y = Some y' →
  admitted_decode (sched y) ≤ admitted_decode (sched y')
  ∧ (admitted_decode (sched y') = admitted_decode (sched y) →
     admitted_prefill (sched y') ≤ admitted_prefill (sched y)
       + (prefill_burst options - prefill_admissions_since_decode (sched y))).
Proof.
  revert n y. induction es as [|e es IH]; intros n y Hn Ha Hrun; simpl in Hrun.
  - injection Hrun as <-. split; lia.
  - case_bool_decide as Hd; [done|]. destruct (sys_step options e y) as [y1|] eqn:Hs; simpl in Hrun; [|done].
    pose proof (sys_step_admission _ _ _ _ Hs) as He. simpl in Hn.
    destruct (IH (n + 1) y1 ltac:(lia) (admission_effect_le _ n _ _ He ltac:(lia) Ha) Hrun) as [Hmono Hbound].
    destruct Ha as (H1 & H2 & H3).
    clear IH Hrun Hs.
    destruct He as [(E1 & E2 & E3)|[(E1 & E2 & E3 & E4)|(E1 & E2 & E3)]].
    + split; [lia|]. intros Heq. specialize (Hbound ltac:(lia)). lia.
    + rewrite incr_small in E1, E3 by lia. specialize (E4 Hd).
      split; [lia|]. intros Heq. specialize (Hbound ltac:(lia)). lia.
    + rewrite incr_small in E2 by lia. split; [lia|]. intros Heq. lia.
Qed.

(** C38: while decode requests wait and none of them is admitted, at most
    [prefill_burst] prefill requests are. *)
Theorem decode_starvation_bounded options es1 es2 y y' :
  N.of_nat (length es1 + length es2) < u64_max →
  run_sys options es1 initial_sys = Some y →
  run_while_decode_waits options es2 y = Some y' →
  admitted_decode (sched y') = admitted_decode (sched y) →
  admitted_prefill (sched y') ≤ admitted_prefill (sched y) + prefill_burst options.
Proof.
  intros Hlen Hrun Hwait Heq.
  assert (admissions_le (0 + N.of_nat (length es1)) (sched y)) as Ha.
  { apply (run_sys_admissions options es1 0 initial_sys); [done|lia|]. unfold admissions_le. simpl. lia. }
  destruct (decode_wait_bound options es2 (0 + N.of_nat (length es1)) y y' ltac:(lia) Ha Hwait) as [_ Hb].
  specialize (Hb Heq). lia.
Qed.

(** ** Wake-ups *)

(** Two slots; requests 1 and 2 hold them, 3 and 4 queue behind. *)
Definition demo_options : ModelSchedulerOptions := MkOptions 2 8 None 16 2.

Definition proceed (tid : N) (n : nat) : list sys_event := replicate n (On tid (Proceed false 0)).

Definition demo_queued : list sys_event :=
  [Spawn 1 ClassDecode PhaseDecode; Spawn 2 ClassDecode PhaseDecode;
   Spawn 3 ClassDecode PhaseDecode; Spawn 4 ClassDecode PhaseDecode]
  ++ proceed 1 2 ++ proceed 2 2 ++ proceed 3 4 ++ proceed 4 4 ++ proceed 3 3.

(** Both holders finish before either waiter runs; request 4 looks first, is not
    at the front and goes back to sleep; request 3 is admitted. *)
Definition demo_missed : list sys_event :=
  demo_queued ++ [On 1 DropPermit; On 2 DropPermit] ++ proceed 1 1 ++ proceed 2 1
  ++ proceed 4 3 ++ proceed 3 4.

(** [try_admit_queued] frees the front of the queue without notifying the
    waiters, so a wake-up can be missed: here the last waiting request sleeps on
    an uncompleted [Notified] although a slot is free and it is the one request
    that would be admitted; none of its own steps is enabled, and only an
    unrelated event (another request arriving, finishing or being cancelled)
    can start it. *)
Theorem missed_wakeup_reachable :
  ∃ y tk ph,
    run_sys demo_options demo_missed initial_sys = Some y
    ∧ tasks y !! 4 = Some (Queued None tk ph (Sleeping false))
    ∧ active_total (sched y) < concurrency_limit demo_options
    ∧ admissible demo_options tk ph (sched y)
    ∧ (∀ c w, sys_step demo_options (On 4 (Proceed c w)) y = None)
    ∧ sys_step demo_options (On 4 DeadlineReached) y = None.
Proof.
  destruct (run_sys demo_options demo_missed initial_sys) as [y|] eqn:Hy; [|vm_compute in Hy; discriminate].
  vm_compute in Hy. injection Hy as <-.
  eexists _, (MkTicket 2 ClassDecode false), PhaseDecode.
  split; [reflexivity|]. split; [reflexivity|]. split; [reflexivity|].
  split; [by eexists|]. split; [|reflexivity]. intros c w. reflexivity.
Qed.

Lemma demo_queued_reachable :
  ∃ y, run_sys demo_options demo_queued initial_sys = Some y ∧ reachable demo_options y
    ∧ queued_decode (sched y) = [1; 2].
Proof.
  destruct (run_sys demo_options demo_queued initial_sys) as [y|] eqn:Hy; [|vm_compute in Hy; discriminate].
  exists y. split; [done|]. split.
  - split; [vm_compute; discriminate|]. exists demo_queued. split; [reflexivity|done].
  - vm_compute in Hy. injection Hy as <-. reflexivity.
Qed.

Lemma scheduler_accounting_witness :
  ∃ y, run_sys demo_options demo_queued initial_sys = Some y
    ∧ queued_total (sched y) = 2 ∧ queued_total (sched y) ≤ queue_limit demo_options.
Proof.
  destruct demo_queued_reachable as (y & Hy & Hr & Hq). exists y.
  destruct (scheduler_accounting demo_options y Hr) as (_ & _ & _ & _ & Hlim & _).
  split; [exact Hy|]. split; [|exact Hlim].
  vm_compute in Hy. injection Hy as <-. reflexivity.
Defined.

(** One holder has gone: a slot is free and two requests wait. *)
Definition demo_freed : list sys_event := demo_queued ++ [On 1 DropPermit] ++ proceed 1 1.

Lemma admission_unique_oldest_witness :
  ∃ y tid tk ph, run_sys demo_options demo_freed initial_sys = Some y
    ∧ waits y tid tk ph ∧ admissible demo_options tk ph (sched y).
Proof.
  destruct (run_sys demo_options demo_freed initial_sys) as [y|] eqn:Hy; [|vm_compute in Hy; discriminate].
  assert (reachable demo_options y) as Hr.
  { split; [vm_compute; discriminate|]. exists demo_freed. split; [reflexivity|exact Hy]. }
  assert (active_total (sched y) < concurrency_limit demo_options ∧ 0 < queued_total (sched y)) as [Hf Hq].
  { vm_compute in Hy. injection Hy as <-. split; reflexivity. }
  destruct (admission_unique_oldest demo_options y Hr Hf Hq) as (tid & tk & ph & Hw & Ha & _).
  exists y, tid, tk, ph. split; [reflexivity|]. split; [exact Hw|exact Ha].
Defined.

(** A burst of two prefill admissions past a waiting decode request. *)
Definition demo_burst_options : ModelSchedulerOptions := MkOptions 1 8 None 16 2.
Definition demo_burst_before : list sys_event :=
  [Spawn 1 ClassPrefill PhasePrefill; Spawn 2 ClassPrefill PhasePrefill; Spawn 3 ClassDecode PhaseDecode]
  ++ proceed 1 2 ++ proceed 2 4 ++ proceed 3 4 ++ proceed 2 3.
Definition demo_burst_during : list sys_event :=
  [On 1 DropPermit] ++ proceed 1 1 ++ proceed 3 3 ++ proceed 2 4.

Lemma decode_starvation_bounded_witness :
  ∃ y y', run_sys demo_burst_options demo_burst_before initial_sys = Some y
    ∧ run_while_decode_waits demo_burst_options demo_burst_during y = Some y'
    ∧ admitted_prefill (sched y) = 1 ∧ admitted_prefill (sched y') = 2
    ∧ admitted_prefill (sched y') ≤ admitted_prefill (sched y) + 2.
Proof.
  destruct (run_sys demo_burst_options demo_burst_before initial_sys) as [y|] eqn:Hy; [|vm_compute in Hy; discriminate].
  destruct (run_while_decode_waits demo_burst_options demo_burst_during y) as [y'|] eqn:Hy'.
  - exists y, y'. split; [reflexivity|]. split; [exact Hy'|].
    assert (admitted_prefill (sched y) = 1 ∧ admitted_prefill (sched y') = 2
      ∧ admitted_decode (sched y') = admitted_decode (sched y)) as (H1 & H2 & H3).
    { vm_compute in Hy. injection Hy as <-. vm_compute in Hy'. injection Hy' as <-. done. }
    split; [exact H1|]. split; [exact H2|].
    exact (decode_starvation_bounded demo_burst_options demo_burst_before demo_burst_during y y'
      eq_refl Hy Hy' H3).
  - exfalso. vm_compute in Hy. injection Hy as <-. vm_compute in Hy'. discriminate.
Defined.

(** ** Phase gauges *)
Module PhaseGauges.
Import GenerationPhaseMetrics.

Definition gauge (ph : GenerationPhase) (m : t) : N :=
  match ph with PhasePrefill => prefill_requests m | PhaseDecode => decode_requests m end.

Definition in_phase (ph g : GenerationPhase) : bool := bool_decide (g = ph).

Lemma wrap_sub_incr n : 0 < n → n ≤ u64_max → wrap_sub n 1 = n - 1.
Proof. intros. apply wrap_sub_small; lia. Qed.

Lemma apply_call_gauges c gs m n :
  N.of_nat (size gs) ≤ n → n < u64_max →
  (∀ ph, gauge ph m = N.of_nat (count_if (in_phase ph) gs)) →
  let '(gs', m') := apply_call c (gs, m) in
  N.of_nat (size gs') ≤ n + 1 ∧ ∀ ph, gauge ph m' = N.of_nat (count_if (in_phase ph) gs').
Proof.
  intros Hsz Hn Hg.
  assert (∀ ph, N.of_nat (count_if (in_phase ph) gs) ≤ n) as Hle.
  { intros ph. pose proof (count_if_le (in_phase ph) gs). lia. }
  pose proof (Hg PhasePrefill) as HP. pose proof (Hg PhaseDecode) as HD.
  pose proof (Hle PhasePrefill) as LP. pose proof (Hle PhaseDecode) as LD. simpl in HP, HD.
  destruct c as [g ph|g|g]; simpl.
  - destruct (gs !! g) eqn:Hl; [by split; [lia|]|]. split; [rewrite map_size_insert_None by done; lia|].
    intros ph'. rewrite count_if_insert_fresh by done.
    destruct ph, ph'; simpl; rewrite ?wrap_add_small by lia; lia.
  - destruct (gs !! g) as [ph|] eqn:Hl; [|by split; [lia|]].
    pose proof (count_if_insert (in_phase PhasePrefill) gs g ph PhaseDecode Hl) as IP.
    pose proof (count_if_insert (in_phase PhaseDecode) gs g ph PhaseDecode Hl) as ID.
    unfold guard_transition_to_decode. destruct ph; simpl.
    + simpl in IP, ID. split; [rewrite map_size_insert, Hl; simpl; lia|].
      intros []; simpl; rewrite ?wrap_sub_incr, ?wrap_add_small by lia; lia.
    + simpl in IP, ID. split; [rewrite map_size_insert, Hl; simpl; lia|]. intros []; simpl; lia.
  - destruct (gs !! g) as [ph|] eqn:Hl; [|by split; [lia|]].
    assert (∀ ph', count_if (in_phase ph') gs
      = (Nat.b2n (in_phase ph' ph) + count_if (in_phase ph') (delete g gs))%nat) as Hdel.
    { intros ph'. rewrite <- count_if_insert_fresh with (k := g) by apply lookup_delete_eq.
      by rewrite insert_delete_id. }
    pose proof (Hdel PhasePrefill) as IP. pose proof (Hdel PhaseDecode) as ID.
    split; [rewrite map_size_delete, Hl; simpl; lia|].
    destruct ph; intros []; simpl in *; rewrite ?wrap_sub_incr by lia; lia.
Qed.

(** After any sequence of guards beginning, moving to decode and being
    dropped, the two gauges are the numbers of live guards in each phase. *)
Theorem phase_gauges_exact cs :
  N.of_nat (length cs) < u64_max →
  let '(gs, m) := run cs in ∀ ph, gauge ph m = N.of_nat (count_if (in_phase ph) gs).
Proof.
  intros Hlen.
  assert (let '(gs, m) := run cs in
    N.of_nat (size gs) ≤ N.of_nat (length cs)
    ∧ ∀ ph, gauge ph m = N.of_nat (count_if (in_phase ph) gs)) as H; [|by destruct (run cs), H].
  unfold run. induction cs as [|c cs IH] using rev_ind.
  - simpl. split; [done|]. intros []; by rewrite count_if_empty.
  - rewrite length_app in *. simpl in Hlen. rewrite foldl_snoc.
    specialize (IH ltac:(lia)). destruct (foldl _ _ cs) as [gs m]. destruct IH as [Hsz Hg].
    pose proof (apply_call_gauges c gs m _ Hsz ltac:(lia) Hg) as Hc.
    destruct (apply_call c (gs, m)) as [gs' m']. destruct Hc as [? ?]. split; [simpl; lia|done].
Qed.

Lemma phase_gauges_exact_witness :
  gauge PhaseDecode (run [Begin 1 PhasePrefill; Begin 2 PhasePrefill; Transition 1; DropGuard 2]).2 = 1.
Proof.
  pose proof (phase_gauges_exact [Begin 1 PhasePrefill; Begin 2 PhasePrefill; Transition 1; DropGuard 2]
    eq_refl) as H.
  destruct (run _) as [gs m] eqn:E. transitivity (N.of_nat (count_if (in_phase PhaseDecode) gs)); [exact (H PhaseDecode)|]. vm_compute in E. injection E as <- _. reflexivity.
Defined.
End PhaseGauges.
