(* ===== verification/RateLimit.v ===== *)
(** * The per-client request limiter

    Models [crates/llm-server/src/engine/rate_limit.rs]: a sliding-window log
    per client under one mutex, with a periodic sweep of idle clients, and the
    whole-second rounding of [router.rs].  An [Instant] is a number of
    nanoseconds since boot, a [Duration] a number of nanoseconds. *)
From Stdlib Require Import Sorted.
From stdpp Require Import base gmap sets numbers list.
From S2P Require Import Prelude.
Open Scope N_scope.
Open Scope record_scope.

(** ** Time *)
Definition nanos_per_sec : N := 1000000000.
Definition duration_max : N := u64_max * nanos_per_sec + 999999999.
Definition instant_max : N := 9223372036854775807 * nanos_per_sec + 999999999.

Definition duration_checked_mul (d k : N) : option N :=
  if d * k <=? duration_max then Some (d * k) else None.
Definition duration_checked_sub (a b : N) : option N :=
  if b <=? a then Some (a - b) else None.
Definition saturating_duration_since (now earlier : N) : N := now - earlier.

Definition next_cleanup_after (now interval : N) : N :=
  if now + interval <=? instant_max then now + interval else now.

(** [ceil_duration_seconds] and the header value of [router.rs]. *)
Definition ceil_duration_seconds (d : N) : N :=
  let secs := d / nanos_per_sec in
  if 0 <? d mod nanos_per_sec then sat_add secs 1 else secs.
Definition retry_after_seconds (d : N) : N := N.max (ceil_duration_seconds d) 1.

(** ** Data *)
Definition PublicInferenceClientKey : Type := list N.
#[export] Instance client_key_eq_dec : EqDecision PublicInferenceClientKey := list_eq_dec.
#[export] Instance client_key_countable : Countable PublicInferenceClientKey := list_countable.

(** ["anonymous"] *)
Definition anonymous : PublicInferenceClientKey := [97; 110; 111; 110; 121; 109; 111; 117; 115].
Definition client_key_new (value : list N) : PublicInferenceClientKey :=
  if forallb char_is_whitespace value then anonymous else value.

Record ClientRequestLog := MkLog { accepted_at : list N; last_seen : N }.
Record RateLimitState := MkState {
  buckets : gmap PublicInferenceClientKey ClientRequestLog;
  next_cleanup_at : N;
}.
Record RateLimitSnapshot := MkSnapshot {
  limit_requests : N;
  remaining_requests : N;
  reset_after : N;
}.
Record RateLimitRejection := MkRejection { retry_after : N; snapshot : RateLimitSnapshot }.

Record limiter := MkLimiter {
  max_requests : N;
  window : N;
  ttl : N;
  cleanup_interval : N;
}.

(** ** Operations *)
Definition log_new (now : N) : ClientRequestLog := MkLog [] now.

Fixpoint prune_front (now window : N) (l : list N) : list N :=
  match l with
  | t :: l' => if window <=? saturating_duration_since now t then prune_front now window l' else l
  | [] => []
  end.
Definition prune (now window : N) (b : ClientRequestLog) : ClientRequestLog :=
  MkLog (prune_front now window (accepted_at b)) (last_seen b).

Definition log_reset_after (now window : N) (b : ClientRequestLog) : N :=
  default 0 (t ← head (accepted_at b); duration_checked_sub window (saturating_duration_since now t)).

Definition is_expired (now ttl : N) (b : ClientRequestLog) : bool :=
  bool_decide (accepted_at b = []) && (ttl <=? saturating_duration_since now (last_seen b)).

(** [PublicInferenceRateLimiter::new_with_started_at] on the two options. *)
Definition limiter_new (max window started_at : N) : limiter * RateLimitState :=
  let window := if window =? 0 then nanos_per_sec else window in
  let ttl := default window (duration_checked_mul window 2) in
  (MkLimiter (N.max max 1) window ttl window,
   MkState ∅ (next_cleanup_after started_at window)).

Section limiter.
Context (lim : limiter).

Definition log_snapshot (now : N) (b : ClientRequestLog) : RateLimitSnapshot :=
  MkSnapshot (max_requests lim) (sat_sub (max_requests lim) (N.of_nat (length (accepted_at b))))
    (log_reset_after now (window lim) b).

Definition cleanup_expired_buckets (now : N) (s : RateLimitState) : RateLimitState :=
  if now <? next_cleanup_at s then s
  else MkState
    (filter (λ kv, is_expired now (ttl lim) kv.2 = false) (prune now (window lim) <$> buckets s))
    (next_cleanup_after now (cleanup_interval lim)).

Definition acquire_at (key : PublicInferenceClientKey) (now : N) (s : RateLimitState)
    : outcome RateLimitRejection RateLimitSnapshot * RateLimitState :=
  let s := cleanup_expired_buckets now s in
  let bucket := default (log_new now) (buckets s !! key) in
  let bucket := prune now (window lim) (MkLog (accepted_at bucket) now) in
  if N.of_nat (length (accepted_at bucket)) <? max_requests lim
  then
    let bucket := MkLog (accepted_at bucket ++ [now]) (last_seen bucket) in
    (Ok (log_snapshot now bucket), MkState (<[key := bucket]> (buckets s)) (next_cleanup_at s))
  else
    (Err (MkRejection (log_reset_after now (window lim) bucket) (log_snapshot now bucket)),
     MkState (<[key := bucket]> (buckets s)) (next_cleanup_at s)).
End limiter.

(** ** The specification: one log of every request ever accepted *)
Abbreviation history := (list (PublicInferenceClientKey * N)) (only parsing).

Definition times (h : history) (key : PublicInferenceClientKey) : list N :=
  (filter (λ e, e.1 = key) h).*2.
(** The requests of a client accepted less than a window ago, oldest first. *)
Definition in_window (window now : N) (h : history) (key : PublicInferenceClientKey) : list N :=
  filter (λ t, now - t < window) (times h key).

Definition spec_acquire (lim : limiter) (key : PublicInferenceClientKey) (now : N) (h : history)
    : outcome RateLimitRejection RateLimitSnapshot * history :=
  let recent := in_window (window lim) now h key in
  let snap l := MkSnapshot (max_requests lim) (max_requests lim - N.of_nat (length l))
                  (default 0 (t ← head l; Some (window lim - (now - t)))) in
  if N.of_nat (length recent) <? max_requests lim
  then (Ok (snap (recent ++ [now])), h ++ [(key, now)])
  else (Err (MkRejection (reset_after (snap recent)) (snap recent)), h).

Fixpoint run_limiter (lim : limiter) (calls : list (PublicInferenceClientKey * N))
    (s : RateLimitState) : list (outcome RateLimitRejection RateLimitSnapshot) * RateLimitState :=
  match calls with
  | [] => ([], s)
  | (key, now) :: calls =>
      let '(r, s) := acquire_at lim key now s in
      let '(rs, s) := run_limiter lim calls s in (r :: rs, s)
  end.

Fixpoint run_spec (lim : limiter) (calls : list (PublicInferenceClientKey * N)) (h : history)
    : list (outcome RateLimitRejection RateLimitSnapshot) * history :=
  match calls with
  | [] => ([], h)
  | (key, now) :: calls =>
      let '(r, h) := spec_acquire lim key now h in
      let '(rs, h) := run_spec lim calls h in (r :: rs, h)
  end.

(** ** Pruning keeps exactly the window *)
Lemma prune_front_filter now w l :
  0 < w → StronglySorted N.le l → prune_front now w l = filter (λ t, now - t < w) l.
Proof.
  intros Hw. induction 1 as [|t l Hl IH Ht]; [done|]. simpl. unfold saturating_duration_since.
  rewrite filter_cons. destruct (N.leb_spec w (now - t)) as [Hge|Hlt].
  - rewrite decide_False by lia. exact IH.
  - rewrite decide_True by lia. f_equal. symmetry. clear IH Hl.
    induction Ht as [|u l Hu _ IH]; [done|]. rewrite filter_cons, decide_True by lia. by f_equal.
Qed.

Lemma filter_later now now' w (l : list N) :
  now ≤ now' → filter (λ t, now' - t < w) (filter (λ t, now - t < w) l) = filter (λ t, now' - t < w) l.
Proof.
  intros Hle. rewrite list_filter_filter. apply list_filter_iff. intros t. lia.
Qed.

Definition log_of (s : RateLimitState) (key : PublicInferenceClientKey) : list N :=
  match buckets s !! key with Some b => accepted_at b | None => [] end.

(** The simulation: up to the window, a client's log is its accepted requests;
    what was dropped left the window by the time [last] of the latest call. *)
Record simulates (lim : limiter) (s : RateLimitState) (h : history) (last : N) : Prop := {
  sim_sorted : ∀ key, StronglySorted N.le (times h key) ∧ StronglySorted N.le (log_of s key);
  sim_past : ∀ key t, t ∈ times h key → t ≤ last;
  sim_window : ∀ key now, last ≤ now →
    filter (λ t, now - t < window lim) (log_of s key) = in_window (window lim) now h key;
}.

Lemma StronglySorted_filter {A} (R : A → A → Prop) (P : A → Prop) `{!∀ x, Decision (P x)} l :
  StronglySorted R l → StronglySorted R (filter P l).
Proof.
  induction 1 as [|x l Hl IH Hx]; [constructor|]. rewrite filter_cons. case_decide; [|done].
  constructor; [done|]. rewrite Forall_forall in Hx |- *. intros y Hy.
  apply Hx. by apply list_elem_of_filter in Hy as [_ ?].
Qed.

Lemma StronglySorted_snoc_le (l : list N) x :
  StronglySorted N.le l → (∀ y, y ∈ l → y ≤ x) → StronglySorted N.le (l ++ [x]).
Proof.
  induction 1 as [|y l Hl IH Hy]; intros Hx; simpl; [repeat constructor|].
  constructor; [apply IH; set_solver|]. rewrite Forall_app. split; [done|].
  repeat constructor. apply Hx. set_solver.
Qed.

Lemma cleanup_simulates lim s h last now :
  0 < window lim → simulates lim s h last → last ≤ now →
  simulates lim (cleanup_expired_buckets lim now s) h now.
Proof.
  intros Hw [Hs Hp Hwin] Hle. unfold cleanup_expired_buckets.
  destruct (N.ltb_spec now (next_cleanup_at s)).
  { constructor; [done|..].
    - intros key t Ht. specialize (Hp key t Ht). lia.
    - intros key now' Hle'. apply Hwin. lia. }
  set (s' := MkState _ _).
  assert (∀ key, log_of s' key = filter (λ t, now - t < window lim) (log_of s key)) as Hlog.
  { intros key. unfold log_of. simpl. rewrite map_lookup_filter, lookup_fmap.
    destruct (Hs key) as [_ Hsk]. unfold log_of in Hsk.
    destruct (buckets s !! key) as [b|]; simpl; [|done].
    pose proof (prune_front_filter now (window lim) (accepted_at b) Hw Hsk) as Hpf.
    destruct (is_expired now (ttl lim) (prune now (window lim) b)) eqn:Hex.
    - simpl. unfold is_expired in Hex. bool_to_prop. unfold prune in *. simpl in *. by rewrite <- Hpf.
    - simpl. unfold prune. simpl. by rewrite Hpf. }
  constructor.
  - intros key. rewrite Hlog. split; [apply Hs|]. apply StronglySorted_filter, Hs.
  - intros key t Ht. specialize (Hp key t Ht). lia.
  - intros key now' Hle'. rewrite Hlog, filter_later by done. apply Hwin. lia.
Qed.

Lemma times_snoc h key key' now :
  times (h ++ [(key, now)]) key' = times h key' ++ (if decide (key = key') then [now] else []).
Proof.
  unfold times. rewrite filter_app, fmap_app. f_equal. rewrite filter_cons. simpl.
  by case_decide.
Qed.

Lemma log_insert s key b n key' :
  log_of (MkState (<[key := b]> (buckets s)) n) key'
  = if decide (key = key') then accepted_at b else log_of s key'.
Proof. unfold log_of. simpl. rewrite lookup_insert. by case_decide. Qed.

Lemma acquire_simulates lim s h last key now :
  0 < window lim → 0 < max_requests lim → simulates lim s h last → last ≤ now →
  (acquire_at lim key now s).1 = (spec_acquire lim key now h).1
  ∧ simulates lim (acquire_at lim key now s).2 (spec_acquire lim key now h).2 now.
Proof.
  intros Hw Hm Hsim Hle. unfold acquire_at, spec_acquire.
  pose proof (cleanup_simulates lim s h last now Hw Hsim Hle) as [Hs Hp Hwin].
  set (s1 := cleanup_expired_buckets lim now s) in *.
  assert (accepted_at (default (log_new now) (buckets s1 !! key)) = log_of s1 key) as Hacc
    by (unfold log_of; by destruct (buckets s1 !! key)).
  unfold prune. cbn [accepted_at]. rewrite Hacc.
  rewrite prune_front_filter by (try done; by apply Hs). rewrite (Hwin key now) by lia.
  set (recent := in_window (window lim) now h key).
  assert (∀ t, t ∈ recent → now - t < window lim ∧ t ≤ now) as Hrecent.
  { intros t Ht. unfold recent, in_window in Ht. apply list_elem_of_filter in Ht as [? Ht].
    split; [done|]. by apply (Hp key). }
  assert (StronglySorted N.le recent) as Hrs by (apply StronglySorted_filter, Hs).
  assert (∀ l b, accepted_at b = l → (∀ t, t ∈ l → now - t < window lim) →
    log_reset_after now (window lim) b = default 0 (t ← head l; Some (window lim - (now - t)))) as Hreset.
  { intros l b <- Hin. unfold log_reset_after. destruct (accepted_at b) as [|t l']; [done|]. simpl.
    unfold duration_checked_sub, saturating_duration_since.
    specialize (Hin t ltac:(set_solver)). destruct (N.leb_spec (now - t) (window lim)); [done|lia]. }
  destruct (N.ltb_spec (N.of_nat (length recent)) (max_requests lim)) as [Hlt|Hge]; cbn [fst snd].
  - split.
    + f_equal. unfold log_snapshot. cbn [accepted_at]. f_equal. apply Hreset; [done|].
      intros t [Ht|Ht%list_elem_of_singleton]%elem_of_app; [by apply Hrecent|subst; lia].
    + constructor.
      * intros key'. rewrite times_snoc, log_insert. cbn [accepted_at]. case_decide as Hk.
        -- subst key'. split; apply StronglySorted_snoc_le; try done; [by apply Hs|by apply Hp|].
           intros t Ht. by apply Hrecent.
        -- rewrite app_nil_r. apply Hs.
      * intros key' t. rewrite times_snoc, elem_of_app. intros [Ht|Ht]; [by apply (Hp key')|].
        case_decide; set_solver.
      * intros key' now' Hle'. unfold in_window. rewrite times_snoc, log_insert. cbn [accepted_at].
        case_decide as Hk; [subst key'|rewrite app_nil_r; by apply Hwin].
        rewrite !filter_app. f_equal. unfold recent, in_window. by apply filter_later.
  - split.
    + f_equal. unfold log_snapshot. cbn [accepted_at reset_after].
      rewrite (Hreset recent) by (try done; intros t Ht; by apply Hrecent). done.
    + constructor.
      * intros key'. rewrite log_insert. cbn [accepted_at]. split; [apply Hs|]. case_decide; [done|apply Hs].
      * done.
      * intros key' now' Hle'. rewrite log_insert. cbn [accepted_at].
        case_decide as Hk; [subst key'|by apply Hwin]. unfold recent, in_window. by apply filter_later.
Qed.

Lemma limiter_new_params max w started :
  let '(lim, s) := limiter_new max w started in
  0 < window lim ∧ 0 < max_requests lim ∧ simulates lim s [] 0.
Proof.
  unfold limiter_new. split_and!; simpl.
  - destruct (N.eqb_spec w 0); [done|lia].
  - lia.
  - constructor.
    + intros key. unfold times, log_of. simpl. rewrite lookup_empty. split; constructor.
    + intros key t. unfold times. simpl. set_solver.
    + intros key now _. unfold log_of. simpl. by rewrite lookup_empty.
Qed.

Lemma run_limiter_spec lim calls s h last :
  0 < window lim → 0 < max_requests lim → simulates lim s h last →
  StronglySorted N.le (last :: calls.*2) →
  (run_limiter lim calls s).1 = (run_spec lim calls h).1.
Proof.
  intros Hw Hm. revert s h last. induction calls as [|[key now] calls IH]; intros s h last Hsim Hs; [done|].
  simpl in Hs. apply StronglySorted_inv in Hs as [Hs Hl]. apply Forall_cons in Hl as [Hle _].
  destruct (acquire_simulates lim s h last key now Hw Hm Hsim Hle) as [Hr Hsim'].
  simpl. destruct (acquire_at lim key now s) as [r s']. destruct (spec_acquire lim key now h) as [r' h'].
  simpl in Hr, Hsim'. subst r'. specialize (IH s' h' now Hsim' Hs).
  destruct (run_limiter lim calls s'), (run_spec lim calls h'). simpl in *. by rewrite IH.
Qed.

(** C22: for any sequence of requests in the order of their instants, the limiter
    answers exactly as the specification that remembers every accepted request:
    a request is accepted if and only if fewer than the maximum were accepted
    from its client less than a window before, and the remaining and reset
    figures are those of that set; pruning and the sweep of idle clients are
    invisible. *)
Theorem limiter_is_sliding_window max w started calls :
  StronglySorted N.le calls.*2 →
  let '(lim, s) := limiter_new max w started in
  (run_limiter lim calls s).1 = (run_spec lim calls []).1.
Proof.
  intros Hs. pose proof (limiter_new_params max w started) as Hp.
  destruct (limiter_new max w started) as [lim s]. destruct Hp as (Hw & Hm & Hsim).
  apply (run_limiter_spec lim calls s [] 0); try done. constructor; [done|].
  apply Forall_forall. intros t _. lia.
Qed.

(** Two requests a second: the third is turned away, and fits once the first
    has left the window. *)
Definition demo_calls : list (PublicInferenceClientKey * N) :=
  [([1], 0); ([1], 400000000); ([1], 900000000); ([2], 900000000); ([1], 1000000000)].

Lemma limiter_is_sliding_window_witness :
  let '(lim, s) := limiter_new 2 nanos_per_sec 0 in
  (run_limiter lim demo_calls s).1 = (run_spec lim demo_calls []).1
  ∧ (λ r, match r with Ok _ => true | _ => false end) <$> (run_limiter lim demo_calls s).1
    = [true; true; false; true; true].
Proof.
  pose proof (limiter_is_sliding_window 2 nanos_per_sec 0 demo_calls) as H.
  destruct (limiter_new 2 nanos_per_sec 0) as [lim s] eqn:E. split.
  - apply H. repeat (constructor; [|repeat (constructor; [vm_compute; discriminate|]); constructor]). constructor.
  - vm_compute in E. injection E as <- <-. vm_compute. reflexivity.
Defined.

(** A rejection never tells a client to retry at once or later than a window
    from now, and a client that waits the time it was told, while no other
    request of its is accepted, is accepted then. *)
Theorem retry_after_suffices lim key now h rej h' now' :
  0 < max_requests lim →
  StronglySorted N.le (times h key) → (∀ t, t ∈ times h key → t ≤ now) →
  N.of_nat (length (in_window (window lim) now h key)) = max_requests lim →
  spec_acquire lim key now h = (Err rej, h') →
  now + retry_after rej ≤ now' →
  0 < retry_after rej ≤ window lim
  ∧ ∃ snap, (spec_acquire lim key now' h').1 = Ok snap.
Proof.
  intros Hm Hs Hpast Hfull. unfold spec_acquire. rewrite Hfull.
  destruct (N.ltb_spec (max_requests lim) (max_requests lim)); [lia|]. intros [= <- <-]. cbn [retry_after reset_after].
  destruct (in_window (window lim) now h key) as [|t recent] eqn:Hr; [simpl in Hfull; lia|].
  assert (t ∈ in_window (window lim) now h key) as Ht by (rewrite Hr; set_solver).
  unfold in_window in Ht. apply list_elem_of_filter in Ht as [Hlt Hin].
  pose proof (Hpast t Hin) as Htn. simpl. intros Hle. split; [lia|].
  assert (length (in_window (window lim) now' h key) < length (t :: recent))%nat as Hshort.
  { assert (in_window (window lim) now' h key = filter (λ u, now' - u < window lim) (t :: recent)) as ->.
    { rewrite <- Hr. unfold in_window. rewrite filter_later by lia. done. }
    rewrite filter_cons, decide_False by lia. simpl.
    pose proof (length_filter (λ u, now' - u < window lim) recent). lia. }
  simpl in Hshort, Hfull. destruct (N.ltb_spec (N.of_nat (length (in_window (window lim) now' h key))) (max_requests lim)).
  - eexists. done.
  - lia.
Qed.

Lemma retry_after_suffices_witness :
  let lim := MkLimiter 1 10 20 10 in
  ∃ snap, (spec_acquire lim [1] 13 [([1], 3)]).1 = Ok snap.
Proof.
  intros lim.
  destruct (retry_after_suffices lim [1] 5 [([1], 3)] (MkRejection 8 (MkSnapshot 1 0 8)) [([1], 3)] 13) as [_ H].
  - reflexivity.
  - vm_compute. repeat constructor.
  - intros t Ht. vm_compute in Ht. apply list_elem_of_singleton in Ht. subst t. discriminate.
  - reflexivity.
  - reflexivity.
  - discriminate.
  - exact H.
Defined.
