(* ===== verification/Requests.v ===== *)
(** * The registry of active requests

    Models [crates/llm-server/src/engine/requests.rs]: request identifiers, the
    mutex-protected table of active requests with its state machine, and the
    handle whose destructor removes the entry.  [CancellationToken] is tokio's;
    what the registry relies on of it is the class [CancellationTokens]. *)
From stdpp Require Import base gmap sets numbers strings pretty list.
From S2P Require Import Prelude.
Open Scope N_scope.

(** ** tokio's cancellation tokens

    [W] is the state of all tokens, [T] a handle on one. *)
Class CancellationTokens (T W : Type) := {
  token_new : W → T * W;
  token_cancel : T → W → W;
  is_cancelled : T → W → bool;
  issued : T → W → Prop;
}.

(** The documented behaviour: a new token is one never handed out before and is
    not cancelled, [cancel] cancels its token and no other. *)
Class CancellationTokenLaws (T W : Type) `{CancellationTokens T W} := {
  token_new_issued : ∀ w, issued (token_new w).1 (token_new w).2 ∧ ¬ issued (token_new w).1 w
    ∧ is_cancelled (token_new w).1 (token_new w).2 = false;
  token_new_frame : ∀ t w, issued t w →
    issued t (token_new w).2 ∧ is_cancelled t (token_new w).2 = is_cancelled t w;
  token_cancel_self : ∀ t w, issued t w → is_cancelled t (token_cancel t w) = true;
  token_cancel_frame : ∀ t t' w, t ≠ t' → is_cancelled t (token_cancel t' w) = is_cancelled t w;
  token_cancel_issued : ∀ t t' w, issued t w → issued t (token_cancel t' w);
}.

(** Tokens as positions in a list of flags. *)
#[export] Instance flag_tokens : CancellationTokens nat (list bool) := {
  token_new w := (length w, w ++ [false]);
  token_cancel t w := <[t := true]> w;
  is_cancelled t w := default false (w !! t);
  issued t w := (t < length w)%nat;
}.
#[export] Instance flag_token_laws : CancellationTokenLaws nat (list bool).
Proof.
  constructor; simpl; intros.
  - rewrite length_app, lookup_app_r, Nat.sub_diag by lia. simpl. split_and!; [lia|lia|done].
  - rewrite length_app, lookup_app_l by done. split; [lia|done].
  - by rewrite list_lookup_insert_eq.
  - by rewrite list_lookup_insert_ne.
  - by rewrite length_insert.
Qed.

(** ** Data *)
Inductive ActiveRequestState := StateQueued | StateRunning | StateCancelled | StateFinished.
#[export] Instance ActiveRequestState_eq_dec : EqDecision ActiveRequestState.
Proof. solve_decision. Defined.

Inductive RequestRegistrationError := Conflict (id : string).
Inductive CancelRequestResult := CancelCancelled | CancelAlreadyCancelled | CancelFinished | CancelNotFound.
Inductive RequestStartResult := StartRunning | StartCancelled | StartFinished | StartMissing.
Inductive RequestFinishResult := FinishFinished | FinishCancelled | FinishMissing.

Definition is_active (s : ActiveRequestState) : bool := negb (bool_decide (s = StateFinished)).

Section registry.
Context {T W : Type} `{CancellationTokens T W}.

Record ActiveRequestEntry := MkEntry { cancellation : T; state : ActiveRequestState }.

(** The table, the identifier counter and the tokens. *)
Record ActiveRequestRegistry := MkRegistry {
  active : gmap string ActiveRequestEntry;
  request_counter : N;
  tokens : W;
}.

Definition registry_default (w : W) : ActiveRequestRegistry := MkRegistry ∅ 1 w.

(** [format!("req-{next}")]; the atomic counter wraps. *)
Definition next_request_id (r : ActiveRequestRegistry) : string * ActiveRequestRegistry :=
  ("req-" +:+ pretty (request_counter r),
   MkRegistry (active r) (wrap_add (request_counter r) 1) (tokens r)).

(** [register]: the handle is the identifier and the token. *)
Definition register (id : string) (r : ActiveRequestRegistry)
    : outcome RequestRegistrationError (string * T) * ActiveRequestRegistry :=
  let '(cancellation, w) := token_new (tokens r) in
  match active r !! id with
  | Some _ => (Err (Conflict id), MkRegistry (active r) (request_counter r) w)
  | None =>
      (Ok (id, cancellation),
       MkRegistry (<[id := MkEntry cancellation StateQueued]> (active r)) (request_counter r) w)
  end.

Definition active_count (r : ActiveRequestRegistry) : nat :=
  count_if (λ e, is_active (state e)) (active r).

Definition set_state (id : string) (e : ActiveRequestEntry) (s : ActiveRequestState)
    (r : ActiveRequestRegistry) : ActiveRequestRegistry :=
  MkRegistry (<[id := MkEntry (cancellation e) s]> (active r)) (request_counter r) (tokens r).

Definition cancel (id : string) (r : ActiveRequestRegistry)
    : CancelRequestResult * ActiveRequestRegistry :=
  match active r !! id with
  | None => (CancelNotFound, r)
  | Some e =>
      match state e with
      | StateQueued | StateRunning =>
          let r := set_state id e StateCancelled r in
          (CancelCancelled,
           MkRegistry (active r) (request_counter r) (token_cancel (cancellation e) (tokens r)))
      | StateCancelled => (CancelAlreadyCancelled, r)
      | StateFinished => (CancelFinished, r)
      end
  end.

Definition mark_running (id : string) (r : ActiveRequestRegistry)
    : RequestStartResult * ActiveRequestRegistry :=
  match active r !! id with
  | None => (StartMissing, r)
  | Some e =>
      match state e with
      | StateQueued => (StartRunning, set_state id e StateRunning r)
      | StateRunning => (StartRunning, r)
      | StateCancelled => (StartCancelled, r)
      | StateFinished => (StartFinished, r)
      end
  end.

Definition mark_finished (id : string) (r : ActiveRequestRegistry)
    : RequestFinishResult * ActiveRequestRegistry :=
  match active r !! id with
  | None => (FinishMissing, r)
  | Some e =>
      match state e with
      | StateQueued | StateRunning => (FinishFinished, set_state id e StateFinished r)
      | StateCancelled => (FinishCancelled, r)
      | StateFinished => (FinishFinished, r)
      end
  end.

(** [Drop for ActiveRequest]. *)
Definition drop_request (id : string) (r : ActiveRequestRegistry) : ActiveRequestRegistry :=
  MkRegistry (delete id (active r)) (request_counter r) (tokens r).

(** ** Runs

    The handles alive are tracked beside the registry; a handle's own calls
    happen only while it is alive.  [CancelToken] is a holder of the handle
    cancelling its token directly. *)
Inductive call :=
| Register (id : string)
| Cancel (id : string)
| MarkRunning (id : string)
| MarkFinished (id : string)
| CancelToken (id : string)
| DropRequest (id : string).

Abbreviation handles := (gmap string T) (only parsing).

Definition run_call (c : call) (y : handles * ActiveRequestRegistry)
    : handles * ActiveRequestRegistry :=
  let '(hs, r) := y in
  match c with
  | Register id =>
      match register id r with
      | (Ok (id, t), r) => (<[id := t]> hs, r)
      | (_, r) => (hs, r)
      end
  | Cancel id => (hs, (cancel id r).2)
  | MarkRunning id => match hs !! id with Some _ => (hs, (mark_running id r).2) | None => y end
  | MarkFinished id => match hs !! id with Some _ => (hs, (mark_finished id r).2) | None => y end
  | CancelToken id =>
      match hs !! id with
      | Some t => (hs, MkRegistry (active r) (request_counter r) (token_cancel t (tokens r)))
      | None => y
      end
  | DropRequest id =>
      match hs !! id with Some _ => (delete id hs, drop_request id r) | None => y end
  end.

Definition run_calls (cs : list call) (y : handles * ActiveRequestRegistry)
    : handles * ActiveRequestRegistry := foldl (λ y c, run_call c y) y cs.

Context `{!CancellationTokenLaws T W, !EqDecision T}.

(** Handles and entries match, tokens are distinct, and a cancelled entry's
    token is cancelled. *)
Record registry_inv (y : handles * ActiveRequestRegistry) : Prop := {
  ri_handles : ∀ id t, y.1 !! id = Some t ↔ ∃ e, active y.2 !! id = Some e ∧ cancellation e = t;
  ri_issued : ∀ id t, y.1 !! id = Some t → issued t (tokens y.2);
  ri_distinct : ∀ id id' t, y.1 !! id = Some t → y.1 !! id' = Some t → id = id';
  ri_cancelled : ∀ id e, active y.2 !! id = Some e → state e = StateCancelled →
    is_cancelled (cancellation e) (tokens y.2) = true;
}.

Lemma cancel_token_inv hs r t :
  registry_inv (hs, r) →
  registry_inv (hs, MkRegistry (active r) (request_counter r) (token_cancel t (tokens r))).
Proof.
  intros [Hh Hi Hd Hc]. constructor; simpl in *; [done| |done|].
  - intros id u Hu. apply token_cancel_issued. by apply (Hi id).
  - intros id e He Hs. specialize (Hc id e He Hs).
    assert (issued (cancellation e) (tokens r)) as Hiss by (apply (Hi id), Hh; eauto).
    destruct (decide (cancellation e = t)) as [<-|Hne].
    + by apply token_cancel_self.
    + by rewrite token_cancel_frame.
Qed.

Lemma set_state_inv hs r id e s :
  registry_inv (hs, r) → active r !! id = Some e →
  (s = StateCancelled → is_cancelled (cancellation e) (tokens r) = true) →
  registry_inv (hs, set_state id e s r).
Proof.
  intros [Hh Hi Hd Hc] He Hs. constructor; simpl in *; [|done|done|].
  - intros id' t. rewrite Hh, lookup_insert. case_decide; [subst|done]. split.
    + intros (e' & He' & <-). rewrite He in He'. injection He' as <-. by eexists.
    + intros (e' & [= <-] & <-). by exists e.
  - intros id' e'. rewrite lookup_insert. case_decide; [intros [= <-]; simpl; auto|apply Hc].
Qed.

(** Marking cancelled and cancelling the token are one critical section. *)
Lemma cancel_inv hs r id : registry_inv (hs, r) → registry_inv (hs, (cancel id r).2).
Proof.
  intros Hr. unfold cancel. destruct (active r !! id) as [e|] eqn:He; [|done].
  assert (registry_inv (hs, MkRegistry (active (set_state id e StateCancelled r)) (request_counter r)
    (token_cancel (cancellation e) (tokens r)))) as Hx; [|by destruct (state e)].
  pose proof (cancel_token_inv hs r (cancellation e) Hr) as Hct.
  apply (set_state_inv _ _ id e StateCancelled Hct He). intros _. simpl.
  apply token_cancel_self. destruct Hr as [Hh Hi _ _]. apply (Hi id), Hh. eauto.
Qed.

Lemma register_inv hs r id :
  registry_inv (hs, r) → registry_inv (run_call (Register id) (hs, r)).
Proof.
  intros [Hh Hi Hd Hc]. simpl in *. unfold register.
  destruct (token_new_issued (tokens r)) as (Hn & Hfr & Hnc).
  pose proof (λ t, token_new_frame t (tokens r)) as Hframe.
  destruct (token_new (tokens r)) as [tk w]. simpl in Hn, Hfr, Hnc, Hframe.
  destruct (active r !! id) as [e|] eqn:He.
  - constructor; simpl; [done| |done|].
    + intros id' t Ht. by apply Hframe, (Hi id').
    + intros id' e' He' Hs. rewrite (proj2 (Hframe (cancellation e') ltac:(apply (Hi id'), Hh; eauto))).
      by apply (Hc id').
  - constructor; simpl.
    + intros id' t. rewrite !lookup_insert. case_decide; [|apply Hh]. split.
      * intros [= <-]. by eexists.
      * by intros (e & [= <-] & <-).
    + intros id' t. rewrite lookup_insert. case_decide; [by intros [= <-]|].
      intros Ht. by apply Hframe, (Hi id').
    + intros id1 id2 t. rewrite !lookup_insert. do 2 case_decide; intros; simplify_eq; try done.
      * destruct Hfr. by apply (Hi id2).
      * destruct Hfr. by apply (Hi id1).
      * by apply (Hd id1 id2 t).
    + intros id' e'. rewrite lookup_insert. case_decide; [by intros [= <-]|].
      intros He' Hs. rewrite (proj2 (Hframe (cancellation e') ltac:(apply (Hi id'), Hh; eauto))).
      by apply (Hc id').
Qed.

Lemma run_call_inv c y : registry_inv y → registry_inv (run_call c y).
Proof.
  destruct y as [hs r]. intros Hr. destruct c as [id|id|id|id|id|id]; [by apply register_inv|..]; simpl.
  - by apply cancel_inv.
  - destruct (hs !! id); [|done]. unfold mark_running. destruct (active r !! id) as [e|] eqn:He; [|done].
    destruct (state e); try done. by apply set_state_inv.
  - destruct (hs !! id); [|done]. unfold mark_finished. destruct (active r !! id) as [e|] eqn:He; [|done].
    destruct (state e); try done; by apply set_state_inv.
  - destruct (hs !! id); [|done]. by apply cancel_token_inv.
  - destruct (hs !! id); [|done]. destruct Hr as [Hh Hi Hd Hc]. constructor; simpl in *.
    + intros id' u. rewrite !lookup_delete. case_decide; [naive_solver|apply Hh].
    + intros id' u [_ Hu]%lookup_delete_Some. by apply (Hi id').
    + intros id1 id2 u [_ H1]%lookup_delete_Some [_ H2]%lookup_delete_Some. by apply (Hd id1 id2 u).
    + intros id' e [_ He]%lookup_delete_Some. by apply (Hc id').
Qed.

Lemma run_calls_inv cs w : registry_inv (run_calls cs (∅, registry_default w)).
Proof.
  assert (registry_inv (∅, registry_default w)) as H0.
  { constructor; simpl.
    - intros id t. rewrite !lookup_empty. naive_solver.
    - intros id t. by rewrite lookup_empty.
    - intros id id' t. by rewrite lookup_empty.
    - intros id e. by rewrite lookup_empty. }
  revert H0. generalize (∅ : handles, registry_default w). induction cs as [|c cs IH]; intros y Hy; [done|].
  by apply IH, run_call_inv.
Qed.

(** After any calls, the table has an entry exactly for the requests whose
    handle is alive, a registration is refused exactly when such a request has
    the identifier, a live handle always finds its entry, distinct requests
    have distinct tokens, and every request marked cancelled has its token
    cancelled. *)
Theorem registry_tracks_handles cs w id :
  let '(hs, r) := run_calls cs (∅, registry_default w) in
  (∀ t, hs !! id = Some t ↔ ∃ e, active r !! id = Some e ∧ cancellation e = t)
  ∧ ((register id r).1 = Err (Conflict id) ↔ is_Some (hs !! id))
  ∧ (is_Some (hs !! id) → (mark_running id r).1 ≠ StartMissing ∧ (mark_finished id r).1 ≠ FinishMissing)
  ∧ (∀ id' t, hs !! id = Some t → hs !! id' = Some t → id = id')
  ∧ (∀ e, active r !! id = Some e → state e = StateCancelled →
       is_cancelled (cancellation e) (tokens r) = true).
Proof.
  pose proof (run_calls_inv cs w) as Hinv. destruct (run_calls cs _) as [hs r].
  destruct Hinv as [Hh Hi Hd Hc]; simpl in *.
  assert (is_Some (hs !! id) ↔ is_Some (active r !! id)) as Hiff.
  { split; intros [x Hx]; [apply Hh in Hx as (e & He & _); eauto|]. eexists. apply Hh. eauto. }
  split; [done|]. split; [|split; [|split]].
  - rewrite Hiff. unfold register. destruct (token_new (tokens r)). destruct (active r !! id).
    + split; [by eexists|done].
    + split; [done|]. by intros [? ?].
  - rewrite Hiff. intros [e He]. unfold mark_running, mark_finished. rewrite He. by destruct (state e).
  - intros id' t. apply Hd.
  - apply Hc.
Qed.

(** ** Final states *)
Definition is_final (s : ActiveRequestState) : Prop := s = StateCancelled ∨ s = StateFinished.

Lemma run_call_state c y id e :
  c ≠ DropRequest id → active y.2 !! id = Some e →
  ∃ e', active (run_call c y).2 !! id = Some e' ∧ cancellation e' = cancellation e
  ∧ (is_final (state e) → state e' = state e).
Proof.
  destruct y as [hs r]. simpl. intros Hc He.
  assert (∀ id' e0 s, active r !! id' = Some e0 → (is_final (state e0) → s = state e0) →
    ∃ e', active (set_state id' e0 s r) !! id = Some e' ∧ cancellation e' = cancellation e
    ∧ (is_final (state e) → state e' = state e)) as Hset.
  { intros id' e0 s He0 Hs. simpl. rewrite lookup_insert. case_decide as Hid; [|by exists e].
    subst id'. rewrite He in He0. injection He0 as <-. by eexists. }
  assert (∃ e', active r !! id = Some e' ∧ cancellation e' = cancellation e
    ∧ (is_final (state e) → state e' = state e)) as Hsame by (by exists e).
  destruct c as [id'|id'|id'|id'|id'|id']; simpl.
  - unfold register. destruct (token_new (tokens r)).
    destruct (active r !! id') eqn:He'; [done|]. simpl. rewrite lookup_insert_ne; [done|congruence].
  - unfold cancel. destruct (active r !! id') as [e0|] eqn:He0; [|done].
    destruct (state e0) eqn:Hs0; try done; apply (Hset id' e0 StateCancelled He0); rewrite Hs0; by intros [?|?].
  - destruct (hs !! id'); [|done]. unfold mark_running. destruct (active r !! id') as [e0|] eqn:He0; [|done].
    destruct (state e0) eqn:Hs0; try done. apply (Hset id' e0 StateRunning He0). rewrite Hs0. by intros [?|?].
  - destruct (hs !! id'); [|done]. unfold mark_finished. destruct (active r !! id') as [e0|] eqn:He0; [|done].
    destruct (state e0) eqn:Hs0; try done; apply (Hset id' e0 StateFinished He0); rewrite Hs0; by intros [?|?].
  - by destruct (hs !! id').
  - destruct (hs !! id'); [|done]. simpl. rewrite lookup_delete_ne; [done|congruence].
Qed.

(** Cancelling and finishing are final and exclude each other: once a cancel
    was answered [Cancelled], whatever happens before the handle is dropped, a
    repeated cancel is [AlreadyCancelled] and the handle's [mark_running] and
    [mark_finished] report the cancellation; once the request finished, a
    cancel is refused with [Finished]. *)
Theorem first_outcome_is_final cs y id e :
  active y.2 !! id = Some e → is_final (state e) → DropRequest id ∉ cs →
  let r := (run_calls cs y).2 in
  (cancel id r).1 = (if decide (state e = StateCancelled) then CancelAlreadyCancelled else CancelFinished)
  ∧ (mark_running id r).1 = (if decide (state e = StateCancelled) then StartCancelled else StartFinished)
  ∧ (mark_finished id r).1 = (if decide (state e = StateCancelled) then FinishCancelled else FinishFinished)
  ∧ (cancel id r).2 = r ∧ (mark_running id r).2 = r ∧ (mark_finished id r).2 = r.
Proof.
  intros He Hf Hcs.
  assert (∃ e', active (run_calls cs y).2 !! id = Some e' ∧ state e' = state e) as (e' & He' & Hs').
  { revert y e He Hf. induction cs as [|c cs IH]; intros y e He Hf; [by exists e|].
    destruct (run_call_state c y id e) as (e1 & He1 & _ & Hs1); [set_solver|done|].
    specialize (Hs1 Hf). destruct (IH ltac:(set_solver) (run_call c y) e1 He1) as (e' & ? & ?); [by rewrite Hs1|].
    exists e'. split; [done|congruence]. }
  cbv zeta. unfold cancel, mark_running, mark_finished. rewrite He', Hs'.
  by destruct Hf as [-> | ->].
Qed.

(** The [n]-th identifier handed out. *)
Fixpoint take_ids (n : nat) (r : ActiveRequestRegistry) : list string :=
  match n with
  | O => []
  | S n => let '(id, r) := next_request_id r in id :: take_ids n r
  end.

Lemma take_ids_lookup n r k :
  (k < n)%nat → request_counter r + N.of_nat n ≤ u64_max →
  take_ids n r !! k = Some ("req-" +:+ pretty (request_counter r + N.of_nat k)).
Proof.
  revert r k. induction n as [|n IH]; intros r k Hk Hn; [lia|].
  destruct k as [|k]; simpl; [by rewrite N.add_0_r|].
  rewrite IH; [|lia|simpl; rewrite wrap_add_small; lia].
  simpl. rewrite wrap_add_small by lia. do 3 f_equal. lia.
Qed.

(** The first 2^64 - 2 generated request identifiers are pairwise distinct. *)
Theorem request_ids_distinct n w :
  N.of_nat n < u64_max → NoDup (take_ids n (registry_default w)).
Proof.
  intros Hn. apply NoDup_alt. intros i j x Hi Hj.
  assert (length (take_ids n (registry_default w)) = n) as Hlen.
  { generalize (registry_default w). clear. induction n as [|n IH]; intros r; simpl; [done|]. by rewrite IH. }
  pose proof (lookup_lt_Some _ _ _ Hi) as Li. pose proof (lookup_lt_Some _ _ _ Hj) as Lj.
  rewrite Hlen in Li, Lj.
  rewrite take_ids_lookup in Hi, Hj by (simpl; lia). rewrite <- Hi in Hj. injection Hj as Hj.
  assert (1 + N.of_nat j = 1 + N.of_nat i) as Heq by (by apply (inj (R := (=)) (pretty (A := N)))). lia.
Qed.
End registry.

(** ** A run *)
Lemma first_outcome_is_final_witness :
  let y := run_calls [Register "a"; MarkRunning "a"; Cancel "a"] (∅, registry_default (T := nat) (@nil bool)) in
  (mark_finished "a" (run_calls [Register "b"; MarkFinished "a"] y).2).1 = FinishCancelled.
Proof.
  intros y.
  destruct (first_outcome_is_final [Register "b"; MarkFinished "a"] y "a" (MkEntry 0%nat StateCancelled))
    as (_ & _ & H & _).
  - vm_compute. reflexivity.
  - by left.
  - intros [E|[E|E%elem_of_nil]%elem_of_cons]%elem_of_cons; [discriminate|discriminate|exact E].
  - exact H.
Defined.

Lemma request_ids_distinct_witness :
  NoDup (take_ids 2 (registry_default (T := nat) (@nil bool))) ∧ take_ids 2 (registry_default (T := nat) (@nil bool)) = ["req-1"; "req-2"].
Proof. split; [apply (request_ids_distinct (T := nat) 2 (@nil bool)); reflexivity|vm_compute; reflexivity]. Defined.

(** The registry over the concrete tokens: a cancelled request is still
    registered, its token is cancelled, and its identifier is refused. *)
Lemma registry_tracks_handles_witness :
  let '(hs, r) := run_calls [Register "a"; Cancel "a"; Register "b"; DropRequest "b"]
    (∅, registry_default (T := nat) (@nil bool)) in
  hs !! "a" = Some 0%nat ∧ (register "a" r).1 = Err (Conflict "a") ∧ hs !! "b" = None
  ∧ is_cancelled 0%nat (tokens r) = true.
Proof.
  pose proof (registry_tracks_handles (T := nat)
    [Register "a"; Cancel "a"; Register "b"; DropRequest "b"] (@nil bool) "a") as H.
  destruct (run_calls _ _) as [hs r] eqn:E. vm_compute in E. injection E as <- <-.
  destruct H as (_ & Hreg & _ & _ & Hc). split; [reflexivity|]. split; [|split; [reflexivity|]].
  - apply Hreg. eexists. reflexivity.
  - exact (Hc (MkEntry 0%nat StateCancelled) eq_refl eq_refl).
Defined.
