(* ===== verification/Stop.v ===== *)
(** * Stop sequences

    Models [crates/llm-runtime/src/stop.rs]: the whole-text truncation used by
    non-streaming completions and the incremental detector used by streams. *)
From stdpp Require Import base sets numbers list.
From S2P Require Import Prelude Text.
Open Scope nat_scope.

(** ** Definitions *)

(** [stop.iter().filter_map(|s| content.find(s)).min()]. *)
Definition earliest_stop_index (content : str) (stop : list str) : option nat :=
  list_min (omap (λ sequence, find sequence content) stop).

(** [apply_stop_sequences]: whether a sequence was found, and the content. *)
Definition apply_stop_sequences (content : str) (stop : list str) : bool * str :=
  match earliest_stop_index content stop with
  | None => (false, content)
  | Some stop_at => (true, take stop_at content)
  end.

Definition max_stop_sequence_len (stop : list str) : nat := foldr Nat.max 0 (length <$> stop).

Fixpoint floor_char_boundary (content : str) (index : nat) : nat :=
  if is_char_boundary content index then index
  else match index with O => O | S index => floor_char_boundary content index end.

Record IncrementalStopDetector := MkDetector { max_stop_len : nat; previous_len : nat }.

Definition detector_new (stop : list str) : IncrementalStopDetector :=
  MkDetector (max_stop_sequence_len stop) 0.

(** [observe]; the outer [option] is the slice's panic. *)
Definition observe (content : str) (stop : list str) (d : IncrementalStopDetector)
    : option (option nat) * IncrementalStopDetector :=
  let seen := MkDetector (max_stop_len d) (length content) in
  match stop with
  | [] => (Some None, seen)
  | _ =>
      if existsb (λ s, bool_decide (s = [])) stop then (Some (Some 0), seen)
      else
        let overlap := max_stop_len d - 1 in
        let search_start := floor_char_boundary content (previous_len d - overlap) in
        (tail ← str_from content search_start;
         Some (list_min (omap (λ sequence, Nat.add search_start <$> find sequence tail) stop)),
         seen)
  end.

Definition safe_stream_emit_len (content : str) (max_stop_len : nat) : nat :=
  if max_stop_len <=? 1 then length content
  else floor_char_boundary content (length content - (max_stop_len - 1)).

(** ** Occurrences of stop sequences *)

(** Stop sequences as the request validation leaves them. *)
Definition stops_wf (stop : list str) : Prop := ∀ s, s ∈ stop → s ≠ [] ∧ starts_char s.

Definition stop_occurs (stop : list str) (content : str) (i : nat) : Prop :=
  ∃ s, s ∈ stop ∧ occurs s content i.

Lemma earliest_Some content stop i :
  earliest_stop_index content stop = Some i ↔
  stop_occurs stop content i ∧ ∀ j, j < i → ¬ stop_occurs stop content j.
Proof.
  unfold earliest_stop_index, stop_occurs. rewrite list_min_Some. setoid_rewrite list_elem_of_omap. split.
  - intros [(s & Hs & Hf) Hmin]. apply find_Some in Hf as [Ho Hfirst]. split; [by exists s|].
    intros j Hj (s' & Hs' & Ho').
    destruct (find s' content) as [k|] eqn:Hk; [|by apply (find_None s' content) with j in Hk].
    pose proof (proj1 (find_Some s' content k) Hk) as [_ Hk'].
    assert (i ≤ k) by (apply Hmin; by exists s'). destruct (decide (j < k)); [by apply (Hk' j)|lia].
  - intros [(s & Hs & Ho) Hmin]. split.
    + exists s. split; [done|]. apply find_Some. split; [done|]. intros j Hj Hoj. apply (Hmin j Hj). by exists s.
    + intros k (s' & Hs' & Hk). apply find_Some in Hk as [Hok _].
      destruct (decide (k < i)) as [Hlt|]; [|lia]. destruct (Hmin k Hlt). by exists s'.
Qed.

Lemma earliest_None content stop :
  earliest_stop_index content stop = None ↔ ∀ i, ¬ stop_occurs stop content i.
Proof.
  unfold earliest_stop_index, stop_occurs. rewrite list_min_None. split.
  - intros Hn i (s & Hs & Ho).
    destruct (find s content) as [k|] eqn:Hk; [|by apply (find_None s content) with i in Hk].
    assert (k ∈ omap (λ sequence, find sequence content) stop) as Hin
      by (apply list_elem_of_omap; by exists s).
    rewrite Hn in Hin. by apply not_elem_of_nil in Hin.
  - intros Hall. destruct (omap _ stop) as [|k l] eqn:E; [done|].
    assert (k ∈ omap (λ sequence, find sequence content) stop) as Hin by (rewrite E; set_solver).
    apply list_elem_of_omap in Hin as (s & Hs & Hk). apply find_Some in Hk as [Ho _].
    destruct (Hall k). by exists s.
Qed.

Lemma max_stop_len_le stop s : s ∈ stop → length s ≤ max_stop_sequence_len stop.
Proof.
  unfold max_stop_sequence_len. induction stop as [|x stop IH]; [set_solver|].
  rewrite fmap_cons. cbn [foldr]. intros [->|Hs]%elem_of_cons; [lia|]. specialize (IH Hs). lia.
Qed.

Lemma floor_le content i : floor_char_boundary content i ≤ i.
Proof. induction i as [|i IH]; simpl; [done|]. case_match; lia. Qed.

Lemma floor_boundary content i : is_char_boundary content (floor_char_boundary content i) = true.
Proof. induction i as [|i IH]; [done|]. cbn [floor_char_boundary]. by case_match. Qed.

Lemma safe_len_boundary content m : is_char_boundary content (safe_stream_emit_len content m) = true.
Proof. unfold safe_stream_emit_len. case_match; [apply boundary_length|apply floor_boundary]. Qed.

Lemma safe_len_le content m : safe_stream_emit_len content m ≤ length content.
Proof.
  unfold safe_stream_emit_len. case_match; [done|].
  pose proof (floor_le content (length content - (m - 1))). lia.
Qed.

(** An occurrence that is not in the text seen before ends in the new part. *)
Lemma new_occurrence stop prev new i :
  (∀ j, ¬ stop_occurs stop prev j) → stop_occurs stop (prev ++ new) i →
  length prev < i + max_stop_sequence_len stop.
Proof.
  intros Hno (s & Hs & Ho). pose proof (max_stop_len_le stop s Hs).
  destruct (decide (i + length s ≤ length prev)) as [Hle|]; [|lia].
  destruct (Hno i). exists s. split; [done|]. by eapply occurs_shorten.
Qed.

(** Text emitted early stays clear of any stop sequence still to come. *)
Lemma safe_len_before_stop stop prev new i :
  stops_wf stop →
  (∀ j, ¬ stop_occurs stop prev j) → stop_occurs stop (prev ++ new) i →
  safe_stream_emit_len prev (max_stop_sequence_len stop) ≤ i.
Proof.
  intros Hwf Hno Ho. pose proof (new_occurrence _ _ _ _ Hno Ho) as Hi.
  unfold safe_stream_emit_len. destruct (Nat.leb_spec (max_stop_sequence_len stop) 1); [lia|].
  pose proof (floor_le prev (length prev - (max_stop_sequence_len stop - 1))). lia.
Qed.

Lemma observe_spec prev new stop :
  stops_wf stop → (∀ j, ¬ stop_occurs stop prev j) →
  observe (prev ++ new) stop (MkDetector (max_stop_sequence_len stop) (length prev))
  = (Some (earliest_stop_index (prev ++ new) stop),
     MkDetector (max_stop_sequence_len stop) (length (prev ++ new))).
Proof.
  intros Hwf Hno. unfold observe. cbn [max_stop_len previous_len].
  destruct stop as [|s0 stop']; [done|]. set (stop := s0 :: stop') in *.
  assert (existsb (λ s, bool_decide (s = [])) stop = false) as ->.
  { apply not_true_iff_false. rewrite existsb_exists. intros (s & Hs & He).
    apply bool_decide_eq_true in He. apply list_elem_of_In, Hwf in Hs as [? _]. done. }
  set (content := prev ++ new). set (start := floor_char_boundary content (length prev - (max_stop_sequence_len stop - 1))).
  rewrite str_from_Some by apply floor_boundary. cbn [mbind option_bind]. do 2 f_equal.
  pose proof (floor_le content (length prev - (max_stop_sequence_len stop - 1))) as Hstart. fold start in Hstart.
  assert (start ≤ length content) as Hlen by (unfold content; rewrite length_app; lia).
  assert (∀ s, s ∈ stop → Nat.add start <$> find s (drop start content) = find s content) as Hfind.
  { intros s Hs. pose proof (max_stop_len_le stop s Hs) as Hms.
    assert (∀ i, occurs s content i → start ≤ i) as Hge.
    { intros i Ho. pose proof (new_occurrence stop prev new i Hno (ex_intro _ s (conj Hs Ho))). lia. }
    destruct (find s (drop start content)) as [k|] eqn:Hk; simpl; symmetry.
    - apply find_Some in Hk as [Ho Hmin]. apply find_Some. split; [by apply occurs_drop|].
      intros j Hj Hoj. pose proof (Hge j Hoj). apply (Hmin (j - start)); [lia|].
      apply occurs_drop; [done|]. by replace (start + (j - start)) with j by lia.
    - apply find_None. intros i Ho. pose proof (Hge i Ho).
      apply (proj1 (find_None s (drop start content)) Hk (i - start)). apply occurs_drop; [done|].
      by replace (start + (i - start)) with i by lia. }
  unfold earliest_stop_index. f_equal. apply omap_ext_in. exact Hfind.
Qed.

(** ** Properties *)

(** Looking only at the tail that can hold a new match, the incremental
    detector reports exactly what a scan of the whole text would: on a stream of
    chunks without an earlier match, its answer after each chunk is the first
    position at which any stop sequence occurs, and it never slices inside a
    character. *)
Theorem incremental_detector_is_full_scan stop prev new :
  stops_wf stop → earliest_stop_index prev stop = None →
  let d := (observe prev stop (MkDetector (max_stop_sequence_len stop) (length prev))).2 in
  (observe (prev ++ new) stop d).1 = Some (earliest_stop_index (prev ++ new) stop).
Proof.
  intros Hwf Hno d. rewrite earliest_None in Hno.
  assert (d = MkDetector (max_stop_sequence_len stop) (length prev)) as ->
    by (unfold d, observe; by repeat case_match).
  by rewrite observe_spec.
Qed.

(** ["hello ST"] then ["OP"] with the stop sequence [" STOP"]. *)
Lemma incremental_detector_is_full_scan_witness :
  (observe [104; 101; 108; 108; 111; 32; 83; 84; 79; 80]%N [[32; 83; 84; 79; 80]%N]
     (observe [104; 101; 108; 108; 111; 32; 83; 84]%N [[32; 83; 84; 79; 80]%N]
        (MkDetector 5 8)).2).1 = Some (Some 5).
Proof.
  pose proof (incremental_detector_is_full_scan [[32; 83; 84; 79; 80]%N]
    [104; 101; 108; 108; 111; 32; 83; 84]%N [79; 80]%N) as H.
  cbv zeta in H. transitivity (Some (earliest_stop_index
    ([104; 101; 108; 108; 111; 32; 83; 84] ++ [79; 80])%N [[32; 83; 84; 79; 80]%N])).
  - apply H; [|reflexivity]. intros s Hs%list_elem_of_singleton. subst s. by split.
  - reflexivity.
Defined.

(** [apply_stop_sequences] cuts the text at the first position where any stop
    sequence occurs and reports whether there was one; what is left contains no
    stop sequence, and text without one is untouched. *)
Theorem apply_stop_sequences_correct content stop :
  let '(stopped, text) := apply_stop_sequences content stop in
  (∃ rest, content = text ++ rest)
  ∧ (stopped = true ↔ ∃ i, stop_occurs stop content i)
  ∧ (stopped = true → stop_occurs stop content (length text))
  ∧ (stopped = false → text = content)
  ∧ ((∀ s, s ∈ stop → s ≠ []) → ∀ i, ¬ stop_occurs stop text i).
Proof.
  unfold apply_stop_sequences. destruct (earliest_stop_index content stop) as [i|] eqn:He.
  - apply earliest_Some in He as [Ho Hmin]. pose proof Ho as (s & Hs & Hle & Hoc).
    split_and!; try done.
    + exists (drop i content). by rewrite take_drop.
    + split; [by exists i|done].
    + intros _. rewrite length_take, Nat.min_l by done. done.
    + intros Hne j (s' & Hs' & Hoj). pose proof (occurs_length _ _ _ Hoj) as Hl.
      rewrite length_take in Hl. specialize (Hne s' Hs'). destruct s' as [|b s']; [done|]. simpl in Hl.
      apply (Hmin j); [lia|]. exists (b :: s'). split; [done|].
      rewrite <- (take_drop i content). by apply occurs_app_l.
  - pose proof (proj1 (earliest_None content stop) He) as Hno. split_and!; try done.
    + exists []. by rewrite app_nil_r.
    + split; [done|]. intros [i Hi]. by destruct (Hno i).
Qed.
