(* ===== verification/Backend.v ===== *)
(** * The backend contract

    Models the parts of [crates/llm-backend-contracts/src/lib.rs] that carry
    behaviour: the identity hashed into a prompt-cache key, the finish reasons,
    outputs and stream chunks a backend produces, the default adapter from a
    whole output to a stream, and the error kinds with the projection the
    runtime maps them by. *)
From Stdlib Require Import String.
From stdpp Require Import base sets numbers list.
From S2P Require Import Prelude Text Json.
Open Scope N_scope.

(** ** Prompt-cache identity *)

(** [update_cache_key_component], as the bytes it feeds to the hasher. *)
Definition cache_key_component (name : str) (value : option str) : list N :=
  le_bytes 8 (N.of_nat (length name)) ++ name ++
  match value with
  | Some value => [1] ++ le_bytes 8 (N.of_nat (length value)) ++ value
  | None => [0]
  end.

(** The bytes [BackendCacheKey::from_identity] hashes. *)
Definition cache_key_input (prompt_template : str) (tool_schema chat_template_kwargs : option str) : list N :=
  cache_key_component (lit "cache-context-version") (Some (lit "backend-cache-context/v1")) ++
  cache_key_component (lit "prompt-template") (Some prompt_template) ++
  cache_key_component (lit "tool-schema") tool_schema ++
  cache_key_component (lit "chat-template-kwargs") chat_template_kwargs.

Record BackendCacheContext := MkCacheContext {
  key : str;
  cache_template_id : str;
  tool_schema : option str;
  chat_template_kwargs : option str;
}.

Section cache_context.
(** SHA-256 of a byte string, printed in lower-case hexadecimal. *)
Variable sha256_hex : list N → str.

Definition from_identity (prompt_template : str) (schema kwargs : option str) : str :=
  lit "sha256:" ++ sha256_hex (cache_key_input prompt_template schema kwargs).

Definition chat_template_with_kwargs (template_id : str) (schema kwargs : option str) : BackendCacheContext :=
  MkCacheContext (from_identity template_id schema kwargs) template_id schema kwargs.

Definition chat_template (template_id : str) (schema : option str) : BackendCacheContext :=
  chat_template_with_kwargs template_id schema None.

Definition raw_prompt : BackendCacheContext :=
  MkCacheContext (from_identity (lit "raw-prompt/v1") None None) (lit "raw-prompt/v1") None None.
End cache_context.

(** ** Requests

    A tool declaration; its type is always [function]. *)
Record BackendToolDefinition := MkBackendTool {
  btool_name : str;
  btool_description : option str;
  btool_parameters : value;
}.

(** ** Outputs *)
Inductive BackendFinishReason := BStop | BLength | BToolCalls | BContentFilter | BError.

Inductive BackendStreamTimingMilestone :=
| ResponseHeaders | FirstUpstreamByte | FirstParsedChunk | FirstToolDelta | UpstreamComplete.

Inductive BackendStreamProgress :=
| PrefillProgress (chunk total tokens total_tokens : N)
| MlxStreamTiming (milestone : BackendStreamTimingMilestone) (latency_ms : N).

Inductive BackendToolCallType := BFunction.

Record BackendToolCallFunctionDelta := MkBackendFunctionDelta {
  bfd_name : option str;
  bfd_arguments : option str;
}.

Record BackendToolCallDelta := MkBackendToolCallDelta {
  btd_index : N;
  btd_id : option str;
  btd_call_type : option BackendToolCallType;
  btd_function : option BackendToolCallFunctionDelta;
}.

Record BackendOutput := MkOutput {
  out_text : str;
  out_prompt_tokens : N;
  out_prompt_cached_tokens : option N;
  out_completion_tokens : N;
  out_finish_reason : BackendFinishReason;
}.

Record BackendStreamChunk := MkChunk {
  chunk_text : str;
  chunk_tool_call_deltas : list BackendToolCallDelta;
  chunk_prompt_tokens : N;
  chunk_prompt_cached_tokens : option N;
  chunk_completion_tokens : N;
  chunk_finish_reason : option BackendFinishReason;
  chunk_progress : option BackendStreamProgress;
}.

(** The closure of [ModelBackend::generate_stream_with_cancel]. *)
Definition output_chunk (output : BackendOutput) : BackendStreamChunk :=
  MkChunk (out_text output) [] (out_prompt_tokens output) (out_prompt_cached_tokens output)
    (out_completion_tokens output) (Some (out_finish_reason output)) None.

(** ** Errors *)
Inductive BackendErrorKind :=
| ModelNotFound (requested available : str)
| UnsupportedRequest (message : str)
| InvalidSamplingConfig (message : str)
| Cancelled
| BackendFailure (code message : str)
| SchedulerOverloaded (message : str)
| TensorLoad (code message : str)
| Tokenizer (message : str)
| Sampler (message : str)
| Metal (message : str)
| Config (message : str)
| InternalInvariant (message : str).

Record BackendError := MkBackendError { error_kind : BackendErrorKind }.

Inductive BackendErrorDomain :=
| DModelNotFound (requested available : str)
| DInvalidRequest (reason : str)
| DCancelled
| DBackendFailure (e : BackendError).

Inductive BackendFailureClass :=
| CBackendExecution | CScheduler | CTensorLoad | CTokenizer | CSampler | CMetal | CConfig
| CInternalInvariant.

(** [BackendError::other]. *)
Definition error_other (message : str) : BackendError :=
  MkBackendError (BackendFailure (lit "backend_execution_failed") message).

Definition is_cancelled (e : BackendError) : bool :=
  match error_kind e with Cancelled => true | _ => false end.

Definition other_message (e : BackendError) : option str :=
  match error_kind e with
  | BackendFailure _ message | TensorLoad _ message => Some message
  | SchedulerOverloaded message | Tokenizer message | Sampler message | Metal message
  | Config message | InternalInvariant message => Some message
  | _ => None
  end.

Definition backend_failure_code (e : BackendError) : option str :=
  match error_kind e with
  | BackendFailure code _ => Some code
  | SchedulerOverloaded _ => Some (lit "model_overloaded")
  | TensorLoad code _ => Some code
  | Tokenizer _ => Some (lit "tokenizer_failed")
  | Sampler _ => Some (lit "sampler_failed")
  | Metal _ => Some (lit "metal_backend_failed")
  | Config _ => Some (lit "backend_config_failed")
  | InternalInvariant _ => Some (lit "backend_invariant_failed")
  | _ => None
  end.

Definition backend_failure_class (e : BackendError) : option BackendFailureClass :=
  match error_kind e with
  | BackendFailure _ _ => Some CBackendExecution
  | SchedulerOverloaded _ => Some CScheduler
  | TensorLoad _ _ => Some CTensorLoad
  | Tokenizer _ => Some CTokenizer
  | Sampler _ => Some CSampler
  | Metal _ => Some CMetal
  | Config _ => Some CConfig
  | InternalInvariant _ => Some CInternalInvariant
  | _ => None
  end.

Definition into_domain (e : BackendError) : BackendErrorDomain :=
  match error_kind e with
  | ModelNotFound requested available => DModelNotFound requested available
  | UnsupportedRequest reason | InvalidSamplingConfig reason => DInvalidRequest reason
  | Cancelled => DCancelled
  | kind => DBackendFailure (MkBackendError kind)
  end.

(** ** Lemmas *)
(** A length-prefixed string is read back unambiguously. *)
Lemma length_prefixed_inj (s1 s2 r1 r2 : str) :
  N.of_nat (length s1) ≤ u64_max → N.of_nat (length s2) ≤ u64_max →
  le_bytes 8 (N.of_nat (length s1)) ++ s1 ++ r1 = le_bytes 8 (N.of_nat (length s2)) ++ s2 ++ r2 →
  s1 = s2 ∧ r1 = r2.
Proof.
  intros H1 H2 H. apply app_inj_1 in H as [Hl Hr]; [|by rewrite !le_bytes_length].
  assert (u64_max < 256 ^ N.of_nat 8) as Hmax by done.
  apply le_bytes_inj in Hl; [|lia..]. apply app_inj_1 in Hr; [done|lia].
Qed.

Lemma cache_key_component_inj name v1 v2 r1 r2 :
  (∀ s, v1 = Some s ∨ v2 = Some s → N.of_nat (length s) ≤ u64_max) →
  cache_key_component name v1 ++ r1 = cache_key_component name v2 ++ r2 → v1 = v2 ∧ r1 = r2.
Proof.
  intros Hv H. unfold cache_key_component in H. rewrite <- !app_assoc in H.
  apply app_inv_head, app_inv_head in H.
  assert (∀ (s1 s2 : str), (le_bytes 8 (N.of_nat (length s1)) ++ s1) ++ r1
    = (le_bytes 8 (N.of_nat (length s2)) ++ s2) ++ r2 → (v1 = Some s1 → v2 = Some s2 → Some s1 = Some s2 ∧ r1 = r2)) as Hc.
  { intros s1 s2 Heq -> ->. rewrite <- !app_assoc in Heq.
    apply length_prefixed_inj in Heq as [-> ->]; [done| |]; apply Hv; eauto. }
  destruct v1 as [s1|], v2 as [s2|]; cbn [app] in H; try discriminate H.
  - apply Hc; [|done..]. apply (f_equal tail) in H. exact H.
  - apply (f_equal tail) in H. done.
Qed.

(** ** Properties *)

(** Strings no longer than the 64-bit length field can say. *)
Definition sized (v : option str) : Prop := ∀ s, v = Some s → N.of_nat (length s) ≤ u64_max.

(** Two prompt contexts that hash to the same bytes are the same context: the
    length-prefixed components cannot be confused with each other, an absent
    tool schema is not an empty one, and so (SHA-256 collisions aside) equal
    cache keys mean equal template, tool schema and template arguments. *)
Theorem cache_key_input_injective t1 s1 k1 t2 s2 k2 :
  sized (Some t1) → sized s1 → sized k1 → sized (Some t2) → sized s2 → sized k2 →
  cache_key_input t1 s1 k1 = cache_key_input t2 s2 k2 → t1 = t2 ∧ s1 = s2 ∧ k1 = k2.
Proof.
  unfold sized, cache_key_input. intros Ht1 Hs1 Hk1 Ht2 Hs2 Hk2 H. apply app_inv_head in H.
  apply cache_key_component_inj in H as [[= ->] H]; [|naive_solver].
  apply cache_key_component_inj in H as [-> H]; [|naive_solver].
  rewrite <- (app_nil_r (cache_key_component _ k1)), <- (app_nil_r (cache_key_component _ k2)) in H.
  apply cache_key_component_inj in H as [-> _]; [|naive_solver]. done.
Qed.

Lemma cache_key_input_injective_witness :
  let key_a := cache_key_input (lit "qwen/v1") (Some (lit "[]")) None in
  key_a = cache_key_input (lit "qwen/v1") (Some (lit "[]")) None ∧ lit "qwen/v1" = lit "qwen/v1"
  ∧ Some (lit "[]") = Some (lit "[]") ∧ (None : option str) = None.
Proof.
  intros key_a. split; [reflexivity|].
  apply (cache_key_input_injective (lit "qwen/v1") (Some (lit "[]")) None (lit "qwen/v1") (Some (lit "[]")) None);
    try reflexivity; intros s Hs; simplify_eq; vm_compute; discriminate.
Defined.

(** The domain projection keeps what callers branch on: the request-level
    failures are told apart, cancellation is never reported as a failure, and an
    execution failure arrives unchanged, with a stable code, class and message. *)
Theorem into_domain_classifies e :
  match into_domain e with
  | DModelNotFound requested available => error_kind e = ModelNotFound requested available
  | DInvalidRequest reason =>
      error_kind e = UnsupportedRequest reason ∨ error_kind e = InvalidSamplingConfig reason
  | DCancelled => is_cancelled e = true
  | DBackendFailure e' => e' = e
  end
  ∧ ((∃ e', into_domain e = DBackendFailure e') ↔ is_Some (backend_failure_code e))
  ∧ (is_Some (backend_failure_code e) ↔ is_Some (backend_failure_class e))
  ∧ (is_Some (backend_failure_code e) ↔ is_Some (other_message e)).
Proof.
  destruct e as [k]. destruct k; simpl; unfold is_Some; split_and!; try naive_solver.
Qed.
