(* ===== verification/Api.v ===== *)
(** * Requests of the public API

    The request types of [crates/llm-api/src] ([types.rs], [request.rs],
    [tool_schema.rs]), its limits ([limits.rs]) and errors ([error.rs]).  An
    [f32] is a [spec_float]; strings are valid UTF-8 by construction in the
    source, which [request_valid] states. *)
From Stdlib Require Import String SpecFloat.
From stdpp Require Import base sets numbers list.
From S2P Require Import Prelude Text Json.
Open Scope N_scope.

(** ** Errors *)
Record ApiError := MkApiError { code : str; message : str }.

Definition invalid_request (message : str) : ApiError := MkApiError (lit "invalid_request") message.
Definition unsupported_capability (message : str) : ApiError :=
  MkApiError (lit "unsupported_capability") message.
Definition http_status (e : ApiError) : N :=
  if bool_decide (code e = lit "invalid_request") || bool_decide (code e = lit "unsupported_capability")
  then 400 else 500.

(** ** Tools *)
Inductive ToolCallType := Function.

(** [generated_tool_call_id]; the UUID of the [index]-th call is a parameter. *)
Definition generated_tool_call_id (uuid : N → str) (index : N) : str := lit "call_" ++ uuid index.

Record ToolCallFunction := MkToolCallFunction { tcf_name : str; tcf_arguments : value }.

Record ToolCall := MkToolCall {
  tc_id : str;
  tc_type : ToolCallType;
  tc_function : ToolCallFunction;
}.

Record FunctionDefinition := MkFunctionDefinition {
  fd_name : str;
  fd_description : option str;
  fd_parameters : value;
}.

Record ToolDefinition := MkToolDefinition {
  td_type : ToolCallType;
  td_function : FunctionDefinition;
}.

Inductive ToolChoice := Auto | ChoiceNone | Required | ChoiceFunction (name : str).

(** ** Messages *)
Inductive ChatRole := System | User | Assistant | Tool.

#[export] Instance ChatRole_eq_dec : EqDecision ChatRole.
Proof. solve_decision. Defined.

Definition role_as_str (r : ChatRole) : str :=
  match r with
  | System => lit "system"
  | User => lit "user"
  | Assistant => lit "assistant"
  | Tool => lit "tool"
  end.

Record ChatMessage := MkMessage {
  cm_role : ChatRole;
  cm_content : option str;
  cm_name : option str;
  cm_tool_call_id : option str;
  cm_tool_calls : list ToolCall;
}.

Inductive ResponseFormat := RfText | RfJsonObject | RfJsonSchema (schema : value).

(** ** Requests *)
Record ChatCompletionRequest := MkChatRequest {
  ch_model : str;
  ch_messages : list ChatMessage;
  ch_tools : list ToolDefinition;
  ch_tool_choice : option ToolChoice;
  ch_parallel_tool_calls : option bool;
  ch_response_format : option ResponseFormat;
  ch_stream : bool;
  ch_include_usage : bool;
  ch_temperature : option spec_float;
  ch_top_p : option spec_float;
  ch_presence_penalty : option spec_float;
  ch_frequency_penalty : option spec_float;
  ch_logprobs : option bool;
  ch_top_logprobs : option N;
  ch_max_tokens : option N;
  ch_max_completion_tokens : option N;
  ch_n : option N;
  ch_stop : list str;
}.

Definition effective_max_tokens (r : ChatCompletionRequest) : option N :=
  match ch_max_completion_tokens r with Some n => Some n | None => ch_max_tokens r end.

Record CompletionRequest := MkCompletionRequest {
  cr_model : str;
  cr_prompt : str;
  cr_stream : bool;
  cr_include_usage : bool;
  cr_temperature : option spec_float;
  cr_top_p : option spec_float;
  cr_presence_penalty : option spec_float;
  cr_frequency_penalty : option spec_float;
  cr_logprobs : option N;
  cr_max_tokens : option N;
  cr_n : option N;
  cr_stop : list str;
}.

(** ** Limits *)
Definition MAX_JSON_BODY_BYTES : N := 16 * 1024 * 1024.
Definition MAX_CHAT_MESSAGES : N := 128.
Definition MAX_MESSAGE_CONTENT_BYTES : N := 8 * 1024 * 1024.
Definition MAX_COMPLETION_PROMPT_BYTES : N := 8 * 1024 * 1024.
Definition MAX_NAME_BYTES : N := 1024.
Definition MAX_TOOLS : N := 128.
Definition MAX_TOOL_DESCRIPTION_BYTES : N := 1024 * 1024.
Definition MAX_TOOL_SCHEMA_BYTES : N := 1024 * 1024.
Definition MAX_TOOL_SCHEMA_DEPTH : N := 16.
Definition MAX_TOOL_SCHEMA_ENUM_VALUES : N := 256.
Definition MAX_TOOL_CALLS_PER_MESSAGE : N := 128.
Definition MAX_TOOL_ARGUMENT_BYTES : N := 1024 * 1024.
Definition MAX_STOP_SEQUENCES : N := 4.
Definition MAX_STOP_SEQUENCE_BYTES : N := 1024.
Definition EXACT_REPEAT_THRESHOLD : N := 5.
Definition FUZZY_REPEAT_THRESHOLD : N := 3.

Record RequestLimits := MkLimits {
  json_body_bytes : N;
  message_content_bytes : N;
  completion_prompt_bytes : N;
  tool_schema_depth : N;
  tool_schema_enum_values : N;
}.

Definition default_limits : RequestLimits :=
  MkLimits MAX_JSON_BODY_BYTES MAX_MESSAGE_CONTENT_BYTES MAX_COMPLETION_PROMPT_BYTES
    MAX_TOOL_SCHEMA_DEPTH MAX_TOOL_SCHEMA_ENUM_VALUES.
