(* ===== verification/MlxStop.v ===== *)
(** * The control-token filter of the MLX bridge

    Models [MlxControlStopFilter] of [crates/llm-engine/src/mlx/sse.rs] and the
    token lists of [mlx/protocol.rs]: text arrives in pieces, the control tokens
    of the model family end it, and a suffix that may still become one is
    withheld.

    Every position the filter cuts at is one where a token or a prefix of a
    token starts, and a token starts with a character, so no cut is inside a
    character. *)
From Stdlib Require Import String.
From stdpp Require Import base sets numbers list.
From S2P Require Import Prelude Text Json Whitespace Stop.
Open Scope nat_scope.

(** ** Definitions *)
Record MlxControlStopFilter := MkFilter { stop_tokens : list str; pending : str; stopped : bool }.

Definition filter_new (tokens : list str) : MlxControlStopFilter := MkFilter tokens [] false.

(** [Iterator::max], 0 when there is none. *)
Definition max_or_zero (l : list nat) : nat := foldr Nat.max 0 l.

Definition first_stop_token (f : MlxControlStopFilter) : option (nat * nat) :=
  first_min (λ x y, x.1 <? y.1)
    (omap (λ token, (λ index, (index, length token)) <$> find token (pending f)) (stop_tokens f)).

(** The lengths [1..token.len()] at which a token may be cut. *)
Definition prefix_lengths (token s : str) : list nat :=
  filter (λ n, is_char_boundary token n && ends_with s (take n token) = true) (seq 1 (length token - 1)).

Definition pending_stop_prefix_len (f : MlxControlStopFilter) : nat :=
  max_or_zero (stop_tokens f ≫= λ token, prefix_lengths token (pending f)).

Definition push_str (text : str) (f : MlxControlStopFilter) : str * MlxControlStopFilter :=
  if stopped f || bool_decide (text = []) then ([], f)
  else
    let f := MkFilter (stop_tokens f) (pending f ++ text) false in
    match first_stop_token f with
    | Some (index, _) => (take index (pending f), MkFilter (stop_tokens f) [] true)
    | None =>
        let withheld := pending_stop_prefix_len f in
        if withheld =? length (pending f) then ([], f)
        else
          let split_at := length (pending f) - withheld in
          (take split_at (pending f), MkFilter (stop_tokens f) (drop split_at (pending f)) false)
    end.

Definition finish (f : MlxControlStopFilter) : str * MlxControlStopFilter :=
  if stopped f then ([], MkFilter (stop_tokens f) [] true) else (pending f, MkFilter (stop_tokens f) [] false).

(** The control tokens of each model family. *)
Definition MLX_QWEN_CONTROL_STOP_TOKENS : list str := [lit "<|im_end|>"; lit "<|endoftext|>"].
(** Spelled [<｜end▁of▁sentence｜>] and [<｜User｜>], with U+FF5C and U+2581. *)
Definition bar : str := [239; 189; 156]%N.
Definition low_line : str := [226; 150; 129]%N.
(** The DeepSeek tags [<｜tool▁calls▁begin｜>] and the like. *)
Definition deepseek_tag (words : list str) : str := lit "<" ++ bar ++ join low_line words ++ bar ++ lit ">".
Definition MLX_DEEPSEEK_CONTROL_STOP_TOKENS : list str :=
  [lit "<" ++ bar ++ lit "end" ++ low_line ++ lit "of" ++ low_line ++ lit "sentence" ++ bar ++ lit ">";
   lit "<" ++ bar ++ lit "User" ++ bar ++ lit ">"; lit "<|endoftext|>"].
Definition MLX_GEMMA_CONTROL_STOP_TOKENS : list str :=
  [lit "<turn|>"; lit "<|tool_response>"; lit "<eos>"; lit "<|endoftext|>"].
Definition MLX_LLAMA_CONTROL_STOP_TOKENS : list str := [lit "<|eot_id|>"; lit "<|end_of_text|>"].

(** A stream of pieces: what each [push_str] returns, and the filter. *)
Fixpoint push_all (texts : list str) (f : MlxControlStopFilter) : str * MlxControlStopFilter :=
  match texts with
  | [] => ([], f)
  | t :: texts =>
      let '(out, f) := push_str t f in
      let '(outs, f) := push_all texts f in (out ++ outs, f)
  end.

(** ** Control tokens

    A token is a nonempty string; and one token inside another either starts or
    ends with it, so that the token that starts first is also complete first. *)
Definition nested_ok (t u : str) : bool :=
  forallb (λ i, negb (starts_with u (drop i t)) || (i =? 0) || (i + length u =? length t)) (seq 0 (S (length t))).
Definition token_ok (t : str) : bool :=
  match t with [] => false | b :: _ => negb (is_continuation b) end.
Definition tokens_ok (tokens : list str) : bool :=
  forallb token_ok tokens && forallb (λ t, forallb (nested_ok t) tokens) tokens.

Lemma control_tokens_ok :
  tokens_ok MLX_QWEN_CONTROL_STOP_TOKENS = true ∧ tokens_ok MLX_DEEPSEEK_CONTROL_STOP_TOKENS = true
  ∧ tokens_ok MLX_GEMMA_CONTROL_STOP_TOKENS = true ∧ tokens_ok MLX_LLAMA_CONTROL_STOP_TOKENS = true.
Proof. by vm_compute. Qed.

Record tokens_wf (tokens : list str) : Prop := {
  tw_stops : stops_wf tokens;
  tw_nested : ∀ t u i, t ∈ tokens → u ∈ tokens → occurs u t i → i = 0 ∨ i + length u = length t;
}.

Lemma tokens_ok_wf tokens : tokens_ok tokens = true → tokens_wf tokens.
Proof.
  unfold tokens_ok. intros [Ht Hn]%andb_true_iff. rewrite forallb_forall in Ht, Hn. split.
  - intros t Hin%list_elem_of_In. specialize (Ht t Hin). destruct t as [|b t]; [done|]. split; [done|].
    cbn in *. by apply negb_true_iff.
  - intros t u i Htin%list_elem_of_In Huin%list_elem_of_In [Hi Ho]. specialize (Hn t Htin).
    rewrite forallb_forall in Hn. specialize (Hn u Huin). unfold nested_ok in Hn. rewrite forallb_forall in Hn.
    assert (In i (seq 0 (S (length t)))) as Hin by (apply in_seq; lia).
    specialize (Hn i Hin). rewrite Ho in Hn. cbn [negb orb] in Hn.
    apply orb_prop in Hn as [H|H]; apply Nat.eqb_eq in H; [by left|by right].
Qed.

(** ** Lemmas *)
Lemma max_or_zero_ge l n : n ∈ l → n ≤ max_or_zero l.
Proof.
  induction l as [|x l IH]; [by intros ?%not_elem_of_nil|].
  change (max_or_zero (x :: l)) with (Nat.max x (max_or_zero l)). intros [->|Hn]%elem_of_cons; [lia|].
  specialize (IH Hn). lia.
Qed.
Lemma max_or_zero_in l : max_or_zero l = 0 ∨ max_or_zero l ∈ l.
Proof.
  induction l as [|x l IH]; [by left|].
  change (max_or_zero (x :: l)) with (Nat.max x (max_or_zero l)). destruct (Nat.max_spec x (max_or_zero l)) as [[_ ->]|[_ ->]].
  - destruct IH as [->|]; [by left|right; by right].
  - right. by left.
Qed.

Lemma elem_prefix_lengths token s n :
  n ∈ prefix_lengths token s ↔
  0 < n < length token ∧ is_char_boundary token n = true ∧ ends_with s (take n token) = true.
Proof.
  unfold prefix_lengths. rewrite list_elem_of_filter, elem_of_seq, andb_true_iff.
  split; [intros [[? ?] ?]; split_and!; try done; lia|intros (? & ? & ?); split; [done|lia]].
Qed.

Lemma first_stop_token_index f :
  fst <$> first_stop_token f = earliest_stop_index (pending f) (stop_tokens f).
Proof.
  set (l := omap (λ token, (λ index, (index, length token)) <$> find token (pending f)) (stop_tokens f)).
  assert (fst <$> l = omap (λ sequence, find sequence (pending f)) (stop_tokens f)) as Hl.
  { unfold l. induction (stop_tokens f) as [|t ts IH]; [done|]. cbn. destruct (find t (pending f)); cbn; by rewrite <- IH. }
  unfold first_stop_token, earliest_stop_index. fold l. rewrite <- Hl.
  destruct (first_min (λ x y, x.1 <? y.1) l) as [[i n]|] eqn:Hm; cbn.
  - symmetry. apply list_min_Some. apply first_min_Some in Hm as [Hin Hmin].
    + split; [apply list_elem_of_fmap; by exists (i, n)|]. intros y (x & -> & Hx)%list_elem_of_fmap.
      specialize (Hmin x Hx). cbn in Hmin. apply Nat.ltb_ge in Hmin. done.
    + intros x y z. rewrite !Nat.ltb_ge. lia.
    + intros x y. rewrite Nat.ltb_lt, Nat.ltb_ge. lia.
  - apply first_min_None in Hm. by rewrite Hm.
Qed.

(** ** The filter and the whole text *)

(** Position [p] of [s] starts a proper prefix of a token that reaches the end
    of [s], cut at a character. *)
Definition open_prefix (tokens : list str) (s : str) (p : nat) : Prop :=
  ∃ t, t ∈ tokens ∧ length s - p < length t ∧ drop p s = take (length s - p) t
       ∧ is_char_boundary t (length s - p) = true.

(** After the text [s], of which [e] bytes were passed on. *)
Record filter_inv (tokens : list str) (s : str) (e : nat) (f : MlxControlStopFilter) : Prop := {
  fi_filter : f = MkFilter tokens (drop e s) false;
  fi_emitted : e ≤ length s;
  fi_clear : ∀ i, ¬ stop_occurs tokens s i;
  fi_withheld : ∀ p, p < e → ¬ open_prefix tokens s p;
}.

Lemma next_char_boundary t s text p b r :
  text = b :: r → is_continuation b = false → p < length s →
  starts_with t (drop p (s ++ text)) = true → length s < p + length t →
  is_char_boundary t (length s - p) = true ∧ drop p s = take (length s - p) t.
Proof.
  intros -> Hb Hp (x & Hx)%starts_with_app Hl. rewrite drop_app_le in Hx by lia.
  assert (length (drop p s) = length s - p) as Hd by apply length_drop.
  split.
  - destruct (length s - p) as [|n] eqn:E; [lia|]. cbn [is_char_boundary].
    assert (t !! S n = Some b) as ->; [|by rewrite Hb].
    assert ((drop p s ++ b :: r) !! S n = Some b) as Hn.
    { rewrite lookup_app_r by lia. rewrite Hd, Nat.sub_diag. done. }
    rewrite Hx in Hn. rewrite lookup_app_l in Hn by lia. done.
  - assert (take (length s - p) (t ++ x) = drop p s) as Ht.
    { rewrite <- Hx, <- Hd. apply take_app_length. }
    rewrite take_app_le in Ht by lia. done.
Qed.

(** A token that was not in the text before starts after what was passed on. *)
Lemma new_stop_after tokens s e f text i :
  filter_inv tokens s e f → text ≠ [] → starts_char text → stop_occurs tokens (s ++ text) i → e ≤ i.
Proof.
  intros [_ He Hclear Hopen] Hne Hsc (t & Ht & Hi & Ho). destruct (decide (e ≤ i)) as [|Hlt]; [done|exfalso].
  destruct text as [|b r]; [done|]. cbn in Hsc.
  destruct (decide (i + length t ≤ length s)) as [Hle|Hgt].
  - apply (Hclear i). exists t. split; [done|]. eapply occurs_shorten; [exact Hle|]. by split.
  - destruct (next_char_boundary t s (b :: r) i b r eq_refl Hsc ltac:(lia) Ho ltac:(lia)) as [Hb Hd].
    apply (Hopen i); [lia|]. exists t. split_and!; [done|lia|done|done].
Qed.

Lemma earliest_drop tokens s e :
  e ≤ length s → (∀ i, stop_occurs tokens s i → e ≤ i) →
  earliest_stop_index s tokens = Nat.add e <$> earliest_stop_index (drop e s) tokens.
Proof.
  intros He Hge. assert (∀ i, stop_occurs tokens (drop e s) i ↔ stop_occurs tokens s (e + i)) as Hiff.
  { intros i. unfold stop_occurs. setoid_rewrite (occurs_drop _ s e i He). done. }
  destruct (earliest_stop_index (drop e s) tokens) as [i|] eqn:E; cbn.
  - apply earliest_Some in E as [Ho Hmin]. apply earliest_Some. split; [by apply Hiff|].
    intros j Hj Hoj. pose proof (Hge j Hoj). apply (Hmin (j - e)); [lia|]. apply Hiff.
    by replace (e + (j - e)) with j by lia.
  - apply earliest_None. intros i Ho. pose proof (Hge i Ho).
    apply (proj1 (earliest_None _ _) E (i - e)). apply Hiff. by replace (e + (i - e)) with i by lia.
Qed.

(** A complete token is not preceded by one that more text would complete. *)
Lemma earliest_final tokens s more i :
  tokens_wf tokens → earliest_stop_index s tokens = Some i → earliest_stop_index (s ++ more) tokens = Some i.
Proof.
  intros Hwf [(t & Ht & Ho) Hmin]%earliest_Some. apply earliest_Some. split.
  { exists t. split; [done|]. by apply occurs_app_l. }
  intros j Hj (u & Hu & Hou). destruct (decide (j + length u ≤ length s)) as [Hle|Hgt].
  { apply (Hmin j Hj). exists u. split; [done|]. by eapply occurs_shorten. }
  pose proof (occurs_length _ _ _ Ho) as Hlt.
  assert (occurs t u (i - j)) as Hnest.
  { split; [lia|]. destruct Hou as [_ (x & Hx)%starts_with_app].
    assert (starts_with t (drop (i - j) (u ++ x)) = true) as Hs.
    { rewrite <- Hx, drop_drop. replace (j + (i - j)) with i by lia.
      destruct (occurs_app_l _ _ more _ Ho) as [_ ?]. done. }
    rewrite drop_app_le in Hs by lia. rewrite starts_with_shorten in Hs; [done|]. rewrite length_drop. lia. }
  destruct (tw_nested _ Hwf u t (i - j) Hu Ht Hnest); lia.
Qed.

Lemma pending_prefix_le f : pending_stop_prefix_len f ≤ length (pending f).
Proof.
  unfold pending_stop_prefix_len. destruct (max_or_zero_in (stop_tokens f ≫= λ token, prefix_lengths token (pending f))) as [->|Hin]; [lia|].
  revert Hin. generalize (max_or_zero (stop_tokens f ≫= λ token, prefix_lengths token (pending f))). intros n Hin.
  apply list_elem_of_bind in Hin as (t & Hn & _). apply elem_prefix_lengths in Hn as (Hn & _ & He).
  unfold ends_with in He. apply andb_true_iff in He as [He _]. apply Nat.leb_le in He. rewrite length_take in He. lia.
Qed.

(** One piece: either the first token is complete, or the invariant moves on. *)
Lemma push_str_inv tokens s e f text :
  filter_inv tokens s e f → starts_char text →
  let '(out, f') := push_str text f in
  (∃ i, earliest_stop_index (s ++ text) tokens = Some i ∧ take e s ++ out = take i (s ++ text)
        ∧ f' = MkFilter tokens [] true)
  ∨ ∃ e', filter_inv tokens (s ++ text) e' f' ∧ take e s ++ out = take e' (s ++ text).
Proof.
  intros Hinv Hsc. pose proof Hinv as [-> He Hclear Hopen]. unfold push_str. cbn [stopped stop_tokens pending orb].
  destruct text as [|b r] eqn:Etext.
  { right. exists e. rewrite !app_nil_r. by split. }
  rewrite <- Etext in *. rewrite bool_decide_eq_false_2 by (by rewrite Etext).
  assert (text ≠ []) as Hne by (by rewrite Etext).
  assert (drop e s ++ text = drop e (s ++ text)) as Hpend by (by rewrite drop_app_le).
  assert (e ≤ length (s ++ text)) as He' by (rewrite length_app; lia).
  cbv zeta. set (f1 := MkFilter tokens (drop e s ++ text) false).
  assert (earliest_stop_index (s ++ text) tokens = Nat.add e <$> (fst <$> first_stop_token f1)) as Hearly.
  { rewrite first_stop_token_index. cbn [pending stop_tokens f1]. rewrite Hpend. apply earliest_drop; [done|].
    intros i. by apply (new_stop_after tokens s e _ text i Hinv). }
  destruct (first_stop_token f1) as [[i n]|]; cbn in Hearly.
  - left. exists (e + i). split; [done|]. split; [|done]. cbn [pending f1]. rewrite Hpend.
    rewrite <- take_take_drop. f_equal. by rewrite take_app_le.
  - pose proof (pending_prefix_le f1) as Hwle.
    assert (∀ p, p < length (s ++ text) - pending_stop_prefix_len f1 → ¬ open_prefix tokens (s ++ text) p) as Hopen'.
    { intros p Hp (t & Ht & Hlt & Hd & Hb). destruct (decide (p < e)) as [Hpe|Hpe].
      - apply (Hopen p Hpe). exists t.
        assert (starts_with (drop p (s ++ text)) t = true) as Hs.
        { apply starts_with_app. exists (drop (length (s ++ text) - p) t). rewrite Hd. by rewrite take_drop. }
        rewrite length_app in *.
        assert (take (length s - p) t = drop p s) as Hts.
        { apply (f_equal (take (length s - p))) in Hd. rewrite take_take in Hd. rewrite Nat.min_l in Hd by lia.
          rewrite <- Hd. rewrite drop_app_le by lia.
          assert (length (drop p s) = length s - p) as <- by apply length_drop. by rewrite take_app_length. }
        split_and!; [done|lia|done|].
        destruct (length s - p) as [|m] eqn:Em; [lia|]. cbn [is_char_boundary].
        assert (t !! S m = Some b) as ->; [|subst text; cbn in Hsc; by rewrite Hsc].
        assert (drop p (s ++ text) !! S m = Some b) as Hl.
        { rewrite drop_app_le by lia. rewrite lookup_app_r by (rewrite length_drop; lia).
          rewrite length_drop, Em, Nat.sub_diag. by rewrite Etext. }
        rewrite Hd, lookup_take in Hl. by case_decide.
      - assert (length (s ++ text) - p ≤ pending_stop_prefix_len f1); [|lia].
        apply max_or_zero_ge. apply list_elem_of_bind. exists t. split; [|done]. apply elem_prefix_lengths.
        assert (0 < length (s ++ text) - p) by lia.
        split_and!; [lia|lia|done|]. apply ends_with_spec. rewrite <- Hd. cbn [pending f1]. rewrite Hpend.
        exists (take (p - e) (drop e (s ++ text))).
        replace (drop p (s ++ text)) with (drop (p - e) (drop e (s ++ text))) by (rewrite drop_drop; by replace (e + (p - e)) with p by lia).
        by rewrite take_drop. }
    assert (∀ i, ¬ stop_occurs tokens (s ++ text) i) as Hclear' by (by apply earliest_None).
    assert (length (pending f1) = length (s ++ text) - e) as Hpl.
    { cbn [pending f1]. rewrite Hpend. apply length_drop. }
    change (drop e s ++ text) with (pending f1).
    destruct (Nat.eqb_spec (pending_stop_prefix_len f1) (length (pending f1))) as [Heq|Hneq].
    + right. exists e. split; [|by rewrite app_nil_r, take_app_le]. split; [by rewrite <- Hpend|done|done|].
      intros p Hp. apply Hopen'. lia.
    + set (k := length (pending f1) - pending_stop_prefix_len f1).
      cbv beta iota zeta. right. exists (e + k). split.
      * split; [|unfold k; lia|done|intros p Hp; apply Hopen'; unfold k in Hp; lia].
        cbn [stop_tokens pending f1]. f_equal. rewrite Hpend, drop_drop. done.
      * cbn [pending f1]. rewrite Hpend, <- take_take_drop. f_equal. by rewrite take_app_le.
Qed.

Lemma push_all_stopped tokens texts : push_all texts (MkFilter tokens [] true) = ([], MkFilter tokens [] true).
Proof. induction texts as [|t texts IH]; [done|]. cbn. by rewrite IH. Qed.

Lemma push_all_spec tokens texts s e f :
  tokens_wf tokens → filter_inv tokens s e f → Forall starts_char texts →
  let '(out, f') := push_all texts f in
  take e s ++ out ++ (finish f').1 = (apply_stop_sequences (s ++ concat texts) tokens).2
  ∧ stopped f' = (apply_stop_sequences (s ++ concat texts) tokens).1.
Proof.
  intros Hwf. revert s e f. induction texts as [|t texts IH]; intros s e f Hinv Hsc.
  - cbn. destruct Hinv as [-> He Hclear _]. rewrite app_nil_r. unfold finish. cbn. rewrite take_drop.
    unfold apply_stop_sequences. by rewrite (proj2 (earliest_None _ _) Hclear).
  - apply Forall_cons in Hsc as [Ht Hsc]. cbn [push_all concat].
    pose proof (push_str_inv tokens s e f t Hinv Ht) as Hp. destruct (push_str t f) as [out f1].
    destruct Hp as [(i & Hi & Hout & ->)|(e' & Hinv' & Hout)].
    + rewrite push_all_stopped. unfold finish. cbn. rewrite !app_nil_r, Hout, app_assoc.
      pose proof (earliest_final tokens (s ++ t) (concat texts) i Hwf Hi) as Hf.
      unfold apply_stop_sequences. rewrite Hf. split; [|done]. cbn.
      apply earliest_Some in Hi as [(u & _ & Ho) _]. pose proof (occurs_length _ _ _ Ho). 
      by rewrite (take_app_le (s ++ t) (concat texts)) by lia.
    + specialize (IH _ _ _ Hinv' Hsc). destruct (push_all texts f1) as [outs f'].
      rewrite (app_assoc s t). rewrite <- (app_assoc out), (app_assoc (take e s)), Hout. exact IH.
Qed.

Lemma filter_new_inv tokens : tokens_wf tokens → filter_inv tokens [] 0 (filter_new tokens).
Proof.
  intros Hwf. split; [done|done| |intros p Hp; lia]. intros i (t & Ht & Ho). apply occurs_length in Ho.
  destruct (tw_stops _ Hwf t Ht) as [Hne _]. destruct t; [done|]. cbn in Ho. lia.
Qed.

(** C32: However the model's text is cut into pieces, the control-token filter
    passes on, in order and nothing else, the text before the first control
    token (all of it when there is none), and it is stopped exactly when a
    control token occurred; text that merely starts like a token is only
    delayed. *)
Theorem stop_filter_truncates tokens texts :
  tokens_wf tokens → Forall starts_char texts →
  let '(out, f) := push_all texts (filter_new tokens) in
  out ++ (finish f).1 = (apply_stop_sequences (concat texts) tokens).2
  ∧ stopped f = (apply_stop_sequences (concat texts) tokens).1.
Proof.
  intros Hwf Hsc. pose proof (push_all_spec tokens texts [] 0 _ Hwf (filter_new_inv tokens Hwf) Hsc) as H.
  by destruct (push_all texts (filter_new tokens)) as [out f].
Qed.

(** ["a <|im"], ["_end|"] and ["> b"] with the tokens of the Qwen models. *)
Lemma stop_filter_truncates_witness :
  let '(out, f) := push_all [lit "a <|im"; lit "_end|"; lit "> b"] (filter_new MLX_QWEN_CONTROL_STOP_TOKENS) in
  out ++ (finish f).1 = lit "a " ∧ stopped f = true.
Proof.
  pose proof (stop_filter_truncates MLX_QWEN_CONTROL_STOP_TOKENS [lit "a <|im"; lit "_end|"; lit "> b"]
    (tokens_ok_wf _ (proj1 control_tokens_ok))) as H.
  destruct (push_all _ _) as [out f]. destruct H as [Ho Hs]; [by repeat constructor|].
  split; [rewrite Ho|rewrite Hs]; reflexivity.
Defined.
