(* ===== verification/ToolParse.v ===== *)
(** * Parsers of assistant output

    Models [crates/llm-tool-parser/src]: splitting hidden reasoning, visible
    content and tool calls out of a complete model output, for each model family
    ([common.rs], [qwen.rs], [llama.rs], [deepseek.rs], [gemma.rs], [json.rs],
    [types.rs], [lib.rs]), and the family names of [llm-models].

    Positions come from [find] with whole tags, or follow an ASCII character, so
    cutting there is [take]/[drop]; the one slice whose ends can be out of order,
    in [parse_xml_call], is [between], which panics then.  A loop consumes a tag in every turn and is given one more step
    than its text has bytes; the Gemma argument parser, which may call itself
    once without consuming, has twice that.  Running out of steps is [Panic],
    which [ToolParseTheorems.v] shows never happens. *)
From Stdlib Require Import String.
From stdpp Require Import base sets numbers list.
From S2P Require Import Prelude Text Json Whitespace MlxStop Api.
Open Scope nat_scope.

(** ** Data *)
Record ParsedAssistant := MkParsed {
  reasoning : option str;
  content : str;
  tool_calls : list ToolCall;
}.
Definition parsed_content (content : str) : ParsedAssistant := MkParsed None content [].

Record ParserError := MkParserError { parser_code : str; parser_message : str }.
Definition malformed_tool (message : str) : ParserError := MkParserError (lit "malformed_tool_call") message.
Definition unsupported_multimodal (message : str) : ParserError :=
  MkParserError (lit "unsupported_multimodal_output") message.

Abbreviation presult := (outcome ParserError) (only parsing).

Inductive ModelFamily := Qwen | DeepSeek | Gemma | Llama.
Definition parse_slug (value : str) : option ModelFamily :=
  if bool_decide (value = lit "qwen") then Some Qwen
  else if bool_decide (value = lit "deep_seek") || bool_decide (value = lit "deepseek") then Some DeepSeek
  else if bool_decide (value = lit "gemma") then Some Gemma
  else if bool_decide (value = lit "llama") then Some Llama
  else None.
Definition canonical_slug (f : ModelFamily) : str :=
  match f with Qwen => lit "qwen" | DeepSeek => lit "deep_seek" | Gemma => lit "gemma" | Llama => lit "llama" end.

Inductive ToolParserFamily := FAuto | FHermes | FQwen | FDeepSeek | FGemma | FLlama | FJson | FXlam.

Definition VLLM_TOOL_PARSER_ROUTES : list (str * ToolParserFamily) :=
  [(lit "deepseek_v3", FDeepSeek); (lit "functiongemma", FGemma); (lit "gemma4", FGemma); (lit "hermes", FHermes);
   (lit "llama3", FLlama); (lit "llama3_json", FLlama); (lit "qwen3coder", FQwen); (lit "qwen3xml", FQwen);
   (lit "xlam", FXlam); (lit "json", FJson); (lit "openai", FJson); (lit "mistral", FJson); (lit "granite", FJson);
   (lit "granite_20b_fc", FJson); (lit "hunyuan_a13b", FJson); (lit "kimi_k2", FJson); (lit "minimax", FJson);
   (lit "minimax_m2", FJson); (lit "olmo3", FJson); (lit "phi4mini", FJson); (lit "seed_oss", FJson);
   (lit "step3", FJson); (lit "step3p5", FJson)].

Definition to_ascii_lowercase (s : str) : str :=
  (λ b, if (65 <=? b)%N && (b <=? 90)%N then (b + 32)%N else b) <$> s.
Definition normalize_parser_name (name : str) : str :=
  to_ascii_lowercase ((λ b, if (b =? 45)%N then 95%N else b) <$>
    trim_end_matches (lit "_parser") (trim_end_matches (lit "_tool_parser") (trim name))).
Definition from_vllm_name (name : str) : option ToolParserFamily :=
  snd <$> List.find (λ r, bool_decide (normalize_parser_name name = r.1)) VLLM_TOOL_PARSER_ROUTES.

(** ** Tags *)
Definition TOOL_START : str := lit "<tool_call>".
Definition TOOL_END : str := lit "</tool_call>".
Definition DSML_START : str := lit "<dsml_tool_call>".
Definition DSML_END : str := lit "</dsml_tool_call>".
Definition GEMMA_START : str := lit "<|tool_call>".
Definition GEMMA_END : str := lit "<tool_call|>".
Definition GEMMA_QUOTE : str := lit "<|" ++ [34%N] ++ lit "|>".
Definition CALLS_BEGIN : str := deepseek_tag [lit "tool"; lit "calls"; lit "begin"].
Definition CALLS_END : str := deepseek_tag [lit "tool"; lit "calls"; lit "end"].
Definition CALL_BEGIN : str := deepseek_tag [lit "tool"; lit "call"; lit "begin"].
Definition CALL_END : str := deepseek_tag [lit "tool"; lit "call"; lit "end"].
Definition CALL_SEP : str := deepseek_tag [lit "tool"; lit "sep"].
Definition END_OF_SENTENCE : str := deepseek_tag [lit "end"; lit "of"; lit "sentence"].
Definition USER_TAG : str := deepseek_tag [lit "User"].
Definition ASSISTANT_TAG : str := deepseek_tag [lit "Assistant"].
Definition GEMMA_THOUGHT : str := lit "<|channel>thought" ++ [10%N].

(** [tokens.iter().filter_map(|t| text.find(t)).min().map_or(text, |i| &text[..i])]. *)
Definition before_first (tokens : list str) (text : str) : str :=
  match list_min (omap (λ token, find token text) tokens) with
  | Some index => take index text
  | None => text
  end.

(** ** Reasoning *)
Definition split_reasoning (text : str) : presult (option str * str) :=
  match find (lit "<think>") text with
  | None => Ok (None, text)
  | Some start =>
      let body := drop (start + 7) text in
      match find (lit "</think>") body with
      | None => Ok (Some body, take start text)
      | Some len => Ok (Some (take len body), take start text ++ drop (len + 8) body)
      end
  end.

(** ** Blocks

    The loops over tagged blocks: the text outside of them, and the call of each. *)
Section blocks.
Variables (open close : str) (unterminated : ParserError) (parse_call : str → N → presult ToolCall).
Fixpoint blocks (fuel : nat) (rest content : str) (calls : list ToolCall) : presult (str * list ToolCall) :=
  match fuel with
  | O => Panic
  | S fuel =>
      match find open rest with
      | None => Ok (content ++ rest, calls)
      | Some start =>
          let body := drop (start + length open) rest in
          match find close body with
          | None => Err unterminated
          | Some len =>
              call ← parse_call (trim (take len body)) (N.of_nat (length calls));
              blocks fuel (drop (len + length close) body) (content ++ take start rest) (calls ++ [call])
          end
      end
  end.
Definition parse_blocks (rest : str) : presult (str * list ToolCall) := blocks (S (length rest)) rest [] [].
End blocks.

Definition value_get (key : str) (v : value) : option value := as_object v ≫= get key.

Section parse.
(** [serde_json::from_str] into a [Value] and into a [String], or the text of the
    error. *)
Variable from_str : str → value + str.
Variable string_from_str : str → str + str.
(** The UUIDs drawn during one parse. *)
Variable uuid : N → str.

Definition parse_json (context text : str) : presult value :=
  match from_str text with inl v => Ok v | inr err => Err (malformed_tool (context ++ err)) end.

(** The [id] of a call, or a generated one. *)
Definition call_id (id : option value) (index : N) : str :=
  match id ≫= as_str with
  | Some id => if bool_decide (id = []) then generated_tool_call_id uuid index else id
  | None => generated_tool_call_id uuid index
  end.
Definition function_call (id name : str) (arguments : value) : ToolCall :=
  MkToolCall id Function (MkToolCallFunction name arguments).

(** ** Qwen markup *)
Definition parse_json_tool_arguments (v : value) : presult value :=
  match v with
  | JString arguments =>
      let trimmed := trim arguments in
      if bool_decide (trimmed = []) then Ok (Object [])
      else if starts_with (lit "{") trimmed || starts_with (lit "[") trimmed then
        parse_json (lit "invalid JSON tool-call arguments: ") trimmed
      else Ok (JString arguments)
  | other => Ok other
  end.

(** The arguments of a call, an empty object when there are none. *)
Definition arguments_or_empty (arguments : option value) : presult value :=
  match arguments with Some v => parse_json_tool_arguments v | None => Ok (Object []) end.

Definition parse_json_call (inner : str) (index : N) : presult ToolCall :=
  v ← parse_json (lit "invalid qwen tool JSON: ") inner;
  name ← ok_or (malformed_tool (lit "qwen tool JSON missing name")) (value_get (lit "name") v ≫= as_str);
  arguments ← arguments_or_empty
    (or_else (value_get (lit "arguments") v) (or_else (value_get (lit "parameters") v) (value_get (lit "args") v)));
  Ok (function_call (call_id (value_get (lit "id") v) index) name arguments).

Fixpoint xml_parameters (fuel : nat) (rest : str) (m : object) : presult object :=
  match fuel with
  | O => Panic
  | S fuel =>
      match find (lit "<parameter=") rest with
      | None => Ok m
      | Some start =>
          let body := drop (start + 11) rest in
          match find (lit ">") body with
          | None => Err (malformed_tool (lit "unterminated qwen parameter tag"))
          | Some key_end =>
              let tail := drop (key_end + 1) body in
              match find (lit "</parameter>") tail with
              | None => Err (malformed_tool (lit "missing qwen parameter close tag"))
              | Some value_end =>
                  xml_parameters fuel (drop (value_end + 12) tail)
                    (map_insert (take key_end body) (JString (take value_end tail)) m)
              end
          end
      end
  end.

(** [&s[i..j]] where both are boundaries. *)
Definition between (s : str) (i j : nat) : presult str := if i <=? j then Ok (take (j - i) (drop i s)) else Panic.

Definition parse_xml_call (inner : str) (index : N) : presult ToolCall :=
  name_start ← ok_or (malformed_tool (lit "missing qwen function tag")) (find (lit "<function=") inner);
  let name_body_start := name_start + 10 in
  name_len ← ok_or (malformed_tool (lit "unterminated qwen function tag")) (find (lit ">") (drop name_body_start inner));
  let name_end := name_body_start + name_len in
  let name := take name_len (drop name_body_start inner) in
  function_end ← ok_or (malformed_tool (lit "missing qwen function close tag")) (find (lit "</function>") inner);
  params ← between inner (name_end + 1) function_end;
  m ← xml_parameters (S (length params)) params [];
  Ok (function_call (generated_tool_call_id uuid index) name (Object m)).

Definition parse_qwen_call (inner : str) (index : N) : presult ToolCall :=
  if starts_with (lit "<function=") inner then parse_xml_call inner index else parse_json_call inner index.

Definition parse_tool_calls (reasoning : option str) (rest : str) : presult ParsedAssistant :=
  '(content, calls) ← parse_blocks TOOL_START TOOL_END (malformed_tool (lit "unterminated qwen tool_call tag"))
    parse_qwen_call rest;
  Ok (MkParsed reasoning content calls).

Definition parse_qwen (text : str) : presult ParsedAssistant :=
  '(reasoning, rest) ← split_reasoning text;
  if contains rest TOOL_START then parse_tool_calls reasoning rest else Ok (MkParsed reasoning rest []).

(** ** JSON calls *)
Definition extract_json_tool_candidate (rest : str) : option (str * str) :=
  match find (lit "[TOOL_CALLS]") rest with
  | Some marker_start =>
      let source := trim_start (drop (marker_start + 12) rest) in
      let source_end := default (length source) (find [10%N] source) in
      let content := trim_end (take marker_start rest) in
      let suffix := trim_start_matches [10%N] (drop source_end source) in
      let content := if bool_decide (content ≠ []) && bool_decide (suffix ≠ []) then content ++ [10%N] else content in
      Some (content ++ suffix, take source_end source)
  | None =>
      let fenced :=
        fence_start ← find (lit "```") rest;
        let tail := drop (fence_start + 3) rest in
        let after_language := default tail (strip_prefix (lit "json") tail) in
        let after_newline := default (trim_start after_language) (strip_prefix [10%N] after_language) in
        fence_end ← find (lit "```") after_newline;
        Some (trim_end (take fence_start rest) ++ trim_start (drop (fence_end + 3) after_newline),
              take fence_end after_newline) in
      or_else fenced
        (let trimmed := trim rest in
         if starts_with (lit "{") trimmed || starts_with (lit "[") trimmed then Some ([], trimmed) else None)
  end.

Definition parse_json_tool_value_as_call (v : value) (index : N) : presult ToolCall :=
  match v with
  | Object m =>
      let function : option object := get (lit "function") m ≫= as_object in
      name ← ok_or (malformed_tool (lit "JSON tool-call entry missing name"))
        (or_else (function ≫= get (lit "name"))
          (or_else (get (lit "name") m) (or_else (get (lit "tool_name") m) (get (lit "function") m))) ≫= as_str);
      arguments ← arguments_or_empty
        (or_else (function ≫= get (lit "arguments"))
          (or_else (get (lit "arguments") m) (or_else (get (lit "parameters") m) (get (lit "args") m))));
      Ok (function_call (call_id (get (lit "id") m) index) name arguments)
  | _ => Err (malformed_tool (lit "JSON tool-call entry must be an object"))
  end.

Fixpoint parse_json_tool_values (index : N) (items : list value) : presult (list ToolCall) :=
  match items with
  | [] => Ok []
  | v :: items =>
      call ← parse_json_tool_value_as_call v index;
      calls ← parse_json_tool_values (index + 1) items;
      Ok (call :: calls)
  end.

(** The list of calls an object may carry under one of three keys. *)
Definition tool_list (m : object) : option (list value) :=
  let list_at key := get key m ≫= as_array in
  or_else (list_at (lit "tool_calls")) (or_else (list_at (lit "calls")) (list_at (lit "tools"))).

Definition parse_json_tool_value (v : value) : presult (list ToolCall) :=
  match v with
  | Array items => parse_json_tool_values 0 items
  | Object m =>
      match tool_list m with
      | Some items => parse_json_tool_values 0 items
      | None => call ← parse_json_tool_value_as_call v 0; Ok [call]
      end
  | _ => Err (malformed_tool (lit "JSON tool-call payload must be an object or array"))
  end.

Definition is_some {A} (o : option A) : bool := match o with Some _ => true | None => false end.

Definition json_object_has_direct_tool_shape (m : object) : bool :=
  let function : option object := get (lit "function") m ≫= as_object in
  (is_some ((function ≫= get (lit "name")) ≫= as_str)
   || is_some (get (lit "function") m ≫= as_str)
   || is_some (get (lit "name") m ≫= as_str)
   || is_some (get (lit "tool_name") m ≫= as_str))
  && (is_some (function ≫= get (lit "arguments"))
      || contains_key (lit "arguments") m || contains_key (lit "parameters") m || contains_key (lit "args") m).

Definition json_value_has_direct_tool_shape (v : value) : bool :=
  match v with Object m => json_object_has_direct_tool_shape m | _ => false end.

Definition json_value_has_tool_shape (v : value) : bool :=
  match v with
  | Array items => bool_decide (items ≠ []) && forallb json_value_has_direct_tool_shape items
  | Object m => is_some (tool_list m) || json_object_has_direct_tool_shape m
  | _ => false
  end.

Definition parse_json_tool_output_with_reasoning (reasoning : option str) (rest : str) : presult ParsedAssistant :=
  match extract_json_tool_candidate rest with
  | None => Ok (MkParsed reasoning rest [])
  | Some (content, source) =>
      v ← parse_json (lit "invalid JSON tool-call payload: ") (trim source);
      calls ← parse_json_tool_value v;
      Ok (MkParsed reasoning content calls)
  end.

Definition parse_json_tool_output_if_tool_like (reasoning : option str) (rest : str) : presult ParsedAssistant :=
  match extract_json_tool_candidate rest with
  | None => Ok (MkParsed reasoning rest [])
  | Some (content, source) =>
      match from_str (trim source) with
      | inr _ => Ok (MkParsed reasoning rest [])
      | inl v =>
          if json_value_has_tool_shape v then
            match parse_json_tool_value v with
            | Ok calls => Ok (MkParsed reasoning content calls)
            | Err _ => Ok (MkParsed reasoning rest [])
            | Panic => Panic
            end
          else Ok (MkParsed reasoning rest [])
      end
  end.

Definition parse_json_tool_output (text : str) : presult ParsedAssistant :=
  '(reasoning, rest) ← split_reasoning text;
  parse_json_tool_output_with_reasoning reasoning rest.

Definition parse_xlam_tool_output (text : str) : presult ParsedAssistant :=
  '(reasoning, rest) ← split_reasoning text;
  if contains rest TOOL_START then parse_tool_calls reasoning rest
  else parse_json_tool_output_with_reasoning reasoning rest.

(** ** Llama *)
Definition trim_llama_after_stop_control (text : str) : str :=
  before_first [lit "<|eot_id|>"; lit "<|end_of_text|>"; lit "<|start_header_id|>"] text.

Definition parse_llama (text : str) : presult ParsedAssistant :=
  '(reasoning, rest) ← split_reasoning text;
  let rest := trim_llama_after_stop_control rest in
  if contains rest TOOL_START then parse_tool_calls reasoning rest
  else parse_json_tool_output_if_tool_like reasoning rest.

(** ** DeepSeek *)
Definition strip_deepseek_assistant_prefix (rest : str) : str := default rest (strip_prefix ASSISTANT_TAG rest).
Definition trim_deepseek_after_stop_control (rest : str) : str := before_first [END_OF_SENTENCE; USER_TAG] rest.

Definition parse_deepseek_json_call (inner : str) (index : N) : presult ToolCall :=
  v ← parse_json (lit "invalid DeepSeek tool JSON: ") inner;
  name ← ok_or (malformed_tool (lit "DeepSeek tool JSON missing name")) (value_get (lit "name") v ≫= as_str);
  Ok (function_call (call_id (value_get (lit "id") v) index) name (default (Object []) (value_get (lit "arguments") v))).

Definition parse_deepseek_dsml_tool_calls (reasoning : option str) (rest : str) : presult ParsedAssistant :=
  '(content, calls) ← parse_blocks DSML_START DSML_END (malformed_tool (lit "unterminated DeepSeek dsml_tool_call tag"))
    parse_deepseek_json_call rest;
  Ok (MkParsed reasoning content calls).

Definition parse_deepseek_markdown_json (arguments_block : str) : presult value :=
  let trimmed := trim arguments_block in
  let fenced fence := strip_prefix fence trimmed ≫= strip_suffix (lit "```") in
  parse_json (lit "invalid DeepSeek native tool JSON: ")
    (trim (default trimmed (or_else (fenced (lit "```json")) (fenced (lit "```"))))).

Definition parse_deepseek_native_call (inner : str) (index : N) : presult ToolCall :=
  '(call_type, rest) ← ok_or (malformed_tool (lit "DeepSeek native tool call missing separator")) (split_once CALL_SEP inner);
  if bool_decide (trim call_type = lit "function") then
    '(name, arguments_block) ← ok_or (malformed_tool (lit "DeepSeek native tool call missing arguments block"))
      (split_once [10%N] rest);
    let name := trim name in
    if bool_decide (name = []) then Err (malformed_tool (lit "DeepSeek native tool call missing name"))
    else
      arguments ← parse_deepseek_markdown_json (trim arguments_block);
      Ok (function_call (generated_tool_call_id uuid index) name arguments)
  else Err (malformed_tool (lit "unsupported DeepSeek native tool call type `" ++ trim call_type ++ lit "`")).

Definition parse_deepseek_native_tool_calls (reasoning : option str) (rest : str) : presult ParsedAssistant :=
  match find CALLS_BEGIN rest with
  | None => Ok (MkParsed reasoning rest [])
  | Some start =>
      let body := drop (start + length CALLS_BEGIN) rest in
      match find CALLS_END body with
      | None => Err (malformed_tool (lit "unterminated DeepSeek native tool calls block"))
      | Some len =>
          '(_, calls) ← parse_blocks CALL_BEGIN CALL_END (malformed_tool (lit "unterminated DeepSeek native tool call"))
            parse_deepseek_native_call (take len body);
          let after := trim_start (drop (len + length CALLS_END) body) in
          Ok (MkParsed reasoning
            (take start rest ++ trim_start_matches END_OF_SENTENCE (trim_deepseek_after_stop_control after)) calls)
      end
  end.

Definition parse_deepseek (text : str) : presult ParsedAssistant :=
  '(reasoning, rest) ← split_reasoning text;
  let rest := trim_deepseek_after_stop_control (strip_deepseek_assistant_prefix rest) in
  if contains rest CALLS_BEGIN then parse_deepseek_native_tool_calls reasoning rest
  else if contains rest DSML_START then parse_deepseek_dsml_tool_calls reasoning rest
  else if contains rest TOOL_START then parse_tool_calls reasoning rest
  else Ok (MkParsed reasoning rest []).

(** ** Gemma *)
Definition gemma_unsupported : list str :=
  [lit "<start_of_image>"; lit "<|image|>"; lit "<image|>"; lit "<|audio|>"; lit "<audio|>"; lit "<|video|>"].
Definition reject_gemma_multimodal_markers (text : str) : presult unit :=
  match List.find (λ token, contains text token) gemma_unsupported with
  | Some token =>
      Err (unsupported_multimodal (lit "Gemma multimodal output marker `" ++ token
        ++ lit "` is not supported by the text parser"))
  | None => Ok tt
  end.

Definition trim_gemma_after_stop_control (text : str) : str :=
  before_first [lit "<turn|>"; lit "<|tool_response>"; lit "<eos>"] text.

Definition split_gemma_reasoning (text : str) : presult (option str * str) :=
  match find GEMMA_THOUGHT text with
  | None => Ok (None, text)
  | Some start =>
      let body := drop (start + length GEMMA_THOUGHT) text in
      match find (lit "<channel|>") body with
      | None =>
          let reasoning := trim body in
          Ok (if bool_decide (reasoning = []) then None else Some reasoning, take start text)
      | Some len => Ok (Some (trim (take len body)), take start text ++ drop (len + 10) body)
      end
  end.

(** *** Arguments

    [GemmaArgumentParser]: a method takes the input from the current position
    on, and returns what is left of it. *)

(** Skips characters while [stop] does not hold at them. *)
Definition char_len (b : N) : nat := if (b <? 128)%N then 1 else if (b <? 224)%N then 2 else if (b <? 240)%N then 3 else 4.
Fixpoint skip_until (fuel : nat) (stop : str → bool) (s : str) : nat :=
  match fuel, s with
  | S fuel, b :: _ => if stop s then 0 else char_len b + skip_until fuel stop (drop (char_len b) s)
  | _, _ => 0
  end.
Definition at_char (c : N) (s : str) : bool := match s with b :: _ => (b =? c)%N | [] => false end.
Definition at_space (s : str) : bool := is_some (leading_space s).

Definition expect_char (c : N) (s : str) : presult str :=
  if at_char c s then Ok (drop 1 s)
  else Err (malformed_tool (lit "expected Gemma tool argument character `" ++ [c] ++ lit "`")).

(** Where the string that starts after a quote ends: after its closing quote.
    A continuation byte is neither a quote nor a backslash. *)
Fixpoint json_string_end (escaped : bool) (s : str) : option nat :=
  match s with
  | [] => None
  | b :: s =>
      if escaped then S <$> json_string_end false s
      else if (b =? 92)%N then S <$> json_string_end true s
      else if (b =? 34)%N then Some 1
      else S <$> json_string_end false s
  end.

Definition parse_json_string (s : str) : presult (str * str) :=
  s' ← expect_char 34 s;
  match json_string_end false s' with
  | None => Err (malformed_tool (lit "unterminated Gemma JSON string"))
  | Some n =>
      match string_from_str (take (S n) s) with
      | inl text => Ok (text, drop n s')
      | inr err => Err (malformed_tool (lit "invalid Gemma JSON string: " ++ err))
      end
  end.

Definition parse_gemma_string (s : str) : presult (str * str) :=
  match strip_prefix GEMMA_QUOTE s with
  | None => Err (malformed_tool (lit "expected Gemma tool argument token `" ++ GEMMA_QUOTE ++ lit "`"))
  | Some s =>
      match find GEMMA_QUOTE s with
      | None => Err (malformed_tool (lit "unterminated Gemma escaped string"))
      | Some n => Ok (take n s, drop (n + 5) s)
      end
  end.

Definition parse_key (s : str) : presult (str * str) :=
  let s := trim_start s in
  if at_char 34 s then parse_json_string s
  else if starts_with GEMMA_QUOTE s then parse_gemma_string s
  else match s with
       | [] => Err (malformed_tool (lit "Gemma object ended before key"))
       | _ =>
           let n := skip_until (length s) (λ s, at_char 58 s || at_space s) s in
           if n =? 0 then Err (malformed_tool (lit "Gemma object key is empty")) else Ok (take n s, drop n s)
       end.

Definition parse_atom (s : str) : presult (value * str) :=
  let n := skip_until (length s) (λ s, at_char 44 s || at_char 125 s || at_char 93 s || at_space s) s in
  let atom := take n s in
  if bool_decide (atom = []) then Err (malformed_tool (lit "Gemma atom is empty"))
  else Ok (
    (if bool_decide (atom = lit "true") then Bool true
     else if bool_decide (atom = lit "false") then Bool false
     else if bool_decide (atom = lit "null") then Null
     else match from_str atom with inl v => v | inr _ => JString atom end), drop n s).

Fixpoint parse_value (fuel : nat) (s : str) : presult (value * str) :=
  match fuel with
  | O => Panic
  | S fuel =>
      let s := trim_start s in
      if at_char 123 s then parse_members fuel (drop 1 s) []
      else if at_char 91 s then parse_items fuel (drop 1 s) []
      else if at_char 34 s then '(text, s) ← parse_json_string s; Ok (JString text, s)
      else if starts_with GEMMA_QUOTE s then '(text, s) ← parse_gemma_string s; Ok (JString text, s)
      else match s with
           | [] => Err (malformed_tool (lit "Gemma tool argument ended before value"))
           | _ => parse_atom s
           end
  end
with parse_members (fuel : nat) (s : str) (m : object) : presult (value * str) :=
  match fuel with
  | O => Panic
  | S fuel =>
      let s := trim_start s in
      if at_char 125 s then Ok (Object m, drop 1 s)
      else
        '(key, s) ← parse_key s;
        s ← expect_char 58 (trim_start s);
        '(v, s) ← parse_value fuel s;
        let s := trim_start s in
        if at_char 44 s then parse_members fuel (drop 1 s) (map_insert key v m)
        else s ← expect_char 125 s; Ok (Object (map_insert key v m), s)
  end
with parse_items (fuel : nat) (s : str) (l : list value) : presult (value * str) :=
  match fuel with
  | O => Panic
  | S fuel =>
      let s := trim_start s in
      if at_char 93 s then Ok (Array l, drop 1 s)
      else
        '(v, s) ← parse_value fuel s;
        let s := trim_start s in
        if at_char 44 s then parse_items fuel (drop 1 s) (l ++ [v])
        else s ← expect_char 93 s; Ok (Array (l ++ [v]), s)
  end.

Definition parse_gemma_arguments (input : str) : presult value :=
  '(v, s) ← parse_value (2 * length input + 2) input;
  let s := trim_start s in
  if bool_decide (s = []) then Ok v
  else Err (malformed_tool (lit "unexpected Gemma tool argument suffix `" ++ s ++ lit "`")).

Definition parse_gemma_call (inner : str) (index : N) : presult ToolCall :=
  body ← ok_or (malformed_tool (lit "missing Gemma call prefix")) (strip_prefix (lit "call:") inner);
  args_start ← ok_or (malformed_tool (lit "Gemma tool call missing arguments")) (find (lit "{") body);
  let name := trim (take args_start body) in
  if bool_decide (name = []) then Err (malformed_tool (lit "Gemma tool call missing name"))
  else
    arguments ← parse_gemma_arguments (drop args_start body);
    Ok (function_call (generated_tool_call_id uuid index) name arguments).

Definition parse_gemma_tool_calls (rest : str) : presult (str * list ToolCall) :=
  parse_blocks GEMMA_START GEMMA_END (malformed_tool (lit "unterminated Gemma tool_call tag")) parse_gemma_call rest.

Definition parse_gemma (text : str) : presult ParsedAssistant :=
  _ ← reject_gemma_multimodal_markers text;
  '(reasoning, rest) ← split_gemma_reasoning (trim_gemma_after_stop_control text);
  '(content, calls) ← parse_gemma_tool_calls rest;
  Ok (MkParsed reasoning content calls).

(** ** Families *)
Definition parse_assistant_for_family (family : ModelFamily) (text : str) : presult ParsedAssistant :=
  match family with
  | Qwen => parse_qwen text
  | DeepSeek => parse_deepseek text
  | Gemma => parse_gemma text
  | Llama => parse_llama text
  end.

Definition parse_assistant_auto (text : str) : presult ParsedAssistant :=
  if contains text GEMMA_START || contains text GEMMA_THOUGHT then parse_gemma text
  else if contains text DSML_START || contains text CALLS_BEGIN then parse_deepseek text
  else if contains text TOOL_START || contains text (lit "<think>") then parse_qwen text
  else if contains text (lit "[TOOL_CALLS]") then parse_xlam_tool_output text
  else Ok (parsed_content text).

Definition parse_assistant_for_parser_family (family : ToolParserFamily) (text : str) : presult ParsedAssistant :=
  match family with
  | FAuto => parse_assistant_auto text
  | FHermes | FQwen => parse_qwen text
  | FDeepSeek => parse_deepseek text
  | FGemma => parse_gemma text
  | FLlama => parse_llama text
  | FJson => parse_json_tool_output text
  | FXlam => parse_xlam_tool_output text
  end.
End parse.
