(* ===== verification/TemplateError.v ===== *)
(** * Errors of the chat templates

    [TemplateError] of [crates/llm-chat-template/src/lib.rs], which the runtime's
    errors and the templates both need. *)
From Stdlib Require Import String.
From stdpp Require Import base.
From S2P Require Import Prelude Text.

Inductive TemplateError :=
| ToolSerialization (message : str)
| ReservedControlToken (token : str)
| UnsupportedRole (role : str)
| UnsupportedFamily (family : str).

Definition template_error_code (e : TemplateError) : str :=
  match e with
  | ToolSerialization _ => lit "tool_serialization_failed"
  | ReservedControlToken _ => lit "reserved_prompt_control_token"
  | UnsupportedRole _ => lit "unsupported_role"
  | UnsupportedFamily _ => lit "unsupported_template_family"
  end.
