(* ===== verification/ToolMarkup.v ===== *)
(** * Tool markup in a stream

    Models the markup policies and their stream state of
    [crates/llm-runtime/src/adapters.rs]: where the first call of a reply
    starts, up to where its calls are complete, and how much of the text can be
    sent before the rest of a tag may arrive.  The state after any pieces is what
    a scan of the whole text finds. *)
From Stdlib Require Import String.
From stdpp Require Import base sets numbers list.
From S2P Require Import Prelude Text Json Whitespace Stop MlxStop Api ToolParse.
Open Scope nat_scope.
Open Scope record_scope.

(** ** Definitions *)
Record ToolMarkupMarkers := MkMarkers { start_marker : str; end_marker : str }.
Abbreviation ToolMarkupPolicy := (list ToolMarkupMarkers) (only parsing).

Definition JSON_TOOL_MARKERS : ToolMarkupPolicy := [MkMarkers TOOL_START TOOL_END].
Definition DEEPSEEK_TOOL_MARKERS : ToolMarkupPolicy := [MkMarkers CALLS_BEGIN CALLS_END; MkMarkers DSML_START DSML_END].
Definition GEMMA_TOOL_MARKERS : ToolMarkupPolicy := [MkMarkers GEMMA_START GEMMA_END].

Record ToolMarkupStreamState := MkMarkupState {
  policy : ToolMarkupPolicy;
  first_start : option nat;
  completed_prefix_len : option nat;
  previous_len : nat;
  max_start_marker_len : nat;
  max_end_marker_len : nat;
}.
#[export] Instance eta_markup : Eta ToolMarkupStreamState := {| eta s :=
  MkMarkupState (policy s) (first_start s) (completed_prefix_len s) (previous_len s) (max_start_marker_len s)
    (max_end_marker_len s) |}.

Definition stream_state (p : ToolMarkupPolicy) : ToolMarkupStreamState :=
  MkMarkupState p None None 0 (max_or_zero (map (λ m, length (start_marker m)) p))
    (max_or_zero (map (λ m, length (end_marker m)) p)).

(** The outer [option] is the panic of a slice. *)
Definition find_start_from (p : ToolMarkupPolicy) (content : str) (search_start : nat) : option (option nat) :=
  tail ← str_from content search_start;
  Some (list_min (omap (λ m, Nat.add search_start <$> find (start_marker m) tail) p)).

Definition contains_start (p : ToolMarkupPolicy) (content : str) : bool :=
  match find_start_from p content 0 with Some (Some _) => true | _ => false end.

Fixpoint list_max (l : list nat) : option nat :=
  match l with [] => None | n :: l => Some (match list_max l with Some m => Nat.max n m | None => n end) end.

Definition latest_completed_prefix_from (p : ToolMarkupPolicy) (content : str) (search_start : nat) : option (option nat) :=
  tail ← str_from content search_start;
  Some (list_max (omap (λ m, (λ at_, search_start + at_ + length (end_marker m)) <$> rfind (end_marker m) tail) p)).

Definition withheld_start_prefix_len (p : ToolMarkupPolicy) (content : str) : nat :=
  max_or_zero (p ≫= λ m, prefix_lengths (start_marker m) content).

Definition observe (content : str) (s : ToolMarkupStreamState) : option ToolMarkupStreamState :=
  s ← match first_start s with
      | Some _ => Some s
      | None =>
          found ← find_start_from (policy s) content
            (floor_char_boundary content (previous_len s - (max_start_marker_len s - 1)));
          Some (s <| first_start := found |>)
      end;
  found ← latest_completed_prefix_from (policy s) content
    (floor_char_boundary content (previous_len s - (max_end_marker_len s - 1)));
  let s := match found with
    | Some prefix_len =>
        s <| completed_prefix_len ::= λ current,
          Some (match current with Some current => Nat.max current prefix_len | None => prefix_len end) |>
    | None => s
    end in
  Some (s <| previous_len := length content |>).

Definition safe_emit_len (content : str) (s : ToolMarkupStreamState) : nat :=
  match first_start s with
  | Some start => start
  | None => length content - withheld_start_prefix_len (policy s) content
  end.

(** [SelectedChatAdapter::tool_markup_policy]. *)
Definition tool_markup_policy (family : ModelFamily) : ToolMarkupPolicy :=
  match family with
  | Qwen | Llama => JSON_TOOL_MARKERS
  | DeepSeek => DEEPSEEK_TOOL_MARKERS
  | Gemma => GEMMA_TOOL_MARKERS
  end.

Definition unmarked_tool_json_truncation_tokens (family : ModelFamily) : list str :=
  match family with
  | Llama => [lit "<|eot_id|>"; lit "<|end_of_text|>"; lit "<|start_header_id|>"]
  | Qwen | DeepSeek | Gemma => []
  end.

Definition parses_unmarked_tool_calls (family : ModelFamily) : bool :=
  match family with Llama => true | _ => false end.

(** ** The whole scan *)

(** An end tag of the policy ends at [p]. *)
Definition tag_ends (p : ToolMarkupPolicy) (content : str) (n : nat) : Prop :=
  ∃ m i, m ∈ p ∧ occurs (end_marker m) content i ∧ n = i + length (end_marker m).

Definition starts (p : ToolMarkupPolicy) : list str := start_marker <$> p.

(** What a scan of the whole text finds. *)
Definition scan_of (p : ToolMarkupPolicy) (content : str) (s : ToolMarkupStreamState) : Prop :=
  policy s = p
  ∧ first_start s = earliest_stop_index content (starts p)
  ∧ match completed_prefix_len s with
    | Some n => tag_ends p content n ∧ ∀ k, tag_ends p content k → k ≤ n
    | None => ∀ k, ¬ tag_ends p content k
    end.

Lemma rfind_spec needle s :
  match rfind needle s with
  | Some i => occurs needle s i ∧ ∀ j, occurs needle s j → j ≤ i
  | None => ∀ j, ¬ occurs needle s j
  end.
Proof.
  assert (∀ b s j, occurs needle (b :: s) (S j) ↔ occurs needle s j) as Hsucc
    by (intros b t j; unfold occurs; cbn [length drop]; split; intros [? ?]; split; (lia || done)).
  induction s as [|b s IH]; cbn [rfind].
  - destruct (starts_with needle []) eqn:Hs; [split; [by split|by intros j [Hj _]]|].
    intros j [Hj Ho]. simpl in Hj. destruct j; [|lia]. simpl in Ho. congruence.
  - destruct (rfind needle s) as [k|].
    + destruct IH as [Ho Hmax]. split; [by apply Hsucc|]. intros [|j]; [lia|]. intros Hj%Hsucc%Hmax. lia.
    + destruct (starts_with needle (b :: s)) eqn:Hs; [split; [split; [lia|done]|]|];
        intros [|j] Hj; try lia; try (by apply Hsucc, IH in Hj). destruct Hj as [_ Hj]. simpl in Hj. congruence.
Qed.

Lemma list_max_Some l n : list_max l = Some n ↔ n ∈ l ∧ ∀ m, m ∈ l → m ≤ n.
Proof.
  revert n. induction l as [|x l IH]; intros n; cbn [list_max]; [set_solver|].
  destruct (list_max l) as [m|] eqn:E.
  - pose proof (proj1 (IH m) eq_refl) as [Hin Hmax]. split.
    + intros [= <-]. split; [|intros k [->|Hk]%elem_of_cons; [lia|specialize (Hmax k Hk); lia]].
      destruct (Nat.max_spec x m) as [[_ ->]|[_ ->]]; [by right|by left].
    + intros [Hn Hall]. f_equal. pose proof (Hall x ltac:(by left)). pose proof (Hall m ltac:(by right)).
      apply elem_of_cons in Hn as [->|Hn]; [lia|]. specialize (Hmax n Hn). lia.
  - destruct l as [|y l]; [|by cbn [list_max] in E]. split; [intros [= <-]; set_solver|set_solver].
Qed.

(** ** One piece *)

(** The tags of a policy: starts that do not overlap, ends that start like a
    character. *)
Record policy_wf (p : ToolMarkupPolicy) : Prop := {
  pw_starts : tokens_wf (starts p);
  pw_ends : stops_wf (end_marker <$> p);
}.

Definition adapter_policies_ok : bool :=
  forallb (λ p, tokens_ok (starts p) && tokens_ok (end_marker <$> p)) [JSON_TOOL_MARKERS; DEEPSEEK_TOOL_MARKERS; GEMMA_TOOL_MARKERS].
Lemma adapter_policy_wf family : policy_wf (tool_markup_policy family).
Proof.
  assert (adapter_policies_ok = true) as H by (by vm_compute).
  unfold adapter_policies_ok in H. cbn [forallb] in H. rewrite !andb_true_iff in H.
  destruct H as ([Ha Hb] & [Hc Hd] & [He Hf] & _).
  destruct family; (split; [by apply tokens_ok_wf|apply tw_stops; by apply tokens_ok_wf]).
Qed.

Lemma max_or_zero_lengths l : max_or_zero (map length l) = max_stop_sequence_len l.
Proof. done. Qed.

Lemma list_min_shift k l : list_min (Nat.add k <$> l) = Nat.add k <$> list_min l.
Proof.
  induction l as [|x l IH]; [done|]. rewrite fmap_cons. cbn [list_min]. rewrite IH.
  destruct (list_min l) as [y|]; [|done]. simpl. f_equal. lia.
Qed.

Lemma omap_starts k tail p :
  omap (λ m, Nat.add k <$> find (start_marker m) tail) p = Nat.add k <$> omap (λ t, find t tail) (starts p).
Proof.
  unfold starts. induction p as [|m p IH]; [done|]. cbn. destruct (find (start_marker m) tail); [|exact IH].
  cbn. f_equal. exact IH.
Qed.

Lemma find_from_spec p content start : is_char_boundary content start = true → start ≤ length content →
  (∀ i, stop_occurs (starts p) content i → start ≤ i) →
  find_start_from p content start = Some (earliest_stop_index content (starts p)).
Proof.
  intros Hb Hs Hge. unfold find_start_from. rewrite str_from_Some by done. cbn [mbind option_bind].
  rewrite (earliest_drop _ _ start) by done. rewrite omap_starts, list_min_shift. done.
Qed.

Lemma latest_from_spec p content start : is_char_boundary content start = true → start ≤ length content →
  ∃ r, latest_completed_prefix_from p content start = Some r
  ∧ match r with
    | Some n => tag_ends p content n ∧
        ∀ m i, m ∈ p → occurs (end_marker m) content i → start ≤ i → i + length (end_marker m) ≤ n
    | None => ∀ m i, m ∈ p → occurs (end_marker m) content i → ¬ start ≤ i
    end.
Proof.
  intros Hb Hs. unfold latest_completed_prefix_from. rewrite str_from_Some by done. cbn [mbind option_bind].
  eexists. split; [reflexivity|]. set (l := omap _ p).
  assert (∀ m i, m ∈ p → occurs (end_marker m) content i → start ≤ i →
    ∃ n, n ∈ l ∧ i + length (end_marker m) ≤ n) as Hall.
  { intros m i Hm Ho Hi. replace i with (start + (i - start)) in Ho by lia. apply occurs_drop in Ho; [|done].
    pose proof (rfind_spec (end_marker m) (drop start content)) as Hr.
    destruct (rfind (end_marker m) (drop start content)) as [k|] eqn:Hk; [|by destruct (Hr (i - start))].
    destruct Hr as [_ Hmax]. specialize (Hmax _ Ho). exists (start + k + length (end_marker m)). split; [|lia].
    apply list_elem_of_omap. exists m. split; [done|]. by rewrite Hk. }
  destruct (list_max l) as [n|] eqn:E.
  - apply list_max_Some in E as [Hin Hmax]. split.
    + apply list_elem_of_omap in Hin as (m & Hm & Hn). pose proof (rfind_spec (end_marker m) (drop start content)) as Hr.
      destruct (rfind _ _) as [k|]; [|done]. injection Hn as <-. destruct Hr as [Ho _]. apply occurs_drop in Ho; [|done].
      by exists m, (start + k).
    + intros m i Hm Ho Hi. destruct (Hall m i Hm Ho Hi) as (k & Hk & Hle). specialize (Hmax k Hk). lia.
  - destruct l; [|by simpl in E]. intros m i Hm Ho Hi. destruct (Hall m i Hm Ho Hi) as (k & Hk & _). set_solver.
Qed.

Record markup_inv (p : ToolMarkupPolicy) (content : str) (s : ToolMarkupStreamState) : Prop := {
  mi_scan : scan_of p content s;
  mi_previous : previous_len s = length content;
  mi_start : max_start_marker_len s = max_stop_sequence_len (starts p);
  mi_end : max_end_marker_len s = max_stop_sequence_len (end_marker <$> p);
}.

Lemma stream_state_inv p : policy_wf p → markup_inv p [] (stream_state p).
Proof.
  intros [[Hs _] He]. split; [|done| |].
  - split_and!; [done| |].
    + symmetry. apply earliest_None. intros i (t & Ht%Hs & Ho). destruct Ht as [Hne _].
      apply occurs_length in Ho. destruct t; [done|simpl in Ho; lia].
    + cbn. intros k (m & i & Hm & Ho & _). apply occurs_length in Ho.
      destruct (He (end_marker m)) as [Hne _]; [by apply list_elem_of_fmap; eexists|]. destruct (end_marker m); [done|simpl in Ho; lia].
  - unfold stream_state. cbn [max_start_marker_len]. unfold starts. by rewrite <- max_or_zero_lengths, <- list_fmap_compose.
  - unfold stream_state. cbn [max_end_marker_len]. by rewrite <- max_or_zero_lengths, <- list_fmap_compose.
Qed.

(** The ends found from [start] on and those of the text before. *)
Lemma tag_ends_new p content new k start :
  start ≤ length content - (max_stop_sequence_len (end_marker <$> p) - 1) → tag_ends p (content ++ new) k →
  tag_ends p content k ∨ ∃ m i, m ∈ p ∧ occurs (end_marker m) (content ++ new) i ∧ k = i + length (end_marker m) ∧ start ≤ i.
Proof.
  intros Hstart (m & i & Hm & Ho & ->). destruct (decide (i + length (end_marker m) ≤ length content)) as [Hle|Hgt].
  - left. exists m, i. split_and!; [done| |done]. by eapply occurs_shorten.
  - right. exists m, i. split_and!; [done..|].
    pose proof (max_stop_len_le (end_marker <$> p) (end_marker m) ltac:(by apply list_elem_of_fmap; eexists)). lia.
Qed.

Lemma tag_ends_app p content new k : tag_ends p content k → tag_ends p (content ++ new) k.
Proof. intros (m & i & Hm & Ho & ->). exists m, i. split_and!; [done| |done]. by apply occurs_app_l. Qed.

Lemma observe_inv p content new s : policy_wf p → markup_inv p content s →
  ∃ s', observe (content ++ new) s = Some s' ∧ markup_inv p (content ++ new) s'.
Proof.
  intros Hwf [(Hp & Hfirst & Hdone) Hprev Hms Hme]. unfold observe.
  set (s1 := match first_start s with Some _ => Some s | None => _ end).
  assert (∃ found, s1 = Some (s <| first_start := found |>) ∧ found = earliest_stop_index (content ++ new) (starts p)) as (f & -> & Hf).
  { unfold s1. destruct (first_start s) as [i|] eqn:Ei.
    - exists (Some i). split; [destruct s; cbn in *; by subst|]. symmetry in Hfirst |- *.
      apply earliest_final; [by destruct Hwf|done].
    - eexists. split; [|reflexivity]. symmetry in Hfirst. rewrite earliest_None in Hfirst. rewrite Hp, Hprev, Hms.
      pose proof (floor_le (content ++ new) (length content - (max_stop_sequence_len (starts p) - 1))).
      rewrite find_from_spec; [done|apply floor_boundary|rewrite length_app; lia|].
      intros i Ho. pose proof (new_occurrence _ _ _ _ Hfirst Ho). lia. }
  cbn [mbind option_bind]. cbn [upd]. cbn [policy previous_len max_end_marker_len]. rewrite Hp, Hprev, Hme.
  set (start := floor_char_boundary (content ++ new) _).
  pose proof (floor_le (content ++ new) (length content - (max_stop_sequence_len (end_marker <$> p) - 1))) as Hle.
  fold start in Hle.
  destruct (latest_from_spec p (content ++ new) start) as (r & -> & Hr); [apply floor_boundary|rewrite length_app; lia|].
  cbn [mbind option_bind]. eexists. split; [reflexivity|].
  destruct r as [n|]; split; cbn; try done; (split_and!; [done|done|]).
  - destruct Hr as [Hn Hmax]. destruct (completed_prefix_len s) as [c|].
    + destruct Hdone as [Hc Hall]. split.
      * destruct (Nat.max_spec c n) as [[_ ->]|[_ ->]]; [done|by apply tag_ends_app].
      * intros k [Hk|(m & i & Hm & Ho & -> & Hi)]%(tag_ends_new _ _ _ _ start); [specialize (Hall k Hk); lia| |done].
        specialize (Hmax m i Hm Ho Hi). lia.
    + split; [done|]. intros k [Hk|(m & i & Hm & Ho & -> & Hi)]%(tag_ends_new _ _ _ _ start); [by apply Hdone in Hk| |done]. by apply Hmax.
  - destruct (completed_prefix_len s) as [c|].
    + destruct Hdone as [Hc Hall]. split; [by apply tag_ends_app|].
      intros k [Hk|(m & i & Hm & Ho & -> & Hi)]%(tag_ends_new _ _ _ _ start); [by apply Hall|by destruct (Hr m i Hm Ho)|done].
    + intros k [Hk|(m & i & Hm & Ho & -> & Hi)]%(tag_ends_new _ _ _ _ start); [by apply Hdone in Hk|by destruct (Hr m i Hm Ho)|done].
Qed.

(** ** What may be sent *)
Lemma safe_emit_spec p content s : policy_wf p → markup_inv p content s →
  safe_emit_len content s ≤ length content
  ∧ is_char_boundary content (safe_emit_len content s) = true
  ∧ ∀ rest i, starts_char rest → stop_occurs (starts p) (content ++ rest) i → safe_emit_len content s ≤ i.
Proof.
  intros Hwf [(Hp & Hfirst & _) _ _ _]. unfold safe_emit_len. pose proof (tw_stops _ (pw_starts _ Hwf)) as Hst.
  destruct (first_start s) as [n|]; symmetry in Hfirst.
  - pose proof Hfirst as [(t & Ht & Ho) _]%earliest_Some. split_and!.
    + apply occurs_length in Ho. lia.
    + destruct (Hst t Ht). by eapply occurs_boundary.
    + intros rest i _ Hi. pose proof (earliest_final _ _ rest _ (pw_starts _ Hwf) Hfirst) as [_ Hmin]%earliest_Some.
      destruct (decide (i < n)) as [Hlt|]; [|lia]. by destruct (Hmin i Hlt).
  - rewrite earliest_None in Hfirst. rewrite Hp. set (w := withheld_start_prefix_len p content).
    split_and!; [lia| |].
    + unfold w, withheld_start_prefix_len.
      destruct (max_or_zero_in (p ≫= λ m, prefix_lengths (start_marker m) content)) as [->|Hin];
        [rewrite Nat.sub_0_r; apply boundary_length|].
      revert Hin. generalize (max_or_zero (p ≫= λ m, prefix_lengths (start_marker m) content)). clear w. intros w Hin.
      apply list_elem_of_bind in Hin as (m & Hw & Hm). apply elem_prefix_lengths in Hw as (Hw & _ & [x Hx]%ends_with_spec).
      destruct (Hst (start_marker m)) as [Hne Hsc]; [by apply list_elem_of_fmap; eexists|].
      apply (occurs_boundary (take w (start_marker m))).
      * destruct (start_marker m), w; simpl in *; (done || lia).
      * destruct (start_marker m), w; simpl in *; (done || lia).
      * rewrite Hx, length_app, length_take. replace (length x + w `min` length (start_marker m) - w) with (length x) by lia.
        split; [rewrite length_app; lia|]. rewrite drop_app_length. apply starts_with_app. by exists []; rewrite app_nil_r.
    + intros rest i Hsc (t & Ht & Ho). destruct (decide (length content ≤ i)) as [|Hi]; [lia|].
      destruct (decide (i + length t ≤ length content)) as [Hle|Hgt].
      { destruct (Hfirst i). exists t. split; [done|]. by eapply occurs_shorten. }
      pose proof Ht as (m & -> & Hm)%list_elem_of_fmap. assert (∃ k, k = length content - i) as [k Hk] by eauto.
      destruct Ho as [_ [x Hx]%starts_with_app]. rewrite drop_app_le in Hx by lia.
      assert (drop i content = take k (start_marker m)) as Hd.
      { apply (f_equal (take k)) in Hx. rewrite take_app_le in Hx by (rewrite length_drop; lia).
        rewrite take_app_le in Hx by lia. rewrite take_ge in Hx by (rewrite length_drop; lia). done. }
      assert (k ≤ w); [|lia]. apply max_or_zero_ge, list_elem_of_bind. exists m. split; [|done].
      apply elem_prefix_lengths. split_and!; [lia|lia| |].
      * destruct k as [|k]; [lia|]. cbn [is_char_boundary].
        apply (f_equal (lookup (S k))) in Hx. rewrite lookup_app_r in Hx by (rewrite length_drop; lia).
        rewrite lookup_app_l in Hx by lia. rewrite length_drop in Hx. replace (S k - (length content - i)) with 0 in Hx by lia.
        rewrite <- Hx. destruct rest as [|b rest]; [exfalso|by simpl in *; rewrite Hsc].
        symmetry in Hx. apply lookup_ge_None_1 in Hx. lia.
      * apply ends_with_spec. exists (take i content). by rewrite <- Hd, take_drop.
Qed.

(** The state after the pieces of a stream. *)
Fixpoint observe_pieces (content : str) (s : ToolMarkupStreamState) (pieces : list str) : option ToolMarkupStreamState :=
  match pieces with
  | [] => Some s
  | piece :: pieces => s ← observe (content ++ piece) s; observe_pieces (content ++ piece) s pieces
  end.

Lemma observe_pieces_inv p content s pieces : policy_wf p → markup_inv p content s →
  ∃ s', observe_pieces content s pieces = Some s' ∧ markup_inv p (content ++ concat pieces) s'.
Proof.
  intros Hwf. revert content s. induction pieces as [|x pieces IH]; intros content s Hinv; cbn [observe_pieces concat].
  - exists s. by rewrite app_nil_r.
  - destruct (observe_inv p content x s Hwf Hinv) as (s1 & -> & H1). cbn [mbind option_bind].
    destruct (IH _ _ H1) as (s2 & -> & H2). exists s2. by rewrite app_assoc.
Qed.

(** C20: Looking only at the tail that can hold a new tag, the stream state is what
    a scan of the whole text would find, without ever slicing inside a
    character; and the text it lets through never reaches into a call, not even
    into a tag that a later piece completes. *)
Theorem markup_state_is_full_scan family pieces :
  ∃ s, observe_pieces [] (stream_state (tool_markup_policy family)) pieces = Some s
  ∧ scan_of (tool_markup_policy family) (concat pieces) s
  ∧ safe_emit_len (concat pieces) s ≤ length (concat pieces)
  ∧ is_char_boundary (concat pieces) (safe_emit_len (concat pieces) s) = true
  ∧ ∀ rest i, starts_char rest → stop_occurs (starts (tool_markup_policy family)) (concat pieces ++ rest) i →
      safe_emit_len (concat pieces) s ≤ i.
Proof.
  pose proof (adapter_policy_wf family) as Hwf.
  destruct (observe_pieces_inv _ [] _ pieces Hwf (stream_state_inv _ Hwf)) as (s & Hs & Hinv).
  exists s. split; [done|]. split; [by destruct Hinv|]. by apply safe_emit_spec.
Qed.
