(* ===== verification/CompletionStream.v ===== *)
(** * Text completions, whole and streamed

    Models [crates/llm-runtime/src/streaming.rs] (the completion stream, its
    chunks and progress metadata, the cancel-on-drop guard),
    [completions.rs::complete_text], [error.rs] and the text classification of
    [no_progress.rs].

    A stream is the list of events it yields together with how it ends.  Each
    event carries whether the guard was armed when it was yielded, because a
    consumer that drops the stream there drops the guard in that state. *)
From Stdlib Require Import String.
From stdpp Require Import base sets numbers list.
From S2P Require Import Prelude Text Json Api ToolParse TemplateError Stop Backend.
Open Scope nat_scope.

(** ** Finish reasons and usage *)
Inductive FinishReason := Stop | Length | ToolCalls | ContentFilter | Error.

#[export] Instance FinishReason_eq_dec : EqDecision FinishReason.
Proof. solve_decision. Defined.

Record PromptTokensDetails := MkDetails { cached_tokens : N }.

Record Usage := MkUsage {
  prompt_tokens : N;
  completion_tokens : N;
  total_tokens : N;
  prompt_tokens_details : option PromptTokensDetails;
}.
#[export] Instance Usage_eta : Eta Usage := {| eta u :=
  MkUsage (prompt_tokens u) (completion_tokens u) (total_tokens u) (prompt_tokens_details u) |}.
Open Scope record_scope.

Definition usage_new (prompt completion : N) : Usage :=
  MkUsage prompt completion (sat_add prompt completion) None.
Definition computed_total_tokens (u : Usage) : N := sat_add (prompt_tokens u) (completion_tokens u).
Definition with_prompt_cached_tokens (u : Usage) (cached : option N) : Usage :=
  u <| prompt_tokens_details := MkDetails <$> cached |>.
Definition usage_from_tokens (prompt completion : N) (cached : option N) : Usage :=
  with_prompt_cached_tokens (usage_new prompt completion) cached.

(** [Usage]'s deserializer rejects a total that does not add up. *)
Definition usage_from_wire (prompt completion total : N) (details : option PromptTokensDetails)
    : option Usage :=
  let expected := sat_add prompt completion in
  if (total =? expected)%N then Some (MkUsage prompt completion expected details) else None.

Definition max_optional_u64 (current next : option N) : option N :=
  match current, next with
  | Some current, Some next => Some (N.max current next)
  | Some current, None => Some current
  | None, Some next => Some next
  | None, None => None
  end.

Definition api_finish_reason (reason : BackendFinishReason) : FinishReason :=
  match reason with
  | BStop => Stop
  | BLength => Length
  | BToolCalls => ToolCalls
  | BContentFilter => ContentFilter
  | BError => Error
  end.

(** ** Errors *)
Inductive NoProgressClass :=
| EmptyCompletion | EmptyHighOutputCompletion | HiddenOnlyOutput | TextFallbackRequiredTool
| RepeatedInvalidToolCall | FuzzyRepeatedInvalidToolCall | RepeatedAssistantContent
| StalledAssistantTurn.

Definition no_progress_code (c : NoProgressClass) : str :=
  match c with
  | EmptyCompletion => lit "no_progress_empty_completion"
  | EmptyHighOutputCompletion => lit "no_progress_empty_high_output_completion"
  | HiddenOnlyOutput => lit "no_progress_hidden_only_output"
  | TextFallbackRequiredTool => lit "no_progress_missing_required_tool_call"
  | RepeatedInvalidToolCall => lit "no_progress_repeated_invalid_tool_call"
  | FuzzyRepeatedInvalidToolCall => lit "no_progress_fuzzy_repeated_invalid_tool_call"
  | RepeatedAssistantContent => lit "no_progress_repeated_assistant_content"
  | StalledAssistantTurn => lit "no_progress_stalled_assistant_turn"
  end.

Definition classify_no_progress (content : str) (completion_tokens : N) : option NoProgressClass :=
  if trim_is_empty content && (1024 <=? completion_tokens)%N then Some EmptyHighOutputCompletion
  else if trim_is_empty content then Some EmptyCompletion
  else None.

(** [RuntimeError]; [SerdeJson] carries the text of the JSON error. *)
Inductive RuntimeError :=
| Api (source : ApiError)
| Template (source : TemplateError)
| Parser (source : ParserError)
| SerdeJson (message : str)
| JsonMode (message : str)
| ToolCallValidation (message : str)
| ModelUnavailable (requested available : str)
| InvalidRequest (reason : str)
| RCancelled
| BackendFailed (source : BackendError)
| NoProgress (class : NoProgressClass).

(** [From<BackendError> for RuntimeError]. *)
Definition runtime_error_from (value : BackendError) : RuntimeError :=
  match into_domain value with
  | DModelNotFound requested available => ModelUnavailable requested available
  | DInvalidRequest reason => InvalidRequest reason
  | DCancelled => RCancelled
  | DBackendFailure source => BackendFailed source
  end.

(** ** Stream responses *)
Record CompletionChoice := MkChoice {
  choice_text : str;
  choice_index : N;
  choice_finish_reason : option FinishReason;
}.

Record CompletionStreamResponse := MkResponse {
  id : str;
  object : str;
  created : Z;
  model : str;
  choices : list CompletionChoice;
  usage : option Usage;
}.

Record RuntimeCompletionSeed := MkSeed { seed_id : str; seed_created : Z; seed_model : str }.

Inductive CompletionStreamEvent :=
| Chunk (chunk : CompletionStreamResponse)
| Progress (progress : BackendStreamProgress)
| Complete (usage : Usage).

Definition completion_stream_seed_chunk (completion : RuntimeCompletionSeed) (text : str)
    (finish_reason : option FinishReason) (usage : option Usage) : CompletionStreamResponse :=
  MkResponse (seed_id completion) (lit "text_completion") (seed_created completion)
    (seed_model completion)
    (match usage with Some _ => [] | None => [MkChoice text 0 finish_reason] end)
    usage.

Record StreamProgressMetadata := MkProgress {
  real_delta_bytes : nat;
  has_tool_delta : bool;
  has_tool_call_finish : bool;
}.

Definition completion_stream_progress_metadata (chunk : CompletionStreamResponse) : StreamProgressMetadata :=
  MkProgress (foldr (λ c n, length (choice_text c) + n) 0 (choices chunk)) false false.

Definition progress_metadata (e : CompletionStreamEvent) : StreamProgressMetadata :=
  match e with
  | Chunk chunk => completion_stream_progress_metadata chunk
  | Progress _ | Complete _ => MkProgress 0 false false
  end.

(** ** The completion stream *)

(** The generator's local variables. *)
Record StreamState := MkStreamState {
  raw_text : str;
  emitted_len : nat;
  s_prompt_tokens : N;
  s_prompt_cached_tokens : option N;
  s_completion_tokens : N;
  finish_reason : FinishReason;
  stop_detector : IncrementalStopDetector;
}.
#[export] Instance StreamState_eta : Eta StreamState := {| eta s :=
  MkStreamState (raw_text s) (emitted_len s) (s_prompt_tokens s) (s_prompt_cached_tokens s)
    (s_completion_tokens s) (finish_reason s) (stop_detector s) |}.

Inductive StreamEnd := Finished | Failed (e : RuntimeError) | Panicked.

(** What the generator does with one item: it goes round the loop, leaves it, or
    ends. *)
Inductive LoopStep := Continue (s : StreamState) | Break (s : StreamState) | End (e : StreamEnd).

(** How the generator ran: the events with the guard's state, the end, and
    whether dropping it at the end cancels the token. *)
Record StreamRun := MkRun {
  run_events : list (CompletionStreamEvent * bool);
  run_end : StreamEnd;
  run_cancelled : bool;
}.

Section stream.
Variables (completion : RuntimeCompletionSeed) (stop : list str) (include_usage : bool).

Definition text_chunk (text : str) : CompletionStreamEvent :=
  Chunk (completion_stream_seed_chunk completion text None None).

(** Yield the new part of the text up to [upto], when there is one; the outer
    [option] is the slice's panic. *)
Definition emit_upto (upto : nat) (s : StreamState) : option (list CompletionStreamEvent) :=
  if emitted_len s <? upto
  then text ← str_range (raw_text s) (emitted_len s) upto; Some [text_chunk text]
  else Some [].

(** [chunk.finish_reason] at the end of the loop's body. *)
Definition loop_tail (chunk : BackendStreamChunk) (s : StreamState) : LoopStep :=
  match chunk_finish_reason chunk with
  | Some reason => Break (s <| finish_reason := api_finish_reason reason |>)
  | None => Continue s
  end.

(** The body of the loop for a chunk with text. *)
Definition on_text (chunk : BackendStreamChunk) (s : StreamState)
    : list CompletionStreamEvent * LoopStep :=
  let s := s <| raw_text ::= λ t, t ++ chunk_text chunk |> in
  let '(observed, detector) := observe (raw_text s) stop (stop_detector s) in
  let s := s <| stop_detector := detector |> in
  match observed with
  | None => ([], End Panicked)
  | Some (Some stop_at) =>
      match emit_upto stop_at s with
      | None => ([], End Panicked)
      | Some events => (events, Break (s <| emitted_len := stop_at |> <| finish_reason := Stop |>))
      end
  | Some None =>
      let safe_len := safe_stream_emit_len (raw_text s) (max_stop_sequence_len stop) in
      match emit_upto safe_len s with
      | None => ([], End Panicked)
      | Some events =>
          (events, loop_tail chunk
            (if emitted_len s <? safe_len then s <| emitted_len := safe_len |> else s))
      end
  end.

(** The body of the loop. *)
Definition on_chunk (chunk : BackendStreamChunk) (s : StreamState)
    : list CompletionStreamEvent * LoopStep :=
  let s := s <| s_prompt_tokens ::= λ n, N.max n (chunk_prompt_tokens chunk) |>
             <| s_prompt_cached_tokens ::= λ c, max_optional_u64 c (chunk_prompt_cached_tokens chunk) |>
             <| s_completion_tokens ::= λ n, sat_add n (chunk_completion_tokens chunk) |> in
  let progress := match chunk_progress chunk with Some p => [Progress p] | None => [] end in
  if bool_decide (chunk_text chunk = []) then (progress, loop_tail chunk s)
  else let '(events, step) := on_text chunk s in (progress ++ events, step).

(** [while let Some(chunk) = backend_stream.next().await]. *)
Fixpoint backend_loop (items : list (BackendStreamChunk + BackendError)) (s : StreamState)
    : list CompletionStreamEvent * (StreamState + StreamEnd) :=
  match items with
  | [] => ([], inl s)
  | inr e :: _ => ([], inr (Failed (runtime_error_from e)))
  | inl chunk :: items =>
      let '(events, step) := on_chunk chunk s in
      match step with
      | Continue s => let '(events', r) := backend_loop items s in (events ++ events', r)
      | Break s => (events, inl s)
      | End e => (events, inr e)
      end
  end.

(** Everything after the loop, when the guard is disarmed. *)
Definition finish_stream (s : StreamState) : list CompletionStreamEvent * StreamEnd :=
  let flush := bool_decide (finish_reason s ≠ Stop) && (emitted_len s <? length (raw_text s)) in
  match (if flush then emit_upto (length (raw_text s)) s else Some []) with
  | None => ([], Panicked)
  | Some events =>
      let s := if flush then s <| emitted_len := length (raw_text s) |> else s in
      match str_range (raw_text s) 0 (emitted_len s) with
      | None => (events, Panicked)
      | Some visible_text =>
          match classify_no_progress visible_text (s_completion_tokens s) with
          | Some class => (events, Failed (NoProgress class))
          | None =>
              let usage := usage_from_tokens (s_prompt_tokens s) (s_completion_tokens s)
                             (s_prompt_cached_tokens s) in
              (events
               ++ [Chunk (completion_stream_seed_chunk completion [] (Some (finish_reason s)) None)]
               ++ (if include_usage
                   then [Chunk (completion_stream_seed_chunk completion [] None (Some usage))]
                   else [])
               ++ [Complete usage], Finished)
          end
      end
  end.

Definition stream_start : StreamState :=
  MkStreamState [] 0 0 None 0 Length (detector_new stop).

Definition streaming_completion_stream (items : list (BackendStreamChunk + BackendError)) : StreamRun :=
  match backend_loop items stream_start with
  | (events, inr e) => MkRun ((λ ev, (ev, true)) <$> events) e true
  | (events, inl s) =>
      let '(events', e) := finish_stream s in
      MkRun (((λ ev, (ev, true)) <$> events) ++ ((λ ev, (ev, false)) <$> events')) e false
  end.

(** Whether the backend's token is cancelled when the consumer drops the stream
    after [n] events ([n] at least the number of events: after its end). *)
Definition dropped_after (n : nat) (r : StreamRun) : bool :=
  match n with
  | O => true
  | S k => match run_events r !! k with Some (_, armed) => armed | None => run_cancelled r end
  end.
End stream.

(** The text of an event, and of a run. *)
Definition event_text (e : CompletionStreamEvent) : str :=
  match e with Chunk r => concat (choice_text <$> choices r) | _ => [] end.
Definition events_text (l : list CompletionStreamEvent) : str := concat (event_text <$> l).
Definition run_text (r : StreamRun) : str := events_text (run_events r).*1.

(** ** Whole completions *)
Record RuntimeCompletion := MkCompletion {
  c_id : str;
  c_created : Z;
  c_model : str;
  c_text : str;
  c_finish_reason : FinishReason;
  c_usage : Usage;
}.

(** [complete_text] from the backend's answer on; the generated identifier and
    the clock are arguments. *)
Definition complete_text (new_id : str) (now : Z) (model : str) (stop : list str)
    (output : BackendOutput + BackendError) : RuntimeCompletion + RuntimeError :=
  match output with
  | inr e => inr (runtime_error_from e)
  | inl output =>
      let '(stopped, text) := apply_stop_sequences (out_text output) stop in
      match classify_no_progress text (out_completion_tokens output) with
      | Some class => inr (NoProgress class)
      | None =>
          inl (MkCompletion new_id now model text
            (if (stopped : bool) then Stop else api_finish_reason (out_finish_reason output))
            (usage_from_tokens (out_prompt_tokens output) (out_completion_tokens output)
               (out_prompt_cached_tokens output)))
      end
  end.

(** ** What the stream shows, independently of how it is produced *)

(** Why the loop stops reading: a stop sequence at a position of the text read,
    the backend's own finish reason, or the end of the backend's stream. *)
Inductive Verdict := Matched (at_ : nat) | FinishedBy (r : BackendFinishReason) | Exhausted.

Definition chunks_text (chunks : list BackendStreamChunk) : str := concat (chunk_text <$> chunks).

(** The chunks read, given those [seen] before, and why reading stops. *)
Fixpoint read_backend (stop : list str) (seen chunks : list BackendStreamChunk)
    : list BackendStreamChunk * Verdict :=
  match chunks with
  | [] => (seen, Exhausted)
  | c :: chunks =>
      let seen := seen ++ [c] in
      match earliest_stop_index (chunks_text seen) stop with
      | Some i => (seen, Matched i)
      | None =>
          match chunk_finish_reason c with
          | Some r => (seen, FinishedBy r)
          | None => read_backend stop seen chunks
          end
      end
  end.

Definition withheld_from (stop : list str) (text : str) : nat :=
  safe_stream_emit_len text (max_stop_sequence_len stop).

(** The text a client receives. *)
Definition visible_text (stop : list str) (text : str) (v : Verdict) : str :=
  match v with
  | Matched i => take i text
  | FinishedBy BStop => take (withheld_from stop text) text
  | FinishedBy _ | Exhausted => text
  end.

Definition verdict_reason (v : Verdict) : FinishReason :=
  match v with
  | Matched _ => Stop
  | FinishedBy r => api_finish_reason r
  | Exhausted => Length
  end.

(** The usage the chunks read add up to. *)
Definition sum_completion (chunks : list BackendStreamChunk) : N :=
  foldr (λ c n, chunk_completion_tokens c + n)%N 0%N chunks.
Definition max_prompt (chunks : list BackendStreamChunk) : N :=
  foldr (λ c n, N.max (chunk_prompt_tokens c) n) 0%N chunks.
Definition max_cached (chunks : list BackendStreamChunk) : option N :=
  foldl max_optional_u64 None (chunk_prompt_cached_tokens <$> chunks).
Definition chunks_usage (chunks : list BackendStreamChunk) : Usage :=
  usage_from_tokens (max_prompt chunks) (N.min (sum_completion chunks) u64_max) (max_cached chunks).

(** Text deltas and progress, the events before the terminal ones. *)
Definition is_delta (e : CompletionStreamEvent) : Prop :=
  match e with
  | Chunk r => usage r = None ∧ Forall (λ c, choice_finish_reason c = None) (choices r)
  | Progress _ => True
  | Complete _ => False
  end.

(** ** Lemmas *)
Section stream_lemmas.
Variables (completion : RuntimeCompletionSeed) (stop : list str) (include_usage : bool).
Hypothesis Hstop : stops_wf stop.

(** The generator's state after reading [seen] without meeting a stop. *)
Record reading (seen : list BackendStreamChunk) (s : StreamState) : Prop := {
  rd_text : raw_text s = chunks_text seen;
  rd_emitted : emitted_len s = withheld_from stop (chunks_text seen);
  rd_prompt : s_prompt_tokens s = max_prompt seen;
  rd_cached : s_prompt_cached_tokens s = max_cached seen;
  rd_completion : s_completion_tokens s = N.min (sum_completion seen) u64_max;
  rd_finish : finish_reason s = Length;
  rd_detector : stop_detector s =
    MkDetector (max_stop_sequence_len stop) (length (chunks_text seen));
  rd_no_stop : ∀ i, ¬ stop_occurs stop (chunks_text seen) i;
}.

(** The state in which the loop is left. *)
Record done_reading (seen : list BackendStreamChunk) (v : Verdict) (s : StreamState) : Prop := {
  dr_text : raw_text s = chunks_text seen;
  dr_emitted : emitted_len s = match v with
                               | Matched i => i
                               | _ => withheld_from stop (chunks_text seen)
                               end;
  dr_prompt : s_prompt_tokens s = max_prompt seen;
  dr_cached : s_prompt_cached_tokens s = max_cached seen;
  dr_completion : s_completion_tokens s = N.min (sum_completion seen) u64_max;
  dr_finish : finish_reason s = verdict_reason v;
  dr_verdict : match v with
               | Matched i => earliest_stop_index (chunks_text seen) stop = Some i
               | _ => ∀ i, ¬ stop_occurs stop (chunks_text seen) i
               end;
}.

Lemma chunks_text_snoc seen c : chunks_text (seen ++ [c]) = chunks_text seen ++ chunk_text c.
Proof. unfold chunks_text. rewrite fmap_app, concat_app. simpl. by rewrite app_nil_r. Qed.

Lemma sum_completion_snoc seen c :
  sum_completion (seen ++ [c]) = (sum_completion seen + chunk_completion_tokens c)%N.
Proof. unfold sum_completion. induction seen as [|d seen IH]; simpl in *; lia. Qed.

Lemma max_prompt_snoc seen c :
  max_prompt (seen ++ [c]) = N.max (max_prompt seen) (chunk_prompt_tokens c).
Proof. unfold max_prompt. induction seen as [|d seen IH]; simpl in *; lia. Qed.

Lemma max_cached_snoc seen c :
  max_cached (seen ++ [c]) = max_optional_u64 (max_cached seen) (chunk_prompt_cached_tokens c).
Proof. unfold max_cached. by rewrite fmap_app, foldl_app. Qed.

Lemma events_text_app l1 l2 : events_text (l1 ++ l2) = events_text l1 ++ events_text l2.
Proof. unfold events_text. by rewrite fmap_app, concat_app. Qed.

Lemma text_chunk_text t : events_text [text_chunk completion t] = t.
Proof. unfold events_text. simpl. by rewrite !app_nil_r. Qed.

Lemma emit_upto_spec s upto :
  emitted_len s ≤ upto → upto ≤ length (raw_text s) →
  is_char_boundary (raw_text s) (emitted_len s) = true →
  is_char_boundary (raw_text s) upto = true →
  ∃ events, emit_upto completion upto s = Some events
    ∧ take (emitted_len s) (raw_text s) ++ events_text events = take upto (raw_text s)
    ∧ Forall is_delta events.
Proof.
  intros Hle Hlen Hb Hu. unfold emit_upto. destruct (Nat.ltb_spec (emitted_len s) upto).
  - rewrite str_range_Some by done. simpl. eexists. split; [done|]. split; [|by repeat constructor].
    rewrite text_chunk_text, take_take_drop. f_equal. lia.
  - exists []. split; [done|]. split; [|constructor].
    unfold events_text. simpl. rewrite app_nil_r. f_equal. lia.
Qed.

Lemma floor_mono content i j : i ≤ j → floor_char_boundary content i ≤ floor_char_boundary content j.
Proof.
  intros Hij. induction Hij as [|j Hij IH]; [done|]. cbn [floor_char_boundary].
  destruct (is_char_boundary content (S j)) eqn:E; [|done].
  pose proof (floor_le content i). lia.
Qed.

Lemma floor_app content r i :
  starts_char r → i ≤ length content →
  floor_char_boundary content i ≤ floor_char_boundary (content ++ r) i.
Proof.
  intros Hr. induction i as [|i IH]; intros Hi; [done|]. cbn [floor_char_boundary].
  destruct (is_char_boundary content (S i)) eqn:E.
  - by rewrite (boundary_app content r (S i)).
  - etrans; [apply IH; lia|]. case_match; [|done].
    pose proof (floor_le (content ++ r) i). lia.
Qed.

Lemma withheld_le text : withheld_from stop text ≤ length text.
Proof. apply safe_len_le. Qed.

Lemma withheld_boundary text : is_char_boundary text (withheld_from stop text) = true.
Proof. apply safe_len_boundary. Qed.

Lemma withheld_mono text r :
  starts_char r → withheld_from stop text ≤ withheld_from stop (text ++ r).
Proof.
  intros Hr. unfold withheld_from, safe_stream_emit_len. rewrite length_app. case_match; [lia|].
  etrans; [apply floor_app; [done|lia]|]. apply floor_mono. lia.
Qed.

(** The chunk is counted before its text is looked at. *)
Definition count_chunk (c : BackendStreamChunk) (s : StreamState) : StreamState :=
  s <| s_prompt_tokens ::= λ n, N.max n (chunk_prompt_tokens c) |>
    <| s_prompt_cached_tokens ::= λ k, max_optional_u64 k (chunk_prompt_cached_tokens c) |>
    <| s_completion_tokens ::= λ n, sat_add n (chunk_completion_tokens c) |>.

(** What one chunk without a match in it leaves behind. *)
Lemma loop_tail_spec seen c s :
  reading (seen ++ [c]) s →
  match chunk_finish_reason c with
  | Some r => ∃ s', loop_tail c s = Break s' ∧ done_reading (seen ++ [c]) (FinishedBy r) s'
                    ∧ raw_text s' = raw_text s ∧ emitted_len s' = emitted_len s
  | None => loop_tail c s = Continue s
  end.
Proof.
  intros [Ht He Hp Hc Hk Hf Hd Hno]. unfold loop_tail. case_match; [|done].
  eexists. split; [done|]. split; [|done]. by constructor.
Qed.

Lemma count_chunk_reading seen c s t e d :
  reading seen s → t = chunks_text (seen ++ [c]) → e = withheld_from stop t →
  d = MkDetector (max_stop_sequence_len stop) (length t) →
  (∀ i, ¬ stop_occurs stop t i) →
  reading (seen ++ [c]) (count_chunk c s <| raw_text := t |> <| emitted_len := e |> <| stop_detector := d |>).
Proof.
  intros [Ht He Hp Hc Hk Hf Hd Hno] -> -> -> Hn. constructor; simpl; try done.
  - by rewrite max_prompt_snoc, Hp.
  - by rewrite max_cached_snoc, Hc.
  - rewrite sum_completion_snoc, Hk. unfold sat_add. lia.
Qed.

(** The outcome of the loop's body on the chunk after [seen]. *)
Definition step_spec (seen : list BackendStreamChunk) (c : BackendStreamChunk) (s : StreamState)
    (events : list CompletionStreamEvent) (step : LoopStep) : Prop :=
  let shows s' := take (emitted_len s) (raw_text s) ++ events_text events
                  = take (emitted_len s') (raw_text s') in
  Forall is_delta events ∧
  match earliest_stop_index (chunks_text (seen ++ [c])) stop with
  | Some i => ∃ s', step = Break s' ∧ done_reading (seen ++ [c]) (Matched i) s' ∧ shows s'
  | None =>
      match chunk_finish_reason c with
      | Some r => ∃ s', step = Break s' ∧ done_reading (seen ++ [c]) (FinishedBy r) s' ∧ shows s'
      | None => ∃ s', step = Continue s' ∧ reading (seen ++ [c]) s' ∧ shows s'
      end
  end.

Lemma on_text_spec seen c s :
  reading seen s → starts_char (chunk_text c) →
  let '(events, step) := on_text completion stop c (count_chunk c s) in
  step_spec seen c s events step.
Proof.
  intros Hrd Hc. pose proof Hrd as [Ht He Hp Hca Hk Hf Hd Hno].
  unfold on_text. cbn [raw_text stop_detector upd count_chunk]. rewrite Ht, Hd.
  rewrite observe_spec by done. rewrite <- chunks_text_snoc. set (t := chunks_text (seen ++ [c])).
  assert (t = chunks_text seen ++ chunk_text c) as Htc by apply chunks_text_snoc.
  assert (is_char_boundary t (emitted_len s) = true) as Hb.
  { rewrite He, Htc. apply boundary_app; [done|apply withheld_le|apply withheld_boundary]. }
  assert (take (emitted_len s) (raw_text s) = take (emitted_len s) t) as Hpre.
  { rewrite Ht, Htc, take_app_le; [done|]. rewrite He. apply withheld_le. }
  destruct (earliest_stop_index t stop) as [i|] eqn:Hi.
  - pose proof (proj1 (earliest_Some _ _ _) Hi) as [(w & Hw & Ho) _]. pose proof (Hstop w Hw) as [Hne Hsc].
    edestruct (emit_upto_spec (count_chunk c s <| raw_text := t |>
      <| stop_detector := MkDetector (max_stop_sequence_len stop) (length t) |>) i)
      as (events & Hem & Hsh & Hdl); cbn [raw_text emitted_len upd count_chunk]; [| |done| |].
    + rewrite He. eapply safe_len_before_stop; [done..|]. rewrite <- Htc. by exists w.
    + apply Ho.
    + by eapply occurs_boundary.
    + unfold count_chunk in Hem. simpl in Hem |- *. rewrite Hem. split; [done|].
      fold t. rewrite Hi. eexists. split; [done|]. cbn [raw_text emitted_len]. split; [|by rewrite Hpre].
      constructor; simpl; try done.
      * by rewrite max_prompt_snoc, Hp.
      * by rewrite max_cached_snoc, Hca.
      * rewrite sum_completion_snoc, Hk. unfold sat_add. lia.
  - pose proof (proj1 (earliest_None _ _) Hi) as Hn.
    assert (emitted_len s ≤ withheld_from stop t) as Hmono.
    { rewrite He, Htc. by apply withheld_mono. }
    edestruct (emit_upto_spec (count_chunk c s <| raw_text := t |>
      <| stop_detector := MkDetector (max_stop_sequence_len stop) (length t) |>) (withheld_from stop t))
      as (events & Hem & Hsh & Hdl); cbn [raw_text emitted_len upd count_chunk];
      [done|apply withheld_le|done|apply withheld_boundary|].
    fold (withheld_from stop t). unfold count_chunk in Hem. simpl in Hem, Hsh |- *. rewrite Hem.
    set (s' := count_chunk c s <| raw_text := t |> <| emitted_len := withheld_from stop t |>
                 <| stop_detector := MkDetector (max_stop_sequence_len stop) (length t) |>).
    match goal with |- context [loop_tail c ?x] => assert (x = s') as -> end.
    { subst s'. unfold count_chunk. simpl. case_match eqn:Hlt; [done|].
      apply Nat.ltb_ge in Hlt. f_equal. lia. }
    assert (reading (seen ++ [c]) s') as Hrd' by (by apply count_chunk_reading).
    pose proof (loop_tail_spec seen c s' Hrd') as Htail. split; [done|]. fold t. rewrite Hi.
    rewrite <- Hpre in Hsh. destruct (chunk_finish_reason c).
    + destruct Htail as (s'' & -> & Hdr & Hraw & Hem'). exists s''. rewrite Hraw, Hem'. done.
    + rewrite Htail. by exists s'.
Qed.

Lemma reading_no_text seen c s :
  reading seen s → chunk_text c = [] → reading (seen ++ [c]) (count_chunk c s).
Proof.
  intros Hrd Hc. pose proof Hrd as [Ht He Hp Hca Hk Hf Hd Hno].
  pose proof (count_chunk_reading seen c s (raw_text s) (emitted_len s) (stop_detector s) Hrd) as H.
  unfold count_chunk in *. simpl in *. rewrite chunks_text_snoc, Hc, app_nil_r in H.
  apply H; try done; rewrite Ht; done.
Qed.

Lemma on_chunk_spec seen c s :
  reading seen s → starts_char (chunk_text c) →
  let '(events, step) := on_chunk completion stop c s in
  step_spec seen c s events step.
Proof.
  intros Hrd Hc. unfold on_chunk.
  set (progress := match chunk_progress c with Some p => [Progress p] | None => [] end).
  assert (Forall is_delta progress) as Hpd by (unfold progress; case_match; repeat constructor).
  assert (events_text progress = []) as Hpt by (unfold progress; by case_match).
  fold (count_chunk c s). case_bool_decide as Hempty.
  - pose proof (reading_no_text seen c s Hrd Hempty) as Hrd'.
    pose proof (loop_tail_spec seen c _ Hrd') as Htail. split; [done|].
    rewrite (proj2 (earliest_None _ _)) by apply Hrd'. rewrite Hpt, app_nil_r.
    destruct (chunk_finish_reason c).
    + destruct Htail as (s'' & -> & Hdr & Hraw & Hem'). exists s''. rewrite Hraw, Hem'. done.
    + rewrite Htail. by exists (count_chunk c s).
  - pose proof (on_text_spec seen c s Hrd Hc) as Hspec.
    destruct (on_text completion stop c (count_chunk c s)) as [events step].
    destruct Hspec as [Hd Hspec]. split; [by apply Forall_app|].
    by rewrite events_text_app, Hpt.
Qed.

Lemma reading_exhausted seen s : reading seen s → done_reading seen Exhausted s.
Proof. intros [Ht He Hp Hca Hk Hf Hd Hno]. by constructor. Qed.

Lemma backend_loop_spec chunks seen s :
  reading seen s → Forall (λ c, starts_char (chunk_text c)) chunks →
  let '(consumed, v) := read_backend stop seen chunks in
  ∃ events s', backend_loop completion stop (inl <$> chunks) s = (events, inl s')
    ∧ done_reading consumed v s' ∧ Forall is_delta events
    ∧ take (emitted_len s) (raw_text s) ++ events_text events = take (emitted_len s') (raw_text s').
Proof.
  revert seen s. induction chunks as [|c chunks IH]; intros seen s Hrd Hall.
  - exists [], s. split_and!; [done|by apply reading_exhausted|constructor|].
    unfold events_text. simpl. by rewrite app_nil_r.
  - apply Forall_cons_1 in Hall as [Hc Hall]. cbn [read_backend]. rewrite fmap_cons. cbn [backend_loop].
    pose proof (on_chunk_spec seen c s Hrd Hc) as Hspec.
    destruct (on_chunk completion stop c s) as [events step]. destruct Hspec as [Hd Hspec].
    destruct (earliest_stop_index (chunks_text (seen ++ [c])) stop) as [i|].
    { destruct Hspec as (s' & -> & Hdr & Hsh). by exists events, s'. }
    destruct (chunk_finish_reason c) as [r|].
    { destruct Hspec as (s' & -> & Hdr & Hsh). by exists events, s'. }
    destruct Hspec as (s' & -> & Hrd' & Hsh). specialize (IH _ _ Hrd' Hall).
    destruct (read_backend stop (seen ++ [c]) chunks) as [consumed v].
    destruct IH as (events' & s'' & -> & Hdr & Hd' & Hsh'). exists (events ++ events'), s''.
    split_and!; [done|done|by apply Forall_app|].
    by rewrite events_text_app, app_assoc, Hsh.
Qed.

Lemma reading_start : reading [] (stream_start stop).
Proof.
  constructor; try done.
  - simpl. unfold withheld_from, safe_stream_emit_len. by case_match.
  - intros i (w & Hw & Ho). apply occurs_length in Ho. simpl in Ho.
    destruct (Hstop w Hw) as [Hne _]. destruct w; [done|simpl in *; lia].
Qed.

(** The events after the text. *)
Definition terminal_events (reason : FinishReason) (u : Usage) : list CompletionStreamEvent :=
  [Chunk (completion_stream_seed_chunk completion [] (Some reason) None)]
  ++ (if include_usage then [Chunk (completion_stream_seed_chunk completion [] None (Some u))] else [])
  ++ [Complete u].

Lemma flush_decision v : verdict_reason v ≠ Stop ↔ match v with Matched _ | FinishedBy BStop => False | _ => True end.
Proof. destruct v as [|[]|]; simpl; naive_solver. Qed.

Lemma done_visible consumed v s :
  done_reading consumed v s →
  emitted_len s ≤ length (raw_text s)
  ∧ is_char_boundary (raw_text s) (emitted_len s) = true
  ∧ visible_text stop (raw_text s) v
    = take (if decide (verdict_reason v = Stop) then emitted_len s else length (raw_text s)) (raw_text s).
Proof.
  intros [Ht He Hp Hca Hk Hf Hv]. rewrite He, <- Ht in *. destruct v as [i|r|]; simpl.
  - apply earliest_Some in Hv as [(w & Hw & Ho) _]. destruct (Hstop w Hw).
    split_and!; [apply Ho|by eapply occurs_boundary|done].
  - split_and!; [apply withheld_le|apply withheld_boundary|]. by destruct r; simpl; rewrite ?firstn_all.
  - split_and!; [apply withheld_le|apply withheld_boundary|]. by rewrite firstn_all.
Qed.

Lemma finish_stream_spec consumed v s :
  done_reading consumed v s →
  let text := visible_text stop (chunks_text consumed) v in
  ∃ events,
    take (emitted_len s) (raw_text s) ++ events_text events = text ∧ Forall is_delta events
    ∧ finish_stream completion include_usage s =
      match classify_no_progress text (completion_tokens (chunks_usage consumed)) with
      | Some class => (events, Failed (NoProgress class))
      | None => (events ++ terminal_events (verdict_reason v) (chunks_usage consumed), Finished)
      end.
Proof.
  intros Hdr. pose proof (done_visible _ _ _ Hdr) as (Hle & Hb & Hvis).
  destruct Hdr as [Ht He Hp Hca Hk Hf Hv]. simpl. rewrite <- Ht, Hvis. unfold finish_stream. rewrite Hf.
  destruct (decide (verdict_reason v = Stop)) as [Hs|Hs].
  - rewrite (bool_decide_eq_false_2 (verdict_reason v ≠ Stop)) by tauto. cbn [andb].
    exists []. unfold events_text at 1. simpl. rewrite app_nil_r. split; [done|]. split; [constructor|].
    rewrite str_range_Some, Nat.sub_0_r, drop_0 by (done || lia).
    rewrite Hk, Hp, Hca, ?Hf. by destruct (classify_no_progress _ _).
  - rewrite (bool_decide_eq_true_2 _ Hs). cbn [andb].
    destruct (Nat.ltb_spec (emitted_len s) (length (raw_text s))) as [Hlt|Hge].
    + destruct (emit_upto_spec s (length (raw_text s))) as (events & -> & Hsh & Hd);
        [done|done|done|apply boundary_length|].
      exists events. split; [done|]. split; [done|]. cbn [raw_text emitted_len upd].
      rewrite str_range_Some, Nat.sub_0_r, drop_0 by (done || lia || apply boundary_length).
      simpl. rewrite Hk, Hp, Hca, ?Hf. by destruct (classify_no_progress _ _).
    + exists []. unfold events_text at 1. simpl. rewrite app_nil_r.
      replace (length (raw_text s)) with (emitted_len s) by lia.
      split; [done|]. split; [constructor|].
      rewrite str_range_Some, Nat.sub_0_r, drop_0 by (done || lia).
      rewrite Hk, Hp, Hca, ?Hf. by destruct (classify_no_progress _ _).
Qed.

(** The whole stream on a backend that does not fail. *)
Lemma stream_spec chunks :
  Forall (λ c, starts_char (chunk_text c)) chunks →
  let '(consumed, v) := read_backend stop [] chunks in
  let run := streaming_completion_stream completion stop include_usage (inl <$> chunks) in
  let text := visible_text stop (chunks_text consumed) v in
  run_cancelled run = false ∧
  ∃ deltas, events_text deltas = text ∧ Forall is_delta deltas ∧
    match classify_no_progress text (completion_tokens (chunks_usage consumed)) with
    | Some class => run_end run = Failed (NoProgress class) ∧ (run_events run).*1 = deltas
    | None => run_end run = Finished ∧
        (run_events run).*1 = deltas ++ terminal_events (verdict_reason v) (chunks_usage consumed)
    end.
Proof.
  intros Hall. pose proof (backend_loop_spec chunks [] _ reading_start Hall) as H.
  destruct (read_backend stop [] chunks) as [consumed v].
  destruct H as (events & s & Hloop & Hdr & Hd & Hsh). unfold streaming_completion_stream. rewrite Hloop.
  destruct (finish_stream_spec _ _ _ Hdr) as (events' & Hsh' & Hd' & ->).
  assert (∀ (b : bool) (l : list CompletionStreamEvent), ((λ ev, (ev, b)) <$> l).*1 = l) as Hfst.
  { intros b l. rewrite <- list_fmap_compose. apply list_fmap_id. }
  cbn in Hsh.
  destruct (classify_no_progress _ _); (split; [done|]); exists (events ++ events');
    (split; [by rewrite events_text_app, Hsh|]); (split; [by apply Forall_app|]); split; try done;
    cbn [run_events]; rewrite fmap_app, !Hfst; by rewrite ?app_assoc.
Qed.
End stream_lemmas.

(** Whole completion against the stream of its single chunk. *)
Section whole.
Variables (completion : RuntimeCompletionSeed) (stop : list str) (include_usage : bool).
Hypothesis Hstop : stops_wf stop.

Lemma read_single output :
  read_backend stop [] [output_chunk output]
  = ([output_chunk output],
     match earliest_stop_index (out_text output) stop with
     | Some i => Matched i
     | None => FinishedBy (out_finish_reason output)
     end).
Proof. simpl. unfold chunks_text. simpl. rewrite app_nil_r.
  by destruct (earliest_stop_index (out_text output) stop).
Qed.

Lemma single_usage output :
  (out_completion_tokens output ≤ u64_max)%N →
  chunks_usage [output_chunk output]
  = usage_from_tokens (out_prompt_tokens output) (out_completion_tokens output)
      (out_prompt_cached_tokens output).
Proof.
  intros Hu. unfold chunks_usage, max_prompt, sum_completion, max_cached. simpl.
  rewrite N.add_0_r, N.min_l, N.max_0_r by done. by destruct (out_prompt_cached_tokens output).
Qed.

Lemma visible_no_stop text v :
  match v with
  | Matched i => earliest_stop_index text stop = Some i
  | _ => ∀ i, ¬ stop_occurs stop text i
  end → ∀ i, ¬ stop_occurs stop (visible_text stop text v) i.
Proof.
  assert (∀ k i, (∀ j, j < k → ¬ stop_occurs stop text j) → ¬ stop_occurs stop (take k text) i) as Hcut.
  { intros k i Hk (w & Hw & Ho). pose proof (occurs_length _ _ _ Ho) as Hl.
    rewrite length_take in Hl. destruct (Hstop w Hw) as [Hne _].
    destruct w as [|b w]; [done|]. simpl in Hl. apply (Hk i); [lia|]. exists (b :: w). split; [done|].
    rewrite <- (take_drop k text). by apply occurs_app_l. }
  destruct v as [i|r|]; simpl; intros Hv.
  - intros j. apply Hcut. apply earliest_Some in Hv. apply Hv.
  - destruct r; try done. intros i. apply Hcut. intros j _. apply Hv.
  - done.
Qed.

Lemma text_of_terminal reason u :
  events_text (terminal_events completion include_usage reason u) = [].
Proof. unfold terminal_events. by destruct include_usage. Qed.

Lemma read_backend_verdict seen chunks :
  (∀ i, ¬ stop_occurs stop (chunks_text seen) i) →
  let '(consumed, v) := read_backend stop seen chunks in
  match v with
  | Matched i => earliest_stop_index (chunks_text consumed) stop = Some i
  | _ => ∀ i, ¬ stop_occurs stop (chunks_text consumed) i
  end.
Proof.
  revert seen. induction chunks as [|c chunks IH]; intros seen Hno; simpl; [done|].
  destruct (earliest_stop_index (chunks_text (seen ++ [c])) stop) eqn:He; [done|].
  pose proof (proj1 (earliest_None _ _) He). destruct (chunk_finish_reason c); [done|]. by apply IH.
Qed.

Lemma no_stop_nil i : ¬ stop_occurs stop [] i.
Proof. apply (rd_no_stop _ _ _ (reading_start stop Hstop)). Qed.
End whole.

(** ** Properties *)


Definition demo_chunk (text : string) (reason : option BackendFinishReason) : BackendStreamChunk :=
  MkChunk (lit text) [] 3 None 1 reason None.
Definition demo_chunks : list BackendStreamChunk :=
  [demo_chunk "hello" None; demo_chunk " wor" None; demo_chunk "ld" None; demo_chunk "!" (Some BLength)].


(** No chunk a client receives, nor several put together, contains a stop
    sequence: a sequence split over backend chunks is never partly shown and
    then completed. *)
Theorem stream_never_shows_stop completion stop include_usage chunks :
  stops_wf stop → Forall (λ c, starts_char (chunk_text c)) chunks →
  ∀ i, ¬ stop_occurs stop
    (run_text (streaming_completion_stream completion stop include_usage (inl <$> chunks))) i.
Proof.
  intros Hstop Hall. pose proof (stream_spec completion stop include_usage Hstop chunks Hall) as H.
  pose proof (read_backend_verdict stop [] chunks (no_stop_nil stop Hstop)) as Hv.
  destruct (read_backend stop [] chunks) as [consumed v]. destruct H as (_ & deltas & Htext & _ & H).
  unfold run_text.
  assert (events_text (run_events (streaming_completion_stream completion stop include_usage
    (inl <$> chunks))).*1 = visible_text stop (chunks_text consumed) v) as ->; [|by apply visible_no_stop].
  destruct (classify_no_progress _ _); destruct H as [_ ->]; [done|]. by rewrite events_text_app, text_of_terminal, app_nil_r.
Qed.

Lemma stream_never_shows_stop_witness :
  ¬ stop_occurs [lit "world"]
    (run_text (streaming_completion_stream (MkSeed [] 0 []) [lit "world"] true (inl <$> demo_chunks))) 6.
Proof.
  apply (stream_never_shows_stop (MkSeed [] 0 []) [lit "world"] true demo_chunks).
  - intros s Hs%list_elem_of_singleton. subst s. by split.
  - repeat constructor.
Defined.

(** Streaming a completion through the default adapter and computing it whole
    agree on text, finish reason, usage and errors, as long as the backend does
    not end naturally without a stop sequence in the text. *)
Theorem stream_agrees_with_complete completion stop include_usage new_id now name output :
  stops_wf stop → starts_char (out_text output) → (out_completion_tokens output ≤ u64_max)%N →
  (out_finish_reason output ≠ BStop ∨ is_Some (earliest_stop_index (out_text output) stop)
   ∨ max_stop_sequence_len stop ≤ 1) →
  let run := streaming_completion_stream completion stop include_usage [inl (output_chunk output)] in
  match complete_text new_id now name stop (inl output) with
  | inr e => run_end run = Failed e
  | inl c => run_end run = Finished ∧ run_text run = c_text c
      ∧ ∃ deltas, Forall is_delta deltas ∧ (run_events run).*1
          = deltas ++ terminal_events completion include_usage (c_finish_reason c) (c_usage c)
  end.
Proof.
  intros Hstop Hsc Hu Hcase run.
  pose proof (stream_spec completion stop include_usage Hstop [output_chunk output]
    (proj2 (Forall_singleton (λ c, starts_char (chunk_text c)) (output_chunk output)) Hsc)) as H.
  rewrite read_single in H. destruct H as (_ & deltas & Htext & Hd & H).
  rewrite (single_usage _ Hu) in H. change (inl <$> [output_chunk output]) with [@inl _ BackendError (output_chunk output)] in H.
  fold run in H. unfold complete_text.
  assert (chunks_text [output_chunk output] = out_text output) as Hct
    by (unfold chunks_text; simpl; by rewrite app_nil_r).
  rewrite Hct in *. clear Hct.
  unfold apply_stop_sequences. destruct (earliest_stop_index (out_text output) stop) as [i|] eqn:Hi.
  - simpl in H, Htext |- *. destruct (classify_no_progress _ _); [by destruct H|]. destruct H as [He Hev]. simpl.
    split_and!; [done| |by exists deltas].
    unfold run_text. by rewrite Hev, events_text_app, text_of_terminal, app_nil_r.
  - assert (visible_text stop (out_text output) (FinishedBy (out_finish_reason output)) = out_text output) as Hvis.
    { simpl. destruct Hcase as [?|[[? ?]|Hm]]; [by destruct (out_finish_reason output)|done|].
      unfold withheld_from, safe_stream_emit_len. rewrite (proj2 (Nat.leb_le _ _) Hm), firstn_all.
      by destruct (out_finish_reason output). }
    rewrite Hvis in *. simpl in H. destruct (classify_no_progress _ _); [by destruct H|]. destruct H as [He Hev]. simpl.
    split_and!; [done| |by exists deltas].
    unfold run_text. by rewrite Hev, events_text_app, text_of_terminal, app_nil_r.
Qed.

Lemma stream_agrees_with_complete_witness :
  run_text (streaming_completion_stream (MkSeed [] 0 []) [lit "world"] true
    [inl (output_chunk (MkOutput (lit "hello world") 3 None 4 BLength))]) = lit "hello ".
Proof.
  pose proof (stream_agrees_with_complete (MkSeed [] 0 []) [lit "world"] true [] 0 []
    (MkOutput (lit "hello world") 3 None 4 BLength)) as H. cbv zeta in H.
  assert (complete_text [] 0 [] [lit "world"] (inl (MkOutput (lit "hello world") 3 None 4 BLength))
    = inl (MkCompletion [] 0 [] (lit "hello ") Stop (usage_from_tokens 3 4 None))) as Hc
    by (vm_compute; reflexivity).
  rewrite Hc in H. apply H.
  - intros s Hs%list_elem_of_singleton. subst s. by split.
  - reflexivity.
  - vm_compute. discriminate.
  - left. discriminate.
Defined.

(** When the backend ends naturally and no stop sequence occurred, the text
    still withheld for a possible match is never sent: the stream shows a strict
    prefix of the text the non-streaming endpoint returns. *)
Theorem natural_stop_drops_tail completion stop include_usage new_id now name output c :
  stops_wf stop → starts_char (out_text output) → (out_completion_tokens output ≤ u64_max)%N →
  out_finish_reason output = BStop → earliest_stop_index (out_text output) stop = None →
  1 < max_stop_sequence_len stop →
  complete_text new_id now name stop (inl output) = inl c →
  let shown := run_text (streaming_completion_stream completion stop include_usage [inl (output_chunk output)]) in
  shown = take (withheld_from stop (c_text c)) (c_text c) ∧ length shown < length (c_text c).
Proof.
  intros Hstop Hsc Hu Hr Hi Hm Hc.
  pose proof (stream_spec completion stop include_usage Hstop [output_chunk output]
    (proj2 (Forall_singleton (λ c, starts_char (chunk_text c)) (output_chunk output)) Hsc)) as H.
  rewrite read_single, Hi, Hr in H. destruct H as (_ & deltas & Htext & Hd & H).
  change (inl <$> [output_chunk output]) with [@inl _ BackendError (output_chunk output)] in H.
  set (run := streaming_completion_stream completion stop include_usage [inl (output_chunk output)]) in *.
  assert (chunks_text [output_chunk output] = out_text output) as Hct
    by (unfold chunks_text; simpl; by rewrite app_nil_r).
  rewrite Hct in *. clear Hct.
  unfold complete_text, apply_stop_sequences in Hc. rewrite Hi in Hc.
  assert (c_text c = out_text output ∧ out_text output ≠ []) as [-> Hne].
  { destruct (classify_no_progress (out_text output) _) eqn:Hcl; simplify_eq.
    split; [done|]. intros He. rewrite He in Hcl.
    unfold classify_no_progress in Hcl. simpl in Hcl. by destruct (1024 <=? _)%N. }
  assert (run_text run = take (withheld_from stop (out_text output)) (out_text output)) as Hrun.
  { unfold run_text. destruct (classify_no_progress (visible_text _ _ _) _); destruct H as [_ ->]; [done|].
    by rewrite events_text_app, text_of_terminal, app_nil_r. }
  cbv zeta. rewrite Hrun. split; [done|]. rewrite length_take.
  assert (withheld_from stop (out_text output) < length (out_text output)); [|lia].
  unfold withheld_from, safe_stream_emit_len. rewrite (proj2 (Nat.leb_gt _ _) Hm).
  eapply Nat.le_lt_trans; [apply floor_le|]. destruct (out_text output); [done|]. simpl. lia.
Qed.

Lemma natural_stop_drops_tail_witness :
  run_text (streaming_completion_stream (MkSeed [] 0 []) [lit "STOP"] false
    [inl (output_chunk (MkOutput (lit "hello") 3 None 4 BStop))]) = lit "he".
Proof.
  pose proof (natural_stop_drops_tail (MkSeed [] 0 []) [lit "STOP"] false [] 0 []
    (MkOutput (lit "hello") 3 None 4 BStop)
    (MkCompletion [] 0 [] (lit "hello") Stop (usage_from_tokens 3 4 None))) as H.
  cbv zeta in H. destruct H as [-> _]; try reflexivity.
  - intros s Hs%list_elem_of_singleton. subst s. by split.
  - vm_compute. discriminate.
  - vm_compute. repeat constructor.
Defined.

(** A consumer that drops the stream before the backend is done cancels the
    backend, so does a backend error, and a stream dropped after the backend
    finished leaves the token alone. *)
Theorem drop_cancels_backend completion stop include_usage items n :
  let run := streaming_completion_stream completion stop include_usage items in
  match backend_loop completion stop items (stream_start stop) with
  | (_, inr e) => dropped_after n run = true ∧ run_end run = e
  | (events, inl s) => dropped_after n run = bool_decide (n ≤ length events)
  end.
Proof.
  unfold streaming_completion_stream. destruct (backend_loop _ _ _ _) as [events [s|e]].
  - destruct (finish_stream _ _ s) as [events' e]. unfold dropped_after. simpl. destruct n as [|k]; [done|].
    destruct (decide (S k ≤ length events)) as [Hle|Hgt].
    + rewrite bool_decide_eq_true_2 by done. rewrite lookup_app_l by (rewrite length_fmap; lia).
      rewrite list_lookup_fmap. by destruct (lookup_lt_is_Some_2 events k) as [ev ->].
    + rewrite bool_decide_eq_false_2 by done. rewrite lookup_app_r by (rewrite length_fmap; lia).
      rewrite list_lookup_fmap. by destruct (events' !! _).
  - split; [|done]. unfold dropped_after. simpl. destruct n as [|k]; [done|].
    rewrite list_lookup_fmap. by destruct (events !! k).
Qed.
