(* ===== verification/ResponseValidation.v ===== *)
(** * Validation of generated tool calls and JSON replies

    Models [crates/llm-runtime/src/response_validation.rs]: the checks of the
    calls a model generated against the tools of the request, with their
    messages, and of replies in JSON object mode.

    [serde_json::Value]'s equality, which the [enum] check uses, ignores the
    order of the members of objects (its maps are built with [preserve_order])
    and compares floating-point numbers as [f64]. *)
From Stdlib Require Import String.
From stdpp Require Import base gmap sets numbers list.
From S2P Require Import Prelude Text Whitespace Api ToolParse Backend CompletionStream Json.
Open Scope nat_scope.

(** ** Equality of JSON values *)

(** Equality of [f64]s given by their bits; a parsed number is never a NaN. *)
Definition f64_eqb (a b : N) : bool :=
  let zero n := (n =? 0)%N || (n =? 9223372036854775808)%N in (a =? b)%N || zero a && zero b.
Definition number_eqb (a b : number) : bool :=
  match a, b with
  | PosInt a, PosInt b => (a =? b)%N
  | NegInt a, NegInt b => (a =? b)%Z
  | Float a, Float b => f64_eqb a b
  | _, _ => false
  end.
Fixpoint value_eqb (v w : value) : bool :=
  match v, w with
  | Null, Null => true
  | Bool a, Bool b => Bool.eqb a b
  | Number a, Number b => number_eqb a b
  | JString a, JString b => bool_decide (a = b)
  | Array l, Array k =>
      (fix go l k := match l, k with
       | [], [] => true
       | v :: l, w :: k => value_eqb v w && go l k
       | _, _ => false
       end) l k
  | Object m, Object n =>
      (length m =? length n)
      && (fix go (m : object) := match m with
          | [] => true
          | (k, v) :: m => match get k n with Some w => value_eqb v w | None => false end && go m
          end) m
  | _, _ => false
  end.

(** ** Intents *)
Definition schema_type_accepts_string (schema_type : value) : bool :=
  match schema_type with
  | JString type_name => bool_decide (type_name = lit "string")
  | Array types => existsb (λ t, bool_decide (as_str t = Some (lit "string"))) types
  | _ => false
  end.

Definition schema_requires_string_intent_argument (schema : value) : bool :=
  match as_object schema with
  | None => false
  | Some schema_object =>
      match get (lit "required") schema_object ≫= as_array with
      | None => false
      | Some required =>
          if negb (existsb (λ field, bool_decide (as_str field = Some (lit "_i"))) required) then false
          else match (get (lit "properties") schema_object ≫= as_object) ≫= get (lit "_i") with
               | None => false
               | Some intent_schema =>
                   match value_get (lit "type") intent_schema with
                   | Some t => schema_type_accepts_string t
                   | None => false
                   end
               end
      end
  end.

Definition GENERIC_TOOL_INTENT : str := lit "Calling requested tool".

Definition tool_intent_default (schema : value) : str :=
  match ((value_get (lit "properties") schema ≫= value_get (lit "_i")) ≫= value_get (lit "default")) ≫= as_str with
  | Some intent => if bool_decide (trim intent = []) then GENERIC_TOOL_INTENT else intent
  | None => GENERIC_TOOL_INTENT
  end.

(** ** Types and paths *)
Definition is_object (v : value) : bool := match v with Object _ => true | _ => false end.

Definition json_type_matches (type_name : str) (v : value) : bool :=
  if bool_decide (type_name = lit "object") then is_object v
  else if bool_decide (type_name = lit "array") then match v with Array _ => true | _ => false end
  else if bool_decide (type_name = lit "string") then is_string v
  else if bool_decide (type_name = lit "boolean") then match v with Bool _ => true | _ => false end
  else if bool_decide (type_name = lit "null") then match v with Null => true | _ => false end
  else if bool_decide (type_name = lit "integer") then
    match v with Number (PosInt _) | Number (NegInt _) => true | _ => false end
  else if bool_decide (type_name = lit "number") then match v with Number _ => true | _ => false end
  else true.

Definition schema_type_matches (schema_type v : value) : bool :=
  match schema_type with
  | JString type_name => json_type_matches type_name v
  | Array types => existsb (λ type_name, json_type_matches type_name v) (omap as_str types)
  | _ => true
  end.

Definition display_schema_path (path : str) : str := if bool_decide (path = []) then lit "$" else path.
Definition join_schema_path (parent field : str) : str :=
  if bool_decide (parent = []) then field else parent ++ lit "." ++ field.
Definition quoted (s : str) : str := lit "`" ++ s ++ lit "`".

Definition first_schema_type_name (schema_type : value) : option str :=
  match schema_type with
  | JString type_name => Some type_name
  | Array types => head (omap as_str types)
  | _ => None
  end.

(** The placeholder of a type in the hint. *)
Definition type_placeholder (type_name : str) : str :=
  if existsb (λ t, bool_decide (type_name = t))
       [lit "array"; lit "boolean"; lit "integer"; lit "null"; lit "number"; lit "object"; lit "string"]
  then lit "<" ++ type_name ++ lit ">" else lit "<value>".

Definition expected_schema_value_hint (schema : option value) : value :=
  match schema ≫= as_object with
  | None => JString (lit "<value>")
  | Some schema_object =>
      match (get (lit "enum") schema_object ≫= as_array) ≫= head with
      | Some first => first
      | None =>
          JString (default (lit "<value>")
            (type_placeholder <$> (get (lit "type") schema_object ≫= first_schema_type_name)))
      end
  end.

Section validation.
(** [serde_json]'s reader and its rendering of floating-point numbers. *)
Variable float_text : N → str.
Variable from_str : str → value + str.

Definition display_schema_type (schema_type : value) : str :=
  match schema_type with
  | JString type_name => quoted type_name
  | Array types => lit "[" ++ join (lit ", ") (quoted <$> omap as_str types) ++ lit "]"
  | other => json_text float_text other
  end.

Definition expected_arguments_object_hint (required_fields : list str) (schema_object : object) : str :=
  let properties := get (lit "properties") schema_object ≫= as_object in
  let hint := foldl (λ hint field,
    map_insert field (expected_schema_value_hint (properties ≫= get field)) hint) [] required_fields in
  json_text float_text (Object hint).

Definition missing_required_argument_message (tool_name path field : str) (required_fields : list str)
    (schema_object : object) : str :=
  lit "generated tool call " ++ quoted tool_name ++ lit " missing required argument "
  ++ quoted (join_schema_path path field) ++ lit "; required arguments: "
  ++ join (lit ", ") ((λ field, quoted (join_schema_path path field)) <$> required_fields)
  ++ lit "; expected arguments object: " ++ expected_arguments_object_hint required_fields schema_object.

(** ** Values against a schema *)
Definition refuse {A} (message : str) : outcome RuntimeError A := Err (ToolCallValidation message).

(** [if let Some(v) = map.get(key) { body }], with the body under recursion. *)
Definition if_member (key : str) (body : value → outcome RuntimeError unit) : object → outcome RuntimeError unit :=
  fix go m := match m with
  | [] => Ok tt
  | (k, v) :: m => if bool_decide (k = key) then body v else go m
  end.
(** A loop that stops at the first error. *)
Definition each {A} (body : nat → A → outcome RuntimeError unit) : nat → list A → outcome RuntimeError unit :=
  fix go index l := match l with
  | [] => Ok tt
  | x :: l => _ ← body index x; go (S index) l
  end.

Section value.
Variable tool_name : str.
Definition blame (path what : str) : str :=
  lit "generated tool call " ++ quoted tool_name ++ lit " argument " ++ quoted (display_schema_path path) ++ what.
Definition blame_schema (part path what : str) : str :=
  lit "tool " ++ quoted tool_name ++ lit " schema " ++ part ++ lit " for " ++ quoted (display_schema_path path) ++ what.

Definition check_required (path : str) (schema_object o : object) (required : value) : outcome RuntimeError unit :=
  match as_array required with
  | None => refuse (blame_schema (lit "required") path (lit " must be an array"))
  | Some required =>
      if forallb is_string required then
        let required_fields := omap as_str required in
        each (λ _ field,
          if contains_key field o then Ok tt
          else refuse (missing_required_argument_message tool_name path field required_fields schema_object))
          0 required_fields
      else refuse (blame_schema (lit "required entries") path (lit " must be strings"))
  end.

Definition check_enum (path : str) (v enum_values : value) : outcome RuntimeError unit :=
  match as_array enum_values with
  | None => refuse (blame_schema (lit "enum") path (lit " must be an array"))
  | Some enum_values =>
      if existsb (λ allowed, value_eqb allowed v) enum_values then Ok tt
      else refuse (blame path (lit " is not one of the allowed enum values"))
  end.

Fixpoint validate_json_schema_value (path : str) (v schema : value) : outcome RuntimeError unit :=
  match schema with
  | Object schema_object =>
      _ ← if_member (lit "type") (λ allowed_type,
        if schema_type_matches allowed_type v then Ok tt
        else refuse (blame path (lit " does not match schema type " ++ display_schema_type allowed_type))) schema_object;
      _ ← if_member (lit "enum") (check_enum path v) schema_object;
      _ ← match v with
          | Object o =>
              _ ← if_member (lit "required") (check_required path schema_object o) schema_object;
              if_member (lit "properties") (λ properties,
                match properties with
                | Object properties =>
                    each (λ _ '(field, field_schema),
                      match get field o with
                      | Some field_value =>
                          validate_json_schema_value (join_schema_path path field) field_value field_schema
                      | None => Ok tt
                      end) 0 properties
                | _ => refuse (blame_schema (lit "properties") path (lit " must be an object"))
                end) schema_object
          | _ => Ok tt
          end;
      match v with
      | Array array =>
          if_member (lit "items") (λ items_schema,
            each (λ index item,
              validate_json_schema_value
                (display_schema_path path ++ lit "[" ++ decimal (N.of_nat index) ++ lit "]") item items_schema)
              0 array) schema_object
      | _ => Ok tt
      end
  | _ => Ok tt
  end.
End value.

Definition validate_tool_call_arguments_against_schema (tool_call : ToolCall) (schema : value) : outcome RuntimeError unit :=
  let tool_name := tcf_name (tc_function tool_call) in
  if is_object (tcf_arguments (tc_function tool_call)) then
    validate_json_schema_value tool_name [] (tcf_arguments (tc_function tool_call)) schema
  else refuse (lit "generated tool call " ++ quoted tool_name ++ lit " arguments must be a JSON object").

(** ** Parsed replies *)
Definition validate_tool_call_arguments (parsed : ParsedAssistant) : outcome RuntimeError unit :=
  each (λ _ tool_call,
    if is_object (tcf_arguments (tc_function tool_call)) then Ok tt
    else Err (JsonMode (lit "tool call " ++ quoted (tcf_name (tc_function tool_call))
                ++ lit " arguments must be a JSON object"))) 0 (tool_calls parsed).

(** [request.tools.iter().find]. *)
Definition declared_tool (name : str) (tools : list ToolDefinition) : option ToolDefinition :=
  List.find (λ tool, bool_decide (fd_name (td_function tool) = name)) tools.

(** The body of the loop over the generated calls. *)
Definition validate_generated_call (request : ChatCompletionRequest) (tool_call : ToolCall) : outcome RuntimeError unit :=
  let name := tcf_name (tc_function tool_call) in
  match declared_tool name (ch_tools request) with
  | None => refuse (lit "generated tool call " ++ quoted name ++ lit " was not declared in request tools")
  | Some tool =>
      _ ← match ch_tool_choice request with
          | Some (ChoiceFunction required) =>
              if bool_decide (name = required) then Ok tt
              else refuse (lit "generated tool call " ++ quoted name
                     ++ lit " did not match required tool " ++ quoted required)
          | _ => Ok tt
          end;
      validate_tool_call_arguments_against_schema tool_call (fd_parameters (td_function tool))
  end.

Definition validate_tool_calls_against_request (parsed : ParsedAssistant) (request : ChatCompletionRequest)
    : outcome RuntimeError unit :=
  match tool_calls parsed with
  | [] => Ok tt
  | _ =>
      match ch_tool_choice request with
      | Some ChoiceNone => refuse (lit "tool_choice none does not allow generated tool calls")
      | _ => each (λ _ tool_call, validate_generated_call request tool_call) 0 (tool_calls parsed)
      end
  end.

Definition validate_json_object_response (parsed : ParsedAssistant) : outcome RuntimeError unit :=
  match content parsed with
  | _ :: _ =>
      match from_str (content parsed) with
      | inr err =>
          Err (JsonMode (lit "json_object response_format requires valid JSON object content: " ++ err))
      | inl v =>
          if is_object v then Ok tt
          else Err (JsonMode (lit "json_object response_format requires assistant content to be a JSON object"))
      end
  | [] =>
      match tool_calls parsed with
      | [] => Err (JsonMode (lit "json_object response_format requires assistant content or tool calls"))
      | _ => Ok tt
      end
  end.

Definition validate_json_object_response_format (parsed : ParsedAssistant) (request : ChatCompletionRequest)
    : outcome RuntimeError unit :=
  match ch_response_format request with
  | Some RfJsonObject => validate_json_object_response parsed
  | _ => Ok tt
  end.
End validation.
