(* ===== verification/ToolCalls.v ===== *)
(** * Tool-call deltas and intents

    Models [crates/llm-runtime/src/tool_call.rs] (the assembler of streamed
    calls, the serializer of call deltas, the intents that are filled in and the
    tool choices that require a call) with the delta types of
    [crates/llm-api/src/response.rs].  The schema text of the tools, also of that
    file, is in [CanonicalJson.v]. *)
From Stdlib Require Import String.
From stdpp Require Import base gmap sets numbers list.
From S2P Require Import Prelude Text Whitespace Api ToolParse Backend CompletionStream Json ResponseValidation.
Open Scope nat_scope.
Open Scope record_scope.

(** ** Deltas *)
Record ToolCallFunctionDelta := MkFunctionDelta { fnd_name : option str; fnd_arguments : option str }.
Record ToolCallDelta := MkCallDelta {
  d_index : N;
  d_id : option str;
  d_call_type : option ToolCallType;
  d_function : option ToolCallFunctionDelta;
}.

(** ** Assembler *)
Record StructuredToolCallAccumulator := MkCallAcc {
  a_id : option str;
  a_call_type : option ToolCallType;
  a_name : str;
  a_arguments : str;
}.
#[export] Instance eta_call_acc : Eta StructuredToolCallAccumulator := {| eta a :=
  MkCallAcc (a_id a) (a_call_type a) (a_name a) (a_arguments a) |}.
Definition call_acc_default : StructuredToolCallAccumulator := MkCallAcc None None [] [].

Abbreviation Assembler := (list StructuredToolCallAccumulator) (only parsing).

(** [Vec::resize_with] when the vector is too short. *)
Definition grown {A} (n : nat) (x : A) (l : list A) : list A := l ++ replicate (n - length l) x.

(** What a delta adds to its call. *)
Definition add_delta (delta : ToolCallDelta) (call : StructuredToolCallAccumulator) : StructuredToolCallAccumulator :=
  let call := match d_id delta with Some id => call <| a_id := Some id |> | None => call end in
  let call := match d_call_type delta with Some t => call <| a_call_type := Some t |> | None => call end in
  match d_function delta with
  | None => call
  | Some function =>
      let call := match fnd_name function with Some name => call <| a_name ::= λ n, n ++ name |> | None => call end in
      match fnd_arguments function with
      | Some arguments => call <| a_arguments ::= λ a, a ++ arguments |>
      | None => call
      end
  end.

(** [push]; an index, a [u32], always fits a [usize]. *)
Definition assembler_push (calls : Assembler) (delta : ToolCallDelta) : Assembler :=
  let index := N.to_nat (d_index delta) in
  alter (add_delta delta) index (grown (S index) call_acc_default calls).

Section calls.
(** [serde_json]'s reader and its rendering of floating-point numbers, and the
    UUID drawn for a call. *)
Variable from_str : str → value + str.
Variable float_text : N → str.
Variable uuid : N → str.

Definition parse_structured_tool_arguments (index : nat) (arguments : str) : outcome RuntimeError value :=
  let trimmed := trim arguments in
  if bool_decide (trimmed = []) then Ok (Object [])
  else match from_str trimmed with
       | inl v => Ok v
       | inr err => refuse (lit "streamed tool call " ++ quoted (decimal (N.of_nat index))
                      ++ lit " arguments were not valid JSON: " ++ err)
       end.

Fixpoint assembled_calls (index : nat) (calls : Assembler) : outcome RuntimeError (list ToolCall) :=
  match calls with
  | [] => Ok []
  | call :: calls =>
      let blank_name := bool_decide (trim (a_name call) = []) in
      if blank_name && bool_decide (trim (a_arguments call) = []) then assembled_calls (S index) calls
      else if blank_name then
        refuse (lit "streamed tool call " ++ quoted (decimal (N.of_nat index)) ++ lit " was missing a function name")
      else
        arguments ← parse_structured_tool_arguments index (a_arguments call);
        rest ← assembled_calls (S index) calls;
        Ok (MkToolCall (default (generated_tool_call_id uuid (N.of_nat index)) (a_id call))
              (default Function (a_call_type call)) (MkToolCallFunction (a_name call) arguments) :: rest)
  end.

(** A parser error as a [RuntimeError]. *)
Definition parser_error {A} (r : outcome ParserError A) : outcome RuntimeError A :=
  match r with Ok a => Ok a | Err e => Err (Parser e) | Panic => Panic end.

Definition into_parsed (calls : Assembler) (text : str) : outcome RuntimeError ParsedAssistant :=
  tool_calls ← assembled_calls 0 calls;
  '(reasoning, content) ← parser_error (split_reasoning text);
  Ok (MkParsed reasoning content tool_calls).

(** ** Deltas to send *)
Definition structured_tool_delta_has_progress (delta : ToolCallDelta) : bool :=
  is_some (d_id delta) || is_some (d_call_type delta)
  || match d_function delta with
     | Some function => is_some (fnd_name function) || is_some (fnd_arguments function)
     | None => false
     end.

Definition structured_tool_delta_without_arguments (delta : ToolCallDelta) : option ToolCallDelta :=
  let function := function ← d_function delta; name ← fnd_name function; Some (MkFunctionDelta (Some name) None) in
  let stripped := MkCallDelta (d_index delta) (d_id delta) (d_call_type delta) function in
  if structured_tool_delta_has_progress stripped then Some stripped else None.

Definition u32_max : N := 4294967295.
Definition api_tool_call_index (index : nat) : outcome RuntimeError N :=
  if (N.of_nat index <=? u32_max)%N then Ok (N.of_nat index)
  else Err (CompletionStream.Api (invalid_request
    (lit "tool call index does not fit u32: out of range integral type conversion attempted"))).

(** The serializer keeps the text of the arguments of each call it has seen. *)
Abbreviation Serializer := (list (option str)) (only parsing).

Definition serializing (A : Type) : Type := stm Serializer RuntimeError A.

Definition serialized_arguments (index : nat) (arguments : value) : serializing str := λ s,
  let s := grown (S index) None s in
  match s !! index with
  | Some (Some serialized) => (Ok serialized, s)
  | _ => let serialized := json_text float_text arguments in (Ok serialized, <[index := Some serialized]> s)
  end.

Definition tool_call_delta (index : nat) (tool_call : ToolCall) : serializing ToolCallDelta :=
  i ← (lift_outcome (api_tool_call_index index) : serializing N);
  text ← serialized_arguments index (tcf_arguments (tc_function tool_call));
  mret (MkCallDelta i (Some (tc_id tool_call)) (Some (tc_type tool_call))
    (Some (MkFunctionDelta (Some (tcf_name (tc_function tool_call))) (Some text)))).

Definition tool_call_arguments_delta (index : nat) (tool_call : ToolCall) : serializing ToolCallDelta :=
  i ← (lift_outcome (api_tool_call_index index) : serializing N);
  text ← serialized_arguments index (tcf_arguments (tc_function tool_call));
  mret (MkCallDelta i None None (Some (MkFunctionDelta None (Some text)))).
End calls.

(** ** Intents *)
Definition request_may_fill_tool_intent_arguments (request : ChatCompletionRequest) : bool :=
  existsb (λ tool, schema_requires_string_intent_argument (fd_parameters (td_function tool))) (ch_tools request).

Definition fill_missing_intent (request : ChatCompletionRequest) (tool_call : ToolCall) : ToolCall :=
  let function := tc_function tool_call in
  match tcf_arguments function with
  | Object arguments =>
      if contains_key (lit "_i") arguments then tool_call
      else match declared_tool (tcf_name function) (ch_tools request) with
           | None => tool_call
           | Some tool =>
               let schema := fd_parameters (td_function tool) in
               if schema_requires_string_intent_argument schema then
                 MkToolCall (tc_id tool_call) (tc_type tool_call)
                   (MkToolCallFunction (tcf_name function)
                     (Object (map_insert (lit "_i") (JString (tool_intent_default schema)) arguments)))
               else tool_call
           end
  | _ => tool_call
  end.
Definition fill_missing_tool_intent_arguments (request : ChatCompletionRequest) (parsed : ParsedAssistant) : ParsedAssistant :=
  MkParsed (reasoning parsed) (content parsed) (fill_missing_intent request <$> tool_calls parsed).

(** ** Tool choices *)
Definition request_requires_tool_choice (request : ChatCompletionRequest) : bool :=
  match ch_tool_choice request with Some Required | Some (ChoiceFunction _) => true | _ => false end.

Inductive BackendToolChoice := RequiredAny | RequiredFunction (name : str).
Definition required_backend_tool_choice (request : ChatCompletionRequest) : option BackendToolChoice :=
  match ch_tool_choice request with
  | Some Required => Some RequiredAny
  | Some (ChoiceFunction name) => Some (RequiredFunction name)
  | Some Auto | Some ChoiceNone | None => None
  end.
