(* ===== verification/JsonMode.v ===== *)
(** * Replies in JSON object mode

    Models [crates/llm-runtime/src/json_mode.rs] and the method of
    [adapters.rs] that parses a whole reply: when a reply is taken as JSON
    instead of being parsed for tool calls. *)
From Stdlib Require Import String.
From stdpp Require Import base sets numbers list.
From S2P Require Import Prelude Text Whitespace Api ToolParse ToolMarkup Backend CompletionStream Json ResponseValidation.
From S2P Require Import ToolCalls.
Open Scope nat_scope.

(** The loop of [first_balanced_json_object] from the first brace on: where the
    object ends.  The characters it looks for are single bytes, and no byte of a
    longer character is one of them. *)
Fixpoint balanced_end (depth : nat) (in_string escaped : bool) (s : str) : option nat :=
  match s with
  | [] => None
  | b :: s =>
      if in_string then
        S <$> (if escaped then balanced_end depth true false s
               else if (b =? 92)%N then balanced_end depth true true s
               else if (b =? 34)%N then balanced_end depth false false s
               else balanced_end depth true false s)
      else if (b =? 34)%N then S <$> balanced_end depth true escaped s
      else if (b =? 123)%N then S <$> balanced_end (S depth) false escaped s
      else if (b =? 125)%N then
        match depth with
        | O => None
        | S O => Some 1
        | S depth => S <$> balanced_end depth false escaped s
        end
      else S <$> balanced_end depth false escaped s
  end.

Definition first_balanced_json_object (text : str) : option str :=
  start ← find (lit "{") text;
  end_ ← balanced_end 0 false false (drop start text);
  Some (trim (take end_ (drop start text))).

Definition unmarked_tool_json_candidate (text : str) (truncation_tokens : list str) : str :=
  trim (match list_min (omap (λ token, find token text) truncation_tokens) with
        | Some index => take index text
        | None => text
        end).

Section json_mode.
Variable from_str : str → value + str.
Variable string_from_str : str → str + str.
Variable uuid : N → str.

Definition json_value_is_object (text : str) : bool :=
  match from_str text with inl v => is_object v | inr _ => false end.

Definition markdown_fenced_json_object_candidate (text : str) : option str :=
  rest ← strip_prefix (lit "```") text;
  newline ← find [10%N] rest;
  let body_with_close := drop (newline + 1) rest in
  body_end ← find (lit "```") body_with_close;
  let candidate := trim (take body_end body_with_close) in
  if json_value_is_object candidate then Some candidate else None.

Definition json_object_response_candidate (text : str) : option str :=
  let trimmed := trim text in
  if json_value_is_object trimmed then Some trimmed
  else
    match markdown_fenced_json_object_candidate trimmed with
    | Some fenced => Some fenced
    | None =>
        if starts_with (lit "{") trimmed then None
        else
          candidate ← first_balanced_json_object trimmed;
          if json_value_is_object candidate then Some candidate else None
    end.

Definition unmarked_tool_json_without_declared_tools (request : ChatCompletionRequest) (text : str) (family : ModelFamily)
    : option str :=
  match ch_tools request with
  | _ :: _ => None
  | [] =>
      if negb (parses_unmarked_tool_calls family) || contains_start (tool_markup_policy family) text then None
      else
        let content := unmarked_tool_json_candidate text (unmarked_tool_json_truncation_tokens family) in
        match from_str content with
        | inl (Object _) | inl (Array _) => Some content
        | _ => None
        end
  end.

Definition json_object_mode (request : ChatCompletionRequest) : bool :=
  match ch_response_format request with Some RfJsonObject => true | _ => false end.

Definition json_object_mode_without_tools (request : ChatCompletionRequest) (text : str) (family : ModelFamily) : option str :=
  match ch_tools request with
  | _ :: _ => None
  | [] =>
      if negb (json_object_mode request) || contains_start (tool_markup_policy family) text then None
      else json_object_response_candidate
             (unmarked_tool_json_candidate text (unmarked_tool_json_truncation_tokens family))
  end.

(** [ChatAdapter::parse_complete]. *)
Definition parse_complete (family : ModelFamily) (text : str) : outcome RuntimeError ParsedAssistant :=
  parser_error (parse_assistant_for_family from_str string_from_str uuid family text).

Definition parse_chat_text (family : ModelFamily) (text : str) (request : ChatCompletionRequest)
    : outcome RuntimeError ParsedAssistant :=
  match unmarked_tool_json_without_declared_tools request text family with
  | Some content => Ok (parsed_content content)
  | None =>
      match json_object_mode_without_tools request text family with
      | Some content => Ok (parsed_content content)
      | None => parse_complete family text
      end
  end.

(** What is taken as the JSON object of a reply is one. *)
Lemma candidate_is_object text candidate : json_object_response_candidate text = Some candidate →
  ∃ m, from_str candidate = inl (Object m).
Proof.
  unfold json_object_response_candidate, markdown_fenced_json_object_candidate.
  assert (∀ t, json_value_is_object t = true → ∃ m, from_str t = inl (Object m)) as Ho.
  { intros t. unfold json_value_is_object. destruct (from_str t) as [[| | | | |m]|]; try done. by exists m. }
  intros H. repeat (case_match; simplify_option_eq); eauto.
Qed.
End json_mode.
