(* ===== verification/NoProgress.v ===== *)
(** * Generations without progress

    Models the chat classification of [crates/llm-runtime/src/no_progress.rs]:
    missing required calls, hidden-only output, repeated content, calls repeated
    after they failed, and stalled turns.  The character tables of [char] are
    parameters. *)
From Stdlib Require Import String.
From stdpp Require Import base gmap sets numbers list.
From S2P Require Import Prelude Text Whitespace Api ToolParse ToolMarkup Backend CompletionStream Json ResponseValidation.
Open Scope nat_scope.

(** ** Failed calls *)
Definition failure_markers : list str :=
  [lit "error"; lit "failed"; lit "failure"; lit "invalid"; lit "not found"; lit "no such file"; lit "denied";
   lit "timeout"; lit "exception"; lit "panic"; lit "missing required argument"].

Definition tool_result_indicates_failure (content : str) : bool :=
  existsb (contains (to_ascii_lowercase content)) failure_markers.

Definition failed_tool_call_ids (messages : list ChatMessage) : gset str :=
  list_to_set (omap (λ message,
    if bool_decide (cm_role message = Tool) then
      match cm_content message with
      | Some content => if tool_result_indicates_failure content then cm_tool_call_id message else None
      | None => None
      end
    else None) messages).

Definition tool_schema_requires_string_intent_argument (tool_name : str) (request : ChatCompletionRequest) : bool :=
  match declared_tool tool_name (ch_tools request) with
  | Some tool => schema_requires_string_intent_argument (fd_parameters (td_function tool))
  | None => false
  end.

(** [Map::remove] of a map with [preserve_order]: the last member takes the
    place of the one removed. *)
Fixpoint map_remove (key : str) (m : object) : object :=
  match m with
  | [] => []
  | (k, v) :: m =>
      if bool_decide (k = key) then match vec_pop m with Some (x, m) => x :: m | None => [] end
      else (k, v) :: map_remove key m
  end.

Definition normalized_tool_call_arguments (tool_call : ToolCall) (request : ChatCompletionRequest) : value :=
  match tcf_arguments (tc_function tool_call) with
  | Object m =>
      if tool_schema_requires_string_intent_argument (tcf_name (tc_function tool_call)) request
      then Object (map_remove (lit "_i") m) else Object m
  | v => v
  end.

Definition argument_key_set (arguments : value) : option (gset str) :=
  (λ m : object, list_to_set (fst <$> m)) <$> as_object arguments.

(** The calls of the assistant messages so far. *)
Definition previous_calls (request : ChatCompletionRequest) : list ToolCall :=
  ch_messages request ≫= λ message, if bool_decide (cm_role message = Assistant) then cm_tool_calls message else [].

(** The loop over them: how often the generated call was tried before with the
    same arguments, and with the same argument names only. *)
Definition count_repeat (request : ChatCompletionRequest) (failed : gset str) (generated : ToolCall)
    (counts : N * N) (previous : ToolCall) : N * N :=
  let generated_arguments := normalized_tool_call_arguments generated request in
  let '(exact, fuzzy) := counts in
  if negb (bool_decide (tc_id previous ∈ failed))
     || negb (bool_decide (tcf_name (tc_function previous) = tcf_name (tc_function generated)))
  then (exact, fuzzy)
  else
    let previous_arguments := normalized_tool_call_arguments previous request in
    if value_eqb previous_arguments generated_arguments then ((exact + 1)%N, fuzzy)
    else match argument_key_set generated_arguments with
         | Some keys =>
             if bool_decide (argument_key_set previous_arguments = Some keys) then (exact, (fuzzy + 1)%N)
             else (exact, fuzzy)
         | None => (exact, fuzzy)
         end.

Definition repeated_call (request : ChatCompletionRequest) (failed : gset str) (generated : ToolCall) : option NoProgressClass :=
  let '(exact, fuzzy) := foldl (count_repeat request failed generated) (1%N, 1%N) (previous_calls request) in
  if (EXACT_REPEAT_THRESHOLD <=? exact)%N then Some RepeatedInvalidToolCall
  else if (FUZZY_REPEAT_THRESHOLD <=? fuzzy)%N then Some FuzzyRepeatedInvalidToolCall
  else None.

Definition classify_repeated_invalid_tool_call_no_progress (parsed : ParsedAssistant) (request : ChatCompletionRequest)
    : option NoProgressClass :=
  let failed := failed_tool_call_ids (ch_messages request) in
  if bool_decide (failed = ∅) then None
  else head (omap (repeated_call request failed) (tool_calls parsed)).

(** ** Terms of a text *)
Definition no_space_progress_char (ch : N) : bool :=
  existsb (λ '(first, last_), (first <=? ch)%N && (ch <=? last_)%N)
    [(0x3400, 0x4DBF); (0x4E00, 0x9FFF); (0xF900, 0xFAFF); (0x3040, 0x309F); (0x30A0, 0x30FF); (0xAC00, 0xD7AF)]%N.

Definition is_term (terms : list str) (term : str) : bool := existsb (λ t, bool_decide (term = t)) terms.

(** [slice::windows]. *)
Fixpoint windows {A} (n : nat) (l : list A) : list (list A) :=
  match l with
  | [] => []
  | x :: r => if n <=? length l then take n l :: windows n r else []
  end.

Definition english_deferred_action_term : str → bool :=
  is_term [lit "check"; lit "checking"; lit "get"; lit "handle"; lit "help"; lit "investigate"; lit "look"; lit "proceed";
    lit "start"; lit "started"; lit "starting"; lit "work"; lit "working"].

Definition has_english_deferred_action_stance (terms : list str) : bool :=
  let has_first_person := existsb (is_term [lit "i"; lit "me"; lit "my"]) terms in
  let has_future_or_modal := existsb (is_term [lit "will"; lit "ll"; lit "can"]) terms in
  let has_action := existsb english_deferred_action_term terms in
  let has_working_on_target := existsb (λ window,
    match window with
    | [a; b; c] => bool_decide (a = lit "working") && bool_decide (b = lit "on") && is_term [lit "it"; lit "this"; lit "that"] c
    | _ => false
    end) (windows 3 terms) in
  let has_let_me := existsb (λ window,
    match window with [a; b] => bool_decide (a = lit "let") && bool_decide (b = lit "me") | _ => false end) (windows 2 terms) in
  has_working_on_target || has_let_me && has_action || has_first_person && has_future_or_modal && has_action.

Definition spanish_deferred_action_term : str → bool :=
  is_term [lit "ayudar"; lit "comenzar"; lit "empezar"; lit "mirar"; lit "revisar"; lit "trabajar"; lit "verificar"].
Definition has_spanish_deferred_action_stance (terms : list str) : bool :=
  existsb (is_term [lit "voy"; lit "puedo"]) terms && existsb spanish_deferred_action_term terms.

Definition cyrillic_first_person_future_action_term : str → bool :=
  is_term [lit "займусь"; lit "начну"; lit "помогу"; lit "посмотрю"; lit "проверю"; lit "сделаю"].
Definition cyrillic_deferred_action_term : str → bool :=
  is_term [lit "начать"; lit "начинать"; lit "помогать"; lit "помочь"; lit "посмотреть"; lit "проверить"; lit "проверять";
    lit "работать"; lit "сделать"; lit "смотреть"].
Definition has_cyrillic_deferred_action_stance (terms : list str) : bool :=
  existsb cyrillic_first_person_future_action_term terms
  || existsb (is_term [lit "буду"; lit "будем"; lit "могу"; lit "можем"]) terms && existsb cyrillic_deferred_action_term terms.

Definition has_no_space_first_person_future_stance (compact : str) : bool :=
  existsb (contains compact) [lit "我会"; lit "我将"; lit "我要"; lit "我来"].
Definition has_no_space_deferred_action (compact : str) : bool :=
  existsb (contains compact) [lit "开始"; lit "处理"; lit "检查"; lit "修复"; lit "着手"].

Definition meaningful_progress_term (term : str) : bool :=
  (3 <=? length (chars term)) || match chars term with ch :: _ => no_space_progress_char ch | [] => false end.
Definition meaningful_progress_term_count (terms : list str) : nat :=
  length (filter (λ term, meaningful_progress_term term = true) terms).

(** A short line of plain prose. *)
Definition plain_char (ch : N) : bool :=
  negb ((48 <=? ch)%N && (ch <=? 57)%N
        || existsb (N.eqb ch) [10; 13; 96; 123; 125; 91; 93; 60; 62; 124; 61; 58; 59]%N).
Definition plain_short_turn_shape (content : str) : bool :=
  let trimmed := trim content in
  if bool_decide (trimmed = []) || (96 <? length (chars trimmed)) || ends_with trimmed (lit "?") then false
  else forallb plain_char (chars trimmed).

Definition latest_user_content (request : ChatCompletionRequest) : option str :=
  message ← List.find (λ message, bool_decide (cm_role message = User)) (reverse (ch_messages request));
  cm_content message.

Section unicode.
(** [char::is_alphanumeric] and [char::to_lowercase]. *)
Variable is_alphanumeric : N → bool.
Variable to_lowercase : N → list N.

(** The loop's body: the finished terms and the one being read. *)
Definition read_char (s : list str * str) (ch : N) : list str * str :=
  let '(terms, current) := s in
  let flushed := if bool_decide (current = []) then terms else terms ++ [current] in
  if no_space_progress_char ch then (flushed ++ [utf8_encode ch], [])
  else if is_alphanumeric ch then (terms, current ++ utf8_text (to_lowercase ch))
  else (flushed, []).

Definition normalized_progress_terms (content : str) : list str :=
  let '(terms, current) := foldl read_char ([], []) (chars content) in
  if bool_decide (current = []) then terms else terms ++ [current].

Definition normalized_progress_text (content : str) : str := join (lit " ") (normalized_progress_terms content).

Definition has_no_space_deferred_action_stance (content : str) : bool :=
  let compact := utf8_text (filter (λ ch, is_alphanumeric ch = true) (chars content) ≫= to_lowercase) in
  has_no_space_first_person_future_stance compact && has_no_space_deferred_action compact.

Definition has_deferred_action_stance (terms : list str) (content : str) : bool :=
  has_english_deferred_action_stance terms || has_spanish_deferred_action_stance terms
  || has_cyrillic_deferred_action_stance terms || has_no_space_deferred_action_stance content.

Definition stalled_assistant_turn (content : str) (request : ChatCompletionRequest) : bool :=
  let terms := normalized_progress_terms content in
  if bool_decide (terms = []) || (6 <? length terms) || negb (plain_short_turn_shape content) then false
  else
    match latest_user_content request with
    | None => false
    | Some user_content =>
        if meaningful_progress_term_count (normalized_progress_terms user_content) <? 3 then false
        else has_deferred_action_stance terms content
    end.

Definition repeated_assistant_content (content : str) (request : ChatCompletionRequest) : bool :=
  let normalized := normalized_progress_text content in
  if bool_decide (normalized = []) then false
  else existsb (λ previous, bool_decide (previous = normalized))
         (normalized_progress_text <$> omap (λ message,
            if bool_decide (cm_role message = Assistant) && bool_decide (length (cm_tool_calls message) = 0)
            then cm_content message else None) (reverse (ch_messages request))).

(** ** The classification *)
Definition classify_chat_no_progress (raw_text : str) (parsed : ParsedAssistant) (completion_tokens : N)
    (required_tool_pending : bool) (request : ChatCompletionRequest) (policy : list ToolMarkupMarkers)
    : option NoProgressClass :=
  match tool_calls parsed with
  | [] =>
      if required_tool_pending && negb (contains_start policy raw_text) then Some TextFallbackRequiredTool
      else if bool_decide (trim (content parsed) = [])
              && match reasoning parsed with Some r => negb (bool_decide (trim r = [])) | None => false end
      then Some HiddenOnlyOutput
      else
        match classify_no_progress (content parsed) completion_tokens with
        | Some class => Some class
        | None =>
            if repeated_assistant_content (content parsed) request then Some RepeatedAssistantContent
            else if stalled_assistant_turn (content parsed) request then Some StalledAssistantTurn
            else if bool_decide (trim raw_text = []) then classify_no_progress raw_text completion_tokens
            else None
        end
  | _ => classify_repeated_invalid_tool_call_no_progress parsed request
  end.
End unicode.

(** The stances the tests name, read with the letters of ASCII and Cyrillic. *)
Definition demo_alphanumeric (ch : N) : bool :=
  (97 <=? ch)%N && (ch <=? 122)%N || (65 <=? ch)%N && (ch <=? 90)%N || (1040 <=? ch)%N && (ch <=? 1103)%N.
Definition demo_lowercase (ch : N) : list N :=
  if (65 <=? ch)%N && (ch <=? 90)%N || (1040 <=? ch)%N && (ch <=? 1071)%N then [(ch + 32)%N] else [ch].
Example stances :
  normalized_progress_text demo_alphanumeric demo_lowercase (lit "Начну проверку.") = lit "начну проверку"
  ∧ has_cyrillic_deferred_action_stance (normalized_progress_terms demo_alphanumeric demo_lowercase (lit "Начну проверку.")) = true
  ∧ has_english_deferred_action_stance (normalized_progress_terms demo_alphanumeric demo_lowercase (lit "Let me look.")) = true
  ∧ normalized_progress_terms demo_alphanumeric demo_lowercase (lit "我会") = [lit "我"; lit "会"].
Proof. vm_compute. by split_and!. Qed.
