(* ===== verification/ChatStream.v ===== *)
(** * Chat completions, whole and streamed

    Models the chat stream of [crates/llm-runtime/src/streaming.rs] with its
    chunks and progress metadata, and [chat.rs::complete_chat].

    The generator is a method on the record of its local variables; what it has
    yielded is one of them, each event with the state of the cancel guard at the
    time, so that an error leaves the events before it in place. *)
From Stdlib Require Import String.
From stdpp Require Import base sets numbers list.
From S2P Require Import Prelude Text Whitespace Api Stop ToolParse ToolMarkup Backend CompletionStream Json ResponseValidation.
From S2P Require Import ToolCalls JsonMode NoProgress.
Open Scope nat_scope.
Open Scope record_scope.

(** ** Chunks and events *)
Record ChatCompletionDelta := MkChatDelta {
  delta_role : option ChatRole;
  delta_content : option str;
  delta_tool_calls : list ToolCallDelta;
}.
Definition delta_default : ChatCompletionDelta := MkChatDelta None None [].

Record ChatCompletionStreamChoice := MkChatChoice {
  cc_index : N;
  cc_delta : ChatCompletionDelta;
  cc_finish_reason : option FinishReason;
}.

Record ChatCompletionStreamResponse := MkChatResponse {
  sr_id : str;
  sr_object : str;
  sr_created : Z;
  sr_model : str;
  sr_choices : list ChatCompletionStreamChoice;
  sr_usage : option Usage;
}.

Inductive ChatCompletionStreamStage := ToolArgumentAssemblyComplete | ToolIntentFillComplete | ToolSchemaValidationComplete.

Inductive ChatCompletionStreamEvent :=
| ChatChunk (chunk : ChatCompletionStreamResponse)
| ChatProgress (progress : BackendStreamProgress)
| ChatInternalProgress (bytes : nat)
| ChatStage (stage : ChatCompletionStreamStage)
| ChatComplete (usage : Usage).

Definition stream_seed_chunk (completion : RuntimeCompletionSeed) (delta : ChatCompletionDelta)
    (finish_reason : option FinishReason) (usage : option Usage) : ChatCompletionStreamResponse :=
  MkChatResponse (seed_id completion) (lit "chat.completion.chunk") (seed_created completion) (seed_model completion)
    (match usage with Some _ => [] | None => [MkChatChoice 0 delta finish_reason] end) usage.

Definition option_len (o : option str) : nat := match o with Some s => length s | None => 0 end.

Definition tool_call_delta_progress_bytes (d : ToolCallDelta) : nat :=
  option_len (d_id d)
  + match d_function d with Some f => option_len (fnd_name f) + option_len (fnd_arguments f) | None => 0 end.

Definition chat_choice_progress (m : StreamProgressMetadata) (choice : ChatCompletionStreamChoice) : StreamProgressMetadata :=
  let calls := delta_tool_calls (cc_delta choice) in
  MkProgress
    (foldl (λ n d, n + Nat.max (tool_call_delta_progress_bytes d) 1)
       (real_delta_bytes m + option_len (delta_content (cc_delta choice))) calls)
    (match calls with [] => has_tool_delta m | _ => true end)
    (has_tool_call_finish m || bool_decide (cc_finish_reason choice = Some ToolCalls)).

Definition chat_stream_progress_metadata (chunk : ChatCompletionStreamResponse) : StreamProgressMetadata :=
  foldl chat_choice_progress (MkProgress 0 false false) (sr_choices chunk).

Definition chat_progress_metadata (e : ChatCompletionStreamEvent) : StreamProgressMetadata :=
  match e with
  | ChatChunk chunk => chat_stream_progress_metadata chunk
  | _ => MkProgress 0 false false
  end.

Definition api_tool_call_type (t : BackendToolCallType) : ToolCallType := match t with BFunction => Function end.
Definition api_tool_call_function_delta (f : BackendToolCallFunctionDelta) : ToolCallFunctionDelta :=
  MkFunctionDelta (bfd_name f) (bfd_arguments f).
Definition api_tool_call_delta (d : BackendToolCallDelta) : ToolCallDelta :=
  MkCallDelta (btd_index d) (btd_id d) (api_tool_call_type <$> btd_call_type d)
    (api_tool_call_function_delta <$> btd_function d).

Definition internal_progress_bytes (chunk : BackendStreamChunk) : nat :=
  length (chunk_text chunk)
  + sum_list_with (λ d, match btd_function d with Some f => option_len (bfd_arguments f) | None => 0 end)
      (chunk_tool_call_deltas chunk).

(** ** What is held back *)
Inductive DeferredEmission := DeferredNone | JsonObjectMode | ToolChoiceRequired | UnmarkedToolBuffer.
#[export] Instance DeferredEmission_eq_dec : EqDecision DeferredEmission.
Proof. solve_decision. Defined.

Definition UNMARKED_TOOL_BUFFER_FLUSH_THRESHOLD : nat := 256.

Definition deferred_emission_strategy (json_object_mode requires_tool_choice buffers_unmarked : bool) : DeferredEmission :=
  if json_object_mode then JsonObjectMode
  else if requires_tool_choice then ToolChoiceRequired
  else if buffers_unmarked then UnmarkedToolBuffer
  else DeferredNone.

Definition looks_like_unmarked_tool_json_candidate (raw_text : str) : bool :=
  let trimmed := trim_start raw_text in
  bool_decide (trimmed = []) || starts_with (lit "{") trimmed || starts_with (lit "[") trimmed
  || starts_with (lit "```") trimmed.

Definition unmarked_tool_buffer_can_stream_text (raw_text : str) (markup : ToolMarkupStreamState) : bool :=
  negb (bool_decide (is_Some (first_start markup))) && negb (looks_like_unmarked_tool_json_candidate raw_text).

(** ** The generator's variables *)
Record ChatState := MkChatState {
  yielded : list (ChatCompletionStreamEvent * bool);
  armed : bool;
  c_raw_text : str;
  c_emitted_len : nat;
  c_prompt_tokens : N;
  c_prompt_cached_tokens : option N;
  c_completion_tokens : N;
  c_finish_reason : FinishReason;
  stopped_by_sequence : bool;
  stop_at_len : option nat;
  emitted_tool_calls : nat;
  parsed_tool_prefix_len : nat;
  markup : ToolMarkupStreamState;
  serializer : list (option str);
  assembler : list StructuredToolCallAccumulator;
  c_stop_detector : IncrementalStopDetector;
  emitted_public_chunk : bool;
  (** How many texts were parsed: each parse draws fresh identifiers. *)
  parses : nat;
}.
#[export] Instance eta_chat_state : Eta ChatState := {| eta s :=
  MkChatState (yielded s) (armed s) (c_raw_text s) (c_emitted_len s) (c_prompt_tokens s) (c_prompt_cached_tokens s)
    (c_completion_tokens s) (c_finish_reason s) (stopped_by_sequence s) (stop_at_len s) (emitted_tool_calls s)
    (parsed_tool_prefix_len s) (markup s) (serializer s) (assembler s) (c_stop_detector s) (emitted_public_chunk s)
    (parses s) |}.

Definition gen (A : Type) : Type := stm ChatState RuntimeError A.
Definition self : gen ChatState := get_state.
Definition update (f : ChatState → ChatState) : gen unit := modify f.
Definition panicking {A} (o : option A) : gen A := lift_outcome (or_panic o).
Definition emit (e : ChatCompletionStreamEvent) : gen unit :=
  update (λ s, s <| yielded ::= λ l, l ++ [(e, armed s)] |>).

Inductive Flow := Next | Break.

Section chat.
(** [serde_json]'s readers and its rendering of floating-point numbers, the
    character tables, and the UUIDs drawn by each parse. *)
Variables (from_str : str → value + str) (string_from_str : str → str + str) (float_text : N → str).
Variables (is_alphanumeric : N → bool) (to_lowercase : N → list N).
Variable uuid : nat → N → str.
Variables (request : ChatCompletionRequest) (family : ModelFamily).

(** The checks of parsed calls that the stream and the whole completion share. *)
Definition checked (parsed : ParsedAssistant) : outcome RuntimeError ParsedAssistant :=
  _ ← validate_tool_call_arguments parsed;
  let parsed := fill_missing_tool_intent_arguments request parsed in
  match classify_repeated_invalid_tool_call_no_progress parsed request with
  | Some class => Err (NoProgress class)
  | None => _ ← validate_tool_calls_against_request float_text parsed request; Ok parsed
  end.

Section stream.
Variables (completion : RuntimeCompletionSeed) (include_usage : bool).

Definition deferred : DeferredEmission :=
  deferred_emission_strategy (json_object_mode request) (request_requires_tool_choice request)
    (parses_unmarked_tool_calls family && negb (bool_decide (length (ch_tools request) = 0))).
Definition deferring (d : DeferredEmission) : bool := bool_decide (deferred = d).
Definition buffer_structured_tool_arguments : bool := request_may_fill_tool_intent_arguments request.

Definition emit_delta (delta : ChatCompletionDelta) (finish : option FinishReason) (usage : option Usage) : gen unit :=
  emit (ChatChunk (stream_seed_chunk completion delta finish usage)).
Definition emit_content (text : str) : gen unit := emit_delta (MkChatDelta None (Some text) []) None None.
Definition emit_calls (deltas : list ToolCallDelta) : gen unit := emit_delta (MkChatDelta None None deltas) None None.
Definition public : gen unit := update (λ s, s <| emitted_public_chunk := true |>).

(** [raw_text[i..j].to_owned()]. *)
Definition raw_slice (i j : nat) : gen str := s ← self; panicking (str_range (c_raw_text s) i j).

(** A method of the serializer in place. *)
Definition with_serializer {A} (f : stm (list (option str)) RuntimeError A) : gen A :=
  s ← self;
  let '(r, ser) := f (serializer s) in
  _ ← update (λ s, s <| serializer := ser |>);
  lift_outcome r.

(** The identifiers of the next parse. *)
Definition fresh_uuids : gen (N → str) :=
  s ← self; _ ← update (λ s, s <| parses ::= S |>); mret (uuid (parses s)).

Definition on_tool_deltas (deltas : list BackendToolCallDelta) : gen unit :=
  match deltas with
  | [] => mret tt
  | _ =>
      let api_deltas := api_tool_call_delta <$> deltas in
      _ ← update (λ s, s <| assembler ::= λ a, foldl assembler_push a api_deltas |>);
      let sent := if buffer_structured_tool_arguments then omap structured_tool_delta_without_arguments api_deltas
                  else api_deltas in
      match sent with
      | [] => mret tt
      | _ => _ ← public; emit_calls sent
      end
  end.

(** A stop sequence was found. *)
Definition on_stop (stop_at : nat) : gen Flow :=
  s ← self;
  _ ← (if deferring DeferredNone && (c_emitted_len s <? stop_at) then
         text ← raw_slice (c_emitted_len s) stop_at;
         _ ← emit_content text;
         update (λ s, s <| c_emitted_len := stop_at |>)
       else mret tt);
  _ ← update (λ s, s <| stop_at_len := Some stop_at |> <| c_finish_reason := CompletionStream.Stop |> <| stopped_by_sequence := true |>);
  mret Break.

Definition safe_len (s : ChatState) : nat :=
  Nat.min (safe_stream_emit_len (c_raw_text s) (max_stop_sequence_len (ch_stop request)))
    (safe_emit_len (c_raw_text s) (markup s)).

(** Sends the text up to the safe length. *)
Definition emit_safe : gen unit :=
  s ← self;
  text ← raw_slice (c_emitted_len s) (safe_len s);
  _ ← public;
  _ ← emit_content text;
  update (λ s', s' <| c_emitted_len := safe_len s |>).

Definition emit_safe_text : gen unit :=
  s ← self;
  if deferring DeferredNone && (c_emitted_len s <? safe_len s) then emit_safe else mret tt.

Definition emit_buffered_text : gen unit :=
  s ← self;
  if deferring UnmarkedToolBuffer && unmarked_tool_buffer_can_stream_text (c_raw_text s) (markup s)
     && (UNMARKED_TOOL_BUFFER_FLUSH_THRESHOLD <=? safe_len s - c_emitted_len s)
  then emit_safe else mret tt.

(** Each of the calls from [index] on, as one delta. *)
Fixpoint emit_parsed_calls (index : nat) (calls : list ToolCall) : gen unit :=
  match calls with
  | [] => mret tt
  | call :: calls =>
      delta ← with_serializer (tool_call_delta float_text index call);
      _ ← public;
      _ ← emit_calls [delta];
      emit_parsed_calls (S index) calls
  end.

(** The calls that are complete, once they are. *)
Definition on_completed_calls : gen unit :=
  s ← self;
  match completed_prefix_len (markup s) with
  | None => mret tt
  | Some tool_prefix_len =>
      if parsed_tool_prefix_len s <? tool_prefix_len then
        text ← raw_slice 0 tool_prefix_len;
        ids ← fresh_uuids;
        parsed ← lift_outcome (parse_complete from_str string_from_str ids family text);
        parsed ← lift_outcome (checked parsed);
        _ ← (if deferring ToolChoiceRequired && negb (bool_decide (content parsed = [])) then mret tt
             else
               _ ← emit_parsed_calls (emitted_tool_calls s) (drop (emitted_tool_calls s) (tool_calls parsed));
               update (λ s, s <| emitted_tool_calls := length (tool_calls parsed) |>
                              <| c_emitted_len ::= λ n, Nat.max n tool_prefix_len |>));
        update (λ s, s <| parsed_tool_prefix_len := tool_prefix_len |>)
      else mret tt
  end.

Definition on_text (text : str) : gen Flow :=
  _ ← update (λ s, s <| c_raw_text ::= λ t, t ++ text |>);
  s ← self;
  m ← panicking (ToolMarkup.observe (c_raw_text s) (markup s));
  _ ← update (λ s, s <| markup := m |>);
  let '(observed, detector) := Stop.observe (c_raw_text s) (ch_stop request) (c_stop_detector s) in
  _ ← update (λ s, s <| c_stop_detector := detector |>);
  observed ← panicking observed;
  match observed with
  | Some stop_at => on_stop stop_at
  | None => _ ← emit_safe_text; _ ← on_completed_calls; _ ← emit_buffered_text; mret Next
  end.

(** The body of the loop. *)
Definition on_chunk (chunk : BackendStreamChunk) : gen Flow :=
  _ ← update (λ s, s <| emitted_public_chunk := false |>
                     <| c_prompt_tokens ::= λ n, N.max n (chunk_prompt_tokens chunk) |>
                     <| c_prompt_cached_tokens ::= λ c, max_optional_u64 c (chunk_prompt_cached_tokens chunk) |>
                     <| c_completion_tokens ::= λ n, sat_add n (chunk_completion_tokens chunk) |>);
  _ ← match chunk_progress chunk with Some p => emit (ChatProgress p) | None => mret tt end;
  _ ← on_tool_deltas (chunk_tool_call_deltas chunk);
  flow ← (if bool_decide (chunk_text chunk = []) then mret Next else on_text (chunk_text chunk));
  match flow with
  | Break => mret Break
  | Next =>
      s ← self;
      _ ← (if (0 <? internal_progress_bytes chunk) && negb (emitted_public_chunk s)
           then emit (ChatInternalProgress (internal_progress_bytes chunk)) else mret tt);
      match chunk_finish_reason chunk with
      | Some reason => _ ← update (λ s, s <| c_finish_reason := api_finish_reason reason |>); mret Break
      | None => mret Next
      end
  end.

Fixpoint backend_loop (items : list (BackendStreamChunk + BackendError)) : gen unit :=
  match items with
  | [] => mret tt
  | inr e :: _ => lift_outcome (Err (runtime_error_from e))
  | inl chunk :: items =>
      flow ← on_chunk chunk;
      match flow with Next => backend_loop items | Break => mret tt end
  end.

(** ** After the loop *)
Definition visible_len (s : ChatState) : nat := default (length (c_raw_text s)) (stop_at_len s).

Definition flush_text : gen unit :=
  s ← self;
  if negb (stopped_by_sequence s) && (c_emitted_len s <? visible_len s) && deferring DeferredNone
     && negb (bool_decide (is_Some (first_start (markup s))))
  then text ← raw_slice (c_emitted_len s) (visible_len s); emit_content text
  else mret tt.

Definition structured_seen (s : ChatState) : bool := negb (bool_decide (length (assembler s) = 0)).

Definition parse_reply (visible_text : str) : gen ParsedAssistant :=
  s ← self;
  ids ← fresh_uuids;
  lift_outcome (if structured_seen s then into_parsed from_str ids (assembler s) visible_text
                else parse_chat_text from_str string_from_str ids family visible_text request).

Definition stage_if (seen : bool) (stage : ChatCompletionStreamStage) : gen unit :=
  if seen then emit (ChatStage stage) else mret tt.

(** The checks of [checked], with a stage event after each. *)
Definition check_reply (visible_text : str) (parsed : ParsedAssistant) : gen ParsedAssistant :=
  let tool_calls_seen := negb (bool_decide (length (tool_calls parsed) = 0)) in
  _ ← stage_if tool_calls_seen ToolArgumentAssemblyComplete;
  _ ← lift_outcome (validate_tool_call_arguments parsed);
  let parsed := fill_missing_tool_intent_arguments request parsed in
  _ ← match classify_repeated_invalid_tool_call_no_progress parsed request with
      | Some class => lift_outcome (Err (NoProgress class))
      | None => mret tt
      end;
  _ ← stage_if tool_calls_seen ToolIntentFillComplete;
  _ ← lift_outcome (validate_tool_calls_against_request float_text parsed request);
  _ ← stage_if tool_calls_seen ToolSchemaValidationComplete;
  _ ← (if deferring JsonObjectMode then lift_outcome (validate_json_object_response from_str parsed) else mret tt);
  s ← self;
  match classify_chat_no_progress is_alphanumeric to_lowercase visible_text parsed (c_completion_tokens s)
          (deferring ToolChoiceRequired && bool_decide (length (tool_calls parsed) = 0)) request
          (tool_markup_policy family) with
  | Some class => lift_outcome (Err (NoProgress class))
  | None => mret parsed
  end.

Definition emit_deferred_content (parsed : ParsedAssistant) : gen unit :=
  s ← self;
  match deferred with
  | JsonObjectMode | ToolChoiceRequired =>
      if bool_decide (content parsed = []) then mret tt else emit_content (content parsed)
  | UnmarkedToolBuffer =>
      if bool_decide (length (tool_calls parsed) = 0) then
        match str_from (content parsed) (c_emitted_len s) with
        | Some [] | None => mret tt
        | Some remaining_content => emit_content remaining_content
        end
      else mret tt
  | DeferredNone => mret tt
  end.

Fixpoint emit_call_arguments (index : nat) (calls : list ToolCall) : gen unit :=
  match calls with
  | [] => mret tt
  | call :: calls =>
      delta ← with_serializer (tool_call_arguments_delta float_text index call);
      _ ← emit_calls [delta];
      emit_call_arguments (S index) calls
  end.

Definition emit_remaining_calls (parsed : ParsedAssistant) : gen unit :=
  s ← self;
  if structured_seen s then
    if buffer_structured_tool_arguments then emit_call_arguments 0 (tool_calls parsed) else mret tt
  else emit_parsed_calls (emitted_tool_calls s) (drop (emitted_tool_calls s) (tool_calls parsed)).

(** The rest of the reply, up to its last delta. *)
Definition finish_reply : gen ParsedAssistant :=
  _ ← update (λ s, s <| armed := false |>);
  _ ← flush_text;
  s ← self;
  visible_text ← raw_slice 0 (visible_len s);
  parsed ← parse_reply visible_text;
  parsed ← check_reply visible_text parsed;
  _ ← emit_deferred_content parsed;
  _ ← emit_remaining_calls parsed;
  mret parsed.

(** The finish reason and the usage. *)
Definition send_end (parsed : ParsedAssistant) : gen unit :=
  s ← self;
  let finish_reason := if bool_decide (length (tool_calls parsed) = 0) then c_finish_reason s else ToolCalls in
  let usage := usage_from_tokens (c_prompt_tokens s) (c_completion_tokens s) (c_prompt_cached_tokens s) in
  _ ← emit_delta delta_default (Some finish_reason) None;
  _ ← (if include_usage then emit_delta delta_default None (Some usage) else mret tt);
  emit (ChatComplete usage).

Definition finish_chat : gen unit := parsed ← finish_reply; send_end parsed.

Definition chat_start : ChatState :=
  MkChatState [] true [] 0 0 None 0 Length false None 0 0 (stream_state (tool_markup_policy family)) [] []
    (detector_new (ch_stop request)) false 0.

(** The whole generator. *)
Definition chat_generator (items : list (BackendStreamChunk + BackendError)) : gen unit :=
  _ ← emit_delta (MkChatDelta (Some Assistant) None []) None None;
  _ ← backend_loop items;
  finish_chat.

(** How the stream ran: its events with the guard's state, how it ended, and
    whether dropping it at the end cancels the token. *)
Record ChatRun := MkChatRun {
  chat_events : list (ChatCompletionStreamEvent * bool);
  chat_end : StreamEnd;
  chat_cancelled : bool;
}.
Definition streaming_chat_stream (items : list (BackendStreamChunk + BackendError)) : ChatRun :=
  let '(r, s) := chat_generator items chat_start in
  MkChatRun (yielded s)
    (match r with Ok _ => Finished | Err e => Failed e | Panic => Panicked end) (armed s).
End stream.

(** ** Whole completions *)
Record RuntimeChatCompletion := MkChatCompletion {
  rc_id : str;
  rc_created : Z;
  rc_model : str;
  rc_parsed : ParsedAssistant;
  rc_finish_reason : FinishReason;
  rc_usage : Usage;
}.

(** [complete_chat], from what the backend returned on. *)
Definition complete_chat (new_id : str) (now : Z) (backend : BackendOutput + BackendError)
    : outcome RuntimeError RuntimeChatCompletion :=
  match backend with
  | inr e => Err (runtime_error_from e)
  | inl output =>
      let '(stopped, raw_text) := apply_stop_sequences (out_text output) (ch_stop request) in
      parsed ← parse_chat_text from_str string_from_str (uuid 0) family raw_text request;
      parsed ← checked parsed;
      _ ← validate_json_object_response_format from_str parsed request;
      let none_called := bool_decide (length (tool_calls parsed) = 0) in
      match classify_chat_no_progress is_alphanumeric to_lowercase raw_text parsed (out_completion_tokens output)
              (request_requires_tool_choice request && none_called) request (tool_markup_policy family) with
      | Some class => Err (NoProgress class)
      | None =>
          let finish_reason := if negb none_called then ToolCalls
            else if stopped then CompletionStream.Stop else api_finish_reason (out_finish_reason output) in
          Ok (MkChatCompletion new_id now (ch_model request) parsed finish_reason
                (usage_from_tokens (out_prompt_tokens output) (out_completion_tokens output)
                   (out_prompt_cached_tokens output)))
      end
  end.
End chat.
