(* ===== verification/JsonBytes.v ===== *)
(** * Counting the bytes of a JSON value

    Models [JsonByteCounter] of [crates/llm-api/src/validation/helpers.rs], which
    measures a value without serializing it, stopping as soon as a limit is
    passed.  The explicit stack of the source is kept; [loop_steps] bounds the
    iterations and serves as fuel. *)
From Stdlib Require Import String.
From stdpp Require Import base sets numbers list.
From S2P Require Import Prelude Text Json.
Open Scope N_scope.

(** ** Definitions *)
Inductive JsonByteFrame :=
| FValue (v : value)
| FArray (iter : list value) (first : bool)
| FObject (iter : object) (first : bool).

(** The bytes [add_json_string] counts for one character. *)
Definition json_char_bytes (ch : N) : N :=
  if (ch =? 34) || (ch =? 92) || (ch =? 8) || (ch =? 9) || (ch =? 10) || (ch =? 12) || (ch =? 13) then 2
  else if ch <=? 31 then 6
  else len_utf8 ch.

(** The iterations of the loop for one value. *)
Fixpoint value_steps (v : value) : nat :=
  match v with
  | Array ((_ :: _) as l) => 2 + foldr (λ n m, S (n + m)) 0 (map value_steps l)
  | Object ((_ :: _) as m) => 2 + foldr (λ n m, S (n + m)) 0 (map (λ '(_, v), value_steps v) m)
  | _ => 1
  end%nat.

Section counter.
Variable float_text : N → str.
(** The counter's [max] field; its [written] field is threaded. *)
Variable max : N.

(** [JsonByteCounter::add]; [None] is [JsonByteLimitExceeded]. *)
Definition add (bytes : N) (written : N) : option N :=
  let written := sat_add written bytes in
  if max <? written then None else Some written.

Fixpoint add_chars (cs : list N) (written : N) : option N :=
  match cs with
  | [] => Some written
  | ch :: cs => written ← add (json_char_bytes ch) written; add_chars cs written
  end.

Definition add_json_string (s : str) (written : N) : option N :=
  written ← add 2 written; add_chars (chars s) written.

(** One iteration: the frames pushed, top first, and the count. *)
Definition count_frame (frame : JsonByteFrame) (written : N) : option (list JsonByteFrame * N) :=
  match frame with
  | FValue Null => w ← add 4 written; Some ([], w)
  | FValue (Bool true) => w ← add 4 written; Some ([], w)
  | FValue (Bool false) => w ← add 5 written; Some ([], w)
  | FValue (Number n) => w ← add (N.of_nat (length (number_text float_text n))) written; Some ([], w)
  | FValue (JString s) => w ← add_json_string s written; Some ([], w)
  | FValue (Array values) =>
      w ← add 1 written;
      if bool_decide (values = []) then w ← add 1 w; Some ([], w)
      else Some ([FArray values true], w)
  | FValue (Object m) =>
      w ← add 1 written;
      if bool_decide (m = []) then w ← add 1 w; Some ([], w)
      else Some ([FObject m true], w)
  | FArray (v :: iter) first =>
      w ← (if first then Some written else add 1 written);
      Some ([FValue v; FArray iter false], w)
  | FArray [] _ => w ← add 1 written; Some ([], w)
  | FObject ((key, v) :: iter) first =>
      w ← (if first then Some written else add 1 written);
      w ← add_json_string key w;
      w ← add 1 w;
      Some ([FValue v; FObject iter false], w)
  | FObject [] _ => w ← add 1 written; Some ([], w)
  end.

(** The loop; the stack's top is the head.  The outer [option] is the fuel. *)
Fixpoint count_loop (fuel : nat) (stack : list JsonByteFrame) (written : N) : option (option N) :=
  match fuel, stack with
  | _, [] => Some (Some written)
  | O, _ => None
  | S fuel, frame :: stack =>
      match count_frame frame written with
      | None => Some None
      | Some (pushed, written) => count_loop fuel (pushed ++ stack) written
      end
  end.

Definition count_value (v : value) : option (option N) := count_loop (value_steps v) [FValue v] 0.

(** ** Sizes *)
Definition text_len (v : value) : N := N.of_nat (length (json_text float_text v)).
Definition string_len (s : str) : N := N.of_nat (length (string_text s)).

Definition items_len (l : list N) (first : bool) : N :=
  match l with [] => 1 | _ => foldr (λ n m, n + m + 1) 0 l + (if first then 0 else 1) end.

(** What is still to be counted for a frame. *)
Definition frame_len (f : JsonByteFrame) : N :=
  match f with
  | FValue v => text_len v
  | FArray l first => items_len (map text_len l) first
  | FObject m first => items_len (map (λ '(k, v), string_len k + 1 + text_len v) m) first
  end.

Definition frame_steps (f : JsonByteFrame) : nat :=
  match f with
  | FValue v => value_steps v
  | FArray l _ => S (foldr (λ n m, S (n + m)) 0 (map value_steps l))
  | FObject m _ => S (foldr (λ n m, S (n + m)) 0 (map (λ '(_, v), value_steps v) m))
  end%nat.

Definition total_len (stack : list JsonByteFrame) : N := foldr (λ f n, frame_len f + n) 0 stack.
Definition total_steps (stack : list JsonByteFrame) : nat :=
  foldr (λ f n, frame_steps f + n)%nat 0%nat stack.

(** All strings and keys are valid UTF-8. *)
Fixpoint value_valid (v : value) : Prop :=
  match v with
  | JString s => valid_utf8 s
  | Array l => (fix go l := match l with [] => True | v :: l => value_valid v ∧ go l end) l
  | Object m => (fix go (m : object) :=
      match m with [] => True | (k, v) :: m => valid_utf8 k ∧ value_valid v ∧ go m end) m
  | _ => True
  end.

Definition frame_valid (f : JsonByteFrame) : Prop :=
  match f with
  | FValue v => value_valid v
  | FArray l _ => value_valid (Array l)
  | FObject m _ => value_valid (Object m)
  end.

(** ** Lemmas *)
Hypothesis Hmax : max < u64_max.

(** The counter after [n] more bytes. *)
Definition counted (n written : N) : option N := if written + n <=? max then Some (written + n) else None.

Lemma add_counted n w : w ≤ max → add n w = counted n w.
Proof using Hmax.
  intros Hw. unfold add, counted, sat_add.
  destruct (N.ltb_spec max (N.min (w + n) u64_max)), (N.leb_spec (w + n) max); try lia; [done|].
  f_equal. lia.
Qed.

Lemma counted_0 w : w ≤ max → counted 0 w = Some w.
Proof using Hmax. intros. unfold counted. rewrite N.add_0_r. by rewrite (proj2 (N.leb_le _ _)). Qed.

(** Two additions in a row, the second one after the first has succeeded. *)
Lemma counted_bind {A} n w (k1 k2 : N → option A) :
  (∀ w, w ≤ max → k1 w = k2 w) → (w' ← counted n w; k1 w') = (w' ← counted n w; k2 w').
Proof. intros Hk. unfold counted. destruct (N.leb_spec (w + n) max); simpl; [by apply Hk|done]. Qed.

Lemma counted_seq {A} n m w (k : N → option A) :
  (w' ← counted n w; w'' ← counted m w'; k w'') = (w' ← counted (n + m) w; k w').
Proof.
  unfold counted. destruct (N.leb_spec (w + n) max); simpl.
  - by rewrite N.add_assoc.
  - by rewrite (proj2 (N.leb_gt (w + (n + m)) max)) by lia.
Qed.

Lemma counted_add n m w : w ≤ max → (w' ← add n w; counted m w') = counted (n + m) w.
Proof using Hmax.
  intros Hw. rewrite add_counted by done. unfold counted.
  destruct (N.leb_spec (w + n) max); simpl.
  - by rewrite N.add_assoc.
  - by rewrite (proj2 (N.leb_gt (w + (n + m)) max)) by lia.
Qed.

Lemma escape_char_bytes c :
  is_scalar c = true →
  N.of_nat (length (concat (escape_byte <$> utf8_encode c))) = json_char_bytes c.
Proof.
  intros _. unfold json_char_bytes. destruct (N.ltb_spec c 128) as [Hc|Hc].
  - unfold utf8_encode. rewrite (proj2 (N.ltb_lt c 128)) by done.
    rewrite fmap_cons, fmap_nil. cbn [concat]. rewrite app_nil_r. unfold escape_byte.
    repeat match goal with |- context [(?a =? ?b)] => destruct (N.eqb_spec a b); simplify_eq; [done|] end.
    cbn [orb]. unfold len_utf8. rewrite (proj2 (N.ltb_lt c 128)) by done.
    destruct (N.ltb_spec c 32), (N.leb_spec c 31); try lia; done.
  - assert (∀ b, 128 ≤ b → escape_byte b = [b]) as He.
    { intros b Hb. unfold escape_byte.
      repeat match goal with |- context [(?a =? ?b)] => destruct (N.eqb_spec a b); [lia|] end.
      by rewrite (proj2 (N.ltb_ge b 32)) by lia. }
    repeat match goal with |- context [(?a =? ?b)] => destruct (N.eqb_spec a b); [lia|] end.
    cbn [orb]. rewrite (proj2 (N.leb_gt c 31)), <- utf8_encode_length by lia. f_equal.
    unfold utf8_encode. rewrite (proj2 (N.ltb_ge c 128)) by done.
    repeat case_match; rewrite ?fmap_cons, fmap_nil, !He by (etrans; [|apply N.le_add_r]; done); done.
Qed.

Lemma add_chars_counted cs w :
  w ≤ max → Forall (λ c, is_scalar c = true) cs →
  add_chars cs w = counted (N.of_nat (length (concat (escape_byte <$> utf8_text cs)))) w.
Proof using Hmax.
  intros Hw Hcs. revert w Hw. induction Hcs as [|c cs Hc _ IH]; intros w Hw; simpl.
  - by rewrite counted_0.
  - unfold utf8_text. rewrite fmap_cons. cbn [concat].
    rewrite fmap_app, concat_app, length_app, Nat2N.inj_add, escape_char_bytes by done.
    rewrite <- counted_add by done. rewrite !add_counted by done.
    apply counted_bind. intros w' Hw'. by apply IH.
Qed.

Lemma add_json_string_counted s w :
  w ≤ max → valid_utf8 s → add_json_string s w = counted (string_len s) w.
Proof using Hmax.
  intros Hw (cs & Hcs & ->). unfold add_json_string. rewrite chars_text by done.
  replace (string_len (utf8_text cs)) with
    (2 + N.of_nat (length (concat (escape_byte <$> utf8_text cs)))).
  - rewrite <- counted_add by done. rewrite !add_counted by done.
    apply counted_bind. intros w' Hw'. by apply add_chars_counted.
  - unfold string_len, string_text. rewrite !length_app. simpl. lia.
Qed.

(** Items in brackets: their lengths, the separators and the closing bracket. *)
Lemma items_len_join (l : list str) :
  l ≠ [] → N.of_nat (length (join (lit ",") l)) + 1 = items_len (N.of_nat ∘ length <$> l) true.
Proof using.
  clear.
  intros Hl. destruct l as [|s0 l]; [done|]. clear Hl.
  unfold items_len. rewrite fmap_cons. cbn [foldr compose]. revert s0.
  induction l as [|s l IH]; intros s0.
  - change (join (lit ",") [s0]) with s0. simpl. lia.
  - change (join (lit ",") (s0 :: s :: l)) with (s0 ++ lit "," ++ join (lit ",") (s :: l)).
    rewrite !length_app, fmap_cons. cbn [foldr compose]. specialize (IH s).
    change (length (lit ",")) with 1%nat. lia.
Qed.

Lemma items_len_cons n l first : items_len (n :: l) first = n + items_len l false + (if first then 0 else 1).
Proof using.
  clear. unfold items_len. destruct l; simpl; destruct first; lia. Qed.

Lemma text_len_array l : text_len (Array l) = 1 + items_len (map text_len l) true.
Proof using float_text.
  clear max Hmax.
  unfold text_len. cbn [json_text]. rewrite !length_app, !Nat2N.inj_add.
  destruct l as [|v l]; [done|]. change (N.of_nat (length (lit "]"))) with 1.
  rewrite items_len_join by done. rewrite <- list_fmap_compose. done.
Qed.

Lemma text_len_object m :
  text_len (Object m) = 1 + items_len (map (λ '(k, v), string_len k + 1 + text_len v) m) true.
Proof using float_text.
  clear max Hmax.
  unfold text_len. cbn [json_text]. rewrite !length_app, !Nat2N.inj_add.
  destruct m as [|kv m]; [done|]. change (N.of_nat (length (lit "}"))) with 1.
  rewrite items_len_join by done. f_equal. f_equal. rewrite <- list_fmap_compose.
  apply list_fmap_ext. intros i [k v] _. unfold compose.
  rewrite !length_app. change (length (lit ":")) with 1%nat. unfold string_len. lia.
Qed.

(** One iteration adds some bytes and leaves the others to the pushed frames. *)
Lemma count_frame_spec f w :
  w ≤ max → frame_valid f →
  ∃ n pushed, count_frame f w = (w' ← counted n w; Some (pushed, w'))
    ∧ n + total_len pushed = frame_len f ∧ (total_steps pushed < frame_steps f)%nat
    ∧ Forall frame_valid pushed.
Proof using Hmax.
  intros Hw Hf. destruct f as [v|l first|m first].
  - destruct v as [|[]|n|s|l|m]; cbn [count_frame].
    + exists 4, []. rewrite add_counted by done. split_and!; [done..|simpl; lia|done].
    + exists 4, []. rewrite add_counted by done. split_and!; [done..|simpl; lia|done].
    + exists 5, []. rewrite add_counted by done. split_and!; [done..|simpl; lia|done].
    + exists (N.of_nat (length (number_text float_text n))), []. rewrite add_counted by done.
      split_and!; [done| |simpl; lia|done]. simpl. unfold text_len. simpl. lia.
    + exists (string_len s), []. rewrite add_json_string_counted by done.
      split_and!; [done| |simpl; lia|done]. simpl. unfold text_len, string_len. simpl. lia.
    + destruct l as [|v l].
      * exists 2, []. rewrite bool_decide_eq_true_2 by done. split_and!; [|done|simpl; lia|done].
        rewrite add_counted by done.
        change 2 with (1 + 1). rewrite <- counted_seq.
        apply counted_bind. intros w' Hw'. by rewrite add_counted.
      * exists 1, [FArray (v :: l) true]. rewrite bool_decide_eq_false_2, add_counted by done.
        split_and!; [done| | |by constructor; [exact Hf|constructor]].
        -- cbn [total_len foldr frame_len]. rewrite text_len_array. lia.
        -- cbn [total_steps foldr frame_steps value_steps]. lia.
    + destruct m as [|kv m].
      * exists 2, []. rewrite bool_decide_eq_true_2 by done. split_and!; [|done|simpl; lia|done].
        rewrite add_counted by done.
        change 2 with (1 + 1). rewrite <- counted_seq.
        apply counted_bind. intros w' Hw'. by rewrite add_counted.
      * exists 1, [FObject (kv :: m) true]. rewrite bool_decide_eq_false_2, add_counted by done.
        split_and!; [done| | |by constructor; [exact Hf|constructor]].
        -- cbn [total_len foldr frame_len]. rewrite text_len_object. lia.
        -- cbn [total_steps foldr frame_steps value_steps]. destruct kv; simpl; lia.
  - destruct l as [|v l]; cbn [count_frame].
    + exists 1, []. rewrite add_counted by done. split_and!; [done..|simpl; lia|done].
    + destruct Hf as [Hv Hl].
      exists (if first then 0 else 1), [FValue v; FArray l false]. split_and!.
      * destruct first; [by rewrite counted_0|by rewrite add_counted].
      * cbn [total_len foldr frame_len map]. rewrite items_len_cons. lia.
      * simpl. lia.
      * constructor; [exact Hv|constructor; [|constructor]]. by (exact Hm || exact Hl).
  - destruct m as [|[k v] m]; cbn [count_frame].
    + exists 1, []. rewrite add_counted by done. split_and!; [done..|simpl; lia|done].
    + destruct Hf as (Hk & Hv & Hm).
      exists ((if first then 0 else 1) + (string_len k + 1)), [FValue v; FObject m false]. split_and!.
      * rewrite <- counted_seq.
        transitivity (w' ← counted (if first then 0 else 1) w; w'' ← counted (string_len k) w';
                      w''' ← counted 1 w''; Some ([FValue v; FObject m false], w''')).
        { destruct first; [rewrite counted_0 by done|rewrite add_counted by done];
            [|apply counted_bind; intros w1 Hw1];
            cbn [mbind option_bind]; (rewrite add_json_string_counted by done);
            apply counted_bind; intros w2 Hw2; by rewrite add_counted. }
        apply counted_bind. intros w' _. by rewrite counted_seq.
      * cbn [total_len foldr frame_len map]. rewrite items_len_cons. lia.
      * simpl. lia.
      * constructor; [exact Hv|constructor; [|constructor]]. by (exact Hm || exact Hl).
Qed.

Lemma total_len_app l1 l2 : total_len (l1 ++ l2) = total_len l1 + total_len l2.
Proof. induction l1 as [|f l1 IH]; simpl; [done|]. lia. Qed.

Lemma total_steps_app l1 l2 : total_steps (l1 ++ l2) = (total_steps l1 + total_steps l2)%nat.
Proof. induction l1 as [|f l1 IH]; simpl; [done|]. lia. Qed.

Lemma count_loop_spec fuel stack w :
  (total_steps stack ≤ fuel)%nat → w ≤ max → Forall frame_valid stack →
  count_loop fuel stack w = Some (counted (total_len stack) w).
Proof using Hmax.
  revert stack w. induction fuel as [|fuel IH]; intros stack w Hs Hw Hv.
  - destruct stack as [|f stack]; [cbn; by rewrite counted_0|].
    simpl in Hs. destruct (count_frame_spec f 0) as (n & p & _ & _ & Hlt & _); [lia|by inv Hv|lia].
  - destruct stack as [|f stack]; [cbn; by rewrite counted_0|]. apply Forall_cons in Hv as [Hf Hv].
    destruct (count_frame_spec f w) as (n & pushed & Hc & Hlen & Hlt & Hp); [done..|].
    cbn [count_loop total_len foldr]. rewrite Hc, <- Hlen. unfold counted at 1.
    destruct (N.leb_spec (w + n) max) as [Hle|Hgt]; simpl.
    + rewrite IH; [|rewrite total_steps_app; simpl in Hs; lia|done|by apply Forall_app].
      rewrite total_len_app. unfold counted. f_equal. fold (total_len stack).
      by replace (w + n + (total_len pushed + total_len stack))
        with (w + (n + total_len pushed + total_len stack)) by lia.
    + unfold counted. by rewrite (proj2 (N.leb_gt _ _)) by lia.
Qed.

Lemma count_value_spec v :
  value_valid v →
  count_value v = Some (if text_len v <=? max then Some (text_len v) else None).
Proof using Hmax.
  intros Hv. unfold count_value. rewrite count_loop_spec.
  - cbn [total_len foldr frame_len]. unfold counted. by rewrite N.add_0_r, N.add_0_l.
  - simpl. lia.
  - lia.
  - constructor; [exact Hv|constructor].
Qed.
End counter.

(** ** Properties *)

(** C37: the byte counter terminates and measures exactly the compact JSON text,
    escapes, separators and multi-byte characters included: a value passes a
    limit exactly when its text is no longer than the limit, and the count it
    leaves is the length of the text. *)
Theorem json_byte_count_exact float_text max v :
  max < u64_max → value_valid v →
  count_value float_text max v
  = Some (if N.of_nat (length (json_text float_text v)) <=? max
          then Some (N.of_nat (length (json_text float_text v))) else None).
Proof. intros. by rewrite count_value_spec. Qed.

Definition demo_value : value :=
  Object [(lit "path", JString (lit "a\b")); (lit "n", Array [Number (PosInt 12); Null; JString [195; 169]])].

Lemma json_byte_count_exact_witness :
  count_value (λ _, []) 34 demo_value = Some (Some 34) ∧ count_value (λ _, []) 33 demo_value = Some None.
Proof.
  assert (value_valid demo_value) as Hv.
  { assert (∀ cs, forallb is_scalar cs = true → valid_utf8 (utf8_text cs)) as H.
    { intros cs Hcs. exists cs. split; [|done]. apply Forall_forall. intros c Hc.
      rewrite forallb_forall in Hcs. apply Hcs. by apply list_elem_of_In. }
    cbn. split_and!; try done.
    - exact (H [112; 97; 116; 104] eq_refl).
    - exact (H [97; 92; 98] eq_refl).
    - exact (H [110] eq_refl).
    - exact (H [233] eq_refl). }
  split.
  - pose proof (json_byte_count_exact (λ _, []) 34 demo_value eq_refl Hv) as ->. vm_compute. reflexivity.
  - pose proof (json_byte_count_exact (λ _, []) 33 demo_value eq_refl Hv) as ->. vm_compute. reflexivity.
Defined.
