(* ===== verification/Validation.v ===== *)
(** * Request validation

    Models [crates/llm-api/src/validation.rs], [validation/helpers.rs] and
    [crates/llm-util/src/sampling.rs].  A check returns [Ok tt] or the error the
    client sees, message included.  The formatter of floating-point numbers is
    an argument, as in [JsonBytes]. *)
From Stdlib Require Import String SpecFloat.
From stdpp Require Import base gmap sets numbers list.
From S2P Require Import Prelude Text Json JsonBytes Api.
Open Scope N_scope.

(** ** Formatting *)
Definition index_text (i : nat) : str := decimal (N.of_nat i).
Abbreviation reject m := (Err (invalid_request m) : outcome ApiError unit).

(** [Result<(), _>]'s [?] in a loop with an index. *)
Fixpoint check_each {A} (f : nat → A → outcome ApiError unit) (index : nat) (l : list A) : outcome ApiError unit :=
  match l with
  | [] => Ok tt
  | x :: l => f index x ≫= λ _, check_each f (S index) l
  end.

(** ** Elementary checks *)
Definition validate_len_at_most (label : str) (actual : nat) (max : N) : outcome ApiError unit :=
  if max <? N.of_nat actual
  then reject (label ++ lit " must contain at most " ++ decimal max ++ lit " entries")
  else Ok tt.

Definition validate_string_bytes (label value : str) (max : N) : outcome ApiError unit :=
  if max <? N.of_nat (length value)
  then reject (label ++ lit " must be at most " ++ decimal max ++ lit " bytes")
  else Ok tt.

Definition validate_non_empty_string (label value : str) : outcome ApiError unit :=
  if trim_is_empty value then reject (label ++ lit " must not be empty") else Ok tt.

Definition validate_stop_sequence_values (stop : list str) : outcome ApiError unit :=
  validate_len_at_most (lit "stop") (length stop) MAX_STOP_SEQUENCES ≫= λ _,
  check_each (λ index sequence,
    if bool_decide (sequence = []) then reject (lit "stop sequences must not be empty")
    else validate_string_bytes (lit "stop[" ++ index_text index ++ lit "]") sequence MAX_STOP_SEQUENCE_BYTES)
    0 stop.

Definition validate_choice_count (n : option N) : outcome ApiError unit :=
  match n with
  | Some 0 => reject (lit "n must be greater than 0")
  | Some 1 | None => Ok tt
  | Some _ => Err (unsupported_capability (lit "multiple choices are not supported yet; use n 1"))
  end.

(** [f32] tests. *)
Definition f32_is_finite (x : spec_float) : bool :=
  match x with S754_zero _ | S754_finite _ _ _ => true | _ => false end.
Definition f32_zero : spec_float := S754_zero false.
Definition f32_one : spec_float := S754_finite false 8388608 (-23).
Definition f32_two : spec_float := S754_finite false 8388608 (-22).

Definition validate_neutral_penalty (name : str) (value : option spec_float) : outcome ApiError unit :=
  match value with
  | Some value =>
      if negb (f32_is_finite value) || negb (SFeqb value f32_zero)
      then Err (unsupported_capability (name ++ lit " is not supported yet; use " ++ name ++ lit " 0"))
      else Ok tt
  | None => Ok tt
  end.

Definition INVALID_TEMPERATURE_MESSAGE : str := lit "temperature must be finite and in [0, 2]".
Definition INVALID_TOP_P_MESSAGE : str := lit "top_p must be finite and in (0, 1]".

Definition validate_sampling_controls (temperature top_p : option spec_float) : outcome ApiError unit :=
  match temperature with
  | Some temperature =>
      if negb (f32_is_finite temperature)
         || negb (SFleb f32_zero temperature && SFleb temperature f32_two)
      then reject INVALID_TEMPERATURE_MESSAGE else Ok tt
  | None => Ok tt
  end ≫= λ _,
  match top_p with
  | Some top_p =>
      if negb (f32_is_finite top_p) || SFleb top_p f32_zero || SFltb f32_one top_p
      then reject INVALID_TOP_P_MESSAGE else Ok tt
  | None => Ok tt
  end.

(** ** Tool schemas *)
Definition SUPPORTED_JSON_SCHEMA_TYPES : list str :=
  [lit "array"; lit "boolean"; lit "integer"; lit "null"; lit "number"; lit "object"; lit "string"].

Definition validate_schema_type_name (label type_name : str) : outcome ApiError unit :=
  if bool_decide (type_name ∈ SUPPORTED_JSON_SCHEMA_TYPES) then Ok tt
  else reject (label ++ lit " has unsupported JSON Schema type `" ++ type_name
    ++ lit "`; supported types: " ++ join (lit ", ") SUPPORTED_JSON_SCHEMA_TYPES).

Definition validate_schema_type (label : str) (schema_type : value) : outcome ApiError unit :=
  match schema_type with
  | JString type_name => validate_schema_type_name (label ++ lit ".type") type_name
  | Array [] => reject (label ++ lit ".type must contain at least one JSON Schema type")
  | Array types =>
      check_each (λ index type_value,
        match as_str type_value with
        | None => reject (label ++ lit ".type must be a string or array of strings")
        | Some type_name =>
            validate_schema_type_name (label ++ lit ".type[" ++ index_text index ++ lit "]") type_name
        end) 0 types
  | _ => reject (label ++ lit ".type must be a string or array of strings")
  end.

(** An optional member, checked when present. *)
Definition check_member (key : str) (schema : object) (f : value → outcome ApiError unit) : outcome ApiError unit :=
  match get key schema with Some v => f v | None => Ok tt end.

(** [validate_schema_object]; the depth test comes first, so [fuel] one more
    than the levels still allowed is enough. *)
Fixpoint validate_schema_object (fuel : nat) (label : str) (schema : object)
    (depth max_depth max_enum_values : N) : outcome ApiError unit :=
  match fuel with
  | O => Panic
  | S fuel =>
      let nested label v :=
        match as_object v with
        | None => reject (label ++ lit " must be a JSON object")
        | Some schema =>
            validate_schema_object fuel label schema (sat_add depth 1) max_depth max_enum_values
        end in
      if max_depth <? depth
      then reject (label ++ lit " schema depth " ++ decimal depth ++ lit " exceeds maximum " ++ decimal max_depth)
      else
        check_member (lit "type") schema (validate_schema_type label) ≫= λ _,
        check_member (lit "required") schema (λ required,
          match as_array required with
          | None => reject (label ++ lit ".required must be an array of strings")
          | Some required =>
              if forallb is_string required then Ok tt
              else reject (label ++ lit ".required must contain only strings")
          end) ≫= λ _,
        check_member (lit "enum") schema (λ enum_values,
          match as_array enum_values with
          | None => reject (label ++ lit ".enum must be an array")
          | Some enum_values =>
              if max_enum_values <? N.of_nat (length enum_values)
              then reject (label ++ lit ".enum size " ++ index_text (length enum_values)
                     ++ lit " exceeds maximum " ++ decimal max_enum_values)
              else Ok tt
          end) ≫= λ _,
        check_member (lit "properties") schema (λ properties,
          match as_object properties with
          | None => reject (label ++ lit ".properties must be a JSON object")
          | Some properties =>
              check_each (λ _ '(name, property_schema),
                nested (label ++ lit ".properties." ++ name) property_schema) 0 properties
          end) ≫= λ _,
        check_member (lit "items") schema (nested (label ++ lit ".items"))
  end.

Definition validate_tool_schema_shape (label : str) (v : value) (max_depth max_enum_values : N)
    : outcome ApiError unit :=
  match as_object v with
  | None => reject (label ++ lit " must be a JSON object")
  | Some schema =>
      validate_schema_object (S (S (N.to_nat max_depth))) label schema 0 max_depth max_enum_values
  end.

Section validation.
Variable float_text : N → str.

Definition validate_json_bytes_at_most (label : str) (v : value) (max : N) : outcome ApiError unit :=
  match count_value float_text max v with
  | Some (Some _) => Ok tt
  | Some None => reject (label ++ lit " must serialize to at most " ++ decimal max ++ lit " bytes")
  | None => Panic
  end.

Definition validate_tools (tools : list ToolDefinition) (limits : RequestLimits) : outcome ApiError unit :=
  check_each (λ index tool,
    let field f := lit "tools[" ++ index_text index ++ lit "].function." ++ f in
    let function := td_function tool in
    validate_non_empty_string (field (lit "name")) (fd_name function) ≫= λ _,
    validate_string_bytes (field (lit "name")) (fd_name function) MAX_NAME_BYTES ≫= λ _,
    match fd_description function with
    | Some description =>
        validate_string_bytes (field (lit "description")) description MAX_TOOL_DESCRIPTION_BYTES
    | None => Ok tt
    end ≫= λ _,
    validate_tool_schema_shape (field (lit "parameters")) (fd_parameters function)
      (tool_schema_depth limits) (tool_schema_enum_values limits) ≫= λ _,
    validate_json_bytes_at_most (field (lit "parameters")) (fd_parameters function) MAX_TOOL_SCHEMA_BYTES)
    0 tools.

(** ** Messages *)
Definition message_field (index : nat) (f : str) : str := lit "messages[" ++ index_text index ++ lit "]." ++ f.

Definition reject_tool_call_id_for_non_tool_message (index : nat) (message : ChatMessage) : outcome ApiError unit :=
  match cm_tool_call_id message with
  | Some _ => reject (message_field index (lit "tool_call_id is only allowed for tool messages"))
  | None => Ok tt
  end.

Definition reject_tool_calls_for_non_assistant_message (index : nat) (message : ChatMessage) : outcome ApiError unit :=
  match cm_tool_calls message with
  | [] => Ok tt
  | _ => reject (message_field index (lit "tool_calls is only allowed for assistant messages"))
  end.

Definition is_none {A} (o : option A) : bool := match o with None => true | Some _ => false end.

Definition validate_chat_message_role_fields (index : nat) (message : ChatMessage) (content_label : str)
    : outcome ApiError unit :=
  match cm_role message with
  | System | User =>
      if is_none (cm_content message)
      then reject (content_label ++ lit " is required for " ++ role_as_str (cm_role message) ++ lit " messages")
      else
        reject_tool_call_id_for_non_tool_message index message ≫= λ _,
        reject_tool_calls_for_non_assistant_message index message
  | Assistant =>
      if is_none (cm_content message) && bool_decide (length (cm_tool_calls message) = O)
      then reject (content_label ++ lit " is required for assistant messages without tool_calls")
      else reject_tool_call_id_for_non_tool_message index message
  | Tool =>
      if is_none (cm_content message)
      then reject (content_label ++ lit " is required for tool messages")
      else if is_none (cm_tool_call_id message)
      then reject (message_field index (lit "tool_call_id is required for tool messages"))
      else reject_tool_calls_for_non_assistant_message index message
  end.

(** The loop's variables: whether a conversation message was seen, the tool
    calls still to be answered and the message that made them. *)
Record OrderState := MkOrder {
  seen_conversation_message : bool;
  pending_tool_call_ids : gset str;
  pending_tool_call_message : option nat;
}.

Definition order_start : OrderState := MkOrder false ∅ None.

Definition reject_non_tool_message_while_tool_calls_pending (index : nat) (s : OrderState) : outcome ApiError unit :=
  if bool_decide (pending_tool_call_ids s = ∅) then Ok tt
  else
    let pending := match pending_tool_call_message s with
                   | Some p => lit " from messages[" ++ index_text p ++ lit "].tool_calls"
                   | None => []
                   end in
    reject (message_field index (lit "role must be tool while assistant tool calls" ++ pending ++ lit " are pending")).

(** [pending_tool_call_ids.insert] for every call of an assistant message. *)
Fixpoint insert_ids (index call_index : nat) (calls : list ToolCall) (pending : gset str)
    : outcome ApiError (gset str) :=
  match calls with
  | [] => Ok pending
  | call :: calls =>
      if bool_decide (tc_id call ∈ pending)
      then Err (invalid_request (message_field index (lit "tool_calls[" ++ index_text call_index
             ++ lit "].id duplicates another tool call id in the same assistant message")))
      else insert_ids index (S call_index) calls ({[ tc_id call ]} ∪ pending)
  end.

Definition validate_chat_message_order (index : nat) (message : ChatMessage) (s : OrderState)
    : outcome ApiError OrderState :=
  match cm_role message with
  | System =>
      if seen_conversation_message s
      then Err (invalid_request (message_field index
             (lit "role system messages must appear before user, assistant, or tool messages")))
      else Ok s
  | User =>
      reject_non_tool_message_while_tool_calls_pending index s ≫= λ _,
      Ok (MkOrder true (pending_tool_call_ids s) (pending_tool_call_message s))
  | Assistant =>
      reject_non_tool_message_while_tool_calls_pending index s ≫= λ _,
      pending ← insert_ids index 0 (cm_tool_calls message) ∅;
      Ok (MkOrder true pending (if bool_decide (pending = ∅) then None else Some index))
  | Tool =>
      match cm_tool_call_id message with
      | None => Err (invalid_request (message_field index (lit "tool_call_id is required for tool messages")))
      | Some tool_call_id =>
          if bool_decide (pending_tool_call_ids s = ∅)
          then Err (invalid_request (message_field index
                 (lit "role tool messages must follow an assistant message with tool_calls")))
          else if bool_decide (tool_call_id ∉ pending_tool_call_ids s)
          then Err (invalid_request (message_field index
                 (lit "tool_call_id `" ++ tool_call_id ++ lit "` does not match a pending assistant tool call")))
          else
            let pending := pending_tool_call_ids s ∖ {[ tool_call_id ]} in
            Ok (MkOrder true pending
                  (if bool_decide (pending = ∅) then None else pending_tool_call_message s))
      end
  end.

(** The checks of a message's fields, after its role and order. *)
Definition validate_message_fields (index : nat) (message : ChatMessage) (limits : RequestLimits)
    : outcome ApiError unit :=
  match cm_content message with
  | Some content =>
      validate_string_bytes (message_field index (lit "content")) content (message_content_bytes limits)
  | None => Ok tt
  end ≫= λ _,
  match cm_name message with
  | Some name => validate_string_bytes (message_field index (lit "name")) name MAX_NAME_BYTES
  | None => Ok tt
  end ≫= λ _,
  match cm_tool_call_id message with
  | Some tool_call_id =>
      (if bool_decide (cm_role message = Tool)
       then validate_non_empty_string (message_field index (lit "tool_call_id")) tool_call_id
       else Ok tt) ≫= λ _,
      validate_string_bytes (message_field index (lit "tool_call_id")) tool_call_id MAX_NAME_BYTES
  | None => Ok tt
  end ≫= λ _,
  validate_len_at_most (message_field index (lit "tool_calls")) (length (cm_tool_calls message))
    MAX_TOOL_CALLS_PER_MESSAGE ≫= λ _,
  check_each (λ call_index call,
    let field f := message_field index (lit "tool_calls[" ++ index_text call_index ++ lit "]." ++ f) in
    validate_string_bytes (field (lit "id")) (tc_id call) MAX_NAME_BYTES ≫= λ _,
    validate_non_empty_string (field (lit "function.name")) (tcf_name (tc_function call)) ≫= λ _,
    validate_string_bytes (field (lit "function.name")) (tcf_name (tc_function call)) MAX_NAME_BYTES ≫= λ _,
    validate_json_bytes_at_most (field (lit "function.arguments")) (tcf_arguments (tc_function call))
      MAX_TOOL_ARGUMENT_BYTES) 0 (cm_tool_calls message).

(** The loop of [validate_chat_messages]. *)
Fixpoint validate_messages_loop (index : nat) (messages : list ChatMessage) (limits : RequestLimits)
    (s : OrderState) : outcome ApiError OrderState :=
  match messages with
  | [] => Ok s
  | message :: messages =>
      validate_chat_message_role_fields index message (message_field index (lit "content")) ≫= λ _,
      s ← validate_chat_message_order index message s;
      validate_message_fields index message limits ≫= λ _,
      validate_messages_loop (S index) messages limits s
  end.

Definition validate_chat_messages (messages : list ChatMessage) (limits : RequestLimits) : outcome ApiError unit :=
  s ← validate_messages_loop 0 messages limits order_start;
  match pending_tool_call_message s with
  | Some index =>
      reject (message_field index
        (lit "tool_calls must be followed by tool messages for every pending tool call"))
  | None => Ok tt
  end.

(** ** Requests *)
Fixpoint unique_tool_names (index : nat) (tools : list ToolDefinition) (seen : gset str) : outcome ApiError unit :=
  match tools with
  | [] => Ok tt
  | tool :: tools =>
      let name := fd_name (td_function tool) in
      if bool_decide (name ∈ seen)
      then reject (lit "duplicate tool name `" ++ name ++ lit "` in tools[" ++ index_text index
                   ++ lit "].function.name")
      else unique_tool_names (S index) tools ({[ name ]} ∪ seen)
  end.
Definition validate_unique_tool_names (tools : list ToolDefinition) : outcome ApiError unit :=
  unique_tool_names 0 tools ∅.

Definition validate_tool_choice (tools : list ToolDefinition) (tool_choice : option ToolChoice)
    : outcome ApiError unit :=
  match tool_choice with
  | Some Required =>
      if bool_decide (length tools = O)
      then reject (lit "tool_choice required needs at least one declared tool")
      else validate_unique_tool_names tools
  | Some (ChoiceFunction name) =>
      validate_non_empty_string (lit "tool_choice.function.name") name ≫= λ _,
      validate_unique_tool_names tools ≫= λ _,
      if existsb (λ tool, bool_decide (fd_name (td_function tool) = name)) tools then Ok tt
      else reject (lit "required tool `" ++ name ++ lit "` was not declared")
  | Some (Auto | ChoiceNone) | None => Ok tt
  end.

Definition require (holds : bool) (e : ApiError) : outcome ApiError unit := if holds then Ok tt else Err e.

Definition is_zero (n : option N) : bool := match n with Some 0 => true | _ => false end.
Definition is_true (b : option bool) : bool := match b with Some true => true | _ => false end.

(** [ChatCompletionRequest::validate_with_limits]. *)
Definition validate_chat_request (r : ChatCompletionRequest) (limits : RequestLimits) : outcome ApiError unit :=
  require (negb (trim_is_empty (ch_model r))) (invalid_request (lit "model is required")) ≫= λ _,
  require (negb (bool_decide (length (ch_messages r) = O)))
    (invalid_request (lit "messages must not be empty")) ≫= λ _,
  validate_len_at_most (lit "messages") (length (ch_messages r)) MAX_CHAT_MESSAGES ≫= λ _,
  validate_chat_messages (ch_messages r) limits ≫= λ _,
  validate_len_at_most (lit "tools") (length (ch_tools r)) MAX_TOOLS ≫= λ _,
  validate_tools (ch_tools r) limits ≫= λ _,
  validate_stop_sequence_values (ch_stop r) ≫= λ _,
  require (match ch_response_format r with Some (RfJsonSchema _) => false | _ => true end)
    (unsupported_capability (lit "json_schema response_format is not supported; use json_object")) ≫= λ _,
  validate_tool_choice (ch_tools r) (ch_tool_choice r) ≫= λ _,
  require (negb (is_true (ch_parallel_tool_calls r)))
    (unsupported_capability
       (lit "parallel tool calls are not supported yet; use parallel_tool_calls false")) ≫= λ _,
  validate_sampling_controls (ch_temperature r) (ch_top_p r) ≫= λ _,
  validate_neutral_penalty (lit "presence_penalty") (ch_presence_penalty r) ≫= λ _,
  validate_neutral_penalty (lit "frequency_penalty") (ch_frequency_penalty r) ≫= λ _,
  require (negb (is_true (ch_logprobs r)))
    (unsupported_capability (lit "logprobs are not supported yet; use logprobs false")) ≫= λ _,
  require (is_none (ch_top_logprobs r))
    (unsupported_capability (lit "top_logprobs are not supported yet")) ≫= λ _,
  require (negb (is_zero (ch_max_tokens r))) (invalid_request (lit "max_tokens must be greater than 0")) ≫= λ _,
  require (negb (is_zero (ch_max_completion_tokens r)))
    (invalid_request (lit "max_completion_tokens must be greater than 0")) ≫= λ _,
  require (match ch_max_tokens r, ch_max_completion_tokens r with
           | Some a, Some b => a =? b
           | _, _ => true
           end)
    (invalid_request (lit "max_tokens and max_completion_tokens must match when both are provided")) ≫= λ _,
  validate_choice_count (ch_n r).

(** [CompletionRequest::validate_with_limits]. *)
Definition validate_completion_request (r : CompletionRequest) (limits : RequestLimits) : outcome ApiError unit :=
  require (negb (trim_is_empty (cr_model r))) (invalid_request (lit "model is required")) ≫= λ _,
  require (negb (bool_decide (cr_prompt r = []))) (invalid_request (lit "prompt must not be empty")) ≫= λ _,
  validate_string_bytes (lit "prompt") (cr_prompt r) (completion_prompt_bytes limits) ≫= λ _,
  validate_stop_sequence_values (cr_stop r) ≫= λ _,
  validate_sampling_controls (cr_temperature r) (cr_top_p r) ≫= λ _,
  validate_neutral_penalty (lit "presence_penalty") (cr_presence_penalty r) ≫= λ _,
  validate_neutral_penalty (lit "frequency_penalty") (cr_frequency_penalty r) ≫= λ _,
  require (is_none (cr_logprobs r))
    (unsupported_capability (lit "completion logprobs are not supported yet")) ≫= λ _,
  require (negb (is_zero (cr_max_tokens r))) (invalid_request (lit "max_tokens must be greater than 0")) ≫= λ _,
  validate_choice_count (cr_n r).
End validation.
