(* ===== verification/ValidationTheorems.v ===== *)
(** * What request validation guarantees

    Theorems about [Validation]: the conversations accepted are exactly those
    that follow the tool-call protocol, the schemas accepted are exactly those
    within the depth and size limits, validated stop sequences are fit for the
    stop detector, and every failure is a client error. *)
From Stdlib Require Import String SpecFloat.
From stdpp Require Import base gmap sets numbers list.
From S2P Require Import Prelude Text Stop Json JsonBytes Api Validation.
Open Scope N_scope.

(** ** Sequences of checks *)
Lemma bind_Ok {E A B} (m : outcome E A) (f : A → outcome E B) (b : B) :
  m ≫= f = Ok b ↔ ∃ a, m = Ok a ∧ f a = Ok b.
Proof. destruct m; cbn; naive_solver. Qed.

Lemma then_Ok {E} (m1 m2 : outcome E unit) : (m1 ≫= λ _, m2) = Ok tt ↔ m1 = Ok tt ∧ m2 = Ok tt.
Proof. destruct m1 as [[]|e|]; cbn; naive_solver. Qed.

Lemma check_each_Ok {A} (f : nat → A → outcome ApiError unit) i l :
  check_each f i l = Ok tt ↔ ∀ j x, l !! j = Some x → f (i + j)%nat x = Ok tt.
Proof.
  revert i. induction l as [|x l IH]; intros i; cbn [check_each]; [by split|].
  rewrite then_Ok, IH. split.
  - intros [Hx Hl] [|j] y Hy; simpl in Hy; simplify_eq.
    + by rewrite Nat.add_0_r.
    + rewrite <- Nat.add_succ_comm. by apply Hl.
  - intros H. split; [rewrite <- (Nat.add_0_r i); by apply (H O)|].
    intros j y Hy. rewrite Nat.add_succ_comm. by apply (H (S j)).
Qed.

Lemma check_each_const {A} (f : A → outcome ApiError unit) i l :
  check_each (λ _, f) i l = Ok tt ↔ Forall (λ x, f x = Ok tt) l.
Proof.
  rewrite check_each_Ok, Forall_lookup. naive_solver.
Qed.

(** Neither panics nor fails with anything but a client error. *)
Definition client_checked {A} (m : outcome ApiError A) : Prop :=
  match m with Ok _ => True | Err e => http_status e = 400 | Panic => False end.

Lemma client_checked_bind {A B} (m : outcome ApiError A) (f : A → outcome ApiError B) :
  client_checked m → (∀ a, m = Ok a → client_checked (f a)) → client_checked (m ≫= f).
Proof. destruct m; cbn; naive_solver. Qed.

Lemma client_checked_each {A} (f : nat → A → outcome ApiError unit) i l :
  (∀ j x, x ∈ l → client_checked (f j x)) → client_checked (check_each f i l).
Proof.
  revert i. induction l as [|x l IH]; intros i Hf; [done|]. cbn [check_each].
  apply client_checked_bind; [apply Hf; by left|]. intros _ _. apply IH. intros j y Hy. apply Hf. by right.
Qed.

Ltac client_step :=
  match goal with
  | |- client_checked (_ ≫= _) => apply client_checked_bind; [|intros ? ?]
  | |- client_checked (Ok _) => exact I
  | |- client_checked (Err _) => reflexivity
  | |- client_checked (check_each _ _ _) => apply client_checked_each; intros
  | |- client_checked (if ?b then _ else _) => destruct b
  | |- client_checked (match ?x with _ => _ end) => destruct x
  end.

(** ** The tool-call protocol *)

(** [tools] are tool messages that answer exactly the calls [ids], each once. *)
Definition answers (ids : list str) (tools : list ChatMessage) : Prop :=
  Forall (λ m, cm_role m = Tool) tools ∧ (cm_tool_call_id <$> tools) ≡ₚ Some <$> ids.

Definition call_ids (m : ChatMessage) : list str := tc_id <$> cm_tool_calls m.

(** A sequence of turns: a user message, or an assistant message with distinct
    calls followed by the tool messages that answer them. *)
Inductive turns : list ChatMessage → Prop :=
| turns_nil : turns []
| turns_user m rest : cm_role m = User → turns rest → turns (m :: rest)
| turns_assistant m tools rest :
    cm_role m = Assistant → NoDup (call_ids m) → answers (call_ids m) tools → turns rest →
    turns (m :: tools ++ rest).

(** System messages, then turns. *)
Definition conversation (messages : list ChatMessage) : Prop :=
  ∃ system rest, messages = system ++ rest ∧ Forall (λ m, cm_role m = System) system ∧ turns rest.

Section protocol.
Variable float_text : N → str.

(** The order checks alone. *)
Fixpoint order_steps (index : nat) (messages : list ChatMessage) (s s' : OrderState) : Prop :=
  match messages with
  | [] => s = s'
  | m :: messages => ∃ s1, validate_chat_message_order index m s = Ok s1
                           ∧ order_steps (S index) messages s1 s'
  end.

(** The checks of a message that do not depend on the others. *)
Definition fields_ok (limits : RequestLimits) (index : nat) (m : ChatMessage) : Prop :=
  validate_chat_message_role_fields index m (message_field index (lit "content")) = Ok tt
  ∧ validate_message_fields float_text index m limits = Ok tt.

Lemma messages_loop_Ok index messages limits s s' :
  validate_messages_loop float_text index messages limits s = Ok s' ↔
  order_steps index messages s s'
  ∧ ∀ j m, messages !! j = Some m → fields_ok limits (index + j)%nat m.
Proof.
  revert index s. induction messages as [|m messages IH]; intros index s; cbn [validate_messages_loop order_steps].
  - split; [by intros [= ->]|by intros [-> _]].
  - rewrite bind_Ok. setoid_rewrite bind_Ok. setoid_rewrite bind_Ok. setoid_rewrite IH. split.
    + intros ([] & Hr & s1 & Ho & [] & Hf & Hs & Hall). split; [by exists s1|].
      intros [|j] m' Hm; simpl in Hm; simplify_eq; [by rewrite Nat.add_0_r|].
      rewrite <- Nat.add_succ_comm. by apply Hall.
    + intros [(s1 & Ho & Hs) Hall]. destruct (Hall O m eq_refl) as [Hr Hf]. rewrite Nat.add_0_r in Hr, Hf.
      exists tt. split; [done|]. exists s1. split; [done|]. exists tt. split; [done|]. split; [done|].
      intros j m' Hm. rewrite Nat.add_succ_comm. by apply (Hall (S j)).
Qed.

Definition order_inv (s : OrderState) : Prop :=
  (pending_tool_call_message s = None ↔ pending_tool_call_ids s = ∅)
  ∧ (seen_conversation_message s = false → pending_tool_call_ids s = ∅).

Lemma insert_ids_Ok index k calls pending pending' :
  insert_ids index k calls pending = Ok pending' ↔
  NoDup (tc_id <$> calls) ∧ (∀ i, i ∈ tc_id <$> calls → i ∉ pending)
  ∧ pending' = list_to_set (tc_id <$> calls) ∪ pending.
Proof.
  revert k pending. induction calls as [|c calls IH]; intros k pending; cbn [insert_ids].
  - simpl. split; [intros [= <-]|intros (_ & _ & ->)].
    + split_and!; [constructor|set_solver|set_solver].
    + f_equal. set_solver.
  - rewrite fmap_cons, NoDup_cons, list_to_set_cons. case_bool_decide as Hc.
    + split; [done|]. intros (_ & Hn & _). destruct (Hn (tc_id c)); [by left|done].
    + rewrite IH. split.
      * intros (Hd & Hn & ->). split_and!; [|done| |set_solver].
        -- intros Hin. specialize (Hn _ Hin). set_solver.
        -- intros i [->|Hi]%elem_of_cons; [done|]. specialize (Hn _ Hi). set_solver.
      * intros ([Hni Hd] & Hn & ->). split_and!; [done| |set_solver].
        intros i Hi. pose proof (Hn i ltac:(by right)). assert (i ≠ tc_id c) by (by intros ->). set_solver.
Qed.

Lemma insert_ids_client index k calls pending : client_checked (insert_ids index k calls pending).
Proof.
  revert k pending. induction calls as [|c calls IH]; intros k pending; cbn [insert_ids]; [done|].
  case_bool_decide; [done|apply IH].
Qed.

(** [messages] answer the pending calls and go on with turns. *)
Definition completes (pending : gset str) (messages : list ChatMessage) : Prop :=
  ∃ tools rest, messages = tools ++ rest ∧ answers (elements pending) tools ∧ turns rest.

Lemma answers_nil tools : answers [] tools ↔ tools = [].
Proof.
  split; [|intros ->; by split].
  intros [_ Hp]. simpl in Hp. apply Permutation_sym, Permutation_nil in Hp.
  by destruct tools.
Qed.

Lemma completes_empty messages : completes ∅ messages ↔ turns messages.
Proof.
  unfold completes. rewrite elements_empty. setoid_rewrite answers_nil. split.
  - by intros (? & rest & -> & -> & ?).
  - intros ?. by exists [], messages.
Qed.

Lemma completes_nil pending : completes pending [] ↔ pending = ∅.
Proof.
  split; [|intros ->; apply completes_empty; constructor].
  intros (tools & rest & Heq & [_ Hp] & _). symmetry in Heq. apply app_eq_nil in Heq as [-> _].
  simpl in Hp. apply Permutation_nil in Hp. destruct (elements pending) eqn:E; [|done].
  by apply elements_empty_inv, leibniz_equiv in E.
Qed.

Lemma answers_perm ids ids' tools : ids ≡ₚ ids' → answers ids tools → answers ids' tools.
Proof. intros Hp [? ?]. split; [done|]. by rewrite <- Hp. Qed.

Lemma turns_cons m messages :
  turns (m :: messages) ↔
  (cm_role m = User ∧ turns messages)
  ∨ (cm_role m = Assistant ∧ NoDup (call_ids m) ∧ completes (list_to_set (call_ids m)) messages).
Proof.
  assert (∀ tools, NoDup (call_ids m) →
    answers (elements (list_to_set (call_ids m) : gset str)) tools ↔ answers (call_ids m) tools) as Hset.
  { intros tools Hd. split; apply answers_perm; by rewrite elements_list_to_set. }
  split.
  - intros Ht. inversion Ht as [|? ? Hr Hrest|? tools rest Hr Hd Ha Hrest]; subst; [by left|right].
    split_and!; [done..|]. exists tools, rest. by rewrite Hset.
  - intros [[Hr Ht]|(Hr & Hd & tools & rest & -> & Ha & Hrest)]; [by constructor|].
    apply turns_assistant; [done..| |done]. by apply Hset.
Qed.

Lemma completes_not_tool pending m messages :
  cm_role m ≠ Tool → completes pending (m :: messages) ↔ pending = ∅ ∧ turns (m :: messages).
Proof.
  intros Hm. split; [|intros [-> ?]; by apply completes_empty].
  intros (tools & rest & Heq & Ha & Hrest). destruct tools as [|t tools].
  - simpl in Heq. subst rest. split; [|done]. destruct Ha as [_ Hp]. simpl in Hp.
    apply Permutation_nil in Hp. destruct (elements pending) eqn:E; [|done].
    by apply elements_empty_inv, leibniz_equiv in E.
  - destruct Ha as [Hf _]. apply Forall_cons in Hf as [Ht _]. simpl in Heq. simplify_eq.
Qed.

Lemma elements_remove (pending : gset str) id :
  id ∈ pending → elements pending ≡ₚ id :: elements (pending ∖ {[ id ]}).
Proof.
  intros Hid. rewrite <- elements_union_singleton by set_solver. f_equiv.
  intros x. destruct (decide (x = id)); set_solver.
Qed.

Lemma completes_tool pending m messages :
  cm_role m = Tool →
  completes pending (m :: messages) ↔
  ∃ id, cm_tool_call_id m = Some id ∧ id ∈ pending ∧ completes (pending ∖ {[ id ]}) messages.
Proof.
  intros Hm. split.
  - intros (tools & rest & Heq & [Hf Hp] & Hrest). destruct tools as [|t tools].
    { simpl in Heq. subst rest. apply turns_cons in Hrest as [[? _]|[? _]]; congruence. }
    simpl in Heq. simplify_eq. apply Forall_cons in Hf as [_ Hf]. rewrite fmap_cons in Hp.
    assert (cm_tool_call_id t ∈ Some <$> elements pending) as Hin by (rewrite <- Hp; by left).
    apply list_elem_of_fmap in Hin as (id & Hid & Hin). apply elem_of_elements in Hin.
    exists id. split_and!; [done..|]. exists tools, rest. split_and!; [done| |done].
    split; [done|]. rewrite (elements_remove _ _ Hin), fmap_cons, Hid in Hp.
    by apply Permutation_cons_inv in Hp.
  - intros (id & Hid & Hin & tools & rest & -> & [Hf Hp] & Hrest).
    exists (m :: tools), rest. split_and!; [done| |done]. split; [by constructor|].
    by rewrite (elements_remove _ _ Hin), !fmap_cons, Hid, Hp.
Qed.

Lemma turns_head m messages : turns (m :: messages) → cm_role m = User ∨ cm_role m = Assistant.
Proof. rewrite turns_cons. naive_solver. Qed.

(** The loop, once a conversation message was seen, and before. *)
Lemma order_steps_seen index messages s :
  order_inv s → seen_conversation_message s = true →
  (∃ s', order_steps index messages s s' ∧ pending_tool_call_message s' = None)
  ↔ completes (pending_tool_call_ids s) messages.
Proof.
  revert index s. induction messages as [|m messages IH]; intros index s Hinv Hseen; cbn [order_steps].
  { rewrite completes_nil. destruct Hinv as [Hi _]. naive_solver. }
  transitivity (∃ s1, validate_chat_message_order index m s = Ok s1
    ∧ ∃ s', order_steps (S index) messages s1 s' ∧ pending_tool_call_message s' = None); [naive_solver|].
  unfold validate_chat_message_order. destruct (cm_role m) eqn:Hm.
  - rewrite Hseen. split; [by intros (? & [=] & _)|].
    rewrite completes_not_tool by congruence. intros [_ [?|?]%turns_head]; congruence.
  - unfold reject_non_tool_message_while_tool_calls_pending. case_bool_decide as Hp; cbn.
    + rewrite completes_not_tool, turns_cons, Hp by congruence.
      assert (order_inv (MkOrder true ∅ (pending_tool_call_message s))) as Hi.
      { destruct Hinv as [Hi _]. rewrite Hp in Hi. by split. }
      split.
      * intros (s1 & [= <-] & Hs). apply IH in Hs; [|done..].
        apply completes_empty in Hs. naive_solver.
      * intros [_ [[_ Ht]|[? _]]]; [|congruence]. eexists. split; [done|].
        apply IH; [done..|]. by apply completes_empty.
    + rewrite completes_not_tool by congruence. naive_solver.
  - unfold reject_non_tool_message_while_tool_calls_pending. case_bool_decide as Hp; cbn.
    + rewrite completes_not_tool, turns_cons, Hp by congruence.
      assert (∀ P, order_inv (MkOrder true P (if bool_decide (P = ∅) then None else Some index))) as Hi.
      { intros P. split; [cbn|done]. case_bool_decide; naive_solver. }
      split.
      * intros (s1 & (pd & Hins & [= <-])%bind_Ok & Hs). apply IH in Hs; [|apply Hi|done].
        apply insert_ids_Ok in Hins as (Hd & _ & ->). cbn in Hs. rewrite union_empty_r_L in Hs.
        split; [done|]. by right.
      * intros [_ [[? _]|(_ & Hd & Hc)]]; [congruence|]. eexists. split.
        { apply bind_Ok. eexists. split; [|done]. apply insert_ids_Ok. split_and!; [done|set_solver|done]. }
        apply IH; [apply Hi|done|]. cbn. by rewrite union_empty_r_L.
    + rewrite completes_not_tool by congruence. naive_solver.
  - rewrite completes_tool by done. destruct (cm_tool_call_id m) as [id|] eqn:Hid; [|naive_solver].
    case_bool_decide as Hp; [rewrite Hp; set_solver|].
    case_bool_decide as Hin; [set_solver|].
    assert (order_inv (MkOrder true (pending_tool_call_ids s ∖ {[ id ]})
      (if bool_decide (pending_tool_call_ids s ∖ {[ id ]} = ∅) then None else pending_tool_call_message s))) as Hi.
    { split; [cbn|done]. destruct Hinv as [Hi _]. case_bool_decide; naive_solver. }
    split.
    + intros (s1 & [= <-] & Hs). apply IH in Hs; [|exact Hi|done]. by exists id.
    + intros (id' & [= <-] & _ & Hc). eexists. split; [done|]. by apply IH.
Qed.

Lemma order_steps_start index messages s :
  order_inv s → seen_conversation_message s = false →
  (∃ s', order_steps index messages s s' ∧ pending_tool_call_message s' = None) ↔ conversation messages.
Proof.
  revert index s. induction messages as [|m messages IH]; intros index s Hinv Hseen.
  { cbn [order_steps]. destruct Hinv as [Hi He]. split.
    - intros _. exists [], []. by repeat constructor.
    - intros _. exists s. split; [done|]. naive_solver. }
  destruct (decide (cm_role m = System)) as [Hm|Hm].
  - cbn [order_steps]. unfold validate_chat_message_order. rewrite Hm, Hseen.
    transitivity (∃ s', order_steps (S index) messages s s' ∧ pending_tool_call_message s' = None); [naive_solver|].
    rewrite IH by done. split.
    + intros (sys & rest & -> & Hs & Ht). exists (m :: sys), rest. by repeat constructor.
    + intros (sys & rest & Heq & Hs & Ht). destruct sys as [|x sys].
      * simpl in Heq. subst rest. apply turns_head in Ht as [|]; congruence.
      * simpl in Heq. simplify_eq. apply Forall_cons in Hs as [_ Hs]. by exists sys, rest.
  - assert (conversation (m :: messages) ↔ completes ∅ (m :: messages)) as ->.
    { rewrite completes_empty. split.
      - intros (sys & rest & Heq & Hs & Ht). destruct sys as [|x sys]; simpl in Heq; [by subst|].
        simplify_eq. apply Forall_cons in Hs as [? _]. done.
      - intros Ht. by exists [], (m :: messages). }
    pose proof (order_steps_seen index (m :: messages)
      (MkOrder true (pending_tool_call_ids s) (pending_tool_call_message s))) as Hs.
    destruct Hinv as [Hi He]. pose proof (He Hseen) as Hp. cbn [pending_tool_call_ids] in Hs.
    rewrite Hp in Hs, Hi. rewrite <- Hs; [|by split|done].
    cbn [order_steps]. unfold validate_chat_message_order, reject_non_tool_message_while_tool_calls_pending.
    cbn [pending_tool_call_ids pending_tool_call_message]. rewrite Hp. by destruct (cm_role m).
Qed.
End protocol.

(** ** Tool schemas *)

(** The members of one schema object that do not nest. *)
Definition schema_head_ok (max_enum : N) (schema : object) : Prop :=
  (∀ v, get (lit "type") schema = Some v →
     match v with
     | JString name => name ∈ SUPPORTED_JSON_SCHEMA_TYPES
     | Array names => names ≠ [] ∧ Forall (λ v, ∃ name, v = JString name ∧ name ∈ SUPPORTED_JSON_SCHEMA_TYPES) names
     | _ => False
     end)
  ∧ (∀ v, get (lit "required") schema = Some v → ∃ l, v = Array l ∧ Forall (λ v, is_string v = true) l)
  ∧ (∀ v, get (lit "enum") schema = Some v → ∃ l, v = Array l ∧ N.of_nat (length l) ≤ max_enum).

(** A schema whose objects nest at most [room] levels below it. *)
Fixpoint schema_ok (max_enum : N) (room : nat) (v : value) : Prop :=
  let below (w : value) := match room with O => False | S room => schema_ok max_enum room w end in
  ∃ schema, v = Object schema
  ∧ schema_head_ok max_enum schema
  ∧ (∀ w, get (lit "properties") schema = Some w →
       ∃ properties, w = Object properties ∧ Forall (λ kv, below kv.2) properties)
  ∧ (∀ w, get (lit "items") schema = Some w → below w).

Section schema.
Variables (max_depth max_enum : N).

Lemma check_member_Ok key schema f :
  check_member key schema f = Ok tt ↔ ∀ v, get key schema = Some v → f v = Ok tt.
Proof. unfold check_member. destruct (get key schema); naive_solver. Qed.

Lemma schema_type_name_Ok label name :
  validate_schema_type_name label name = Ok tt ↔ name ∈ SUPPORTED_JSON_SCHEMA_TYPES.
Proof. unfold validate_schema_type_name. case_bool_decide; naive_solver. Qed.

Lemma schema_type_Ok label v :
  validate_schema_type label v = Ok tt ↔
  match v with
  | JString name => name ∈ SUPPORTED_JSON_SCHEMA_TYPES
  | Array names => names ≠ [] ∧ Forall (λ v, ∃ name, v = JString name ∧ name ∈ SUPPORTED_JSON_SCHEMA_TYPES) names
  | _ => False
  end.
Proof.
  destruct v as [|b|n|name|[|v l]|m]; try done; [apply schema_type_name_Ok|naive_solver|].
  unfold validate_schema_type. rewrite check_each_Ok, Forall_lookup. split.
  - intros H. split; [done|]. intros j w Hw. specialize (H j w Hw). cbn beta in H.
    destruct w; cbn [as_str] in H; try done. apply schema_type_name_Ok in H. eauto.
  - intros [_ H] j w Hw. destruct (H j w Hw) as (name & -> & Hn). cbn [as_str].
    by apply schema_type_name_Ok.
Qed.

Lemma forallb_Forall {A} (f : A → bool) l : forallb f l = true ↔ Forall (λ x, f x = true) l.
Proof.
  induction l as [|x l IH]; simpl; [by rewrite Forall_nil|]. by rewrite andb_true_iff, Forall_cons, IH.
Qed.

(** What may stand below a level with [room] levels under it. *)
Definition schema_below (room : nat) (w : value) : Prop :=
  match room with O => False | S room => schema_ok max_enum room w end.

Lemma schema_ok_unfold room schema :
  schema_ok max_enum room (Object schema) ↔
  schema_head_ok max_enum schema
  ∧ (∀ w, get (lit "properties") schema = Some w →
       ∃ properties, w = Object properties ∧ Forall (λ kv, schema_below room kv.2) properties)
  ∧ (∀ w, get (lit "items") schema = Some w → schema_below room w).
Proof.
  destruct room; cbn [schema_ok]; (split; [by intros (? & [= <-] & ?)|]); intros H; by exists schema.
Qed.

Lemma schema_ok_object room v : schema_ok max_enum room v → is_Some (as_object v).
Proof. destruct room; by intros (? & -> & _). Qed.

Lemma schema_head_Ok label schema :
  (∀ v, get (lit "type") schema = Some v → validate_schema_type label v = Ok tt)
  ∧ (∀ v, get (lit "required") schema = Some v →
       match as_array v with
       | None => reject (label ++ lit ".required must be an array of strings")
       | Some required =>
           if forallb is_string required then Ok tt
           else reject (label ++ lit ".required must contain only strings")
       end = Ok tt)
  ∧ (∀ v, get (lit "enum") schema = Some v →
       match as_array v with
       | None => reject (label ++ lit ".enum must be an array")
       | Some enum_values =>
           if max_enum <? N.of_nat (length enum_values)
           then reject (label ++ lit ".enum size " ++ index_text (length enum_values)
                  ++ lit " exceeds maximum " ++ decimal max_enum)
           else Ok tt
       end = Ok tt)
  ↔ schema_head_ok max_enum schema.
Proof.
  unfold schema_head_ok. setoid_rewrite schema_type_Ok.
  apply and_iff_compat_l, Morphisms_Prop.and_iff_morphism;
    apply Morphisms_Prop.all_iff_morphism; intros v; apply imp_iff_compat_l.
  - destruct v; cbn [as_array]; try (split; [done|by intros (? & [=] & _)]).
    destruct (forallb is_string l) eqn:E.
    { split; [|done]. intros _. exists l. split; [done|]. by apply forallb_Forall. }
    split; [done|]. intros (? & [= <-] & H). apply forallb_Forall in H. congruence.
  - destruct v; cbn [as_array]; try (split; [done|by intros (? & [=] & _)]).
    destruct (N.ltb_spec max_enum (N.of_nat (length l))); [|by split; eauto].
    split; [done|]. intros (? & [= <-] & ?). lia.
Qed.

Lemma schema_object_Ok fuel label schema depth :
  max_depth < u64_max → depth ≤ max_depth → (S (N.to_nat max_depth) < fuel + N.to_nat depth)%nat →
  validate_schema_object fuel label schema depth max_depth max_enum = Ok tt
  ↔ schema_ok max_enum (N.to_nat (max_depth - depth)) (Object schema).
Proof.
  intros Hmax. revert label schema depth. induction fuel as [|fuel IH]; intros label schema depth Hd Hf; [lia|].
  set (nested := λ label v, match as_object v with
    | None => (reject (label ++ lit " must be a JSON object"))
    | Some schema => validate_schema_object fuel label schema (sat_add depth 1) max_depth max_enum
    end).
  assert (∀ label w, nested label w = Ok tt ↔ schema_below (N.to_nat (max_depth - depth)) w) as Hn.
  { intros label' w. unfold nested. rewrite sat_add_small by lia. destruct (as_object w) as [m|] eqn:Hw.
    - destruct w; simplify_eq/=. destruct (decide (depth = max_depth)) as [->|].
      + replace (N.to_nat (max_depth - max_depth)) with O by lia.
        split; [|done]. destruct fuel as [|fuel']; [done|]. cbn [validate_schema_object].
        by rewrite (proj2 (N.ltb_lt max_depth (max_depth + 1))) by lia.
      + replace (N.to_nat (max_depth - depth)) with (S (N.to_nat (max_depth - (depth + 1)))) by lia.
        apply IH; lia.
    - split; [done|]. unfold schema_below. destruct (N.to_nat (max_depth - depth)); [done|].
      intros [? ?]%schema_ok_object. congruence. }
  assert (∀ w, match as_object w with
    | None => reject (label ++ lit ".properties must be a JSON object")
    | Some properties => check_each (λ _ '(name, property_schema),
        nested (label ++ lit ".properties." ++ name) property_schema) 0 properties
    end = Ok tt ↔ ∃ properties, w = Object properties
      ∧ Forall (λ kv, schema_below (N.to_nat (max_depth - depth)) kv.2) properties) as Hp.
  { intros w. destruct w as [| | | | |m]; cbn [as_object]; try (split; [done|by intros (? & [=] & _)]).
    rewrite check_each_const. transitivity (Forall (λ kv, schema_below (N.to_nat (max_depth - depth)) kv.2) m).
    - apply Forall_iff. intros [k v]. apply Hn.
    - split; [by eauto|by intros (? & [= <-] & ?)]. }
  transitivity (check_member (lit "type") schema (validate_schema_type label) = Ok tt
    ∧ check_member (lit "required") schema (λ required,
        match as_array required with
        | None => reject (label ++ lit ".required must be an array of strings")
        | Some required =>
            if forallb is_string required then Ok tt
            else reject (label ++ lit ".required must contain only strings")
        end) = Ok tt
    ∧ check_member (lit "enum") schema (λ enum_values,
        match as_array enum_values with
        | None => reject (label ++ lit ".enum must be an array")
        | Some enum_values =>
            if max_enum <? N.of_nat (length enum_values)
            then reject (label ++ lit ".enum size " ++ index_text (length enum_values)
                   ++ lit " exceeds maximum " ++ decimal max_enum)
            else Ok tt
        end) = Ok tt
    ∧ check_member (lit "properties") schema (λ w, match as_object w with
        | None => reject (label ++ lit ".properties must be a JSON object")
        | Some properties => check_each (λ _ '(name, property_schema),
            nested (label ++ lit ".properties." ++ name) property_schema) 0 properties
        end) = Ok tt
    ∧ check_member (lit "items") schema (nested (label ++ lit ".items")) = Ok tt).
  { cbn [validate_schema_object]. rewrite (proj2 (N.ltb_ge max_depth depth)) by done.
    rewrite !then_Ok. tauto. }
  rewrite !check_member_Ok, schema_ok_unfold, <- (schema_head_Ok label).
  setoid_rewrite Hn. setoid_rewrite Hp. tauto.
Qed.

(** ** Failures are client errors *)
Lemma schema_type_client label v : client_checked (validate_schema_type label v).
Proof. unfold validate_schema_type, validate_schema_type_name. repeat client_step. Qed.

Lemma schema_object_client fuel label schema depth :
  max_depth < u64_max → depth ≤ max_depth + 1 → (S (N.to_nat max_depth) < fuel + N.to_nat depth)%nat →
  client_checked (validate_schema_object fuel label schema depth max_depth max_enum).
Proof.
  intros Hmax. revert label schema depth. induction fuel as [|fuel IH]; intros label schema depth Hd Hf; [lia|].
  cbn [validate_schema_object]. destruct (N.ltb_spec max_depth depth) as [|Hle]; [done|].
  assert (∀ label m, client_checked (validate_schema_object fuel label m (sat_add depth 1) max_depth max_enum)) as Hn.
  { intros. rewrite sat_add_small by lia. apply IH; lia. }
  unfold check_member. repeat (apply schema_type_client || apply Hn || client_step).
Qed.
End schema.

(** ** Stop sequences *)
Lemma stop_values_Ok stop :
  validate_stop_sequence_values stop = Ok tt ↔
  N.of_nat (length stop) ≤ MAX_STOP_SEQUENCES
  ∧ Forall (λ s, s ≠ [] ∧ N.of_nat (length s) ≤ MAX_STOP_SEQUENCE_BYTES) stop.
Proof.
  unfold validate_stop_sequence_values. rewrite then_Ok, check_each_Ok, Forall_lookup.
  unfold validate_len_at_most, validate_string_bytes. apply Morphisms_Prop.and_iff_morphism.
  - destruct (N.ltb_spec MAX_STOP_SEQUENCES (N.of_nat (length stop))); [|done]. split; [done|lia].
  - apply Morphisms_Prop.all_iff_morphism. intros j. apply Morphisms_Prop.all_iff_morphism. intros s.
    apply imp_iff_compat_l. case_bool_decide; [split; [done|by intros []]|].
    destruct (N.ltb_spec MAX_STOP_SEQUENCE_BYTES (N.of_nat (length s))); [|done].
    split; [done|]. intros []. lia.
Qed.

Lemma valid_starts_char s : valid_utf8 s → starts_char s.
Proof.
  intros (cs & Hcs & ->). destruct Hcs as [|c cs _ _]; [done|]. unfold utf8_text. rewrite fmap_cons.
  cbn [concat]. unfold utf8_encode, starts_char, is_continuation.
  assert (∀ a b, 192 ≤ a → (128 <=? a + b) && (a + b <? 192) = false) as H.
  { intros a b Ha. rewrite (proj2 (N.ltb_ge (a + b) 192)) by lia. apply andb_false_r. }
  destruct (N.ltb_spec c 128); cbn [app].
  - by rewrite (proj2 (N.leb_gt 128 c)).
  - destruct (N.ltb_spec c 2048); [|destruct (N.ltb_spec c 65536)]; cbn [app]; by apply H.
Qed.

Lemma stops_fit stop :
  Forall valid_utf8 stop → validate_stop_sequence_values stop = Ok tt →
  stops_wf stop ∧ N.of_nat (max_stop_sequence_len stop) ≤ MAX_STOP_SEQUENCE_BYTES.
Proof.
  intros Hv [_ Hs]%stop_values_Ok. split.
  - intros s Hin. rewrite Forall_forall in Hs, Hv. split; [by apply Hs|]. by apply valid_starts_char, Hv.
  - unfold max_stop_sequence_len. clear Hv. induction Hs as [|s stop [_ Hs] _ IH]; [done|].
    rewrite fmap_cons. cbn [foldr]. lia.
Qed.

(** The JSON values of a request hold valid strings, as any parsed value does. *)
Definition request_values_valid (r : ChatCompletionRequest) : Prop :=
  Forall (λ t, value_valid (fd_parameters (td_function t))) (ch_tools r)
  ∧ Forall (λ m, Forall (λ c, value_valid (tcf_arguments (tc_function c))) (cm_tool_calls m)) (ch_messages r).

Section client.
Variable float_text : N → str.

Lemma json_bytes_client label v max :
  max < u64_max → value_valid v → client_checked (validate_json_bytes_at_most float_text label v max).
Proof.
  intros Hm Hv. unfold validate_json_bytes_at_most. rewrite count_value_spec by done.
  destruct (_ <=? max); done.
Qed.

Lemma elementary_client :
  (∀ label actual max, client_checked (validate_len_at_most label actual max))
  ∧ (∀ label v max, client_checked (validate_string_bytes label v max))
  ∧ (∀ label v, client_checked (validate_non_empty_string label v)).
Proof.
  unfold validate_len_at_most, validate_string_bytes, validate_non_empty_string.
  split_and!; intros; by client_step.
Qed.

Ltac client :=
  repeat (apply elementary_client || (apply json_bytes_client; [done|]) || client_step).

Lemma tools_client tools limits :
  tool_schema_depth limits < u64_max →
  Forall (λ t, value_valid (fd_parameters (td_function t))) tools →
  client_checked (validate_tools float_text tools limits).
Proof.
  intros Hl Hv. rewrite Forall_forall in Hv. unfold validate_tools. client; [|by apply Hv].
  unfold validate_tool_schema_shape. client_step; [|done].
  apply schema_object_client; lia.
Qed.

Lemma messages_client messages limits index s :
  Forall (λ m, Forall (λ c, value_valid (tcf_arguments (tc_function c))) (cm_tool_calls m)) messages →
  client_checked (validate_messages_loop float_text index messages limits s).
Proof.
  intros Hv. revert index s. induction Hv as [|m messages Hm _ IH]; intros index s; [done|].
  cbn [validate_messages_loop]. client; [| | |apply IH].
  - unfold validate_chat_message_role_fields, reject_tool_call_id_for_non_tool_message,
      reject_tool_calls_for_non_assistant_message. client.
  - unfold validate_chat_message_order, reject_non_tool_message_while_tool_calls_pending.
    client. apply insert_ids_client.
  - unfold validate_message_fields. client. rewrite Forall_forall in Hm. by apply Hm.
Qed.

Lemma unique_names_client index tools seen : client_checked (unique_tool_names index tools seen).
Proof.
  revert index seen. induction tools as [|t tools IH]; intros index seen; [done|].
  cbn [unique_tool_names]. client_step; [done|apply IH].
Qed.

Lemma controls_client temperature top_p : client_checked (validate_sampling_controls temperature top_p).
Proof. unfold validate_sampling_controls. client. Qed.

Lemma penalty_client name value : client_checked (validate_neutral_penalty name value).
Proof. unfold validate_neutral_penalty. client. Qed.

Lemma count_client n : client_checked (validate_choice_count n).
Proof. unfold validate_choice_count. destruct n as [[|[]]|]; done. Qed.

Lemma stop_client stop : client_checked (validate_stop_sequence_values stop).
Proof. unfold validate_stop_sequence_values. client. Qed.

Lemma tool_choice_client tools choice : client_checked (validate_tool_choice tools choice).
Proof.
  unfold validate_tool_choice, validate_unique_tool_names. client; apply unique_names_client.
Qed.

Lemma chat_messages_client messages limits :
  Forall (λ m, Forall (λ c, value_valid (tcf_arguments (tc_function c))) (cm_tool_calls m)) messages →
  client_checked (validate_chat_messages float_text messages limits).
Proof. intros Hv. unfold validate_chat_messages. client. by apply messages_client. Qed.

Lemma require_client holds e : http_status e = 400 → client_checked (require holds e).
Proof. unfold require. by destruct holds. Qed.
End client.

(** ** Properties *)

(** C10: a conversation passes validation exactly when it follows the tool-call
    protocol (system messages first, then user messages and assistant messages,
    each assistant message with distinct tool calls followed at once by tool
    messages that answer exactly those calls, each once, in any order) and every
    message's own fields are in bounds. *)
Theorem validated_conversation float_text messages limits :
  validate_chat_messages float_text messages limits = Ok tt ↔
  conversation messages ∧ ∀ j m, messages !! j = Some m → fields_ok float_text limits j m.
Proof.
  unfold validate_chat_messages. rewrite bind_Ok. setoid_rewrite messages_loop_Ok.
  rewrite <- (order_steps_start 0 messages order_start); [|by split|done]. split.
  - intros (s & [Hs Hf] & Hp). split; [|done]. exists s. split; [done|].
    by destruct (pending_tool_call_message s).
  - intros [(s & Hs & Hp) Hf]. exists s. split; [done|]. by rewrite Hp.
Qed.

(** The tool schemas accepted are exactly those whose objects nest at most to
    the configured depth, whose types are supported and whose [required] and
    [enum] members have the right shape and size at every level; checking one
    always terminates within the depth limit. *)
Theorem validated_schema_bounded label v max_depth max_enum :
  max_depth < u64_max →
  validate_tool_schema_shape label v max_depth max_enum = Ok tt
  ↔ schema_ok max_enum (N.to_nat max_depth) v.
Proof.
  intros Hmax. unfold validate_tool_schema_shape. destruct (as_object v) as [m|] eqn:Hv.
  - assert (v = Object m) as -> by (by destruct v; simplify_eq/=).
    rewrite schema_object_Ok by lia. by rewrite N.sub_0_r.
  - split; [done|]. intros [? ?]%schema_ok_object. congruence.
Qed.

Definition demo_schema : value :=
  Object [(lit "type", JString (lit "object"));
          (lit "properties", Object [(lit "path", Object [(lit "type", JString (lit "string"))])])].

Lemma validated_schema_bounded_witness :
  schema_ok 4 1 demo_schema ∧ ¬ schema_ok 4 0 demo_schema.
Proof.
  split.
  - apply (validated_schema_bounded [] demo_schema 1 4); vm_compute; reflexivity.
  - intros H. apply (validated_schema_bounded [] demo_schema 0 4) in H; [|reflexivity].
    vm_compute in H. discriminate H.
Defined.

(** The stop sequences of a validated request are fit for the stop detector:
    none is empty, each starts at a character, and none is longer than the
    limit, so the stream withholds a bounded tail. *)
Theorem validated_stops_fit float_text chat completion limits :
  Forall valid_utf8 (ch_stop chat) → Forall valid_utf8 (cr_stop completion) →
  (validate_chat_request float_text chat limits = Ok tt →
   stops_wf (ch_stop chat) ∧ N.of_nat (max_stop_sequence_len (ch_stop chat)) ≤ MAX_STOP_SEQUENCE_BYTES)
  ∧ (validate_completion_request completion limits = Ok tt →
     stops_wf (cr_stop completion)
     ∧ N.of_nat (max_stop_sequence_len (cr_stop completion)) ≤ MAX_STOP_SEQUENCE_BYTES).
Proof.
  intros Hc Hr. unfold validate_chat_request, validate_completion_request. rewrite !then_Ok.
  split; intros H; apply stops_fit; tauto.
Qed.

Definition demo_message : ChatMessage := MkMessage User (Some (lit "hi")) None None [].
Definition demo_chat : ChatCompletionRequest :=
  MkChatRequest (lit "m") [demo_message] [] None None None false false None None None None None None
    None None None [lit "END"].
Definition demo_completion : CompletionRequest :=
  MkCompletionRequest (lit "m") (lit "hi") false false None None None None None None None [lit "END"].

Lemma valid_utf8_ascii cs : forallb (λ c, c <? 128) cs = true → valid_utf8 cs.
Proof.
  intros H. exists cs. assert (∀ c, c ∈ cs → c < 128) as Hc.
  { intros c Hin. rewrite forallb_forall in H. apply N.ltb_lt, H. by apply list_elem_of_In. }
  split.
  - apply Forall_forall. intros c Hin. unfold is_scalar. specialize (Hc c Hin).
    by rewrite (proj2 (N.ltb_lt c 55296)) by lia.
  - clear H. induction cs as [|c cs IH]; [done|]. unfold utf8_text in *. rewrite fmap_cons. cbn [concat].
    rewrite <- IH by (intros; apply Hc; by right). unfold utf8_encode.
    rewrite (proj2 (N.ltb_lt c 128)); [done|]. apply Hc. by left.
Qed.

Lemma validated_stops_fit_witness :
  stops_wf (ch_stop demo_chat) ∧ stops_wf (cr_stop demo_completion).
Proof.
  assert (valid_utf8 (lit "END")) as Hv by (apply valid_utf8_ascii; reflexivity).
  destruct (validated_stops_fit (λ _, []) demo_chat demo_completion default_limits
    (Forall_cons_2 _ _ _ Hv (Forall_nil_2 _)) (Forall_cons_2 _ _ _ Hv (Forall_nil_2 _))) as [H1 H2].
  split; [apply H1|apply H2]; vm_compute; reflexivity.
Defined.

(** A request is checked to the end, and refused only by a client error. *)
Lemma chat_request_client float_text r limits :
  request_values_valid r → tool_schema_depth limits < u64_max → client_checked (validate_chat_request float_text r limits).
Proof.
  intros [Ht Hm] Hl. unfold validate_chat_request.
  repeat match goal with
    |- client_checked (_ ≫= _) => apply client_checked_bind; [|intros ? _]
    end.
  all: try (by apply require_client); try apply elementary_client; try apply controls_client;
    try apply penalty_client; try apply count_client; try apply stop_client.
  - by apply chat_messages_client.
  - by apply tools_client.
  - apply tool_choice_client.
Qed.

Lemma completion_request_client r limits : client_checked (validate_completion_request r limits).
Proof.
  unfold validate_completion_request.
  repeat match goal with
    |- client_checked (_ ≫= _) => apply client_checked_bind; [|intros ? _]
    end.
  all: try (by apply require_client); try apply elementary_client; try apply controls_client;
    try apply penalty_client; try apply count_client; apply stop_client.
Qed.

(** C39: validating a request always terminates without a panic, and whatever it
    rejects it rejects with an error the client sees as a bad request. *)
Theorem validation_failures_are_client_errors float_text chat completion limits :
  request_values_valid chat → tool_schema_depth limits < u64_max →
  client_checked (validate_chat_request float_text chat limits)
  ∧ client_checked (validate_completion_request completion limits).
Proof. intros Hv Hl. split; [by apply chat_request_client|apply completion_request_client]. Qed.

Lemma validation_failures_are_client_errors_witness :
  client_checked (validate_chat_request (λ _, []) demo_chat default_limits).
Proof.
  apply (validation_failures_are_client_errors (λ _, []) demo_chat demo_completion default_limits).
  - split; repeat constructor.
  - vm_compute. reflexivity.
Defined.
