(* ===== verification/ResponseValidationTheorems.v ===== *)
(** * What the validation of generated calls promises

    The calls that pass are exactly those that conform to the schemas of their
    tools, by a definition of conformance that does not follow the code; and with
    a request that passed its own validation ([Validation.v]), a refusal blames
    the generated call, never the schema of the tool. *)
From Stdlib Require Import String.
From stdpp Require Import base gmap sets numbers list.
From S2P Require Import Prelude Text Stop Whitespace Api ToolParse Backend CompletionStream JsonBytes Validation.
From S2P Require Import ValidationTheorems Json ResponseValidation.
Open Scope nat_scope.

(** ** Equality of JSON values *)
Definition f64_zero (n : N) : Prop := n = 0%N ∨ n = 9223372036854775808%N.
Definition f64_same (a b : N) : Prop := a = b ∨ f64_zero a ∧ f64_zero b.

(** The same value, whatever the order of the members of its objects. *)
Inductive json_same : value → value → Prop :=
| same_null : json_same Null Null
| same_bool b : json_same (Bool b) (Bool b)
| same_int n : json_same (Number (PosInt n)) (Number (PosInt n))
| same_neg z : json_same (Number (NegInt z)) (Number (NegInt z))
| same_float a b : f64_same a b → json_same (Number (Float a)) (Number (Float b))
| same_string s : json_same (JString s) (JString s)
| same_array l k : Forall2 json_same l k → json_same (Array l) (Array k)
| same_object m n : (∀ key, option_Forall2 json_same (get key m) (get key n)) → json_same (Object m) (Object n).

Lemma f64_eqb_same a b : f64_eqb a b = true ↔ f64_same a b.
Proof.
  unfold f64_eqb, f64_same, f64_zero. by rewrite orb_true_iff, andb_true_iff, !orb_true_iff, !N.eqb_eq.
Qed.

Lemma value_eqb_items l k :
  (fix go l k := match l, k with [], [] => true | v :: l, w :: k => value_eqb v w && go l k | _, _ => false end) l k = true
  ↔ Forall2 (λ v w, value_eqb v w = true) l k.
Proof.
  revert k. induction l as [|v l IH]; intros [|w k]; split; try done; try (by inversion 1).
  - intros [Hv Hl]%andb_true_iff. constructor; [done|by apply IH].
  - inversion 1; subst. apply andb_true_iff. split; [done|by apply IH].
Qed.

Lemma value_eqb_members m n :
  (fix go (m : object) := match m with
    | [] => true
    | (k, v) :: m => match get k n with Some w => value_eqb v w | None => false end && go m end) m = true
  ↔ Forall (λ '(k, v), ∃ w, get k n = Some w ∧ value_eqb v w = true) m.
Proof.
  induction m as [|[k v] m IH]; [done|]. rewrite andb_true_iff, Forall_cons, IH.
  apply and_iff_compat_r. destruct (get k n); naive_solver.
Qed.

Lemma get_keys key m : is_Some (get key m) ↔ key ∈ fst <$> m.
Proof.
  split.
  - intros [v Hv%get_Some_in]. apply list_elem_of_fmap. by exists (key, v).
  - intros ([k v] & -> & Hin)%list_elem_of_fmap. induction m as [|[k' w] m IH]; [by apply elem_of_nil in Hin|].
    cbn. case_bool_decide; [by eexists|]. apply elem_of_cons in Hin as [[= <- <-]|Hin]; [done|by apply IH].
Qed.

Lemma number_eqb_same n k : number_eqb n k = true ↔ json_same (Number n) (Number k).
Proof.
  destruct n, k; cbn [number_eqb]; (split; [|by inversion 1; subst; rewrite ?N.eqb_refl, ?Z.eqb_refl, ?f64_eqb_same]); try done.
  - intros ->%N.eqb_eq. constructor.
  - intros ->%Z.eqb_eq. constructor.
  - intros H%f64_eqb_same. by constructor.
Qed.

Lemma members_same m n : NoDup (fst <$> m) → NoDup (fst <$> n) →
  Forall (λ '(k, v), ∀ w, get k n = Some w → value_eqb v w = true ↔ json_same v w) m →
  (length m = length n ∧ Forall (λ '(k, v), ∃ w, get k n = Some w ∧ value_eqb v w = true) m)
  ↔ json_same (Object m) (Object n).
Proof.
  intros Hm Hn IH. rewrite Forall_forall in IH. split.
  - intros [Hlen Hall]. rewrite Forall_forall in Hall. constructor. intros key.
    destruct (get key m) as [v|] eqn:Hv.
    + apply get_Some_in in Hv. destruct (Hall _ Hv) as (w & Hw & He). rewrite Hw. constructor.
      by apply (IH _ Hv).
    + destruct (get key n) as [w|] eqn:Hw; [exfalso|constructor].
      assert (fst <$> m ≡ₚ fst <$> n) as Hp.
      { apply submseteq_length_Permutation; [|by rewrite !length_fmap, Hlen].
        apply NoDup_submseteq; [done|]. intros k ([k' v] & -> & Hin)%list_elem_of_fmap.
        destruct (Hall _ Hin) as (w' & Hw' & _). apply get_keys. by eexists. }
      assert (key ∈ fst <$> m) as [v Hk]%get_keys by (rewrite Hp; apply get_keys; by eexists). congruence.
  - inversion 1 as [| | | | | | |? ? Hkey]; subst.
    assert (fst <$> m ≡ₚ fst <$> n) as Hp.
    { apply NoDup_Permutation; [done..|]. intros k. rewrite <- !get_keys. destruct (Hkey k); split; intros [? ?]; done. }
    split; [by apply Permutation_length in Hp; rewrite !length_fmap in Hp|].
    apply Forall_forall. intros [k v] Hin. pose proof (Hkey k) as Hk. rewrite (get_in k m v) in Hk by done.
    destruct (get k n) as [w|] eqn:Hw; inversion Hk; subst.
    exists w. split; [done|]. by apply (IH _ Hin).
Qed.

Lemma value_eqb_same v w : value_wf v → value_wf w → value_eqb v w = true ↔ json_same v w.
Proof.
  revert w. induction v as [|b|n|s|l IH|m IH] using value_nested_ind; intros w Hv Hw.
  - destruct w; split; try done; try (by inversion 1). constructor.
  - destruct w; split; try done; try (by inversion 1); [intros ->%eqb_prop; constructor|].
    inversion 1. apply eqb_reflx.
  - destruct w; try (split; [done|by inversion 1]). apply number_eqb_same.
  - destruct w; try (split; [done|by inversion 1]). cbn [value_eqb]. rewrite bool_decide_eq_true.
    split; [intros ->; constructor|by inversion 1].
  - destruct w as [| | | |k|]; try (split; [done|by inversion 1]). cbn [value_eqb]. rewrite value_eqb_items.
    apply value_wf_array in Hv. apply value_wf_array in Hw. transitivity (Forall2 json_same l k);
      [|split; [by constructor|by inversion 1]].
    revert k Hw. induction IH as [|v l Hh _ IHl]; intros k Hw; [by split; inversion 1; subst|].
    apply Forall_cons in Hv as [Hv Hl].
    destruct k as [|w k]; [by split; inversion 1|]. apply Forall_cons in Hw as [Hw Hk].
    rewrite !Forall2_cons. by rewrite Hh, IHl.
  - destruct w as [| | | | |n]; try (split; [done|by inversion 1]). cbn [value_eqb].
    apply value_wf_object in Hv as [Hm Hmv]. apply value_wf_object in Hw as [Hn Hnv].
    rewrite andb_true_iff, Nat.eqb_eq, value_eqb_members. apply members_same; [done..|].
    rewrite Forall_forall in *. intros [k v] Hin u Hu%get_Some_in. apply (IH _ Hin); [by apply Hmv in Hin|by apply Hnv in Hu].
Qed.

(** ** Conformance *)

(** What a type name of JSON Schema admits; the code admits anything under a
    name it does not know. *)
Definition has_type (name : str) (v : value) : Prop :=
  (name = lit "object" → ∃ m, v = Object m) ∧ (name = lit "array" → ∃ l, v = Array l)
  ∧ (name = lit "string" → ∃ s, v = JString s) ∧ (name = lit "boolean" → ∃ b, v = Bool b)
  ∧ (name = lit "null" → v = Null) ∧ (name = lit "number" → ∃ n, v = Number n)
  ∧ (name = lit "integer" → ∃ n, v = Number n ∧ ∀ bits, n ≠ Float bits).

Definition type_admits (t v : value) : Prop :=
  (∀ name, t = JString name → has_type name v)
  ∧ (∀ names, t = Array names → ∃ name, JString name ∈ names ∧ has_type name v).

Inductive conforms : value → value → Prop :=
| conforms_to schema v :
    (∀ m, schema = Object m →
      (∀ t, get (lit "type") m = Some t → type_admits t v)
      ∧ (∀ e, get (lit "enum") m = Some e → ∃ allowed w, e = Array allowed ∧ w ∈ allowed ∧ json_same w v)
      ∧ (∀ o, v = Object o →
          (∀ r, get (lit "required") m = Some r →
            ∃ fields, r = Array (JString <$> fields) ∧ ∀ f, f ∈ fields → is_Some (get f o))
          ∧ (∀ p, get (lit "properties") m = Some p →
            ∃ properties, p = Object properties ∧
              ∀ f s x, (f, s) ∈ properties → get f o = Some x → conforms s x))
      ∧ (∀ l i, v = Array l → get (lit "items") m = Some i → ∀ x, x ∈ l → conforms i x)) →
    conforms schema v.

Lemma if_member_get key body m :
  if_member key body m = match get key m with Some v => body v | None => Ok tt end.
Proof. induction m as [|[k v] m IH]; [done|]. cbn. by case_bool_decide. Qed.

Lemma if_member_Ok key body m : if_member key body m = Ok tt ↔ ∀ v, get key m = Some v → body v = Ok tt.
Proof. rewrite if_member_get. destruct (get key m); naive_solver. Qed.

Lemma and_then_Ok (a b : outcome RuntimeError unit) : (_ ← a; b) = Ok tt ↔ a = Ok tt ∧ b = Ok tt.
Proof. destruct a as [[]|e|]; cbn; naive_solver. Qed.

Lemma each_Ok {A} (body : nat → A → outcome RuntimeError unit) P i l :
  (∀ j x, x ∈ l → body j x = Ok tt ↔ P x) → each body i l = Ok tt ↔ ∀ x, x ∈ l → P x.
Proof.
  revert i. induction l as [|x l IH]; intros i H; cbn; [by split; [set_solver|]|].
  rewrite and_then_Ok, H, IH by set_solver. set_solver.
Qed.

(** Two different literals. *)
Ltac lits_differ :=
  match goal with H : lit _ = lit _ |- _ => exfalso; vm_compute in H; discriminate H end.

Lemma json_type_matches_spec name v : json_type_matches name v = true ↔ has_type name v.
Proof.
  unfold json_type_matches, has_type.
  repeat case_bool_decide; subst name || idtac; (split; [intros Hb; split_and!; intros Hn|intros Hn; destruct_and? Hn]).
  all: try contradiction; try lits_differ; try reflexivity.
  all: try (destruct v as [| |[]| | |]; first [discriminate Hb|by eauto]).
  all: repeat match goal with H : ?x = ?x → _ |- _ => specialize (H eq_refl) end.
  all: destruct v as [| |[]| | |]; try reflexivity; exfalso.
  all: match goal with
       | H : ∃ n, _ = Number n ∧ _ |- _ => destruct H as (? & [=] & Hf); try (subst; by eapply Hf)
       | H : ∃ n, _ = _ |- _ => by destruct H as (? & [=])
       | H : _ = Null |- _ => discriminate H
       end.
Qed.

Lemma schema_type_matches_spec t v : schema_type_matches t v = true ↔ type_admits t v.
Proof.
  unfold type_admits. destruct t as [|b|n|name|names|m]; cbn [schema_type_matches];
    try (split; [by intros _; split; intros ? [=]|done]).
  - rewrite json_type_matches_spec. split; [intros H; split; [by intros ? [= <-]|intros ? [=]]|naive_solver].
  - rewrite existsb_exists. split.
    + intros (name & Hin & H). split; [intros ? [=]|intros ? [= <-]]. exists name.
      apply list_elem_of_In, list_elem_of_omap in Hin as (w & Hw & Hn). rewrite <- json_type_matches_spec. split; [|done].
      destruct w; simplify_eq/=. done.
    + intros [_ H]. destruct (H _ eq_refl) as (name & Hin & Ht). exists name. split; [|by apply json_type_matches_spec].
      apply list_elem_of_In, list_elem_of_omap. by exists (JString name).
Qed.

Lemma strings_back l : forallb is_string l = true → l = JString <$> omap as_str l.
Proof. induction l as [|[] l IH]; try done. cbn. intros H. by rewrite <- IH. Qed.

Lemma omap_strings (fields : list str) : omap as_str (JString <$> fields) = fields.
Proof. induction fields as [|f fields IH]; [done|]. cbn. by rewrite IH. Qed.

Section schema.
Context (float_text : N → str).

Lemma check_required_spec tool_name path m o r :
  check_required float_text tool_name path m o r = Ok tt
  ↔ ∃ fields, r = Array (JString <$> fields) ∧ ∀ f, f ∈ fields → is_Some (get f o).
Proof.
  unfold check_required. destruct r as [| | | |l|]; cbn [as_array]; try (split; [done|by intros (? & [=] & _)]).
  transitivity (forallb is_string l = true ∧ ∀ f, f ∈ omap as_str l → is_Some (get f o)).
  - destruct (forallb is_string l); [|naive_solver]. rewrite (each_Ok _ (λ f, is_Some (get f o))); [naive_solver|].
    intros _ f _. unfold contains_key. destruct (get f o); [by split; [eexists|]|by split; [|intros []]].
  - split.
    + intros [Hs H]. exists (omap as_str l). split; [by f_equal; apply strings_back|done].
    + intros (fields & [= ->] & H). rewrite omap_strings. split; [|done]. apply forallb_forall.
      intros v Hin%list_elem_of_In. by apply list_elem_of_fmap in Hin as (f & -> & _).
Qed.

Lemma check_enum_spec tool_name path v e : value_wf v → value_wf e →
  check_enum tool_name path v e = Ok tt ↔ ∃ allowed w, e = Array allowed ∧ w ∈ allowed ∧ json_same w v.
Proof.
  intros Hv He. unfold check_enum. destruct e as [| | | |l|]; cbn [as_array]; try (split; [done|by intros (? & ? & [=] & _)]).
  apply value_wf_array in He. rewrite Forall_forall in He.
  transitivity (existsb (λ allowed, value_eqb allowed v) l = true); [by destruct (existsb _ _)|].
  rewrite existsb_exists. split.
  - intros (w & Hin%list_elem_of_In & Hw). exists l, w. split_and!; [done..|]. apply value_eqb_same; auto.
  - intros (? & w & [= <-] & Hin & Hw). exists w. split; [by apply list_elem_of_In|]. apply value_eqb_same; auto.
Qed.

(** The step for one schema object, given the claim for the schemas it leads to. *)
Lemma validate_object_spec tool_name path v m : value_wf (Object m) → value_wf v →
  (∀ p f s, get (lit "properties") m = Some (Object p) → (f, s) ∈ p → ∀ path x, value_wf x →
     validate_json_schema_value float_text tool_name path x s = Ok tt ↔ conforms s x) →
  (∀ s, get (lit "items") m = Some s → ∀ path x, value_wf x →
     validate_json_schema_value float_text tool_name path x s = Ok tt ↔ conforms s x) →
  validate_json_schema_value float_text tool_name path v (Object m) = Ok tt ↔ conforms (Object m) v.
Proof.
  intros [Hn Hs]%value_wf_object Hv Hprops Hitems. rewrite Forall_forall in Hs.
  transitivity (
    (∀ t, get (lit "type") m = Some t → type_admits t v)
    ∧ (∀ e, get (lit "enum") m = Some e → ∃ allowed w, e = Array allowed ∧ w ∈ allowed ∧ json_same w v)
    ∧ (∀ o, v = Object o →
        (∀ r, get (lit "required") m = Some r →
          ∃ fields, r = Array (JString <$> fields) ∧ ∀ f, f ∈ fields → is_Some (get f o))
        ∧ (∀ p, get (lit "properties") m = Some p →
          ∃ properties, p = Object properties ∧
            ∀ f s x, (f, s) ∈ properties → get f o = Some x → conforms s x))
    ∧ (∀ l i, v = Array l → get (lit "items") m = Some i → ∀ x, x ∈ l → conforms i x)).
  2: { split; [intros H; constructor; by intros ? [= <-]|by inversion 1; eauto]. }
  cbn [validate_json_schema_value]. rewrite !and_then_Ok, !if_member_Ok. f_equiv; [|f_equiv; [|f_equiv]].
  - apply forall_proper; intros t. apply forall_proper; intros _. rewrite <- schema_type_matches_spec.
    by destruct (schema_type_matches t v).
  - apply forall_proper; intros e. split; intros H Hk; specialize (H Hk); revert H;
      apply check_enum_spec; done || by apply get_Some_in in Hk; apply Hs in Hk.
  - destruct v as [| | | | |o]; try (split; [by intros _ ? [=]|done]).
    apply value_wf_object in Hv as [_ Hv]. rewrite Forall_forall in Hv.
    rewrite and_then_Ok, !if_member_Ok. transitivity (
      (∀ r, get (lit "required") m = Some r →
          ∃ fields, r = Array (JString <$> fields) ∧ ∀ f, f ∈ fields → is_Some (get f o))
      ∧ (∀ p, get (lit "properties") m = Some p →
          ∃ properties, p = Object properties ∧
            ∀ f s x, (f, s) ∈ properties → get f o = Some x → conforms s x)).
    2: { split; [by intros H ? [= <-]|by intros H; apply H]. }
    f_equiv; apply forall_proper; intros p.
    + apply forall_proper; intros _. apply check_required_spec.
    + destruct p as [| | | | |ps]; try (split; intros H Hk; specialize (H Hk); [done|by destruct H as (? & [=] & _)]).
      split; intros H Hk; specialize (H Hk).
      * exists ps. split; [done|]. intros f s x Hin Hx.
        rewrite (each_Ok _ (λ '(f, s), ∀ x, get f o = Some x → conforms s x)) in H; [by apply (H _ Hin)|].
        intros j [f' s'] Hin'. destruct (get f' o) as [y|] eqn:Hy; [|by split; [intros _ ? [=]|]].
        rewrite (Hprops _ _ _ Hk Hin') by (by apply get_Some_in in Hy; apply Hv in Hy). naive_solver.
      * destruct H as (? & [= <-] & H).
        rewrite (each_Ok _ (λ '(f, s), ∀ x, get f o = Some x → conforms s x)); [by intros [f s] Hin; eauto|].
        intros j [f' s'] Hin'. destruct (get f' o) as [y|] eqn:Hy; [|by split; [intros _ ? [=]|]].
        rewrite (Hprops _ _ _ Hk Hin') by (by apply get_Some_in in Hy; apply Hv in Hy). naive_solver.
  - destruct v as [| | | |l|]; try (split; [intros _ ? ? [=]|intros _; reflexivity]).
    apply value_wf_array in Hv. rewrite Forall_forall in Hv. rewrite if_member_Ok.
    transitivity (∀ i, get (lit "items") m = Some i → ∀ x, x ∈ l → conforms i x);
      [|split; [by intros H ? i [= <-]; apply H|intros H i; by apply H]].
    apply forall_proper; intros i. split; intros H Hk; specialize (H Hk); revert H;
      apply each_Ok; intros j x Hin; apply (Hitems _ Hk); by apply Hv.
Qed.

Lemma validate_value_spec tool_name path v schema : value_wf schema → value_wf v →
  validate_json_schema_value float_text tool_name path v schema = Ok tt ↔ conforms schema v.
Proof.
  set (P s := ∀ path v, value_wf s → value_wf v →
    validate_json_schema_value float_text tool_name path v s = Ok tt ↔ conforms s v).
  cut (P schema ∧ ∀ ps k s, schema = Object ps → (k, s) ∈ ps → P s); [intros [H _]; apply H|].
  induction schema as [| | | |l _|m IH] using value_nested_ind;
    try (split; [split; [intros _; constructor; intros ? [=]|done]|intros ? ? ? [=]]).
  rewrite Forall_forall in IH. split; [|intros ? k s [= <-] Hin; by apply (IH _ Hin)].
  intros p x Hs Hx. pose proof Hs as [_ Hm]%value_wf_object. rewrite Forall_forall in Hm.
  apply validate_object_spec; [done..| |].
  - intros ps f s Hk%get_Some_in Hin q y Hy. destruct (IH _ Hk) as [_ H]. apply (H ps f s); [done..| |done].
    specialize (Hm _ Hk). apply value_wf_object in Hm as [_ Hp]. rewrite Forall_forall in Hp. by apply (Hp _ Hin).
  - intros s Hk%get_Some_in q y Hy. apply (IH _ Hk); [by apply (Hm _ Hk)|done].
Qed.
End schema.

(** ** Calls against the request *)

(** The tool declared first under a name. *)
Definition first_declared (name : str) (tools : list ToolDefinition) (tool : ToolDefinition) : Prop :=
  ∃ before after, tools = before ++ tool :: after ∧ fd_name (td_function tool) = name
    ∧ Forall (λ t, fd_name (td_function t) ≠ name) before.

Definition allowed_call (request : ChatCompletionRequest) (call : ToolCall) : Prop :=
  ∃ tool m, first_declared (tcf_name (tc_function call)) (ch_tools request) tool
  ∧ (∀ required, ch_tool_choice request = Some (ChoiceFunction required) → tcf_name (tc_function call) = required)
  ∧ tcf_arguments (tc_function call) = Object m
  ∧ conforms (fd_parameters (td_function tool)) (Object m).

Definition allowed_calls (request : ChatCompletionRequest) (calls : list ToolCall) : Prop :=
  calls = [] ∨ ch_tool_choice request ≠ Some ChoiceNone ∧ ∀ call, call ∈ calls → allowed_call request call.

(** The keys of the objects in the calls and in the schemas are distinct, as in
    any parsed value. *)
Definition calls_wf (calls : list ToolCall) : Prop := Forall (λ c, value_wf (tcf_arguments (tc_function c))) calls.
Definition tools_wf (tools : list ToolDefinition) : Prop := Forall (λ t, value_wf (fd_parameters (td_function t))) tools.

Lemma declared_tool_spec name tools tool : declared_tool name tools = Some tool ↔ first_declared name tools tool.
Proof.
  unfold declared_tool, first_declared. induction tools as [|t tools IH]; cbn [List.find].
  - split; [done|]. by intros ([] & after & [=] & _).
  - case_bool_decide as Ht; [split; [intros [= ->]; by exists [], tools|]|rewrite IH; split].
    + intros (before & after & Heq & Hn & Hb). destruct before; simplify_eq/=; [done|]. by apply Forall_cons in Hb as [? _].
    + intros (before & after & -> & Hn & Hb). exists (t :: before), after. split_and!; [done..|by constructor].
    + intros (before & after & Heq & Hn & Hb). destruct before as [|t' before]; simplify_eq/=.
      exists before, after. by apply Forall_cons in Hb as [_ ?].
Qed.

Lemma first_declared_in name tools tool : first_declared name tools tool → tool ∈ tools.
Proof. intros (before & after & -> & _). set_solver. Qed.

Lemma first_declared_unique name tools a b : first_declared name tools a → first_declared name tools b → a = b.
Proof. rewrite <- !declared_tool_spec. congruence. Qed.

Section request.
Context (float_text : N → str).

Lemma arguments_against_schema_spec call schema : value_wf schema → value_wf (tcf_arguments (tc_function call)) →
  validate_tool_call_arguments_against_schema float_text call schema = Ok tt
  ↔ ∃ m, tcf_arguments (tc_function call) = Object m ∧ conforms schema (Object m).
Proof.
  intros Hs Hv. unfold validate_tool_call_arguments_against_schema.
  destruct (tcf_arguments (tc_function call)) as [| | | | |m] eqn:E; cbn [is_object];
    try (split; [done|by intros (? & [=] & _)]).
  rewrite validate_value_spec by done. naive_solver.
Qed.

Lemma generated_call_spec request call : tools_wf (ch_tools request) → value_wf (tcf_arguments (tc_function call)) →
  validate_generated_call float_text request call = Ok tt ↔ allowed_call request call.
Proof.
  intros Ht Hc. unfold validate_generated_call, allowed_call. cbv zeta.
  destruct (declared_tool _ _) as [tool|] eqn:Hd.
  - apply declared_tool_spec in Hd. pose proof (proj1 (Forall_forall _ _) Ht _ (first_declared_in _ _ _ Hd)) as Hs.
    rewrite and_then_Ok, arguments_against_schema_spec by done.
    transitivity ((∀ required, ch_tool_choice request = Some (ChoiceFunction required) → tcf_name (tc_function call) = required)
      ∧ ∃ m, tcf_arguments (tc_function call) = Object m ∧ conforms (fd_parameters (td_function tool)) (Object m)).
    { apply and_iff_compat_r. destruct (ch_tool_choice request) as [[| | |required]|]; try (split; [by intros _ ? [=]|done]).
      case_bool_decide; [by split; [intros _ ? [= <-]|]|]. split; [done|]. intros H'. by specialize (H' _ eq_refl). }
    split; [intros (Hr & m & Hm & Hconf); by exists tool, m|]. intros (tool' & m & Hd' & Hr & Hm & Hconf).
    rewrite (first_declared_unique _ _ _ _ Hd Hd'). eauto.
  - split; [done|]. intros (tool & m & Hd' & _). apply declared_tool_spec in Hd'. congruence.
Qed.

(** C16: The generated calls that pass are exactly the allowed ones: to declared
    tools, with a tool choice that permits them, and with arguments that conform
    to the schema of the tool. *)
Theorem accepted_calls_conform parsed request : tools_wf (ch_tools request) → calls_wf (tool_calls parsed) →
  validate_tool_calls_against_request float_text parsed request = Ok tt ↔ allowed_calls request (tool_calls parsed).
Proof.
  intros Ht Hc. unfold validate_tool_calls_against_request, allowed_calls.
  destruct (tool_calls parsed) as [|c cs]; [by split; [left|]|].
  pose proof (proj1 (Forall_forall _ _) Hc) as Hin.
  pose proof (each_Ok (λ _ call, validate_generated_call float_text request call) (allowed_call request) 0 (c :: cs)
    (λ _ call H, generated_call_spec request call Ht (Hin call H))) as Heach.
  transitivity (ch_tool_choice request ≠ Some ChoiceNone ∧ ∀ call, call ∈ c :: cs → allowed_call request call);
    [|split; [by right|by intros [|]]].
  destruct (ch_tool_choice request) as [[| | |name]|]; rewrite ?Heach; split; try done; try (by intros [? ?]);
    intros H; by split.
Qed.

(** ** Refusals *)

(** Accepted, or refused with a message about the generated call. *)
Definition blames_call (r : outcome RuntimeError unit) : Prop :=
  r = Ok tt ∨ ∃ rest, r = Err (ToolCallValidation (lit "generated tool call " ++ rest)).

Lemma blames_refuse rest : blames_call (refuse (lit "generated tool call " ++ rest)).
Proof. right. by exists rest. Qed.

Lemma blames_then a b : blames_call a → (a = Ok tt → blames_call b) → blames_call (_ ← a; b).
Proof. intros [->|[rest ->]] Hb; [by apply Hb|right; by exists rest]. Qed.

Lemma blames_member key body m : (∀ v, get key m = Some v → blames_call (body v)) → blames_call (if_member key body m).
Proof. intros H. rewrite if_member_get. destruct (get key m); [by apply H|by left]. Qed.

Lemma blames_each {A} (body : nat → A → outcome RuntimeError unit) i l :
  (∀ j x, x ∈ l → blames_call (body j x)) → blames_call (each body i l).
Proof.
  revert i. induction l as [|x l IH]; intros i H; cbn; [by left|].
  apply blames_then; [apply H; by left|intros _; apply IH; intros j y Hy; apply H; by right].
Qed.

Lemma schema_blames_call max_enum room tool_name path v schema :
  schema_ok max_enum room schema → blames_call (validate_json_schema_value float_text tool_name path v schema).
Proof.
  revert path v schema. induction room as [room IH] using lt_wf_ind. intros path v schema Hok.
  destruct (schema_ok_object _ _ _ Hok) as [m Hm]. destruct schema; simplify_eq/=.
  apply schema_ok_unfold in Hok as ((_ & Hr & He) & Hp & Hi).
  assert (∀ w path v, schema_below max_enum room w → blames_call (validate_json_schema_value float_text tool_name path v w)) as Hb.
  { intros w p x Hw. unfold schema_below in Hw. destruct room as [|room]; [done|]. by apply (IH room); [lia|]. }
  apply blames_then; [|intros _; apply blames_then; [|intros _; apply blames_then; [|intros _]]].
  - apply blames_member. intros t _. destruct (schema_type_matches t v); [by left|]. apply blames_refuse.
  - apply blames_member. intros e (l & -> & _)%He. unfold check_enum. cbn [as_array].
    destruct (existsb _ l); [by left|]. apply blames_refuse.
  - destruct v as [| | | | |o]; try by left. apply blames_then; [|intros _]; apply blames_member.
    + intros r (l & -> & Hl)%Hr. unfold check_required. cbn [as_array].
      rewrite (proj2 (forallb_Forall _ _)) by (eapply Forall_impl; [exact Hl|by intros ? ->]).
      apply blames_each. intros _ f _. destruct (contains_key f o); [by left|]. apply blames_refuse.
    + intros p (ps & -> & Hps)%Hp. rewrite Forall_forall in Hps. apply blames_each. intros _ [f s] Hin.
      destruct (get f o); [|by left]. apply Hb. by apply (Hps _ Hin).
  - destruct v as [| | | |l|]; try by left. apply blames_member. intros i Hk%Hi. apply blames_each. intros j x _. by apply Hb.
Qed.

Lemma validated_schemas request limits : (tool_schema_depth limits < u64_max)%N →
  validate_chat_request float_text request limits = Ok tt →
  Forall (λ t, ∃ room, schema_ok (tool_schema_enum_values limits) room (fd_parameters (td_function t))) (ch_tools request).
Proof.
  intros Hl. unfold validate_chat_request. rewrite !then_Ok. intros H.
  assert (validate_tools float_text (ch_tools request) limits = Ok tt) as Ht by tauto. clear H.
  unfold validate_tools in Ht. rewrite check_each_Ok in Ht. apply Forall_lookup. intros j t Hj. specialize (Ht _ _ Hj).
  rewrite !then_Ok in Ht. destruct Ht as (_ & _ & _ & Ht & _). unfold validate_tool_schema_shape in Ht.
  destruct (fd_parameters (td_function t)) as [| | | | |m]; cbn [as_object] in Ht; try done.
  apply schema_object_Ok in Ht; [by eexists|done|lia|lia].
Qed.

(** C19: With a request that passed validation, a generated call is refused only
    for what it does itself: the schema of its tool is never found malformed
    after the text was generated, and the check does not panic. *)
Theorem refusals_blame_call parsed request limits : (tool_schema_depth limits < u64_max)%N →
  validate_chat_request float_text request limits = Ok tt →
  validate_tool_calls_against_request float_text parsed request
    = Err (ToolCallValidation (lit "tool_choice none does not allow generated tool calls"))
  ∨ blames_call (validate_tool_calls_against_request float_text parsed request).
Proof.
  intros Hl Hv. pose proof (validated_schemas _ _ Hl Hv) as Hs. rewrite Forall_forall in Hs.
  unfold validate_tool_calls_against_request. destruct (tool_calls parsed) as [|c cs]; [by right; left|].
  assert (blames_call (each (λ _ call, validate_generated_call float_text request call) 0 (c :: cs))) as H;
    [|by destruct (ch_tool_choice request) as [[]|]; (by left) || (right; apply H)].
  apply blames_each. intros _ call _. unfold validate_generated_call. cbv zeta.
  destruct (declared_tool _ _) as [tool|] eqn:Hd; [|apply blames_refuse].
  apply declared_tool_spec, first_declared_in in Hd. destruct (Hs _ Hd) as [room Hok]. apply blames_then.
  - destruct (ch_tool_choice request) as [[| | |required]|]; try by left. case_bool_decide; [by left|apply blames_refuse].
  - intros _. unfold validate_tool_call_arguments_against_schema. destruct (is_object _); [|apply blames_refuse].
    by eapply schema_blames_call.
Qed.
End request.

(** ** Witnesses *)
Definition read_schema : value :=
  Object [(lit "type", JString (lit "object"));
          (lit "properties", Object [(lit "path", Object [(lit "type", JString (lit "string"))]);
                                     (lit "mode", Object [(lit "enum", Array [JString (lit "text"); JString (lit "hex")])])]);
          (lit "required", Array [JString (lit "path")])].
Definition read_tool : ToolDefinition := MkToolDefinition Function (MkFunctionDefinition (lit "read") None read_schema).
Definition read_call (arguments : value) : ToolCall := MkToolCall (lit "call_0") Function (MkToolCallFunction (lit "read") arguments).
Definition read_request : ChatCompletionRequest :=
  MkChatRequest (lit "m") [MkMessage User (Some (lit "hi")) None None []] [read_tool] (Some Auto) None None false false
    None None None None None None None None None [].
Definition read_path : value := Object [(lit "mode", JString (lit "hex")); (lit "path", JString (lit "Cargo.toml"))].

Lemma accepted_calls_conform_witness : allowed_calls read_request [read_call read_path].
Proof.
  assert (tools_wf (ch_tools read_request)) as Ht.
  { repeat constructor; try (apply (bool_decide_unpack _); vm_compute; exact I). }
  assert (calls_wf [read_call read_path]) as Hc.
  { repeat constructor; try (apply (bool_decide_unpack _); vm_compute; exact I). }
  apply (accepted_calls_conform (λ _, []) (MkParsed None [] [read_call read_path]) read_request Ht Hc).
  vm_compute. reflexivity.
Defined.

(** The missing argument is what the refusal names. *)
Lemma refusals_blame_call_witness :
  let r := validate_tool_calls_against_request (λ _, []) (MkParsed None [] [read_call (Object [])]) read_request in
  r ≠ Ok tt ∧ (r = Err (ToolCallValidation (lit "tool_choice none does not allow generated tool calls")) ∨ blames_call r).
Proof.
  split; [vm_compute; discriminate|].
  apply (refusals_blame_call (λ _, []) (MkParsed None [] [read_call (Object [])]) read_request default_limits);
    vm_compute; reflexivity.
Defined.
