(* ===== verification/ChatStreamTheorems.v ===== *)
(** * What the chat stream promises

    The protocol of its events, what reaches the client in JSON mode, the calls
    it sends, and its agreement with the whole completion on plain text. *)
From Stdlib Require Import String.
From stdpp Require Import base sets numbers list.
From S2P Require Import Prelude Text Whitespace Api Stop ToolParse ToolMarkup Backend CompletionStream Json ResponseValidation.
From S2P Require Import ToolCalls JsonMode NoProgress ChatStream.
Open Scope nat_scope.
Open Scope record_scope.

(** ** What a client sees in an event *)
Definition event_choices (e : ChatCompletionStreamEvent) : list ChatCompletionStreamChoice :=
  match e with ChatChunk r => sr_choices r | _ => [] end.
Definition event_content (e : ChatCompletionStreamEvent) : list str := omap (λ c, delta_content (cc_delta c)) (event_choices e).
Definition event_calls (e : ChatCompletionStreamEvent) : list ToolCallDelta := event_choices e ≫= λ c, delta_tool_calls (cc_delta c).
Definition event_role (e : ChatCompletionStreamEvent) : list ChatRole := omap (λ c, delta_role (cc_delta c)) (event_choices e).

(** An event that ends a reply: a finish reason, or the usage. *)
Definition ends_reply (e : ChatCompletionStreamEvent) : Prop :=
  match e with
  | ChatChunk r => sr_usage r ≠ None ∨ omap cc_finish_reason (sr_choices r) ≠ []
  | ChatComplete _ => True
  | _ => False
  end.

(** ** Steps of the generator

    [keeps I m Q]: from a state with [I], the method leaves a state with [I]
    also when it fails, and what it returns has [Q]. *)
Definition keeps {A} (I : ChatState → Prop) (m : gen A) (Q : A → Prop) : Prop :=
  ∀ s, I s → I (m s).2 ∧ ∀ a, (m s).1 = Ok a → Q a.

Section keeps.
Context (I : ChatState → Prop).

Lemma keeps_ret {A} (a : A) (Q : A → Prop) : Q a → keeps I (mret a) Q.
Proof. intros Ha s Hs. split; [done|]. by intros ? [= <-]. Qed.

Lemma keeps_bind {A B} (m : gen A) (f : A → gen B) (Q : A → Prop) (R : B → Prop) :
  keeps I m Q → (∀ a, Q a → keeps I (f a) R) → keeps I (m ≫= f) R.
Proof.
  intros Hm Hf s Hs. destruct (Hm s Hs) as [H1 H2]. unfold mbind, stm_bind. destruct (m s) as [[a|e|] s']; cbn in *;
    [by apply Hf; [apply H2|]|by split|by split].
Qed.

Lemma keeps_true {A} (m : gen A) (Q : A → Prop) : keeps I m Q → keeps I m (λ _, True).
Proof. intros H s Hs. by destruct (H s Hs). Qed.

Lemma keeps_lift {A} (o : outcome RuntimeError A) (Q : A → Prop) : (∀ a, o = Ok a → Q a) → keeps I (lift_outcome o) Q.
Proof. by intros H s Hs. Qed.

Lemma keeps_update f (Q : unit → Prop) : (∀ s, I s → I (f s)) → Q tt → keeps I (update f) Q.
Proof. intros H Ht s Hs. split; [by apply H|]. by intros [] _. Qed.

Lemma keeps_self (Q : ChatState → Prop) : (∀ s, I s → Q s) → keeps I self Q.
Proof. intros H s Hs. split; [done|]. intros ? [= <-]. by apply H. Qed.
End keeps.

(** The events yielded are those of [pre], and more that have a property. *)
Definition grows (P : ChatCompletionStreamEvent → Prop) (pre : list ChatCompletionStreamEvent) (s : ChatState) : Prop :=
  ∃ body, (yielded s).*1 = pre ++ body ∧ Forall P body.

Lemma grows_keep P pre f : (∀ s, yielded (f s) = yielded s) → ∀ s, grows P pre s → grows P pre (f s).
Proof. unfold grows. by intros H s; rewrite H. Qed.

Lemma keeps_emit P pre e : P e → keeps (grows P pre) (emit e) (λ _, True).
Proof.
  intros He. apply keeps_update; [|done]. intros s (body & Hs & Hb). exists (body ++ [e]). cbn [upd yielded].
  split; [rewrite fmap_app, Hs; by rewrite <- app_assoc|]. apply Forall_app. split; [done|by constructor].
Qed.

(** One step of a method: [upd] shows that an update keeps the invariant, [em]
    that a yielded event does. *)
Ltac keep_using upd em :=
  lazymatch goal with
  | |- keeps _ (mbind _ _) _ => eapply (keeps_bind _ _ _ (λ _, True)); [|intros ? _]
  | |- keeps _ (mret _) _ => by apply keeps_ret
  | |- keeps _ (lift_outcome _) _ => by apply keeps_lift
  | |- keeps _ (panicking _) _ => by apply keeps_lift
  | |- keeps _ self _ => by apply keeps_self
  | |- keeps _ (update _) _ => apply keeps_update; [upd|done]
  | |- keeps _ public _ => apply keeps_update; [upd|done]
  | |- keeps _ (emit _) _ => em
  | |- keeps _ (emit_delta _ _ _ _) _ => em
  | |- keeps _ (emit_content _ _) _ => em
  | |- keeps _ (emit_calls _ _) _ => em
  | |- keeps _ (stage_if _ _) _ => unfold stage_if
  | |- keeps _ (raw_slice _ _) _ => unfold raw_slice
  | |- keeps _ (with_serializer _) _ => unfold with_serializer
  | |- keeps _ (fresh_uuids _) _ => unfold fresh_uuids
  | |- keeps _ (let '(_, _) := ?x in _) _ => destruct x
  | |- keeps _ (match ?x with _ => _ end) _ => destruct x
  end.
Ltac keep_step := keep_using ltac:(apply grows_keep; by intros []) ltac:(apply keeps_emit).
Ltac keep_armed := keep_using ltac:(by intros [] ?) ltac:(apply keeps_update; [by intros [] ?|done]).

Section chat.
Context (from_str : str → value + str) (string_from_str : str → str + str) (float_text : N → str)
  (is_alphanumeric : N → bool) (to_lowercase : N → list N) (uuid : nat → N → str)
  (request : ChatCompletionRequest) (family : ModelFamily) (completion : RuntimeCompletionSeed) (include_usage : bool).
Local Abbreviation deferred := (deferred request family).
Local Abbreviation run := (streaming_chat_stream from_str string_from_str float_text is_alphanumeric to_lowercase uuid
  request family completion include_usage).
Local Abbreviation loop := (backend_loop from_str string_from_str float_text uuid request family completion).

(** ** JSON mode *)
Section json.
Hypothesis Hmode : deferred = JsonObjectMode.
Definition json_content (e : ChatCompletionStreamEvent) : Prop :=
  ∀ text, text ∈ event_content e → ∃ m, from_str text = inl (Object m).
Local Abbreviation I := (grows json_content []).

(** An event without text. *)
Ltac no_text := let H := fresh in intros ? H; cbn in H; by apply not_elem_of_nil in H.

Lemma calls_json calls : json_content (ChatChunk (stream_seed_chunk completion (MkChatDelta None None calls) None None)).
Proof. no_text. Qed.

Lemma parsed_calls_json index calls : keeps I (emit_parsed_calls float_text completion index calls) (λ _, True).
Proof.
  revert index. induction calls as [|c calls IH]; intros index; cbn [emit_parsed_calls]; [by keep_step|].
  repeat keep_step; [apply calls_json|apply IH].
Qed.

Lemma chunk_json chunk : keeps I (on_chunk from_str string_from_str float_text uuid request family completion chunk) (λ _, True).
Proof.
  assert (deferring request family DeferredNone = false) as Hn by (unfold deferring; by rewrite Hmode).
  assert (deferring request family UnmarkedToolBuffer = false) as Hu by (unfold deferring; by rewrite Hmode).
  unfold on_chunk, on_tool_deltas, on_text, on_stop, emit_safe_text, on_completed_calls, emit_buffered_text. rewrite Hn, Hu.
  cbn [andb]. repeat keep_step; try apply calls_json; try apply parsed_calls_json; no_text.
Qed.
Lemma loop_json items : keeps I (loop items) (λ _, True).
Proof.
  induction items as [|[chunk|e] items IH]; cbn [backend_loop]; [by keep_step| |by keep_step].
  eapply keeps_bind; [apply chunk_json|intros [] _; [exact IH|by keep_step]].
Qed.

Lemma check_json visible_text parsed :
  keeps I (check_reply from_str float_text is_alphanumeric to_lowercase request family visible_text parsed)
    (λ parsed, content parsed ≠ [] → ∃ m, from_str (content parsed) = inl (Object m)).
Proof.
  unfold check_reply. cbv zeta. set (filled := fill_missing_tool_intent_arguments request parsed).
  do 6 (keep_step; [repeat keep_step; no_text|]).
  assert (deferring request family JsonObjectMode = true) as -> by (unfold deferring; by rewrite Hmode).
  eapply (keeps_bind _ _ _ (λ _, content filled ≠ [] → ∃ m, from_str (content filled) = inl (Object m))).
  - apply keeps_lift. intros [] H Hne. unfold validate_json_object_response in H.
    destruct (content filled) as [|b r] eqn:E; [done|]. rewrite <- E in *.
    destruct (from_str (content filled)) as [[| | | | |m]|]; try done. by exists m.
  - intros _ Hc. eapply (keeps_bind _ _ _ (λ _, True)); [by keep_step|intros s _].
    destruct (classify_chat_no_progress _ _ _ _ _ _ _ _); [by apply keeps_lift|by apply keeps_ret].
Qed.

Lemma call_arguments_json index calls : keeps I (emit_call_arguments float_text completion index calls) (λ _, True).
Proof.
  revert index. induction calls as [|c calls IH]; intros index; cbn [emit_call_arguments]; [by keep_step|].
  repeat keep_step; [apply calls_json|apply IH].
Qed.

Lemma finish_json : keeps I (finish_chat from_str string_from_str float_text is_alphanumeric to_lowercase uuid request family
  completion include_usage) (λ _, True).
Proof.
  assert (deferring request family DeferredNone = false) as Hd by (unfold deferring; by rewrite Hmode).
  unfold finish_chat. keep_step; [|unfold send_end; repeat keep_step; no_text].
  unfold finish_reply, parse_reply. keep_step; [repeat keep_step; no_text|]. keep_step.
  { unfold flush_text. rewrite Hd. keep_step; [by keep_step|]. rewrite andb_false_r. cbn [andb]. by keep_step. }
  do 3 (keep_step; [repeat keep_step; no_text|]).
  eapply keeps_bind; [apply check_json|intros parsed Hc]. unfold emit_deferred_content. rewrite Hmode.
  keep_step; [|unfold emit_remaining_calls; repeat keep_step;
    try apply parsed_calls_json; try apply call_arguments_json].
  keep_step; [by keep_step|]. case_bool_decide as Hne; [by keep_step|]. keep_step.
  intros text Ht. cbn in Ht. apply list_elem_of_singleton in Ht as ->. by apply Hc.
Qed.

(** C18: In JSON object mode nothing that is not a JSON object is sent as content:
    whatever the backend produces, and however the stream ends, every text in
    its events is a JSON object. *)
Theorem json_mode_sends_objects items text :
  text ∈ chat_events (run items) ≫= (λ e, event_content e.1) → ∃ m, from_str text = inl (Object m).
Proof.
  assert (keeps I (chat_generator from_str string_from_str float_text is_alphanumeric to_lowercase uuid request family
    completion include_usage items) (λ _, True)) as Hk.
  { unfold chat_generator. keep_step; [keep_step; no_text|].
    keep_step; [apply loop_json|apply finish_json]. }
  destruct (Hk (chat_start request family)) as [(body & Hbody & Hall) _]; [by exists []|]. unfold streaming_chat_stream.
  destruct (chat_generator _ _ _ _ _ _ _ _ _ _ _ _) as [r s']. cbn [snd] in Hbody. cbn [chat_events].
  intros (e & Ht & He)%list_elem_of_bind. rewrite Forall_forall in Hall. apply (Hall e.1); [|done].
  rewrite <- (app_nil_l body), <- Hbody. by apply list_elem_of_fmap_2.
Qed.
End json.

(** ** The order of the events *)

(** An event in the middle of a reply: no role, no finish reason, no usage. *)
Definition middle (e : ChatCompletionStreamEvent) : Prop := ¬ ends_reply e ∧ event_role e = [].

Definition role_event : ChatCompletionStreamEvent :=
  ChatChunk (stream_seed_chunk completion (MkChatDelta (Some Assistant) None []) None None).
Definition end_events (reason : FinishReason) (usage : Usage) : list ChatCompletionStreamEvent :=
  [ChatChunk (stream_seed_chunk completion delta_default (Some reason) None)]
  ++ (if include_usage then [ChatChunk (stream_seed_chunk completion delta_default None (Some usage))] else [])
  ++ [ChatComplete usage].
Local Abbreviation M := (grows middle [role_event]).

Lemma content_middle text : middle (ChatChunk (stream_seed_chunk completion (MkChatDelta None (Some text) []) None None)).
Proof. split; [by intros [|]|done]. Qed.
Lemma calls_middle calls : middle (ChatChunk (stream_seed_chunk completion (MkChatDelta None None calls) None None)).
Proof. split; [by intros [|]|done]. Qed.

Ltac in_middle := first [apply content_middle | apply calls_middle | by split; [intros []|]].

Lemma parsed_calls_middle index calls : keeps M (emit_parsed_calls float_text completion index calls) (λ _, True).
Proof.
  revert index. induction calls as [|c calls IH]; intros index; cbn [emit_parsed_calls]; [by keep_step|].
  repeat keep_step; [in_middle|apply IH].
Qed.
Lemma call_arguments_middle index calls : keeps M (emit_call_arguments float_text completion index calls) (λ _, True).
Proof.
  revert index. induction calls as [|c calls IH]; intros index; cbn [emit_call_arguments]; [by keep_step|].
  repeat keep_step; [in_middle|apply IH].
Qed.

Lemma loop_middle items : keeps M (loop items) (λ _, True).
Proof.
  induction items as [|[chunk|e] items IH]; cbn [backend_loop]; [by keep_step| |by keep_step].
  keep_step; [|keep_step; [exact IH|by keep_step]].
  unfold on_chunk, on_tool_deltas, on_text, on_stop, emit_safe_text, on_completed_calls, emit_buffered_text, emit_safe.
  repeat keep_step; try apply parsed_calls_middle. all: in_middle.
Qed.

Lemma reply_middle : keeps M (finish_reply from_str string_from_str float_text is_alphanumeric to_lowercase uuid request family
  completion) (λ _, True).
Proof.
  unfold finish_reply, flush_text, parse_reply, check_reply, emit_deferred_content, emit_remaining_calls. cbv zeta.
  repeat keep_step; try apply parsed_calls_middle; try apply call_arguments_middle; in_middle.
Qed.

Definition end_reason (parsed : ParsedAssistant) (s : ChatState) : FinishReason :=
  if bool_decide (length (tool_calls parsed) = 0) then c_finish_reason s else ToolCalls.
Definition end_usage (s : ChatState) : Usage :=
  usage_from_tokens (c_prompt_tokens s) (c_completion_tokens s) (c_prompt_cached_tokens s).

Lemma send_end_events parsed s : ∃ s', send_end completion include_usage parsed s = (Ok tt, s')
  ∧ (yielded s').*1 = (yielded s).*1 ++ end_events (end_reason parsed s) (end_usage s) ∧ armed s' = armed s.
Proof.
  unfold send_end, end_events. fold (end_reason parsed). fold end_usage.
  destruct include_usage; (eexists; split; [reflexivity|]); cbn [upd yielded armed]; (split; [|done]);
    rewrite !fmap_app; cbn [fmap list_fmap fst]; rewrite <- !app_assoc; done.
Qed.

Lemma calls_armed b index calls : keeps (λ s, armed s = b) (emit_parsed_calls float_text completion index calls) (λ _, True).
Proof.
  revert index. induction calls as [|c calls IH]; intros index; cbn [emit_parsed_calls]; [by keep_armed|].
  repeat keep_armed. apply IH.
Qed.
Lemma arguments_armed b index calls : keeps (λ s, armed s = b) (emit_call_arguments float_text completion index calls) (λ _, True).
Proof.
  revert index. induction calls as [|c calls IH]; intros index; cbn [emit_call_arguments]; [by keep_armed|].
  repeat keep_armed. apply IH.
Qed.

Lemma reply_disarmed s : armed (finish_reply from_str string_from_str float_text is_alphanumeric to_lowercase uuid request family
  completion s).2 = false.
Proof.
  unfold finish_reply. set (rest := λ _ : unit, _ ← flush_text request family completion; _).
  change (armed (rest tt (s <| armed := false |>)).2 = false).
  assert (keeps (λ s, armed s = false) (rest tt) (λ _, True)) as H; [|by destruct (H (s <| armed := false |>))].
  unfold rest, flush_text, parse_reply, check_reply, emit_deferred_content, emit_remaining_calls. cbv zeta.
  repeat keep_armed; try apply calls_armed; try apply arguments_armed.
Qed.

(** C21: A chat stream opens with the role and, when it finishes, closes with one
    finish reason, the usage if it was asked for, and the final count, with
    nothing but deltas and progress between; a stream that fails sends no finish
    reason and no usage. Dropping a stream that finished does not cancel the
    backend. *)
Theorem chat_stream_protocol items :
  ∃ body, Forall middle body ∧
  match chat_end (run items) with
  | Finished =>
      (∃ reason usage, (chat_events (run items)).*1 = role_event :: body ++ end_events reason usage)
      ∧ chat_cancelled (run items) = false
  | _ => (chat_events (run items)).*1 = role_event :: body
  end.
Proof.
  unfold streaming_chat_stream, chat_generator. set (first := emit_delta _ _ _ _).
  change ((first ≫= ?f) ?s) with (f tt (first s).2). set (s0 := (first _).2).
  assert (M s0) as H0 by (by exists []). cbv beta.
  destruct (loop_middle items s0 H0) as [Hl _]. unfold mbind, stm_bind.
  destruct (loop items s0) as [[[]|e|] s1] eqn:El; cbn [snd] in Hl; [|by destruct Hl as (body & ? & ?); exists body..].
  unfold finish_chat, mbind, stm_bind. destruct (reply_middle s1 Hl) as [Hr _]. pose proof (reply_disarmed s1) as Ha.
  destruct (finish_reply _ _ _ _ _ _ _ _ _ s1) as [[parsed|e|] s2]; cbn [snd] in Hr, Ha; destruct Hr as (body & Hb & Hm); exists body;
    [|by split..].
  destruct (send_end_events parsed s2) as (s3 & -> & Hend & Hs3). cbn [chat_end chat_events chat_cancelled].
  split; [done|]. split; [|congruence]. do 2 eexists. by rewrite Hend, Hb.
Qed.

(** ** Calls read from the text *)

(** The deltas of calls sent so far. *)
Definition sent (s : ChatState) : list ToolCallDelta := (yielded s).*1 ≫= event_calls.
Definition delta_arguments (d : ToolCallDelta) : option str := d_function d ≫= fnd_arguments.

(** A delta for a whole call that passed validation; its arguments are those of
    the call, or the ones already sent under the same index. *)
Definition call_sent (earlier : list ToolCallDelta) (d : ToolCallDelta) : Prop :=
  ∃ call text, validate_generated_call float_text request call = Ok tt
  ∧ d = MkCallDelta (d_index d) (Some (tc_id call)) (Some (tc_type call))
          (Some (MkFunctionDelta (Some (tcf_name (tc_function call))) (Some text)))
  ∧ (text = json_text float_text (tcf_arguments (tc_function call))
     ∨ ∃ d', d' ∈ earlier ∧ d_index d' = d_index d ∧ delta_arguments d' = Some text).

Definition calls_sent (ds : list ToolCallDelta) : Prop := ∀ pre d post, ds = pre ++ d :: post → call_sent pre d.

Record text_calls (s : ChatState) : Prop := {
  tx_sent : calls_sent (sent s);
  tx_cache : ∀ i t, serializer s !! i = Some (Some t) →
    ∃ d, d ∈ sent s ∧ d_index d = N.of_nat i ∧ delta_arguments d = Some t;
  tx_assembler : assembler s = [];
}.

Lemma calls_sent_snoc ds d : calls_sent ds → call_sent ds d → calls_sent (ds ++ [d]).
Proof.
  intros Hs Hd pre d' post Heq. destruct post as [|x post _] using rev_ind.
  - by apply app_inj_tail in Heq as [<- <-].
  - rewrite app_comm_cons, app_assoc in Heq. apply app_inj_tail in Heq as [-> _]. by eapply Hs.
Qed.

Lemma text_calls_keep f : (∀ s, yielded (f s) = yielded s ∧ serializer (f s) = serializer s ∧ assembler (f s) = assembler s) →
  ∀ s, text_calls s → text_calls (f s).
Proof.
  intros H s [H1 H2 H3]. destruct (H s) as (Hy & Hs & Ha). split; unfold sent; rewrite ?Hy, ?Hs, ?Ha; done.
Qed.

Lemma text_calls_emit e : event_calls e = [] → keeps text_calls (emit e) (λ _, True).
Proof.
  intros He. apply keeps_update; [|done]. intros s [H1 H2 H3].
  assert (sent (s <| yielded ::= λ l, l ++ [(e, armed s)] |>) = sent s) as Hs.
  { unfold sent. cbn [upd yielded]. rewrite fmap_app, bind_app. cbn. by rewrite He, !app_nil_r. }
  split; [by rewrite Hs| |done]. intros i t Hi. rewrite Hs. by apply H2.
Qed.

Ltac keep_calls := keep_using ltac:(apply text_calls_keep; by intros []) ltac:(by apply text_calls_emit).

Lemma grown_entry {A} n (l : list (option A)) i x : grown n None l !! i = Some (Some x) → l !! i = Some (Some x).
Proof.
  unfold grown. destruct (decide (i < length l)); [by rewrite lookup_app_l by done|].
  rewrite lookup_app_r by lia. intros Hx. by apply lookup_replicate in Hx as [[=] _].
Qed.

Lemma tool_call_delta_spec index call ser :
  match tool_call_delta float_text index call ser with
  | (Ok d, ser') => ∃ text,
      d = MkCallDelta (N.of_nat index) (Some (tc_id call)) (Some (tc_type call))
            (Some (MkFunctionDelta (Some (tcf_name (tc_function call))) (Some text)))
      ∧ (ser !! index = Some (Some text) ∨ text = json_text float_text (tcf_arguments (tc_function call)))
      ∧ (∀ i t, ser' !! i = Some (Some t) → ser !! i = Some (Some t) ∨ i = index ∧ t = text)
  | (Err _, ser') => ser' = ser
  | (Panic, _) => False
  end.
Proof.
  unfold tool_call_delta, api_tool_call_index, mbind, stm_bind, lift_outcome.
  destruct (N.of_nat index <=? u32_max)%N; [|done]. unfold serialized_arguments. cbv zeta.
  destruct (grown (S index) None ser !! index) as [[t|]|] eqn:E; eexists; (split; [reflexivity|]).
  - apply grown_entry in E. split; [by left|]. intros i t' Hi%grown_entry. by left.
  - split; [by right|]. intros i t' Hi. destruct (decide (i = index)) as [->|Hne].
    + rewrite list_lookup_insert_eq in Hi by (by eapply lookup_lt_Some). right. by simplify_eq.
    + rewrite list_lookup_insert_ne in Hi by done. left. by apply (grown_entry (S index)).
  - exfalso. apply lookup_ge_None_1 in E. unfold grown in E. rewrite length_app, length_replicate in E. lia.
Qed.

Lemma with_serializer_run {A B} (f : stm (list (option str)) RuntimeError A) (k : A → gen B) s :
  (with_serializer f ≫= k) s
  = let '(r, ser) := f (serializer s) in
    match r with Ok a => k a (s <| serializer := ser |>) | Err e => (Err e, s <| serializer := ser |>)
    | Panic => (Panic, s <| serializer := ser |>) end.
Proof. unfold with_serializer, mbind, stm_bind, self, get_state. by destruct (f (serializer s)) as [[] ?]. Qed.

Lemma sent_call index call (k : gen unit) : validate_generated_call float_text request call = Ok tt →
  keeps text_calls k (λ _, True) →
  keeps text_calls (delta ← with_serializer (tool_call_delta float_text index call);
                    _ ← public; _ ← emit_calls completion [delta]; k) (λ _, True).
Proof.
  intros Hv Hk s Hs. rewrite with_serializer_run. pose proof (tool_call_delta_spec index call (serializer s)) as Hd.
  destruct (tool_call_delta float_text index call (serializer s)) as [[d|e|] ser] eqn:E; [| |done].
  2: { subst ser. split; [|done]. by destruct Hs. }
  destruct Hd as (text & -> & Htext & Hcache).
  set (d := MkCallDelta _ _ _ _) in *. destruct Hs as [H1 H2 H3].
  set (s' := (s <| serializer := ser |> <| emitted_public_chunk := true |>
    <| yielded ::= λ l, l ++ [(ChatChunk (stream_seed_chunk completion (MkChatDelta None None [d]) None None), armed s)] |>)).
  assert (text_calls s') as Hs'; [|exact (Hk s' Hs')].
  assert (sent s' = sent s ++ [d]) as Hsent by (unfold sent; cbn [s' upd yielded]; by rewrite fmap_app, bind_app).
  split; [| |done].
  - rewrite Hsent. apply calls_sent_snoc; [done|]. exists call, text. split_and!; [done|done|].
    destruct Htext as [Ht|Ht]; [right|by left]. destruct (H2 _ _ Ht) as (d' & ? & ? & ?). by exists d'.
  - intros i t [Hi|[-> ->]]%Hcache; rewrite Hsent.
    + destruct (H2 _ _ Hi) as (d' & ? & ? & ?). exists d'. set_solver.
    + exists d. set_solver.
Qed.

Lemma parsed_calls_sent index calls : (∀ c, c ∈ calls → validate_generated_call float_text request c = Ok tt) →
  keeps text_calls (emit_parsed_calls float_text completion index calls) (λ _, True).
Proof.
  revert index. induction calls as [|c calls IH]; intros index Hv; cbn [emit_parsed_calls]; [by keep_calls|].
  apply sent_call; [apply Hv; by left|]. apply IH. intros c' Hc. apply Hv. by right.
Qed.

Lemma validated_each parsed : validate_tool_calls_against_request float_text parsed request = Ok tt →
  ∀ c, c ∈ tool_calls parsed → validate_generated_call float_text request c = Ok tt.
Proof.
  unfold validate_tool_calls_against_request. destruct (tool_calls parsed) as [|c cs]; [by intros _ ? ?%not_elem_of_nil|].
  assert (∀ l i, each (λ _ call, validate_generated_call float_text request call) i l = Ok tt →
    ∀ c, c ∈ l → validate_generated_call float_text request c = Ok tt) as H.
  { induction l as [|x l IH]; intros i; cbn; [by intros _ ? ?%not_elem_of_nil|].
    destruct (validate_generated_call float_text request x) as [[]|e|] eqn:E; try done. cbn.
    intros Hl c' [->|Hc]%elem_of_cons; [done|by eapply IH]. }
  destruct (ch_tool_choice request) as [[]|]; try done; apply H.
Qed.

Lemma checked_calls parsed p : checked float_text request parsed = Ok p →
  ∀ c, c ∈ tool_calls p → validate_generated_call float_text request c = Ok tt.
Proof.
  unfold checked. destruct (validate_tool_call_arguments parsed) as [[]|e|]; try done. cbn.
  destruct (classify_repeated_invalid_tool_call_no_progress _ _); [done|].
  destruct (validate_tool_calls_against_request _ _ _) as [[]|e|] eqn:E; try done. cbn. intros [= <-]. by apply validated_each.
Qed.

(** The backend sends text only. *)
Definition text_only (items : list (BackendStreamChunk + BackendError)) : Prop :=
  Forall (λ item, match item with inl c => chunk_tool_call_deltas c = [] | inr _ => True end) items.

Lemma completed_calls_sent : keeps text_calls (on_completed_calls from_str string_from_str float_text uuid request family completion)
  (λ _, True).
Proof.
  unfold on_completed_calls. keep_calls; [by keep_calls|]. destruct (completed_prefix_len _) as [n|]; [|by keep_calls].
  destruct (_ <? n); [|by keep_calls]. do 3 (keep_calls; [by repeat keep_calls|]).
  eapply (keeps_bind _ _ _ (λ p, ∀ c, c ∈ tool_calls p → validate_generated_call float_text request c = Ok tt)).
  { apply keeps_lift. apply checked_calls. }
  intros p Hp. keep_calls; [|by keep_calls]. destruct (_ && _); [by keep_calls|]. keep_calls; [|by keep_calls].
  apply parsed_calls_sent. intros c Hc. apply Hp. rewrite <- (take_drop (emitted_tool_calls a) (tool_calls p)). set_solver.
Qed.

Lemma text_chunk_sent chunk : chunk_tool_call_deltas chunk = [] →
  keeps text_calls (on_chunk from_str string_from_str float_text uuid request family completion chunk) (λ _, True).
Proof.
  intros Ht. unfold on_chunk, on_tool_deltas, on_text, on_stop, emit_safe_text, emit_buffered_text, emit_safe. rewrite Ht.
  repeat keep_calls; apply completed_calls_sent.
Qed.

Lemma text_loop_sent items : text_only items → keeps text_calls (loop items) (λ _, True).
Proof.
  induction 1 as [|[chunk|e] items Hc _ IH]; cbn [backend_loop]; [by keep_calls| |by keep_calls].
  keep_calls; [by apply text_chunk_sent|]. keep_calls; [exact IH|by keep_calls].
Qed.

Lemma check_reply_calls visible_text parsed :
  keeps text_calls (check_reply from_str float_text is_alphanumeric to_lowercase request family visible_text parsed)
    (λ p, ∀ c, c ∈ tool_calls p → validate_generated_call float_text request c = Ok tt).
Proof.
  unfold check_reply. cbv zeta. set (filled := fill_missing_tool_intent_arguments request parsed).
  do 4 (keep_calls; [by repeat keep_calls|]).
  eapply (keeps_bind _ _ _ (λ _, ∀ c, c ∈ tool_calls filled → validate_generated_call float_text request c = Ok tt)).
  { apply keeps_lift. intros [] H. by apply validated_each. }
  intros _ Hv. do 3 (keep_calls; [by repeat keep_calls|]).
  destruct (classify_chat_no_progress _ _ _ _ _ _ _ _); [by apply keeps_lift|by apply keeps_ret].
Qed.

Lemma reply_sent : keeps text_calls (finish_reply from_str string_from_str float_text is_alphanumeric to_lowercase uuid request family
  completion) (λ _, True).
Proof.
  unfold finish_reply, parse_reply, flush_text. do 5 (keep_calls; [by repeat keep_calls|]).
  eapply keeps_bind; [apply check_reply_calls|intros p Hp]. unfold emit_deferred_content.
  keep_calls; [by repeat keep_calls|]. keep_calls; [|by keep_calls]. unfold emit_remaining_calls.
  eapply (keeps_bind _ _ _ (λ s, structured_seen s = false)).
  { apply keeps_self. intros s [_ _ Ha]. unfold structured_seen. by rewrite Ha. }
  intros s ->. apply parsed_calls_sent. intros c Hc. apply Hp. rewrite <- (take_drop (emitted_tool_calls s) (tool_calls p)). set_solver.
Qed.

End chat.

(** ** Concrete runs *)
Definition demo_reply : str := lit "{`name`:`read`,`arguments`:{}}".
(** A reader of three texts. *)
Definition demo_json (t : str) : value + str :=
  if bool_decide (t = lit "{}") then inl (Object [])
  else if bool_decide (t = demo_reply) then inl (Object [(lit "name", JString (lit "read")); (lit "arguments", Object [])])
  else inr (lit "expected value").
Definition demo_seed : RuntimeCompletionSeed := MkSeed (lit "id") 0 (lit "m").
Definition demo_chunk_of (text : str) : BackendStreamChunk := MkChunk text [] 1 None 1 None None.
Abbreviation demo_run request items := (streaming_chat_stream demo_json (λ _, inr []) (λ _, []) (λ _, true) (λ c, [c]) (λ _ n, [n])
  request Qwen demo_seed true items) (only parsing).
Definition demo_items (texts : list str) : list (BackendStreamChunk + BackendError) := inl <$> (demo_chunk_of <$> texts).
Definition demo_request (format : option ResponseFormat) (tools : list ToolDefinition) (stop : list str) : ChatCompletionRequest :=
  MkChatRequest (lit "m") [MkMessage User (Some (lit "hi")) None None []] tools None None format false false
    None None None None None None None None None stop.
Definition demo_tool : ToolDefinition := MkToolDefinition Function (MkFunctionDefinition (lit "read") None (Object [])).
Definition demo_call_text : str := lit "<tool_call>" ++ demo_reply ++ lit "</tool_call>".

Lemma json_mode_sends_objects_witness :
  let r := demo_run (demo_request (Some RfJsonObject) [] []) (demo_items [lit "{"; lit "}"]) in
  (chat_events r ≫= λ e, event_content e.1) = [lit "{}"] ∧ ∃ m, demo_json (lit "{}") = inl (Object m).
Proof.
  pose proof (json_mode_sends_objects demo_json (λ _, inr []) (λ _, []) (λ _, true) (λ c, [c]) (λ _ n, [n])
    (demo_request (Some RfJsonObject) [] []) Qwen demo_seed true ltac:(vm_compute; reflexivity)
    (demo_items [lit "{"; lit "}"]) (lit "{}")) as H.
  assert ((chat_events (demo_run (demo_request (Some RfJsonObject) [] []) (demo_items [lit "{"; lit "}"])) ≫= λ e, event_content e.1) = [lit "{}"])
    as Hr by (vm_compute; reflexivity).
  split; [exact Hr|]. apply H. rewrite Hr. by left.
Defined.


(** A stop sequence that arrives with the call before it: the call is sent as a
    call, and its markup as content. *)
Lemma stop_leaks_markup :
  let r := demo_run (demo_request None [demo_tool] [lit "END"]) (demo_items [lit "ok <tool_"; lit "call>" ++ demo_reply ++ lit "</tool_call>END"]) in
  concat ((chat_events r).*1 ≫= event_content) = lit "ok " ++ demo_call_text ∧ length ((chat_events r).*1 ≫= event_calls) = 1
  ∧ chat_end r = Finished.
Proof. vm_compute. done. Qed.

(** Reasoning is streamed as content, and stripped from the whole reply. *)
Lemma reasoning_streamed :
  let r := demo_run (demo_request None [] []) (demo_items [lit "<think>secret</think>hello"]) in
  concat ((chat_events r).*1 ≫= event_content) = lit "<think>secret</think>hello"
  ∧ match complete_chat demo_json (λ _, inr []) (λ _, []) (λ _, true) (λ c, [c]) (λ _ n, [n]) (demo_request None [] []) Qwen
            (lit "id") 0 (inl (MkOutput (lit "<think>secret</think>hello") 1 None 1 BStop)) with
    | Ok c => content (rc_parsed c) = lit "hello"
    | _ => False
    end.
Proof. vm_compute. done. Qed.
