(* ===== verification/ChatStreamPlain.v ===== *)
(** * Streamed and whole replies agree

    For a reply without tool markup, streamed as it comes: the text sent is the
    text up to the first stop sequence, and the stream ends as the whole
    completion of the same text does. *)
From Stdlib Require Import String.
From stdpp Require Import base sets numbers list.
From S2P Require Import Prelude Text Whitespace Api Stop ToolParse ToolMarkup Backend CompletionStream Json ResponseValidation.
From S2P Require Import ToolCalls JsonMode NoProgress ChatStream ChatStreamTheorems.
Open Scope nat_scope.
Open Scope record_scope.

(** A method that fails ends the sequence it starts. *)
Lemma stm_bind_fails {A B} (m : gen A) (f : A → gen B) s o s' :
  m s = (o, s') → (∀ a, o ≠ Ok a) →
  (m ≫= f) s = (match o with Ok _ => Panic | Err e => Err e | Panic => Panic end, s').
Proof. intros Hm Ho. unfold mbind, stm_bind. rewrite Hm. destruct o as [a| |]; [by destruct (Ho a)|done..]. Qed.

(** The text sent so far. *)
Definition shown (s : ChatState) : str := concat ((yielded s).*1 ≫= event_content).

(** No tag of the policy occurs in a text. *)
Definition no_markup (p : list ToolMarkupMarkers) (text : str) : Prop :=
  (∀ i, ¬ stop_occurs (starts p) text i) ∧ ∀ k, ¬ tag_ends p text k.

Lemma no_markup_scanned p text : earliest_stop_index text (starts p) = None → earliest_stop_index text (end_marker <$> p) = None →
  no_markup p text.
Proof.
  intros H1 H2. split; [by apply earliest_None|]. intros k (m & i & Hm & Ho & _).
  apply (proj1 (earliest_None _ _) H2 i). exists (end_marker m). split; [|done]. apply list_elem_of_fmap. by exists m.
Qed.

Section plain.
Context (from_str : str → value + str) (string_from_str : str → str + str) (float_text : N → str)
  (is_alphanumeric : N → bool) (to_lowercase : N → list N) (uuid : nat → N → str)
  (request : ChatCompletionRequest) (family : ModelFamily) (completion : RuntimeCompletionSeed) (include_usage : bool).
Hypothesis Hmode : deferred request family = DeferredNone.
Hypothesis Hstop : stops_wf (ch_stop request).
Local Abbreviation stop := (ch_stop request).
Local Abbreviation p := (tool_markup_policy family).

(** The state after a text without a stop sequence and without markup. *)
Record plain_text (t : str) (s : ChatState) : Prop := {
  pt_raw : c_raw_text s = t;
  pt_shown : shown s = take (c_emitted_len s) t;
  pt_emitted : c_emitted_len s ≤ withheld_from stop t;
  pt_boundary : is_char_boundary t (c_emitted_len s) = true;
  pt_finish : c_finish_reason s = Length;
  pt_stopped : stopped_by_sequence s = false;
  pt_stop_at : stop_at_len s = None;
  pt_detector : c_stop_detector s = MkDetector (max_stop_sequence_len stop) (length t);
  pt_markup : markup_inv p t (markup s);
  pt_no_stop : ∀ i, ¬ stop_occurs stop t i;
  pt_fresh : assembler s = [] ∧ emitted_tool_calls s = 0 ∧ serializer s = [] ∧ parses s = 0;
}.

(** The state after a stop sequence was found at [i]. *)
Record stopped_text (t : str) (i : nat) (s : ChatState) : Prop := {
  st_raw : c_raw_text s = t;
  st_shown : shown s = take i t;
  st_finish : c_finish_reason s = CompletionStream.Stop;
  st_stopped : stopped_by_sequence s = true;
  st_stop_at : stop_at_len s = Some i;
  st_boundary : is_char_boundary t i = true;
  st_fresh : assembler s = [] ∧ emitted_tool_calls s = 0 ∧ serializer s = [] ∧ parses s = 0;
}.

(** What is counted. *)
Definition tokens_of (s : ChatState) : N * option N * N := (c_prompt_tokens s, c_prompt_cached_tokens s, c_completion_tokens s).

Lemma deferring_none d : deferring request family d = bool_decide (d = DeferredNone).
Proof. unfold deferring. rewrite Hmode. by destruct d. Qed.

Lemma shown_emit s text b : shown (s <| yielded ::= λ l, l ++ [(ChatChunk (stream_seed_chunk completion
  (MkChatDelta None (Some text) []) None None), b)] |>) = shown s ++ text.
Proof. unfold shown. cbn [upd yielded]. rewrite fmap_app, bind_app, concat_app. cbn. by rewrite app_nil_r. Qed.

Lemma no_markup_prefix t r : no_markup p (t ++ r) → no_markup p t.
Proof.
  intros [H1 H2]. split.
  - intros i (u & Hu & Ho). apply (H1 i). exists u. split; [done|]. by apply occurs_app_l.
  - intros k Hk. apply (H2 k). by apply tag_ends_app.
Qed.

Lemma plain_markup t m : no_markup p t → markup_inv p t m → first_start m = None ∧ completed_prefix_len m = None.
Proof.
  intros [H1 H2] [(_ & Hf & Hc) _ _ _]. split; [rewrite Hf; by apply earliest_None|].
  destruct (completed_prefix_len m) as [n|]; [|done]. destruct Hc as [Hc _]. by apply H2 in Hc.
Qed.

(** A slice of the raw text that starts where the sent text ends. *)
Lemma raw_slice_run s i j : i ≤ j → is_char_boundary (c_raw_text s) i = true → is_char_boundary (c_raw_text s) j = true →
  raw_slice i j s = (Ok (take (j - i) (drop i (c_raw_text s))), s).
Proof.
  intros Hij Hi Hj. unfold raw_slice, mbind, stm_bind, self, get_state, panicking, lift_outcome.
  by rewrite str_range_Some.
Qed.

Lemma take_next (t : str) i j : i ≤ j → take i t ++ take (j - i) (drop i t) = take j t.
Proof. intros H. rewrite take_take_drop. f_equal. lia. Qed.

Lemma min_boundary t a b : is_char_boundary t a = true → is_char_boundary t b = true → is_char_boundary t (Nat.min a b) = true.
Proof. by destruct (Nat.min_spec a b) as [[_ ->]|[_ ->]]. Qed.

Lemma emit_safe_text_plain t s : plain_text t s →
  ∃ s', emit_safe_text request family completion s = (Ok tt, s') ∧ plain_text t s' ∧ tokens_of s' = tokens_of s.
Proof.
  intros Hp. pose proof Hp as [Hr Hsh He Hb Hf Hst Hsa Hd Hm Hno Hfresh]. unfold emit_safe_text.
  change ((self ≫= ?f) s) with (f s s). cbv beta. rewrite deferring_none, bool_decide_eq_true_2 by done. cbn [andb].
  destruct (Nat.ltb_spec (c_emitted_len s) (safe_len request s)) as [Hlt|]; [|by exists s].
  pose proof (safe_emit_spec _ _ _ (adapter_policy_wf family) Hm) as (Hml & Hmb & _).
  assert (is_char_boundary t (safe_len request s) = true) as Hsb.
  { unfold safe_len. rewrite Hr. apply min_boundary; [apply safe_len_boundary|done]. }
  unfold emit_safe. change ((self ≫= ?f) s) with (f s s). cbv beta.
  rewrite (stm_bind_Ok _ _ _ _ _ (raw_slice_run s _ _ (Nat.lt_le_incl _ _ Hlt) ltac:(by rewrite Hr) ltac:(by rewrite Hr))).
  eexists. split; [reflexivity|]. split; [|done]. split; try done.
  - unfold shown. cbn [upd yielded c_emitted_len]. rewrite fmap_app, bind_app, concat_app. fold (shown s). rewrite Hsh, Hr. cbn.
    rewrite !app_nil_r. apply take_next. lia.
  - cbn [upd c_emitted_len]. unfold safe_len. rewrite Hr. unfold withheld_from. lia.
Qed.

(** The state with the new text observed. *)
Definition observed_state (t : str) (m : ToolMarkupStreamState) (s : ChatState) : ChatState :=
  s <| c_raw_text := t |> <| markup := m |>
    <| c_stop_detector := MkDetector (max_stop_sequence_len stop) (length t) |>.

Lemma on_stop_plain t m i s : markup_inv p t m → is_char_boundary t i = true →
  is_char_boundary t (c_emitted_len s) = true → c_emitted_len s ≤ i →
  shown s = take (c_emitted_len s) t →
  assembler s = [] ∧ emitted_tool_calls s = 0 ∧ serializer s = [] ∧ parses s = 0 →
  ∃ s', on_stop request family completion i (observed_state t m s) = (Ok Break, s') ∧ stopped_text t i s' ∧ tokens_of s' = tokens_of s.
Proof.
  intros Hm Hi He Hle Hsh Hfresh. unfold on_stop.
  set (s1 := observed_state t m s). change ((self ≫= ?f) s1) with (f s1 s1). cbv beta.
  rewrite deferring_none, bool_decide_eq_true_2 by done. cbn [andb].
  change (c_emitted_len s1) with (c_emitted_len s). destruct (Nat.ltb_spec (c_emitted_len s) i) as [Hlt|Hge].
  - assert (raw_slice (c_emitted_len s) i s1 = (Ok (take (i - c_emitted_len s) (drop (c_emitted_len s) t)), s1)) as Hrun
      by (by apply raw_slice_run).
    unfold mbind, stm_bind. rewrite Hrun. eexists. split; [reflexivity|]. split; [|done]. split; try done.
    unfold shown. cbn [upd yielded s1 observed_state]. rewrite fmap_app, bind_app, concat_app. fold (shown s). rewrite Hsh. cbn.
    rewrite !app_nil_r. by apply take_next.
  - eexists. split; [reflexivity|]. split; [|done]. split; try done.
    change (shown s = take i t). rewrite Hsh. f_equal. lia.
Qed.

Lemma on_text_plain t new s : plain_text t s → starts_char new → no_markup p (t ++ new) →
  ∃ flow s', on_text from_str string_from_str float_text uuid request family completion new s = (Ok flow, s')
  ∧ tokens_of s' = tokens_of s
  ∧ match earliest_stop_index (t ++ new) stop with
    | Some i => flow = Break ∧ stopped_text (t ++ new) i s'
    | None => flow = Next ∧ plain_text (t ++ new) s'
    end.
Proof.
  intros Hp Hsc Hplain. pose proof Hp as [Hr Hsh He Hb Hf Hst Hsa Hd Hm Hno Hfresh].
  destruct (observe_inv p t new (markup s) (adapter_policy_wf family) Hm) as (m & Hobs & Hm').
  destruct (plain_markup _ _ Hplain Hm') as [_ Hnone].
  assert (on_text from_str string_from_str float_text uuid request family completion new s
    = match earliest_stop_index (t ++ new) stop with
      | Some i => on_stop request family completion i (observed_state (t ++ new) m s)
      | None => (_ ← emit_safe_text request family completion;
                 _ ← on_completed_calls from_str string_from_str float_text uuid request family completion;
                 _ ← emit_buffered_text request family completion; mret Next) (observed_state (t ++ new) m s)
      end) as ->.
  { unfold on_text, mbind at 1, stm_bind at 1. cbn [update modify]. unfold mbind at 1, stm_bind at 1. unfold self, get_state.
    cbn [upd c_raw_text markup]. rewrite Hr, Hobs. unfold mbind at 1, stm_bind at 1. cbn [panicking or_panic lift_outcome].
    unfold mbind at 1, stm_bind at 1. cbn [update modify]. cbn [upd c_stop_detector]. rewrite Hd, observe_spec by done.
    unfold mbind at 1, stm_bind at 1. cbn [update modify]. unfold mbind at 1, stm_bind at 1. cbn [panicking or_panic lift_outcome].
    unfold observed_state. destruct s; cbn in *. subst. by destruct (earliest_stop_index _ _). }
  assert (is_char_boundary (t ++ new) (c_emitted_len s) = true) as Hb'.
  { apply boundary_app; [done| |done]. etrans; [exact He|apply safe_len_le]. }
  assert (c_emitted_len s ≤ length t) as Hel by (etrans; [exact He|apply safe_len_le]).
  assert (shown s = take (c_emitted_len s) (t ++ new)) as Hsh' by (by rewrite take_app_le).
  destruct (earliest_stop_index (t ++ new) stop) as [i|] eqn:Ei.
  - apply earliest_Some in Ei as [Ho _]. pose proof Ho as (w & Hw & Hoc). destruct (Hstop w Hw) as [Hne Hws].
    destruct (on_stop_plain (t ++ new) m i s) as (s' & -> & Hs' & Ht'); try done.
    + by eapply occurs_boundary.
    + etrans; [exact He|]. by eapply safe_len_before_stop.
    + exists Break, s'. done.
  - pose proof (proj1 (earliest_None _ _) Ei) as Hn.
    assert (plain_text (t ++ new) (observed_state (t ++ new) m s)) as Hp1.
    { split; try done. cbn. etrans; [exact He|]. by apply withheld_mono. }
    destruct (emit_safe_text_plain _ _ Hp1) as (s2 & Hrun & Hp2 & Ht2). rewrite (stm_bind_Ok _ _ _ _ _ Hrun).
    assert (on_completed_calls from_str string_from_str float_text uuid request family completion s2 = (Ok tt, s2)) as Hc.
    { unfold on_completed_calls. change ((self ≫= ?f) s2) with (f s2 s2). cbv beta.
      destruct (plain_markup _ _ Hplain (pt_markup _ _ Hp2)) as [_ ->]. done. }
    assert (emit_buffered_text request family completion s2 = (Ok tt, s2)) as Hbuf.
    { unfold emit_buffered_text. change ((self ≫= ?f) s2) with (f s2 s2). cbv beta.
      rewrite deferring_none, bool_decide_eq_false_2 by done. done. }
    rewrite (stm_bind_Ok _ _ _ _ _ Hc), (stm_bind_Ok _ _ _ _ _ Hbuf). by exists Next, s2.
Qed.

(** A step that shows nothing and leaves what the end of the reply depends on. *)
Definition calm (s s' : ChatState) : Prop :=
  shown s' = shown s ∧ tokens_of s' = tokens_of s ∧ c_finish_reason s' = c_finish_reason s
  ∧ assembler s' = assembler s ∧ emitted_tool_calls s' = emitted_tool_calls s.

(** From states calmly reached from [s0], the method ends as [o] and stays calm. *)
Definition quietly {A} (s0 : ChatState) (m : gen A) (o : outcome RuntimeError A) : Prop :=
  ∀ s, calm s0 s → ∃ s', m s = (o, s') ∧ calm s0 s'.

Lemma quietly_bind {A B} s0 (m : gen A) o (f : A → gen B) (g : A → outcome RuntimeError B) :
  quietly s0 m o → (∀ a, quietly s0 (f a) (g a)) → quietly s0 (m ≫= f) (o ≫= g).
Proof.
  intros Hm Hf s Hs. destruct (Hm s Hs) as (s1 & Hrun & H1). unfold mbind at 1, stm_bind. rewrite Hrun.
  destruct o as [a|e|]; [exact (Hf a s1 H1)|by exists s1..].
Qed.

Lemma quietly_lift {A} s0 (o : outcome RuntimeError A) : quietly s0 (lift_outcome o) o.
Proof. intros s Hs. by exists s. Qed.

Lemma quietly_stage s0 seen stage : quietly s0 (stage_if seen stage) (Ok tt).
Proof.
  intros s Hs. unfold stage_if. destruct seen; [|by exists s]. eexists. split; [reflexivity|].
  destruct Hs as (H1 & H2 & H3 & H4 & H5). split_and!; [|done..]. unfold shown. cbn [upd yielded].
  rewrite fmap_app, bind_app, concat_app. cbn. by rewrite app_nil_r.
Qed.

(** What the loop leaves behind. *)
Record reply_read (consumed : list BackendStreamChunk) (v : Verdict) (s : ChatState) : Prop := {
  rr_raw : c_raw_text s = chunks_text consumed;
  rr_tokens : tokens_of s = (max_prompt consumed, max_cached consumed, N.min (sum_completion consumed) u64_max);
  rr_finish : c_finish_reason s = verdict_reason v;
  rr_fresh : assembler s = [] ∧ emitted_tool_calls s = 0 ∧ serializer s = [] ∧ parses s = 0;
  rr_verdict : match v with
    | Matched i => shown s = take i (c_raw_text s) ∧ stopped_by_sequence s = true ∧ stop_at_len s = Some i
        ∧ is_char_boundary (c_raw_text s) i = true
    | _ => shown s = take (c_emitted_len s) (c_raw_text s) ∧ c_emitted_len s ≤ length (c_raw_text s)
        ∧ is_char_boundary (c_raw_text s) (c_emitted_len s) = true ∧ stopped_by_sequence s = false
        ∧ stop_at_len s = None ∧ first_start (markup s) = None
    end;
}.

Definition count_tokens (c : BackendStreamChunk) (n : N * option N * N) : N * option N * N :=
  (N.max n.1.1 (chunk_prompt_tokens c), max_optional_u64 n.1.2 (chunk_prompt_cached_tokens c),
   sat_add n.2 (chunk_completion_tokens c)).

(** The chunk counted, and its progress sent on. *)
Definition counted (c : BackendStreamChunk) (s : ChatState) : ChatState :=
  let s := s <| emitted_public_chunk := false |>
             <| c_prompt_tokens ::= λ n, N.max n (chunk_prompt_tokens c) |>
             <| c_prompt_cached_tokens ::= λ o, max_optional_u64 o (chunk_prompt_cached_tokens c) |>
             <| c_completion_tokens ::= λ n, sat_add n (chunk_completion_tokens c) |> in
  match chunk_progress c with
  | Some g => s <| yielded ::= λ l, l ++ [(ChatProgress g, armed s)] |>
  | None => s
  end.

(** Two states that show the same text and agree on what the reply depends on. *)
Lemma plain_silent t s s' : shown s' = shown s →
  (c_raw_text s', c_emitted_len s', c_finish_reason s', stopped_by_sequence s', stop_at_len s', c_stop_detector s', markup s',
    assembler s', emitted_tool_calls s', serializer s', parses s')
  = (c_raw_text s, c_emitted_len s, c_finish_reason s, stopped_by_sequence s, stop_at_len s, c_stop_detector s, markup s,
    assembler s, emitted_tool_calls s, serializer s, parses s) → plain_text t s → plain_text t s'.
Proof.
  intros Hsh [= H1 H2 H3 H4 H5 H6 H7 H8 H9 H10 H11] []. split; rewrite ?Hsh, ?H1, ?H2, ?H3, ?H4, ?H5, ?H6, ?H7, ?H8, ?H9, ?H10, ?H11;
    assumption.
Qed.

Lemma shown_silent s e b : event_content e = [] → shown (s <| yielded ::= λ l, l ++ [(e, b)] |>) = shown s.
Proof.
  intros He. unfold shown. cbn [upd yielded]. rewrite fmap_app, bind_app, concat_app. cbn. by rewrite He, app_nil_r.
Qed.

Lemma counted_plain t c s : plain_text t s → plain_text t (counted c s) ∧ tokens_of (counted c s) = count_tokens c (tokens_of s).
Proof.
  intros Hp. unfold counted.
  destruct (chunk_progress c); (split; [|done]); apply (plain_silent t s); try done. by etrans; [apply shown_silent|].
Qed.

(** The end of the body, once the text is handled. *)
Definition chunk_tail (c : BackendStreamChunk) : gen Flow :=
  s ← self;
  _ ← (if (0 <? internal_progress_bytes c) && negb (emitted_public_chunk s)
       then emit (ChatInternalProgress (internal_progress_bytes c)) else mret tt);
  match chunk_finish_reason c with
  | Some reason => _ ← update (λ s, s <| c_finish_reason := api_finish_reason reason |>); mret Break
  | None => mret Next
  end.

Lemma on_chunk_counted c s : chunk_tool_call_deltas c = [] →
  on_chunk from_str string_from_str float_text uuid request family completion c s
  = (flow ← (if bool_decide (chunk_text c = []) then mret Next
             else on_text from_str string_from_str float_text uuid request family completion (chunk_text c));
     match flow with Break => mret Break | Next => chunk_tail c end) (counted c s).
Proof. intros Hc. unfold on_chunk, on_tool_deltas, counted. rewrite Hc. by destruct (chunk_progress c). Qed.

Lemma chunk_tail_plain t c s : plain_text t s → ∃ s' flow, chunk_tail c s
  = (Ok flow, match chunk_finish_reason c with Some r => s' <| c_finish_reason := api_finish_reason r |> | None => s' end)
  ∧ flow = match chunk_finish_reason c with Some _ => Break | None => Next end
  ∧ plain_text t s' ∧ tokens_of s' = tokens_of s.
Proof.
  intros Hp. unfold chunk_tail. change ((self ≫= ?f) s) with (f s s). cbv beta. destruct (_ && _).
  - exists (s <| yielded ::= λ l, l ++ [(ChatInternalProgress (internal_progress_bytes c), armed s)] |>).
    assert (plain_text t (s <| yielded ::= λ l, l ++ [(ChatInternalProgress (internal_progress_bytes c), armed s)] |>))
      by (apply (plain_silent t s); [by apply shown_silent|done..]).
    destruct (chunk_finish_reason c); eexists; (split; [reflexivity|]); by split_and!.
  - exists s. destruct (chunk_finish_reason c); eexists; (split; [reflexivity|]); by split_and!.
Qed.

(** The tokens counted over the chunks read. *)
Definition chunks_tokens (chunks : list BackendStreamChunk) : N * option N * N :=
  (max_prompt chunks, max_cached chunks, N.min (sum_completion chunks) u64_max).

Lemma chunks_tokens_snoc seen c : count_tokens c (chunks_tokens seen) = chunks_tokens (seen ++ [c]).
Proof.
  unfold count_tokens, chunks_tokens. cbn [fst snd]. rewrite max_prompt_snoc, max_cached_snoc, sum_completion_snoc.
  unfold sat_add. f_equal. lia.
Qed.

(** A chunk of text. *)
Definition text_chunks : list BackendStreamChunk → Prop :=
  Forall (λ c, starts_char (chunk_text c) ∧ chunk_tool_call_deltas c = []).

Lemma read_backend_extends seen chunks : ∃ rest, (read_backend stop seen chunks).1 = seen ++ rest.
Proof.
  revert seen. induction chunks as [|c chunks IH]; intros seen; cbn [read_backend]; [exists []; by rewrite app_nil_r|].
  destruct (earliest_stop_index _ _); [by exists [c]|]. destruct (chunk_finish_reason c); [by exists [c]|].
  destruct (IH (seen ++ [c])) as (rest & ->). exists (c :: rest). by rewrite <- app_assoc.
Qed.

Lemma no_markup_seen seen rest : no_markup p (chunks_text (seen ++ rest)) → no_markup p (chunks_text seen).
Proof. unfold chunks_text. rewrite fmap_app, concat_app. apply no_markup_prefix. Qed.

Lemma plain_reply seen v s t : plain_text t s → t = chunks_text seen → no_markup p t → tokens_of s = chunks_tokens seen →
  (match v with Matched _ => False | _ => True end) → reply_read seen v (s <| c_finish_reason := verdict_reason v |>).
Proof.
  intros Hp -> Hplain Ht Hv. pose proof Hp as [Hr Hsh He Hb Hf Hst Hsa Hd Hm Hno Hfresh].
  destruct (plain_markup _ _ Hplain Hm) as [Hfirst _]. assert (c_emitted_len s ≤ length (chunks_text seen)).
  { etrans; [exact He|apply withheld_le]. }
  split; try done. destruct v; [done| |]; cbn [upd c_raw_text c_emitted_len stopped_by_sequence stop_at_len markup]; rewrite Hr;
    by split_and!.
Qed.

(** What a chunk without a stop sequence leaves. *)
Definition chunk_read (seen : list BackendStreamChunk) (reason : option BackendFinishReason) (flow : Flow) (s : ChatState) : Prop :=
  match reason with
  | Some r => flow = Break ∧ reply_read seen (FinishedBy r) s
  | None => flow = Next ∧ plain_text (chunks_text seen) s ∧ tokens_of s = chunks_tokens seen
  end.

Lemma chunk_tail_read seen c s : plain_text (chunks_text seen) s → no_markup p (chunks_text seen) →
  tokens_of s = chunks_tokens seen →
  ∃ flow s', chunk_tail c s = (Ok flow, s') ∧ chunk_read seen (chunk_finish_reason c) flow s'.
Proof.
  intros Hp Hplain Ht. destruct (chunk_tail_plain _ c s Hp) as (s' & flow & Hrun & Hflow & Hp' & Ht').
  exists flow. eexists. split; [exact Hrun|]. unfold chunk_read. rewrite Hflow. destruct (chunk_finish_reason c); (split; [done|]).
  - apply (plain_reply _ (FinishedBy b) s' _ Hp'); try done. congruence.
  - split; [done|]. congruence.
Qed.

Lemma chunk_plain seen c s : plain_text (chunks_text seen) s → tokens_of s = chunks_tokens seen →
  starts_char (chunk_text c) → chunk_tool_call_deltas c = [] → no_markup p (chunks_text (seen ++ [c])) →
  ∃ flow s', on_chunk from_str string_from_str float_text uuid request family completion c s = (Ok flow, s')
  ∧ match earliest_stop_index (chunks_text (seen ++ [c])) stop with
    | Some i => flow = Break ∧ reply_read (seen ++ [c]) (Matched i) s'
    | None => chunk_read (seen ++ [c]) (chunk_finish_reason c) flow s'
    end.
Proof.
  intros Hp Ht Hc Hcalls Hplain. rewrite on_chunk_counted by done.
  destruct (counted_plain _ c s Hp) as [Hp1 Ht1]. rewrite Ht, chunks_tokens_snoc in Ht1. set (s1 := counted c s) in *.
  case_bool_decide as Hempty.
  - assert (chunks_text (seen ++ [c]) = chunks_text seen) as Heq by (by rewrite chunks_text_snoc, Hempty, app_nil_r).
    destruct (chunk_tail_read (seen ++ [c]) c s1) as (flow & s' & Hrun & Hread); [by rewrite Heq|done..|].
    exists flow, s'. rewrite Heq, (proj2 (earliest_None _ _)) by apply Hp. done.
  - destruct (on_text_plain _ (chunk_text c) s1 Hp1 Hc) as (flow & s2 & Hrun & Ht2 & Hcase); [by rewrite <- chunks_text_snoc|].
    rewrite (stm_bind_Ok _ _ _ _ _ Hrun). rewrite <- chunks_text_snoc in Hcase.
    destruct (earliest_stop_index _ _) as [i|]; destruct Hcase as [-> Hs2]; [|apply chunk_tail_read; [done..|congruence]].
    exists Break, s2. split; [done|]. split; [done|]. destruct Hs2 as [Hr Hsh Hf Hst Hsa Hbd Hfresh]. split; try done.
    + by rewrite Ht2, Ht1.
    + by rewrite Hr.
Qed.

Lemma loop_plain chunks seen s : plain_text (chunks_text seen) s → tokens_of s = chunks_tokens seen →
  no_markup p (chunks_text seen) → text_chunks chunks →
  let '(consumed, v) := read_backend stop seen chunks in no_markup p (chunks_text consumed) →
  ∃ s', backend_loop from_str string_from_str float_text uuid request family completion (inl <$> chunks) s = (Ok tt, s')
  ∧ reply_read consumed v s'.
Proof.
  intros Hp Ht Hplain Hall. revert seen s Hp Ht Hplain. induction Hall as [|c chunks [Hc Hcalls] Hall IH]; intros seen s Hp Ht Hplain.
  - intros _. exists s. split; [done|].
    replace s with (s <| c_finish_reason := verdict_reason Exhausted |>) by (destruct Hp; by destruct s; simplify_eq/=).
    by eapply plain_reply.
  - cbn [read_backend]. rewrite fmap_cons. cbn [backend_loop].
    destruct (read_backend_extends (seen ++ [c]) chunks) as (rest & Hrest).
    pose proof (chunk_plain seen c s Hp Ht Hc Hcalls) as Hchunk. specialize (IH (seen ++ [c])).
    destruct (earliest_stop_index _ _) as [i|].
    { intros Hm. destruct (Hchunk Hm) as (flow & s' & Hrun & -> & Hr). rewrite (stm_bind_Ok _ _ _ _ _ Hrun). by exists s'. }
    unfold chunk_read in Hchunk. destruct (chunk_finish_reason c) as [r|].
    { intros Hm. destruct (Hchunk Hm) as (flow & s' & Hrun & -> & Hr). rewrite (stm_bind_Ok _ _ _ _ _ Hrun). by exists s'. }
    destruct (read_backend stop (seen ++ [c]) chunks) as [consumed v]. cbn [fst] in Hrest. subst consumed. intros Hm.
    pose proof (no_markup_seen _ _ Hm) as Hm1.
    destruct (Hchunk Hm1) as (flow & s' & Hrun & -> & Hp' & Ht'). rewrite (stm_bind_Ok _ _ _ _ _ Hrun). by apply IH.
Qed.
Lemma quietly_skip {A B} s0 (m : gen A) x (f : A → gen B) o : quietly s0 m (Ok x) → quietly s0 (f x) o → quietly s0 (m ≫= f) o.
Proof. intros Hm Hf s Hs. destruct (Hm s Hs) as (s1 & Hrun & H1). rewrite (stm_bind_Ok _ _ _ _ _ Hrun). by apply Hf. Qed.

Lemma quietly_self {B} s0 (f : ChatState → gen B) o : (∀ s, calm s0 s → quietly s0 (f s) o) → quietly s0 (self ≫= f) o.
Proof. intros Hf s Hs. by apply Hf. Qed.

(** What the whole completion does with a parsed reply. *)
Definition settle (visible : str) (n : N) (parsed : ParsedAssistant) : outcome RuntimeError ParsedAssistant :=
  parsed ← checked float_text request parsed;
  match classify_chat_no_progress is_alphanumeric to_lowercase visible parsed n false request (tool_markup_policy family) with
  | Some class => Err (NoProgress class)
  | None => Ok parsed
  end.

Lemma check_reply_settles s0 visible parsed :
  quietly s0 (check_reply from_str float_text is_alphanumeric to_lowercase request family visible parsed)
    (settle visible (c_completion_tokens s0) parsed).
Proof.
  unfold check_reply, settle, checked. cbv zeta. apply (quietly_skip _ _ tt); [apply quietly_stage|].
  destruct (validate_tool_call_arguments parsed) as [[]|e|]; [|apply quietly_lift..].
  apply (quietly_skip _ _ tt); [apply quietly_lift|]. set (filled := fill_missing_tool_intent_arguments request parsed).
  destruct (classify_repeated_invalid_tool_call_no_progress filled request) as [class|]; [by intros s Hs; exists s|].
  apply (quietly_skip _ _ tt); [by intros s Hs; exists s|]. apply (quietly_skip _ _ tt); [apply quietly_stage|].
  destruct (validate_tool_calls_against_request float_text filled request) as [[]|e|]; [|apply quietly_lift..].
  apply (quietly_skip _ _ tt); [apply quietly_lift|]. apply (quietly_skip _ _ tt); [apply quietly_stage|].
  assert (∀ d, d ≠ DeferredNone → deferring request family d = false) as Hnot
    by (intros d Hd; rewrite deferring_none; by apply bool_decide_eq_false_2).
  rewrite !Hnot by done. apply (quietly_skip _ _ tt); [by intros s Hs; exists s|].
  apply quietly_self. intros s (_ & [= _ _ Ht] & _). rewrite Ht. cbn [andb]. cbn [mbind outcome_bind].
  destruct (classify_chat_no_progress _ _ _ _ _ _ _ _); apply quietly_lift.
Qed.

(** Whole calls sent after the text. *)
Lemma parsed_calls_quiet s0 index calls : (N.of_nat (index + length calls) ≤ u32_max + 1)%N →
  quietly s0 (emit_parsed_calls float_text completion index calls) (Ok tt).
Proof.
  revert index. induction calls as [|c calls IH]; intros index Hlen s Hs; cbn [emit_parsed_calls]; [by exists s|].
  cbn [length] in Hlen. rewrite with_serializer_run. pose proof (tool_call_delta_spec float_text index c (serializer s)) as Hd.
  assert (N.of_nat index ≤ u32_max)%N as Hi by lia.
  destruct (tool_call_delta float_text index c (serializer s)) as [[d|e|] ser] eqn:E; [|exfalso|done].
  - apply IH; [lia|]. destruct Hs as (H1 & H2 & H3 & H4 & H5). split_and!; [|done..].
    etrans; [|exact H1]. etrans; [by apply shown_silent|done].
  - unfold tool_call_delta, api_tool_call_index, mbind, stm_bind, lift_outcome in E.
    rewrite (proj2 (N.leb_le _ _) Hi) in E. cbn in E. unfold serialized_arguments in E.
    by destruct (_ !! index) as [[]|].
Qed.
(** The verdict of [read_backend] and the text up to it. *)
Definition verdict_at (consumed : list BackendStreamChunk) (v : Verdict) : Prop :=
  match v with
  | Matched i => earliest_stop_index (chunks_text consumed) stop = Some i
  | _ => ∀ i, ¬ stop_occurs stop (chunks_text consumed) i
  end.
Definition visible_of (consumed : list BackendStreamChunk) : str := (apply_stop_sequences (chunks_text consumed) stop).2.

Lemma visible_read consumed v s : verdict_at consumed v → reply_read consumed v s →
  take (visible_len s) (c_raw_text s) = visible_of consumed ∧ is_char_boundary (c_raw_text s) (visible_len s) = true.
Proof.
  intros Hv [Hr _ _ _ Hcase]. unfold visible_of, apply_stop_sequences, visible_len. rewrite Hr in *. destruct v as [i|r|]; cbn in Hv.
  - rewrite Hv. destruct Hcase as (_ & _ & -> & Hb). done.
  - rewrite (proj2 (earliest_None _ _) Hv). destruct Hcase as (_ & _ & _ & _ & -> & _). cbn.
    rewrite take_ge by done. split; [done|]. by rewrite boundary_length.
  - rewrite (proj2 (earliest_None _ _) Hv). destruct Hcase as (_ & _ & _ & _ & -> & _). cbn.
    rewrite take_ge by done. split; [done|]. by rewrite boundary_length.
Qed.

Lemma flush_plain consumed v s : verdict_at consumed v → reply_read consumed v s →
  ∃ s', flush_text request family completion s = (Ok tt, s') ∧ shown s' = visible_of consumed ∧ s' = s <| yielded := yielded s' |>.
Proof.
  intros Hv Hr. destruct (visible_read _ _ _ Hv Hr) as [Hvis Hb]. rewrite <- Hvis. destruct Hr as [Hraw _ _ _ Hcase].
  unfold flush_text. change ((self ≫= ?f) s) with (f s s). cbv beta. rewrite deferring_none, bool_decide_eq_true_2 by done.
  destruct v as [i|r|].
  { destruct Hcase as (Hsh & -> & Hat & _). exists s. unfold visible_len. rewrite Hat. split_and!; [done..|by destruct s]. }
  all: destruct Hcase as (Hsh & Hle & Hbe & -> & Hat & ->); unfold visible_len in *; rewrite Hat in *; cbn [default negb andb] in *.
  all: destruct (Nat.ltb_spec (c_emitted_len s) (length (c_raw_text s))) as [Hlt|Hge]; cbn [andb];
    [|exists s; split_and!; [done|rewrite Hsh; f_equal; lia|by destruct s]].
  all: rewrite bool_decide_eq_false_2 by (by intros [? ?]); cbn [negb].
  all: rewrite (stm_bind_Ok _ _ _ _ _ (raw_slice_run s _ _ (Nat.lt_le_incl _ _ Hlt) Hbe Hb)).
  all: eexists; split_and!; [reflexivity| |by destruct s].
  all: etrans; [apply shown_emit|]; rewrite Hsh; by apply take_next; lia.
Qed.

(** The whole output of a backend whose stream was read as [consumed]. *)
Definition whole_output (consumed : list BackendStreamChunk) (v : Verdict) : BackendOutput :=
  MkOutput (chunks_text consumed) (max_prompt consumed) (max_cached consumed) (N.min (sum_completion consumed) u64_max)
    (match v with Matched _ => BStop | FinishedBy r => r | Exhausted => BLength end).

(** The reason and the usage that end the reply. *)
Definition reply_reason (v : Verdict) (parsed : ParsedAssistant) : FinishReason :=
  if bool_decide (length (tool_calls parsed) = 0) then verdict_reason v else ToolCalls.

Local Abbreviation settled consumed := (
  parsed ← parse_chat_text from_str string_from_str (uuid 0) family (visible_of consumed) request;
  settle (visible_of consumed) (N.min (sum_completion consumed) u64_max) parsed).

Lemma complete_settles new_id now consumed v : verdict_at consumed v →
  complete_chat from_str string_from_str float_text is_alphanumeric to_lowercase uuid request family new_id now
    (inl (whole_output consumed v))
  = (parsed ← settled consumed;
     Ok (MkChatCompletion new_id now (ch_model request) parsed (reply_reason v parsed) (chunks_usage consumed))).
Proof.
  intros Hv. unfold complete_chat, whole_output, reply_reason. cbn [out_text out_prompt_tokens out_prompt_cached_tokens
    out_completion_tokens out_finish_reason].
  assert (apply_stop_sequences (chunks_text consumed) stop
    = (match v with Matched _ => true | _ => false end, visible_of consumed)) as ->.
  { unfold visible_of, apply_stop_sequences. destruct v; cbn in Hv; [by rewrite Hv|by rewrite (proj2 (earliest_None _ _) Hv)..]. }
  destruct (parse_chat_text _ _ _ _ _ _) as [parsed|e|]; [|done..]. cbn [mbind outcome_bind]. unfold settle.
  destruct (checked _ _ _) as [settled|e|]; [|done..]. cbn [mbind outcome_bind].
  assert (json_object_mode request = false ∧ request_requires_tool_choice request = false) as [Hj Hq].
  { pose proof Hmode as Hd. unfold deferred, deferred_emission_strategy in Hd.
    destruct (json_object_mode request); [done|]. by destruct (request_requires_tool_choice request). }
  assert (validate_json_object_response_format from_str settled request = Ok tt) as ->.
  { unfold json_object_mode in Hj. unfold validate_json_object_response_format. by destruct (ch_response_format request) as [[]|]. }
  rewrite Hq. cbn [andb mbind outcome_bind]. destruct (classify_chat_no_progress _ _ _ _ _ _ _ _); [done|].
  change (Ok settled ≫= ?f) with (f settled). cbv beta. destruct (bool_decide _); [|done]. by destruct v as [| |].
Qed.

(** The state in which the reply is parsed, and the rest of the reply from it. *)
Lemma reply_parsed consumed v s : verdict_at consumed v → reply_read consumed v s →
  ∃ s1, shown s1 = visible_of consumed ∧ tokens_of s1 = chunks_tokens consumed ∧ c_finish_reason s1 = verdict_reason v
  ∧ assembler s1 = [] ∧ emitted_tool_calls s1 = 0
  ∧ finish_reply from_str string_from_str float_text is_alphanumeric to_lowercase uuid request family completion s
    = (parsed ← lift_outcome (parse_chat_text from_str string_from_str (uuid 0) family (visible_of consumed) request);
       parsed ← check_reply from_str float_text is_alphanumeric to_lowercase request family (visible_of consumed) parsed;
       _ ← emit_deferred_content request family completion parsed;
       _ ← emit_remaining_calls float_text request completion parsed;
       mret parsed) s1.
Proof.
  intros Hv Hr. set (s0 := s <| armed := false |>).
  assert (reply_read consumed v s0) as Hr0 by (destruct Hr; by split).
  destruct (flush_plain _ _ _ Hv Hr0) as (s1 & Hrun & Hsh & Hs1).
  remember (yielded s1) as l eqn:Hl. clear Hl. subst s1. set (s1 := s0 <| yielded := l |>) in *.
  destruct (visible_read _ _ _ Hv Hr0) as [Hvis Hb]. destruct Hr0 as [Hraw Ht Hf (Ha & He & Hser & Hps) _].
  exists (s1 <| parses ::= S |>). split_and!; try done.
  unfold finish_reply. change ((update _ ≫= ?f) s) with (f tt s0). cbv beta. rewrite (stm_bind_Ok _ _ _ _ _ Hrun).
  change ((self ≫= ?f) s1) with (f s1 s1). cbv beta.
  assert (raw_slice 0 (visible_len s1) s1 = (Ok (visible_of consumed), s1)) as Hsl.
  { rewrite raw_slice_run by (done || lia). by rewrite Nat.sub_0_r, drop_0, <- Hvis. }
  rewrite (stm_bind_Ok _ _ _ _ _ Hsl).
  assert (parse_reply from_str string_from_str uuid request family (visible_of consumed) s1
    = lift_outcome (parse_chat_text from_str string_from_str (uuid 0) family (visible_of consumed) request) (s1 <| parses ::= S |>))
    as Hparse.
  { unfold parse_reply. change ((self ≫= ?f) s1) with (f s1 s1). cbv beta. unfold structured_seen.
    change (assembler s1) with (assembler s0). rewrite Ha. unfold fresh_uuids, mbind, stm_bind, self, get_state.
    cbn [update modify mret stm_ret]. change (parses s1) with (parses s0). by rewrite Hps. }
  unfold mbind at 1, stm_bind at 1. rewrite Hparse. done.
Qed.

Lemma reply_plain consumed v s : verdict_at consumed v → reply_read consumed v s →
  ∃ s', shown s' = visible_of consumed
  ∧ match settled consumed with
    | Ok parsed => (N.of_nat (length (tool_calls parsed)) ≤ u32_max + 1)%N →
        finish_reply from_str string_from_str float_text is_alphanumeric to_lowercase uuid request family completion s = (Ok parsed, s')
        ∧ tokens_of s' = chunks_tokens consumed ∧ c_finish_reason s' = verdict_reason v
    | o => finish_reply from_str string_from_str float_text is_alphanumeric to_lowercase uuid request family completion s = (o, s')
    end.
Proof.
  intros Hv Hr. destruct (reply_parsed _ _ _ Hv Hr) as (s1 & Hsh & Ht & Hf & Ha & He & ->).
  destruct (parse_chat_text _ _ _ _ _ _) as [parsed|e|]; [|by exists s1..]. cbn [mbind outcome_bind].
  change ((lift_outcome (Ok parsed) ≫= ?f) s1) with (f parsed s1). cbv beta.
  destruct (check_reply_settles s1 (visible_of consumed) parsed s1) as (s2 & Hrun & Hs2); [done|].
  assert (c_completion_tokens s1 = N.min (sum_completion consumed) u64_max) as Hn by (by injection Ht).
  rewrite Hn in Hrun. pose proof Hs2 as (Hsh2 & Ht2 & Hf2 & Ha2 & He2).
  destruct (settle _ _ parsed) as [p1|e|].
  2, 3: exists s2; split; [congruence|]; by rewrite (stm_bind_fails _ _ _ _ _ Hrun ltac:(done)).
  rewrite (stm_bind_Ok _ _ _ _ _ Hrun). unfold emit_deferred_content. rewrite Hmode.
  change (((self ≫= λ _, mret tt) ≫= ?f) s2) with (f tt s2). cbv beta.
  assert (emit_remaining_calls float_text request completion p1 s2 = emit_parsed_calls float_text completion 0 (tool_calls p1) s2) as Hrem.
  { unfold emit_remaining_calls. change ((self ≫= ?f) s2) with (f s2 s2). cbv beta. unfold structured_seen.
    rewrite Ha2, Ha, He2, He. done. }
  destruct (decide (N.of_nat (length (tool_calls p1)) ≤ u32_max + 1)%N) as [Hlen|Hlen]; [|by exists s2; split; [congruence|]].
  destruct (parsed_calls_quiet s1 0 (tool_calls p1) Hlen s2 Hs2) as (s3 & Hrun3 & Hsh3 & Ht3 & Hf3 & _).
  exists s3. split; [congruence|]. intros _. split; [|split; congruence].
  rewrite <- Hrem in Hrun3. by rewrite (stm_bind_Ok _ _ _ _ _ Hrun3).
Qed.
Lemma start_plain s : s = (emit_delta completion (MkChatDelta (Some Assistant) None []) None None (chat_start request family)).2 →
  plain_text [] s ∧ tokens_of s = chunks_tokens [].
Proof.
  intros ->. split; [|done]. split; try done.
  - apply Nat.le_0_l.
  - apply stream_state_inv, adapter_policy_wf.
  - by apply no_stop_nil.
Qed.

Lemma no_markup_nil : no_markup p [].
Proof.
  destruct (stream_state_inv p (adapter_policy_wf family)) as [(_ & Hf & Hc) _ _ _].
  split; [by apply earliest_None|exact Hc].
Qed.

End plain.

(** Plain text with a stop sequence cut across two chunks. *)
Definition plain_chunks : list BackendStreamChunk := demo_chunk_of <$> [lit "hello wor"; lit "ld EN"; lit "D tail"; lit "more"].
Definition plain_request : ChatCompletionRequest := demo_request None [] [lit "END"].

