(* ===== verification/TokenEstimate.v ===== *)
(** * Prompt size estimates

    Models the token estimates by which the scheduler of
    [crates/llm-server/src/engine/scheduler.rs] decides whether a request is
    admitted as prefill or as decode work, and bounds them by sizes of the text. *)
From Stdlib Require Import String.
From stdpp Require Import base gmap sets numbers list.
From S2P Require Import Prelude Text Json JsonBytes Api Scheduler.
Open Scope N_scope.

(** ** Text *)

(** [value.chars()] folded into the two counters. *)
Fixpoint count_chars (cs : list N) (ascii_bytes non_ascii_tokens : N) : N * N :=
  match cs with
  | [] => (ascii_bytes, non_ascii_tokens)
  | character :: cs =>
      if character <? 128 then count_chars cs (sat_add ascii_bytes 1) non_ascii_tokens
      else count_chars cs ascii_bytes
             (sat_add non_ascii_tokens (N.max (sat_sub (len_utf8 character) 1) 1))
  end.

(** [split_whitespace().count()]: the runs of characters that are not white. *)
Fixpoint count_words (in_word : bool) (cs : list N) : N :=
  match cs with
  | [] => 0
  | c :: cs =>
      if char_is_whitespace c then count_words false cs
      else (if in_word then 0 else 1) + count_words true cs
  end.

Definition div_ceil (a b : N) : N := (a + b - 1) / b.

Definition estimated_text_tokens (s : str) : N :=
  let '(ascii_bytes, non_ascii_tokens) := count_chars (chars s) 0 0 in
  let byte_estimate := sat_add (div_ceil ascii_bytes 4) non_ascii_tokens in
  let word_estimate := count_words false (chars s) in
  N.max byte_estimate word_estimate.

(** ** JSON *)

(** The loop of [decimal_digits]; a [u64] has at most 20 digits. *)
Fixpoint decimal_digits_loop (fuel : nat) (value digits : N) : N :=
  match fuel with
  | O => digits
  | S fuel => if 10 <=? value then decimal_digits_loop fuel (value / 10) (digits + 1) else digits
  end.
Definition decimal_digits (value : N) : N := decimal_digits_loop 20 value 1.

Definition estimated_json_string_tokens (s : str) : N := sat_add (estimated_text_tokens s) 1.

Definition estimated_json_number_tokens (n : number) : N :=
  match n with
  | PosInt value => div_ceil (decimal_digits value) 4
  | NegInt value =>
      div_ceil (sat_add (if (value <? 0)%Z then 1 else 0) (decimal_digits (Z.abs_N value))) 4
  | Float _ => 8
  end.

Definition json_object_wrapper_tokens : N := 1.
Definition json_array_wrapper_tokens : N := 1.

(** [add_json_object_field_tokens], on [tokens] and [has_field]. *)
Definition add_json_object_field_tokens (key : str) (value_tokens : N) (acc : N * bool) : N * bool :=
  let '(tokens, has_field) := acc in
  let tokens := if (has_field : bool) then sat_add tokens 1 else tokens in
  (sat_add (sat_add (sat_add tokens (estimated_json_string_tokens key)) 1) value_tokens, true).

(** The loop of the array case. *)
Definition add_json_item_tokens (acc : N * bool) (value_tokens : N) : N * bool :=
  let '(tokens, has_item) := acc in
  (sat_add (if (has_item : bool) then sat_add tokens 1 else tokens) value_tokens, true).

Fixpoint estimated_json_value_tokens (v : value) : N :=
  match v with
  | Null => 1
  | Bool _ => 1
  | Number n => estimated_json_number_tokens n
  | JString s => estimated_json_string_tokens s
  | Array values =>
      (fold_left add_json_item_tokens (map estimated_json_value_tokens values)
         (json_array_wrapper_tokens, false)).1
  | Object m =>
      (fold_left (λ acc '(k, t), add_json_object_field_tokens k t acc)
         (map (λ '(k, v), (k, estimated_json_value_tokens v)) m)
         (json_object_wrapper_tokens, false)).1
  end.

(** ** Requests *)
Definition estimated_tool_call_type_tokens (t : ToolCallType) : N :=
  match t with Function => estimated_json_string_tokens (lit "function") end.

Definition estimated_function_definition_tokens (function : FunctionDefinition) : N :=
  let acc := add_json_object_field_tokens (lit "name")
    (estimated_json_string_tokens (fd_name function)) (json_object_wrapper_tokens, false) in
  let acc := match fd_description function with
             | Some description =>
                 add_json_object_field_tokens (lit "description")
                   (estimated_json_string_tokens description) acc
             | None => acc
             end in
  (add_json_object_field_tokens (lit "parameters")
     (estimated_json_value_tokens (fd_parameters function)) acc).1.

Definition estimated_tool_definition_tokens (tool : ToolDefinition) : N :=
  let acc := add_json_object_field_tokens (lit "type")
    (estimated_tool_call_type_tokens (td_type tool)) (json_object_wrapper_tokens, false) in
  (add_json_object_field_tokens (lit "function")
     (estimated_function_definition_tokens (td_function tool)) acc).1.

Definition estimated_chat_tokens (r : ChatCompletionRequest) : N :=
  fold_left sat_add
    (map (λ m, match cm_content m with Some c => estimated_text_tokens c | None => 0 end) (ch_messages r)
     ++ map estimated_tool_definition_tokens (ch_tools r)) 0.

Definition classify_chat (options : ModelSchedulerOptions) (r : ChatCompletionRequest) : SchedulerClass :=
  classify_estimated_tokens options (estimated_chat_tokens r).
Definition classify_completion (options : ModelSchedulerOptions) (r : CompletionRequest) : SchedulerClass :=
  classify_estimated_tokens options (estimated_text_tokens (cr_prompt r)).

(** ** Lemmas *)
Definition ascii_count (cs : list N) : N := N.of_nat (length (filter (λ c, c < 128) cs)).

Lemma div_ceil_le a : div_ceil a 4 ≤ a.
Proof.
  unfold div_ceil. destruct (decide (a = 0)) as [->|]; [done|].
  apply N.Div0.div_le_upper_bound. lia.
Qed.

Lemma count_chars_spec cs a t :
  Forall (λ c, is_scalar c = true) cs → a + t + N.of_nat (length (utf8_text cs)) ≤ u64_max →
  ∃ t', count_chars cs a t = (a + ascii_count cs, t') ∧ t ≤ t'
    ∧ ascii_count cs + t' ≤ t + N.of_nat (length (utf8_text cs)).
Proof.
  intros Hcs. revert a t. induction Hcs as [|c cs _ _ IH]; intros a t Hsum; simpl.
  - exists t. unfold ascii_count. simpl. rewrite N.add_0_r. split; [done|]. lia.
  - unfold utf8_text in *. rewrite fmap_cons in *. cbn [concat] in *.
    rewrite length_app, Nat2N.inj_add, utf8_encode_length in *. unfold len_utf8 in *.
    unfold ascii_count. rewrite filter_cons. destruct (N.ltb_spec c 128).
    + rewrite decide_True by done. rewrite sat_add_small by lia.
      destruct (IH (a + 1) t) as (t' & -> & Hle & Hs); [lia|]. exists t'.
      fold (ascii_count cs). cbn [length]. rewrite Nat2N.inj_succ. split; [f_equal; unfold ascii_count; lia|].
      unfold ascii_count in *. lia.
    + rewrite decide_False by lia. unfold sat_sub.
      set (n := if c <? 2048 then 2 else if c <? 65536 then 3 else 4) in *.
      assert (2 ≤ n) by (subst n; repeat case_match; lia).
      rewrite sat_add_small by lia.
      destruct (IH a (t + N.max (n - 1) 1)) as (t' & -> & Hle & Hs); [lia|]. exists t'.
      fold (ascii_count cs). split; [done|]. lia.
Qed.

Lemma count_words_le b cs : count_words b cs ≤ N.of_nat (length cs).
Proof.
  revert b. induction cs as [|c cs IH]; intros b; cbn [count_words length]; [done|].
  rewrite Nat2N.inj_succ. pose proof (IH false). pose proof (IH true). repeat case_match; lia.
Qed.

Lemma chars_le_bytes cs : (length cs ≤ length (utf8_text cs))%nat.
Proof.
  induction cs as [|c cs IH]; [done|]. unfold utf8_text in *. rewrite fmap_cons. cbn [concat length].
  rewrite length_app. assert (1 ≤ N.of_nat (length (utf8_encode c))); [|lia].
  rewrite utf8_encode_length. unfold len_utf8. repeat case_match; lia.
Qed.

(** The estimate lies between the word count and the byte count. *)
Lemma text_tokens_bounds s :
  valid_utf8 s → N.of_nat (length s) ≤ u64_max →
  count_words false (chars s) ≤ estimated_text_tokens s
  ∧ div_ceil (ascii_count (chars s)) 4 ≤ estimated_text_tokens s
  ∧ estimated_text_tokens s ≤ N.of_nat (length s).
Proof.
  intros (cs & Hcs & ->) Hlen. rewrite !chars_text by done. unfold estimated_text_tokens.
  rewrite chars_text by done. destruct (count_chars_spec cs 0 0 Hcs) as (t & -> & _ & Ht); [lia|].
  rewrite N.add_0_l in *. pose proof (div_ceil_le (ascii_count cs)).
  pose proof (count_words_le false cs). pose proof (chars_le_bytes cs).
  rewrite sat_add_small by lia. lia.
Qed.

Lemma string_text_length s : N.of_nat (length s) + 2 ≤ N.of_nat (length (string_text s)).
Proof.
  assert (length s ≤ length (concat (escape_byte <$> s)))%nat.
  { induction s as [|b s IH]; [done|]. rewrite fmap_cons. cbn [concat length]. rewrite length_app.
    assert (1 ≤ length (escape_byte b))%nat; [|lia]. unfold escape_byte. repeat case_match; simpl; lia. }
  unfold string_text. rewrite !length_app. simpl. lia.
Qed.

Lemma string_tokens_le s :
  valid_utf8 s → N.of_nat (length s) ≤ u64_max →
  estimated_json_string_tokens s + 1 ≤ N.of_nat (length (string_text s)).
Proof.
  intros Hv Hl. unfold estimated_json_string_tokens, sat_add.
  destruct (text_tokens_bounds s Hv Hl) as (_ & _ & Hle).
  pose proof (string_text_length s). lia.
Qed.

(** Values without floating-point numbers. *)
Fixpoint no_floats (v : value) : Prop :=
  match v with
  | Number (Float _) => False
  | Array l => (fix go l := match l with [] => True | v :: l => no_floats v ∧ go l end) l
  | Object m => (fix go (m : object) := match m with [] => True | (_, v) :: m => no_floats v ∧ go m end) m
  | _ => True
  end.

Lemma digits_loop_spec fuel value digits :
  decimal_digits_loop fuel value digits ≤ digits + N.log2 value.
Proof.
  revert value digits. induction fuel as [|fuel IH]; intros value digits; cbn [decimal_digits_loop]; [lia|].
  destruct (N.leb_spec 10 value) as [Hv|]; [|lia]. etrans; [apply IH|].
  assert (N.succ (N.log2 (value / 10)) ≤ N.log2 value); [|lia].
  rewrite <- N.log2_double by (assert (1 ≤ value / 10) by (apply N.div_le_lower_bound; lia); lia).
  apply N.log2_le_mono. pose proof (N.Div0.mul_div_le value 10). lia.
Qed.

Lemma decimal_loop_digits fuel n :
  (N.to_nat (N.log2 n) < fuel)%nat → ∀ k digits,
  decimal_digits_loop k n digits ≤ digits + N.of_nat (length (decimal_loop fuel n)) - 1
  ∧ (1 ≤ length (decimal_loop fuel n))%nat.
Proof.
  revert n. induction fuel as [|fuel IH]; intros n Hn k digits; [lia|]. cbn [decimal_loop].
  rewrite length_app. cbn [length]. destruct (N.ltb_spec n 10) as [Hlt|Hge].
  - split; [|simpl; lia]. destruct k; cbn [decimal_digits_loop]; [simpl; lia|].
    rewrite (proj2 (N.leb_gt 10 n)) by done. simpl. lia.
  - assert (N.succ (N.log2 (n / 10)) ≤ N.log2 n) as Hlog.
    { rewrite <- N.log2_double by (assert (1 ≤ n / 10) by (apply N.div_le_lower_bound; lia); lia).
      apply N.log2_le_mono. pose proof (N.Div0.mul_div_le n 10). lia. }
    split; [|lia]. destruct k; cbn [decimal_digits_loop].
    + destruct (IH (n / 10) ltac:(lia) O digits) as [_ ?]. lia.
    + rewrite (proj2 (N.leb_le 10 n)) by done.
      destruct (IH (n / 10) ltac:(lia) k (digits + 1)) as [? ?]. lia.
Qed.

Lemma decimal_digits_le n : decimal_digits n ≤ N.of_nat (length (decimal n)).
Proof.
  unfold decimal_digits, decimal.
  destruct (decimal_loop_digits (S (N.to_nat (N.log2 n))) n ltac:(lia) 20%nat 1) as [? ?]. lia.
Qed.

Section value_bound.
Variable float_text : N → str.

Lemma number_tokens_le n :
  (∀ bits, n ≠ Float bits) → estimated_json_number_tokens n ≤ N.of_nat (length (number_text float_text n)).
Proof.
  intros Hn. destruct n as [n|z|bits]; [| |by destruct (Hn bits)]; cbn [estimated_json_number_tokens number_text].
  - etrans; [apply div_ceil_le|]. apply decimal_digits_le.
  - etrans; [apply div_ceil_le|]. rewrite length_app, Nat2N.inj_add.
    pose proof (decimal_digits_le (Z.abs_N z)). unfold sat_add. destruct (z <? 0)%Z; simpl; lia.
Qed.

(** The two loops, each item at most its text and its separator. *)
Lemma items_tokens_le l l' acc first :
  Forall2 (λ t n, t ≤ n) l l' →
  (fold_left add_json_item_tokens l (acc, negb first)).1 + 1 ≤ acc + items_len l' first.
Proof.
  intros Hl. revert acc first. induction Hl as [|t n l l' Ht _ IH]; intros acc first; [by simpl|].
  rewrite items_len_cons. cbn [fold_left add_json_item_tokens].
  etrans; [apply (IH _ false)|]. unfold sat_add. destruct first; simpl; lia.
Qed.

Lemma fields_tokens_le (l : list (str * N)) l' acc first :
  Forall2 (λ '(k, t) n, estimated_json_string_tokens k + 1 + t ≤ n) l l' →
  (fold_left (λ acc '(k, t), add_json_object_field_tokens k t acc) l (acc, negb first)).1 + 1
  ≤ acc + items_len l' first.
Proof.
  intros Hl. revert acc first. induction Hl as [|[k t] n l l' Ht _ IH]; intros acc first; [by simpl|].
  rewrite items_len_cons. cbn [fold_left add_json_object_field_tokens].
  etrans; [apply (IH _ false)|]. unfold sat_add. destruct first; simpl; lia.
Qed.

(** Strings of a value are shorter than its text. *)
Lemma value_tokens_le v :
  value_valid v → no_floats v → text_len float_text v ≤ u64_max →
  estimated_json_value_tokens v ≤ text_len float_text v.
Proof.
  induction v as [|b|n|s|l IH|m IH] using value_nested_ind; intros Hv Hf Hlen.
  - done.
  - by destruct b.
  - apply number_tokens_le. intros bits ->. done.
  - unfold text_len in *. cbn [json_text estimated_json_value_tokens] in *.
    pose proof (string_text_length s).
    pose proof (string_tokens_le s Hv ltac:(lia)). lia.
  - rewrite text_len_array in *. cbn [estimated_json_value_tokens].
    pose proof (items_tokens_le (map estimated_json_value_tokens l) (map (text_len float_text) l)
      json_array_wrapper_tokens true) as H. cbn [negb] in H. unfold json_array_wrapper_tokens in *.
    etrans; [|apply N.add_le_mono_l, N.le_refl]. rewrite N.add_comm in H.
    enough (1 + (fold_left add_json_item_tokens (map estimated_json_value_tokens l) (1, false)).1
      ≤ 1 + items_len (map (text_len float_text) l) true) by lia.
    apply H. clear H. revert Hv Hf Hlen. generalize true.
    induction IH as [|v l Hvv _ IHl]; intros first Hv Hf Hlen; [constructor|].
    destruct Hv as [Hv Hvl], Hf as [Hf Hfl]. cbn [map] in *. rewrite items_len_cons in Hlen. constructor.
    + apply Hvv; [done|done|lia].
    + apply (IHl false); [done|done|lia].
  - rewrite text_len_object in *. cbn [estimated_json_value_tokens].
    pose proof (fields_tokens_le (map (λ '(k, v), (k, estimated_json_value_tokens v)) m)
      (map (λ '(k, v), string_len k + 1 + text_len float_text v) m)
      json_object_wrapper_tokens true) as H. cbn [negb] in H. unfold json_object_wrapper_tokens in *.
    enough ((fold_left (λ acc '(k, t), add_json_object_field_tokens k t acc)
        (map (λ '(k, v), (k, estimated_json_value_tokens v)) m) (1, false)).1 + 1
      ≤ 1 + items_len (map (λ '(k, v), string_len k + 1 + text_len float_text v) m) true) by lia.
    apply H. clear H. revert Hv Hf Hlen. generalize true.
    induction IH as [|[k v] m Hvv _ IHm]; intros first Hv Hf Hlen; [constructor|].
    destruct Hv as (Hk & Hv & Hvm), Hf as [Hf Hfm]. cbn [map] in *. rewrite items_len_cons in Hlen.
    pose proof (string_text_length k). unfold string_len in *. constructor.
    + pose proof (string_tokens_le k Hk ltac:(lia)). cbn [snd] in Hvv.
      pose proof (Hvv Hv Hf ltac:(lia)). lia.
    + apply (IHm false); [done|done|lia].
Qed.
End value_bound.

(** ** Properties *)

(** The estimate of a text is between its number of words and its number of
    bytes, and at least a quarter of its ASCII characters; so a prompt with fewer
    bytes than the threshold is always admitted as decode work, and one with as
    many words, or four times as many ASCII characters, always as prefill. *)
Theorem completion_class_bounds options r :
  valid_utf8 (cr_prompt r) → N.of_nat (length (cr_prompt r)) ≤ u64_max →
  let threshold := prefill_threshold_chars options in
  (N.of_nat (length (cr_prompt r)) < threshold → classify_completion options r = ClassDecode)
  ∧ (threshold ≤ count_words false (chars (cr_prompt r)) → classify_completion options r = ClassPrefill)
  ∧ (4 * threshold ≤ ascii_count (chars (cr_prompt r)) → classify_completion options r = ClassPrefill).
Proof.
  intros Hv Hl threshold. destruct (text_tokens_bounds _ Hv Hl) as (Hw & Ha & Hb).
  unfold classify_completion, classify_estimated_tokens. fold threshold.
  split_and!; intros H.
  - by rewrite (proj2 (N.leb_gt _ _)) by lia.
  - by rewrite (proj2 (N.leb_le _ _)) by lia.
  - rewrite (proj2 (N.leb_le _ _)); [done|]. etrans; [|exact Ha]. unfold div_ceil.
    apply N.div_le_lower_bound; lia.
Qed.

Lemma completion_class_bounds_witness :
  classify_completion (MkOptions 1 1 None 3 1)
    (MkCompletionRequest [] (lit "a b c") false false None None None None None None None []) = ClassPrefill.
Proof.
  destruct (completion_class_bounds (MkOptions 1 1 None 3 1)
    (MkCompletionRequest [] (lit "a b c") false false None None None None None None None []))
    as (_ & H & _).
  - exists (lit "a b c"). by repeat constructor.
  - vm_compute. discriminate.
  - apply H. vm_compute. discriminate.
Defined.

(** The estimate of a JSON value without floating-point numbers never exceeds
    the length of its compact text, so a tool declaration is never counted as
    more tokens than it has bytes. *)
Theorem json_estimate_bounded float_text v :
  value_valid v → no_floats v → N.of_nat (length (json_text float_text v)) ≤ u64_max →
  estimated_json_value_tokens v ≤ N.of_nat (length (json_text float_text v)).
Proof. intros. by apply value_tokens_le. Qed.

Lemma json_estimate_bounded_witness :
  estimated_json_value_tokens (Array [Number (PosInt 12345); Null]) = 5
  ∧ 5 ≤ N.of_nat (length (json_text (λ _, []) (Array [Number (PosInt 12345); Null]))).
Proof.
  split; [vm_compute; reflexivity|].
  apply (json_estimate_bounded (λ _, []) (Array [Number (PosInt 12345); Null])).
  - repeat split.
  - repeat split.
  - vm_compute. discriminate.
Defined.

(** The digits counted for a number are those of its decimal form. *)
Theorem decimal_digits_exact n : n ≤ u64_max → decimal_digits n = N.of_nat (length (decimal n)).
Proof.
  intros Hn. unfold decimal_digits, decimal.
  assert (∀ fuel k n digits, (N.to_nat (N.log2 n) < fuel)%nat → n < 10 ^ (N.of_nat k + 1) →
    decimal_digits_loop k n digits = digits + N.of_nat (length (decimal_loop fuel n)) - 1) as H.
  { clear. induction fuel as [|fuel IH]; intros k n digits Hf Hk; [lia|]. cbn [decimal_loop].
    rewrite length_app. cbn [length]. destruct (N.ltb_spec n 10) as [Hlt|Hge].
    - destruct k; cbn [decimal_digits_loop]; [simpl; lia|]. rewrite (proj2 (N.leb_gt 10 n)) by done. simpl. lia.
    - assert (1 ≤ n / 10) by (apply N.div_le_lower_bound; lia).
      assert (N.succ (N.log2 (n / 10)) ≤ N.log2 n) as Hlog.
      { rewrite <- N.log2_double by lia. apply N.log2_le_mono. pose proof (N.Div0.mul_div_le n 10). lia. }
      destruct k as [|k]; [change (10 ^ (N.of_nat 0 + 1)) with 10 in Hk; lia|].
      cbn [decimal_digits_loop]. rewrite (proj2 (N.leb_le 10 n)) by done. rewrite (IH k); [|lia|].
      + destruct (decimal_loop_digits fuel (n / 10) ltac:(lia) O digits) as [_ ?]. lia.
      + apply N.Div0.div_lt_upper_bound. rewrite <- N.pow_succ_r'.
        by replace (N.succ (N.of_nat k + 1)) with (N.of_nat (S k) + 1) by lia. }
  rewrite (H (S (N.to_nat (N.log2 n)))); [lia|lia|].
  eapply N.le_lt_trans; [exact Hn|]. vm_compute. reflexivity.
Qed.

Lemma decimal_digits_exact_witness : decimal_digits 1000 = 4.
Proof. rewrite (decimal_digits_exact 1000); [reflexivity|vm_compute; discriminate]. Defined.
