(* ===== verification/CanonicalJson.v ===== *)
(** * Canonical tool schemas

    Models the canonicalization of [crates/llm-api/src/tool_schema.rs] and the
    tool-schema part of [crates/llm-runtime/src/backend_request.rs], by which
    clients that send the same tools with members in another order share a
    prompt-cache key. *)
From Stdlib Require Import String Sorted.
From stdpp Require Import base sets numbers sorting list.
From S2P Require Import Prelude Text Backend Json Api.
Open Scope N_scope.

(** ** Definitions *)

(** [Ord for str]: lexicographic on bytes. *)
Fixpoint str_leb (s t : str) : bool :=
  match s, t with
  | [], _ => true
  | _ :: _, [] => false
  | a :: s, b :: t => (a <? b) || (a =? b) && str_leb s t
  end.
Definition str_le (s t : str) : Prop := str_leb s t = true.
#[export] Instance str_le_dec : RelDecision str_le := λ s t, decide (str_leb s t = true).

(** [left.as_str().cmp(&right.as_str())], where [None] is least. *)
Definition as_str_le (v w : value) : Prop :=
  match as_str v, as_str w with
  | None, _ => True
  | Some _, None => False
  | Some s, Some t => str_le s t
  end.
#[export] Instance as_str_le_dec : RelDecision as_str_le.
Proof. intros v w. unfold as_str_le. destruct (as_str v), (as_str w); apply _. Defined.

(** [canonicalize_json_member]: the members are canonicalized, then inserted in
    the order of the sorted keys. *)
Fixpoint canonicalize_json_member (key : option str) (v : value) : value :=
  match v with
  | Array items =>
      let canonical_items := map (canonicalize_json_member None) items in
      Array (if bool_decide (key = Some (lit "required")) && forallb is_string canonical_items
             then merge_sort as_str_le canonical_items else canonical_items)
  | Object m =>
      let members := map (λ '(k, v), (k, canonicalize_json_member (Some k) v)) m in
      Object (omap (λ k, pair k <$> get k members) (merge_sort str_le (map fst m)))
  | _ => v
  end.

Definition canonicalize_json_value (v : value) : value := canonicalize_json_member None v.

Definition canonicalize_tool_schemas (tools : list ToolDefinition) : list ToolDefinition :=
  map (λ tool,
    let f := td_function tool in
    MkToolDefinition (td_type tool)
      (MkFunctionDefinition (fd_name f) (fd_description f) (canonicalize_json_value (fd_parameters f)))) tools.

Inductive ToolSchemaNormalization := Preserve | Canonical.

Definition effective_tools (n : ToolSchemaNormalization) (tools : list ToolDefinition) : list ToolDefinition :=
  match n with Preserve => tools | Canonical => canonicalize_tool_schemas tools end.

(** [serde_json::to_value] of a tool definition. *)
Definition tool_value (tool : ToolDefinition) : value :=
  let f := td_function tool in
  Object [(lit "type", JString (lit "function"));
          (lit "function", Object ((lit "name", JString (fd_name f))
             :: match fd_description f with Some d => [(lit "description", JString d)] | None => [] end
             ++ [(lit "parameters", fd_parameters f)]))].

Section schema_json.
(** [serde_json::to_string]. *)
Variable to_string : value → str.

Definition tool_schema_json (n : ToolSchemaNormalization) (tools : list ToolDefinition) : option str :=
  match tools with
  | [] => None
  | _ =>
      let v := Array (map tool_value (effective_tools n tools)) in
      Some (to_string (match n with Preserve => v | Canonical => canonicalize_json_value v end))
  end.
End schema_json.

(** ** Values equal up to order *)

(** [v] and [w], found under [key], differ in the order of object members and of
    [required] lists only. *)
Inductive reordered : option str → value → value → Prop :=
| ro_refl key v : reordered key v v
| ro_sym key v w : reordered key v w → reordered key w v
| ro_trans key u v w : reordered key u v → reordered key v w → reordered key u w
| ro_members key m m' : NoDup (map fst m) → m ≡ₚ m' → reordered key (Object m) (Object m')
| ro_required l l' : forallb is_string l = true → l ≡ₚ l' →
    reordered (Some (lit "required")) (Array l) (Array l')
| ro_item key l1 v w l2 : reordered None v w →
    reordered key (Array (l1 ++ v :: l2)) (Array (l1 ++ w :: l2))
| ro_member key m1 k v w m2 : reordered (Some k) v w →
    reordered key (Object (m1 ++ (k, v) :: m2)) (Object (m1 ++ (k, w) :: m2)).

(** ** Lemmas *)
Lemma str_leb_refl s : str_leb s s = true.
Proof. induction s as [|a s IH]; [done|]. simpl. by rewrite N.eqb_refl, IH, orb_true_r. Qed.

Lemma str_leb_total s t : str_leb s t = true ∨ str_leb t s = true.
Proof.
  revert t. induction s as [|a s IH]; intros [|b t]; simpl; [by left..|by right|].
  destruct (N.lt_trichotomy a b) as [H|[->|H]].
  - left. by rewrite (proj2 (N.ltb_lt _ _) H).
  - rewrite N.eqb_refl, N.ltb_irrefl. apply IH.
  - right. by rewrite (proj2 (N.ltb_lt _ _) H).
Qed.

Lemma str_leb_trans s t u : str_leb s t = true → str_leb t u = true → str_leb s u = true.
Proof.
  revert t u. induction s as [|a s IH]; intros [|b t] [|c u]; simpl; try done.
  intros [H1|[H1 H1']%andb_true_iff]%orb_true_iff [H2|[H2 H2']%andb_true_iff]%orb_true_iff; apply orb_true_iff;
    rewrite ?N.ltb_lt, ?N.eqb_eq in *.
  - left. lia.
  - left. lia.
  - left. lia.
  - right. apply andb_true_iff. split; [apply N.eqb_eq; lia|]. by apply (IH t).
Qed.

Lemma str_leb_antisym s t : str_leb s t = true → str_leb t s = true → s = t.
Proof.
  revert t. induction s as [|a s IH]; intros [|b t]; simpl; try done.
  intros [H1|[H1 H1']%andb_true_iff]%orb_true_iff [H2|[H2 H2']%andb_true_iff]%orb_true_iff;
    rewrite ?N.ltb_lt, ?N.eqb_eq in *; try lia. subst. f_equal. by apply IH.
Qed.

#[export] Instance str_le_trans : Transitive str_le.
Proof. intros s t u. apply str_leb_trans. Qed.
#[export] Instance str_le_total : Total str_le.
Proof. intros s t. apply str_leb_total. Qed.
#[export] Instance str_le_antisymm : AntiSymm (=) str_le.
Proof. intros s t. apply str_leb_antisym. Qed.

#[export] Instance as_str_le_trans : Transitive as_str_le.
Proof.
  intros u v w. unfold as_str_le. destruct (as_str u), (as_str v), (as_str w); try done. apply str_leb_trans.
Qed.
#[export] Instance as_str_le_total : Total as_str_le.
Proof.
  intros v w. unfold as_str_le. destruct (as_str v), (as_str w); [apply str_leb_total|by right|by left..].
Qed.

(** Sorting strings inside values is sorting the strings. *)
Lemma strings_of l : forallb is_string l = true → ∃ ss, l = map JString ss.
Proof.
  induction l as [|v l IH]; simpl; [by exists []|]. intros [Hv Hl]%andb_true_iff.
  destruct (IH Hl) as [ss ->]. destruct v; try done. by exists (s :: ss).
Qed.

Lemma sorted_strings_eq l l' :
  forallb is_string l = true → l ≡ₚ l' → merge_sort as_str_le l = merge_sort as_str_le l'.
Proof.
  intros Hl Hp.
  assert (merge_sort as_str_le l ≡ₚ merge_sort as_str_le l') as Hperm by (by rewrite !merge_sort_Permutation).
  pose proof (StronglySorted_merge_sort as_str_le l) as H1.
  pose proof (StronglySorted_merge_sort as_str_le l') as H2.
  assert (∀ v, v ∈ merge_sort as_str_le l → is_string v = true) as Hs.
  { intros v. rewrite merge_sort_Permutation. intros Hin. rewrite forallb_forall in Hl.
    apply Hl. by apply list_elem_of_In. }
  revert H1 H2 Hperm Hs. generalize (merge_sort as_str_le l) (merge_sort as_str_le l'). clear.
  intros l l' H1. revert l'. induction H1 as [|v l H1 IH Hv]; intros l' H2 Hp Hs.
  - apply Permutation_nil in Hp. done.
  - destruct H2 as [|w l' H2 Hw]; [by apply Permutation_sym, Permutation_nil in Hp|].
    assert (v = w) as ->.
    { assert (as_str_le v w ∧ as_str_le w v) as [Hvw Hwv].
      { rewrite Forall_forall in Hv, Hw. split.
        - assert (w ∈ v :: l) as [->|?]%elem_of_cons by (rewrite Hp; by left); [|by apply Hv].
          destruct (as_str_le_total v v); done.
        - assert (v ∈ w :: l') as [->|?]%elem_of_cons by (rewrite <- Hp; by left); [|by apply Hw].
          destruct (as_str_le_total w w); done. }
      pose proof (Hs v ltac:(by left)). pose proof (Hs w ltac:(rewrite Hp; by left)).
      destruct v, w; try done. f_equal. by apply str_leb_antisym. }
    f_equal. apply IH; [done|by apply Permutation_cons_inv in Hp|]. intros x Hx. apply Hs. by right.
Qed.

Abbreviation canon := canonicalize_json_member.

(** The members of an object, each canonicalized in place. *)
Definition canon_members (m : object) : object := map (λ '(k, v), (k, canon (Some k) v)) m.

(** The members in the order of their keys. *)
Definition sorted_members (m : object) : object := omap (λ k, pair k <$> get k m) (merge_sort str_le (map fst m)).

Lemma canon_members_keys m : map fst (canon_members m) = map fst m.
Proof. unfold canon_members. induction m as [|[k v] m IH]; simpl; congruence. Qed.

Lemma canon_object key m : canon key (Object m) = Object (sorted_members (canon_members m)).
Proof. unfold sorted_members. by rewrite canon_members_keys. Qed.

Lemma sorted_members_keys m : map fst (sorted_members m) = merge_sort str_le (map fst m).
Proof.
  unfold sorted_members. assert (∀ k, k ∈ merge_sort str_le (map fst m) → is_Some (get k m)) as H.
  { intros k. rewrite merge_sort_Permutation. intros Hin. induction m as [|[k' v] m IH]; simpl in *.
    - by apply not_elem_of_nil in Hin.
    - case_bool_decide; [done|]. apply elem_of_cons in Hin as [->|Hin]; [done|by apply IH]. }
  revert H. generalize (merge_sort str_le (map fst m)). intros ks. induction ks as [|k ks IH]; intros H; [done|].
  destruct (H k) as [v Hv]; [by left|]. cbn. rewrite Hv. cbn. f_equal. apply IH. intros k' ?. apply H. by right.
Qed.

Lemma sorted_members_perm m : NoDup (map fst m) → sorted_members m ≡ₚ m.
Proof.
  intros Hd. apply NoDup_Permutation.
  - apply (NoDup_fmap_1 fst). change (NoDup (map fst (sorted_members m))).
    by rewrite sorted_members_keys, merge_sort_Permutation.
  - by apply (NoDup_fmap_1 fst).
  - intros [k v]. unfold sorted_members. rewrite list_elem_of_omap. split.
    + intros (k' & _ & Hk). apply fmap_Some in Hk as (v' & Hg & [= -> ->]). by apply get_Some_in.
    + intros Hin. exists k. rewrite merge_sort_Permutation, (get_in k m v) by done. split; [|done].
      apply list_elem_of_fmap. by exists (k, v).
Qed.

Lemma sorted_members_keys_sorted m : StronglySorted str_le (map fst (sorted_members m)).
Proof. rewrite sorted_members_keys. apply StronglySorted_merge_sort; apply _. Qed.

Lemma sorted_members_proper m m' :
  NoDup (map fst m) → m ≡ₚ m' → sorted_members m = sorted_members m'.
Proof.
  intros Hd Hp. assert (NoDup (map fst m')) as Hd' by (by rewrite <- Hp). unfold sorted_members.
  assert (merge_sort str_le (map fst m) = merge_sort str_le (map fst m')) as ->.
  { apply (StronglySorted_unique str_le); [apply StronglySorted_merge_sort; apply _..|].
    by rewrite !merge_sort_Permutation, Hp. }
  apply omap_ext_in. intros k _. f_equal.
  destruct (get k m) as [v|] eqn:Hg.
  - symmetry. apply get_in; [done|]. rewrite <- Hp. by apply get_Some_in.
  - destruct (get k m') as [v|] eqn:Hg'; [|done]. apply get_Some_in in Hg'. rewrite <- Hp in Hg'.
    by rewrite (get_in k m v) in Hg by done.
Qed.

Lemma canon_members_perm m m' : m ≡ₚ m' → canon_members m ≡ₚ canon_members m'.
Proof. intros Hp. unfold canon_members. by rewrite Hp. Qed.

Lemma canon_is_string key v : is_string (canon key v) = is_string v.
Proof. by destruct v. Qed.

Lemma canon_strings l : forallb is_string l = true → map (canon None) l = l.
Proof.
  induction l as [|v l IH]; simpl; [done|]. intros [Hv Hl]%andb_true_iff. rewrite IH by done. by destruct v.
Qed.

Lemma canon_all_strings l : forallb is_string (map (canon None) l) = forallb is_string l.
Proof. induction l as [|v l IH]; simpl; [done|]. by rewrite canon_is_string, IH. Qed.

Lemma forallb_perm {A} (f : A → bool) l l' : l ≡ₚ l' → forallb f l = forallb f l'.
Proof. induction 1; simpl; try congruence. destruct (f x), (f y); done. Qed.

(** Canonical forms do not see the order. *)
Lemma canon_reordered key v w : reordered key v w → canon key v = canon key w.
Proof.
  induction 1 as [| |key u v w _ IH1 _ IH2|key m m' Hd Hp|l l' Hs Hp|key l1 v w l2 _ IH|key m1 k v w m2 _ IH];
    try congruence.
  - rewrite !canon_object. f_equal. apply sorted_members_proper; [by rewrite canon_members_keys|].
    by apply canon_members_perm.
  - cbn. pose proof Hs as Hs'. rewrite (forallb_perm _ _ _ Hp) in Hs'.
    rewrite !canon_strings, Hs, Hs' by done. f_equal. by apply sorted_strings_eq.
  - cbn. by rewrite !map_app; cbn; rewrite IH.
  - rewrite !canon_object. do 2 f_equal. unfold canon_members. rewrite !map_app. cbn. by rewrite IH.
Qed.

(** A value can be brought into canonical form by reordering. *)
Lemma reordered_items key l1 l l' :
  Forall2 (reordered None) l l' → reordered key (Array (l1 ++ l)) (Array (l1 ++ l')).
Proof.
  intros H. revert l1. induction H as [|v w l l' Hv _ IH]; intros l1; [apply ro_refl|].
  eapply ro_trans; [by apply ro_item|]. rewrite !(cons_middle w), !app_assoc. apply IH.
Qed.

Lemma reordered_fields key m1 m m' :
  Forall2 (λ kv kw, kv.1 = kw.1 ∧ reordered (Some kv.1) kv.2 kw.2) m m' →
  reordered key (Object (m1 ++ m)) (Object (m1 ++ m')).
Proof.
  intros H. revert m1. induction H as [|[k v] [k' w] m m' [Hk Hv] _ IH]; intros m1; [apply ro_refl|].
  cbn in Hk, Hv. subst k'. eapply ro_trans; [by apply ro_member|]. rewrite !(cons_middle (k, w)), !app_assoc. apply IH.
Qed.

Lemma reordered_canon key v : value_wf v → reordered key v (canon key v).
Proof.
  revert key. induction v as [| | | |l IH|m IH] using value_nested_ind; intros key Hwf; try apply ro_refl.
  - apply value_wf_array in Hwf. eapply ro_trans.
    { apply (reordered_items key [] l (map (canon None) l)). clear key.
      induction IH as [|v l Hv _ IHl]; [constructor|]. apply Forall_cons in Hwf as [? ?].
      constructor; [by apply Hv|by apply IHl]. }
    cbn. case_bool_decide as Hk; cbn; [|apply ro_refl]. subst key.
    destruct (forallb is_string (map (canon None) l)) eqn:Hs; [|apply ro_refl].
    apply ro_required; [done|]. by rewrite merge_sort_Permutation.
  - apply value_wf_object in Hwf as [Hd Hwf]. rewrite canon_object. eapply ro_trans.
    { apply (reordered_fields key [] m (canon_members m)). clear key Hd.
      induction IH as [|[k v] m Hv _ IHm]; [constructor|]. apply Forall_cons in Hwf as [? ?].
      constructor; [split; [done|by apply Hv]|by apply IHm]. }
    cbn [app]. apply ro_members; [by rewrite canon_members_keys|].
    symmetry. apply sorted_members_perm. by rewrite canon_members_keys.
Qed.

(** Every object of a value lists its keys in order. *)
Fixpoint keys_sorted (v : value) : Prop :=
  match v with
  | Array l => (fix go l := match l with [] => True | v :: l => keys_sorted v ∧ go l end) l
  | Object m => StronglySorted str_le (map fst m)
      ∧ (fix go (m : object) := match m with [] => True | (_, v) :: m => keys_sorted v ∧ go m end) m
  | _ => True
  end.

Lemma keys_sorted_array l : keys_sorted (Array l) ↔ Forall keys_sorted l.
Proof. simpl. induction l as [|v l IH]; [by rewrite Forall_nil|]. by rewrite Forall_cons, IH. Qed.

Lemma keys_sorted_object m :
  keys_sorted (Object m) ↔ StronglySorted str_le (map fst m) ∧ Forall (λ kv, keys_sorted kv.2) m.
Proof.
  simpl. apply and_iff_compat_l. induction m as [|[k v] m IH]; [by rewrite Forall_nil|]. by rewrite Forall_cons, IH.
Qed.

Lemma canon_keys_sorted key v : value_wf v → keys_sorted (canon key v).
Proof.
  revert key. induction v as [| | | |l IH|m IH] using value_nested_ind; intros key Hwf; try done.
  - apply value_wf_array in Hwf. cbn [canonicalize_json_member]. apply keys_sorted_array.
    assert (Forall keys_sorted (map (canon None) l)) as H.
    { induction IH as [|v l Hv _ IHl]; [constructor|]. apply Forall_cons in Hwf as [? ?].
      constructor; [by apply Hv|by apply IHl]. }
    case_match; [|done]. by rewrite merge_sort_Permutation.
  - apply value_wf_object in Hwf as [Hd Hwf]. rewrite canon_object, keys_sorted_object.
    split; [apply sorted_members_keys_sorted|]. rewrite sorted_members_perm by (by rewrite canon_members_keys).
    clear Hd key. induction IH as [|[k v] m Hv _ IHm]; [constructor|]. apply Forall_cons in Hwf as [? ?].
    constructor; [by apply Hv|by apply IHm].
Qed.

(** ** Properties *)

(** C34: canonicalization is a complete normal form: two values have the same
    canonical form exactly when they differ in the order of object members and
    of [required] lists only; the canonical form is itself such a reordering of
    the value, so nothing is lost, its keys are in order at every level, and
    canonicalizing again changes nothing. *)
Theorem canonical_form_complete v w :
  value_wf v → value_wf w →
  (canonicalize_json_value v = canonicalize_json_value w ↔ reordered None v w)
  ∧ reordered None v (canonicalize_json_value v)
  ∧ keys_sorted (canonicalize_json_value v)
  ∧ canonicalize_json_value (canonicalize_json_value v) = canonicalize_json_value v.
Proof.
  intros Hv Hw. unfold canonicalize_json_value. split_and!.
  - split; [|apply canon_reordered]. intros Heq.
    eapply ro_trans; [by apply reordered_canon|]. rewrite Heq. by apply ro_sym, reordered_canon.
  - by apply reordered_canon.
  - by apply canon_keys_sorted.
  - symmetry. by apply canon_reordered, reordered_canon.
Qed.

Definition schema_ab : value :=
  Object [(lit "b", Null); (lit "required", Array [JString (lit "y"); JString (lit "x")])].
Definition schema_ba : value :=
  Object [(lit "required", Array [JString (lit "x"); JString (lit "y")]); (lit "b", Null)].

Lemma canonical_form_complete_witness : reordered None schema_ab schema_ba.
Proof.
  assert (∀ v, bool_decide (NoDup (match v with Object m => map fst m | _ => [] end)) = true →
    match v with Object [(_, Null); (_, Array [JString _; JString _])]
               | Object [(_, Array [JString _; JString _]); (_, Null)] => value_wf v | _ => True end) as Hwf.
  { intros v Hd. apply bool_decide_eq_true in Hd. repeat case_match; try done; subst; simpl in Hd |- *;
      by split_and!. }
  apply (canonical_form_complete schema_ab schema_ba).
  - exact (Hwf schema_ab eq_refl).
  - exact (Hwf schema_ba eq_refl).
  - vm_compute. reflexivity.
Defined.

(** With canonical normalization, two clients whose tools agree up to the
    order of the parameters' members get the same tool-schema text, hence the
    same prompt-cache key, whatever the serializer and the hash are. *)
Theorem canonical_tools_share_cache_key to_string sha256_hex template tools tools' :
  Forall2 (λ t t', td_type t = td_type t' ∧ fd_name (td_function t) = fd_name (td_function t')
    ∧ fd_description (td_function t) = fd_description (td_function t')
    ∧ reordered None (fd_parameters (td_function t)) (fd_parameters (td_function t'))) tools tools' →
  tool_schema_json to_string Canonical tools = tool_schema_json to_string Canonical tools'
  ∧ key (chat_template sha256_hex template (tool_schema_json to_string Canonical tools))
    = key (chat_template sha256_hex template (tool_schema_json to_string Canonical tools')).
Proof.
  intros H. assert (tool_schema_json to_string Canonical tools = tool_schema_json to_string Canonical tools')
    as Heq; [|by rewrite Heq].
  assert (canonicalize_tool_schemas tools = canonicalize_tool_schemas tools') as Hc.
  { induction H as [|t t' tools tools' (Ht & Hn & Hd & Hp) _ IH]; [done|]. cbn. rewrite Ht, Hn, Hd.
    f_equal; [|exact IH]. do 2 f_equal. by apply canon_reordered. }
  destruct H; [done|]. unfold tool_schema_json, effective_tools. by rewrite Hc.
Qed.

Definition demo_tool (schema : value) : ToolDefinition :=
  MkToolDefinition Function (MkFunctionDefinition (lit "f") None schema).

Lemma canonical_tools_share_cache_key_witness :
  tool_schema_json (json_text (λ _, [])) Canonical [demo_tool schema_ab]
  = tool_schema_json (json_text (λ _, [])) Canonical [demo_tool schema_ba].
Proof.
  apply (canonical_tools_share_cache_key (json_text (λ _, [])) (λ _, []) []
    [demo_tool schema_ab] [demo_tool schema_ba]).
  constructor; [|constructor]. split_and!; try reflexivity. unfold schema_ab, schema_ba. simpl.
  eapply ro_trans.
  - apply (ro_member None [(lit "b", Null)] (lit "required") _
      (Array [JString (lit "x"); JString (lit "y")]) []). apply ro_required; [reflexivity|constructor].
  - cbn [app]. apply ro_members; [|constructor]. apply (bool_decide_eq_true_1 _). vm_compute. reflexivity.
Defined.
