(* ===== verification/ChatTemplate.v ===== *)
(** * Chat templates

    Models [crates/llm-chat-template/src/lib.rs], which writes the prompt of each
    model family and refuses request text that contains a control token, and the
    prompt side of [crates/llm-runtime/src/adapters.rs] and [backend_request.rs].

    The source appends to one string; here a function returns what it appends. *)
From Stdlib Require Import String.
From stdpp Require Import base gmap sets numbers list.
From S2P Require Import Prelude Text Whitespace Api Json ToolParse TemplateError Backend CanonicalJson.
Open Scope nat_scope.

(** ** Options *)
Record QwenPromptOptions := MkQwenOptions { q_enable_thinking : bool; q_add_generation_prompt : bool }.
Record GemmaPromptOptions := MkGemmaOptions { g_enable_thinking : bool; g_add_generation_prompt : bool }.
Record DeepSeekPromptOptions := MkDeepSeekOptions { d_enable_thinking : bool; d_add_generation_prompt : bool }.
Record LlamaPromptOptions := MkLlamaOptions { l_add_generation_prompt : bool }.

Abbreviation rendered := (outcome TemplateError str).

(** ** Control tokens

    A literal with a backtick where the source has a quotation mark. *)
Definition lit_q (s : string) : str := (λ b, if (b =? 96)%N then 34%N else b) <$> lit s.

Definition QWEN_RESERVED : list str :=
  [lit "<|im_start|>"; lit "<|im_end|>"; lit "<tool_call>"; lit "</tool_call>"; lit "<think>"; lit "</think>"].
Definition GEMMA_RESERVED : list str :=
  [lit "<|turn>"; lit "<turn|>"; lit "<|channel>"; lit "<channel|>"; lit "<|tool_call>"; lit "<tool_call|>"; lit "<|tool>";
   lit "<tool|>"; lit "<|tool_response>"; lit "<tool_response|>"; lit "<|think|>"; lit "<|image|>"; lit "<|audio|>";
   lit "<|video|>"].
Definition DEEPSEEK_RESERVED : list str :=
  [lit "<｜begin▁of▁sentence｜>"; lit "<｜end▁of▁sentence｜>"; lit "<｜User｜>"; lit "<｜Assistant｜>"; lit "<｜tool▁calls▁begin｜>";
   lit "<｜tool▁calls▁end｜>"; lit "<｜tool▁call▁begin｜>"; lit "<｜tool▁call▁end｜>"; lit "<｜tool▁sep｜>";
   lit "<｜tool▁outputs▁begin｜>"; lit "<｜tool▁outputs▁end｜>"; lit "<｜tool▁output▁begin｜>"; lit "<｜tool▁output▁end｜>";
   lit "<think>"; lit "</think>"].
Definition LLAMA_RESERVED : list str :=
  [lit "<|begin_of_text|>"; lit "<|end_of_text|>"; lit "<|start_header_id|>"; lit "<|end_header_id|>"; lit "<|eot_id|>";
   lit "<|eom_id|>"; lit "<|python_tag|>"].

(** The token that the text contains first is the one named. *)
Definition reject (reserved : list str) (text : str) : outcome TemplateError unit :=
  match first_min (λ x y, x.1 <? y.1) (omap (λ token, (λ index, (index, token)) <$> find token text) reserved) with
  | Some (_, token) => Err (ReservedControlToken token)
  | None => Ok tt
  end.
Definition reject_reserved_prompt_controls : str → outcome TemplateError unit := reject QWEN_RESERVED.
Definition reject_gemma4_prompt_controls : str → outcome TemplateError unit := reject GEMMA_RESERVED.
Definition reject_deepseek_prompt_controls : str → outcome TemplateError unit := reject DEEPSEEK_RESERVED.
Definition reject_llama3_prompt_controls : str → outcome TemplateError unit := reject LLAMA_RESERVED.

(** ** Common parts *)

(** A loop that appends for each element. *)
Fixpoint append_each {A} (f : A → rendered) (l : list A) : rendered :=
  match l with
  | [] => Ok []
  | x :: l => a ← f x; b ← append_each f l; Ok (a ++ b)
  end.

(** [if let Some(content) = &message.content { reject(content)?; out.push_str(..) }]. *)
Definition push_content (check : str → outcome TemplateError unit) (f : str → str) (message : ChatMessage) : rendered :=
  match cm_content message with
  | Some text => _ ← check text; Ok (f text)
  | None => Ok []
  end.

(** A leading system message is taken out of the turns. *)
Definition first_system (messages : list ChatMessage) : option ChatMessage :=
  match head messages with
  | Some message => if bool_decide (cm_role message = System) then Some message else None
  | None => None
  end.
Definition starts_with_system (messages : list ChatMessage) : bool := bool_decide (is_Some (first_system messages)).
Definition message_index (messages : list ChatMessage) : nat := if starts_with_system messages then 1 else 0.

Section render.
(** [serde_json]'s rendering of floating-point numbers. *)
Variable float_text : N → str.
Local Abbreviation to_string := (json_text float_text).

Definition tools_to_string (tools : list ToolDefinition) : str := to_string (Array (map tool_value tools)).
Definition call_payload (call : ToolCall) : str :=
  to_string (Object [(lit "name", JString (tcf_name (tc_function call))); (lit "arguments", tcf_arguments (tc_function call))]).

(** ** Qwen *)
Definition render_plain (role : str) (message : ChatMessage) : rendered :=
  text ← push_content reject_reserved_prompt_controls id message;
  Ok (lit "<|im_start|>" ++ role ++ [10%N] ++ text ++ lit "<|im_end|>" ++ [10%N]).

Definition render_assistant_call (call : ToolCall) : rendered :=
  _ ← reject_reserved_prompt_controls (call_payload call);
  Ok (lit "<tool_call>" ++ call_payload call ++ lit "</tool_call>").
Definition render_assistant (message : ChatMessage) : rendered :=
  text ← push_content reject_reserved_prompt_controls id message;
  calls ← append_each render_assistant_call (cm_tool_calls message);
  Ok (lit "<|im_start|>assistant" ++ [10%N] ++ text ++ calls ++ lit "<|im_end|>" ++ [10%N]).

Definition render_qwen_turn (message : ChatMessage) : rendered :=
  match cm_role message with
  | System => render_plain (lit "system") message
  | User => render_plain (lit "user") message
  | Tool => render_plain (lit "tool") message
  | Assistant => render_assistant message
  end.

(** The system turn with the tools. *)
Definition render_qwen_tools (messages : list ChatMessage) (tools : list ToolDefinition) (tool_instruction : option str) : rendered :=
  _ ← reject_reserved_prompt_controls (tools_to_string tools);
  text ← match first_system messages with
         | Some message => push_content reject_reserved_prompt_controls (λ content, content ++ [10; 10]%N) message
         | None => Ok []
         end;
  Ok (lit "<|im_start|>system" ++ [10%N] ++ text ++ default [] tool_instruction ++ tools_to_string tools
      ++ lit "<|im_end|>" ++ [10%N]).

Definition render_qwen_chatml_with_tool_instruction (messages : list ChatMessage) (tools : list ToolDefinition)
    (options : QwenPromptOptions) (tool_instruction : option str) : rendered :=
  '(head, index) ← match tools with
    | [] => Ok ([], 0)
    | _ => text ← render_qwen_tools messages tools tool_instruction; Ok (text, message_index messages)
    end;
  turns ← append_each render_qwen_turn (drop index messages);
  Ok (head ++ turns
      ++ if q_add_generation_prompt options
         then lit "<|im_start|>assistant" ++ [10%N]
              ++ (if q_enable_thinking options then lit "<think>" ++ [10%N]
                  else lit "<think>" ++ [10; 10]%N ++ lit "</think>" ++ [10; 10]%N)
         else []).

(** ** Gemma *)
Definition gemma_quote : str := lit_q "<|`|>".

(** [str::replace] of every occurrence by nothing; [skip] bytes are part of one. *)
Fixpoint str_remove (needle : str) (skip : nat) (s : str) : str :=
  match s with
  | [] => []
  | b :: r =>
      match skip with
      | S skip => str_remove needle skip r
      | O => if starts_with needle s then str_remove needle (length needle - 1) r else b :: str_remove needle 0 r
      end
  end.

Definition render_gemma4_string (value : str) : str := gemma_quote ++ str_remove gemma_quote 0 value ++ gemma_quote.

Fixpoint render_gemma4_argument (v : value) : str :=
  match v with
  | Null => lit "null"
  | Bool b => if b then lit "true" else lit "false"
  | Number n => number_text float_text n
  | JString s => render_gemma4_string s
  | Array l => lit "[" ++ join (lit ",") (map render_gemma4_argument l) ++ lit "]"
  | Object m => lit "{" ++ join (lit ",") (map (λ '(k, v), k ++ lit ":" ++ render_gemma4_argument v) m) ++ lit "}"
  end.

Definition render_gemma4_tool_definition (tool : ToolDefinition) : str :=
  let f := td_function tool in
  lit "declaration:" ++ fd_name f ++ lit "{"
  ++ match fd_description f with
     | Some description => lit "description:" ++ render_gemma4_string description ++ lit ","
     | None => []
     end
  ++ lit "parameters:" ++ render_gemma4_argument (fd_parameters f) ++ lit "}".
Definition render_gemma4_tool (tool : ToolDefinition) : rendered :=
  _ ← reject_gemma4_prompt_controls (render_gemma4_tool_definition tool);
  Ok (lit "<|tool>" ++ render_gemma4_tool_definition tool ++ lit "<tool|>").

Definition render_gemma4_turn (role : str) (message : ChatMessage) : rendered :=
  text ← push_content reject_gemma4_prompt_controls trim message;
  Ok (lit "<|turn>" ++ role ++ [10%N] ++ text ++ lit "<turn|>" ++ [10%N]).

Definition render_gemma4_call (call : ToolCall) : rendered :=
  let arguments := render_gemma4_argument (tcf_arguments (tc_function call)) in
  _ ← reject_gemma4_prompt_controls arguments;
  Ok (lit "<|tool_call>call:" ++ tcf_name (tc_function call) ++ arguments ++ lit "<tool_call|>").
Definition render_gemma4_assistant_turn (message : ChatMessage) : rendered :=
  text ← push_content reject_gemma4_prompt_controls trim message;
  calls ← append_each render_gemma4_call (cm_tool_calls message);
  Ok (lit "<|turn>model" ++ [10%N] ++ text ++ calls ++ lit "<turn|>" ++ [10%N]).

(** The names of the calls by id; a later call takes over an id. *)
Definition tool_names_by_id (messages : list ChatMessage) : gmap str str :=
  foldl (λ names call, <[tc_id call := tcf_name (tc_function call)]> names) ∅ (messages ≫= cm_tool_calls).

Definition response_tool_name (names : gmap str str) (message : ChatMessage) : str :=
  default (lit "unknown") (or_else (cm_tool_call_id message ≫= λ id, names !! id) (cm_name message)).
Definition render_gemma4_tool_response (names : gmap str str) (message : ChatMessage) : rendered :=
  let text := default [] (cm_content message) in
  _ ← reject_gemma4_prompt_controls text;
  Ok (lit "<|tool_response>response:" ++ response_tool_name names message ++ lit "{value:" ++ render_gemma4_string text
      ++ lit "}<tool_response|>").

Definition render_gemma4_message (names : gmap str str) (message : ChatMessage) : rendered :=
  match cm_role message with
  | System => render_gemma4_turn (lit "system") message
  | User => render_gemma4_turn (lit "user") message
  | Assistant => render_gemma4_assistant_turn message
  | Tool => render_gemma4_tool_response names message
  end.

(** The system turn. *)
Definition render_gemma4_system (messages : list ChatMessage) (tools : list ToolDefinition) (options : GemmaPromptOptions)
    (tool_instruction : option str) : rendered :=
  text ← match first_system messages with
         | Some message => push_content reject_gemma4_prompt_controls trim message
         | None => Ok []
         end;
  declarations ← append_each render_gemma4_tool tools;
  Ok (lit "<|turn>system" ++ [10%N] ++ (if g_enable_thinking options then lit "<|think|>" ++ [10%N] else [])
      ++ default [] tool_instruction ++ text ++ declarations ++ lit "<turn|>" ++ [10%N]).

Definition gemma_system_turn (messages : list ChatMessage) (tools : list ToolDefinition) (options : GemmaPromptOptions) : bool :=
  g_enable_thinking options || negb (bool_decide (length tools = 0)) || starts_with_system messages.
Definition render_gemma4_chat_template_with_tool_instruction (messages : list ChatMessage) (tools : list ToolDefinition)
    (options : GemmaPromptOptions) (tool_instruction : option str) : rendered :=
  '(head, index) ← (if gemma_system_turn messages tools options then
      text ← render_gemma4_system messages tools options tool_instruction; Ok (text, message_index messages)
    else Ok ([], 0));
  turns ← append_each (render_gemma4_message (tool_names_by_id messages)) (drop index messages);
  Ok (lit "<bos>" ++ head ++ turns
      ++ if g_add_generation_prompt options
         then lit "<|turn>model" ++ [10%N]
              ++ (if g_enable_thinking options then [] else lit "<|channel>thought" ++ [10%N] ++ lit "<channel|>")
         else []).

(** ** DeepSeek *)
Definition strip_deepseek_history_reasoning (content : str) : str :=
  match split_once (lit "</think>") content with Some (_, answer) => answer | None => content end.

Definition render_deepseek_plain_turn (marker : str) (message : ChatMessage) : rendered :=
  text ← push_content reject_deepseek_prompt_controls id message;
  Ok (marker ++ text).

Definition render_deepseek_call (call : ToolCall) : rendered :=
  let name := tcf_name (tc_function call) in
  let arguments_json := to_string (tcf_arguments (tc_function call)) in
  _ ← reject_deepseek_prompt_controls name;
  _ ← reject_deepseek_prompt_controls arguments_json;
  Ok (lit "<｜tool▁call▁begin｜>function<｜tool▁sep｜>" ++ name ++ [10%N] ++ lit "```json" ++ [10%N] ++ arguments_json
      ++ [10%N] ++ lit "```<｜tool▁call▁end｜>").
Definition render_deepseek_assistant_turn (message : ChatMessage) : rendered :=
  text ← push_content reject_deepseek_prompt_controls strip_deepseek_history_reasoning message;
  calls ← match cm_tool_calls message with
          | [] => Ok []
          | _ => calls ← append_each render_deepseek_call (cm_tool_calls message);
                 Ok (lit "<｜tool▁calls▁begin｜>" ++ calls ++ lit "<｜tool▁calls▁end｜>")
          end;
  Ok (lit "<｜Assistant｜>" ++ text ++ calls ++ lit "<｜end▁of▁sentence｜>").

Definition render_deepseek_tool_response (message : ChatMessage) (tool_output_open : bool) : rendered :=
  let text := default [] (cm_content message) in
  _ ← reject_deepseek_prompt_controls text;
  Ok ((if tool_output_open then [] else lit "<｜tool▁outputs▁begin｜>")
      ++ lit "<｜tool▁output▁begin｜>" ++ text ++ lit "<｜tool▁output▁end｜>").

Definition close_outputs (tool_output_open : bool) : str := if tool_output_open then lit "<｜tool▁outputs▁end｜>" else [].

(** The body of the loop over the messages, with the flag. *)
Definition render_deepseek_message (tool_output_open : bool) (message : ChatMessage) : outcome TemplateError (str * bool) :=
  match cm_role message with
  | System => Ok ([], tool_output_open)
  | User => turn ← render_deepseek_plain_turn (lit "<｜User｜>") message; Ok (close_outputs tool_output_open ++ turn, false)
  | Assistant => turn ← render_deepseek_assistant_turn message; Ok (close_outputs tool_output_open ++ turn, false)
  | Tool => turn ← render_deepseek_tool_response message tool_output_open; Ok (turn, true)
  end.
(** The loop, and what follows it. *)
Fixpoint render_deepseek_turns (tool_output_open : bool) (messages : list ChatMessage) : rendered :=
  match messages with
  | [] => Ok (close_outputs tool_output_open)
  | message :: messages =>
      '(text, tool_output_open) ← render_deepseek_message tool_output_open message;
      rest ← render_deepseek_turns tool_output_open messages;
      Ok (text ++ rest)
  end.

Definition render_deepseek_system (message : ChatMessage) : rendered :=
  if bool_decide (cm_role message = System)
  then push_content reject_deepseek_prompt_controls (λ system, system ++ [10; 10]%N) message else Ok [].

Definition render_deepseek_chat_template_with_tool_instruction (messages : list ChatMessage) (tools : list ToolDefinition)
    (options : DeepSeekPromptOptions) (tool_instruction : option str) : rendered :=
  systems ← append_each render_deepseek_system messages;
  declarations ← match tools with
    | [] => Ok []
    | _ => _ ← reject_deepseek_prompt_controls (tools_to_string tools);
           Ok (default [] tool_instruction ++ tools_to_string tools ++ [10; 10]%N)
    end;
  turns ← render_deepseek_turns false messages;
  Ok (lit "<｜begin▁of▁sentence｜>" ++ systems ++ declarations ++ turns
      ++ if d_add_generation_prompt options
         then lit "<｜Assistant｜>" ++ (if d_enable_thinking options then lit "<think>" ++ [10%N] else [])
         else []).

(** ** Llama *)
Definition llama_header (role : str) : str := lit "<|start_header_id|>" ++ role ++ lit "<|end_header_id|>" ++ [10; 10]%N.

Definition render_llama3_plain_turn (role : str) (message : ChatMessage) : rendered :=
  text ← push_content reject_llama3_prompt_controls trim message;
  Ok (llama_header role ++ text ++ lit "<|eot_id|>").

Fixpoint render_llama3_calls (separated : bool) (calls : list ToolCall) : rendered :=
  match calls with
  | [] => Ok []
  | call :: calls =>
      _ ← reject_llama3_prompt_controls (call_payload call);
      rest ← render_llama3_calls true calls;
      Ok ((if separated then [10%N] else []) ++ call_payload call ++ rest)
  end.
Definition render_llama3_assistant_turn (message : ChatMessage) : rendered :=
  text ← push_content reject_llama3_prompt_controls trim message;
  let separated := match cm_content message with Some content => negb (bool_decide (trim content = [])) | None => false end in
  calls ← render_llama3_calls separated (cm_tool_calls message);
  Ok (llama_header (lit "assistant") ++ text ++ calls ++ lit "<|eot_id|>").

Definition render_llama3_tool_response (message : ChatMessage) : rendered :=
  let text := default [] (cm_content message) in
  _ ← reject_llama3_prompt_controls text;
  Ok (llama_header (lit "ipython") ++ trim text ++ lit "<|eot_id|>").

Definition render_llama3_turn (message : ChatMessage) : rendered :=
  match cm_role message with
  | System => render_llama3_plain_turn (lit "system") message
  | User => render_llama3_plain_turn (lit "user") message
  | Assistant => render_llama3_assistant_turn message
  | Tool => render_llama3_tool_response message
  end.

Definition render_llama3_system (messages : list ChatMessage) (tools : list ToolDefinition) (tool_instruction : option str) : rendered :=
  text ← match first_system messages with
         | Some message => push_content reject_llama3_prompt_controls trim message
         | None => Ok []
         end;
  declarations ← match tools with
    | [] => Ok []
    | _ => _ ← reject_llama3_prompt_controls (tools_to_string tools);
           Ok ((if message_index messages =? 1 then [10; 10]%N else []) ++ default [] tool_instruction ++ tools_to_string tools)
    end;
  Ok (llama_header (lit "system") ++ text ++ declarations ++ lit "<|eot_id|>").

Definition llama_system_turn (messages : list ChatMessage) (tools : list ToolDefinition) : bool :=
  starts_with_system messages || negb (bool_decide (length tools = 0)).
Definition render_llama3_chat_template_with_tool_instruction (messages : list ChatMessage) (tools : list ToolDefinition)
    (options : LlamaPromptOptions) (tool_instruction : option str) : rendered :=
  '(head, index) ← (if llama_system_turn messages tools then
      text ← render_llama3_system messages tools tool_instruction; Ok (text, message_index messages)
    else Ok ([], 0));
  turns ← append_each render_llama3_turn (drop index messages);
  Ok (lit "<|begin_of_text|>" ++ head ++ turns
      ++ if l_add_generation_prompt options then llama_header (lit "assistant") else []).

(** ** All families *)
Definition render_qwen_chatml messages tools options := render_qwen_chatml_with_tool_instruction messages tools options None.
Definition render_gemma4_chat_template messages tools options :=
  render_gemma4_chat_template_with_tool_instruction messages tools options None.
Definition render_deepseek_chat_template messages tools options :=
  render_deepseek_chat_template_with_tool_instruction messages tools options None.
Definition render_llama3_chat_template messages tools options :=
  render_llama3_chat_template_with_tool_instruction messages tools options None.

Definition render_family_chat_template_with_tool_instruction (family : ModelFamily) (messages : list ChatMessage)
    (tools : list ToolDefinition) (tool_instruction : option str) : rendered :=
  match family with
  | Qwen => render_qwen_chatml_with_tool_instruction messages tools (MkQwenOptions false true) tool_instruction
  | DeepSeek => render_deepseek_chat_template_with_tool_instruction messages tools (MkDeepSeekOptions false true) tool_instruction
  | Gemma => render_gemma4_chat_template_with_tool_instruction messages tools (MkGemmaOptions false true) tool_instruction
  | Llama => render_llama3_chat_template_with_tool_instruction messages tools (MkLlamaOptions true) tool_instruction
  end.
Definition render_family_chat_template (family : ModelFamily) (messages : list ChatMessage) (tools : list ToolDefinition) : rendered :=
  render_family_chat_template_with_tool_instruction family messages tools None.

(** ** The adapter of the runtime *)
Definition QWEN_TOOL_INSTRUCTION : str :=
  lit "Tools are available. Return tool invocations inside <tool_call> JSON blocks." ++ [10%N].
Definition DEEPSEEK_TOOL_INSTRUCTION : str :=
  lit "You may call tools by emitting DeepSeek tool call blocks with exact tool names." ++ [10%N].
Definition LLAMA_TOOL_INSTRUCTION : str :=
  lit "Tools are available. To call a function, respond with JSON in the form "
  ++ lit_q "{`name`:`function_name`,`arguments`:{`argument`:`value`}}" ++ lit ". Do not use variables." ++ [10%N].

Definition tool_instruction (family : ModelFamily) (tools : list ToolDefinition) : option str :=
  match tools with
  | [] => None
  | _ => match family with
         | Qwen => Some QWEN_TOOL_INSTRUCTION
         | DeepSeek => Some DEEPSEEK_TOOL_INSTRUCTION
         | Llama => Some LLAMA_TOOL_INSTRUCTION
         | Gemma => None
         end
  end.

Definition render_prompt (family : ModelFamily) (messages : list ChatMessage) (tools : list ToolDefinition) : rendered :=
  render_family_chat_template_with_tool_instruction family messages tools (tool_instruction family tools).

Definition cache_template_id (family : ModelFamily) : str :=
  match family with
  | Qwen => lit "chatml/qwen/v1"
  | DeepSeek => lit "deepseek/chat/v1"
  | Gemma => lit "gemma/text-it/v1"
  | Llama => lit "llama3/instruct/v1"
  end.
Definition chat_template_kwargs_json (family : ModelFamily) : option str :=
  match family with
  | Qwen | Gemma => Some (lit_q "{`enable_thinking`:false}")
  | DeepSeek | Llama => None
  end.

(** The cache context of the family's prompts. *)
Definition cache_context (sha256_hex : str → str) (family : ModelFamily) (schema : option str) : BackendCacheContext :=
  chat_template_with_kwargs sha256_hex (cache_template_id family) schema (chat_template_kwargs_json family).
End render.
