(* ===== verification/ControlTokens.v ===== *)
(** * Control tokens in a text

    Reading a text back as control tokens and the text between them, and when a
    text assembled from both reads back as what it was assembled from. *)
From Stdlib Require Import String.
From stdpp Require Import base sets numbers list.
From S2P Require Import Prelude Text Whitespace.
Open Scope nat_scope.

Inductive Segment := Control (token : str) | Text (text : str).

(** The tokens, each with the text before it, and the text after the last. *)
Definition pieces : Type := list (str * str) * str.
Definition cons_byte (b : N) (p : pieces) : pieces :=
  match p with
  | ([], x) => ([], b :: x)
  | ((y, t) :: l, x) => ((b :: y, t) :: l, x)
  end.
Definition cons_token (t : str) (p : pieces) : pieces := (([], t) :: p.1, p.2).

Definition segment_text (s : Segment) : str := match s with Control t => t | Text x => x end.
Definition flat (l : list Segment) : str := concat (segment_text <$> l).
(** The segments without the borders between adjacent texts. *)
Definition normal : list Segment → pieces :=
  foldr (λ s p, match s with Control t => cons_token t p | Text x => foldr cons_byte p x end) ([], []).

Section tokens.
Context (tokens : list str).

(** [skip] bytes belong to the token before. *)
Fixpoint read_controls (skip : nat) (s : str) : pieces :=
  match s with
  | [] => ([], [])
  | b :: r =>
      match skip with
      | S skip => read_controls skip r
      | O => match List.find (λ t, starts_with t s) tokens with
             | Some t => cons_token t (read_controls (length t - 1) r)
             | None => cons_byte b (read_controls 0 r)
             end
      end
  end.

(** No token of the text, and none that starts in it and ends after it. *)
Definition free (x : str) : Prop := ∀ t, t ∈ tokens → contains x t = false.
Definition free_before (x s : str) : Prop := ∀ i t, i < length x → t ∈ tokens → starts_with t (drop i (x ++ s)) = false.

(** Tokens are not empty, and none starts another. *)
Definition tokens_apart : bool :=
  forallb (λ t, negb (bool_decide (t = []))
    && forallb (λ u, negb (starts_with u t) || bool_decide (u = t)) tokens) tokens.

Fixpoint readable (l : list Segment) : Prop :=
  match l with
  | [] => True
  | Control t :: l => t ∈ tokens ∧ readable l
  | Text x :: l => free_before x (flat l) ∧ readable l
  end.

Lemma flat_cons s l : flat (s :: l) = segment_text s ++ flat l.
Proof. done. Qed.
Lemma flat_app l1 l2 : flat (l1 ++ l2) = flat l1 ++ flat l2.
Proof. unfold flat. by rewrite fmap_app, concat_app. Qed.

Lemma read_skip n t s : length t = n → read_controls n (t ++ s) = read_controls 0 s.
Proof. revert t. induction n as [|n IH]; intros [|b t] [=]; [done|]. by apply IH. Qed.

Lemma read_token t s : tokens_apart = true → t ∈ tokens → read_controls 0 (t ++ s) = cons_token t (read_controls 0 s).
Proof.
  intros Ha Ht. unfold tokens_apart in Ha. rewrite forallb_forall in Ha.
  assert (∀ u, u ∈ tokens → u ≠ [] ∧ ∀ v, v ∈ tokens → starts_with v u = true → v = u) as Hall.
  { intros u Hu%list_elem_of_In. specialize (Ha u Hu). apply andb_true_iff in Ha as [H1 H2]. rewrite forallb_forall in H2.
    split; [intros ->; by rewrite bool_decide_eq_true_2 in H1|]. intros v Hv%list_elem_of_In Hs. specialize (H2 v Hv).
    rewrite Hs in H2. cbn in H2. by apply bool_decide_eq_true in H2. }
  destruct (Hall t Ht) as [Hne _]. destruct t as [|b r]; [done|]. cbn [app read_controls].
  assert (List.find (λ t, starts_with t (b :: r ++ s)) tokens = Some (b :: r)) as ->.
  { destruct (List.find _ tokens) as [u|] eqn:Hf.
    - apply find_some in Hf as [Hu%list_elem_of_In Hs]. apply starts_with_app in Hs as [q Hq]. f_equal.
      change (b :: r ++ s) with ((b :: r) ++ s) in Hq. destruct (app_eq_app _ _ _ _ Hq) as [m [[H _]|[H _]]].
      + apply (Hall (b :: r) Ht); [done|]. apply starts_with_app. by exists m.
      + symmetry. apply (Hall u Hu); [done|]. apply starts_with_app. by exists m.
    - apply list_elem_of_In in Ht. pose proof (find_none _ _ Hf _ Ht) as Hs. cbv beta in Hs.
      change (b :: r ++ s) with ((b :: r) ++ s) in Hs.
      by rewrite (proj2 (starts_with_app (b :: r) ((b :: r) ++ s)) (ex_intro _ s eq_refl)) in Hs. }
  f_equal. rewrite (read_skip _ r); [done|]. cbn. lia.
Qed.

Lemma read_free_text x s : free_before x s → read_controls 0 (x ++ s) = foldr cons_byte (read_controls 0 s) x.
Proof.
  induction x as [|b x IH]; intros Hf; [done|]. cbn [app read_controls foldr].
  assert (List.find (λ t, starts_with t (b :: x ++ s)) tokens = None) as ->.
  { destruct (List.find _ tokens) as [t|] eqn:E; [|done]. apply find_some in E as [Ht%list_elem_of_In Hs].
    specialize (Hf 0 t ltac:(cbn; lia) Ht). cbn [app drop] in Hf. congruence. }
  f_equal. apply IH. intros i t Hi Ht. apply (Hf (S i) t); [cbn; lia|done].
Qed.

(** A readable text reads back as its segments. *)
Lemma reads_back l : tokens_apart = true → readable l → read_controls 0 (flat l) = normal l.
Proof.
  intros Ha. induction l as [|[t|x] l IH]; [done|intros [Ht Hl]..]; rewrite flat_cons; cbn [segment_text].
  - rewrite read_token by done. by rewrite IH.
  - rewrite read_free_text by done. by rewrite IH.
Qed.

(** ** Borders *)
Definition ends_ok (b : N) : bool := forallb (λ t, forallb (λ c, negb (c =? b)%N) (removelast t)) tokens.
Definition starts_ok (b : N) : bool := forallb (λ t, forallb (λ c, negb (c =? b)%N) (tail t)) tokens.

Lemma starts_at (t x s : str) i : i < length x → starts_with t (drop i (x ++ s)) = true →
  (i + length t ≤ length x ∧ starts_with t (drop i x) = true)
  ∨ ∃ u v, t = u ++ v ∧ u = drop i x ∧ v ≠ [] ∧ ∃ q, s = v ++ q.
Proof.
  intros Hi. rewrite drop_app_le by lia. intros [q Hq]%starts_with_app.
  destruct (app_eq_app _ _ _ _ Hq) as [m [[H1 H2]|[H1 H2]]].
  - left. split; [|apply starts_with_app; by exists m].
    apply (f_equal length) in H1. rewrite length_drop, length_app in H1. lia.
  - destruct m as [|c m].
    + left. rewrite app_nil_r in H1. subst t. split; [rewrite length_drop; lia|]. apply starts_with_app. exists []. by rewrite app_nil_r.
    + right. exists (drop i x), (c :: m). split_and!; [done..|]. by exists q.
Qed.

Lemma free_inside x i t : free x → t ∈ tokens → starts_with t (drop i x) = true → i ≤ length x → False.
Proof.
  intros Hf Ht Hs Hi. specialize (Hf t Ht). unfold contains in Hf. destruct (find t x) eqn:E; [done|].
  apply (proj1 (find_None t x) E i). by split.
Qed.

Lemma last_not_final {A} (u v : list A) b : last u = Some b → v ≠ [] → b ∈ removelast (u ++ v).
Proof.
  intros Hb Hv. rewrite removelast_app by done. apply elem_of_app. left. apply last_Some in Hb as [l ->]. set_solver.
Qed.

Lemma border_left x s b : free x → last x = Some b → ends_ok b = true → free_before x s.
Proof.
  intros Hf Hb Hok i t Hi Ht. destruct (starts_with t _) eqn:E; [|done]. exfalso.
  apply (starts_at t x s i Hi) in E as [[Hl Hs]|(u & v & -> & Hu & Hv & q & ->)]; [by eapply (free_inside x i); [..|lia]|].
  assert (last u = Some b) as Hlast.
  { subst u. rewrite <- (take_drop i x), last_app in Hb. destruct (last (drop i x)) eqn:El; [by injection Hb as ->|].
    apply last_None, (f_equal length) in El. rewrite length_drop in El. cbn in El. lia. }
  unfold ends_ok in Hok. rewrite forallb_forall in Hok. specialize (Hok _ (proj1 (list_elem_of_In _ _) Ht)).
  rewrite forallb_forall in Hok. specialize (Hok b (proj1 (list_elem_of_In _ _) (last_not_final u v b Hlast Hv))).
  by rewrite N.eqb_refl in Hok.
Qed.

Lemma border_right x s : free x → match s with [] => True | b :: _ => starts_ok b = true end → free_before x s.
Proof.
  intros Hf Hok i t Hi Ht. destruct (starts_with t _) eqn:E; [|done]. exfalso.
  apply (starts_at t x s i Hi) in E as [[Hl Hs]|(u & v & -> & Hu & Hv & q & ->)]; [by eapply (free_inside x i); [..|lia]|].
  destruct v as [|b v]; [done|]. cbn [app] in Hok.
  destruct u as [|a u].
  { symmetry in Hu. apply (f_equal length) in Hu. rewrite length_drop in Hu. cbn in Hu. lia. }
  unfold starts_ok in Hok. rewrite forallb_forall in Hok. specialize (Hok _ (proj1 (list_elem_of_In _ _) Ht)).
  cbn [app tail] in Hok. rewrite forallb_forall in Hok. specialize (Hok b). rewrite N.eqb_refl in Hok. cbn in Hok.
  assert (In b (u ++ b :: v)) as Hin by (apply list_elem_of_In; set_solver). by specialize (Hok Hin).
Qed.

(** ** Readable texts in parts *)

(** Segments after which any readable ones can follow. *)
Definition closed (l : list Segment) : Prop := ∀ l', readable l' → readable (l ++ l').

Lemma closed_readable l : closed l → readable l.
Proof. intros H. specialize (H [] I). by rewrite app_nil_r in H. Qed.
Lemma closed_nil : closed [].
Proof. by intros l' Hl. Qed.
Lemma closed_app l1 l2 : closed l1 → closed l2 → closed (l1 ++ l2).
Proof. intros H1 H2 l' Hl. rewrite <- app_assoc. by apply H1, H2. Qed.
Lemma closed_bind {A} (f : A → list Segment) l : (∀ x, x ∈ l → closed (f x)) → closed (l ≫= f).
Proof.
  induction l as [|x l IH]; intros H; [apply closed_nil|]. apply closed_app; [apply H; by left|].
  apply IH. intros y Hy. apply H. by right.
Qed.
Lemma closed_control t l : t ∈ tokens → closed l → closed (Control t :: l).
Proof. intros Ht Hl l' Hl'. split; [done|]. by apply Hl. Qed.
Lemma closed_text x l b : free x → last x = Some b → ends_ok b = true → closed l → closed (Text x :: l).
Proof. intros Hf Hb Hok Hl l' Hl'. split; [by eapply border_left|]. by apply Hl. Qed.

(** A text before something that starts as no token goes on. *)
Definition opens (l : list Segment) : Prop := ∃ b s, flat l = b :: s ∧ starts_ok b = true.
Lemma closed_before x l : free x → opens l → closed l → closed (Text x :: l).
Proof.
  intros Hf (b & s & Hb & Hok) Hl l' Hl'. split; [|by apply Hl]. apply border_right; [done|].
  cbn [app]. rewrite flat_app, Hb. done.
Qed.
Lemma opens_text x l b s : x = b :: s → starts_ok b = true → opens (Text x :: l).
Proof. intros -> Hok. by exists b, (s ++ flat l). Qed.
End tokens.

Lemma opens_control tokens t l b s : t = b :: s → starts_ok tokens b = true → opens tokens (Control t :: l).
Proof. intros -> Hok. by exists b, (s ++ flat l). Qed.
Lemma opens_bind {A} tokens (f : A → list Segment) l l2 : (∀ x, opens tokens (f x)) → opens tokens l2 → opens tokens ((l ≫= f) ++ l2).
Proof.
  intros Hf H2. destruct l as [|x l]; [done|]. cbn. destruct (Hf x) as (b & s & Hb & Hok). exists b. eexists.
  split; [|done]. rewrite !flat_app, Hb. reflexivity.
Qed.

(** Evaluated on concrete texts. *)
Definition free_ok (tokens : list str) (x : str) : bool := forallb (λ t, negb (contains x t)) tokens.
Lemma free_check tokens x : free_ok tokens x = true → free tokens x.
Proof. unfold free_ok. rewrite forallb_forall. intros H t Ht%list_elem_of_In. by apply negb_true_iff, H. Qed.

(** A part of a free text is free. *)
Lemma free_part tokens a x b : free tokens (a ++ x ++ b) → free tokens x.
Proof.
  intros H t Ht. specialize (H t Ht). unfold contains in *. destruct (find t x) as [i|] eqn:E; [|done].
  apply find_Some in E as [[Hi Ho] _]. destruct (find t (a ++ x ++ b)) eqn:E2; [done|].
  exfalso. apply (proj1 (find_None _ _) E2 (length a + i)). split; [rewrite !length_app; lia|].
  rewrite drop_app_ge by lia. replace (length a + i - length a) with i by lia.
  rewrite drop_app_le by lia. apply starts_with_app in Ho as [r ->]. apply starts_with_app. exists (r ++ b). by rewrite app_assoc.
Qed.

Lemma trim_end_loop_prefix fuel s : ∃ r, s = trim_end_loop fuel s ++ r.
Proof.
  revert s. induction fuel as [|fuel IH]; intros s; cbn [trim_end_loop]; [exists []; by rewrite app_nil_r|].
  destruct (trailing_space s) as [n|]; [|exists []; by rewrite app_nil_r].
  destruct (IH (take (length s - n) s)) as [r Hr]. exists (r ++ drop (length s - n) s). by rewrite app_assoc, <- Hr, take_drop.
Qed.
Lemma trim_part s : ∃ a b, s = a ++ trim s ++ b.
Proof.
  destruct (trim_start_suffix s) as (k & _ & Hk). destruct (trim_end_loop_prefix (length (trim_start s)) (trim_start s)) as [r Hr].
  exists (take k s), r. unfold trim, trim_end. rewrite <- Hr, Hk. by rewrite take_drop.
Qed.
Lemma free_trim tokens x : free tokens x → free tokens (trim x).
Proof. destruct (trim_part x) as (a & b & Hx). rewrite Hx at 1. apply free_part. Qed.

(** A text without the character that every token starts with. *)
Definition tokens_start (tokens : list str) (c : N) : bool := forallb (λ t, bool_decide (head t = Some c)) tokens.
Lemma closed_without tokens c x l : tokens_start tokens c = true → c ∉ x → closed tokens l → closed tokens (Text x :: l).
Proof.
  intros Hs Hx Hl l' Hl'. split; [|by apply Hl]. intros i t Hi Ht. unfold tokens_start in Hs. rewrite forallb_forall in Hs.
  specialize (Hs t (proj1 (list_elem_of_In _ _) Ht)). apply bool_decide_eq_true in Hs. destruct t as [|b t]; [done|].
  cbn in Hs. injection Hs as ->. destruct (starts_with _ _) eqn:E; [|done]. exfalso. apply Hx.
  apply starts_with_app in E as [r Hr]. apply list_elem_of_lookup. exists i.
  rewrite <- (lookup_app_l x (flat (l ++ l'))) by done. by rewrite <- (Nat.add_0_r i), <- lookup_drop, Hr.
Qed.
