(* ===== verification/ChatTemplateTheorems.v ===== *)
(** * Prompts read back as the conversation they were written from

    Whatever the texts of a request, the control tokens of its prompt are those
    of the template, in the order of its messages: no message, tool or call can
    add, hide or move one. *)
From Stdlib Require Import String.
From stdpp Require Import base gmap sets numbers list.
From S2P Require Import Prelude Text Whitespace Api Json ToolParse CanonicalJson ControlTokens TemplateError ChatTemplate.
Open Scope nat_scope.

Section checks.
Context (tokens : list str) (request_text : str → Prop).

(** The error of a rendering: a text of the request contains a control token. *)
Definition refused (e : TemplateError) : Prop :=
  ∃ t x, e = ReservedControlToken t ∧ t ∈ tokens ∧ request_text x ∧ contains x t = true.

Definition checks {A} (o : outcome TemplateError A) (Q : A → Prop) : Prop :=
  match o with Ok a => Q a | Err e => refused e | Panic => False end.
(** What is appended is the text of segments that others can follow. *)
Definition lays (o : rendered) (l : list Segment) : Prop := checks o (λ out, out = flat l ∧ closed tokens l).

Lemma checks_bind {A B} (o : outcome TemplateError A) (f : A → outcome TemplateError B) Q R :
  checks o Q → (∀ a, Q a → checks (f a) R) → checks (o ≫= f) R.
Proof. destruct o; cbn; auto. Qed.
Lemma checks_mono {A} (o : outcome TemplateError A) (Q R : A → Prop) : checks o Q → (∀ a, Q a → R a) → checks o R.
Proof. destruct o; cbn; auto. Qed.

Lemma checks_reject x : request_text x → checks (reject tokens x) (λ _, free tokens x).
Proof.
  intros Hx. unfold reject. destruct (first_min _ _) as [[i t]|] eqn:E; cbn.
  - apply first_min_Some in E as [Hin _];
      [|intros x1 y1 z1 H1%Nat.ltb_ge H2%Nat.ltb_ge; apply Nat.ltb_ge; lia|intros x1 y1 H1%Nat.ltb_lt; apply Nat.ltb_ge; lia].
    apply list_elem_of_omap in Hin as (u & Hu & Hf).
    destruct (find u x) as [j|] eqn:Ef; [|done]. cbn in Hf. injection Hf as -> ->. exists t, x. split_and!; [done..|].
    unfold contains. by rewrite Ef.
  - apply first_min_None in E. intros t Ht. unfold contains. destruct (find t x) as [j|] eqn:Ef; [|done].
    assert ((j, t) ∈ omap (λ token, (λ index, (index, token)) <$> find token x) tokens) as Hin.
    { apply list_elem_of_omap. exists t. by rewrite Ef. }
    rewrite E in Hin. by apply not_elem_of_nil in Hin.
Qed.

Lemma checks_content f m : (∀ x, cm_content m = Some x → request_text x) →
  checks (push_content (reject tokens) f m)
    (λ out, out = match cm_content m with Some x => f x | None => [] end ∧ ∀ x, cm_content m = Some x → free tokens x).
Proof.
  intros Hm. unfold push_content. destruct (cm_content m) as [x|]; [|by cbn].
  eapply checks_bind; [by apply checks_reject, Hm|]. intros [] Hf. cbn in Hf |- *. split; [done|]. intros y [= H]. by subst.
Qed.

Lemma lays_each {A} (f : A → rendered) (g : A → list Segment) l : (∀ x, x ∈ l → lays (f x) (g x)) → lays (append_each f l) (l ≫= g).
Proof.
  induction l as [|x l IH]; intros H; cbn [append_each]; [by split; [|apply closed_nil]|].
  eapply checks_bind; [apply H; by left|]. intros a [-> Ha].
  eapply checks_bind; [apply IH; intros y Hy; apply H; by right|]. intros b [-> Hb].
  change ((x :: l) ≫= g) with (g x ++ (l ≫= g)). split; [by rewrite flat_app|by apply closed_app].
Qed.
End checks.

(** Closing and opening of segments whose tokens and texts are concrete, or
    known to be free. *)
Ltac in_tokens := apply (bool_decide_unpack _); vm_compute; exact I.
Ltac opening := first
  [ eapply opens_control; [reflexivity|vm_compute; reflexivity]
  | eapply opens_text; [reflexivity|vm_compute; reflexivity]
  | apply opens_bind; [intros ?; opening|opening] ].
Ltac closing := first
  [ apply closed_nil
  | apply closed_control; [in_tokens|closing]
  | apply closed_before; [assumption|opening|closing]
  | eapply closed_text; [apply free_check; vm_compute; reflexivity|vm_compute; reflexivity|vm_compute; reflexivity|closing]
  | apply closed_before; [apply free_check; vm_compute; reflexivity|opening|closing]
  | apply closed_app; [closing|closing]
  | assumption ].
Ltac flatten := repeat (rewrite flat_app || rewrite flat_cons); cbn [segment_text flat fmap list_fmap concat]; rewrite ?app_nil_r, <- ?app_assoc; reflexivity.

Definition content_of (m : ChatMessage) : str := default [] (cm_content m).

(** ** Layouts *)
Section layouts.
Variable float_text : N → str.
Variables (messages : list ChatMessage) (tools : list ToolDefinition).

(** The turns without a system message that the first turn took in. *)
Definition later_messages (taken : bool) : list ChatMessage := drop (if taken then message_index messages else 0) messages.
(** A leading system message. *)
Definition system_content : str := match first_system messages with Some m => content_of m | None => [] end.

Definition qwen_call_layout (c : ToolCall) : list Segment :=
  [Control (lit "<tool_call>"); Text (call_payload float_text c); Control (lit "</tool_call>")].
Definition qwen_turn_layout (m : ChatMessage) : list Segment :=
  [Control (lit "<|im_start|>"); Text (role_as_str (cm_role m) ++ [10%N]); Text (content_of m)]
  ++ ((if bool_decide (cm_role m = Assistant) then cm_tool_calls m else []) ≫= qwen_call_layout)
  ++ [Control (lit "<|im_end|>"); Text [10%N]].
Definition qwen_tools_layout : list Segment :=
  [Control (lit "<|im_start|>"); Text (lit "system" ++ [10%N])]
  ++ match first_system messages ≫= cm_content with Some x => [Text x; Text [10; 10]%N] | None => [] end
  ++ [Text (lit "Tools are available. Return tool invocations inside "); Control (lit "<tool_call>");
      Text (lit " JSON blocks." ++ [10%N]); Text (tools_to_string float_text tools); Control (lit "<|im_end|>"); Text [10%N]].
Definition qwen_layout : list Segment :=
  match tools with [] => [] | _ => qwen_tools_layout end
  ++ (later_messages (negb (bool_decide (length tools = 0))) ≫= qwen_turn_layout)
  ++ [Control (lit "<|im_start|>"); Text (lit "assistant" ++ [10%N]); Control (lit "<think>"); Text [10; 10]%N;
      Control (lit "</think>"); Text [10; 10]%N].
End layouts.

(** The texts of a request that its prompt contains. *)
Definition call_texts (float_text : N → str) (family : ModelFamily) (c : ToolCall) : list str :=
  let f := tc_function c in
  match family with
  | Qwen | Llama => [call_payload float_text c]
  | DeepSeek => [tcf_name f; json_text float_text (tcf_arguments f)]
  | Gemma => [render_gemma4_argument float_text (tcf_arguments f)]
  end.
Definition tool_texts (float_text : N → str) (family : ModelFamily) (tools : list ToolDefinition) : list str :=
  match family with
  | Gemma => render_gemma4_tool_definition float_text <$> tools
  | _ => [tools_to_string float_text tools]
  end.
Definition request_text (float_text : N → str) (family : ModelFamily) (messages : list ChatMessage) (tools : list ToolDefinition)
    (x : str) : Prop :=
  (∃ m, m ∈ messages ∧ cm_content m = Some x)
  ∨ (∃ m c, m ∈ messages ∧ c ∈ cm_tool_calls m ∧ x ∈ call_texts float_text family c)
  ∨ x ∈ tool_texts float_text family tools.

Lemma content_text float_text family messages tools m : m ∈ messages →
  ∀ x, cm_content m = Some x → request_text float_text family messages tools x.
Proof. intros Hm x Hx. left. by exists m. Qed.
Lemma call_text float_text family messages tools m c x : m ∈ messages → c ∈ cm_tool_calls m → x ∈ call_texts float_text family c →
  request_text float_text family messages tools x.
Proof. intros Hm Hc Hx. right. left. by exists m, c. Qed.
Lemma tools_text float_text family messages tools x : x ∈ tool_texts float_text family tools →
  request_text float_text family messages tools x.
Proof. intros Hx. by right; right. Qed.

Lemma drop_in {A} (x : A) n l : x ∈ drop n l → x ∈ l.
Proof. intros H. rewrite <- (take_drop n l). apply elem_of_app. by right. Qed.

Lemma first_system_in messages m : first_system messages = Some m → m ∈ messages ∧ cm_role m = System.
Proof.
  unfold first_system. destruct messages as [|x l]; cbn; [done|]. case_bool_decide; [|done]. intros [= ->]. split; [by left|done].
Qed.

Lemma content_free tokens (f : str → str) m out : free tokens [] → f [] = [] →
  out = match cm_content m with Some x => f x | None => [] end → (∀ x, cm_content m = Some x → free tokens x) →
  out = f (content_of m) ∧ free tokens (content_of m).
Proof.
  intros Hnil Hf -> Hx. unfold content_of. destruct (cm_content m) as [x|]; cbn; [by split; [|apply Hx]|done].
Qed.
Ltac nil_free := apply free_check; vm_compute; reflexivity.

Section qwen.
Context (float_text : N → str) (messages : list ChatMessage) (tools : list ToolDefinition).
Local Abbreviation T := QWEN_RESERVED.
Local Abbreviation P := (request_text float_text Qwen messages tools).

Lemma qwen_turn_lays m : m ∈ messages → lays T P (render_qwen_turn float_text m) (qwen_turn_layout float_text m).
Proof.
  intros Hm. pose proof (content_text float_text Qwen messages tools m Hm) as Hx.
  unfold render_qwen_turn, qwen_turn_layout. destruct (cm_role m); cbn [role_as_str].
  3: { rewrite bool_decide_eq_true_2 by done. unfold render_assistant. eapply checks_bind; [by apply checks_content|].
    intros text [Ht Hf]. destruct (content_free T id m text ltac:(nil_free) eq_refl Ht Hf) as [-> Hfree]. cbn [id].
    eapply checks_bind.
    { apply (lays_each T P _ (qwen_call_layout float_text)). intros c Hc. unfold render_assistant_call.
      eapply checks_bind; [apply checks_reject, (call_text _ _ _ _ m c); [done..|by left]|]. intros [] Hp. cbn in Hp |- *.
      split; [flatten|]. unfold qwen_call_layout. closing. }
    intros calls [-> Hcalls]. split; [flatten|closing]. }
  all: rewrite bool_decide_eq_false_2 by done; unfold render_plain; eapply checks_bind; [by apply checks_content|];
    intros text [Ht Hf]; destruct (content_free T id m text ltac:(nil_free) eq_refl Ht Hf) as [-> Hfree]; split; [flatten|closing].
Qed.

Lemma qwen_tools_lays :
  lays T P (render_qwen_tools float_text messages tools (Some QWEN_TOOL_INSTRUCTION)) (qwen_tools_layout float_text messages tools).
Proof.
  unfold render_qwen_tools, qwen_tools_layout. eapply checks_bind; [apply checks_reject, tools_text; by left|].
  intros [] Hp. cbn beta in Hp.
  assert (∃ s, tools_to_string float_text tools = 91%N :: s) as (s & Hs) by (by eexists).
  assert (∀ l, opens T (Text (tools_to_string float_text tools) :: l)) as Hopen.
  { intros l. eapply opens_text; [exact Hs|vm_compute; reflexivity]. }
  destruct (first_system messages) as [m|] eqn:Em.
  - apply first_system_in in Em as [Hm _].
    eapply checks_bind; [apply checks_content; by eapply content_text|]. intros text [-> Hf]. cbn [mbind option_bind].
    destruct (cm_content m) as [x|]; (split; [flatten|]).
    + specialize (Hf x eq_refl). closing.
    + closing.
  - eapply (checks_bind _ _ _ _ (λ text, text = [])); [done|]. intros text ->. cbn [mbind option_bind]. split; [flatten|closing].
Qed.

Lemma qwen_lays : lays T P (render_prompt float_text Qwen messages tools) (qwen_layout float_text messages tools).
Proof.
  unfold render_prompt, render_family_chat_template_with_tool_instruction, render_qwen_chatml_with_tool_instruction, qwen_layout.
  eapply (checks_bind _ _ _ _ (λ '(head, index), head = flat match tools with [] => [] | _ => qwen_tools_layout float_text messages tools end
    ∧ closed T match tools with [] => [] | _ => qwen_tools_layout float_text messages tools end
    ∧ index = if negb (bool_decide (length tools = 0)) then message_index messages else 0)).
  - pose proof qwen_tools_lays as Ht. destruct tools as [|t ts]; [by split_and!; [|apply closed_nil|]|].
    eapply checks_bind; [exact Ht|]. intros text [-> Hc]. by split_and!.
  - intros [head index] (-> & Hc & ->). eapply checks_bind.
    { apply (lays_each T P _ (qwen_turn_layout float_text)). intros m Hm. apply qwen_turn_lays.
      by eapply drop_in. }
    intros turns [-> Hturns]. cbn [q_add_generation_prompt q_enable_thinking]. unfold later_messages. split; [flatten|]. closing.
Qed.
End qwen.
