(* ===== verification/Runtime.v ===== *)
(** * The runtime: from a request to the backend and back

    Models the entry points of [crates/llm-runtime] ([runtime.rs], [chat.rs],
    [completions.rs]): validation under the runtime's limits, the capability
    check of [capabilities.rs], the choice of the chat adapter and the chat
    context of [adapters.rs], the backend request of [backend_request.rs] with
    its types in [llm-backend-contracts], and the cache identity of
    [cache_identity.rs].

    An entry point runs in the state of the requests it has sent to the backend.
    The backend is an interface: what it says about itself, and its answers. *)
From Stdlib Require Import String SpecFloat.
From stdpp Require Import base sets numbers list.
From S2P Require Import Prelude Text Json Api ToolParse TemplateError Stop Backend CompletionStream.
From S2P Require Import ToolCalls JsonMode ChatStream Validation CanonicalJson ChatTemplate.
Open Scope N_scope.

(** ** The backend's request types *)
Inductive SamplingConfig := Greedy | TopP (temperature top_p : spec_float).
Definition standard : SamplingConfig := TopP f32_one f32_one.
Definition from_openai_controls (temperature top_p : option spec_float) : outcome BackendError SamplingConfig :=
  match validate_sampling_controls temperature top_p with
  | Ok _ =>
      let topp := TopP (default f32_one temperature) (default f32_one top_p) in
      Ok match temperature, top_p with
         | Some t, _ => if SFeqb t f32_zero then Greedy else topp
         | None, None => standard
         | _, _ => topp
         end
  | Err e => Err (MkBackendError (InvalidSamplingConfig (message e)))
  | Panic => Panic
  end.

Inductive BackendChatRole := BSystem | BUser | BAssistant | BTool.
Record BackendToolCallFunction := MkBackendFunction { bf_name : str; bf_arguments : value }.
Record BackendToolCall := MkBackendToolCall {
  btc_id : str;
  btc_call_type : BackendToolCallType;
  btc_function : BackendToolCallFunction;
}.
Record BackendChatMessage := MkBackendMessage {
  bm_role : BackendChatRole;
  bm_content : option str;
  bm_name : option str;
  bm_tool_call_id : option str;
  bm_tool_calls : list BackendToolCall;
}.
Record BackendChatContext := MkBackendContext {
  bc_messages : list BackendChatMessage;
  bc_tools : list BackendToolDefinition;
}.
Record BackendCompletionRequest := MkBackendCompletion { bcr_prompt : str; bcr_cache_context : BackendCacheContext }.
Record BackendChatRequest := MkBackendChat {
  bch_prompt : str;
  bch_chat_context : BackendChatContext;
  bch_required_tool_choice : option BackendToolChoice;
  bch_json_object_mode : bool;
  bch_cache_context : BackendCacheContext;
}.
Inductive BackendRequestKind :=
| RawCompletion (request : BackendCompletionRequest)
| Chat (request : BackendChatRequest).

(** The admission hook is a shared object, here its identity. *)
Record BackendRequest := MkBackendRequest {
  br_model : str;
  br_max_tokens : option N;
  br_sampling : SamplingConfig;
  br_kind : BackendRequestKind;
  br_prefill_chunk_admission : option N;
}.
Definition br_prompt (r : BackendRequest) : str :=
  match br_kind r with RawCompletion c => bcr_prompt c | Chat c => bch_prompt c end.
Definition br_cache_context (r : BackendRequest) : BackendCacheContext :=
  match br_kind r with RawCompletion c => bcr_cache_context c | Chat c => bch_cache_context c end.
Definition with_prefill_chunk_admission (admission : N) (r : BackendRequest) : BackendRequest :=
  MkBackendRequest (br_model r) (br_max_tokens r) (br_sampling r) (br_kind r) (Some admission).

Record BackendCapabilities := MkCapabilities {
  raw_completions : bool;
  chat_completions : bool;
  streaming : bool;
  tool_call_support : bool;
  json_object_support : bool;
  sampling_greedy : bool;
  sampling_top_p : bool;
}.

(** What the runtime reads of [BackendModelMetadata]. *)
Record BackendModelMetadata := MkMetadata { md_backend : str; md_family : option str }.

(** [ModelBackend]: what the runtime calls. *)
Class ModelBackend := {
  model_metadata : BackendModelMetadata;
  capabilities : BackendCapabilities;
  generate_with_cancel : BackendRequest → BackendOutput + BackendError;
  generate_stream_with_cancel : BackendRequest → list (BackendStreamChunk + BackendError);
}.

(** ** Conversions *)
Definition backend_chat_role (role : ChatRole) : BackendChatRole :=
  match role with System => BSystem | User => BUser | Assistant => BAssistant | Tool => BTool end.
Definition backend_tool_call (call : ToolCall) : BackendToolCall :=
  MkBackendToolCall (tc_id call) match tc_type call with Function => BFunction end
    (MkBackendFunction (tcf_name (tc_function call)) (tcf_arguments (tc_function call))).
Definition backend_chat_message (message : ChatMessage) : BackendChatMessage :=
  MkBackendMessage (backend_chat_role (cm_role message)) (cm_content message) (cm_name message) (cm_tool_call_id message)
    (backend_tool_call <$> cm_tool_calls message).
Definition backend_tool_definition (tool : ToolDefinition) : BackendToolDefinition :=
  let f := td_function tool in MkBackendTool (fd_name f) (fd_description f) (fd_parameters f).
Definition backend_chat_context (messages : list ChatMessage) (tools : list ToolDefinition) : BackendChatContext :=
  MkBackendContext (backend_chat_message <$> messages) (backend_tool_definition <$> tools).

(** ** Errors of the calls, as runtime errors *)
Definition map_error {E F A} (f : E → F) (o : outcome E A) : outcome F A :=
  match o with Ok a => Ok a | Err e => Err (f e) | Panic => Panic end.
Definition unsupported {A} (message : str) : outcome RuntimeError A := Err (Api (unsupported_capability message)).
Definition sampling_of (temperature top_p : option spec_float) : outcome RuntimeError SamplingConfig :=
  map_error runtime_error_from (from_openai_controls temperature top_p).

(** ** Capabilities *)
Definition validate_streaming_capability (c : BackendCapabilities) (stream : bool) : outcome RuntimeError unit :=
  if stream && negb (streaming c) then unsupported (lit "backend does not advertise streaming support") else Ok tt.
Definition validate_sampling_capability (c : BackendCapabilities) (sampling : SamplingConfig) : outcome RuntimeError unit :=
  match sampling with
  | Greedy => if sampling_greedy c then Ok tt else unsupported (lit "backend does not advertise greedy sampling support")
  | TopP _ _ =>
      if sampling_top_p c then Ok tt
      else unsupported (lit "backend does not advertise top-p sampling support; use temperature 0 for greedy decoding")
  end.
Definition chat_request_uses_tools (request : ChatCompletionRequest) : bool :=
  negb (bool_decide (ch_tools request = []))
  || existsb (λ message, bool_decide (cm_role message = Tool) || bool_decide (is_Some (cm_tool_call_id message))
       || negb (bool_decide (cm_tool_calls message = []))) (ch_messages request).

Definition validate_chat_request_capabilities `{!ModelBackend} (request : ChatCompletionRequest) (stream : bool)
    : outcome RuntimeError unit :=
  if negb (chat_completions capabilities) then unsupported (lit "backend does not advertise chat completion support")
  else
    _ ← validate_streaming_capability capabilities stream;
    sampling ← sampling_of (ch_temperature request) (ch_top_p request);
    _ ← validate_sampling_capability capabilities sampling;
    if chat_request_uses_tools request && negb (tool_call_support capabilities)
    then unsupported (lit "backend does not advertise tool-call support")
    else if json_object_mode request && negb (json_object_support capabilities)
    then unsupported (lit "backend does not advertise json_object response_format support")
    else Ok tt.
Definition validate_completion_request_capabilities `{!ModelBackend} (request : CompletionRequest) (stream : bool)
    : outcome RuntimeError unit :=
  if negb (raw_completions capabilities) then unsupported (lit "backend does not advertise raw completion support")
  else
    _ ← validate_streaming_capability capabilities stream;
    sampling ← sampling_of (cr_temperature request) (cr_top_p request);
    validate_sampling_capability capabilities sampling.

(** ** The chat adapter *)
Definition family_parse_error (slug : str) : str :=
  lit "unsupported model family `" ++ slug ++ lit "`; expected `qwen`, `deep_seek`, `gemma`, or `llama`".
Definition chat_adapter_for_metadata (metadata : BackendModelMetadata) : outcome RuntimeError ModelFamily :=
  match md_family metadata with
  | None => unsupported (lit "backend `" ++ md_backend metadata ++ lit "` did not declare a model family for chat rendering")
  | Some family =>
      match parse_slug family with
      | Some f => Ok f
      | None => unsupported (family_parse_error family ++ lit " for chat rendering")
      end
  end.
Definition chat_adapter `{!ModelBackend} : outcome RuntimeError ModelFamily := chat_adapter_for_metadata model_metadata.

(** ** Validated requests *)
Record Validated (A : Type) := MkValidated { inner : A; request_limits : RequestLimits }.
Arguments MkValidated {A}.
Arguments inner {A}.
Arguments request_limits {A}.
Class ValidateRequest (A : Type) := validate_with_limits : A → RequestLimits → outcome ApiError unit.
Definition into_validated_with_limits `{ValidateRequest A} (request : A) (limits : RequestLimits)
    : outcome RuntimeError (Validated A) :=
  map_error Api (_ ← validate_with_limits request limits; Ok (MkValidated request limits)).

Record RuntimeOptions := MkOptions { ro_normalization : ToolSchemaNormalization; ro_limits : RequestLimits }.

#[export] Instance RequestLimits_eq_dec : EqDecision RequestLimits.
Proof. solve_decision. Defined.
Definition ensure_runtime_validated `{ValidateRequest A} (options : RuntimeOptions) (request : Validated A)
    : outcome RuntimeError (Validated A) :=
  if bool_decide (request_limits request = ro_limits options) then Ok request
  else into_validated_with_limits (inner request) (ro_limits options).

(** ** Whole responses *)
Record ChatCompletionChoice := MkChatChoice {
  cc_index : N;
  cc_message : ChatMessage;
  cc_finish_reason : option FinishReason;
}.
Record ChatCompletionResponse := MkChatResponse {
  cres_id : str;
  cres_object : str;
  cres_created : Z;
  cres_model : str;
  cres_choices : list ChatCompletionChoice;
  cres_usage : Usage;
}.
Record CompletionResponse := MkCompletionResponse {
  tres_id : str;
  tres_object : str;
  tres_created : Z;
  tres_model : str;
  tres_choices : list CompletionChoice;
  tres_usage : Usage;
}.

Section runtime.
(** [serde_json]'s rendering of floating-point numbers and its parsers, the
    Unicode tables, SHA-256 in hexadecimal, and the UUIDs of parsed calls. *)
Variable float_text : N → str.
Variables (from_str : str → value + str) (string_from_str : str → str + str).
Variables (is_alphanumeric : N → bool) (to_lowercase : N → list N).
Variable sha256_hex : list N → str.
Variable uuid : nat → N → str.
Context `{!ModelBackend}.
Variable options : RuntimeOptions.

#[local] Instance validate_chat : ValidateRequest ChatCompletionRequest := validate_chat_request float_text.
#[local] Instance validate_completion : ValidateRequest CompletionRequest := validate_completion_request.

(** ** Backend requests *)
Definition prepare_chat_backend (adapter : ModelFamily) (request : ChatCompletionRequest)
    : outcome RuntimeError (BackendCacheContext * str * BackendChatContext) :=
  let tools := effective_tools (ro_normalization options) (ch_tools request) in
  let context := cache_context sha256_hex adapter
    (tool_schema_json (json_text float_text) (ro_normalization options) (ch_tools request)) in
  prompt ← map_error Template (render_prompt float_text adapter (ch_messages request) tools);
  Ok (context, prompt, backend_chat_context (ch_messages request) tools).

Definition chat_backend_request (adapter : ModelFamily) (request : ChatCompletionRequest) : outcome RuntimeError BackendRequest :=
  '(context, prompt, chat_context) ← prepare_chat_backend adapter request;
  sampling ← sampling_of (ch_temperature request) (ch_top_p request);
  Ok (MkBackendRequest (ch_model request) (effective_max_tokens request) sampling
        (Chat (MkBackendChat prompt chat_context (required_backend_tool_choice request) (json_object_mode request) context))
        None).

Definition completion_backend_request (request : CompletionRequest) : outcome RuntimeError BackendRequest :=
  sampling ← sampling_of (cr_temperature request) (cr_top_p request);
  Ok (MkBackendRequest (cr_model request) (cr_max_tokens request) sampling
        (RawCompletion (MkBackendCompletion (cr_prompt request) (raw_prompt sha256_hex))) None).

(** ** Entry points

    A call in the state of the requests sent. *)
Definition call (A : Type) : Type := stm (list BackendRequest) RuntimeError A.
Definition send (request : BackendRequest) : call unit := modify (λ sent, sent ++ [request]).
Definition admitted (admission : option N) (request : BackendRequest) : BackendRequest :=
  match admission with Some a => with_prefill_chunk_admission a request | None => request end.

(** The generated identifier and the clock are arguments. *)
Section at_.
Variables (new_uuid : str) (now : Z).

Definition complete_chat (request : Validated ChatCompletionRequest) : call RuntimeChatCompletion :=
  adapter ← lift_outcome chat_adapter;
  backend_request ← lift_outcome (chat_backend_request adapter (inner request));
  _ ← send backend_request;
  lift_outcome (ChatStream.complete_chat from_str string_from_str float_text is_alphanumeric to_lowercase uuid (inner request) adapter
    (lit "chatcmpl-" ++ new_uuid) now (generate_with_cancel backend_request)).

Definition chat_validated_with_cancel (request : Validated ChatCompletionRequest) : call ChatCompletionResponse :=
  request ← lift_outcome (ensure_runtime_validated options request);
  if ch_stream (inner request)
  then lift_outcome (unsupported (lit "streaming chat requests must use Runtime::chat_stream"))
  else
    _ ← lift_outcome (validate_chat_request_capabilities (inner request) false);
    completion ← complete_chat request;
    let parsed := rc_parsed completion in
    let content := if bool_decide (content parsed = []) then None else Some (content parsed) in
    mret (MkChatResponse (rc_id completion) (lit "chat.completion") (rc_created completion) (rc_model completion)
            [MkChatChoice 0 (MkMessage Assistant content None None (tool_calls parsed)) (Some (rc_finish_reason completion))]
            (rc_usage completion)).
Definition chat_with_cancel (request : ChatCompletionRequest) : call ChatCompletionResponse :=
  request ← lift_outcome (into_validated_with_limits request (ro_limits options));
  chat_validated_with_cancel request.

(** The stream, run to its end. *)
Definition chat_stream_validated_with_cancel_and_prefill_admission (request : Validated ChatCompletionRequest)
    (admission : option N) : call ChatRun :=
  request ← lift_outcome (ensure_runtime_validated options request);
  _ ← lift_outcome (validate_chat_request_capabilities (inner request) true);
  adapter ← lift_outcome chat_adapter;
  backend_request ← lift_outcome (chat_backend_request adapter (inner request));
  let backend_request := admitted admission backend_request in
  let completion := MkSeed (lit "chatcmpl-" ++ new_uuid) now (ch_model (inner request)) in
  _ ← send backend_request;
  mret (streaming_chat_stream from_str string_from_str float_text is_alphanumeric to_lowercase uuid (inner request) adapter
          completion (ch_include_usage (inner request)) (generate_stream_with_cancel backend_request)).
Definition chat_stream_with_cancel (request : ChatCompletionRequest) : call ChatRun :=
  request ← lift_outcome (into_validated_with_limits request (ro_limits options));
  chat_stream_validated_with_cancel_and_prefill_admission request None.

Definition complete_text (request : Validated CompletionRequest) : call RuntimeCompletion :=
  backend_request ← lift_outcome (completion_backend_request (inner request));
  _ ← send backend_request;
  lift_outcome match CompletionStream.complete_text (lit "cmpl-" ++ new_uuid) now (cr_model (inner request)) (cr_stop (inner request))
                       (generate_with_cancel backend_request) with
               | inl completion => Ok completion
               | inr e => Err e
               end.
Definition completion_validated_with_cancel (request : Validated CompletionRequest) : call CompletionResponse :=
  request ← lift_outcome (ensure_runtime_validated options request);
  if cr_stream (inner request)
  then lift_outcome (unsupported (lit "streaming text completion requests must use Runtime::completion_stream"))
  else
    _ ← lift_outcome (validate_completion_request_capabilities (inner request) false);
    completion ← complete_text request;
    mret (MkCompletionResponse (c_id completion) (lit "text_completion") (c_created completion) (c_model completion)
            [MkChoice (c_text completion) 0 (Some (CompletionStream.c_finish_reason completion))] (c_usage completion)).
Definition completion_with_cancel (request : CompletionRequest) : call CompletionResponse :=
  request ← lift_outcome (into_validated_with_limits request (ro_limits options));
  completion_validated_with_cancel request.

Definition completion_stream_validated_with_cancel_and_prefill_admission (request : Validated CompletionRequest)
    (admission : option N) : call StreamRun :=
  request ← lift_outcome (ensure_runtime_validated options request);
  _ ← lift_outcome (validate_completion_request_capabilities (inner request) true);
  let completion := MkSeed (lit "cmpl-" ++ new_uuid) now (cr_model (inner request)) in
  backend_request ← lift_outcome (completion_backend_request (inner request));
  let backend_request := admitted admission backend_request in
  _ ← send backend_request;
  mret (streaming_completion_stream completion (cr_stop (inner request)) (cr_include_usage (inner request))
          (generate_stream_with_cancel backend_request)).
Definition completion_stream_with_cancel (request : CompletionRequest) : call StreamRun :=
  request ← lift_outcome (into_validated_with_limits request (ro_limits options));
  completion_stream_validated_with_cancel_and_prefill_admission request None.
End at_.

(** ** The cache identity of a request *)
Definition hash_str (s : str) : str := lit "sha256:" ++ sha256_hex s.
Definition system_message_value (message : ChatMessage) : value :=
  let text o := match o with Some s => JString s | None => Null end in
  Object [(lit "content", text (cm_content message)); (lit "name", text (cm_name message))].
Definition system_prompt_value (messages : list ChatMessage) : option value :=
  match filter (λ m, cm_role m = System) messages with
  | [] => None
  | systems => Some (Object [(lit "version", JString (lit "system-prompt/v1")); (lit "messages", Array (system_message_value <$> systems))])
  end.
Definition hash_system_prompt (messages : list ChatMessage) : option str :=
  (λ v, hash_str (json_text float_text v)) <$> system_prompt_value messages.

(** [stable_prefix_key], as the bytes it hashes: [update_hash_component] feeds
    the hasher like [update_cache_key_component] does. *)
Definition update_hash_component : str → option str → list N := cache_key_component.
Definition stable_prefix_input (components : list (str * option str)) : list N :=
  update_hash_component (lit "stable-prefix-version") (Some (lit "request-cache-prefix/v1"))
  ++ (components ≫= λ '(name, value), update_hash_component name value).

Record RequestCacheIdentity := MkIdentity {
  prompt_hash : str;
  id_cache_key : str;
  id_cache_template_id : str;
  model_family : option str;
  tool_schema_hash : option str;
  system_prompt_hash : option str;
  chat_template_kwargs_hash : option str;
  stable_prefix_key : option str;
}.
Definition prefix_components (family : option str) (context : BackendCacheContext) (messages : list ChatMessage)
    : list (str * option str) :=
  [(lit "model-family", family); (lit "cache-template-id", Some (Backend.cache_template_id context));
   (lit "tool-schema-hash", hash_str <$> tool_schema context); (lit "system-prompt-hash", hash_system_prompt messages);
   (lit "chat-template-kwargs-hash", hash_str <$> chat_template_kwargs context)].
Definition identity_chat (family : option str) (context : BackendCacheContext) (prompt : str) (messages : list ChatMessage)
    : RequestCacheIdentity :=
  MkIdentity (hash_str prompt) (key context) (Backend.cache_template_id context) family (hash_str <$> tool_schema context)
    (hash_system_prompt messages) (hash_str <$> chat_template_kwargs context)
    (Some (lit "sha256:" ++ sha256_hex (stable_prefix_input (prefix_components family context messages)))).
Definition identity_raw_completion (context : BackendCacheContext) (prompt : str) : RequestCacheIdentity :=
  MkIdentity (hash_str prompt) (key context) (Backend.cache_template_id context) None None None None None.

Definition chat_request_cache_identity (request : ChatCompletionRequest) : outcome RuntimeError RequestCacheIdentity :=
  adapter ← chat_adapter;
  '(context, prompt, _) ← prepare_chat_backend adapter request;
  Ok (identity_chat (md_family model_metadata) context prompt (ch_messages request)).
Definition completion_request_cache_identity (request : CompletionRequest) : RequestCacheIdentity :=
  identity_raw_completion (raw_prompt sha256_hex) (cr_prompt request).
End runtime.
