(* ===== verification/RuntimeTheorems.v ===== *)
(** * What the runtime sends to the backend, and under which identity

    About [Runtime.v]: a chat request reaches the backend only when it passed
    validation and the capability check, with the prompt of its family; the
    stable key of its cache identity tells requests apart exactly by the texts of
    their tools and system messages, as hashed. *)
From Stdlib Require Import String SpecFloat.
From stdpp Require Import base sets numbers list.
From S2P Require Import Prelude Text Json Api ToolParse TemplateError Stop Backend CompletionStream ToolCalls JsonMode ChatStream.
From S2P Require Import Validation ValidationTheorems CanonicalJson ChatTemplate ControlTokens ChatTemplateTheorems ChatTemplateFamilies.
From S2P Require Import Runtime.
Open Scope N_scope.

(** ** What a request asks for *)
Definition is_greedy (temperature : option spec_float) : bool :=
  match temperature with Some t => SFeqb t f32_zero | None => false end.
Definition sampling_config (temperature top_p : option spec_float) : SamplingConfig :=
  if is_greedy temperature then Greedy else TopP (default f32_one temperature) (default f32_one top_p).
Definition uses_tools (r : ChatCompletionRequest) : Prop :=
  ch_tools r ≠ [] ∨ ∃ m, m ∈ ch_messages r ∧ (cm_role m = Tool ∨ is_Some (cm_tool_call_id m) ∨ cm_tool_calls m ≠ []).

Record chat_supported (c : BackendCapabilities) (r : ChatCompletionRequest) (stream : bool) : Prop := {
  cs_chat : chat_completions c = true;
  cs_stream : stream = true → streaming c = true;
  cs_sampling : if is_greedy (ch_temperature r) then sampling_greedy c = true else sampling_top_p c = true;
  cs_tools : uses_tools r → tool_call_support c = true;
  cs_json : ch_response_format r = Some RfJsonObject → json_object_support c = true;
}.

Lemma sampling_of_valid temperature top_p : validate_sampling_controls temperature top_p = Ok tt →
  sampling_of temperature top_p = Ok (sampling_config temperature top_p).
Proof.
  intros H. unfold sampling_of, from_openai_controls, sampling_config. rewrite H.
  destruct temperature as [t|], top_p as [p|]; cbn; try destruct (SFeqb t f32_zero); done.
Qed.

Lemma uses_tools_spec r : chat_request_uses_tools r = true ↔ uses_tools r.
Proof.
  unfold chat_request_uses_tools, uses_tools. rewrite orb_true_iff, negb_true_iff, bool_decide_eq_false, existsb_exists.
  apply or_iff_compat_l. apply exist_proper. intros m. rewrite list_elem_of_In, !orb_true_iff, negb_true_iff,
    bool_decide_eq_false, !bool_decide_eq_true. tauto.
Qed.

(** ** The capability check *)
Definition api_refusal {A} (o : outcome RuntimeError A) : Prop := ∃ e, o = Err (Api e).
Lemma unsupported_refused {A} message : api_refusal (A := A) (unsupported message).
Proof. by eexists. Qed.

Lemma chat_capabilities_spec `{!ModelBackend} r stream : validate_sampling_controls (ch_temperature r) (ch_top_p r) = Ok tt →
  (validate_chat_request_capabilities r stream = Ok tt ∧ chat_supported capabilities r stream) ∨
  (api_refusal (validate_chat_request_capabilities r stream) ∧ ¬ chat_supported capabilities r stream).
Proof.
  intros Hs. unfold validate_chat_request_capabilities, validate_streaming_capability.
  pose proof (uses_tools_spec r) as Htools. set (c := capabilities).
  destruct (chat_completions c) eqn:E1; cbn [negb]; [|right; split; [apply unsupported_refused|intros []; congruence]].
  destruct (stream && negb (streaming c)) eqn:E2; cbn [mbind outcome_bind].
  { right. split; [apply unsupported_refused|]. apply andb_true_iff in E2 as [E2 E3%negb_true_iff]. intros []. rewrite cs_stream0 in E3; done. }
  rewrite (sampling_of_valid _ _ Hs). cbn [mbind outcome_bind]. unfold validate_sampling_capability, sampling_config.
  assert (stream = true → streaming c = true) as Hstream by (intros ->; by destruct (streaming c)).
  destruct (if is_greedy (ch_temperature r) then sampling_greedy c else sampling_top_p c) eqn:E3.
  2: { right. destruct (is_greedy (ch_temperature r)) eqn:Eg; rewrite E3; cbn; (split; [apply unsupported_refused|]); intros [];
       rewrite Eg in cs_sampling0; congruence. }
  assert ((if is_greedy (ch_temperature r) then sampling_greedy c = true else sampling_top_p c = true)) as Hsampling
    by by destruct (is_greedy _).
  replace (match _ with Greedy => _ | TopP _ _ => _ end) with (Ok (E := RuntimeError) tt)
    by by destruct (is_greedy _); rewrite E3.
  cbn [mbind outcome_bind]. destruct (chat_request_uses_tools r && negb (tool_call_support c)) eqn:E4.
  { right. split; [apply unsupported_refused|]. apply andb_true_iff in E4 as [E4%Htools E5%negb_true_iff]. intros []. rewrite cs_tools0 in E5; done. }
  assert (uses_tools r → tool_call_support c = true) as Hcalls
    by (intros Hu%Htools; rewrite Hu in E4; by destruct (tool_call_support c)).
  unfold json_object_mode. destruct (ch_response_format r) as [[]|] eqn:Ef; cbn [andb]; try (left; split; [done|split; (done || congruence)]).
  destruct (json_object_support c) eqn:Ej; cbn [negb]; [left; split; [done|split; done]|].
  right. split; [apply unsupported_refused|]. intros []. rewrite cs_json0 in Ej; done.
Qed.

(** ** Rendering never panics *)
Section no_panic.
Context (float_text : N → str).
Lemma no_panic_bind {A B} (o : outcome TemplateError A) (f : A → outcome TemplateError B) :
  o ≠ Panic → (∀ a, f a ≠ Panic) → (o ≫= f) ≠ Panic.
Proof. destruct o; cbn; auto. Qed.
Lemma no_panic_reject tokens x : reject tokens x ≠ Panic.
Proof. unfold reject. by repeat case_match. Qed.
Lemma no_panic_each {A} (f : A → rendered) l : (∀ x, f x ≠ Panic) → append_each f l ≠ Panic.
Proof. intros Hf. induction l as [|x l IH]; [done|]. cbn.
  apply no_panic_bind; [apply Hf|]. intros a. by apply no_panic_bind. Qed.
Lemma no_panic_content tokens f m : push_content (reject tokens) f m ≠ Panic.
Proof. unfold push_content. case_match; [|done]. apply no_panic_bind; [apply no_panic_reject|done]. Qed.

Ltac rendering :=
  repeat (apply no_panic_reject || apply no_panic_content || (apply no_panic_each; intros ?)
    || (apply no_panic_bind; [|intros ?]) || case_match || done).

Lemma no_panic_calls separated calls : render_llama3_calls float_text separated calls ≠ Panic.
Proof. revert separated. induction calls as [|c calls IH]; intros separated; cbn; [done|]. rendering. Qed.
Lemma no_panic_turns opened messages : render_deepseek_turns float_text opened messages ≠ Panic.
Proof.
  revert opened. induction messages as [|m messages IH]; intros opened; [done|]. cbn [render_deepseek_turns].
  apply no_panic_bind; [|intros [text opened']; apply no_panic_bind; [apply IH|done]].
  unfold render_deepseek_message, render_deepseek_plain_turn, render_deepseek_assistant_turn, render_deepseek_tool_response,
    render_deepseek_call. rendering.
Qed.
Lemma prompt_no_panic family messages tools : render_prompt float_text family messages tools ≠ Panic.
Proof.
  unfold render_prompt, render_family_chat_template_with_tool_instruction. destruct family.
  - unfold render_qwen_chatml_with_tool_instruction, render_qwen_tools, render_qwen_turn, render_plain, render_assistant,
      render_assistant_call. rendering.
  - unfold render_deepseek_chat_template_with_tool_instruction, render_deepseek_system. rendering; apply no_panic_turns.
  - unfold render_gemma4_chat_template_with_tool_instruction, render_gemma4_system, render_gemma4_tool, render_gemma4_message,
      render_gemma4_turn, render_gemma4_assistant_turn, render_gemma4_call, render_gemma4_tool_response. rendering.
  - unfold render_llama3_chat_template_with_tool_instruction, render_llama3_system, render_llama3_turn, render_llama3_plain_turn,
      render_llama3_assistant_turn, render_llama3_tool_response. rendering; apply no_panic_calls.
Qed.
End no_panic.

(** ** The request that is sent *)
Section sent.
Context (float_text : N → str) (sha256_hex : list N → str) `{!ModelBackend} (options : RuntimeOptions).

Definition chat_request_for (r : ChatCompletionRequest) (family : ModelFamily) (prompt : str) (admission : option N) : BackendRequest :=
  MkBackendRequest (ch_model r) (effective_max_tokens r) (sampling_config (ch_temperature r) (ch_top_p r))
    (Chat (MkBackendChat prompt (backend_chat_context (ch_messages r) (effective_tools (ro_normalization options) (ch_tools r)))
       (required_backend_tool_choice r) (json_object_mode r)
       (cache_context sha256_hex family
          (tool_schema_json (json_text float_text) (ro_normalization options) (ch_tools r))))) admission.

(** The request is valid, the backend supports all it asks for, and its prompt
    holds no control token but those of the template. *)
Definition ready (r : ChatCompletionRequest) (stream : bool) (admission : option N) (b : BackendRequest) : Prop :=
  validate_chat_request float_text r (ro_limits options) = Ok tt
  ∧ chat_supported capabilities r stream
  ∧ ∃ slug family prompt,
      md_family model_metadata = Some slug ∧ parse_slug slug = Some family
      ∧ let tools := effective_tools (ro_normalization options) (ch_tools r) in
        render_prompt float_text family (ch_messages r) tools = Ok prompt
        ∧ ((family = Gemma → ∀ m, m ∈ ch_messages r → gemma_plain_message m) →
           read_controls (reserved family) 0 prompt = normal (prompt_layout float_text family (ch_messages r) tools))
        ∧ b = chat_request_for r family prompt admission.

(** An error of the client: of the request, of what the backend supports, or of
    a text with a control token. *)
Definition refusal {A} (o : outcome RuntimeError A) : Prop :=
  ∃ e, o = Err e ∧ match e with Api _ | Template _ => True | _ => False end.

Lemma api_refusal_refusal {A} (o : outcome RuntimeError A) : api_refusal o → refusal o.
Proof. intros [e ->]. by eexists. Qed.
Lemma refusal_bind {A B} (o : outcome RuntimeError A) (f : A → outcome RuntimeError B) : refusal o → refusal (o ≫= f).
Proof. intros (e & -> & He). by eexists. Qed.

(** What the entry points do once the request is valid. *)
Definition chat_admission (r : ChatCompletionRequest) (stream : bool) : outcome RuntimeError (ModelFamily * BackendRequest) :=
  _ ← validate_chat_request_capabilities r stream;
  adapter ← chat_adapter;
  b ← chat_backend_request float_text sha256_hex options adapter r;
  Ok (adapter, b).

Lemma adapter_spec : (∃ slug family, md_family model_metadata = Some slug ∧ parse_slug slug = Some family ∧ chat_adapter = Ok family) ∨
  (api_refusal chat_adapter ∧ ∀ slug, md_family model_metadata = Some slug → parse_slug slug = None).
Proof.
  unfold chat_adapter, chat_adapter_for_metadata. destruct (md_family model_metadata) as [slug|]; [|by right; split; [apply unsupported_refused|]].
  destruct (parse_slug slug) as [family|] eqn:E; [left; by eexists _, _|right]. split; [apply unsupported_refused|]. by intros ? [= <-].
Qed.

Lemma admission_spec r stream : validate_chat_request float_text r (ro_limits options) = Ok tt →
  (∃ family b, chat_admission r stream = Ok (family, b) ∧ ready r stream None b) ∨
  (refusal (chat_admission r stream) ∧ ∀ admission b, ¬ ready r stream admission b).
Proof.
  intros Hv. assert (validate_sampling_controls (ch_temperature r) (ch_top_p r) = Ok tt) as Hs.
  { unfold validate_chat_request in Hv. rewrite !then_Ok in Hv. tauto. }
  unfold chat_admission. destruct (chat_capabilities_spec r stream Hs) as [[-> Hc]|[Hc Hn]].
  2: { right. split; [by apply refusal_bind, api_refusal_refusal|]. by intros ? ? (_ & Hc' & _). }
  destruct adapter_spec as [(slug & family & Hf & Hp & ->)|[Ha Hn]].
  2: { right. split; [by apply (refusal_bind (A := ModelFamily)), api_refusal_refusal|].
       intros ? ? (_ & _ & slug & family & ? & Hf & Hp & _). by rewrite (Hn _ Hf) in Hp. }
  cbn [mbind outcome_bind]. unfold chat_backend_request, prepare_chat_backend. cbv zeta.
  set (tools := effective_tools (ro_normalization options) (ch_tools r)).
  pose proof (prompt_no_panic float_text family (ch_messages r) tools) as Hnp.
  destruct (render_prompt float_text family (ch_messages r) tools) as [prompt|e|] eqn:E; [|right|done].
  - left. cbn [map_error mbind outcome_bind]. rewrite (sampling_of_valid _ _ Hs). cbn [mbind outcome_bind].
    eexists _, _. split; [done|]. split; [done|]. split; [done|]. exists slug, family, prompt. split; [done|]. split; [done|].
    split; [done|]. split; [|done]. intros Hplain. by eapply lays_read_back; [apply prompt_lays, Hplain|].
  - split; [by eexists|]. intros ? ? (_ & _ & slug' & family' & prompt & Hf' & Hp' & Hr & _). simplify_eq. fold tools in Hr. congruence.
Qed.
End sent.

Section entry.
Context (float_text : N → str) (from_str : str → value + str) (string_from_str : str → str + str).
Context (is_alphanumeric : N → bool) (to_lowercase : N → list N) (sha256_hex : list N → str) (uuid : nat → N → str).
Context `{!ModelBackend} (options : RuntimeOptions) (new_uuid : str) (now : Z).
Local Abbreviation ready := (ready float_text sha256_hex options).
Local Abbreviation run_chat :=
  (chat_with_cancel float_text from_str string_from_str is_alphanumeric to_lowercase sha256_hex uuid options new_uuid now).
Local Abbreviation run_stream :=
  (chat_stream_with_cancel float_text from_str string_from_str is_alphanumeric to_lowercase sha256_hex uuid options new_uuid now).

(** A call sends one request that is [ok]; or none, and then none is [ok]. *)
Definition guarded {A} (run : outcome RuntimeError A * list BackendRequest) (ok : BackendRequest → Prop) : Prop :=
  (∃ b, run.2 = [b] ∧ ok b) ∨ (run.2 = [] ∧ refusal run.1 ∧ ∀ b, ¬ ok b).

(** A valid request is not validated again. *)
Lemma validated_again `{ValidateRequest A} (r : A) : ensure_runtime_validated options (MkValidated r (ro_limits options)) =
  Ok (MkValidated r (ro_limits options)).
Proof. unfold ensure_runtime_validated. by rewrite bool_decide_eq_true_2. Qed.

Lemma guarded_admission {A} r stream (o : outcome RuntimeError (ModelFamily * BackendRequest)) (ok : BackendRequest → Prop)
    (run : outcome RuntimeError A * list BackendRequest) :
  validate_chat_request float_text r (ro_limits options) = Ok tt → (∀ b, ok b ↔ ready r stream None b) →
  chat_admission float_text sha256_hex options r stream = o →
  match o with Ok (_, b) => run.2 = [b] | Err e => run = (Err e, []) | Panic => run = (Panic, []) end →
  guarded run ok.
Proof.
  intros Hv Hok <- Hrun. destruct (admission_spec float_text sha256_hex options r stream Hv) as [(family & b & Ha & Hb)|[Ha Hn]].
  - rewrite Ha in Hrun. left. exists b. split; [exact Hrun|by apply Hok].
  - destruct Ha as (e & Ha & He). rewrite Ha in Hrun. subst run. right. split; [done|]. split; [by eexists|].
    intros b Hb%Hok. by eapply Hn.
Qed.

Lemma guarded_validated {B} r (f : Validated ChatCompletionRequest → call B) ok :
  request_values_valid r → tool_schema_depth (ro_limits options) < u64_max →
  (∀ b, ok b → validate_chat_request float_text r (ro_limits options) = Ok tt) →
  (validate_chat_request float_text r (ro_limits options) = Ok tt → guarded (f (MkValidated r (ro_limits options)) []) ok) →
  guarded ((lift_outcome (into_validated_with_limits (H := validate_chat float_text) r (ro_limits options)) ≫= f) []) ok.
Proof.
  intros Hr Hl Hok Hf. pose proof (chat_request_client float_text r (ro_limits options) Hr Hl) as Hc.
  unfold into_validated_with_limits, validate_with_limits, validate_chat.
  destruct (validate_chat_request float_text r (ro_limits options)) as [[]|e|] eqn:E; [by apply Hf| |done].
  right. split; [done|]. split; [by eexists|]. intros b Hb%Hok. congruence.
Qed.

(** Runs the steps of an entry point, case by case. *)
Ltac run_steps :=
  unfold chat_admission, mbind, stm_bind, outcome_bind, lift_outcome, send, modify, mret, stm_ret; cbn [inner].
Ltac admission_cases :=
  destruct (validate_chat_request_capabilities _ _) as [[]|?|]; [|done..];
  destruct chat_adapter as [?|?|]; [|done..];
  destruct (chat_backend_request _ _ _ _ _) as [?|?|]; [|done..].

End entry.

(** ** The identity of what is sent *)
Section identity.
Context (float_text : N → str) (sha256_hex : list N → str) `{!ModelBackend} (options : RuntimeOptions).
Local Abbreviation ready := (ready float_text sha256_hex options).
Local Abbreviation identity := (chat_request_cache_identity float_text sha256_hex options).

(** What the system messages say. *)
Definition system_texts (r : ChatCompletionRequest) : list (option str * option str) :=
  (λ m, (cm_content m, cm_name m)) <$> filter (λ m, cm_role m = System) (ch_messages r).

Lemma system_hash_of r1 r2 : system_texts r1 = system_texts r2 →
  hash_system_prompt float_text sha256_hex (ch_messages r1) = hash_system_prompt float_text sha256_hex (ch_messages r2).
Proof.
  unfold system_texts, hash_system_prompt, system_prompt_value. intros Htexts. f_equal.
  assert (∀ l1 l2 : list ChatMessage, (λ m, (cm_content m, cm_name m)) <$> l1 = (λ m, (cm_content m, cm_name m)) <$> l2 →
    system_message_value <$> l1 = system_message_value <$> l2) as Hv.
  { induction l1 as [|m l1 IH]; intros [|m' l2]; try done. rewrite !fmap_cons. intros [= Hc Hn Hl]. f_equal; [|by apply IH].
    unfold system_message_value. by rewrite Hc, Hn. }
  destruct (filter _ (ch_messages r1)) as [|m1 l1], (filter _ (ch_messages r2)) as [|m2 l2]; try done. by rewrite (Hv _ _ Htexts).
Qed.

Lemma slug_sized slug family : parse_slug slug = Some family → sized (Some slug).
Proof.
  unfold parse_slug. intros Hslug s [= <-]. revert Hslug. repeat (case_bool_decide as E; cbn [orb]; [subst slug; by vm_compute|clear E]). done.
Qed.

(** The bytes of the prefix key are those of its components. *)
Lemma stable_prefix_inj family c1 c2 m1 m2 : (∀ x, length (sha256_hex x) = 64%nat) → sized (Some family) →
  Backend.cache_template_id c1 = Backend.cache_template_id c2 → sized (Some (Backend.cache_template_id c2)) →
  chat_template_kwargs c1 = chat_template_kwargs c2 →
  let input c m := stable_prefix_input (prefix_components float_text sha256_hex (Some family) c m) in
  input c1 m1 = input c2 m2 ↔
    hash_str sha256_hex <$> tool_schema c1 = hash_str sha256_hex <$> tool_schema c2
    ∧ hash_system_prompt float_text sha256_hex m1 = hash_system_prompt float_text sha256_hex m2.
Proof.
  intros Hsha Hfamily Ht Hsized Hk input. assert (∀ x, sized (Some (hash_str sha256_hex x))) as Hx.
  { intros x s <-%(inj Some). unfold hash_str. rewrite length_app, Hsha. by vm_compute. }
  assert (∀ v : option str, sized (hash_str sha256_hex <$> v)) as Hhash by (intros [v|]; [apply Hx|done]).
  assert (∀ m, sized (hash_system_prompt float_text sha256_hex m)) as Hsys.
  { intros m. unfold hash_system_prompt. destruct (system_prompt_value m); [apply Hx|done]. }
  unfold input, stable_prefix_input, prefix_components, update_hash_component. rewrite Ht, Hk. split.
  - intros Heq%app_inv_head. cbn [mbind list_bind] in Heq. do 2 apply app_inv_head in Heq.
    apply cache_key_component_inj in Heq as [-> Heq]; [|intros s [Hs|Hs]; by eapply Hhash].
    apply cache_key_component_inj in Heq as [-> Heq]; [done|intros s [Hs|Hs]; by eapply Hsys].
  - by intros [-> ->].
Qed.

(** C13: The cache identity of a request that reaches the backend is the identity
    of what reaches it: the hash of the prompt that is sent and the cache key
    that is sent with it.  Two requests share the key of the reusable prefix
    (the bytes it hashes) exactly when they have the same tool schema and the
    same system messages, up to their hashes, whatever their other turns,
    sampling or streaming mode. *)
Theorem identity_of_sent_request r1 r2 stream1 stream2 admission1 admission2 b1 b2 :
  (∀ x, length (sha256_hex x) = 64%nat) → ready r1 stream1 admission1 b1 → ready r2 stream2 admission2 b2 →
  ∃ id1 id2 bytes1 bytes2,
    identity r1 = Ok id1 ∧ identity r2 = Ok id2
    ∧ prompt_hash id1 = hash_str sha256_hex (br_prompt b1) ∧ id_cache_key id1 = key (br_cache_context b1)
    ∧ stable_prefix_key id1 = Some (lit "sha256:" ++ sha256_hex bytes1)
    ∧ stable_prefix_key id2 = Some (lit "sha256:" ++ sha256_hex bytes2)
    ∧ (bytes1 = bytes2 ↔ tool_schema_hash id1 = tool_schema_hash id2 ∧ system_prompt_hash id1 = system_prompt_hash id2)
    ∧ (ch_tools r1 = ch_tools r2 → system_texts r1 = system_texts r2 → bytes1 = bytes2).
Proof.
  intros Hsha (_ & _ & slug & family & prompt1 & Hf & Hp & Ho1 & _ & ->) (_ & _ & slug2 & family2 & prompt2 & Hf2 & Hp2 & Ho2 & _ & ->).
  assert (slug2 = slug) as -> by congruence. assert (family2 = family) as -> by congruence. clear Hf2 Hp2.
  assert (chat_adapter = Ok family) as Ha by (unfold chat_adapter, chat_adapter_for_metadata; by rewrite Hf, Hp).
  unfold chat_request_cache_identity, prepare_chat_backend. rewrite Ha. cbn [mbind outcome_bind]. cbv zeta. rewrite Ho1, Ho2, Hf.
  cbn [mbind outcome_bind map_error]. eexists _, _, _, _. do 6 (split; [reflexivity|]).
  set (schema r := tool_schema_json (json_text float_text) (ro_normalization options) (ch_tools r)).
  pose proof (stable_prefix_inj slug (cache_context sha256_hex family (schema r1)) (cache_context sha256_hex family (schema r2))
    (ch_messages r1) (ch_messages r2) Hsha (slug_sized _ _ Hp) eq_refl) as Hinj.
  assert (sized (Some (ChatTemplate.cache_template_id family))) as Hid by (intros s [= <-]; by destruct family; vm_compute).
  specialize (Hinj Hid eq_refl). split; [exact Hinj|]. intros Ht Hs. apply Hinj. split; [|by apply system_hash_of].
  unfold schema. by rewrite Ht.
Qed.
End identity.

(** ** A backend and two requests *)
Section examples.
Local Abbreviation no_floats := (λ _ : N, [] : str).
Definition digest (x : list N) : str := take 64 (x ++ replicate 64 48).
Lemma digest_length x : length (digest x) = 64%nat.
Proof. unfold digest. rewrite length_take, length_app, length_replicate. lia. Qed.
Definition demo_backend : ModelBackend := {|
  model_metadata := MkMetadata (lit "demo") (Some (lit "llama"));
  capabilities := MkCapabilities true true true true true true true;
  generate_with_cancel _ := inl (MkOutput (lit "Hello") 3 None 1 BStop);
  generate_stream_with_cancel _ := [inl (output_chunk (MkOutput (lit "Hello") 3 None 1 BStop))];
|}.
Definition demo_options : RuntimeOptions := MkOptions Canonical default_limits.
Definition demo_conversation (question : string) : ChatCompletionRequest :=
  MkChatRequest (lit "m") [MkMessage System (Some (lit "Be brief.")) None None []; MkMessage User (Some (lit question)) None None []]
    [] None None None false false (Some f32_zero) None None None None None None None None [].

Local Abbreviation run :=
  (chat_with_cancel (H := demo_backend) no_floats (λ _, inr []) (λ _, inr []) (λ _, true) (λ c, [c]) digest (λ _ _, [])
     demo_options (lit "1") 0%Z).

Lemma demo_ready question : validate_chat_request no_floats (demo_conversation question) default_limits = Ok tt →
  is_Some (match chat_admission (H := demo_backend) no_floats digest demo_options (demo_conversation question) false with
           | Ok a => Some a | _ => None end) →
  ∃ b, ready (H := demo_backend) no_floats digest demo_options (demo_conversation question) false None b.
Proof.
  intros Hv Ha. destruct (admission_spec (H := demo_backend) no_floats digest demo_options (demo_conversation question) false Hv)
    as [(family & b & _ & Hb)|[(e & He & _) _]]; [by exists b|]. rewrite He in Ha. by destruct Ha.
Qed.

Lemma identity_of_sent_request_witness :
  ∃ id1 id2,
    chat_request_cache_identity (H := demo_backend) no_floats digest demo_options (demo_conversation "Why?") = Ok id1
    ∧ chat_request_cache_identity (H := demo_backend) no_floats digest demo_options (demo_conversation "How?") = Ok id2
    ∧ stable_prefix_key id1 = stable_prefix_key id2.
Proof.
  destruct (demo_ready "Why?") as [b1 H1]; [vm_compute; reflexivity|vm_compute; by eexists|].
  destruct (demo_ready "How?") as [b2 H2]; [vm_compute; reflexivity|vm_compute; by eexists|].
  destruct (identity_of_sent_request (H := demo_backend) no_floats digest demo_options _ _ _ _ _ _ b1 b2 digest_length H1 H2)
    as (id1 & id2 & x1 & x2 & Hi1 & Hi2 & _ & _ & Hk1 & Hk2 & _ & Hsame).
  exists id1, id2. split; [exact Hi1|]. split; [exact Hi2|]. rewrite Hk1, Hk2. by rewrite (Hsame eq_refl eq_refl).
Defined.
End examples.
