(* ===== verification/Hub.v ===== *)
(** * Models on disk: repository ids, download plans, pruning

    Models [crates/llm-hub/src]: [repo.rs] (repository ids), [plan.rs] (which
    files of a repository are downloaded, and where) and [prune.rs] (which
    snapshots are removed).  What the store reads from the disk is an argument:
    the snapshots, the aliases, the time a snapshot was last used, and the
    results of verifying, removing and quarantining one.  [u64] sums wrap, as in
    the release build. *)
From Stdlib Require Import String.
From stdpp Require Import base gmap sets numbers sorting list.
From S2P Require Import Prelude Text Whitespace ToolParse CanonicalJson.
Open Scope N_scope.

(** ** Errors *)
Record HubError := MkHubError { hub_code : str; hub_message : str }.
Definition hub_invalid_request (message : str) : HubError := MkHubError (lit "invalid_request") message.
Definition model_revision_unresolved (message : str) : HubError := MkHubError (lit "model_revision_unresolved") message.

(** ** Bytes and components *)
Definition is_ascii_alphanumeric (b : N) : bool :=
  ((48 <=? b) && (b <=? 57)) || ((65 <=? b) && (b <=? 90)) || ((97 <=? b) && (b <=? 122)).
Definition is_ascii_hexdigit (b : N) : bool :=
  ((48 <=? b) && (b <=? 57)) || ((65 <=? b) && (b <=? 70)) || ((97 <=? b) && (b <=? 102)).

(** [str::split('/')]. *)
Fixpoint split_slash (s : str) : list str :=
  match s with
  | [] => [[]]
  | b :: s =>
      if b =? 47 then [] :: split_slash s
      else match split_slash s with c :: l => (b :: c) :: l | [] => [[b]] end
  end.

Definition dots : list str := [lit "."; lit ".."].

(** ** Repository ids *)
Definition is_safe_repo_component (component : str) : bool :=
  negb (bool_decide (component = [])) && negb (bool_decide (component ∈ dots))
  && forallb (λ b, is_ascii_alphanumeric b || (b =? 46) || (b =? 95) || (b =? 45)) component.

(** The type of a repository is always [model]. *)
Record HubRepoId := MkRepoId { repo_id : str }.
Definition repo_components (not_two : str) (unsafe : str) (id : str) : outcome HubError (str * str) :=
  match split_once (lit "/") id with
  | None => Err (hub_invalid_request not_two)
  | Some (namespace, name) =>
      if contains name (lit "/") || negb (is_safe_repo_component namespace) || negb (is_safe_repo_component name)
      then Err (hub_invalid_request unsafe) else Ok (namespace, name)
  end.
Definition repo_model (id : str) : outcome HubError HubRepoId :=
  _ ← repo_components (lit "repo id must be org/name") (lit "repo id must be exactly two safe path components") id;
  Ok (MkRepoId id).
Definition components (r : HubRepoId) : outcome HubError (str * str) :=
  repo_components (lit "repo id `" ++ repo_id r ++ lit "` must be org/name")
    (lit "repo id `" ++ repo_id r ++ lit "` must be exactly two safe path components") (repo_id r).

Record HubFile := MkHubFile { hf_path : str; hf_size : N; hf_etag : option str }.

(** ** Download plans *)
Inductive ArtifactClass := Config | Tokenizer | Weights | Quantization | License | Other.
#[export] Instance ArtifactClass_eq_dec : EqDecision ArtifactClass.
Proof. solve_decision. Defined.

Definition artifact_order (class : ArtifactClass) : N :=
  match class with Config => 0 | Tokenizer => 1 | Quantization => 2 | Weights => 3 | License => 4 | Other => 5 end.

Record PlannedFile := MkPlannedFile {
  pf_path : str;
  pf_size : N;
  pf_etag : option str;
  pf_sha256 : option str;
  pf_class : ArtifactClass;
  pf_cached : bool;
}.

(** What the plan reads of [ModelProfile]. *)
Record ModelProfile := MkProfile { mp_name : str; allow_patterns : list str; ignore_patterns : list str }.

Record DownloadPlan := MkPlan {
  dp_repo_id : HubRepoId;
  requested_revision : str;
  resolved_commit : str;
  dp_profile : ModelProfile;
  files_to_download : list PlannedFile;
  skipped_files : list str;
  total_bytes_to_download : N;
  total_final_disk_bytes : N;
  metadata_only : bool;
}.

Definition wrapping_sum (l : list N) : N := foldl wrap_add 0 l.
Definition bytes_to_download (files : list PlannedFile) : N :=
  wrapping_sum (pf_size <$> filter (λ f, pf_cached f = false) files).
Definition final_bytes (files : list PlannedFile) : N := wrapping_sum (pf_size <$> files).

(** [DownloadPlan::metadata_only], with [recompute_totals]. *)
Definition plan_metadata_only (plan : DownloadPlan) : DownloadPlan :=
  let files := filter (λ f, pf_class f ≠ Weights) (files_to_download plan) in
  MkPlan (dp_repo_id plan) (requested_revision plan) (resolved_commit plan) (dp_profile plan) files (skipped_files plan)
    (bytes_to_download files) (final_bytes files) true.

Definition is_commit_hash (value : str) : bool := bool_decide (length value = 40%nat) && forallb is_ascii_hexdigit value.

(** [trim_matches]: quotation marks at both ends. *)
Fixpoint drop_quotes (s : str) : str :=
  match s with b :: r => if b =? 34 then drop_quotes r else s | [] => [] end.
Definition trim_quotes (s : str) : str := rev (drop_quotes (rev (drop_quotes s))).
Definition normalize_sha256 (value : str) : option str :=
  let trimmed := trim_quotes value in
  if bool_decide (length trimmed = 64%nat) && forallb is_ascii_hexdigit trimmed then Some (to_ascii_lowercase trimmed) else None.

Definition validate_artifact_path (path : str) : outcome HubError unit :=
  if bool_decide (path = []) || starts_with (lit "/") path || existsb (N.eqb 92) path || existsb (N.eqb 0) path
     || existsb (λ c, bool_decide (c = []) || bool_decide (c ∈ dots)) (split_slash path)
  then Err (hub_invalid_request (lit "unsafe Hugging Face artifact path `" ++ path ++ lit "`")) else Ok tt.

Definition matches_pattern (pattern path : str) : bool :=
  if bool_decide (pattern = path) then true
  else match strip_prefix (lit "*") pattern with
       | Some suffix => ends_with path suffix
       | None => match strip_suffix (lit "*") pattern with Some prefix => starts_with prefix path | None => false end
       end.
Definition matches_any (patterns : list str) (path : str) : bool := existsb (λ pattern, matches_pattern pattern path) patterns.

Definition classify_artifact (path : str) : ArtifactClass :=
  if bool_decide (path ∈ [lit "config.json"; lit "generation_config.json"]) then Config
  else if bool_decide (path ∈ [lit "tokenizer.json"; lit "tokenizer_config.json"]) then Tokenizer
  else if bool_decide (path ∈ [lit "README.md"; lit "LICENSE"; lit "LICENSE.txt"]) then License
  else if starts_with (lit "tokenizer") path then Tokenizer
  else if ends_with path (lit ".jinja") || bool_decide (path ∈ [lit "merges.txt"; lit "vocab.json"]) then Tokenizer
  else if ends_with path (lit ".safetensors") || ends_with path (lit ".gguf") then Weights
  else if bool_decide (path = lit "optiq_metadata.json") || contains path (lit "quant") then Quantization
  else Other.

Definition selects (profile : ModelProfile) (path : str) : bool :=
  negb (matches_any (ignore_patterns profile) path) && matches_any (allow_patterns profile) path.
Definition planned (cached_paths : list str) (file : HubFile) : PlannedFile :=
  MkPlannedFile (hf_path file) (hf_size file) (hf_etag file) (hf_etag file ≫= normalize_sha256) (classify_artifact (hf_path file))
    (bool_decide (hf_path file ∈ cached_paths)).

(** The loop over the files: selected, skipped. *)
Fixpoint select_files (profile : ModelProfile) (cached_paths : list str) (files : list HubFile)
    : outcome HubError (list PlannedFile * list str) :=
  match files with
  | [] => Ok ([], [])
  | file :: files =>
      _ ← validate_artifact_path (hf_path file);
      '(selected, skipped) ← select_files profile cached_paths files;
      Ok (if selects profile (hf_path file) then (planned cached_paths file :: selected, skipped)
          else (selected, hf_path file :: skipped))
  end.

(** The order of the plan: by class, then by path. *)
Definition plan_le (a b : PlannedFile) : Prop :=
  artifact_order (pf_class a) < artifact_order (pf_class b)
  ∨ artifact_order (pf_class a) = artifact_order (pf_class b) ∧ str_le (pf_path a) (pf_path b).
#[export] Instance plan_le_dec : RelDecision plan_le.
Proof. intros a b. unfold plan_le. apply _. Defined.

Definition build_download_plan (repo : HubRepoId) (revision commit : str) (profile : ModelProfile) (files : list HubFile)
    (cached_paths : list str) : outcome HubError DownloadPlan :=
  if negb (is_commit_hash commit)
  then Err (model_revision_unresolved (lit "resolved commit must be a 40-character immutable SHA"))
  else
    '(selected, skipped) ← select_files profile cached_paths files;
    let selected := merge_sort plan_le selected in
    Ok (MkPlan repo revision commit profile selected (merge_sort str_le skipped) (bytes_to_download selected)
          (final_bytes selected) false).

Definition safe_path_component (value : str) : str :=
  let component := concat (map (λ c, if is_ascii_alphanumeric c || (c =? 45) || (c =? 95) then [c] else [95])
                             (chars value)) in
  if bool_decide (component = []) then lit "profile" else component.
Definition snapshot_dir_name (plan : DownloadPlan) : str :=
  resolved_commit plan ++ lit "." ++ safe_path_component (mp_name (dp_profile plan))
  ++ if metadata_only plan then lit ".metadata-only" else [].

(** ** Pruning *)

(** What pruning reads of a snapshot and its manifest; times are nanoseconds. *)
Record PromotedSnapshot := MkSnapshot {
  ps_path : str;
  ps_repo_id : str;
  ps_commit : str;
  ps_profile : str;
  ps_digest : str;
  ps_sizes : list N;
  ps_created_at : Z;
}.
Record ModelAlias := MkAlias { ma_alias : str; ma_snapshot_path : str }.

Record PrunePolicy := MkPolicy {
  now : Z;
  keep_recent : option N;
  keep_min_per_profile : nat;
  policy_profile : option str;
}.
(** [PruneSnapshotEntry], and [PruneCandidate] with the same fields. *)
Record PruneEntry := MkEntry {
  pe_path : str;
  pe_repo_id : str;
  pe_commit : str;
  pe_profile : str;
  pe_digest : str;
  pe_bytes : N;
  pe_last_used_at : Z;
  pe_aliases : list str;
}.
(** [ProtectedSnapshot]: an entry with the reasons to keep it. *)
Record ProtectedSnapshot := MkProtected { prot_entry : PruneEntry; reasons : list str }.
Record PrunePlan := MkPrunePlan {
  scanned_snapshots : nat;
  total_bytes : N;
  reclaimable_bytes : N;
  candidates : list PruneEntry;
  protected : list ProtectedSnapshot;
}.
Record PruneReport := MkReport {
  pr_candidates : list PruneEntry;
  pr_protected : list ProtectedSnapshot;
  pr_deleted : list (str * N);
  pr_quarantined : list str;
  pr_deleted_bytes : N;
}.

Section prune.
(** [Ord for Path], and reading the usage file of a snapshot, if there is one. *)
Context (path_le : relation str) `{!RelDecision path_le}.
Context (usage : str → outcome HubError (option Z)).

Definition aliases_of (aliases : list ModelAlias) (path : str) : list str :=
  merge_sort str_le (ma_alias <$> filter (λ a, ma_snapshot_path a = path) aliases).
Definition snapshot_last_used_at (snapshot : PromotedSnapshot) : outcome HubError Z :=
  used ← usage (ps_path snapshot);
  Ok (default (ps_created_at snapshot) used).
Definition entry_of (aliases : list ModelAlias) (snapshot : PromotedSnapshot) : outcome HubError PruneEntry :=
  last_used_at ← snapshot_last_used_at snapshot;
  Ok (MkEntry (ps_path snapshot) (ps_repo_id snapshot) (ps_commit snapshot) (ps_profile snapshot) (ps_digest snapshot)
        (wrapping_sum (ps_sizes snapshot)) last_used_at (aliases_of aliases (ps_path snapshot))).

Definition in_scope (policy : PrunePolicy) (profile : str) : bool :=
  match policy_profile policy with Some p => bool_decide (p = profile) | None => true end.
Fixpoint prune_entries (policy : PrunePolicy) (aliases : list ModelAlias) (snapshots : list PromotedSnapshot)
    : outcome HubError (list PruneEntry) :=
  match snapshots with
  | [] => Ok []
  | snapshot :: snapshots =>
      if in_scope policy (ps_profile snapshot)
      then entry ← entry_of aliases snapshot; entries ← prune_entries policy aliases snapshots; Ok (entry :: entries)
      else prune_entries policy aliases snapshots
  end.

(** The newest first; equally new ones by path. *)
Definition newer (a b : PruneEntry) : Prop :=
  (pe_last_used_at b < pe_last_used_at a)%Z
  ∨ pe_last_used_at a = pe_last_used_at b ∧ path_le (pe_path a) (pe_path b).
#[local] Instance newer_dec : RelDecision newer.
Proof. intros a b. unfold newer. apply _. Defined.

Definition of_profile (profile : str) (entries : list PruneEntry) : list PruneEntry :=
  filter (λ e, pe_profile e = profile) entries.
Definition retained_of (entries : list PruneEntry) (keep : nat) (profile : str) : list PruneEntry :=
  take keep (merge_sort newer (of_profile profile entries)).
Definition minimum_retained_snapshot_paths (entries : list PruneEntry) (keep : nat) : gset str :=
  if (keep =? 0)%nat then ∅
  else list_to_set (pe_path <$> (remove_dups (pe_profile <$> entries) ≫= retained_of entries keep)).

Definition recently_used (policy : PrunePolicy) (last_used_at : Z) : bool :=
  match keep_recent policy with
  | None => false
  | Some keep =>
      let age := (now policy - last_used_at)%Z in
      if (age <? 0)%Z then true else (age <=? Z.of_N keep)%Z
  end.
Definition reasons_of (policy : PrunePolicy) (retained : gset str) (entry : PruneEntry) : list str :=
  ((λ alias, lit "active_alias:" ++ alias) <$> pe_aliases entry)
  ++ (if bool_decide (pe_path entry ∈ retained) then [lit "minimum_retained_for_profile"] else [])
  ++ (if recently_used policy (pe_last_used_at entry) then [lit "recently_used"] else []).

Definition path_order (a b : PruneEntry) : Prop := path_le (pe_path a) (pe_path b).
#[local] Instance path_order_dec : RelDecision path_order.
Proof. intros a b. unfold path_order. apply _. Defined.
Definition protected_order (a b : ProtectedSnapshot) : Prop := path_order (prot_entry a) (prot_entry b).
#[local] Instance protected_order_dec : RelDecision protected_order.
Proof. intros a b. unfold protected_order. apply _. Defined.

Definition prune_plan (policy : PrunePolicy) (snapshots : list PromotedSnapshot) (aliases : list ModelAlias)
    : outcome HubError PrunePlan :=
  entries ← prune_entries policy aliases snapshots;
  let retained := minimum_retained_snapshot_paths entries (keep_min_per_profile policy) in
  let kept := reasons_of policy retained in
  let candidates := merge_sort path_order (filter (λ e, kept e = []) entries) in
  let protected := merge_sort protected_order ((λ e, MkProtected e (kept e)) <$> filter (λ e, kept e ≠ []) entries) in
  Ok (MkPrunePlan (length candidates + length protected)
        (wrapping_sum ((pe_bytes <$> candidates) ++ ((λ p, pe_bytes (prot_entry p)) <$> protected)))
        (wrapping_sum (pe_bytes <$> candidates)) candidates protected).

(** [apply_prune_plan] on the set of snapshots on disk: verifying a candidate,
    removing it and moving it to quarantine are given by their results.  A
    removal that fails may have deleted files below the path, which stays. *)
Context (verify : str → bool) (remove : str → outcome HubError unit) (quarantine : str → outcome HubError str).
Definition disk (A : Type) : Type := stm (gset str) HubError A.
Definition remove_snapshot_dir (path : str) : disk unit :=
  _ ← lift_outcome (remove path); modify (λ paths, paths ∖ {[path]}).
Definition quarantine_snapshot (path : str) : disk str :=
  moved ← lift_outcome (quarantine path); _ ← modify (λ paths, paths ∖ {[path]}); mret moved.
Fixpoint apply_candidates (plan_candidates : list PruneEntry) (deleted : list (str * N)) (quarantined : list str) (deleted_bytes : N)
    : disk (list (str * N) * list str * N) :=
  match plan_candidates with
  | [] => mret (deleted, quarantined, deleted_bytes)
  | candidate :: rest =>
      if verify (pe_path candidate)
      then _ ← remove_snapshot_dir (pe_path candidate);
           apply_candidates rest (deleted ++ [(pe_path candidate, pe_bytes candidate)]) quarantined
             (sat_add deleted_bytes (pe_bytes candidate))
      else moved ← quarantine_snapshot (pe_path candidate);
           apply_candidates rest deleted (quarantined ++ [moved]) deleted_bytes
  end.
Definition apply_prune_plan (plan : PrunePlan) : disk PruneReport :=
  '(deleted, quarantined, deleted_bytes) ← apply_candidates (candidates plan) [] [] 0;
  mret (MkReport (candidates plan) (protected plan) deleted quarantined deleted_bytes).
End prune.
