(* ===== verification/PrefixCache.v ===== *)
(** * The in-memory prefix cache of the native text runtime

    Models [crates/llm-native-runtime/src/native_text/prefix_cache.rs]: entries
    keyed by namespace and token prefix, the index of candidate prefix lengths
    of each namespace, the LRU order, the byte budget, and the counters the
    cache reports.  The cached layer states are the type of
    [NativeTextPrefixCacheValue], a parameter. *)
From Stdlib Require Import Sorted.
From stdpp Require Import base gmap sets numbers list.
From S2P Require Import Prelude Ord Text.
Open Scope N_scope.
Open Scope record_scope.

(** ** Namespaces *)
Module Namespace.
Record t := Make {
  model_id : str;
  backend : str;
  family : option str;
  quantization : option str;
  repo_id : option str;
  resolved_commit : option str;
  profile : option str;
  tokenizer_kind : str;
  tokenizer_hash : str;
  tokenizer_normalization : str;
  cache_template_id : str;
  chat_template_kwargs_hash : option str;
  adapter_settings : str;
  cache_key : str;
  tool_schema : option str;
  request_mode : str;
  cache_layout_version : N;
  cache_tokens : N;
  max_prefill_tokens : N;
}.

(** The fields in declaration order, which the derived [Ord] and [Hash] go by. *)
Definition fields (n : t) :=
  (model_id n, (backend n, (family n, (quantization n, (repo_id n,
  (resolved_commit n, (profile n, (tokenizer_kind n, (tokenizer_hash n,
  (tokenizer_normalization n, (cache_template_id n, (chat_template_kwargs_hash n,
  (adapter_settings n, (cache_key n, (tool_schema n, (request_mode n,
  (cache_layout_version n, (cache_tokens n, max_prefill_tokens n)))))))))))))))))).

#[global] Instance fields_inj : Inj (=) (=) fields.
Proof. intros [] [] H. injection H. intros; by subst. Qed.
#[global] Instance eq_dec : EqDecision t.
Proof. solve_decision. Defined.

(** The record as a list of optional strings, to make it a map key. *)
Definition encode_fields (n : t) : list (option (list N)) :=
  [Some (model_id n); Some (backend n); family n; quantization n; repo_id n;
   resolved_commit n; profile n; Some (tokenizer_kind n); Some (tokenizer_hash n);
   Some (tokenizer_normalization n); Some (cache_template_id n); chat_template_kwargs_hash n;
   Some (adapter_settings n); Some (cache_key n); tool_schema n; Some (request_mode n);
   Some [cache_layout_version n]; Some [cache_tokens n]; Some [max_prefill_tokens n]].
Definition decode_fields (l : list (option (list N))) : option t :=
  match l with
  | [Some a; Some b; c; d; e; f; g; Some h; Some i; Some j; Some k; l; Some m; Some n; o; Some p;
     Some [q]; Some [r]; Some [s]] => Some (Make a b c d e f g h i j k l m n o p q r s)
  | _ => None
  end.
#[global] Instance countable : Countable t.
Proof. apply (inj_countable encode_fields decode_fields). by intros []. Defined.
#[global] Instance ord : Ord t := ord_via fields.
#[global] Instance ord_laws : OrdLaws t := ord_via_laws fields.
End Namespace.
Abbreviation namespace := Namespace.t (only parsing).

(** ** The index of prefix lengths *)

(** [slice::partition_point] and [slice::binary_search] on a sorted vector:
    the number of leading elements that satisfy the predicate, and the
    position of the element. *)
Fixpoint partition_point {A} (p : A → bool) (l : list A) : nat :=
  match l with
  | [] => O
  | x :: l => if p x then S (partition_point p l) else O
  end.
Definition binary_search (x : nat) (l : list nat) : option nat :=
  fst <$> list_find (x =.) l.

Module LengthIndex.
Record t := Make { lengths : list nat; length_counts : gmap nat nat }.
Definition new : t := Make [] ∅.

(** [NativeTextPrefixCacheLengthIndex::insert]. *)
Definition insert (tokens : list N) (index : t) : t :=
  let token_count := length tokens in
  let count := default O (length_counts index !! token_count) in
  let lengths :=
    if (count =? 0)%nat
    then let i := partition_point (λ l, (l <? token_count)%nat) (lengths index) in
         take i (lengths index) ++ token_count :: drop i (lengths index)
    else lengths index in
  Make lengths (<[token_count := S count]> (length_counts index)).

Definition remove (tokens : list N) (index : t) : t :=
  let token_count := length tokens in
  match length_counts index !! token_count with
  | None => index
  | Some count =>
      if (1 <? count)%nat
      then Make (lengths index) (<[token_count := (count - 1)%nat]> (length_counts index))
      else Make
        (match binary_search token_count (lengths index) with
         | Some i => take i (lengths index) ++ drop (S i) (lengths index)
         | None => lengths index
         end)
        (delete token_count (length_counts index))
  end.

Definition prefix_candidate_lengths (max_token_count : nat) (index : t) : list nat :=
  let upper_bound := partition_point (λ n, (n <=? max_token_count)%nat) (lengths index) in
  reverse (take upper_bound (lengths index)).

Definition is_empty (index : t) : bool := bool_decide (length_counts index = ∅).
End LengthIndex.

(** ** The LRU order

    [NativeTextPrefixCacheLruKey] with its derived order, and the set of keys. *)
Definition LruKey : Type := (N * (namespace * list N))%type.

Definition lru_insert (ns : namespace) (tokens : list N) (access : N) (lru : list LruKey) : list LruKey :=
  btree_insert (access, (ns, tokens)) lru.
Definition lru_remove (ns : namespace) (tokens : list N) (access : N) (lru : list LruKey) : list LruKey :=
  btree_remove (access, (ns, tokens)) lru.
Definition lru_promote (ns : namespace) (tokens : list N) (previous_access next_access : N)
    (lru : list LruKey) : list LruKey :=
  lru_insert ns tokens next_access (lru_remove ns tokens previous_access lru).
Definition lru_oldest (lru : list LruKey) : option LruKey := head lru.

(** ** Counters *)
Module Counters.
Record t := Make {
  hits : N; misses : N; stores : N; evictions : N; rejected : N;
  reused_tokens : N; prefill_chunks : N; prefill_tokens : N;
  checkpoint_stores : N; checkpoint_store_tokens : N;
  checkpoint_reuse_hits : N; checkpoint_reused_tokens : N;
  shared_prefix_hits : N; shared_prefix_reused_tokens : N;
  hit_tokens : N; miss_tokens : N; avoided_prefill_tokens : N;
  entries_scanned : N; namespace_entries_scanned : N;
  hit_clone_bytes : N; bytes_stored : N; bytes_evicted : N;
  resident_bytes : N; resident_entries : N;
}.
#[global] Instance eta_t : Eta t := {| eta c :=
  Make (hits c) (misses c) (stores c) (evictions c) (rejected c) (reused_tokens c)
    (prefill_chunks c) (prefill_tokens c) (checkpoint_stores c) (checkpoint_store_tokens c)
    (checkpoint_reuse_hits c) (checkpoint_reused_tokens c) (shared_prefix_hits c)
    (shared_prefix_reused_tokens c) (hit_tokens c) (miss_tokens c) (avoided_prefill_tokens c)
    (entries_scanned c) (namespace_entries_scanned c) (hit_clone_bytes c) (bytes_stored c)
    (bytes_evicted c) (resident_bytes c) (resident_entries c) |}.
Definition new : t := Make 0 0 0 0 0 0 0 0 0 0 0 0 0 0 0 0 0 0 0 0 0 0 0 0.
(** [+= n] wraps in a release build, [saturating_add] does not. *)
Definition bump (n c : N) : N := wrap_add c n.
Definition grow (n c : N) : N := sat_add c n.

Definition record_hit (tokens : N) (c : t) : t :=
  c <| hits ::= bump 1 |> <| reused_tokens ::= grow tokens |>
    <| hit_tokens ::= grow tokens |> <| avoided_prefill_tokens ::= grow tokens |>.
Definition record_miss (c : t) : t := c <| misses ::= bump 1 |>.
Definition record_miss_tokens (tokens : N) (c : t) : t := c <| miss_tokens ::= grow tokens |>.
Definition record_prefill_chunk (tokens : N) (c : t) : t :=
  c <| prefill_chunks ::= bump 1 |> <| prefill_tokens ::= grow tokens |>.
Definition record_checkpoint_store (tokens : N) (c : t) : t :=
  c <| checkpoint_stores ::= bump 1 |> <| checkpoint_store_tokens ::= grow tokens |>.
Definition record_checkpoint_reuse (tokens : N) (c : t) : t :=
  c <| checkpoint_reuse_hits ::= bump 1 |> <| checkpoint_reused_tokens ::= grow tokens |>.
Definition record_shared_prefix_reuse (tokens : N) (c : t) : t :=
  c <| shared_prefix_hits ::= bump 1 |> <| shared_prefix_reused_tokens ::= grow tokens |>.
Definition record_lookup_scan (scanned namespace_scanned : N) (c : t) : t :=
  c <| entries_scanned ::= grow scanned |> <| namespace_entries_scanned ::= grow namespace_scanned |>.
Definition record_hit_clone_bytes (n : N) (c : t) : t := c <| hit_clone_bytes ::= grow n |>.
Definition record_store (n : N) (c : t) : t := c <| stores ::= bump 1 |> <| bytes_stored ::= bump n |>.
Definition record_eviction (n : N) (c : t) : t :=
  c <| evictions ::= bump 1 |> <| bytes_evicted ::= bump n |>.
Definition record_rejected (c : t) : t := c <| rejected ::= bump 1 |>.
Definition record_residency (bytes entries : N) (c : t) : t :=
  c <| resident_bytes := bytes |> <| resident_entries := entries |>.
End Counters.
Import Counters.

(** ** Cached values *)
Abbreviation F32 := N (only parsing).

(** The trait [NativeTextPrefixCacheValue]: [C] a layer cache, [St] its
    retained state. *)
Class NativeTextPrefixCacheValue (C St : Type) := {
  prefix_cache_state : list C → list St;
  prefix_cache_from_state : list St → option (list C);
  prefix_cache_entry_bytes : list F32 → list St → N;
}.

Section cache.
Context {C St : Type} `{NativeTextPrefixCacheValue C St}.

Record Payload := MkPayload { hidden : list F32; states : list St }.
Record Entry := MkEntry { payload : Payload; byte_len : N; last_used : N }.
Record Hit := MkHit { token_count : nat; hit_hidden : list F32; caches : list C }.

Abbreviation bucket := (gmap (list N) Entry) (only parsing).

Record Inner := MkInner {
  entries : gmap namespace bucket;
  indexes : gmap namespace LengthIndex.t;
  lru : list LruKey;
  used_bytes : N;
  next_access : N;
}.
#[export] Instance eta_Inner : Eta Inner := {| eta i :=
  MkInner (entries i) (indexes i) (lru i) (used_bytes i) (next_access i) |}.

Definition inner_default : Inner := MkInner ∅ ∅ [] 0 0.

(** [next_access]: the counter before, saturating. *)
Definition take_access (i : Inner) : N * Inner :=
  (next_access i, i <| next_access ::= λ a, sat_add a 1 |>).

Definition entry_count (i : Inner) : N := N.of_nat (length (lru i)).

Definition remove_entry (ns : namespace) (tokens : list N) (i : Inner) : option Entry * Inner :=
  match entries i !! ns with
  | None => (None, i)
  | Some b =>
      let entry := b !! tokens in
      let b := delete tokens b in
      let i := i <| entries ::= <[ns := b]> |> in
      let i :=
        match entry with
        | None => i
        | Some e =>
            let i := i <| lru ::= lru_remove ns tokens (last_used e) |> in
            match indexes i !! ns with
            | None => i
            | Some index =>
                let index := LengthIndex.remove tokens index in
                if LengthIndex.is_empty index
                then i <| indexes ::= delete ns |>
                else i <| indexes ::= <[ns := index]> |>
            end
        end in
      (entry, if bool_decide (b = ∅) then i <| entries ::= delete ns |> else i)
  end.

Definition remove_lru_entry (i : Inner) : option Entry * Inner :=
  match lru_oldest (lru i) with
  | None => (None, i)
  | Some (_, (ns, tokens)) => remove_entry ns tokens i
  end.

(** The loop over the candidate lengths, on the parts of the state it borrows.
    [None] is the panic of slicing [tokens] past its end. *)
Record Scan := MkScan {
  scan_bucket : bucket;
  scan_lru : list LruKey;
  scan_access : N;
  scanned : N;
}.
#[export] Instance eta_Scan : Eta Scan := {| eta s :=
  MkScan (scan_bucket s) (scan_lru s) (scan_access s) (scanned s) |}.

Fixpoint scan (is_compatible : list St → bool) (ns : namespace) (tokens : list N)
    (candidates : list nat) (s : Scan) : option (option (nat * N * Payload) * Scan) :=
  match candidates with
  | [] => Some (None, s)
  | token_count :: candidates =>
      entry_tokens ← slice tokens 0 (N.of_nat token_count);
      match scan_bucket s !! entry_tokens with
      | None => scan is_compatible ns tokens candidates s
      | Some entry =>
          let s := s <| scanned ::= λ n, n + 1 |> in
          if is_compatible (states (payload entry)) then
            let access := scan_access s in
            Some (Some (token_count, byte_len entry, payload entry),
              s <| scan_access := sat_add access 1 |>
                <| scan_bucket ::= <[entry_tokens := MkEntry (payload entry) (byte_len entry) access]> |>
                <| scan_lru ::= lru_promote ns entry_tokens (last_used entry) access |>)
          else scan is_compatible ns tokens candidates s
      end
  end.

(** The critical section of [lookup_compatible]. *)
Definition lookup_locked (is_compatible : list St → bool) (ns : namespace) (tokens : list N) (i : Inner)
    : option (option (nat * N * Payload) * N * Inner) :=
  let candidates :=
    match indexes i !! ns with
    | Some index => LengthIndex.prefix_candidate_lengths (length tokens) index
    | None => []
    end in
  match entries i !! ns with
  | None => Some (None, 0, i)
  | Some b =>
      '(hit, s) ← scan is_compatible ns tokens candidates (MkScan b (lru i) (next_access i) 0);
      Some (hit, scanned s,
        i <| entries ::= <[ns := scan_bucket s]> |> <| lru := scan_lru s |>
          <| next_access := scan_access s |>)
  end.

Definition lookup_compatible (is_compatible : list St → bool) (ns : namespace) (tokens : list N)
    (y : Inner * Counters.t) : option (option Hit * (Inner * Counters.t)) :=
  let '(i, metrics) := y in
  '(hit, n, i) ← lookup_locked is_compatible ns tokens i;
  let metrics := record_lookup_scan n n metrics in
  let missed := record_miss_tokens (N.of_nat (length tokens)) (record_miss metrics) in
  match hit with
  | None => Some (None, (i, missed))
  | Some (best_len, clone_bytes, p) =>
      match prefix_cache_from_state (states p) with
      | None => Some (None, (i, missed))
      | Some cs =>
          let hit_tokens := N.of_nat best_len in
          let metrics := record_hit hit_tokens metrics in
          let metrics := record_miss_tokens (sat_sub (N.of_nat (length tokens)) hit_tokens) metrics in
          let metrics := record_hit_clone_bytes clone_bytes metrics in
          Some (Some (MkHit best_len (hidden p) cs), (i, metrics))
      end
  end.

(** The [while] loop of [store]; [None] when the fuel is spent. *)
Fixpoint evict (fuel : nat) (max_bytes len : N) (i : Inner) (evicted : list N)
    : option (list N * Inner) :=
  match fuel with
  | O => None
  | S fuel =>
      if sat_add (used_bytes i) len <=? max_bytes then Some (evicted, i)
      else
        match remove_lru_entry i with
        | (None, i) => Some (evicted, i)
        | (Some e, i) =>
            evict fuel max_bytes len
              (i <| used_bytes ::= λ u, sat_sub u (byte_len e) |>)
              (evicted ++ [byte_len e])
        end
  end.

(** The insertion at the end of the critical section. *)
Definition insert_entry (ns : namespace) (tokens : list N) (p : Payload) (len : N) (i : Inner) : Inner :=
  let '(access, i) := take_access i in
  i <| entries ::= partial_alter (λ b, Some (<[tokens := MkEntry p len access]> (default ∅ b))) ns |>
    <| lru ::= lru_insert ns tokens access |>
    <| indexes ::= partial_alter
         (λ x, Some (LengthIndex.insert tokens (default LengthIndex.new x))) ns |>
    <| used_bytes ::= λ u, sat_add u len |>.

Definition store (fuel : nat) (max_bytes : N) (ns : namespace) (tokens : list N) (hidden : list F32)
    (cs : list C) (y : Inner * Counters.t) : option (bool * (Inner * Counters.t)) :=
  let '(i, metrics) := y in
  if bool_decide (tokens = []) then Some (false, (i, metrics))
  else
    let states := prefix_cache_state cs in
    let len := prefix_cache_entry_bytes hidden states in
    if max_bytes <? len then Some (false, (i, record_rejected metrics))
    else
      let '(existing, i) := remove_entry ns tokens i in
      let i := match existing with
               | Some e => i <| used_bytes ::= λ u, sat_sub u (byte_len e) |>
               | None => i
               end in
      '(evicted, i) ← evict fuel max_bytes len i [];
      let i := insert_entry ns tokens (MkPayload hidden states) len i in
      let metrics := foldl (λ m n, record_eviction n m) metrics evicted in
      let metrics := record_store len metrics in
      Some (true, (i, record_residency (used_bytes i) (entry_count i) metrics)).
End cache.
