(* ===== verification/PrefixCacheInv.v ===== *)
(** * The prefix cache: invariant

    The flat view of the cache's two-level map, what makes the LRU order, the
    length index and the byte count agree with it, and what each internal
    operation does to them. *)
From Stdlib Require Import Sorted.
From stdpp Require Import base gmap sets numbers list.
From S2P Require Import Prelude Ord Text PrefixCache.
Open Scope N_scope.
Open Scope record_scope.

(** ** Sorted vectors of lengths *)
Abbreviation ascending := (StronglySorted lt) (only parsing).

Lemma ascending_insert x l :
  ascending l → x ∉ l →
  let i := partition_point (λ y, (y <? x)%nat) l in
  ascending (take i l ++ x :: drop i l) ∧ ∀ y, y ∈ take i l ++ x :: drop i l ↔ y = x ∨ y ∈ l.
Proof.
  intros Hl Hx. cbv zeta. induction Hl as [|z l Hl IH Hz]; simpl.
  { split; [repeat constructor|set_solver]. }
  rewrite Forall_forall in Hz. destruct (Nat.ltb_spec z x) as [Hlt|Hge]; simpl.
  - destruct IH as [IHs IHe]; [set_solver|]. split.
    + constructor; [done|]. apply Forall_forall. intros y [->|Hy]%IHe; [done|by apply Hz].
    + intros y. rewrite !elem_of_cons, IHe. naive_solver.
  - assert (x < z)%nat by (destruct (decide (x = z)); [set_solver|lia]). split.
    + repeat constructor; [done|by rewrite Forall_forall|done|].
      apply Forall_forall. intros y Hy. specialize (Hz y Hy). lia.
    + set_solver.
Qed.

Lemma ascending_NoDup l : ascending l → NoDup l.
Proof.
  induction 1 as [|z l Hl IH Hz]; constructor; [|done].
  rewrite Forall_forall in Hz. intros Hin. specialize (Hz z Hin). lia.
Qed.

Lemma ascending_delete x l :
  ascending l →
  match binary_search x l with
  | Some i => ascending (take i l ++ drop (S i) l) ∧ ∀ y, y ∈ take i l ++ drop (S i) l ↔ y ≠ x ∧ y ∈ l
  | None => x ∉ l
  end.
Proof.
  intros Hl. unfold binary_search. induction Hl as [|z l Hl IH Hz]; [set_solver|].
  rewrite Forall_forall in Hz. simpl. destruct (decide (x = z)) as [->|Hne]; simpl.
  - split; [done|]. intros y. rewrite elem_of_cons.
    split; [intros Hy; specialize (Hz y Hy); split; [lia|by right]|naive_solver].
  - destruct (list_find (x =.) l) as [[i w]|]; simpl in *; [|set_solver]. destruct IH as [IHs IHe]. split.
    + constructor; [done|]. apply Forall_forall. intros y [_ Hy]%IHe. by apply Hz.
    + intros y. rewrite !elem_of_cons, IHe. naive_solver.
Qed.

(** The candidates are the indexed lengths up to the bound, longest first. *)
Lemma candidates_spec m l :
  ascending l →
  let cs := reverse (take (partition_point (λ n, (n <=? m)%nat) l) l) in
  StronglySorted gt cs ∧ ∀ n, n ∈ cs ↔ (n ≤ m)%nat ∧ n ∈ l.
Proof.
  intros Hl. cbv zeta. induction Hl as [|z l Hl [IHs IHe] Hz]; simpl.
  { split; [constructor|set_solver]. }
  rewrite Forall_forall in Hz. destruct (Nat.leb_spec z m) as [Hle|Hgt]; simpl.
  - rewrite reverse_cons. split.
    + clear IHe. assert (∀ y, y ∈ reverse (take (partition_point (λ n, (n <=? m)%nat) l) l) → (z < y)%nat) as Hlt.
      { intros y Hy. apply Hz. rewrite elem_of_reverse in Hy.
        apply elem_of_take in Hy as (i & Hi & _). by eapply list_elem_of_lookup_2. }
      revert IHs Hlt. generalize (reverse (take (partition_point (λ n, (n <=? m)%nat) l) l)). clear.
      intros cs. induction 1 as [|y cs Hc IH Hy]; intros Hlt; simpl; [repeat constructor|].
      constructor; [apply IH; set_solver|]. rewrite Forall_app. split; [done|].
      repeat constructor. apply Hlt. set_solver.
    + intros n. rewrite elem_of_app, IHe, !elem_of_cons.
      split; [intros [?|[->|[]%elem_of_nil]]|intros [? [->|?]]]; naive_solver.
  - split; [constructor|]. intros n. rewrite elem_of_cons. split; [set_solver|].
    intros [Hn [->|Hin]]; [lia|]. specialize (Hz n Hin). lia.
Qed.

(** ** The length index of a bucket *)
Section index.
Context {A : Type}.
Implicit Types b : gmap (list N) A.

(** The number of entries of a given length. *)
Definition length_count (n : nat) b : nat :=
  size (filter (λ tk, length tk = n) (dom b)).

Record index_ok b (x : LengthIndex.t) : Prop := {
  ix_counts : ∀ n, LengthIndex.length_counts x !! n =
    if decide (length_count n b = O) then None else Some (length_count n b);
  ix_sorted : ascending (LengthIndex.lengths x);
  ix_lengths : ∀ n, n ∈ LengthIndex.lengths x ↔ is_Some (LengthIndex.length_counts x !! n);
}.

Lemma length_count_insert n tk v b :
  b !! tk = None →
  length_count n (<[tk := v]> b) = ((if decide (length tk = n) then 1 else 0) + length_count n b)%nat.
Proof.
  intros Hb. unfold length_count. rewrite dom_insert_L, filter_union_L.
  apply not_elem_of_dom in Hb. rewrite size_union.
  2:{ intros y [_ ->%elem_of_singleton]%elem_of_filter [_ Hy]%elem_of_filter. done. }
  f_equal. rewrite filter_singleton_L. case_decide; [apply size_singleton|apply size_empty].
  all: apply _.
Qed.

Lemma length_count_delete n tk v b :
  b !! tk = Some v →
  length_count n b = ((if decide (length tk = n) then 1 else 0) + length_count n (delete tk b))%nat.
Proof.
  intros Hb. rewrite <- (length_count_insert n tk v) by apply lookup_delete_eq.
  by rewrite insert_delete_id.
Qed.

Lemma length_count_same n tk v w b :
  b !! tk = Some v → length_count n (<[tk := w]> b) = length_count n b.
Proof. intros Hb. unfold length_count. by rewrite dom_insert_lookup_L. Qed.

Lemma length_count_pos tk v b : b !! tk = Some v → length_count (length tk) b ≠ O.
Proof. intros Hb. rewrite (length_count_delete _ tk v) by done. rewrite decide_True by done. lia. Qed.

Lemma index_insert_ok tk v b x :
  index_ok b x → b !! tk = None → index_ok (<[tk := v]> b) (LengthIndex.insert tk x).
Proof.
  intros [Hc Hs Hl] Hb. unfold LengthIndex.insert. rewrite !Hc.
  set (n := length tk). set (c := length_count n b).
  assert (∀ k, length_count k (<[tk := v]> b) = (if decide (n = k) then S (length_count k b) else length_count k b)) as Hk.
  { intros k. rewrite length_count_insert by done. fold n. by case_decide. }
  assert (default O (if decide (c = O) then None else Some c) = c) as ->.
  { case_decide; simpl; congruence. }
  assert (∀ k, <[n := S c]> (LengthIndex.length_counts x) !! k =
    if decide (length_count k (<[tk := v]> b) = O) then None else Some (length_count k (<[tk := v]> b))) as Hc'.
  { intros k. rewrite Hk. destruct (decide (n = k)) as [<-|Hne].
    - by rewrite lookup_insert_eq.
    - by rewrite lookup_insert_ne, Hc. }
  destruct (Nat.eqb_spec c O) as [H0|H0].
  - assert (n ∉ LengthIndex.lengths x) as Hn.
    { rewrite Hl, Hc. fold c. rewrite decide_True by done. by intros [? ?]. }
    destruct (ascending_insert n _ Hs Hn) as [Hs' He]. split; simpl; [done|done|].
    intros k. rewrite He, Hl, lookup_insert_is_Some. naive_solver.
  - split; simpl; [done|done|]. intros k. rewrite Hl, lookup_insert_is_Some.
    split; [|intros [<-|[_ ?]]; [|done]].
    + intros ?. destruct (decide (n = k)); naive_solver.
    + rewrite Hc. fold c. rewrite decide_False by done. by eexists.
Qed.

Lemma index_remove_ok tk v b x :
  index_ok b x → b !! tk = Some v → index_ok (delete tk b) (LengthIndex.remove tk x).
Proof.
  intros [Hc Hs Hl] Hb. unfold LengthIndex.remove. rewrite Hc.
  pose proof (length_count_pos _ _ _ Hb) as Hpos. set (n := length tk) in *.
  assert (∀ k, length_count k b = (if decide (n = k) then S (length_count k (delete tk b)) else length_count k (delete tk b))) as Hk.
  { intros k. rewrite (length_count_delete k tk v) by done. fold n. by case_decide. }
  pose proof (Hk n) as Hkn. rewrite decide_True in Hkn by done.
  rewrite decide_False by done. rewrite Hkn. destruct (Nat.ltb_spec 1 (S (length_count n (delete tk b)))) as [Hlt|Hge].
  - split; simpl; [|done|].
    + intros k. destruct (decide (n = k)) as [<-|Hne].
      * rewrite lookup_insert_eq, decide_False by lia. by rewrite Nat.sub_0_r.
      * rewrite lookup_insert_ne, Hc, (Hk k), (decide_False (P := n = k)) by done. done.
    + intros k. rewrite Hl, lookup_insert_is_Some. destruct (decide (n = k)) as [<-|Hne]; [|naive_solver].
      rewrite Hc, decide_False by done. naive_solver.
  - assert (length_count n (delete tk b) = O) as H0 by lia.
    pose proof (ascending_delete n _ Hs) as Hd. destruct (binary_search n (LengthIndex.lengths x)) as [i|].
    + destruct Hd as [Hs' He]. split; simpl; [|done|].
      * intros k. destruct (decide (n = k)) as [<-|Hne].
        -- by rewrite lookup_delete_eq, H0.
        -- rewrite lookup_delete_ne, Hc, (Hk k), (decide_False (P := n = k)) by done. done.
      * intros k. rewrite He, Hl, lookup_delete_is_Some. naive_solver.
    + exfalso. apply Hd. rewrite Hl, Hc, decide_False by done. by eexists.
Qed.

Lemma index_empty_iff b x : index_ok b x → LengthIndex.is_empty x = bool_decide (b = ∅).
Proof.
  intros [Hc _ _]. unfold LengthIndex.is_empty. apply bool_decide_ext. split.
  - intros He. apply map_empty. intros tk. destruct (b !! tk) as [v|] eqn:Hb; [|done].
    apply length_count_pos in Hb as Hpos. specialize (Hc (length tk)).
    rewrite He, lookup_empty, decide_False in Hc; done.
  - intros ->. apply map_empty. intros n. rewrite Hc. unfold length_count.
    rewrite dom_empty_L, filter_empty_L, size_empty; [done|apply _].
Qed.

Lemma index_new_ok : index_ok ∅ LengthIndex.new.
Proof.
  split; simpl; [|constructor|].
  - intros n. unfold length_count. rewrite dom_empty_L, filter_empty_L, size_empty; [done|apply _].
  - intros n. rewrite lookup_empty. split; [set_solver|by intros [? ?]].
Qed.
End index.

(** ** The cache *)
Section inv.
Context {C St : Type} `{NativeTextPrefixCacheValue C St}.
Implicit Types i : @Inner St.
Implicit Types k : (namespace * list N)%type.

(** The entries by full key. *)
Definition contents i : gmap (namespace * list N) (@Entry St) :=
  map_uncurry (M1 := gmap namespace) (M2 := gmap (list N)) (M12 := gmap (namespace * list N)) (entries i).

Lemma contents_lookup i ns tk : contents i !! (ns, tk) = entries i !! ns ≫= (.!! tk).
Proof. apply lookup_map_uncurry. Qed.

(** The tables agree: no empty bucket, an index for each bucket, the LRU order
    holding exactly one key per entry, all accesses in the past. *)
Record struct_inv i : Prop := {
  si_bucket : ∀ ns b, entries i !! ns = Some b → b ≠ ∅;
  si_index : ∀ ns, option_Forall2 index_ok (entries i !! ns) (indexes i !! ns);
  si_sorted : increasing (lru i);
  si_lru : ∀ a k, (a, k) ∈ lru i ↔ ∃ e, contents i !! k = Some e ∧ last_used e = a;
  si_key : ∀ ns, contents i !! (ns, []) = None;
  si_past : ∀ k e, next_access i < u64_max → contents i !! k = Some e → last_used e < next_access i;
  si_distinct : ∀ k1 k2 e1 e2, next_access i < u64_max →
    contents i !! k1 = Some e1 → contents i !! k2 = Some e2 → last_used e1 = last_used e2 → k1 = k2;
}.

Definition bytes_exact i : Prop := used_bytes i = map_sum byte_len (contents i).

Record cache_inv (max_bytes : N) i : Prop := {
  ci_struct : struct_inv i;
  ci_bytes : bytes_exact i;
  ci_budget : used_bytes i ≤ max_bytes;
}.

Lemma contents_default k : contents inner_default !! k = None.
Proof. destruct k. by rewrite contents_lookup. Qed.

Lemma struct_inv_default : struct_inv inner_default.
Proof.
  pose proof contents_default as He.
  split.
  - intros ns b. done.
  - intros ns. constructor.
  - constructor.
  - intros a k. rewrite He. split; [intros []%elem_of_nil|naive_solver].
  - intros ns. apply He.
  - intros k e _. by rewrite He.
  - intros k1 k2 e1 e2 _. by rewrite He.
Qed.

Lemma cache_inv_default max_bytes : cache_inv max_bytes inner_default.
Proof.
  split; [apply struct_inv_default| |simpl; lia].
  unfold bytes_exact. by rewrite map_sum_zero by apply contents_default.
Qed.

(** Removing the entries of [i] to obtain [i'] leaves the rest consistent. *)
Lemma struct_inv_shrink i i' k :
  struct_inv i →
  (∀ ns b, entries i' !! ns = Some b → b ≠ ∅) →
  (∀ ns, option_Forall2 index_ok (entries i' !! ns) (indexes i' !! ns)) →
  contents i' = delete k (contents i) →
  lru i' = match contents i !! k with
           | Some e => btree_remove (last_used e, k) (lru i)
           | None => lru i
           end →
  next_access i' = next_access i →
  struct_inv i'.
Proof.
  intros [_ _ Hs Hl Hk Hp Hd] Hb Hx Hc Hlru Hn. split; [done|done| | | | |].
  - rewrite Hlru. destruct (contents i !! k); [by apply increasing_remove|done].
  - intros a k'. rewrite Hlru, Hc. destruct (contents i !! k) as [e|] eqn:He.
    + rewrite elem_of_btree_remove, Hl by done. setoid_rewrite lookup_delete_Some.
      split; [intros [Hne (e' & He' & <-)]|intros (e' & [Hne He'] & <-)].
      * exists e'. split; [|done]. split; [intros ->; congruence|done].
      * split; [congruence|by exists e'].
    + rewrite Hl. by rewrite delete_id.
  - intros ns. rewrite Hc. apply lookup_delete_None. right. apply Hk.
  - intros k' e. rewrite Hn, Hc. intros Hlt [_ He]%lookup_delete_Some. by apply (Hp k').
  - intros k1 k2 e1 e2. rewrite Hn, Hc. intros Hlt [_ H1]%lookup_delete_Some [_ H2]%lookup_delete_Some.
    by apply Hd.
Qed.

(** The state after removing the entry [e] of the bucket [b]. *)
Definition removed_inner (ns : namespace) (tk : list N) (e : @Entry St) (b : gmap (list N) (@Entry St))
    (x : LengthIndex.t) i : @Inner St :=
  MkInner
    (if bool_decide (delete tk b = ∅) then delete ns (entries i) else <[ns := delete tk b]> (entries i))
    (if bool_decide (delete tk b = ∅) then delete ns (indexes i)
     else <[ns := LengthIndex.remove tk x]> (indexes i))
    (btree_remove (last_used e, (ns, tk)) (lru i)) (used_bytes i) (next_access i).

Lemma remove_entry_hit ns tk i b e x :
  entries i !! ns = Some b → b !! tk = Some e → indexes i !! ns = Some x → index_ok b x →
  remove_entry ns tk i = (Some e, removed_inner ns tk e b x i).
Proof.
  intros Hb He Hx Hok. unfold remove_entry, removed_inner. rewrite Hb, He. simpl. rewrite Hx.
  rewrite (index_empty_iff _ _ (index_remove_ok tk e b x Hok He)).
  f_equal. case_bool_decide; simpl; [|done]. by rewrite delete_insert_eq.
Qed.

Lemma remove_entry_spec ns tk i :
  struct_inv i → ∃ i',
    remove_entry ns tk i = (contents i !! (ns, tk), i')
    ∧ struct_inv i' ∧ contents i' = delete (ns, tk) (contents i)
    ∧ lru i' = match contents i !! (ns, tk) with
               | Some e => btree_remove (last_used e, (ns, tk)) (lru i)
               | None => lru i
               end
    ∧ used_bytes i' = used_bytes i ∧ next_access i' = next_access i.
Proof.
  intros Hi. rewrite contents_lookup.
  destruct (entries i !! ns) as [b|] eqn:Hb; simpl.
  2:{ exists i. unfold remove_entry. rewrite Hb. split_and!; try done.
      rewrite delete_id; [done|]. by rewrite contents_lookup, Hb. }
  pose proof (si_index i Hi ns) as Hix. rewrite Hb in Hix. inversion Hix as [? x Hok Hb' Hx|]; subst.
  pose proof (si_bucket i Hi ns b Hb) as Hne.
  destruct (b !! tk) as [e|] eqn:He.
  2:{ unfold remove_entry. rewrite Hb, He, delete_id by done.
      rewrite bool_decide_false by done. eexists. split; [done|].
      assert (<[ns:=b]> (entries i) = entries i) as Hid by by apply insert_id.
      split_and!; try done.
      - destruct i; simpl in *. by rewrite Hid.
      - rewrite delete_id by (by rewrite contents_lookup, Hb). unfold contents; simpl. by rewrite Hid. }
  rewrite (remove_entry_hit _ _ _ _ _ _ Hb He (eq_sym Hx) Hok).
  pose proof (index_remove_ok tk e b x Hok He) as Hok'. set (j := removed_inner _ _ _ _ _ _).
  assert (contents j = delete (ns, tk) (contents i)) as Hcon.
  { apply map_eq. intros [ns' tk']. rewrite contents_lookup. unfold j. simpl.
    destruct (decide (ns' = ns)) as [->|Hns].
    - rewrite lookup_delete. rewrite contents_lookup, Hb. cbn.
      case_bool_decide as Hemp.
      + rewrite lookup_delete_eq. simpl. case_decide as Hk; [done|].
        assert (delete tk b !! tk' = None) as Hn by (rewrite Hemp; apply lookup_empty).
        rewrite lookup_delete_ne in Hn by congruence. done.
      + rewrite lookup_insert_eq. simpl. rewrite lookup_delete. case_decide; case_decide; naive_solver.
    - rewrite lookup_delete_ne by congruence. rewrite contents_lookup.
      case_bool_decide; [rewrite lookup_delete_ne by done|rewrite lookup_insert_ne by done]; done. }
  exists j. split; [done|]. split; [|done]. apply (struct_inv_shrink i j (ns, tk)); try done.
  - intros ns' b'. unfold j. simpl. case_bool_decide as Hemp.
    + intros [_ ?]%lookup_delete_Some. by apply (si_bucket i Hi ns').
    + intros [[<- <-]|[_ ?]]%lookup_insert_Some; [done|]. by apply (si_bucket i Hi ns').
  - intros ns'. unfold j. simpl. case_bool_decide as Hemp; destruct (decide (ns' = ns)) as [->|Hns].
    + rewrite !lookup_delete_eq. constructor.
    + rewrite !lookup_delete_ne by done. apply (si_index i Hi).
    + rewrite !lookup_insert_eq. by constructor.
    + rewrite !lookup_insert_ne by done. apply (si_index i Hi).
  - by rewrite contents_lookup, Hb; simpl; rewrite He.
Qed.

(** ** Eviction *)

(** The contents without some keys. *)
Definition without (ks : list (N * (namespace * list N))) (m : gmap (namespace * list N) (@Entry St)) :=
  foldl (λ m x, delete x.2 m) m ks.

Lemma without_lookup ks m k :
  without ks m !! k = if decide (k ∈ ks.*2) then None else m !! k.
Proof.
  revert m. induction ks as [|[a k'] ks IH]; intros m; [done|]. cbn [without foldl]. unfold without in IH.
  rewrite IH, lookup_delete. simpl.
  destruct (decide (k ∈ ks.*2)); [by rewrite decide_True by (by right)|].
  destruct (decide (k' = k)) as [->|].
  - by rewrite (decide_True (P := k ∈ k :: _)) by (by left).
  - rewrite (decide_False (P := k ∈ k' :: _)); [done|]. rewrite elem_of_cons. naive_solver.
Qed.

(** An LRU key's entry is there, so removing the oldest entry removes it. *)
Lemma remove_lru_spec i a k rest :
  struct_inv i → lru i = (a, k) :: rest → ∃ e i',
    remove_lru_entry i = (Some e, i') ∧ contents i !! k = Some e ∧ last_used e = a
    ∧ struct_inv i' ∧ contents i' = delete k (contents i) ∧ lru i' = rest
    ∧ used_bytes i' = used_bytes i ∧ next_access i' = next_access i.
Proof.
  intros Hi Hl. destruct k as [ns tk].
  destruct (proj1 (si_lru i Hi a (ns, tk))) as (e & He & Ha); [rewrite Hl; by left|].
  destruct (remove_entry_spec ns tk i Hi) as (i' & Hr & Hi' & Hc & Hlru & Hu & Hn).
  exists e, i'. unfold remove_lru_entry, lru_oldest. rewrite Hl. simpl. rewrite Hr, He. split_and!; try done.
  rewrite Hlru, He, Hl, Ha. apply btree_remove_head.
Qed.

(** The state after the loop's body. *)
Definition uncharge (n : N) i : @Inner St := i <| used_bytes ::= λ u, sat_sub u n |>.

Lemma uncharge_frame n i :
  entries (uncharge n i) = entries i ∧ lru (uncharge n i) = lru i ∧ next_access (uncharge n i) = next_access i
  ∧ contents (uncharge n i) = contents i ∧ used_bytes (uncharge n i) = used_bytes i - n.
Proof. done. Qed.

Lemma struct_inv_uncharge n i : struct_inv i → struct_inv (uncharge n i).
Proof. by intros []. Qed.

Lemma evict_stop fuel max_bytes len i acc :
  sat_add (used_bytes i) len ≤ max_bytes → evict (S fuel) max_bytes len i acc = Some (acc, i).
Proof. intros Hle. cbn [evict]. by rewrite (proj2 (N.leb_le _ _) Hle). Qed.

Lemma evict_step fuel max_bytes len i acc e i1 :
  max_bytes < sat_add (used_bytes i) len → remove_lru_entry i = (Some e, i1) →
  evict (S fuel) max_bytes len i acc
  = evict fuel max_bytes len (uncharge (byte_len e) i1) (acc ++ [byte_len e]).
Proof. intros Hgt Hr. cbn [evict]. by rewrite (proj2 (N.leb_gt _ _) Hgt), Hr. Qed.

Lemma lru_nil_empty i : struct_inv i → lru i = [] → map_sum byte_len (contents i) = 0.
Proof.
  intros Hi Hl. apply map_sum_zero. intros k. destruct (contents i !! k) as [e|] eqn:He; [|done].
  assert ((last_used e, k) ∈ lru i) as Hin by (apply si_lru; eauto).
  rewrite Hl in Hin. by apply elem_of_nil in Hin.
Qed.

(** The oldest entry's charge is not that of a younger one. *)
Lemma evicted_sizes i a k rest e n :
  struct_inv i → lru i = (a, k) :: rest → contents i !! k = Some e → last_used e = a →
  omap (λ x, byte_len <$> contents i !! x.2) (take (S n) (lru i))
  = byte_len e :: omap (λ x, byte_len <$> delete k (contents i) !! x.2) (take n rest).
Proof.
  intros Hi Hl He Ha. rewrite Hl. cbn. rewrite He. cbn. f_equal.
  apply omap_ext_in. intros [a' k'] Hk'. cbn. rewrite lookup_delete_ne; [done|].
  intros <-. apply elem_of_take in Hk' as (j & Hj & _). apply list_elem_of_lookup_2 in Hj.
  assert ((a', k) ∈ lru i) as Hin by (rewrite Hl; by right).
  apply (si_lru i Hi) in Hin as (e' & He' & <-). rewrite He in He'. injection He' as <-.
  pose proof (si_sorted i Hi) as Hs. rewrite Hl in Hs.
  apply increasing_NoDup, NoDup_cons in Hs as [Hs _]. apply Hs. by rewrite <- Ha.
Qed.

Lemma evict_spec fuel max_bytes len i acc :
  struct_inv i → bytes_exact i → len ≤ max_bytes → max_bytes < u64_max →
  (length (lru i) < fuel)%nat → ∃ n i',
    evict fuel max_bytes len i acc
      = Some (acc ++ omap (λ x, byte_len <$> contents i !! x.2) (take n (lru i)), i')
    ∧ struct_inv i' ∧ bytes_exact i' ∧ used_bytes i' + len ≤ max_bytes
    ∧ lru i' = drop n (lru i) ∧ contents i' = without (take n (lru i)) (contents i)
    ∧ next_access i' = next_access i
    ∧ ∀ m, (m < n)%nat → max_bytes < map_sum byte_len (without (take m (lru i)) (contents i)) + len.
Proof.
  intros Hi Hb Hlen Hmax. revert i acc Hi Hb.
  induction fuel as [|fuel IH]; intros i acc Hi Hb Hfuel; [lia|].
  destruct (N.le_gt_cases (sat_add (used_bytes i) len) max_bytes) as [Hle|Hgt].
  { exists O, i. rewrite evict_stop, take_0, drop_0, app_nil_r by done. split_and!; try done; [|lia].
    unfold sat_add in Hle. lia. }
  assert (max_bytes < used_bytes i + len) as Hgt' by (unfold sat_add in Hgt; lia).
  destruct (lru i) as [|[a k] rest] eqn:Hl.
  { exfalso. unfold bytes_exact in Hb. rewrite lru_nil_empty in Hb by done. lia. }
  destruct (remove_lru_spec i a k rest Hi Hl) as (e & i1 & Hr & He & Ha & Hi1 & Hc1 & Hl1 & Hu1 & Hn1).
  pose proof (map_sum_delete byte_len (contents i) k e He) as Hsum.
  destruct (uncharge_frame (byte_len e) i1) as (_ & Fl & Fn & Fc & Fu).
  rewrite Hc1 in Fc. rewrite Hl1 in Fl. rewrite Hn1 in Fn. rewrite Hu1 in Fu.
  destruct (IH (uncharge (byte_len e) i1) (acc ++ [byte_len e]))
    as (n & i' & Hev & Hi' & Hb' & Hle' & Hl' & Hc' & Hn' & Hmin).
  - by apply struct_inv_uncharge.
  - unfold bytes_exact in *. rewrite Fc, Fu. lia.
  - rewrite Fl. simpl in Hfuel. lia.
  - rewrite Fl, Fc in *. rewrite <- Hl. exists (S n), i'. split_and!.
    + rewrite (evict_step _ _ _ _ _ _ _ Hgt Hr), Hev, (evicted_sizes i a k rest e) by done.
      by rewrite <- app_assoc.
    + done.
    + done.
    + done.
    + by rewrite Hl.
    + by rewrite Hl.
    + congruence.
    + rewrite Hl. intros [|m] Hm; [cbn; unfold bytes_exact in Hb; lia|]. apply (Hmin m). lia.
Qed.

(** ** Insertion *)
Lemma insert_entry_spec ns tk p len i :
  struct_inv i → bytes_exact i → contents i !! (ns, tk) = None → tk ≠ [] →
  used_bytes i + len ≤ u64_max →
  let i' := insert_entry ns tk p len i in
  struct_inv i' ∧ bytes_exact i'
  ∧ contents i' = <[(ns, tk) := MkEntry p len (next_access i)]> (contents i)
  ∧ used_bytes i' = used_bytes i + len ∧ next_access i' = sat_add (next_access i) 1.
Proof.
  intros Hi Hb Hfresh Htk Hu i'.
  assert (contents i' = <[(ns, tk) := MkEntry p len (next_access i)]> (contents i)) as Hc.
  { apply map_eq. intros [ns' tk']. rewrite contents_lookup. unfold i', insert_entry. simpl.
    destruct (decide (ns' = ns)) as [->|Hns].
    - rewrite lookup_partial_alter_eq. simpl. rewrite !lookup_insert, contents_lookup.
      case_decide as Hk; case_decide as Hk'; [done|congruence|congruence|].
      by destruct (entries i !! ns) as [b|] eqn:E; simpl; rewrite ?E, ?lookup_empty.
    - rewrite lookup_partial_alter_ne, lookup_insert_ne by congruence. by rewrite contents_lookup. }
  split; [|split; [|split; [done|]]].
  2:{ unfold bytes_exact in *. rewrite Hc, map_sum_insert_fresh by done. simpl.
      rewrite sat_add_small; lia. }
  2:{ simpl. rewrite sat_add_small by lia. done. }
  assert (next_access i' = sat_add (next_access i) 1) as Hna by done.
  assert (lru i' = btree_insert (next_access i, (ns, tk)) (lru i)) as Hlr by done.
  destruct Hi as [Hbk Hix Hs Hl Hk Hp Hd]. split.
  - intros ns' b. unfold i', insert_entry. simpl. destruct (decide (ns' = ns)) as [->|Hns].
    + rewrite lookup_partial_alter_eq. intros [= <-]. apply insert_non_empty.
    + rewrite lookup_partial_alter_ne by done. apply Hbk.
  - intros ns'. unfold i', insert_entry. simpl. destruct (decide (ns' = ns)) as [->|Hns].
    + rewrite !lookup_partial_alter_eq. constructor. rewrite contents_lookup in Hfresh.
      specialize (Hix ns). inversion Hix as [b x Hok Hb' Hx'|Hb' Hx']; simpl.
      * rewrite <- Hb' in Hfresh. by apply index_insert_ok.
      * apply index_insert_ok; [apply index_new_ok|apply lookup_empty].
    + rewrite !lookup_partial_alter_ne by done. apply Hix.
  - rewrite Hlr. by apply increasing_insert.
  - intros a k. rewrite Hlr, elem_of_btree_insert, Hl, Hc.
    setoid_rewrite lookup_insert_Some. split.
    + intros [[= -> ->]|(e & He & <-)]; [eexists; split; [by left|done]|].
      exists e. split; [|done]. right. split; [intros <-; congruence|done].
    + intros (e & [[<- <-]|[_ He]] & <-); [by left|right; by exists e].
  - intros ns'. rewrite Hc, lookup_insert_ne by congruence. apply Hk.
  - intros k e. rewrite Hna, Hc. unfold sat_add.
    intros Hlt [[<- <-]|[_ He]]%lookup_insert_Some; simpl; [lia|]. specialize (Hp k e ltac:(lia) He). lia.
  - intros k1 k2 e1 e2. rewrite Hna, Hc. unfold sat_add.
    intros Hlt [[<- <-]|[_ H1]]%lookup_insert_Some [[<- <-]|[_ H2]]%lookup_insert_Some; simpl; intros He.
    + done.
    + specialize (Hp k2 e2 ltac:(lia) H2). lia.
    + specialize (Hp k1 e1 ltac:(lia) H1). lia.
    + apply (Hd k1 k2 e1 e2); [lia|done..].
Qed.
End inv.
