(* ===== verification/PrefixCacheTheorems.v ===== *)
(** * The prefix cache: theorems

    Lookups and stores in any order keep the cache consistent and within its
    budget, a lookup serves the longest usable prefix from the last store of
    it, and a store evicts the least recently used entries it must. *)
From Stdlib Require Import Sorted.
From stdpp Require Import base gmap sets numbers list.
From S2P Require Import Prelude Ord Text PrefixCache PrefixCacheInv.
Open Scope N_scope.
Open Scope record_scope.

Section cache.
Context {C St : Type} `{NativeTextPrefixCacheValue C St}.
Implicit Types i : @Inner St.

(** ** Runs *)
Inductive op :=
| Lookup (is_compatible : list St → bool) (ns : namespace) (tokens : list N)
| Store (ns : namespace) (tokens : list N) (hidden : list F32) (cs : list C).

(** The eviction loop runs at most once per entry. *)
Definition store_fuel (i : @Inner St) : nat := S (length (lru i)).

Definition run_op (max_bytes : N) (y : @Inner St * Counters.t) (o : op) : option (@Inner St * Counters.t) :=
  match o with
  | Lookup compat ns tokens => snd <$> lookup_compatible compat ns tokens y
  | Store ns tokens hidden cs => snd <$> store (store_fuel y.1) max_bytes ns tokens hidden cs y
  end.

Fixpoint run (max_bytes : N) (ops : list op) (y : @Inner St * Counters.t) : option (@Inner St * Counters.t) :=
  match ops with
  | [] => Some y
  | o :: ops => run_op max_bytes y o ≫= run max_bytes ops
  end.

(** A store is accepted when it has tokens and its entry fits the budget. *)
Definition accepted (max_bytes : N) (tokens : list N) (hidden : list F32) (cs : list C) : bool :=
  negb (bool_decide (tokens = [])) && (prefix_cache_entry_bytes hidden (prefix_cache_state cs) <=? max_bytes).

(** What the last accepted store of a key put there. *)
Definition record_op (max_bytes : N) (stored : gmap (namespace * list N) (@Payload St)) (o : op) :=
  match o with
  | Lookup _ _ _ => stored
  | Store ns tokens hidden cs =>
      if accepted max_bytes tokens hidden cs
      then <[(ns, tokens) := MkPayload hidden (prefix_cache_state cs)]> stored
      else stored
  end.
Definition last_stores (max_bytes : N) (ops : list op) : gmap (namespace * list N) (@Payload St) :=
  foldl (record_op max_bytes) ∅ ops.

(** ** Lookup *)
Definition usable (compat : list St → bool) (e : @Entry St) : Prop := compat (states (payload e)) = true.

Lemma slice_prefix (tokens : list N) n :
  (n ≤ length tokens)%nat → slice tokens 0 (N.of_nat n) = Some (take n tokens).
Proof.
  intros Hn. unfold slice. rewrite (proj2 (N.leb_le _ _)), (proj2 (N.leb_le _ _)) by lia. simpl.
  by rewrite drop_0, N.sub_0_r, Nat2N.id.
Qed.

Lemma scan_spec compat ns tokens cs (s : @Scan St) :
  (∀ n, n ∈ cs → (n ≤ length tokens)%nat) → ∃ k,
  (scan compat ns tokens cs s = Some (None, MkScan (scan_bucket s) (scan_lru s) (scan_access s) k)
   ∧ ∀ n e, n ∈ cs → scan_bucket s !! take n tokens = Some e → ¬ usable compat e)
  ∨ ∃ pre n post e, cs = pre ++ n :: post ∧ scan_bucket s !! take n tokens = Some e ∧ usable compat e
    ∧ (∀ m e, m ∈ pre → scan_bucket s !! take m tokens = Some e → ¬ usable compat e)
    ∧ scan compat ns tokens cs s = Some (Some (n, byte_len e, payload e),
        MkScan (<[take n tokens := MkEntry (payload e) (byte_len e) (scan_access s)]> (scan_bucket s))
          (lru_promote ns (take n tokens) (last_used e) (scan_access s) (scan_lru s))
          (sat_add (scan_access s) 1) k).
Proof.
  revert s. induction cs as [|n cs IH]; intros s Hle.
  { exists (scanned s). left. split; [by destruct s|]. intros n e []%elem_of_nil. }
  cbn [scan]. rewrite slice_prefix by (apply Hle; by left). cbn.
  destruct (scan_bucket s !! take n tokens) as [e|] eqn:He.
  - destruct (compat (states (payload e))) eqn:Hc.
    + exists (scanned s + 1). right. exists [], n, cs, e. split_and!; try done.
      intros m e' []%elem_of_nil.
    + destruct (IH (s <| scanned ::= λ n, n + 1 |>)) as [k Hk]; [intros m Hm; apply Hle; by right|].
      exists k. destruct Hk as [[Hs Hno]|(pre & m & post & e' & -> & He' & Hu & Hno & Hs)]; [left|right].
      * split; [done|]. intros m e' [->|Hm]%elem_of_cons He'; [unfold usable; congruence|by apply (Hno m)].
      * exists (n :: pre), m, post, e'. split_and!; try done.
        intros m' e'' [->|Hm]%elem_of_cons He''; [unfold usable; congruence|by apply (Hno m')].
  - destruct (IH s) as [k Hk]; [intros m Hm; apply Hle; by right|].
    exists k. destruct Hk as [[Hs Hno]|(pre & m & post & e' & -> & He' & Hu & Hno & Hs)]; [left|right].
    + split; [done|]. intros m e' [->|Hm]%elem_of_cons He'; [congruence|by apply (Hno m)].
    + exists (n :: pre), m, post, e'. split_and!; try done.
      intros m' e'' [->|Hm]%elem_of_cons He''; [congruence|by apply (Hno m')].
Qed.

(** Touching an entry: its last use becomes the current access. *)
Definition touched (ns : namespace) (tk : list N) (b : gmap (list N) (@Entry St)) (e : @Entry St) i : @Inner St :=
  i <| entries ::= <[ns := <[tk := MkEntry (payload e) (byte_len e) (next_access i)]> b]> |>
    <| lru := lru_promote ns tk (last_used e) (next_access i) (lru i) |>
    <| next_access := sat_add (next_access i) 1 |>.

Lemma touched_spec ns tk b e i :
  struct_inv i → entries i !! ns = Some b → b !! tk = Some e →
  let i' := touched ns tk b e i in
  struct_inv i' ∧ contents i' = <[(ns, tk) := MkEntry (payload e) (byte_len e) (next_access i)]> (contents i)
  ∧ used_bytes i' = used_bytes i ∧ next_access i' = sat_add (next_access i) 1.
Proof.
  intros Hi Hb He i'. set (e' := MkEntry (payload e) (byte_len e) (next_access i)).
  assert (contents i !! (ns, tk) = Some e) as Hce by (by rewrite contents_lookup, Hb).
  assert (contents i' = <[(ns, tk) := e']> (contents i)) as Hc.
  { apply map_eq. intros [ns' tk']. rewrite contents_lookup. unfold i', touched. simpl.
    destruct (decide (ns' = ns)) as [->|Hns].
    - rewrite lookup_insert_eq. simpl. rewrite !lookup_insert, contents_lookup, Hb. simpl.
      case_decide; case_decide; naive_solver.
    - rewrite !lookup_insert_ne by congruence. by rewrite contents_lookup. }
  assert (next_access i' = sat_add (next_access i) 1) as Hna by done.
  assert (lru i' = btree_insert (next_access i, (ns, tk)) (btree_remove (last_used e, (ns, tk)) (lru i))) as Hlr by done.
  split_and!; [|done..]. destruct Hi as [Hbk Hix Hs Hl Hk Hp Hd]. split.
  - intros ns' b'. unfold i', touched. simpl. intros [[<- <-]|[_ ?]]%lookup_insert_Some; [apply insert_non_empty|by apply (Hbk ns')].
  - intros ns'. unfold i', touched. simpl. rewrite lookup_insert. case_decide as Hns; [subst ns'|apply Hix].
    specialize (Hix ns). rewrite Hb in Hix. inversion Hix as [? x Hok|]; subst. constructor.
    destruct Hok as [Hcnt Hso Hln]. split; [|done..]. intros n. by rewrite Hcnt, (length_count_same n tk e).
  - rewrite Hlr. by apply increasing_insert, increasing_remove.
  - intros a k. rewrite Hlr, elem_of_btree_insert, elem_of_btree_remove, Hl, Hc by done.
    setoid_rewrite lookup_insert_Some. split.
    + intros [[= -> ->]|(Hne & e0 & He0 & <-)]; [eexists; split; [by left|done]|].
      exists e0. split; [|done]. right. split; [intros <-; congruence|done].
    + intros (e0 & [[<- <-]|[Hne He0]] & <-); [by left|right]. split; [congruence|by exists e0].
  - intros ns'. rewrite Hc. apply lookup_insert_None. split; [done|]. intros [= <- ->]. by rewrite Hk in Hce.
  - intros k e0. rewrite Hna, Hc. unfold sat_add.
    intros Hlt [[<- <-]|[_ He0]]%lookup_insert_Some; simpl; [lia|]. specialize (Hp k e0 ltac:(lia) He0). lia.
  - intros k1 k2 e1 e2. rewrite Hna, Hc. unfold sat_add.
    intros Hlt [[<- <-]|[_ H1]]%lookup_insert_Some [[<- <-]|[_ H2]]%lookup_insert_Some; simpl; intros Heq.
    + done.
    + specialize (Hp k2 e2 ltac:(lia) H2). lia.
    + specialize (Hp k1 e1 ltac:(lia) H1). lia.
    + apply (Hd k1 k2 e1 e2); [lia|done..].
Qed.

(** The longest prefix of [tokens] with a usable entry is the one of length
    [n], whose entry is [e]. *)
Definition longest_usable (compat : list St → bool) (ns : namespace) (tokens : list N)
    (m : gmap (namespace * list N) (@Entry St)) (n : nat) (e : @Entry St) : Prop :=
  (n ≤ length tokens)%nat ∧ m !! (ns, take n tokens) = Some e ∧ usable compat e
  ∧ ∀ n' e', (n < n' ≤ length tokens)%nat → m !! (ns, take n' tokens) = Some e' → ¬ usable compat e'.

Definition none_usable (compat : list St → bool) (ns : namespace) (tokens : list N)
    (m : gmap (namespace * list N) (@Entry St)) : Prop :=
  ∀ n e, (n ≤ length tokens)%nat → m !! (ns, take n tokens) = Some e → ¬ usable compat e.

Lemma descending_split pre n post m :
  StronglySorted gt (pre ++ n :: post) → m ∈ pre ++ n :: post → (n < m)%nat → m ∈ pre.
Proof.
  induction pre as [|x pre IH]; cbn [app]; intros Hs Hm Hlt; apply StronglySorted_inv in Hs as [Hs Hf];
    rewrite Forall_forall in Hf; apply elem_of_cons in Hm as [->|Hm].
  - lia.
  - specialize (Hf m Hm). lia.
  - by left.
  - right. by apply IH.
Qed.

Lemma lookup_locked_spec compat ns tokens i :
  struct_inv i → ∃ k,
  (lookup_locked compat ns tokens i = Some (None, k, i) ∧ none_usable compat ns tokens (contents i))
  ∨ ∃ n b e, longest_usable compat ns tokens (contents i) n e ∧ entries i !! ns = Some b
    ∧ b !! take n tokens = Some e
    ∧ lookup_locked compat ns tokens i
      = Some (Some (n, byte_len e, payload e), k, touched ns (take n tokens) b e i).
Proof.
  intros Hi. unfold lookup_locked, none_usable, longest_usable.
  setoid_rewrite contents_lookup. pose proof (si_index i Hi ns) as Hix.
  destruct (entries i !! ns) as [b|] eqn:Hb; [|exists 0; by left].
  inversion Hix as [b0 x [Hcnt Hs Hln] Hb0 Hx|]; subst.
  destruct (candidates_spec (length tokens) _ Hs) as [Hds Hdc].
  fold (LengthIndex.prefix_candidate_lengths (length tokens) x) in Hds, Hdc.
  assert (∀ n e, (n ≤ length tokens)%nat → b !! take n tokens = Some e →
    n ∈ LengthIndex.prefix_candidate_lengths (length tokens) x) as Hin.
  { intros n e Hn He. apply Hdc. split; [done|]. apply Hln. rewrite Hcnt.
    apply length_count_pos in He. rewrite length_take_le in He by done. by rewrite decide_False. }
  destruct (scan_spec compat ns tokens (LengthIndex.prefix_candidate_lengths (length tokens) x)
    (MkScan b (lru i) (next_access i) 0)) as [k Hk]; [intros n Hn; by apply Hdc|].
  exists k. destruct Hk as [[Hsc Hno]|(pre & n & post & e & Hcs & He & Hu & Hno & Hsc)]; rewrite Hsc; cbn; [left|right].
  - split.
    + do 2 f_equal. destruct i; cbn in *. by rewrite insert_id.
    + intros n e Hn He. cbn in He. apply (Hno n e); [by eapply Hin|done].
  - assert (n ∈ LengthIndex.prefix_candidate_lengths (length tokens) x) as Hnin by (rewrite Hcs; set_solver).
    exists n, b, e. split; [|done]. split; [by apply Hdc|]. split; [done|]. split; [done|].
    intros n' e' [Hlt Hle] He'. cbn in He'. apply (Hno n'); [|done].
    rewrite Hcs in Hds. apply (descending_split pre n post n'); [done| |done].
    rewrite <- Hcs. by eapply Hin.
Qed.

(** What a lookup answers from the contents. *)
Definition lookup_answer (m : gmap (namespace * list N) (@Entry St)) (compat : list St → bool)
    (ns : namespace) (tokens : list N) (hit : option Hit) : Prop :=
  (hit = None ∧ none_usable compat ns tokens m)
  ∨ ∃ n e, longest_usable compat ns tokens m n e
    ∧ hit = MkHit n (hidden (payload e)) <$> prefix_cache_from_state (states (payload e)).

Lemma lookup_spec compat ns tokens i c :
  struct_inv i → ∃ hit i' c',
    lookup_compatible compat ns tokens (i, c) = Some (hit, (i', c'))
    ∧ lookup_answer (contents i) compat ns tokens hit
    ∧ struct_inv i' ∧ used_bytes i' = used_bytes i
    ∧ map_sum byte_len (contents i') = map_sum byte_len (contents i)
    ∧ (∀ k, payload <$> contents i' !! k = payload <$> contents i !! k).
Proof.
  intros Hi. unfold lookup_compatible, lookup_answer.
  destruct (lookup_locked_spec compat ns tokens i Hi) as [k [[Hl Hno]|(n & b & e & Hbest & Hb & He & Hl)]];
    rewrite Hl; cbn.
  - eexists None, i, _. split; [done|]. split; [by left|done].
  - destruct (touched_spec ns (take n tokens) b e i Hi Hb He) as (Hi' & Hc & Hu & _).
    assert (contents i !! (ns, take n tokens) = Some e) as Hce by (by rewrite contents_lookup, Hb).
    assert (map_sum byte_len (contents (touched ns (take n tokens) b e i)) = map_sum byte_len (contents i)
      ∧ ∀ k, payload <$> contents (touched ns (take n tokens) b e i) !! k = payload <$> contents i !! k) as [Hm Hp].
    { rewrite Hc. split; [by apply (map_sum_insert_same byte_len _ _ e)|].
      intros k'. rewrite lookup_insert. case_decide; [subst|done]. by rewrite Hce. }
    destruct (prefix_cache_from_state (states (payload e))) eqn:Hf.
    + eexists (Some _), _, _. split; [done|]. split; [|done].
      right. exists n, e. split; [done|]. by rewrite Hf.
    + eexists None, _, _. split; [done|]. split; [|done].
      right. exists n, e. split; [done|]. by rewrite Hf.
Qed.

(** ** Store *)
Lemma store_rejected fuel max_bytes ns tokens hidden cs i c :
  accepted max_bytes tokens hidden cs = false →
  ∃ c', store fuel max_bytes ns tokens hidden cs (i, c) = Some (false, (i, c')).
Proof.
  unfold accepted, store. case_bool_decide; cbn; [eauto|].
  rewrite N.leb_antisym, negb_false_iff. intros ->. eauto.
Qed.

(** The older entries of an LRU order come first. *)
Lemma order_split (order : list LruKey) n a1 k1 a2 k2 :
  increasing order → (a1, k1) ∈ take n order → (a2, k2) ∈ drop n order → a1 ≤ a2 ∧ k1 ≠ k2 ∨ a1 < a2.
Proof.
  intros Ho H1 H2. assert (cmp (a1, k1) (a2, k2) = Lt) as Hlt.
  { revert n H1 H2. unfold increasing in Ho. induction Ho as [|x order Ho IH Hx]; intros [|n]; cbn [take drop].
    - by intros ?%elem_of_nil.
    - by intros ?%elem_of_nil.
    - by intros ?%elem_of_nil.
    - rewrite Forall_forall in Hx. intros [->|H1]%elem_of_cons H2; [|by apply (IH n)].
      apply Hx. apply list_elem_of_lookup in H2 as [j Hj]. rewrite lookup_drop in Hj. by eapply list_elem_of_lookup_2. }
  simpl in Hlt. destruct (a1 ?= a2) eqn:Hc; [|right; by apply N.compare_lt_iff|done].
  apply N.compare_eq_iff in Hc as ->. left. split; [done|]. intros ->.
  cbn [cmp_then] in Hlt. pose proof (cmp_refl (A := namespace * list N) k2) as Hr. simpl in Hr. congruence.
Qed.

Lemma store_spec max_bytes ns tokens hidden cs i c :
  struct_inv i → bytes_exact i → max_bytes < u64_max → accepted max_bytes tokens hidden cs = true →
  let k := (ns, tokens) in
  let m := delete k (contents i) in
  let len := prefix_cache_entry_bytes hidden (prefix_cache_state cs) in
  ∃ order n i' c',
    store (store_fuel i) max_bytes ns tokens hidden cs (i, c) = Some (true, (i', c'))
    ∧ cache_inv max_bytes i'
    ∧ increasing order ∧ (∀ a x, (a, x) ∈ order ↔ ∃ e, m !! x = Some e ∧ last_used e = a)
    ∧ contents i' = <[k := MkEntry (MkPayload hidden (prefix_cache_state cs)) len (next_access i)]>
                      (without (take n order) m)
    ∧ used_bytes i' = map_sum byte_len (without (take n order) m) + len
    ∧ (∀ n', (n' < n)%nat → max_bytes < map_sum byte_len (without (take n' order) m) + len).
Proof.
  intros Hi Hb Hmax Hacc k m len. unfold accepted in Hacc. apply andb_true_iff in Hacc as [Hne Hlen].
  apply negb_true_iff, bool_decide_eq_false in Hne. fold len in Hlen. apply N.leb_le in Hlen.
  destruct (remove_entry_spec ns tokens i Hi) as (i1 & Hr & Hi1 & Hc1 & Hl1 & Hu1 & Hn1).
  set (i2 := match contents i !! k with Some e => uncharge (byte_len e) i1 | None => i1 end).
  assert (struct_inv i2 ∧ contents i2 = m ∧ lru i2 = lru i1 ∧ next_access i2 = next_access i ∧ bytes_exact i2)
    as (Hi2 & Hc2 & Hl2 & Hn2 & Hb2).
  { unfold bytes_exact in *. unfold i2. destruct (contents i !! k) as [e|] eqn:He.
    - destruct (uncharge_frame (byte_len e) i1) as (_ & -> & -> & -> & ->).
      split_and!; [by apply struct_inv_uncharge|done|done|done|].
      rewrite Hc1, Hu1, Hb, (map_sum_delete byte_len _ k e He). fold k. lia.
    - split_and!; [done|done|done|done|]. rewrite Hc1, Hu1, Hb. by rewrite delete_id. }
  assert (length (lru i2) < store_fuel i)%nat as Hfuel.
  { rewrite Hl2, Hl1. unfold store_fuel. destruct (contents i !! (ns, tokens)) as [e|]; [|lia].
    apply Nat.lt_succ_r, btree_remove_length. }
  destruct (evict_spec (store_fuel i) max_bytes len i2 [] Hi2 Hb2 Hlen Hmax Hfuel)
    as (n & i3 & Hev & Hi3 & Hb3 & Hu3 & Hl3 & Hc3 & Hn3 & Hmin).
  assert (contents i3 !! k = None) as Hfresh.
  { rewrite Hc3, without_lookup, Hc2. case_decide; [done|]. apply lookup_delete_eq. }
  destruct (insert_entry_spec ns tokens (MkPayload hidden (prefix_cache_state cs)) len i3 Hi3 Hb3 Hfresh Hne ltac:(lia))
    as (Hi4 & Hb4 & Hc4 & Hu4 & Hn4).
  rewrite Hc2 in Hc3, Hmin. exists (lru i2), n. eexists _, _. split_and!.
  - unfold store. rewrite bool_decide_false by done. fold len. rewrite (proj2 (N.ltb_ge _ _)) by done.
    rewrite Hr. fold k. change (match contents i !! k with
      | Some e => i1 <| used_bytes ::= λ u, sat_sub u (byte_len e) |> | None => i1 end) with i2.
    rewrite Hev. cbn -[insert_entry]. reflexivity.
  - split; [done|done|]. rewrite Hu4. lia.
  - apply si_sorted. done.
  - intros a x. rewrite (si_lru i2 Hi2), Hc2. done.
  - by rewrite Hc4, Hc3, Hn3, Hn2.
  - rewrite Hu4. unfold bytes_exact in Hb3. by rewrite Hb3, Hc3.
  - done.
Qed.

(** ** Every run *)
Lemma run_spec max_bytes ops i c stored :
  max_bytes < u64_max → cache_inv max_bytes i →
  (∀ k e, contents i !! k = Some e → stored !! k = Some (payload e)) →
  ∃ i' c', run max_bytes ops (i, c) = Some (i', c') ∧ cache_inv max_bytes i'
  ∧ ∀ k e, contents i' !! k = Some e → foldl (record_op max_bytes) stored ops !! k = Some (payload e).
Proof.
  intros Hmax. revert i c stored. induction ops as [|o ops IH]; intros i c stored Hi Hst; [by exists i, c|].
  cbn [run foldl]. assert (∃ i' c', run_op max_bytes (i, c) o = Some (i', c') ∧ cache_inv max_bytes i'
    ∧ ∀ k e, contents i' !! k = Some e → record_op max_bytes stored o !! k = Some (payload e))
    as (i' & c' & Ho & Hi' & Hst').
  { destruct Hi as [Hs Hb Hbud], o as [compat ns tokens|ns tokens hidden cs]; cbn [run_op record_op].
    - destruct (lookup_spec compat ns tokens i c Hs) as (hit & i' & c' & Hl & _ & Hs' & Hu & Hm & Hp).
      rewrite Hl. exists i', c'. split; [done|]. split; [split; [done|unfold bytes_exact in *; congruence|by rewrite Hu]|].
      intros k e He. specialize (Hp k). rewrite He in Hp. symmetry in Hp.
      apply fmap_Some in Hp as (e' & He' & ->). by apply Hst.
    - destruct (accepted max_bytes tokens hidden cs) eqn:Hacc.
      + destruct (store_spec max_bytes ns tokens hidden cs i c Hs Hb Hmax Hacc)
          as (order & n & i' & c' & Hsto & Hi' & _ & _ & Hc & _ & _).
        cbn [fst]. rewrite Hsto. exists i', c'. split; [done|]. split; [done|]. intros k e. rewrite Hc.
        intros [[<- <-]|[Hne He]]%lookup_insert_Some; [apply lookup_insert_eq|].
        rewrite lookup_insert_ne by done. apply Hst. rewrite without_lookup in He.
        case_decide; [done|]. by apply lookup_delete_Some in He as [_ He].
      + destruct (store_rejected (store_fuel i) max_bytes ns tokens hidden cs i c Hacc) as [c' Hsto].
        cbn [fst]. rewrite Hsto. by exists i, c'. }
  rewrite Ho. cbn. by apply IH.
Qed.

(** A state some calls lead to. *)
Definition reached (max_bytes : N) (ops : list op) i : Prop :=
  ∃ c, run max_bytes ops (inner_default, Counters.new) = Some (i, c).

Lemma reached_inv max_bytes ops i :
  max_bytes < u64_max → reached max_bytes ops i →
  cache_inv max_bytes i ∧ ∀ k e, contents i !! k = Some e → last_stores max_bytes ops !! k = Some (payload e).
Proof.
  intros Hmax [c Hr]. destruct (run_spec max_bytes ops inner_default Counters.new ∅ Hmax) as (i' & c' & Hr' & Hi & Hst).
  - apply cache_inv_default.
  - intros k e. by rewrite contents_default.
  - rewrite Hr in Hr'. injection Hr' as <- <-. done.
Qed.

(** C1: any sequence of lookups and stores runs to the end without a panic and
    leaves the cache consistent: the bytes charged are exactly the sum over the
    resident entries and within the budget, the LRU order has exactly one key
    per entry, a namespace has a length index exactly when it has entries, the
    index listing in increasing order the lengths of those entries, and every
    entry holds what the last accepted store of its key put there. *)
Theorem prefix_cache_consistent max_bytes ops :
  max_bytes < u64_max → ∃ i, reached max_bytes ops i
  ∧ used_bytes i = map_sum byte_len (contents i) ∧ used_bytes i ≤ max_bytes
  ∧ NoDup (lru i) ∧ (∀ a k, (a, k) ∈ lru i ↔ ∃ e, contents i !! k = Some e ∧ last_used e = a)
  ∧ (∀ ns, match indexes i !! ns with
           | None => ∀ tokens, contents i !! (ns, tokens) = None
           | Some index => StronglySorted lt (LengthIndex.lengths index)
               ∧ ∀ n, n ∈ LengthIndex.lengths index
                   ↔ ∃ tokens e, length tokens = n ∧ contents i !! (ns, tokens) = Some e
           end)
  ∧ (∀ k e, contents i !! k = Some e → last_stores max_bytes ops !! k = Some (payload e)).
Proof.
  intros Hmax. destruct (run_spec max_bytes ops inner_default Counters.new ∅ Hmax) as (i & c & Hr & [Hs Hb Hu] & Hst).
  { apply cache_inv_default. }
  { intros k e. by rewrite contents_default. }
  exists i. split; [by exists c|]. split; [done|]. split; [done|].
  split; [apply increasing_NoDup, Hs|]. split; [apply Hs|]. split; [|done].
  intros ns. pose proof (si_index i Hs ns) as Hix.
  inversion Hix as [b x [Hcnt Hso Hln] Hb' Hx|Hb' Hx].
  2:{ intros tk. by rewrite contents_lookup, <- Hb'. }
  split; [done|]. setoid_rewrite contents_lookup. rewrite <- Hb'. intros n. rewrite Hln, Hcnt. cbn. split.
  - case_decide as Hd; [by intros [? ?]|]. intros _.
    destruct (set_choose_or_empty (filter (λ tk, length tk = n) (dom b))) as [[tk Htk]|He].
    + apply elem_of_filter in Htk as [Hn [e He]%elem_of_dom]. by exists tk, e.
    + unfold length_count in Hd. apply leibniz_equiv in He. rewrite He, size_empty in Hd. done.
  - intros (tk & e & <- & He). by rewrite decide_False by by eapply length_count_pos.
Qed.

(** C2: after any calls, a lookup never panics and answers from the longest
    prefix of its tokens that has an entry in its namespace the caller accepts:
    it misses exactly when there is none (or its states cannot be rebuilt), and
    a hit of [n] tokens returns the hidden state and caches the last accepted
    store under that namespace of exactly the first [n] tokens put there. *)
Theorem lookup_longest_prefix max_bytes ops i c compat ns tokens :
  max_bytes < u64_max → reached max_bytes ops i →
  ∃ hit y, lookup_compatible compat ns tokens (i, c) = Some (hit, y)
  ∧ ((hit = None ∧ none_usable compat ns tokens (contents i))
     ∨ ∃ n e, longest_usable compat ns tokens (contents i) n e ∧ (0 < n)%nat
       ∧ last_stores max_bytes ops !! (ns, take n tokens) = Some (payload e)
       ∧ hit = MkHit n (hidden (payload e)) <$> prefix_cache_from_state (states (payload e))).
Proof.
  intros Hmax Hr. destruct (reached_inv _ _ _ Hmax Hr) as [[Hs _ _] Hst].
  destruct (lookup_spec compat ns tokens i c Hs) as (hit & i' & c' & Hl & Ha & _).
  exists hit, (i', c'). split; [done|]. destruct Ha as [?|(n & e & Hb & ->)]; [by left|right].
  exists n, e. split; [done|]. destruct Hb as (_ & He & _). split; [|by split; [apply Hst|]].
  destruct n; [|lia]. by rewrite take_0, (si_key i Hs) in He.
Qed.

(** The last key a needed eviction removes. *)
Lemma youngest_evicted (order : list LruKey) (n : nat) (m : gmap (namespace * list N) (@Entry St)) (len max_bytes : N) :
  increasing order → (∀ a x, (a, x) ∈ order ↔ ∃ e, m !! x = Some e ∧ last_used e = a) →
  max_bytes < map_sum byte_len (without (take n order) m) + len → len ≤ max_bytes →
  ∃ y e, m !! y = Some e ∧ y ∈ (take (S n) order).*2
    ∧ max_bytes < byte_len e + (map_sum byte_len (without (take (S n) order) m) + len).
Proof.
  intros Hinc Hord Hlt Hlen.
  assert (∀ x, x ∉ order.*2 → m !! x = None) as Hout.
  { intros x Hx. destruct (m !! x) as [e|] eqn:He; [|done]. destruct Hx. apply list_elem_of_fmap.
    exists (last_used e, x). split; [done|]. apply Hord. eauto. }
  destruct (order !! n) as [[a y]|] eqn:Hn.
  2:{ apply lookup_ge_None in Hn. rewrite take_ge in Hlt by done. rewrite map_sum_zero in Hlt; [lia|].
      intros x. rewrite without_lookup. case_decide; [done|]. by apply Hout. }
  destruct (proj1 (Hord a y)) as (e & He & Ha); [by eapply list_elem_of_lookup_2|].
  exists y, e. rewrite (take_S_r _ _ _ Hn). split; [done|]. split; [rewrite fmap_app; set_solver|].
  unfold without. rewrite foldl_app. cbn. fold (without (take n order) m).
  rewrite (map_sum_delete byte_len _ y e) in Hlt; [lia|]. rewrite without_lookup, decide_False; [done|].
  intros ([a' y'] & Hy & Hin)%list_elem_of_fmap. simpl in Hy. subst y'.
  assert ((a', y) ∈ order) as Ho by (rewrite <- (take_drop n order); set_solver).
  apply Hord in Ho as (e' & He' & <-). assert (e' = e) as -> by congruence. rewrite Ha in Hin.
  apply elem_of_take in Hin as (j & Hj & Hjn).
  pose proof (NoDup_lookup _ _ _ _ (increasing_NoDup _ Hinc) Hj Hn). lia.
Qed.

(** An accepted store keeps its own entry and makes room by evicting the
    least recently used others, no more of them than it must: every evicted
    entry was used no later than every entry kept (strictly earlier while the
    access counter has not saturated), and with the youngest evicted entry
    still there the budget would be exceeded. *)
Theorem store_evicts_oldest max_bytes ops i c ns tokens hidden cs :
  max_bytes < u64_max → reached max_bytes ops i → accepted max_bytes tokens hidden cs = true →
  let k := (ns, tokens) in
  let len := prefix_cache_entry_bytes hidden (prefix_cache_state cs) in
  ∃ i' c', store (store_fuel i) max_bytes ns tokens hidden cs (i, c) = Some (true, (i', c'))
  ∧ contents i' !! k = Some (MkEntry (MkPayload hidden (prefix_cache_state cs)) len (next_access i))
  ∧ used_bytes i' ≤ max_bytes
  ∧ (∀ x e, x ≠ k → contents i' !! x = Some e → contents i !! x = Some e)
  ∧ (∀ x1 e1 x2 e2, x1 ≠ k → x2 ≠ k → contents i !! x1 = Some e1 → contents i' !! x1 = None →
       contents i' !! x2 = Some e2 →
       last_used e1 ≤ last_used e2 ∧ (next_access i < u64_max → last_used e1 < last_used e2))
  ∧ ((∃ x e, x ≠ k ∧ contents i !! x = Some e ∧ contents i' !! x = None) →
     ∃ x e, x ≠ k ∧ contents i !! x = Some e ∧ contents i' !! x = None
       ∧ max_bytes < used_bytes i' + byte_len e).
Proof.
  intros Hmax Hr Hacc k len. destruct (reached_inv _ _ _ Hmax Hr) as [[Hs Hb _] _].
  destruct (store_spec max_bytes ns tokens hidden cs i c Hs Hb Hmax Hacc)
    as (order & n & i' & c' & Hsto & [_ _ Hbud] & Hinc & Hord & Hc & Hu & Hmin).
  fold k len in Hsto, Hord, Hc, Hu, Hmin. exists i', c'. split; [done|].
  split; [rewrite Hc; apply lookup_insert_eq|]. split; [done|].
  assert (∀ x, x ≠ k → contents i' !! x = if decide (x ∈ (take n order).*2) then None else contents i !! x) as Hx.
  { intros x Hne. rewrite Hc, lookup_insert_ne, without_lookup, lookup_delete_ne by done. done. }
  split; [|split].
  - intros x e Hne. rewrite Hx by done. by case_decide.
  - intros x1 e1 x2 e2 H1 H2 He1 Hn1 He2. rewrite Hx in Hn1, He2 by done.
    destruct (decide (x1 ∈ _)) as [Hin1|]; [|congruence]. destruct (decide (x2 ∈ _)) as [|Hin2]; [done|].
    apply list_elem_of_fmap in Hin1 as ([a1 y1] & -> & Hin1). simpl in *.
    assert (a1 = last_used e1) as ->.
    { assert ((a1, y1) ∈ order) as Ho by (rewrite <- (take_drop n order); set_solver).
      apply Hord in Ho as (e & He & <-). rewrite lookup_delete_ne in He by done. congruence. }
    assert ((last_used e2, x2) ∈ drop n order) as Hin2'.
    { assert ((last_used e2, x2) ∈ order) as Ho by (apply Hord; exists e2; by rewrite lookup_delete_ne).
      rewrite <- (take_drop n order) in Ho. apply elem_of_app in Ho as [Ho|]; [|done].
      destruct Hin2. apply list_elem_of_fmap. by exists (last_used e2, x2). }
    destruct (order_split order n _ _ _ _ Hinc Hin1 Hin2') as [[Hle Hne]|Hlt]; [|lia].
    split; [done|]. intros Hna. destruct (decide (last_used e1 = last_used e2)) as [Heq|]; [|lia].
    by destruct Hne; eapply (si_distinct i Hs).
  - intros (x & e & Hne & He & Hnone). rewrite Hx in Hnone by done.
    destruct (decide (x ∈ _)) as [Hin|]; [|congruence].
    destruct n as [|n]; [by rewrite take_0 in Hin; apply elem_of_nil in Hin|].
    destruct (youngest_evicted order n (delete k (contents i)) len max_bytes Hinc Hord)
      as (y & e0 & Hy & Hin0 & Hsum).
    { apply Hmin. lia. }
    { unfold accepted in Hacc. apply andb_true_iff in Hacc as [_ ?%N.leb_le]. done. }
    apply lookup_delete_Some in Hy as [Hky Hy].
    exists y, e0. split; [done|]. split; [done|]. rewrite Hx by done.
    rewrite decide_True by done. split; [done|]. rewrite Hu, N.add_comm. exact Hsum.
Qed.

(** ** Termination *)
Lemma evict_more fuel fuel' max_bytes len i acc r :
  evict fuel max_bytes len i acc = Some r → (fuel ≤ fuel')%nat → evict fuel' max_bytes len i acc = Some r.
Proof.
  revert fuel' i acc. induction fuel as [|fuel IH]; intros fuel' i acc; [done|].
  destruct fuel' as [|fuel']; [lia|]. cbn [evict]. intros He Hle.
  destruct (sat_add (used_bytes i) len <=? max_bytes); [done|].
  destruct (remove_lru_entry i) as [[e|] i1]; [|done]. apply IH; [done|lia].
Qed.

(** In every reachable state a store ends: whatever the request, the
    eviction loop is left after at most as many rounds as there are resident
    entries, and allowing it more rounds changes nothing. *)
Theorem store_terminates max_bytes ops i c ns tokens hidden cs fuel :
  max_bytes < u64_max → reached max_bytes ops i → (store_fuel i ≤ fuel)%nat →
  ∃ stored y, store fuel max_bytes ns tokens hidden cs (i, c) = Some (stored, y)
  ∧ store (store_fuel i) max_bytes ns tokens hidden cs (i, c) = Some (stored, y)
  ∧ stored = accepted max_bytes tokens hidden cs.
Proof.
  intros Hmax Hr Hfuel. destruct (reached_inv _ _ _ Hmax Hr) as [[Hs Hb _] _].
  assert (∃ stored y, store (store_fuel i) max_bytes ns tokens hidden cs (i, c) = Some (stored, y)
    ∧ stored = accepted max_bytes tokens hidden cs) as (stored & y & Hsto & Hst).
  { destruct (accepted max_bytes tokens hidden cs) eqn:Hacc.
    - destruct (store_spec max_bytes ns tokens hidden cs i c Hs Hb Hmax Hacc)
        as (_ & _ & i' & c' & Hsto & _). eauto.
    - destruct (store_rejected (store_fuel i) max_bytes ns tokens hidden cs i c Hacc) as [c' Hsto]. eauto. }
  exists stored, y. split; [|done]. revert Hsto. unfold store.
  destruct (bool_decide (tokens = [])); [done|]. destruct (max_bytes <? _); [done|].
  destruct (remove_entry ns tokens i) as [existing i1].
  destruct (evict (store_fuel i) _ _ _ []) as [[ev i2]|] eqn:He; [|done].
  by rewrite (evict_more _ _ _ _ _ _ _ He Hfuel).
Qed.
End cache.

(** ** A run *)

(** Layer states that are their own retained form, four bytes per hidden
    component and eight per layer. *)
#[local] Instance demo_value : NativeTextPrefixCacheValue N N := {
  prefix_cache_state cs := cs;
  prefix_cache_from_state sts := Some sts;
  prefix_cache_entry_bytes hidden sts := 4 * N.of_nat (length hidden) + 8 * N.of_nat (length sts);
}.
Definition demo_namespace (model : str) : namespace :=
  Namespace.Make model [] None None None None None [] [] [] [] None [] [] None [] 1 128 64.
Definition demo_ops : list (@op N N) := [
  Store (demo_namespace [1]) [1; 2] [7] [5];
  Store (demo_namespace [1]) [1; 2; 3] [8] [6];
  Lookup (λ _, true) (demo_namespace [1]) [1; 2; 9];
  Store (demo_namespace [2]) [1; 2; 3; 4] [9] [7]].
Definition demo_cache : @Inner N :=
  match run 40 demo_ops (inner_default, Counters.new) with Some (i, _) => i | None => inner_default end.

Lemma demo_reached : reached 40 demo_ops demo_cache.
Proof.
  eexists. vm_compute. reflexivity.
Qed.

Lemma prefix_cache_consistent_witness :
  ∃ i, reached 40 demo_ops i ∧ used_bytes i = map_sum byte_len (contents i) ∧ used_bytes i ≤ 40.
Proof.
  destruct (prefix_cache_consistent 40 demo_ops) as (i & Hr & Hu & Hb & _); [reflexivity|].
  exists i. split; [exact Hr|]. split; [exact Hu|exact Hb].
Defined.

(** The longest stored prefix of [1; 2; 3; 9] is served, not the shorter one. *)
Lemma lookup_longest_prefix_witness :
  ∃ y, lookup_compatible (λ _, true) (demo_namespace [1]) [1; 2; 3; 9] (demo_cache, Counters.new)
    = Some (Some (MkHit 3 [8] [6]), y).
Proof.
  destruct (lookup_longest_prefix 40 demo_ops demo_cache Counters.new (λ _, true) (demo_namespace [1]) [1; 2; 3; 9])
    as (hit & y & Hl & _); [reflexivity|exact demo_reached|].
  exists y. rewrite Hl. do 2 f_equal.
  assert (fst <$> lookup_compatible (λ _, true) (demo_namespace [1]) [1; 2; 3; 9] (demo_cache, Counters.new)
    = Some (Some (MkHit 3 [8] [6]))) as Hv by (vm_compute; reflexivity).
  rewrite Hl in Hv. injection Hv. done.
Defined.

(** The budget of 40 bytes holds three entries of 12: a fourth evicts the
    entry whose last use is oldest, not the one looked up since. *)
Lemma store_evicts_oldest_witness :
  ∃ i' c', store (store_fuel demo_cache) 40 (demo_namespace [2]) [5] [9] [7] (demo_cache, Counters.new)
    = Some (true, (i', c')) ∧ used_bytes i' ≤ 40
  ∧ is_Some (contents demo_cache !! (demo_namespace [1], [1; 2; 3]))
  ∧ is_Some (contents demo_cache !! (demo_namespace [1], [1; 2])).
Proof.
  destruct (store_evicts_oldest 40 demo_ops demo_cache Counters.new (demo_namespace [2]) [5] [9] [7])
    as (i' & c' & Hs & _ & Hu & _); [reflexivity|exact demo_reached|reflexivity|].
  exists i', c'. split; [exact Hs|]. split; [exact Hu|].
  split; vm_compute; eexists; reflexivity.
Defined.

Lemma store_terminates_witness :
  ∃ y, store 10 40 (demo_namespace [2]) [5] [9] [7] (demo_cache, Counters.new) = Some (true, y).
Proof.
  destruct (store_terminates 40 demo_ops demo_cache Counters.new (demo_namespace [2]) [5] [9] [7] 10)
    as (stored & y & Hs & _ & Hst); [reflexivity|exact demo_reached|vm_compute; lia|].
  exists y. rewrite Hs, Hst. reflexivity.
Defined.
