(* ===== verification/QwenXml.v ===== *)
(** * Tool calls in Qwen's XML markup

    Models [QwenXmlToolParser] of [crates/llm-engine/src/mlx/sse.rs]: the state
    machine that reads [<tool_call><function=name><parameter=key>value...] out
    of streamed text and turns it into tool-call deltas (or, when they are not
    wanted, into the JSON markup of a call), together with the schema that says
    which parameters are strings.

    Every position the buffer is cut at comes from [find], [ends_with] or
    [starts_with] with an ASCII tag, or ends a whitespace character, so no cut is
    inside a character and [drain] is [take]/[drop].  The loop of [push_str] is
    given one more step than the buffer has bytes; running out of them is
    [Panic], which [QwenXmlRun.v] shows never happens.  [argument_count], a
    [usize] that counts parameters held in memory, is unbounded here. *)
From Stdlib Require Import String.
From stdpp Require Import base gmap sets numbers list.
From S2P Require Import Prelude Text Json Whitespace Api Backend MlxStop.
Open Scope nat_scope.
Open Scope record_scope.

(** ** Tags *)
Definition QWEN_XML_TOOL_START : str := lit "<tool_call>".
Definition QWEN_XML_TOOL_END : str := lit "</tool_call>".
Definition QWEN_XML_FUNCTION_START : str := lit "<function=".
Definition QWEN_XML_FUNCTION_END : str := lit "</function>".
Definition QWEN_XML_PARAMETER_START : str := lit "<parameter=".
Definition QWEN_XML_PARAMETER_END : str := lit "</parameter>".
Definition QWEN_REASONING_START : str := lit "<think>".
Definition QWEN_REASONING_END : str := lit "</think>".

(** ** Data *)
Inductive QwenXmlState := Outside | ExpectFunction | InFunction | InParameter | ExpectToolClose.

Record QwenXmlEmission := MkEmission { text : str; tool_call_deltas : list BackendToolCallDelta }.
Definition emission_text (t : str) : QwenXmlEmission := MkEmission t [].
Definition emission_delta (d : BackendToolCallDelta) : QwenXmlEmission := MkEmission [] [d].

Inductive QwenXmlParameterKind := KindString | KindJson.
#[export] Instance kind_eq_dec : EqDecision QwenXmlParameterKind.
Proof. solve_decision. Defined.

Abbreviation QwenXmlToolSchema := (gmap str (gmap str QwenXmlParameterKind)) (only parsing).

Record QwenXmlActiveCall := MkCall {
  index : N;
  name : str;
  argument_count : N;
  arguments_json : str;
}.
#[export] Instance eta_call : Eta QwenXmlActiveCall := {| eta c :=
  MkCall (index c) (name c) (argument_count c) (arguments_json c) |}.

Record QwenXmlActiveParameter := MkParameter {
  key : str;
  prefix : str;
  kind : QwenXmlParameterKind;
  parameter_value : str;
}.
#[export] Instance eta_parameter : Eta QwenXmlActiveParameter := {| eta p :=
  MkParameter (key p) (prefix p) (kind p) (parameter_value p) |}.

Record QwenXmlToolParser := MkParser {
  structured_deltas : bool;
  schema : QwenXmlToolSchema;
  state : QwenXmlState;
  buffer : str;
  next_index : N;
  current_call : option QwenXmlActiveCall;
  current_parameter : option QwenXmlActiveParameter;
}.
#[export] Instance eta_parser : Eta QwenXmlToolParser := {| eta p :=
  MkParser (structured_deltas p) (schema p) (state p) (buffer p) (next_index p) (current_call p)
    (current_parameter p) |}.

Definition parser_new (structured : bool) (schema : QwenXmlToolSchema) : QwenXmlToolParser :=
  MkParser structured schema Outside [] 0 None None.

(** ** The schema *)
Definition schema_property_is_string (property : value) : bool :=
  match as_object property ≫= get (lit "type") with
  | Some (JString kind) => bool_decide (kind = lit "string")
  | Some (Array kinds) =>
      existsb (λ kind, match as_str kind with Some kind => bool_decide (kind = lit "string") | None => false end)
        kinds
  | _ => false
  end.

Definition tool_parameters_kinds (parameters : value) : gmap str QwenXmlParameterKind :=
  match (as_object parameters ≫= get (lit "properties")) ≫= as_object with
  | Some properties =>
      foldl (λ kinds '(key, property),
        <[key := if schema_property_is_string property then KindString else KindJson]> kinds) ∅ properties
  | None => ∅
  end.

Definition from_tools (tools : list BackendToolDefinition) : QwenXmlToolSchema :=
  foldl (λ functions tool,
    <[btool_name tool := tool_parameters_kinds (btool_parameters tool)]> functions) ∅ tools.

Definition parameter_kind (function key : str) (schema : QwenXmlToolSchema) : QwenXmlParameterKind :=
  default KindString (schema !! function ≫= λ parameters, parameters !! key).

(** ** Tags in the buffer *)
Inductive QwenXmlOutsideMarker := ToolStart | ReasoningStart.

Definition earliest_qwen_marker (buffer : str) : option (nat * QwenXmlOutsideMarker) :=
  first_min (λ x y, x.1 <? y.1)
    (omap (λ '(index, marker), (λ index, (index, marker)) <$> index)
      [(find QWEN_XML_TOOL_START buffer, ToolStart); (find QWEN_REASONING_START buffer, ReasoningStart)]).

Definition pending_tag_prefix_len (buffer tag : str) : nat :=
  max_or_zero (filter (λ n, ends_with buffer (take n tag) = true) (seq 1 (length tag - 1))).

Definition is_partial_tag_prefix (buffer tag : str) : bool :=
  (length buffer <? length tag) && starts_with buffer tag.

(** [escape_json_string_fragment]: the JSON text of a string, without its
    quotes. *)
Definition escape_json_string_fragment (value : str) : str :=
  let rendered := string_text value in take (length rendered - 2) (drop 1 rendered).

Definition qwen_xml_error (message : str) : BackendError :=
  error_other (lit "Qwen XML tool parser error: " ++ message).

Definition state_debug (s : QwenXmlState) : str :=
  match s with
  | Outside => lit "Outside"
  | ExpectFunction => lit "ExpectFunction"
  | InFunction => lit "InFunction"
  | InParameter => lit "InParameter"
  | ExpectToolClose => lit "ExpectToolClose"
  end.

(** ** The parser *)
Section parser.
(** [serde_json::from_str::<Value>], or the text of its error. *)
Variable from_str : str → value + str.
(** The number formatter of [serde_json]. *)
Variable float_text : N → str.
(** The UUID drawn for the call with a given index: one is drawn for each call
    announced, and no two calls of a parser share an index. *)
Variable uuid : N → str.

(** [&mut self] and the emissions pushed so far. *)
Definition pstm (A : Type) : Type := stm (QwenXmlToolParser * list QwenXmlEmission) BackendError A.

Definition self : pstm QwenXmlToolParser := gets fst.
Definition update (f : QwenXmlToolParser → QwenXmlToolParser) : pstm unit := modify (λ '(p, em), (f p, em)).
Definition push_emission (e : QwenXmlEmission) : pstm unit := modify (λ '(p, em), (p, em ++ [e])).
Definition fail {A} (e : BackendError) : pstm A := lift_outcome (Err e).
Definition require {A} (e : BackendError) (o : option A) : pstm A := lift_outcome (ok_or e o).

(** [self.buffer.drain(..n)]. *)
Definition drain (n : nat) : pstm str :=
  p ← self;
  _ ← update (λ p, p <| buffer ::= drop n |>);
  mret (take n (buffer p)).

Definition drain_leading_whitespace : pstm bool :=
  p ← self;
  let trim_len := length (buffer p) - length (trim_start (buffer p)) in
  if 0 <? trim_len then _ ← drain trim_len; mret true else mret false.

Definition drain_leading_reasoning_block : pstm bool :=
  p ← self;
  if negb (starts_with QWEN_REASONING_START (buffer p)) then mret false
  else
    let body_start := length QWEN_REASONING_START in
    match find QWEN_REASONING_END (drop body_start (buffer p)) with
    | None => mret false
    | Some end_rel =>
        block ← drain (body_start + end_rel + length QWEN_REASONING_END);
        _ ← push_emission (emission_text block);
        mret true
    end.

Definition push_argument_fragment (fragment : str) : pstm unit :=
  p ← self;
  call ← require (qwen_xml_error (lit "argument fragment without active function")) (current_call p);
  _ ← update (λ p, p <| current_call := Some call <| arguments_json ::= λ a, a ++ fragment |> |>);
  if structured_deltas p && negb (bool_decide (fragment = [])) then
    push_emission (emission_delta (MkBackendToolCallDelta (index call) None None
      (Some (MkBackendFunctionDelta None (Some fragment)))))
  else mret tt.

(** [QwenXmlActiveCall::next_parameter_prefix]. *)
Definition next_parameter_prefix (key : str) (c : QwenXmlActiveCall) : str * QwenXmlActiveCall :=
  ((if (argument_count c =? 0)%N then lit "{" else lit ",") ++ string_text key ++ lit ":",
   c <| argument_count ::= N.add 1 |>).

Definition quote : str := [34%N].

Definition start_parameter (key : str) : pstm unit :=
  p ← self;
  call ← require (qwen_xml_error (lit "parameter started without active function")) (current_call p);
  let kind := parameter_kind (name call) key (schema p) in
  let '(prefix, call) := next_parameter_prefix key call in
  _ ← update (λ p, p <| current_call := Some call |>);
  _ ← (if decide (kind = KindString) then push_argument_fragment (prefix ++ quote) else mret tt);
  update (λ p, p <| current_parameter := Some (MkParameter key prefix kind []) |>).

Definition finish_parameter (final_piece : str) : pstm unit :=
  p ← self;
  parameter ← require (qwen_xml_error (lit "parameter close without active parameter")) (current_parameter p);
  _ ← update (λ p, p <| current_parameter := None |>);
  match kind parameter with
  | KindString => push_argument_fragment (escape_json_string_fragment final_piece ++ quote)
  | KindJson =>
      match from_str (trim (parameter_value parameter ++ final_piece)) with
      | inl value => push_argument_fragment (prefix parameter ++ json_text float_text value)
      | inr err =>
          fail (qwen_xml_error (lit "parameter `" ++ key parameter ++ lit "` was not valid JSON: " ++ err))
      end
  end.

(** The markup of a call, when its deltas are not wanted. *)
Definition call_markup (name : str) (arguments : value) : str :=
  QWEN_XML_TOOL_START
  ++ json_text float_text (Object [(lit "name", JString name); (lit "arguments", arguments)])
  ++ QWEN_XML_TOOL_END.

Definition finish_function : pstm unit :=
  p ← self;
  call ← require (qwen_xml_error (lit "function close without active function")) (current_call p);
  _ ← push_argument_fragment (if (argument_count call =? 0)%N then lit "{}" else lit "}");
  _ ← (if structured_deltas p then mret tt
       else
         p ← self;
         call ← require (qwen_xml_error (lit "function close without active function")) (current_call p);
         match from_str (arguments_json call) with
         | inl arguments => push_emission (emission_text (call_markup (name call) arguments))
         | inr err =>
             fail (qwen_xml_error (lit "assembled function arguments were not valid JSON: " ++ err))
         end);
  update (λ p, p <| current_call := None |>).

(** *** One step of each state: whether there was any progress *)
Definition process_outside : pstm bool :=
  p ← self;
  match earliest_qwen_marker (buffer p) with
  | Some (index, ToolStart) =>
      if 0 <? index then
        text ← drain index; _ ← push_emission (emission_text text); mret true
      else
        _ ← drain (length QWEN_XML_TOOL_START);
        _ ← update (λ p, p <| state := ExpectFunction |>);
        mret true
  | Some (index, ReasoningStart) =>
      if 0 <? index then
        text ← drain index; _ ← push_emission (emission_text text); mret true
      else drain_leading_reasoning_block
  | None =>
      let pending := Nat.max (pending_tag_prefix_len (buffer p) QWEN_XML_TOOL_START)
        (pending_tag_prefix_len (buffer p) QWEN_REASONING_START) in
      let emit_len := length (buffer p) - pending in
      if 0 <? emit_len then
        text ← drain emit_len; _ ← push_emission (emission_text text); mret true
      else mret false
  end.

(** What [process_expected_function] does once the buffer starts with
    something other than whitespace, a reasoning block or part of a tag. *)
Definition open_function : pstm bool :=
  p ← self;
  match find [62%N] (buffer p) with
  | None => mret false
  | Some end_ =>
      let name := take (end_ - length QWEN_XML_FUNCTION_START)
        (drop (length QWEN_XML_FUNCTION_START) (buffer p)) in
      if trim_is_empty name || bool_decide (is_Some (find [60%N] name)) then
        fail (qwen_xml_error (lit "invalid function tag `<function=" ++ name ++ lit ">`"))
      else
        _ ← drain (S end_);
        let index := next_index p in
        _ ← (if (index =? 4294967295)%N then fail (qwen_xml_error (lit "tool call index overflow"))
             else update (λ p, p <| next_index := (index + 1)%N |>));
        _ ← update (λ p, p <| current_call := Some (MkCall index name 0 []) |>);
        _ ← (if structured_deltas p then
               push_emission (emission_delta (MkBackendToolCallDelta index
                 (Some (generated_tool_call_id uuid index)) (Some BFunction)
                 (Some (MkBackendFunctionDelta (Some name) None))))
             else mret tt);
        _ ← update (λ p, p <| state := InFunction |>);
        mret true
  end.

Definition process_expected_function : pstm bool :=
  white ← drain_leading_whitespace;
  if (white : bool) then mret true else
  reasoning ← drain_leading_reasoning_block;
  if (reasoning : bool) then mret true else
  p ← self;
  if bool_decide (buffer p = []) || is_partial_tag_prefix (buffer p) QWEN_XML_FUNCTION_START
     || is_partial_tag_prefix (buffer p) QWEN_REASONING_START
  then mret false
  else
    match find QWEN_XML_FUNCTION_START (buffer p) with
    | Some (S _ as index) =>
        text ← drain index; _ ← push_emission (emission_text text); mret true
    | _ =>
        if negb (starts_with QWEN_XML_FUNCTION_START (buffer p)) then mret false else open_function
    end.

Definition open_parameter : pstm bool :=
  p ← self;
  match find [62%N] (buffer p) with
  | None => mret false
  | Some end_ =>
      let key := take (end_ - length QWEN_XML_PARAMETER_START)
        (drop (length QWEN_XML_PARAMETER_START) (buffer p)) in
      if trim_is_empty key || bool_decide (is_Some (find [60%N] key)) then
        fail (qwen_xml_error (lit "invalid parameter tag `<parameter=" ++ key ++ lit ">`"))
      else
        _ ← drain (S end_);
        _ ← start_parameter key;
        _ ← update (λ p, p <| state := InParameter |>);
        mret true
  end.

Definition process_in_function : pstm bool :=
  white ← drain_leading_whitespace;
  if (white : bool) then mret true else
  p ← self;
  if bool_decide (buffer p = []) || is_partial_tag_prefix (buffer p) QWEN_XML_PARAMETER_START
     || is_partial_tag_prefix (buffer p) QWEN_XML_FUNCTION_END
  then mret false
  else if starts_with QWEN_XML_PARAMETER_START (buffer p) then open_parameter
  else if starts_with QWEN_XML_FUNCTION_END (buffer p) then
    _ ← drain (length QWEN_XML_FUNCTION_END);
    _ ← finish_function;
    _ ← update (λ p, p <| state := ExpectToolClose |>);
    mret true
  else fail (qwen_xml_error (lit "expected Qwen XML parameter or function close tag")).

Definition process_in_parameter : pstm bool :=
  p ← self;
  match find QWEN_XML_PARAMETER_END (buffer p) with
  | Some index =>
      let final_piece := take index (buffer p) in
      _ ← drain (index + length QWEN_XML_PARAMETER_END);
      _ ← finish_parameter final_piece;
      _ ← update (λ p, p <| state := InFunction |>);
      mret true
  | None =>
      let emit_len := length (buffer p) - pending_tag_prefix_len (buffer p) QWEN_XML_PARAMETER_END in
      if emit_len =? 0 then mret false
      else
        value ← drain emit_len;
        parameter ← require (qwen_xml_error (lit "parameter value without active parameter"))
          (current_parameter p);
        _ ← match kind parameter with
            | KindString => push_argument_fragment (escape_json_string_fragment value)
            | KindJson =>
                update (λ p, p <| current_parameter := Some (parameter <| parameter_value ::= λ v, v ++ value |>) |>)
            end;
        mret true
  end.

Definition process_expected_tool_close : pstm bool :=
  white ← drain_leading_whitespace;
  if (white : bool) then mret true else
  p ← self;
  if bool_decide (buffer p = []) || is_partial_tag_prefix (buffer p) QWEN_XML_TOOL_END then mret false
  else if negb (starts_with QWEN_XML_TOOL_END (buffer p)) then
    fail (qwen_xml_error (lit "expected `</tool_call>` after `</function>`"))
  else
    _ ← drain (length QWEN_XML_TOOL_END);
    _ ← update (λ p, p <| state := Outside |>);
    mret true.

Definition process : pstm bool :=
  p ← self;
  match state p with
  | Outside => process_outside
  | ExpectFunction => process_expected_function
  | InFunction => process_in_function
  | InParameter => process_in_parameter
  | ExpectToolClose => process_expected_tool_close
  end.

Fixpoint process_loop (fuel : nat) : pstm unit :=
  match fuel with
  | O => lift_outcome Panic
  | S fuel => progressed ← process; if (progressed : bool) then process_loop fuel else mret tt
  end.

(** The entry points: what is returned, and the parser left behind. *)
Definition returning (m : pstm unit) (p : QwenXmlToolParser)
    : outcome BackendError (list QwenXmlEmission) * QwenXmlToolParser :=
  match m (p, []) with
  | (Ok _, (p, emissions)) => (Ok emissions, p)
  | (Err e, (p, _)) => (Err e, p)
  | (Panic, (p, _)) => (Panic, p)
  end.

Definition push_str (text : str) : QwenXmlToolParser → outcome BackendError (list QwenXmlEmission) * QwenXmlToolParser :=
  returning (
    _ ← update (λ p, p <| buffer ::= λ b, b ++ text |>);
    p ← self;
    process_loop (S (length (buffer p)))).

Definition finish : QwenXmlToolParser → outcome BackendError (list QwenXmlEmission) * QwenXmlToolParser :=
  returning (
    p ← self;
    match state p with
    | Outside =>
        if bool_decide (buffer p = []) then mret tt
        else _ ← update (λ p, p <| buffer := [] |>); push_emission (emission_text (buffer p))
    | s => fail (error_other (lit "Qwen XML tool call ended while parser was in " ++ state_debug s))
    end).

Definition abandon_call (p : QwenXmlToolParser) : QwenXmlToolParser :=
  p <| buffer := [] |> <| current_call := None |> <| current_parameter := None |> <| state := Outside |>.

Definition close_call : pstm unit :=
  p ← self;
  _ ← match current_call p with Some _ => finish_function | None => mret tt end;
  update (λ p, p <| state := Outside |>).

(** [finish_parameter] where an error is only looked at: it leaves its
    changes. *)
Definition attempt (m : pstm unit) : pstm (option BackendError) := λ s,
  match m s with
  | (Ok _, s) => (Ok None, s)
  | (Err e, s) => (Ok (Some e), s)
  | (Panic, s) => (Panic, s)
  end.

Definition finish_truncated : QwenXmlToolParser → outcome BackendError (list QwenXmlEmission) * QwenXmlToolParser :=
  returning (
    p ← self;
    match state p with
    | Outside => mret tt
    | ExpectFunction | ExpectToolClose => update abandon_call
    | InFunction => _ ← update (λ p, p <| buffer := [] |>); close_call
    | InParameter =>
        let final_piece := buffer p in
        _ ← update (λ p, p <| buffer := [] |>);
        _ ← match kind <$> current_parameter p with
            | Some KindString => finish_parameter final_piece
            | Some KindJson =>
                failed ← attempt (finish_parameter final_piece);
                match failed with
                | Some _ =>
                    update (λ p, p <| current_parameter := None |>
                      <| current_call := (λ call, call <| argument_count ::= λ n, sat_sub n 1 |>) <$> current_call p |>)
                | None => mret tt
                end
            | None => mret tt
            end;
        close_call
    end).

(** Pieces of text pushed one after another: all the emissions, as long as none
    is refused. *)
Fixpoint push_all (texts : list str) (p : QwenXmlToolParser)
    : outcome BackendError (list QwenXmlEmission) * QwenXmlToolParser :=
  match texts with
  | [] => (Ok [], p)
  | text :: texts =>
      match push_str text p with
      | (Ok emissions, p) => let '(r, p) := push_all texts p in (app emissions <$> r, p)
      | failed => failed
      end
  end.
End parser.
