(* ===== verification/TagScan.v ===== *)
(** * Searching text that arrives in pieces

    What a streaming reader may pass on of a text that can still grow: a tag
    starts with its only [<], and a text is cut at the first position where a tag
    occurs or could still be completed by what follows.  The cut of a longer text
    never moves back, which makes the readers of [QwenXml.v] independent of how
    their text is split. *)
From Stdlib Require Import String.
From stdpp Require Import base sets numbers list.
From S2P Require Import Prelude Text Json Whitespace MlxStop QwenXml.
Open Scope nat_scope.

(** ** Tags *)
Definition is_tag (t : str) : bool :=
  match t with b :: t => (b =? 60)%N && forallb (λ c, negb (c =? 60)%N) t | [] => false end.

(** A position of a nonempty text where one of the tags occurs, or could if more
    text followed. *)
Definition opens (tags : list str) (s : str) : bool :=
  existsb (λ t, starts_with t s || starts_with s t) tags.
Fixpoint cut (tags : list str) (s : str) : nat :=
  match s with
  | [] => 0
  | _ :: r => if opens tags s then 0 else S (cut tags r)
  end.

(** *** Prefixes *)
Lemma starts_with_refl s : starts_with s s = true.
Proof. apply starts_with_app. exists []. by rewrite app_nil_r. Qed.

(** A tag found in a longer text is found, or begun, in the text. *)
Lemma starts_with_split t u v :
  starts_with t (u ++ v) = true → starts_with t u = true ∨ starts_with u t = true ∧ length u < length t.
Proof.
  revert t. induction u as [|a u IH]; intros [|b t]; simpl; [by left|intros _; right; split; [done|lia]|by left|].
  intros [Hb Ht]%andb_true_iff. rewrite Hb. apply N.eqb_eq in Hb as ->. rewrite N.eqb_refl. simpl.
  destruct (IH t Ht) as [?|[? ?]]; [by left|right; split; [done|lia]].
Qed.

Lemma starts_with_left t u v : starts_with (u ++ v) t = true → starts_with u t = true.
Proof. rewrite !starts_with_app. intros [r ->]. exists (v ++ r). by rewrite app_assoc. Qed.

Lemma starts_with_prefix t s : starts_with s t = true → s = take (length s) t.
Proof. rewrite starts_with_app. intros [r ->]. by rewrite take_app_length. Qed.

Lemma starts_with_whole t s : starts_with s t = true → length t ≤ length s → t = s.
Proof.
  rewrite starts_with_app. intros [r ->]. rewrite length_app. intros Hl.
  destruct r; [by rewrite app_nil_r|simpl in Hl; lia].
Qed.

Lemma starts_with_trans a b c : starts_with a b = true → starts_with b c = true → starts_with a c = true.
Proof. rewrite !starts_with_app. intros [x ->] [y ->]. exists (x ++ y). by rewrite app_assoc. Qed.

(** Two prefixes of one text are prefixes of each other. *)
Lemma starts_with_both a b s :
  starts_with a s = true → starts_with b s = true → starts_with a b = true ∨ starts_with b a = true.
Proof.
  intros Ha [r ->]%starts_with_app. apply starts_with_split in Ha as [Ha|[Hb _]]; [by left|by right].
Qed.

Lemma opens_app tags u v : u ≠ [] → opens tags (u ++ v) = true → opens tags u = true.
Proof.
  intros Hu. unfold opens. rewrite !existsb_exists. intros (t & Hin & Ht). exists t. split; [done|].
  apply orb_true_iff in Ht as [Ht|Ht].
  - apply starts_with_split in Ht as [->|[-> _]]; [done|]. by rewrite orb_true_r.
  - rewrite (starts_with_left t u v) by done. by rewrite orb_true_r.
Qed.

(** *** The cut *)
Lemma cut_le tags s : cut tags s ≤ length s.
Proof. induction s as [|b s IH]; simpl; [done|]. destruct (opens tags (b :: s)); lia. Qed.

Lemma cut_before tags s p : p < cut tags s → opens tags (drop p s) = false.
Proof.
  revert p. induction s as [|b s IH]; intros p; cbn [cut]; [lia|].
  destruct (opens tags (b :: s)) eqn:E; [lia|]. intros Hp. destruct p as [|p]; [done|]. apply IH. lia.
Qed.

Lemma cut_at tags s : cut tags s < length s → opens tags (drop (cut tags s) s) = true.
Proof.
  induction s as [|b s IH]; cbn [cut length]; [lia|]. destruct (opens tags (b :: s)) eqn:E; [done|].
  intros Hl. apply IH. lia.
Qed.

Lemma cut_unique tags s c :
  c ≤ length s → (∀ p, p < c → opens tags (drop p s) = false) →
  (c < length s → opens tags (drop c s) = true) → cut tags s = c.
Proof.
  intros Hc Hbefore Hat. destruct (lt_eq_lt_dec (cut tags s) c) as [[Hlt|]|Hgt]; [|done|].
  - pose proof (cut_at tags s ltac:(lia)) as Ho. by rewrite Hbefore in Ho.
  - pose proof (cut_le tags s). pose proof (cut_before tags s c Hgt) as Ho. rewrite Hat in Ho by lia. done.
Qed.

(** More text moves the cut forward by what the kept part allows. *)
Lemma cut_app tags u v : cut tags (u ++ v) = cut tags u + cut tags (drop (cut tags u) u ++ v).
Proof.
  induction u as [|b u IH]; [done|]. cbn [cut app]. destruct (opens tags (b :: u)) eqn:E; [done|].
  destruct (opens tags (b :: u ++ v)) eqn:E'.
  - apply (opens_app tags (b :: u) v) in E'; [congruence|done].
  - cbn [drop]. by rewrite IH.
Qed.

Lemma cut_kept tags s : cut tags (drop (cut tags s) s) = 0.
Proof.
  pose proof (cut_app tags s []) as H. rewrite !app_nil_r in H. lia.
Qed.

(** *** Tags found and begun *)
Lemma tag_starts t s : is_tag t = true → starts_with t s = true → head s = Some 60%N.
Proof.
  destruct t as [|b t]; [done|]. destruct s as [|c s]; simpl; [done|].
  intros [->%N.eqb_eq _]%andb_true_iff [<-%N.eqb_eq _]%andb_true_iff. done.
Qed.

(** No tag starts inside a tag. *)
Lemma tag_inner t s p : is_tag t = true → starts_with s t = true → 0 < p → head (drop p s) ≠ Some 60%N.
Proof.
  destruct t as [|b t]; [done|]. simpl. intros [_ Ht]%andb_true_iff Hs Hp Hh.
  rewrite forallb_forall in Ht. destruct p as [|p]; [lia|].
  assert (s !! S p = Some 60%N) as Hl by (rewrite head_lookup, lookup_drop, Nat.add_0_r in Hh; done).
  apply starts_with_prefix in Hs. rewrite Hs in Hl. apply lookup_take_Some in Hl as [Hl _]. simpl in Hl.
  apply list_elem_of_lookup_2, list_elem_of_In, Ht in Hl. done.
Qed.

Lemma not_opens_tag tags s t : opens tags s = false → t ∈ tags → starts_with t s = false.
Proof.
  unfold opens. intros Ho Hin. destruct (starts_with t s) eqn:E; [|done].
  rewrite <- Ho. symmetry. apply existsb_exists. exists t. split; [by apply list_elem_of_In|]. by rewrite E.
Qed.

(** The first complete occurrence is the cut. *)
Lemma cut_found tags s i :
  Forall (λ t, is_tag t = true) tags →
  (∃ t, t ∈ tags ∧ occurs t s i) → (∀ t p, t ∈ tags → p < i → ¬ occurs t s p) → cut tags s = i.
Proof.
  rewrite Forall_forall. intros Htags (t & Ht & Hi & Ho) Hfirst.
  assert (opens tags (drop i s) = true) as Hopen.
  { apply existsb_exists. exists t. split; [by apply list_elem_of_In|]. by rewrite Ho. }
  apply cut_unique; [done| |done].
  intros p Hp. destruct (opens tags (drop p s)) eqn:E; [|done]. exfalso.
  apply existsb_exists in E as (w & Hw%list_elem_of_In & [E|E]%orb_true_iff).
  - apply (Hfirst w p); [done..|]. split; [lia|done].
  - apply (tag_inner w (drop p s) (i - p) (Htags w Hw) E ltac:(lia)).
    rewrite drop_drop. replace (p + (i - p)) with i by lia. by apply (tag_starts t); auto.
Qed.

Lemma cut_find t s i : is_tag t = true → find t s = Some i → cut [t] s = i.
Proof.
  intros Ht [Ho Hmin]%find_Some. apply cut_found.
  - by apply Forall_singleton.
  - exists t. split; [by left|done].
  - intros w p ->%list_elem_of_singleton Hp. by apply Hmin.
Qed.

(** What is pending when there is no complete tag. *)
Lemma pending_in t s n :
  n ∈ filter (λ n, ends_with s (take n t) = true) (seq 1 (length t - 1)) ↔
  0 < n < length t ∧ ends_with s (take n t) = true.
Proof. rewrite list_elem_of_filter, elem_of_seq. split; intros [? ?]; split; try done; lia. Qed.

Lemma pending_open t s n :
  0 < n < length t → ends_with s (take n t) = true →
  n ≤ length s ∧ starts_with (drop (length s - n) s) t = true.
Proof.
  intros Hn (r & ->)%ends_with_spec. rewrite length_app, length_take_le by lia.
  split; [lia|]. rewrite Nat.add_sub, drop_app_length. apply starts_with_app. exists (drop n t). by rewrite take_drop.
Qed.

Lemma pending_le t s : pending_tag_prefix_len s t ≤ length s.
Proof.
  unfold pending_tag_prefix_len.
  destruct (max_or_zero_in (filter (λ n, ends_with s (take n t) = true) (seq 1 (length t - 1)))) as [->|Hin]; [lia|].
  apply pending_in in Hin as [Hn He]. by apply (pending_open t s _ Hn) in He as [? _].
Qed.

(** [length s - pending] is where a begun tag starts, or the end. *)
Lemma pending_before t s p :
  find t s = None → p < length s - pending_tag_prefix_len s t → opens [t] (drop p s) = false.
Proof.
  intros Hf Hp. destruct (opens [t] (drop p s)) eqn:E; [|done]. exfalso.
  unfold opens in E. cbn [existsb] in E. rewrite orb_false_r in E. apply orb_true_iff in E as [E|E].
  - apply (proj1 (find_None t s) Hf p). split; [lia|done].
  - destruct (decide (length (drop p s) < length t)) as [Hlt|Hge].
    + rewrite length_drop in Hlt.
      assert (length s - p ≤ pending_tag_prefix_len s t); [|lia].
      apply max_or_zero_ge, pending_in. split; [lia|]. apply ends_with_spec. exists (take p s).
      apply starts_with_prefix in E. rewrite length_drop in E. by rewrite <- E, take_drop.
    + apply (proj1 (find_None t s) Hf p). split; [lia|].
      rewrite (starts_with_whole t (drop p s)) at 1 by (done || lia). apply starts_with_refl.
Qed.

Lemma pending_at t s :
  0 < pending_tag_prefix_len s t → starts_with (drop (length s - pending_tag_prefix_len s t) s) t = true.
Proof.
  unfold pending_tag_prefix_len. intros Hp.
  destruct (max_or_zero_in (filter (λ n, ends_with s (take n t) = true) (seq 1 (length t - 1)))) as [E|Hin]; [lia|].
  apply pending_in in Hin as [Hn He]. by apply (pending_open t s _ Hn) in He as [_ ?].
Qed.

Lemma cut_pending t s : find t s = None → cut [t] s = length s - pending_tag_prefix_len s t.
Proof.
  intros Hf. apply cut_unique; [lia|intros p Hp; by apply pending_before|].
  intros Hl. pose proof (pending_at t s ltac:(lia)) as Hs. unfold opens. cbn [existsb]. by rewrite Hs, orb_true_r.
Qed.

Lemma opens_pair t w s : opens [t; w] s = opens [t] s || opens [w] s.
Proof. unfold opens. cbn [existsb]. by rewrite !orb_false_r. Qed.

Lemma cut_pending_pair t w s :
  find t s = None → find w s = None →
  cut [t; w] s = length s - Nat.max (pending_tag_prefix_len s t) (pending_tag_prefix_len s w).
Proof.
  intros Ht Hw. apply cut_unique; [lia| |].
  - intros p Hp. rewrite opens_pair, !pending_before by (done || lia). done.
  - intros Hl. rewrite opens_pair. apply orb_true_iff.
    destruct (Nat.max_spec (pending_tag_prefix_len s t) (pending_tag_prefix_len s w)) as [[_ E]|[_ E]];
      rewrite E in *; [right|left]; unfold opens; cbn [existsb]; rewrite pending_at by lia; by rewrite orb_true_r.
Qed.

(** The first complete occurrence of one of two tags. *)
Lemma cut_first t w s i :
  is_tag t = true → is_tag w = true → find t s = Some i → (∀ j, find w s = Some j → i ≤ j) →
  cut [t; w] s = i.
Proof.
  intros Ht Hw Hf Hmin. apply find_Some in Hf as [Ho Hfirst]. apply cut_found.
  - repeat constructor; done.
  - exists t. split; [by left|done].
  - intros x p [-> | ->%list_elem_of_singleton]%elem_of_cons Hp Hop; [by apply (Hfirst p)|].
    destruct (find w s) as [j|] eqn:Ef.
    + specialize (Hmin j eq_refl). apply find_Some in Ef as [_ Hj]. by apply (Hj p); [lia|].
    + by apply (proj1 (find_None w s) Ef p).
Qed.

Lemma cut_swap t w s : cut [t; w] s = cut [w; t] s.
Proof.
  induction s as [|b s IH]; [done|]. cbn [cut]. by rewrite IH, !opens_pair, orb_comm.
Qed.

(** ** Finding in a longer text *)
Lemma find_app_found t u v i : find t u = Some i → find t (u ++ v) = Some i.
Proof.
  rewrite !find_Some. intros [Ho Hmin]. pose proof (occurs_length t u i Ho). split; [by apply occurs_app_l|].
  intros j Hj Hoj. apply (Hmin j Hj). apply (occurs_shorten t u v); [lia|done].
Qed.

Lemma find_drop_None t s n : find t s = None → n ≤ length s → find t (drop n s) = None.
Proof.
  rewrite !find_None. intros Hf Hn i Ho. apply (Hf (n + i)). by apply occurs_drop.
Qed.
Lemma find_drop_Some t s i n : find t s = Some (n + i) → find t (drop n s) = Some i.
Proof.
  rewrite !find_Some. intros [Ho Hmin]. pose proof (occurs_length _ _ _ Ho). split.
  - apply occurs_drop; [lia|done].
  - intros j Hj Hoj. apply (Hmin (n + j)); [lia|]. apply occurs_drop; [lia|done].
Qed.

(** A single character that a text lacks. *)
Lemma find_char_None c s : find [c] s = None ↔ c ∉ s.
Proof.
  induction s as [|b s IH]; [by rewrite elem_of_nil; split; intros; [intros []|]|].
  cbn [find starts_with]. rewrite andb_true_r, not_elem_of_cons.
  destruct (N.eqb_spec c b) as [->|]; [naive_solver|]. rewrite fmap_None, IH. naive_solver.
Qed.

Lemma find_char_end c s r : c ∉ s → find [c] (s ++ c :: r) = Some (length s).
Proof.
  induction s as [|b s IH]; intros Hc; cbn [find app starts_with length].
  - by rewrite N.eqb_refl.
  - apply not_elem_of_cons in Hc as [Hb Hc]. rewrite andb_true_r.
    destruct (N.eqb_spec c b); [done|]. by rewrite IH.
Qed.

(** What a [<] follows holds the tags it held alone. *)
Lemma occurs_before t s r p : is_tag t = true → p < length s → occurs t (s ++ 60%N :: r) p → occurs t s p.
Proof.
  intros Ht Hp [_ Ho]. rewrite drop_app_le in Ho by lia. split; [lia|].
  pose proof Ho as Hs. apply starts_with_split in Hs as [Hs|[Hs Hl]]; [done|exfalso].
  rewrite length_drop in Hl.
  apply (tag_inner t t (length s - p) Ht (starts_with_refl t) ltac:(lia)).
  apply starts_with_app in Hs as [x Hx]. rewrite Hx in Ho at 1.
  apply starts_with_app in Ho as [y Hy]. rewrite <- app_assoc in Hy. apply app_inv_head in Hy.
  rewrite Hx, <- (length_drop s p), drop_app_length. destruct x as [|b x]; [|by injection Hy as ->].
  rewrite app_nil_r in Hx. apply (f_equal length) in Hx. rewrite length_drop in Hx. lia.
Qed.

Lemma tag_cons t : is_tag t = true → ∃ t', t = 60%N :: t'.
Proof. destruct t as [|b t]; [done|]. cbn. intros [->%N.eqb_eq _]%andb_true_iff. by eexists. Qed.

(** A tag after a text that does not contain it. *)
Lemma find_tag_end t s r : is_tag t = true → find t s = None → find t (s ++ t ++ r) = Some (length s).
Proof.
  intros Ht Hf. apply find_Some. split.
  - split; [rewrite length_app; lia|]. rewrite drop_app_length. apply starts_with_app. by exists r.
  - intros j Hj Ho. destruct (tag_cons t Ht) as [t' He]. rewrite He in Ho at 2.
    apply occurs_before in Ho; [|done..]. by apply (proj1 (find_None t s) Hf j).
Qed.

(** A tag is not whitespace. *)
Lemma tag_not_space t s : is_tag t = true → starts_with t s = true → leading_space s = None.
Proof.
  intros Ht Hs. pose proof (tag_starts t s Ht Hs) as Hh. destruct s as [|b s]; [done|]. injection Hh as ->.
  destruct (leading_space (60%N :: s)) as [n|] eqn:E; [exfalso|done].
  apply leading_space_Some in E as (w & Hw & Hst & _). clear Hs.
  assert (forallb (λ w, match w with b :: _ => negb (b =? 60)%N | [] => false end) whitespace_encodings = true) as Hall
    by by vm_compute.
  rewrite forallb_forall in Hall. specialize (Hall w (proj1 (list_elem_of_In _ _) Hw)). destruct w as [|c w]; [done|].
  cbn in Hall, Hst. apply andb_true_iff in Hst as [->%N.eqb_eq _]. done.
Qed.
