(* ===== verification/QwenXmlSteps.v ===== *)
(** * The steps of the Qwen XML parser

    What each step of [QwenXml.v] does in each state, as equations and as a
    relation with one rule per way a step can go; the typing of the parser's
    state; and that a step consumes part of the buffer, keeps the typing and never
    reaches the errors for a call or a parameter that is not there. *)
From Stdlib Require Import String.
From stdpp Require Import base gmap sets numbers list.
From S2P Require Import Prelude Text Json Whitespace Api Backend MlxStop QwenXml TagScan.
Open Scope nat_scope.
Open Scope record_scope.

(** ** What a client sees of the emissions

    The bytes of the text, the calls announced and the bytes of their arguments,
    in order: how they are cut into emissions does not matter. *)
Inductive atom :=
| AText (byte : N)
| AStart (index : N) (id : option str) (name : str)
| AArgument (index : N) (byte : N).

Definition delta_atoms (d : BackendToolCallDelta) : list atom :=
  match btd_function d with
  | Some f =>
      match bfd_name f with Some n => [AStart (btd_index d) (btd_id d) n] | None => [] end
      ++ match bfd_arguments f with Some a => AArgument (btd_index d) <$> a | None => [] end
  | None => []
  end.
Definition emission_atoms (e : QwenXmlEmission) : list atom :=
  (AText <$> text e) ++ (tool_call_deltas e ≫= delta_atoms).
Definition atoms (em : list QwenXmlEmission) : list atom := em ≫= emission_atoms.

Lemma atoms_app a b : atoms (a ++ b) = atoms a ++ atoms b.
Proof. apply bind_app. Qed.
Lemma atoms_text t : atoms [emission_text t] = AText <$> t.
Proof. unfold atoms, emission_atoms. cbn. by rewrite !app_nil_r. Qed.

(** ** The typing of the parser's state *)
Inductive typed (p : QwenXmlToolParser) : Prop :=
| typed_outside : state p ∈ [Outside; ExpectFunction; ExpectToolClose] →
    current_call p = None → current_parameter p = None → typed p
| typed_in_function c : state p = InFunction →
    current_call p = Some c → current_parameter p = None → typed p
| typed_in_parameter c pr : state p = InParameter →
    current_call p = Some c → current_parameter p = Some pr → typed p.

(** More text at the end of the buffer, and less at its start. *)
Definition with_tail (v : str) (p : QwenXmlToolParser) : QwenXmlToolParser := p <| buffer ::= λ b, b ++ v |>.
Definition pop (n : nat) (p : QwenXmlToolParser) : QwenXmlToolParser := p <| buffer ::= drop n |>.

Lemma with_tail_pop n v p : n ≤ length (buffer p) → with_tail v (pop n p) = pop n (with_tail v p).
Proof. intros Hn. unfold with_tail, pop. cbn. by rewrite drop_app_le. Qed.
Lemma with_tail_nil p : with_tail [] p = p.
Proof. destruct p. unfold with_tail. cbn. by rewrite app_nil_r. Qed.
Lemma with_tail_app u v p : with_tail v (with_tail u p) = with_tail (u ++ v) p.
Proof. destruct p. unfold with_tail. cbn. by rewrite <- app_assoc. Qed.

(** ** Tags *)
Definition outside_tags : list str := [QWEN_XML_TOOL_START; QWEN_REASONING_START].

Lemma outside_tags_ok : is_tag QWEN_XML_TOOL_START = true ∧ is_tag QWEN_REASONING_START = true.
Proof. done. Qed.

(** The marker found is at the cut, and says which tag is there. *)
Lemma earliest_marker_spec s :
  match earliest_qwen_marker s with
  | Some (i, ToolStart) => find QWEN_XML_TOOL_START s = Some i ∧ cut outside_tags s = i
  | Some (i, ReasoningStart) => find QWEN_REASONING_START s = Some i ∧ cut outside_tags s = i
  | None => find QWEN_XML_TOOL_START s = None ∧ find QWEN_REASONING_START s = None
  end.
Proof.
  destruct outside_tags_ok as [Ht Hr]. unfold earliest_qwen_marker.
  destruct (find QWEN_XML_TOOL_START s) as [i|] eqn:Ei, (find QWEN_REASONING_START s) as [j|] eqn:Ej;
    cbv [omap list_omap fmap option_fmap option_map first_min foldl fst].
  - destruct (j <? i) eqn:E.
    + apply Nat.ltb_lt in E. split; [done|]. unfold outside_tags. rewrite cut_swap.
      apply cut_first; try done. intros k Hk. rewrite Ei in Hk. injection Hk as <-. lia.
    + apply Nat.ltb_ge in E. split; [done|]. apply cut_first; try done.
      intros k Hk. rewrite Ej in Hk. injection Hk as <-. lia.
  - split; [done|]. apply cut_first; try done. intros k Hk. congruence.
  - split; [done|]. unfold outside_tags. rewrite cut_swap. apply cut_first; try done. intros k Hk. congruence.
  - done.
Qed.

Lemma find_starts t s : find t s = Some 0 ↔ starts_with t s = true.
Proof. destruct s; cbn [find]; destruct (starts_with t _); split; try done; by destruct (find t s). Qed.

(** ** A reasoning block at the start of the buffer *)
Definition reasoning_end (s : str) : option nat :=
  if starts_with QWEN_REASONING_START s then
    (λ e, length QWEN_REASONING_START + e + length QWEN_REASONING_END)
      <$> find QWEN_REASONING_END (drop (length QWEN_REASONING_START) s)
  else None.

Lemma reasoning_end_app u v n : reasoning_end u = Some n → reasoning_end (u ++ v) = Some n ∧ 0 < n ≤ length u.
Proof.
  unfold reasoning_end. destruct (starts_with QWEN_REASONING_START u) eqn:Hs; [|done].
  rewrite (starts_with_mono _ _ v Hs). intros (e & He & ->)%fmap_Some.
  pose proof (starts_with_length _ _ Hs) as Hl. rewrite drop_app_le by done.
  rewrite (find_app_found _ _ v e He). split; [done|].
  apply find_Some in He as [Ho _]. apply occurs_length in Ho. rewrite length_drop in Ho.
  change (length QWEN_REASONING_START) with 7 in *. change (length QWEN_REASONING_END) with 8 in *. lia.
Qed.

Section steps.
Context (from_str : str → value + str) (float_text uuid : N → str).
Local Abbreviation process := (process from_str float_text uuid).

(** ** The operations on the current call *)
Definition with_call (c : QwenXmlActiveCall) (p : QwenXmlToolParser) := p <| current_call := Some c |>.
Definition fragment_emissions (p : QwenXmlToolParser) (c : QwenXmlActiveCall) (f : str) : list QwenXmlEmission :=
  if structured_deltas p && negb (bool_decide (f = []))
  then [emission_delta (MkBackendToolCallDelta (index c) None None (Some (MkBackendFunctionDelta None (Some f))))]
  else [].

Lemma fragment_atoms p c f :
  atoms (fragment_emissions p c f) = if structured_deltas p then AArgument (index c) <$> f else [].
Proof.
  unfold fragment_emissions. destruct (structured_deltas p); [|done]. case_bool_decide as E.
  - by rewrite E.
  - unfold atoms, emission_atoms, delta_atoms. cbn. by rewrite !app_nil_r.
Qed.

Lemma push_fragment_run f p c em : current_call p = Some c →
  push_argument_fragment f (p, em)
  = (Ok tt, (with_call (c <| arguments_json ::= λ a, a ++ f |>) p, em ++ fragment_emissions p c f)).
Proof.
  intros Hc. unfold push_argument_fragment, fragment_emissions, mbind, stm_bind, self, gets, require, lift_outcome, ok_or,
    update, modify, fst. rewrite Hc. cbv beta iota.
  destruct (structured_deltas p && negb (bool_decide (f = []))); [done|]. unfold mret, stm_ret. by rewrite app_nil_r.
Qed.

Lemma start_parameter_run k p c em : current_call p = Some c →
  let kd := parameter_kind (name c) k (schema p) in
  let pre := (if (argument_count c =? 0)%N then lit "{" else lit ",") ++ string_text k ++ lit ":" in
  let f := if decide (kd = KindString) then pre ++ quote else [] in
  start_parameter k (p, em)
  = (Ok tt, (with_call (c <| argument_count ::= N.add 1 |> <| arguments_json ::= λ a, a ++ f |>) p
               <| current_parameter := Some (MkParameter k pre kd []) |>,
             em ++ fragment_emissions p c f)).
Proof.
  intros Hc kd pre f. unfold start_parameter, mbind, stm_bind, self, gets, require, lift_outcome, ok_or, fst.
  rewrite Hc. unfold next_parameter_prefix. cbv beta iota zeta. fold pre.
  unfold update at 1, modify. fold kd. unfold f. destruct (decide (kd = KindString)).
  - erewrite push_fragment_run by reflexivity. done.
  - unfold mret, stm_ret, update, modify, fragment_emissions. rewrite bool_decide_true, andb_false_r by done.
    cbn. rewrite !app_nil_r. by destruct c.
Qed.

(** What closing a parameter appends to the arguments, or the error. *)
Definition parameter_text (pr : QwenXmlActiveParameter) (piece : str) : str + BackendError :=
  match kind pr with
  | KindString => inl (escape_json_string_fragment piece ++ quote)
  | KindJson =>
      match from_str (trim (parameter_value pr ++ piece)) with
      | inl v => inl (prefix pr ++ json_text float_text v)
      | inr err => inr (qwen_xml_error (lit "parameter `" ++ key pr ++ lit "` was not valid JSON: " ++ err))
      end
  end.

Lemma finish_parameter_run piece p c pr em :
  current_call p = Some c → current_parameter p = Some pr →
  finish_parameter from_str float_text piece (p, em) =
  let p1 := p <| current_parameter := None |> in
  match parameter_text pr piece with
  | inl f => (Ok tt, (with_call (c <| arguments_json ::= λ a, a ++ f |>) p1, em ++ fragment_emissions p c f))
  | inr e => (Err e, (p1, em))
  end.
Proof.
  intros Hc Hp. unfold finish_parameter, mbind, stm_bind, self, gets, require, lift_outcome, ok_or, update, modify, fst.
  rewrite Hp. unfold parameter_text. cbv beta iota zeta. destruct (kind pr).
  - by erewrite push_fragment_run by exact Hc.
  - destruct (from_str _); [by erewrite push_fragment_run by exact Hc|done].
Qed.

Definition closing (c : QwenXmlActiveCall) : str := if (argument_count c =? 0)%N then lit "{}" else lit "}".

Lemma finish_function_run p c em : current_call p = Some c →
  finish_function from_str float_text (p, em) =
  if structured_deltas p then
    (Ok tt, (p <| current_call := None |>, em ++ fragment_emissions p c (closing c)))
  else
    match from_str (arguments_json c ++ closing c) with
    | inl v => (Ok tt, (p <| current_call := None |>, em ++ [emission_text (call_markup float_text (name c) v)]))
    | inr err =>
        (Err (qwen_xml_error (lit "assembled function arguments were not valid JSON: " ++ err)),
         (with_call (c <| arguments_json ::= λ a, a ++ closing c |>) p, em))
    end.
Proof.
  intros Hc. unfold finish_function. unfold mbind at 1, stm_bind at 1, self at 1, gets, fst.
  unfold mbind at 1, stm_bind at 1, require at 1, lift_outcome, ok_or. rewrite Hc.
  unfold mbind at 1, stm_bind at 1. rewrite (push_fragment_run _ p c em Hc). fold (closing c).
  destruct (structured_deltas p) eqn:Hs; [done|].
  unfold mbind, stm_bind, self, gets, require, lift_outcome, ok_or, fst.
  unfold fragment_emissions. rewrite Hs. cbn [andb]. rewrite app_nil_r. cbn [with_call current_call upd].
  destruct (from_str _); done.
Qed.

(** ** The steps as a relation

    One rule per way a step of a well-typed parser can go; [reads p r] relates a
    parser to what [process] makes of it. *)
Definition take_text (n : nat) (p : QwenXmlToolParser) : list QwenXmlEmission := [emission_text (take n (buffer p))].
Definition tag_body (tag : str) (e : nat) (p : QwenXmlToolParser) : str :=
  take (e - length tag) (drop (length tag) (buffer p)).
Definition bad_name (n : str) : bool := trim_is_empty n || bool_decide (is_Some (find [60%N] n)).
Definition start_emissions (p : QwenXmlToolParser) (n : str) : list QwenXmlEmission :=
  if structured_deltas p then
    [emission_delta (MkBackendToolCallDelta (next_index p) (Some (generated_tool_call_id uuid (next_index p)))
      (Some BFunction) (Some (MkBackendFunctionDelta (Some n) None)))]
  else [].
(** A step that waits for more text. *)
Definition waits (p : QwenXmlToolParser) : outcome BackendError bool * (QwenXmlToolParser * list QwenXmlEmission) :=
  (Ok false, (p, [])).

Definition parameter_prefix (c : QwenXmlActiveCall) (k : str) : str :=
  (if (argument_count c =? 0)%N then lit "{" else lit ",") ++ string_text k ++ lit ":".
(** The fragment sent when a parameter starts. *)
Definition opening (c : QwenXmlActiveCall) (k : str) (kd : QwenXmlParameterKind) : str :=
  match kd with KindString => parameter_prefix c k ++ quote | KindJson => [] end.
Definition open_call (c : QwenXmlActiveCall) (k : str) (kd : QwenXmlParameterKind) : QwenXmlActiveCall :=
  c <| argument_count ::= N.add 1 |> <| arguments_json ::= λ a, a ++ opening c k kd |>.
Definition value_piece (pr : QwenXmlActiveParameter) (piece : str) : str :=
  match kind pr with KindString => escape_json_string_fragment piece | KindJson => [] end.
Definition more_value (pr : QwenXmlActiveParameter) (piece : str) : QwenXmlActiveParameter :=
  match kind pr with KindString => pr | KindJson => pr <| parameter_value ::= λ v, v ++ piece |> end.

Inductive reads (p : QwenXmlToolParser) :
    outcome BackendError bool * (QwenXmlToolParser * list QwenXmlEmission) → Prop :=
| outside_text : state p = Outside → 0 < cut outside_tags (buffer p) →
    reads p (Ok true, (pop (cut outside_tags (buffer p)) p, take_text (cut outside_tags (buffer p)) p))
| outside_tool : state p = Outside → starts_with QWEN_XML_TOOL_START (buffer p) = true →
    reads p (Ok true, (pop (length QWEN_XML_TOOL_START) p <| state := ExpectFunction |>, []))
| outside_reasoning n : state p = Outside → reasoning_end (buffer p) = Some n →
    reads p (Ok true, (pop n p, take_text n p))
| outside_wait : state p = Outside → cut outside_tags (buffer p) = 0 →
    starts_with QWEN_XML_TOOL_START (buffer p) = false → reasoning_end (buffer p) = None → reads p (waits p)
| white n : state p ∈ [ExpectFunction; InFunction; ExpectToolClose] → leading_space (buffer p) = Some n →
    reads p (Ok true, (p <| buffer ::= trim_start |>, []))
| function_reasoning n : state p = ExpectFunction → leading_space (buffer p) = None →
    reasoning_end (buffer p) = Some n → reads p (Ok true, (pop n p, take_text n p))
| function_text i : state p = ExpectFunction → leading_space (buffer p) = None → reasoning_end (buffer p) = None →
    find QWEN_XML_FUNCTION_START (buffer p) = Some (S i) → reads p (Ok true, (pop (S i) p, take_text (S i) p))
| function_wait : state p = ExpectFunction → leading_space (buffer p) = None → reasoning_end (buffer p) = None →
    (find QWEN_XML_FUNCTION_START (buffer p) = None
     ∨ starts_with QWEN_XML_FUNCTION_START (buffer p) = true ∧ find [62%N] (buffer p) = None) →
    reads p (waits p)
| function_bad e : state p = ExpectFunction → starts_with QWEN_XML_FUNCTION_START (buffer p) = true →
    find [62%N] (buffer p) = Some e → bad_name (tag_body QWEN_XML_FUNCTION_START e p) = true →
    reads p (Err (qwen_xml_error (lit "invalid function tag `<function="
      ++ tag_body QWEN_XML_FUNCTION_START e p ++ lit ">`")), (p, []))
| function_overflow e : state p = ExpectFunction → starts_with QWEN_XML_FUNCTION_START (buffer p) = true →
    find [62%N] (buffer p) = Some e → bad_name (tag_body QWEN_XML_FUNCTION_START e p) = false →
    next_index p = 4294967295%N →
    reads p (Err (qwen_xml_error (lit "tool call index overflow")), (pop (S e) p, []))
| function_open e : state p = ExpectFunction → starts_with QWEN_XML_FUNCTION_START (buffer p) = true →
    find [62%N] (buffer p) = Some e → bad_name (tag_body QWEN_XML_FUNCTION_START e p) = false →
    next_index p ≠ 4294967295%N →
    reads p (Ok true,
      (with_call (MkCall (next_index p) (tag_body QWEN_XML_FUNCTION_START e p) 0 [])
         (pop (S e) p <| next_index ::= λ n, (n + 1)%N |>) <| state := InFunction |>,
       start_emissions p (tag_body QWEN_XML_FUNCTION_START e p)))
| in_function_wait : state p = InFunction → leading_space (buffer p) = None →
    (is_partial_tag_prefix (buffer p) QWEN_XML_PARAMETER_START = true
     ∨ is_partial_tag_prefix (buffer p) QWEN_XML_FUNCTION_END = true
     ∨ starts_with QWEN_XML_PARAMETER_START (buffer p) = true ∧ find [62%N] (buffer p) = None) →
    reads p (waits p)
| in_function_bad : state p = InFunction → leading_space (buffer p) = None →
    is_partial_tag_prefix (buffer p) QWEN_XML_PARAMETER_START = false →
    is_partial_tag_prefix (buffer p) QWEN_XML_FUNCTION_END = false →
    starts_with QWEN_XML_PARAMETER_START (buffer p) = false →
    starts_with QWEN_XML_FUNCTION_END (buffer p) = false →
    reads p (Err (qwen_xml_error (lit "expected Qwen XML parameter or function close tag")), (p, []))
| parameter_bad e : state p = InFunction → starts_with QWEN_XML_PARAMETER_START (buffer p) = true →
    find [62%N] (buffer p) = Some e → bad_name (tag_body QWEN_XML_PARAMETER_START e p) = true →
    reads p (Err (qwen_xml_error (lit "invalid parameter tag `<parameter="
      ++ tag_body QWEN_XML_PARAMETER_START e p ++ lit ">`")), (p, []))
| parameter_open e c k kd : state p = InFunction → starts_with QWEN_XML_PARAMETER_START (buffer p) = true →
    find [62%N] (buffer p) = Some e → k = tag_body QWEN_XML_PARAMETER_START e p → bad_name k = false →
    current_call p = Some c → kd = parameter_kind (name c) k (schema p) →
    reads p (Ok true,
      (with_call (open_call c k kd) (pop (S e) p)
         <| current_parameter := Some (MkParameter k (parameter_prefix c k) kd []) |> <| state := InParameter |>,
       fragment_emissions p c (opening c k kd)))
| function_close c r : state p = InFunction → starts_with QWEN_XML_FUNCTION_END (buffer p) = true →
    current_call p = Some c →
    r = match finish_function from_str float_text (pop (length QWEN_XML_FUNCTION_END) p, []) with
        | (Ok _, (p, em)) => (Ok true, (p <| state := ExpectToolClose |>, em))
        | (Err e, s) => (Err e, s)
        | (Panic, s) => (Panic, s)
        end → reads p r
| value_close i c pr : state p = InParameter → find QWEN_XML_PARAMETER_END (buffer p) = Some i →
    current_call p = Some c → current_parameter p = Some pr →
    let p1 := pop (i + length QWEN_XML_PARAMETER_END) p <| current_parameter := None |> in
    reads p match parameter_text pr (take i (buffer p)) with
            | inl f => (Ok true, (with_call (c <| arguments_json ::= λ a, a ++ f |>) p1 <| state := InFunction |>,
                                  fragment_emissions p c f))
            | inr e => (Err e, (p1, []))
            end
| value_more c pr : state p = InParameter → find QWEN_XML_PARAMETER_END (buffer p) = None →
    0 < cut [QWEN_XML_PARAMETER_END] (buffer p) → current_call p = Some c → current_parameter p = Some pr →
    let n := cut [QWEN_XML_PARAMETER_END] (buffer p) in
    let f := value_piece pr (take n (buffer p)) in
    reads p (Ok true,
      (with_call (c <| arguments_json ::= λ a, a ++ f |>) (pop n p)
         <| current_parameter := Some (more_value pr (take n (buffer p))) |>, fragment_emissions p c f))
| value_wait : state p = InParameter → find QWEN_XML_PARAMETER_END (buffer p) = None →
    cut [QWEN_XML_PARAMETER_END] (buffer p) = 0 → reads p (waits p)
| tool_close : state p = ExpectToolClose → starts_with QWEN_XML_TOOL_END (buffer p) = true →
    reads p (Ok true, (pop (length QWEN_XML_TOOL_END) p <| state := Outside |>, []))
| tool_wait : state p = ExpectToolClose → leading_space (buffer p) = None →
    is_partial_tag_prefix (buffer p) QWEN_XML_TOOL_END = true → reads p (waits p)
| tool_bad : state p = ExpectToolClose → leading_space (buffer p) = None →
    is_partial_tag_prefix (buffer p) QWEN_XML_TOOL_END = false →
    starts_with QWEN_XML_TOOL_END (buffer p) = false →
    reads p (Err (qwen_xml_error (lit "expected `</tool_call>` after `</function>`")), (p, [])).

Lemma drain_run n p em : drain n (p, em) = (Ok (take n (buffer p)), (pop n p, em)).
Proof. done. Qed.

Lemma white_run p em :
  drain_leading_whitespace (p, em) = match leading_space (buffer p) with
    | Some _ => (Ok true, (p <| buffer ::= trim_start |>, em))
    | None => (Ok false, (p, em))
    end.
Proof.
  unfold drain_leading_whitespace, mbind, stm_bind, self, gets, fst. cbv zeta.
  destruct (leading_space (buffer p)) as [n|] eqn:E.
  - pose proof (trim_start_shorter _ n E). rewrite (proj2 (Nat.ltb_lt _ _)) by lia.
    rewrite drain_run. unfold mret, stm_ret, pop. cbn [upd]. by rewrite trim_start_drop.
  - apply trim_start_none in E. by rewrite E, Nat.sub_diag.
Qed.

Lemma reasoning_run p em :
  drain_leading_reasoning_block (p, em) = match reasoning_end (buffer p) with
    | Some n => (Ok true, (pop n p, em ++ take_text n p))
    | None => (Ok false, (p, em))
    end.
Proof.
  unfold drain_leading_reasoning_block, reasoning_end, mbind, stm_bind, self, gets, fst.
  destruct (starts_with QWEN_REASONING_START (buffer p)); [|done]. cbn [negb]. cbv zeta.
  destruct (find QWEN_REASONING_END (drop (length QWEN_REASONING_START) (buffer p))) as [e|]; [|done].
  cbn [fmap option_fmap option_map]. by rewrite drain_run.
Qed.

Lemma reasoning_starts s n : reasoning_end s = Some n → starts_with QWEN_REASONING_START s = true.
Proof. unfold reasoning_end. by destruct (starts_with QWEN_REASONING_START s). Qed.

(** Distinct tags exclude each other. *)
Lemma not_both a b s : starts_with a b = false → starts_with b a = false →
  starts_with a s = true → starts_with b s = false.
Proof.
  intros Hab Hba Ha. destruct (starts_with b s) eqn:Hb; [|done].
  destruct (starts_with_both a b s Ha Hb); congruence.
Qed.
Lemma not_partial a b s : starts_with a b = false → starts_with a s = true → is_partial_tag_prefix s b = false.
Proof.
  intros Hab Ha. unfold is_partial_tag_prefix. apply andb_false_iff. right.
  destruct (starts_with s b) eqn:Hb; [|done]. by rewrite (starts_with_trans a s b) in Hab.
Qed.
Lemma not_reasoning a s : starts_with a QWEN_REASONING_START = false → starts_with QWEN_REASONING_START a = false →
  starts_with a s = true → reasoning_end s = None.
Proof. intros H1 H2 Ha. unfold reasoning_end. by rewrite (not_both a _ s). Qed.

Lemma starts_nonempty a s : a ≠ [] → starts_with a s = true → bool_decide (s = []) = false.
Proof. intros Ha Hs. apply bool_decide_eq_false. intros ->. by destruct a. Qed.

(** Conditions of [process_expected_function] that a found tag decides. *)
Lemma found_not_partial t w s i : find t s = Some i → length w ≤ length t → is_partial_tag_prefix s w = false.
Proof.
  intros [Ho%occurs_length _]%find_Some Hl. unfold is_partial_tag_prefix. apply andb_false_iff. left.
  apply Nat.ltb_ge. lia.
Qed.

Ltac open_method H := cbn beta; unfold mbind at 1, stm_bind at 1, self at 1, gets at 1, fst at 1; rewrite ?H.

Lemma outside_run p em :
  process_outside (p, em) =
  let c := cut outside_tags (buffer p) in
  if 0 <? c then (Ok true, (pop c p, em ++ take_text c p))
  else if starts_with QWEN_XML_TOOL_START (buffer p)
  then (Ok true, (pop (length QWEN_XML_TOOL_START) p <| state := ExpectFunction |>, em))
  else drain_leading_reasoning_block (p, em).
Proof.
  unfold process_outside, mbind, stm_bind, self, gets, fst. cbv zeta.
  pose proof (earliest_marker_spec (buffer p)) as Hm.
  destruct (earliest_qwen_marker (buffer p)) as [[i []]|].
  - destruct Hm as [Hf ->]. destruct (0 <? i) eqn:Hi; [by rewrite drain_run|].
    apply Nat.ltb_ge in Hi. replace i with 0 in Hf by lia. apply find_starts in Hf as ->. by rewrite drain_run.
  - destruct Hm as [Hf ->]. destruct (0 <? i) eqn:Hi; [by rewrite drain_run|].
    apply Nat.ltb_ge in Hi. replace i with 0 in Hf by lia. apply find_starts in Hf.
    by rewrite (not_both QWEN_REASONING_START) by done.
  - destruct Hm as [Ht Hr]. unfold outside_tags. rewrite cut_pending_pair by done.
    destruct (0 <? _) eqn:Hi; [by rewrite drain_run|].
    destruct (starts_with QWEN_XML_TOOL_START (buffer p)) eqn:Hs; [apply find_starts in Hs; congruence|].
    rewrite reasoning_run. unfold reasoning_end.
    destruct (starts_with QWEN_REASONING_START (buffer p)) eqn:Hs'; [apply find_starts in Hs'; congruence|done].
Qed.

(** The tests that follow the whitespace and the reasoning block. *)
Lemma expected_function_run p em :
  process_expected_function uuid (p, em) =
  match leading_space (buffer p), reasoning_end (buffer p) with
  | Some _, _ => (Ok true, (p <| buffer ::= trim_start |>, em))
  | None, Some n => (Ok true, (pop n p, em ++ take_text n p))
  | None, None =>
      match find QWEN_XML_FUNCTION_START (buffer p) with
      | Some (S i) => (Ok true, (pop (S i) p, em ++ take_text (S i) p))
      | Some 0 => open_function uuid (p, em)
      | None => (Ok false, (p, em))
      end
  end.
Proof.
  unfold process_expected_function. unfold mbind at 1, stm_bind at 1. rewrite white_run.
  destruct (leading_space (buffer p)) eqn:Hw; [done|]. cbv beta iota.
  unfold mbind at 1, stm_bind at 1. rewrite reasoning_run.
  destruct (reasoning_end (buffer p)) eqn:Hr; [done|]. cbv beta iota.
  unfold mbind at 1, stm_bind at 1, self, gets, fst.
  destruct (find QWEN_XML_FUNCTION_START (buffer p)) as [i|] eqn:Hf.
  - rewrite !(found_not_partial QWEN_XML_FUNCTION_START _ _ i) by (done || (vm_compute; lia)).
    rewrite bool_decide_eq_false_2 by (intros E; by rewrite E in Hf). cbn [orb].
    destruct i as [|i]; [|done]. by rewrite (proj1 (find_starts _ _) Hf).
  - destruct (_ || _ || _); [done|].
    destruct (starts_with QWEN_XML_FUNCTION_START (buffer p)) eqn:Hs; [apply find_starts in Hs; congruence|done].
Qed.

Lemma in_function_run p em :
  process_in_function from_str float_text (p, em) =
  match leading_space (buffer p) with
  | Some _ => (Ok true, (p <| buffer ::= trim_start |>, em))
  | None =>
      if is_partial_tag_prefix (buffer p) QWEN_XML_PARAMETER_START
         || is_partial_tag_prefix (buffer p) QWEN_XML_FUNCTION_END then (Ok false, (p, em))
      else if starts_with QWEN_XML_PARAMETER_START (buffer p) then open_parameter (p, em)
      else if starts_with QWEN_XML_FUNCTION_END (buffer p) then
        match finish_function from_str float_text (pop (length QWEN_XML_FUNCTION_END) p, em) with
        | (Ok _, (p, em)) => (Ok true, (p <| state := ExpectToolClose |>, em))
        | (Err e, s) => (Err e, s)
        | (Panic, s) => (Panic, s)
        end
      else (Err (qwen_xml_error (lit "expected Qwen XML parameter or function close tag")), (p, em))
  end.
Proof.
  unfold process_in_function. unfold mbind at 1, stm_bind at 1. rewrite white_run.
  destruct (leading_space (buffer p)) eqn:Hw; [done|]. cbv beta iota.
  unfold mbind at 1, stm_bind at 1, self, gets, fst.
  assert (buffer p = [] → is_partial_tag_prefix (buffer p) QWEN_XML_PARAMETER_START = true) as He by by intros ->.
  destruct (is_partial_tag_prefix (buffer p) QWEN_XML_PARAMETER_START); [by rewrite orb_true_r|].
  rewrite bool_decide_eq_false_2 by (intros E; by specialize (He E)). cbn [orb].
  destruct (is_partial_tag_prefix (buffer p) QWEN_XML_FUNCTION_END); [done|].
  destruct (starts_with QWEN_XML_PARAMETER_START (buffer p)); [done|].
  destruct (starts_with QWEN_XML_FUNCTION_END (buffer p)); [|done].
  unfold mbind at 1, stm_bind at 1. rewrite drain_run. unfold mbind, stm_bind.
  destruct (finish_function _ _ _) as [[?|?|] [? ?]]; done.
Qed.

Lemma tool_close_run p em :
  process_expected_tool_close (p, em) =
  match leading_space (buffer p) with
  | Some _ => (Ok true, (p <| buffer ::= trim_start |>, em))
  | None =>
      if is_partial_tag_prefix (buffer p) QWEN_XML_TOOL_END then (Ok false, (p, em))
      else if starts_with QWEN_XML_TOOL_END (buffer p)
      then (Ok true, (pop (length QWEN_XML_TOOL_END) p <| state := Outside |>, em))
      else (Err (qwen_xml_error (lit "expected `</tool_call>` after `</function>`")), (p, em))
  end.
Proof.
  unfold process_expected_tool_close. unfold mbind at 1, stm_bind at 1. rewrite white_run.
  destruct (leading_space (buffer p)) eqn:Hw; [done|]. cbv beta iota.
  unfold mbind at 1, stm_bind at 1, self, gets, fst.
  assert (buffer p = [] → is_partial_tag_prefix (buffer p) QWEN_XML_TOOL_END = true) as He by by intros ->.
  destruct (is_partial_tag_prefix (buffer p) QWEN_XML_TOOL_END); [by rewrite orb_true_r|].
  rewrite bool_decide_eq_false_2 by (intros E; by specialize (He E)). cbn [orb].
  by destruct (starts_with QWEN_XML_TOOL_END (buffer p)).
Qed.

Lemma open_function_run p em :
  open_function uuid (p, em) =
  match find [62%N] (buffer p) with
  | None => (Ok false, (p, em))
  | Some e =>
      let n := tag_body QWEN_XML_FUNCTION_START e p in
      if bad_name n then
        (Err (qwen_xml_error (lit "invalid function tag `<function=" ++ n ++ lit ">`")), (p, em))
      else if (next_index p =? 4294967295)%N then
        (Err (qwen_xml_error (lit "tool call index overflow")), (pop (S e) p, em))
      else
        (Ok true,
         (with_call (MkCall (next_index p) n 0 []) (pop (S e) p <| next_index ::= λ n, (n + 1)%N |>)
            <| state := InFunction |>, em ++ start_emissions p n))
  end.
Proof.
  unfold open_function. unfold mbind at 1, stm_bind at 1, self, gets, fst.
  destruct (find [62%N] (buffer p)) as [e|]; [|done].
  fold (tag_body QWEN_XML_FUNCTION_START e p). cbv zeta. fold (bad_name (tag_body QWEN_XML_FUNCTION_START e p)).
  destruct (bad_name _); [done|].
  unfold mbind at 1, stm_bind at 1. rewrite drain_run. unfold mbind at 1, stm_bind at 1.
  destruct (next_index p =? 4294967295)%N; [done|]. unfold mbind, stm_bind, start_emissions.
  destruct p as [[] ? ? ? ? ? ?]; cbn; rewrite ?app_nil_r; done.
Qed.

Lemma open_parameter_run p em c : current_call p = Some c →
  open_parameter (p, em) =
  match find [62%N] (buffer p) with
  | None => (Ok false, (p, em))
  | Some e =>
      let k := tag_body QWEN_XML_PARAMETER_START e p in
      let kd := parameter_kind (name c) k (schema p) in
      if bad_name k then
        (Err (qwen_xml_error (lit "invalid parameter tag `<parameter=" ++ k ++ lit ">`")), (p, em))
      else
        (Ok true,
         (with_call (open_call c k kd) (pop (S e) p)
            <| current_parameter := Some (MkParameter k (parameter_prefix c k) kd []) |> <| state := InParameter |>,
          em ++ fragment_emissions p c (opening c k kd)))
  end.
Proof.
  intros Hc. unfold open_parameter. unfold mbind at 1, stm_bind at 1, self, gets, fst.
  destruct (find [62%N] (buffer p)) as [e|]; [|done].
  fold (tag_body QWEN_XML_PARAMETER_START e p). cbv zeta. fold (bad_name (tag_body QWEN_XML_PARAMETER_START e p)).
  destruct (bad_name _); [done|].
  unfold mbind at 1, stm_bind at 1. rewrite drain_run. unfold mbind at 1, stm_bind at 1.
  rewrite (start_parameter_run _ (pop (S e) p) c em Hc).
  change (schema (pop (S e) p)) with (schema p). unfold open_call, opening, parameter_prefix.
  destruct (parameter_kind (name c) (tag_body QWEN_XML_PARAMETER_START e p) (schema p)); cbn [decide kind_eq_dec];
    reflexivity.
Qed.

Lemma in_parameter_run p em c pr : current_call p = Some c → current_parameter p = Some pr →
  process_in_parameter from_str float_text (p, em) =
  match find QWEN_XML_PARAMETER_END (buffer p) with
  | Some i =>
      let p1 := pop (i + length QWEN_XML_PARAMETER_END) p <| current_parameter := None |> in
      match parameter_text pr (take i (buffer p)) with
      | inl f => (Ok true, (with_call (c <| arguments_json ::= λ a, a ++ f |>) p1 <| state := InFunction |>,
                            em ++ fragment_emissions p c f))
      | inr e => (Err e, (p1, em))
      end
  | None =>
      let n := cut [QWEN_XML_PARAMETER_END] (buffer p) in
      let f := value_piece pr (take n (buffer p)) in
      if n =? 0 then (Ok false, (p, em))
      else
        (Ok true,
         (with_call (c <| arguments_json ::= λ a, a ++ f |>) (pop n p)
            <| current_parameter := Some (more_value pr (take n (buffer p))) |>, em ++ fragment_emissions p c f))
  end.
Proof.
  intros Hc Hp. unfold process_in_parameter. unfold mbind at 1, stm_bind at 1, self, gets, fst.
  destruct (find QWEN_XML_PARAMETER_END (buffer p)) as [i|] eqn:Hf.
  - cbv zeta. unfold mbind at 1, stm_bind at 1. rewrite drain_run. unfold mbind at 1, stm_bind at 1.
    rewrite (finish_parameter_run _ (pop (i + length QWEN_XML_PARAMETER_END) p) c pr em Hc Hp). cbv zeta.
    destruct (parameter_text pr (take i (buffer p))) as [f|e]; reflexivity.
  - rewrite (cut_pending _ _ Hf). cbv zeta. generalize (length (buffer p) - pending_tag_prefix_len (buffer p) QWEN_XML_PARAMETER_END) as n. intros n.
    destruct (n =? 0); [done|].
    unfold mbind at 1, stm_bind at 1. rewrite drain_run. unfold mbind at 1, stm_bind at 1, require, lift_outcome, ok_or.
    change (current_parameter (pop n p)) with (current_parameter p). rewrite Hp.
    unfold value_piece, more_value. unfold mbind at 1, stm_bind at 1. clear Hf. destruct (kind pr).
    + rewrite (push_fragment_run _ (pop n p) c em Hc). destruct p; cbn in *. by rewrite Hp.
    + unfold update, modify, mret, stm_ret, fragment_emissions. rewrite bool_decide_true, andb_false_r by done.
      rewrite app_nil_r. destruct p, c; cbn in *. by rewrite Hc, app_nil_r.
Qed.

(** [process] follows the rules, and a well-typed parser has one to follow. *)
Lemma process_state p em :
  process (p, em) = match state p with
    | Outside => process_outside (p, em)
    | ExpectFunction => process_expected_function uuid (p, em)
    | InFunction => process_in_function from_str float_text (p, em)
    | InParameter => process_in_parameter from_str float_text (p, em)
    | ExpectToolClose => process_expected_tool_close (p, em)
    end.
Proof. unfold QwenXml.process, mbind, stm_bind, self, gets, fst. by destruct (state p). Qed.

Lemma cut_zero_no_text s : cut outside_tags s = 0 →
  s = [] ∨ opens outside_tags s = true.
Proof. destruct s as [|b s]; [by left|]. cbn [cut]. destruct (opens _ _); [by right|done]. Qed.

Lemma typed_call p : typed p → state p = InFunction → ∃ c, current_call p = Some c.
Proof. intros [Hs _ _|c ? ? ?|c pr Hs ? ?] E; [rewrite E in Hs; set_solver|eauto|congruence]. Qed.
Lemma typed_parameter p : typed p → state p = InParameter →
  ∃ c pr, current_call p = Some c ∧ current_parameter p = Some pr.
Proof. intros [Hs _ _|c Hs ? ?|c pr Hs ? ?] E; [rewrite E in Hs; set_solver|congruence|eauto]. Qed.

Lemma reads_total p : typed p → reads p (process (p, [])).
Proof.
  intros Ht. rewrite process_state. destruct (state p) eqn:Hst.
  - rewrite outside_run. cbv zeta. destruct (0 <? cut outside_tags (buffer p)) eqn:Hc.
    { apply Nat.ltb_lt in Hc. by apply outside_text. }
    apply Nat.ltb_ge in Hc. destruct (starts_with QWEN_XML_TOOL_START (buffer p)) eqn:Hs; [by apply outside_tool|].
    rewrite reasoning_run. destruct (reasoning_end (buffer p)) as [n|] eqn:Hr; [by apply outside_reasoning|].
    apply outside_wait; try done. lia.
  - rewrite expected_function_run. destruct (leading_space (buffer p)) as [n|] eqn:Hw.
    { eapply white; [rewrite Hst; set_solver|done]. }
    destruct (reasoning_end (buffer p)) as [n|] eqn:Hr; [by apply function_reasoning|].
    destruct (find QWEN_XML_FUNCTION_START (buffer p)) as [[|i]|] eqn:Hf.
    + pose proof (proj1 (find_starts _ _) Hf) as Hs. rewrite open_function_run.
      destruct (find [62%N] (buffer p)) as [e|] eqn:He; [|by apply function_wait; auto].
      cbv zeta. destruct (bad_name _) eqn:Hb; [by apply function_bad|].
      destruct (N.eqb_spec (next_index p) 4294967295); [by apply function_overflow|by apply function_open].
    + by apply function_text.
    + apply function_wait; auto.
  - rewrite in_function_run. destruct (typed_call p Ht Hst) as [c Hcall].
    destruct (leading_space (buffer p)) as [n|] eqn:Hw; [eapply white; [rewrite Hst; set_solver|done]|].
    destruct (is_partial_tag_prefix (buffer p) QWEN_XML_PARAMETER_START) eqn:Hp1; [by apply in_function_wait; auto|].
    destruct (is_partial_tag_prefix (buffer p) QWEN_XML_FUNCTION_END) eqn:Hp2; [by apply in_function_wait; auto|].
    cbn [orb]. destruct (starts_with QWEN_XML_PARAMETER_START (buffer p)) eqn:Hs.
    + rewrite (open_parameter_run p [] c Hcall).
      destruct (find [62%N] (buffer p)) as [e|] eqn:He; [|by apply in_function_wait; auto].
      cbv zeta. destruct (bad_name _) eqn:Hb; [by apply parameter_bad|by eapply parameter_open].
    + destruct (starts_with QWEN_XML_FUNCTION_END (buffer p)) eqn:Hs2; [by eapply function_close|by apply in_function_bad].
  - destruct (typed_parameter p Ht Hst) as (c & pr & Hcall & Hpr). rewrite (in_parameter_run p [] c pr Hcall Hpr).
    destruct (find QWEN_XML_PARAMETER_END (buffer p)) as [i|] eqn:Hf; [by apply value_close|].
    cbv zeta. destruct (cut [QWEN_XML_PARAMETER_END] (buffer p) =? 0) eqn:E.
    + apply Nat.eqb_eq in E. by apply value_wait.
    + apply Nat.eqb_neq in E. apply value_more; try done. lia.
  - rewrite tool_close_run. destruct (leading_space (buffer p)) as [n|] eqn:Hw; [eapply white; [rewrite Hst; set_solver|done]|].
    destruct (is_partial_tag_prefix (buffer p) QWEN_XML_TOOL_END) eqn:Hp; [by apply tool_wait|].
    destruct (starts_with QWEN_XML_TOOL_END (buffer p)) eqn:Hs; [by apply tool_close|by apply tool_bad].
Qed.

(** A step that makes progress consumes bytes and keeps the typing; one that
    does not changes nothing. *)
Lemma starts_drop t s n : starts_with t s = true → n = length t → 0 < n → length (drop n s) < length s.
Proof. intros Hs%starts_with_length -> Hn. rewrite length_drop. lia. Qed.

Lemma find_char_inside s e c : find [c] s = Some e → e < length s.
Proof. intros [Ho _]%find_Some. apply occurs_length in Ho. simpl in Ho. lia. Qed.

Lemma finish_function_typed p c r p' em :
  current_call p = Some c → finish_function from_str float_text (p, []) = (r, (p', em)) →
  match r with
  | Ok _ => p' = p <| current_call := None |>
  | Err _ => True
  | Panic => False
  end.
Proof.
  intros Hc. rewrite (finish_function_run p c [] Hc). destruct (structured_deltas p); [by intros [= <- <- _]|].
  destruct (from_str _); by intros [= <- <- _].
Qed.

Lemma reads_typed p b p' em : typed p → reads p (Ok b, (p', em)) →
  typed p' ∧ (b = false → p' = p ∧ em = []) ∧ (b = true → length (buffer p') < length (buffer p)).
Proof.
  intros Ht Hr.
  assert (state p = InFunction → current_parameter p = None) as Hno.
  { intros E. destruct Ht as [Hs|? ? ? ?|? ? Hs]; [rewrite E in Hs; set_solver|done|congruence]. }
  assert (state p ∈ [Outside; ExpectFunction; ExpectToolClose] →
    current_call p = None ∧ current_parameter p = None) as Hnone.
  { intros E. destruct Ht as [? ? ?|? Hs ? ?|? ? Hs ? ?]; [done|rewrite Hs in E; set_solver..]. }
  inversion Hr; clear Hr; subst.
  - split_and!; [|done|intros _; unfold pop; cbn; rewrite length_drop; pose proof (cut_le outside_tags (buffer p)); lia].
    destruct Hnone as [? ?]; [set_solver|]. apply typed_outside; cbn; [set_solver|done..].
  - split_and!; [|done|intros _; by eapply starts_drop; [eassumption|done|vm_compute; lia]].
    destruct Hnone as [? ?]; [set_solver|]. apply typed_outside; cbn; [set_solver|done..].
  - match goal with H : reasoning_end _ = Some _ |- _ => destruct (reasoning_end_app _ [] _ H) as [_ ?] end.
    split_and!; [|done|intros _; unfold pop; cbn; rewrite length_drop; lia].
    destruct Hnone as [? ?]; [set_solver|]. apply typed_outside; cbn; [set_solver|done..].
  - done.
  - match goal with H : leading_space _ = Some _ |- _ => pose proof (trim_start_shorter _ _ H) end.
    split_and!; [|done|done].
    destruct Ht as [? ? ?|? ? ? ?|? ? Hs ? ?]; [by apply typed_outside|by eapply typed_in_function|].
    match goal with H : state p ∈ _ |- _ => rewrite Hs in H; set_solver end.
  - match goal with H : reasoning_end _ = Some _ |- _ => destruct (reasoning_end_app _ [] _ H) as [_ ?] end.
    split_and!; [|done|intros _; unfold pop; cbn; rewrite length_drop; lia].
    destruct Hnone as [? ?]; [set_solver|]. apply typed_outside; cbn; [set_solver|done..].
  - match goal with H : find _ _ = Some _ |- _ => apply find_Some in H as [Ho%occurs_length _] end.
    change (length QWEN_XML_FUNCTION_START) with 10 in Ho.
    split_and!; [|done|intros _; unfold pop; cbn [buffer upd]; rewrite length_drop; lia].
    destruct Hnone as [? ?]; [set_solver|]. apply typed_outside; cbn; [set_solver|done..].
  - done.
  - match goal with H : find _ _ = Some _ |- _ => apply find_char_inside in H end.
    split_and!; [|done|intros _; unfold pop, with_call; cbn [buffer upd]; rewrite length_drop; lia].
    destruct Hnone as [? ?]; [set_solver|]. by eapply typed_in_function.
  - done.
  - match goal with H : find _ _ = Some _ |- _ => apply find_char_inside in H end.
    split_and!; [|done|intros _; unfold pop, with_call; cbn [buffer upd]; rewrite length_drop; lia].
    by eapply typed_in_parameter.
  - destruct (finish_function _ _ _) as [[[]|e|] [p1 em1]] eqn:Hf; simplify_eq.
    apply (finish_function_typed _ c) in Hf as ->; [|done].
    split_and!; [|done|intros _; by eapply starts_drop; [eassumption|done|vm_compute; lia]].
    apply typed_outside; cbn; [set_solver|done|by apply Hno].
  - destruct (parameter_text pr (take i (buffer p))) as [f|e]; simplify_eq.
    match goal with H : find _ _ = Some _ |- _ => apply find_Some in H as [Ho%occurs_length _] end.
    change (length QWEN_XML_PARAMETER_END) with 12 in *.
    split_and!; [|done|intros _; unfold pop, with_call; cbn [buffer upd]; rewrite length_drop; lia].
    by eapply typed_in_function.
  - split_and!; [|done|intros _; unfold pop, with_call; cbn [buffer upd]; rewrite length_drop;
      pose proof (cut_le [QWEN_XML_PARAMETER_END] (buffer p)); lia].
    by eapply typed_in_parameter.
  - done.
  - split_and!; [|done|intros _; by eapply starts_drop; [eassumption|done|vm_compute; lia]].
    destruct Hnone as [? ?]; [set_solver|]. apply typed_outside; cbn; [set_solver|done..].
  - done.
Qed.

Lemma reads_no_panic p s : typed p → ¬ reads p (Panic, s).
Proof.
  intros Ht Hr. inversion Hr; subst.
  - destruct (finish_function _ _ _) as [[[]|e|] [p1 em1]] eqn:Hf; simplify_eq.
    by apply (finish_function_typed _ c) in Hf.
  - by destruct (parameter_text pr (take i (buffer p))).
Qed.
End steps.
Arguments finish_function_run {from_str float_text}.
Arguments in_parameter_run {from_str float_text}.
Arguments finish_function_typed {from_str float_text}.
