(* ===== verification/QwenXmlRun.v ===== *)
(** * Reading a text with the Qwen XML parser

    The loop of [QwenXml.v]: it ends, and reading a text in pieces is reading it
    whole, as far as a client of the emissions can tell. *)
From Stdlib Require Import String.
From stdpp Require Import base gmap sets numbers list.
From S2P Require Import Prelude Text Json Whitespace Api Backend MlxStop QwenXml TagScan QwenXmlSteps.
Open Scope nat_scope.
Open Scope record_scope.

Section run.
Context (from_str : str → value + str) (float_text uuid : N → str).
Local Abbreviation process := (process from_str float_text uuid).
Local Abbreviation process_loop := (process_loop from_str float_text uuid).
Local Abbreviation reads := (reads from_str float_text uuid).
Local Abbreviation reads_total := (reads_total from_str float_text uuid).
Local Abbreviation parameter_text := (parameter_text from_str float_text).

(** *** Composing steps

    What holds of a method whatever emissions it is given, and however long the
    buffer is. *)
Definition framed {A} (m : pstm A) : Prop :=
  ∀ p em, m (p, em) = let '(r, (p', em')) := m (p, []) in (r, (p', em ++ em')).

Lemma framed_bind {A B} (m : pstm A) (f : A → pstm B) : framed m → (∀ a, framed (f a)) → framed (m ≫= f).
Proof.
  intros Hm Hf p em. unfold mbind, stm_bind. rewrite (Hm p em).
  destruct (m (p, [])) as [[a|e|] [p' em']]; [|done..].
  rewrite (Hf a p' (em ++ em')), (Hf a p' em'). destruct (f a (p', [])) as [r [p2 em2]]. by rewrite <- app_assoc.
Qed.
Lemma framed_ret {A} (a : A) : framed (mret a).
Proof. intros p em. cbn. by rewrite app_nil_r. Qed.
Lemma framed_self : framed self.
Proof. intros p em. cbn. by rewrite app_nil_r. Qed.
Lemma framed_update f : framed (update f).
Proof. intros p em. cbn. by rewrite app_nil_r. Qed.
Lemma framed_emission e : framed (push_emission e).
Proof. intros p em. done. Qed.
Lemma framed_lift {A} (o : outcome BackendError A) : framed (lift_outcome o).
Proof. intros p em. cbn. by rewrite app_nil_r. Qed.
Lemma framed_if {A} (b : bool) (m n : pstm A) : framed m → framed n → framed (if b then m else n).
Proof. by destruct b. Qed.

(** ** The loop *)
Create HintDb framed.
Ltac framed :=
  repeat first
    [ solve [auto 1 with framed nocore] | apply framed_bind; [|intros] | apply framed_ret | apply framed_self | apply framed_update
    | apply framed_emission | apply framed_lift | apply framed_if
    | match goal with |- framed (match ?x with _ => _ end) => destruct x end ].

Lemma framed_drain n : framed (drain n).
Proof. unfold drain. framed. Qed.
Lemma framed_white : framed drain_leading_whitespace.
Proof. unfold drain_leading_whitespace, drain. framed. Qed.
Lemma framed_reasoning : framed drain_leading_reasoning_block.
Proof. unfold drain_leading_reasoning_block, drain. framed. Qed.
Lemma framed_fragment f : framed (push_argument_fragment f).
Proof. unfold push_argument_fragment, require. framed. Qed.

Local Hint Resolve framed_drain framed_white framed_reasoning framed_fragment : framed.

Lemma framed_process : framed process.
Proof.
  unfold QwenXml.process, process_outside, process_expected_function, process_in_function, process_in_parameter,
    process_expected_tool_close, open_function, open_parameter, finish_function, finish_parameter, start_parameter,
    next_parameter_prefix, require, fail.
  framed.
Qed.

Definition prepend {A} (em : list QwenXmlEmission) (x : outcome BackendError A * (QwenXmlToolParser * list QwenXmlEmission)) :=
  let '(r, (p, em')) := x in (r, (p, em ++ em')).

Lemma process_frame p em : process (p, em) = prepend em (process (p, [])).
Proof. apply framed_process. Qed.

(** One step more than the buffer has bytes is always enough. *)
Lemma loop_fuel f g p em : typed p → length (buffer p) < f → length (buffer p) < g →
  process_loop f (p, em) = process_loop g (p, em).
Proof.
  revert g p em. induction f as [|f IH]; intros [|g] p em Ht Hf Hg; [lia..|].
  cbn [QwenXml.process_loop]. unfold mbind, stm_bind. rewrite process_frame.
  pose proof (reads_total p Ht) as Hr. destruct (process (p, [])) as [[b|e|] [p' em']]; [|done..]. cbn [prepend].
  apply reads_typed in Hr as (Ht' & _ & Hl); [|done]. destruct b; [|done].
  specialize (Hl eq_refl). apply IH; [done|lia..].
Qed.

(** What a parser makes of its buffer: the atoms seen, and the parser that
    waits for more text. *)
Definition settle (p : QwenXmlToolParser) : outcome BackendError (list atom * QwenXmlToolParser) :=
  match process_loop (S (length (buffer p))) (p, []) with
  | (Ok _, (p', em)) => Ok (atoms em, p')
  | (Err e, _) => Err e
  | (Panic, _) => Panic
  end.
Definition then_settle (a : list atom) (r : outcome BackendError (list atom * QwenXmlToolParser)) :
    outcome BackendError (list atom * QwenXmlToolParser) :=
  '(a', p) ← r; mret (a ++ a', p).

Lemma then_settle_nil r : then_settle [] r = r.
Proof. by destruct r as [[]| |]. Qed.
Lemma then_settle_app a b r : then_settle (a ++ b) r = then_settle a (then_settle b r).
Proof. destruct r as [[]| |]; [|done..]. cbn. by rewrite app_assoc. Qed.

Lemma process_loop_frame f p em : process_loop f (p, em) = prepend em (process_loop f (p, [])).
Proof.
  revert p em. induction f as [|f IH]; intros p em; [cbn; by rewrite app_nil_r|].
  cbn [QwenXml.process_loop]. unfold mbind, stm_bind. rewrite process_frame.
  destruct (process (p, [])) as [[[]|e|] [p' em']]; cbn [prepend]; [|done..].
  rewrite IH, (IH p' em'). destruct (process_loop f (p', [])) as [r [p2 em2]]. cbn. by rewrite app_assoc.
Qed.

Lemma settle_step p : typed p →
  settle p = match process (p, []) with
    | (Ok true, (p', em)) => then_settle (atoms em) (settle p')
    | (Ok false, _) => Ok ([], p)
    | (Err e, _) => Err e
    | (Panic, _) => Panic
    end.
Proof.
  intros Ht. unfold settle at 1. cbn [QwenXml.process_loop]. unfold mbind at 1, stm_bind at 1.
  pose proof (reads_total p Ht) as Hr. destruct (process (p, [])) as [[b|e|] [p' em]]; [|done..].
  apply reads_typed in Hr as (Ht' & Hstay & Hl); [|done]. destruct b.
  - specialize (Hl eq_refl). rewrite process_loop_frame, (loop_fuel _ (S (length (buffer p')))) by (done || lia).
    unfold settle, then_settle. destruct (process_loop (S (length (buffer p'))) (p', [])) as [[[]|e|] [p2 em2]]; cbn; [|done..].
    by rewrite atoms_app.
  - destruct (Hstay eq_refl) as [-> ->]. done.
Qed.

Lemma settle_no_panic p : typed p → settle p ≠ Panic.
Proof.
  remember (length (buffer p)) as n eqn:Hn. revert p Hn. induction n as [n IH] using lt_wf_ind. intros p -> Ht.
  rewrite settle_step by done. pose proof (reads_total p Ht) as Hr.
  destruct (process (p, [])) as [[b|e|] [p' em]]; [|done|by apply reads_no_panic in Hr].
  apply reads_typed in Hr as (Ht' & _ & Hl); [|done]. destruct b; [|done].
  specialize (IH _ (Hl eq_refl) p' eq_refl Ht'). destruct (settle p') as [[]| |]; done.
Qed.

Lemma settle_typed p a p' : typed p → settle p = Ok (a, p') → typed p' ∧ process (p', []) = waits p'.
Proof.
  remember (length (buffer p)) as n eqn:Hn. revert p a Hn. induction n as [n IH] using lt_wf_ind. intros p a -> Ht.
  rewrite settle_step by done. pose proof (reads_total p Ht) as Hr.
  destruct (process (p, [])) as [[b|e|] [p1 em]] eqn:Hp; [|done..].
  apply reads_typed in Hr as (Ht' & Hstay & Hl); [|done]. destruct b.
  - specialize (IH _ (Hl eq_refl) p1). intros H. unfold then_settle in H.
    destruct (settle p1) as [[a1 p2]| |]; try discriminate H. injection H as <- <-. by eapply IH.
  - intros [= <- <-]. destruct (Hstay eq_refl) as [-> ->]. split; [done|exact Hp].
Qed.

(** ** Reading in pieces

    A buffer whose start is an unclosed reasoning block already showing a
    function tag: between [<tool_call>] and its function the parser takes the tag
    without waiting for the block to end. *)
Definition ambiguous (p : QwenXmlToolParser) : Prop :=
  state p = ExpectFunction ∧ starts_with QWEN_REASONING_START (buffer p) = true
  ∧ reasoning_end (buffer p) = None ∧ is_Some (find QWEN_XML_FUNCTION_START (buffer p)).

(** A step is the same with more text in the buffer, up to how much of it the
    next steps pass on. *)
Definition extends (v : str) (p : QwenXmlToolParser)
    (r : outcome BackendError bool * (QwenXmlToolParser * list QwenXmlEmission)) : Prop :=
  match r with
  | (Ok true, (p', em)) => settle (with_tail v p) = then_settle (atoms em) (settle (with_tail v p'))
  | (Err e, _) => settle (with_tail v p) = Err e
  | _ => True
  end.

Lemma typed_tail v p : typed p → typed (with_tail v p).
Proof.
  intros [? ? ?|c ? ? ?|c pr ? ? ?]; [by apply typed_outside|by eapply typed_in_function|by eapply typed_in_parameter].
Qed.

Lemma extends_same v p p' em : typed p →
  process (with_tail v p, []) = (Ok true, (with_tail v p', em)) → extends v p (Ok true, (p', em)).
Proof. intros Ht H. unfold extends. rewrite settle_step by by apply typed_tail. by rewrite H. Qed.
Lemma extends_error v p e s s' : typed p →
  process (with_tail v p, []) = (Err e, s') → extends v p (Err e, s).
Proof. intros Ht H. unfold extends. rewrite settle_step by by apply typed_tail. by rewrite H. Qed.

Lemma take_text_tail n v p : n ≤ length (buffer p) → take_text n (with_tail v p) = take_text n p.
Proof. intros Hn. unfold take_text, with_tail. cbn. by rewrite take_app_le. Qed.

Lemma pop_buffer n p : buffer (pop n p) = drop n (buffer p).
Proof. done. Qed.

Lemma extends_outside_text v p : typed p → state p = Outside → 0 < cut outside_tags (buffer p) →
  extends v p (Ok true, (pop (cut outside_tags (buffer p)) p, take_text (cut outside_tags (buffer p)) p)).
Proof.
  intros Ht Hst Hc. pose proof (cut_le outside_tags (buffer p)) as Hle.
  set (c := cut outside_tags (buffer p)) in *.
  set (d := cut outside_tags (drop c (buffer p) ++ v)).
  assert (cut outside_tags (buffer (with_tail v p)) = c + d) as Hcut by apply cut_app.
  assert (process (with_tail v p, []) = (Ok true, (pop (c + d) (with_tail v p), take_text (c + d) (with_tail v p)))) as Hp.
  { rewrite process_state. change (state (with_tail v p)) with (state p). rewrite Hst, outside_run. cbv zeta.
    rewrite Hcut, (proj2 (Nat.ltb_lt _ _)) by lia. done. }
  destruct (decide (d = 0)) as [Hd|Hd].
  - apply extends_same; [done|]. rewrite Hp, Hd, Nat.add_0_r. by rewrite with_tail_pop, take_text_tail by done.
  - unfold extends. rewrite settle_step by by apply typed_tail. rewrite Hp.
    assert (typed (with_tail v (pop c p))) as Ht'.
    { apply typed_tail. destruct Ht as [Hs ? ?|? ? ? ?|? ? Hs ? ?]; [by apply typed_outside|congruence..]. }
    rewrite (settle_step (with_tail v (pop c p))) by done.
    rewrite process_state. change (state (with_tail v (pop c p))) with (state p). rewrite Hst, outside_run. cbv zeta.
    change (buffer (with_tail v (pop c p))) with (drop c (buffer p) ++ v). fold d.
    rewrite (proj2 (Nat.ltb_lt 0 d)) by lia. cbn [app]. rewrite <- then_settle_app.
    f_equal.
    + unfold take_text. rewrite !atoms_text, <- fmap_app. f_equal. cbn.
      rewrite <- (take_app_le (buffer p) v c) by done.
      replace (drop c (buffer p) ++ v) with (drop c (buffer p ++ v)) by by rewrite drop_app_le.
      by rewrite take_take_drop.
    + f_equal. rewrite with_tail_pop by done. unfold pop. destruct p. cbn. by rewrite drop_drop.
Qed.

Lemma settle_white p n : typed p → state p ∈ [ExpectFunction; InFunction; ExpectToolClose] →
  leading_space (buffer p) = Some n → settle p = settle (p <| buffer ::= trim_start |>).
Proof.
  intros Ht Hst Hw. rewrite settle_step by done. rewrite process_state.
  assert (process (p, []) = (Ok true, (p <| buffer ::= trim_start |>, []))) as Hp.
  { rewrite process_state. apply elem_of_cons in Hst as [Hst|Hst]; [|apply elem_of_cons in Hst as [Hst|Hst%list_elem_of_singleton]];
      rewrite Hst; [rewrite expected_function_run|rewrite in_function_run|rewrite tool_close_run]; by rewrite Hw. }
  rewrite <- process_state, Hp. apply then_settle_nil.
Qed.

Lemma extends_white v p n : typed p → starts_char v → state p ∈ [ExpectFunction; InFunction; ExpectToolClose] →
  leading_space (buffer p) = Some n → extends v p (Ok true, (p <| buffer ::= trim_start |>, [])).
Proof.
  intros Ht Hv Hst Hw. unfold extends. rewrite then_settle_nil.
  assert (buffer p ≠ []) as Hne by (intros E; rewrite E in Hw; by apply leading_space_length in Hw as [? ?]; simpl in *; lia).
  rewrite (settle_white (with_tail v p) n);
    [|by apply typed_tail|done|change (leading_space (buffer p ++ v) = Some n); by rewrite leading_space_app].
  destruct p as [sd sc st b ni cc cp]. cbn [state buffer] in *.
  change (settle (MkParser sd sc st (trim_start (b ++ v)) ni cc cp)
    = settle (MkParser sd sc st (trim_start b ++ v) ni cc cp)).
  rewrite trim_start_app by done.
  destruct (trim_start b) as [|c r] eqn:E; [|done]. cbn [app].
  destruct (leading_space v) as [m|] eqn:Hv'.
  - rewrite (settle_white (MkParser sd sc st v ni cc cp) m); [done| |done|done].
    destruct Ht as [? ? ?|? ? ? ?|? ? ? ? ?]; [by apply typed_outside|by eapply typed_in_function|by eapply typed_in_parameter].
  - apply trim_start_none in Hv'. by rewrite Hv'.
Qed.

(** *** Values in pieces *)
Lemma escape_fragment s : escape_json_string_fragment s = concat (escape_byte <$> s).
Proof.
  unfold escape_json_string_fragment, string_text. cbn [app length drop]. rewrite length_app. cbn [length].
  replace (S (length (concat (escape_byte <$> s)) + 1) - 2) with (length (concat (escape_byte <$> s))) by lia.
  by rewrite drop_0, take_app_length.
Qed.
Lemma escape_fragment_app s t :
  escape_json_string_fragment (s ++ t) = escape_json_string_fragment s ++ escape_json_string_fragment t.
Proof. by rewrite !escape_fragment, fmap_app, concat_app. Qed.

Lemma value_piece_app pr s t : value_piece pr (s ++ t) = value_piece pr s ++ value_piece (more_value pr s) t.
Proof.
  unfold value_piece, more_value. destruct pr as [k pre [] v]; cbn [kind upd]; [apply escape_fragment_app|done].
Qed.
Lemma more_value_app pr s t : more_value pr (s ++ t) = more_value (more_value pr s) t.
Proof. unfold more_value. destruct pr as [k pre [] v]; cbn; [done|]. by rewrite app_assoc. Qed.
Lemma parameter_text_app pr s t :
  parameter_text pr (s ++ t)
  = match parameter_text (more_value pr s) t with inl f => inl (value_piece pr s ++ f) | inr e => inr e end.
Proof.
  unfold parameter_text, value_piece, more_value. destruct pr as [k pre [] v]; cbn [kind upd parameter_value prefix key].
  - by rewrite escape_fragment_app, <- app_assoc.
  - rewrite <- app_assoc. by destruct (from_str _).
Qed.

Lemma fragments_app p p' c c' f g : structured_deltas p' = structured_deltas p → index c' = index c →
  atoms (fragment_emissions p c (f ++ g)) = atoms (fragment_emissions p c f) ++ atoms (fragment_emissions p' c' g).
Proof.
  intros Hs Hi. rewrite !fragment_atoms, Hs, Hi. destruct (structured_deltas p); [|done]. apply fmap_app.
Qed.

Lemma extends_value_more v p c pr : typed p → state p = InParameter →
  find QWEN_XML_PARAMETER_END (buffer p) = None → 0 < cut [QWEN_XML_PARAMETER_END] (buffer p) →
  current_call p = Some c → current_parameter p = Some pr →
  let n := cut [QWEN_XML_PARAMETER_END] (buffer p) in
  let f := value_piece pr (take n (buffer p)) in
  extends v p (Ok true,
      (with_call (c <| arguments_json ::= λ a, a ++ f |>) (pop n p)
         <| current_parameter := Some (more_value pr (take n (buffer p))) |>, fragment_emissions p c f)).
Proof.
  intros Ht Hst Hf Hpos Hc Hpr n f. pose proof (cut_le [QWEN_XML_PARAMETER_END] (buffer p)) as Hle. fold n in Hpos, Hle.
  set (c1 := c <| arguments_json ::= λ a, a ++ f |>). set (pr1 := more_value pr (take n (buffer p))).
  set (p1 := with_call c1 (pop n p) <| current_parameter := Some pr1 |>).
  assert (typed (with_tail v p1)) as Ht1 by by apply typed_tail, (typed_in_parameter p1 c1 pr1).
  set (u' := drop n (buffer p) ++ v). set (d := cut [QWEN_XML_PARAMETER_END] u').
  assert (cut [QWEN_XML_PARAMETER_END] (buffer p ++ v) = n + d) as Hcut by apply cut_app.
  assert (∀ k, take (n + k) (buffer p ++ v) = take n (buffer p) ++ take k u') as Htake.
  { intros k. rewrite <- (take_app_le (buffer p) v n) by done. unfold u'.
    rewrite <- (drop_app_le (buffer p) v n) by done. by rewrite take_take_drop. }
  assert (∀ k, drop (n + k) (buffer p ++ v) = drop k u') as Hdrop.
  { intros k. unfold u'. by rewrite <- (drop_app_le (buffer p) v n), drop_drop by done. }
  unfold extends. rewrite settle_step by by apply typed_tail. rewrite process_state.
  change (state (with_tail v p)) with (state p). rewrite Hst.
  rewrite (in_parameter_run (with_tail v p) [] c pr Hc Hpr). cbv zeta.
  change (buffer (with_tail v p)) with (buffer p ++ v). cbn [app].
  rewrite (settle_step (with_tail v p1)), process_state by done.
  change (state (with_tail v p1)) with (state p). rewrite Hst.
  rewrite (in_parameter_run (with_tail v p1) [] c1 pr1 eq_refl eq_refl). cbv zeta.
  change (buffer (with_tail v p1)) with u'. fold d.
  destruct (find QWEN_XML_PARAMETER_END (buffer p ++ v)) as [i|] eqn:Hi.
  - pose proof (cut_find QWEN_XML_PARAMETER_END _ i eq_refl Hi) as Hci. rewrite Hcut in Hci. subst i.
    unfold u' at 1. rewrite <- (drop_app_le (buffer p) v n) by done. rewrite (find_drop_Some _ _ _ _ Hi).
    rewrite Htake, parameter_text_app. fold pr1. destruct (parameter_text pr1 (take d u')) as [g|e]; [|done].
    rewrite <- then_settle_app. f_equal.
    + by apply (fragments_app p (with_tail v p1)).
    + f_equal. unfold with_call, pop, with_tail, p1, c1. destruct p, c. cbn. rewrite <- Nat.add_assoc.
      cbn in Hdrop. rewrite Hdrop. unfold f. by rewrite <- app_assoc.
  - unfold u' at 1. rewrite <- (drop_app_le (buffer p) v n) by done.
    rewrite (find_drop_None _ _ _ Hi) by (rewrite length_app; lia).
    rewrite Hcut. rewrite (proj2 (Nat.eqb_neq (n + d) 0)) by lia. rewrite Htake, value_piece_app, more_value_app.
    fold pr1. destruct (d =? 0) eqn:Hd.
    + apply Nat.eqb_eq in Hd. rewrite Hd, !take_0.
      assert (value_piece pr1 [] = []) as Hv0 by (unfold value_piece; by destruct (kind pr1)).
      assert (more_value pr1 [] = pr1) as Hm0.
      { unfold more_value. destruct pr1 as [? ? [] ?]; cbn; [done|]. by rewrite app_nil_r. }
      rewrite Hv0, Hm0, app_nil_r, Nat.add_0_r. fold f.
      match goal with |- then_settle _ (settle ?q) = _ => replace q with (with_tail v p1)
        by (unfold p1, with_call, pop, with_tail; destruct p; cbn in *; by rewrite drop_app_le) end.
      rewrite settle_step, process_state by done. change (state (with_tail v p1)) with (state p). rewrite Hst.
      rewrite (in_parameter_run (with_tail v p1) [] c1 pr1 eq_refl eq_refl). cbv zeta.
      change (buffer (with_tail v p1)) with u'. fold d. unfold u' at 1.
      rewrite <- (drop_app_le (buffer p) v n) by done. rewrite (find_drop_None _ _ _ Hi) by (rewrite length_app; lia).
      by rewrite Hd.
    + rewrite <- then_settle_app. f_equal; [by apply (fragments_app p (with_tail v p1))|].
      f_equal. unfold with_call, pop, with_tail, p1, c1. destruct p, c. cbn. cbn in Hdrop. rewrite Hdrop.
      unfold f. by rewrite <- app_assoc.
Qed.

Lemma not_partial_app u v t : is_partial_tag_prefix u t = false → is_partial_tag_prefix (u ++ v) t = false.
Proof.
  unfold is_partial_tag_prefix. rewrite !andb_false_iff, !Nat.ltb_ge, length_app. intros [?|Hs]; [left; lia|right].
  destruct (starts_with (u ++ v) t) eqn:E; [|done]. by rewrite (starts_with_left t u v) in Hs.
Qed.
Lemma not_starts_app u v t : is_partial_tag_prefix u t = false → starts_with t u = false → starts_with t (u ++ v) = false.
Proof.
  unfold is_partial_tag_prefix. intros Hp Hs. destruct (starts_with t (u ++ v)) eqn:E; [|done].
  apply starts_with_split in E as [?|[E Hl]]; [congruence|].
  rewrite E in Hp. apply Nat.ltb_lt in Hl. by rewrite Hl in Hp.
Qed.
Lemma partial_empty u t : t ≠ [] → is_partial_tag_prefix u t = false → u ≠ [].
Proof. intros Ht H ->. destruct t; [done|]. done. Qed.

Lemma tag_body_tail v tag p e : starts_with tag (buffer p) = true → e < length (buffer p) →
  tag_body tag e (with_tail v p) = tag_body tag e p.
Proof.
  intros Hs%starts_with_length He. unfold tag_body. change (buffer (with_tail v p)) with (buffer p ++ v).
  rewrite drop_app_le, take_app_le by (rewrite ?length_drop; lia). done.
Qed.

Lemma extends_function_text v p i : typed p → starts_char v → ¬ ambiguous p → state p = ExpectFunction →
  leading_space (buffer p) = None → reasoning_end (buffer p) = None →
  find QWEN_XML_FUNCTION_START (buffer p) = Some (S i) → extends v p (Ok true, (pop (S i) p, take_text (S i) p)).
Proof.
  intros Ht Hv Ha Hst Hw Hr Hf. pose proof Hf as [Ho%occurs_length _]%find_Some.
  change (length QWEN_XML_FUNCTION_START) with 10 in Ho.
  assert (starts_with QWEN_REASONING_START (buffer p) = false) as Hs.
  { destruct (starts_with QWEN_REASONING_START (buffer p)) eqn:E; [|done]. exfalso. apply Ha. by split_and!. }
  apply extends_same; [done|]. rewrite process_state. change (state (with_tail v p)) with (state p).
  rewrite Hst, expected_function_run. change (buffer (with_tail v p)) with (buffer p ++ v).
  rewrite leading_space_app, Hw by (try done; intros E; by rewrite E in Ho; simpl in Ho; lia).
  unfold reasoning_end. rewrite starts_with_shorten, Hs by (change (length QWEN_REASONING_START) with 7; lia).
  rewrite (find_app_found _ _ v _ Hf). cbn [app].
  rewrite take_text_tail, with_tail_pop by lia. done.
Qed.

Ltac in_state Hst := rewrite process_state; match goal with |- context [state (with_tail ?v ?p)] =>
  change (state (with_tail v p)) with (state p) end; rewrite Hst.

Lemma extends_function_tag v p r : typed p → state p = ExpectFunction →
  starts_with QWEN_XML_FUNCTION_START (buffer p) = true → is_Some (find [62%N] (buffer p)) →
  process (p, []) = r → extends v p r.
Proof.
  intros Ht Hst Hs [e He] <-. pose proof (find_char_inside _ _ _ He) as Hle.
  assert (∀ q, state q = ExpectFunction → starts_with QWEN_XML_FUNCTION_START (buffer q) = true →
    process (q, []) = open_function uuid (q, [])) as Hproc.
  { intros q Hq Hsq. rewrite process_state, Hq, expected_function_run.
    rewrite (tag_not_space QWEN_XML_FUNCTION_START), (not_reasoning QWEN_XML_FUNCTION_START) by done.
    by rewrite (proj2 (find_starts _ _) Hsq). }
  assert (process (with_tail v p, []) = open_function uuid (with_tail v p, [])) as Htail.
  { apply Hproc; [done|]. by apply starts_with_mono. }
  rewrite open_function_run in Htail. change (buffer (with_tail v p)) with (buffer p ++ v) in Htail.
  rewrite (find_app_found _ _ v _ He) in Htail. rewrite tag_body_tail in Htail by done.
  rewrite (Hproc p Hst Hs), open_function_run, He. cbv zeta in Htail |- *.
  destruct (bad_name _); [by eapply extends_error|].
  change (next_index (with_tail v p)) with (next_index p) in Htail.
  destruct (next_index p =? 4294967295)%N; [by eapply extends_error|].
  apply extends_same; [done|]. rewrite Htail. unfold with_tail, with_call, pop. destruct p. cbn in *.
  rewrite drop_app_le by lia. done.
Qed.

Lemma extends_parameter_tag v p r : typed p → state p = InFunction →
  starts_with QWEN_XML_PARAMETER_START (buffer p) = true → is_Some (find [62%N] (buffer p)) →
  process (p, []) = r → extends v p r.
Proof.
  intros Ht Hst Hs [e He] <-. pose proof (find_char_inside _ _ _ He) as Hle. destruct (typed_call p Ht Hst) as [c Hc].
  assert (∀ q, state q = InFunction → starts_with QWEN_XML_PARAMETER_START (buffer q) = true →
    process (q, []) = open_parameter (q, [])) as Hproc.
  { intros q Hq Hsq. rewrite process_state, Hq, in_function_run.
    rewrite (tag_not_space QWEN_XML_PARAMETER_START) by done.
    assert (is_partial_tag_prefix (buffer q) QWEN_XML_PARAMETER_START = false) as ->.
    { unfold is_partial_tag_prefix. apply andb_false_iff. left. apply Nat.ltb_ge. by apply starts_with_length. }
    rewrite (not_partial QWEN_XML_PARAMETER_START) by done. by rewrite Hsq. }
  assert (process (with_tail v p, []) = open_parameter (with_tail v p, [])) as Htail.
  { apply Hproc; [done|]. by apply starts_with_mono. }
  rewrite (open_parameter_run (with_tail v p) [] c Hc) in Htail.
  change (buffer (with_tail v p)) with (buffer p ++ v) in Htail.
  rewrite (find_app_found _ _ v _ He) in Htail. rewrite tag_body_tail in Htail by done.
  rewrite (Hproc p Hst Hs), (open_parameter_run p [] c Hc), He. cbv zeta in Htail |- *.
  destruct (bad_name _); [by eapply extends_error|].
  apply extends_same; [done|]. rewrite Htail. unfold with_tail, with_call, pop, fragment_emissions. destruct p. cbn in *.
  rewrite drop_app_le by lia. done.
Qed.

Lemma extends_function_close v p r : typed p → state p = InFunction →
  starts_with QWEN_XML_FUNCTION_END (buffer p) = true → process (p, []) = r → extends v p r.
Proof.
  intros Ht Hst Hs <-. destruct (typed_call p Ht Hst) as [c Hc].
  assert (∀ q, state q = InFunction → starts_with QWEN_XML_FUNCTION_END (buffer q) = true →
    process (q, []) = match finish_function from_str float_text (pop (length QWEN_XML_FUNCTION_END) q, []) with
        | (Ok _, (p, em)) => (Ok true, (p <| state := ExpectToolClose |>, em))
        | (Err e, s) => (Err e, s)
        | (Panic, s) => (Panic, s)
        end) as Hproc.
  { intros q Hq Hsq. rewrite process_state, Hq, in_function_run.
    rewrite (tag_not_space QWEN_XML_FUNCTION_END), (not_partial QWEN_XML_FUNCTION_END QWEN_XML_PARAMETER_START) by done.
    assert (is_partial_tag_prefix (buffer q) QWEN_XML_FUNCTION_END = false) as ->.
    { unfold is_partial_tag_prefix. apply andb_false_iff. left. apply Nat.ltb_ge. by apply starts_with_length. }
    by rewrite (not_both QWEN_XML_FUNCTION_END), Hsq by done. }
  pose proof (Hproc (with_tail v p) Hst (starts_with_mono _ _ v Hs)) as Htail. rewrite (Hproc p Hst Hs).
  pose proof (starts_with_length _ _ Hs) as Hl.
  rewrite <- with_tail_pop in Htail by done.
  rewrite (finish_function_run (with_tail v (pop _ p)) c [] Hc) in Htail.
  rewrite (finish_function_run (pop _ p) c [] Hc).
  change (structured_deltas (with_tail v (pop (length QWEN_XML_FUNCTION_END) p))) with (structured_deltas p) in Htail.
  change (structured_deltas (pop (length QWEN_XML_FUNCTION_END) p)) with (structured_deltas p).
  destruct (structured_deltas p); [apply extends_same; [done|]; by rewrite Htail|].
  destruct (from_str (arguments_json c ++ closing c)); [apply extends_same; [done|]; by rewrite Htail|].
  by eapply extends_error.
Qed.

(** Reading part of a text and then the rest is reading it whole. *)
Lemma process_extends v p : typed p → starts_char v → ¬ ambiguous p → extends v p (process (p, [])).
Proof.
  intros Ht Hv Ha. pose proof (reads_total p Ht) as Hr. remember (process (p, [])) as r eqn:Hp. symmetry in Hp.
  inversion Hr; subst r; try done.
  - by apply extends_outside_text.
  - match goal with H : starts_with _ _ = true |- _ => rename H into Hs end.
    pose proof (starts_with_length _ _ Hs) as Hl. apply extends_same; [done|].
    in_state H. rewrite outside_run. cbv zeta. change (buffer (with_tail v p)) with (buffer p ++ v).
    assert (cut outside_tags (buffer p ++ v) = 0) as ->.
    { apply (cut_first QWEN_XML_TOOL_START QWEN_REASONING_START); try done.
      - apply find_starts. by apply starts_with_mono.
      - intros j _. lia. }
    cbn [Nat.ltb Nat.leb]. rewrite (starts_with_mono _ _ v Hs). unfold with_tail, pop. destruct p. cbn in *.
    by rewrite drop_app_le.
  - match goal with H : reasoning_end _ = Some _ |- _ => rename H into Hs end.
    pose proof (reasoning_end_app _ v _ Hs) as [Hs' Hn]. pose proof (reasoning_starts _ _ Hs') as Hst'.
    apply extends_same; [done|]. in_state H. rewrite outside_run. cbv zeta.
    change (buffer (with_tail v p)) with (buffer p ++ v).
    assert (cut outside_tags (buffer p ++ v) = 0) as ->.
    { unfold outside_tags. rewrite cut_swap. apply (cut_first QWEN_REASONING_START QWEN_XML_TOOL_START); try done.
      - by apply find_starts.
      - intros j _. lia. }
    cbn [Nat.ltb Nat.leb]. rewrite (not_both QWEN_REASONING_START) by done. rewrite reasoning_run.
    change (buffer (with_tail v p)) with (buffer p ++ v). rewrite Hs', with_tail_pop, take_text_tail by lia. done.
  - by eapply extends_white.
  - match goal with H : reasoning_end _ = Some _ |- _ => rename H into Hs end.
    pose proof (reasoning_end_app _ v _ Hs) as [Hs' Hn].
    apply extends_same; [done|]. in_state H. rewrite expected_function_run.
    change (buffer (with_tail v p)) with (buffer p ++ v).
    rewrite leading_space_app by (try done; intros E; rewrite E in Hn; simpl in Hn; lia).
    match goal with H : leading_space _ = None |- _ => rewrite H end.
    rewrite Hs', with_tail_pop, take_text_tail by lia. done.
  - by apply extends_function_text.
  - eapply extends_function_tag; [done..|by eexists|congruence].
  - eapply extends_function_tag; [done..|by eexists|congruence].
  - eapply extends_function_tag; [done..|by eexists|congruence].
  - match goal with H : leading_space _ = None |- _ => rename H into Hw end.
    eapply extends_error; [done|]. in_state H. rewrite in_function_run.
    change (buffer (with_tail v p)) with (buffer p ++ v).
    rewrite leading_space_app, Hw by (try done; by apply (partial_empty _ QWEN_XML_PARAMETER_START)).
    rewrite !not_partial_app, !not_starts_app by done. done.
  - eapply extends_parameter_tag; [done..|by eexists|congruence].
  - eapply extends_parameter_tag; [done..|by eexists|congruence].
  - by eapply extends_function_close.
  - match goal with H : find _ _ = Some _ |- _ => rename H into Hf end.
    pose proof Hf as [Ho%occurs_length _]%find_Some.
    pose proof (in_parameter_run (from_str:=from_str) (float_text:=float_text) (with_tail v p) [] c pr ltac:(done) ltac:(done)) as Htail.
    change (buffer (with_tail v p)) with (buffer p ++ v) in Htail.
    rewrite (find_app_found _ _ v _ Hf), take_app_le in Htail by lia.
    assert (process (with_tail v p, []) = process_in_parameter from_str float_text (with_tail v p, [])) as Hproc.
    { by in_state H. }
    rewrite Htail in Hproc. clear Htail. cbv zeta in Hproc.
    destruct (parameter_text pr (take i (buffer p))) as [f|e]; [|by eapply extends_error].
    apply extends_same; [done|]. rewrite Hproc. unfold with_tail, with_call, pop, fragment_emissions, p1. destruct p.
    cbn in *. rewrite drop_app_le by lia. done.
  - by apply extends_value_more.
  - match goal with H : starts_with _ _ = true |- _ => rename H into Hs end.
    apply extends_same; [done|]. in_state H. rewrite tool_close_run.
    change (buffer (with_tail v p)) with (buffer p ++ v).
    pose proof (starts_with_mono _ _ v Hs) as Hs'. rewrite (tag_not_space QWEN_XML_TOOL_END) by done.
    assert (is_partial_tag_prefix (buffer p ++ v) QWEN_XML_TOOL_END = false) as ->.
    { unfold is_partial_tag_prefix. apply andb_false_iff. left. apply Nat.ltb_ge. by apply starts_with_length. }
    rewrite Hs'. apply starts_with_length in Hs. unfold with_tail, pop. destruct p. cbn in *. by rewrite drop_app_le.
  - match goal with H : leading_space _ = None |- _ => rename H into Hw end.
    eapply extends_error; [done|]. in_state H. rewrite tool_close_run.
    change (buffer (with_tail v p)) with (buffer p ++ v).
    rewrite leading_space_app, Hw by (try done; by apply (partial_empty _ QWEN_XML_TOOL_END)).
    rewrite !not_partial_app, !not_starts_app by done. done.
Qed.

(** *** The whole text and its pieces

    A text that ends inside a reasoning block which already shows a function
    tag. *)
Definition open_reasoning (s : str) : Prop :=
  ∃ i j, occurs QWEN_REASONING_START s i ∧ i < j ∧ occurs QWEN_XML_FUNCTION_START s j
    ∧ ∀ k, i ≤ k → ¬ occurs QWEN_REASONING_END s k.

Lemma reads_suffix p b p' em : reads p (Ok b, (p', em)) → ∃ k, k ≤ length (buffer p) ∧ buffer p' = drop k (buffer p).
Proof.
  assert (∀ n, ∃ k, k ≤ length (buffer p) ∧ drop n (buffer p) = drop k (buffer p)) as Hdrop.
  { intros n. destruct (decide (n ≤ length (buffer p))); [by exists n|]. exists (length (buffer p)). split; [done|].
    rewrite !drop_ge by lia. done. }
  intros Hr. inversion Hr; clear Hr; subst; try (by apply Hdrop); try (exists 0; by rewrite drop_0; auto with lia).
  - destruct (trim_start_suffix (buffer p)) as (k & Hk & He). by exists k.
  - destruct (finish_function _ _ _) as [[[]|e|] [p1 em1]] eqn:Hf; simplify_eq.
    apply (finish_function_typed _ c) in Hf as ->; [|done]. apply Hdrop.
  - destruct (parameter_text pr (take i (buffer p))); simplify_eq. apply Hdrop.
Qed.

Lemma open_reasoning_drop s n v : n ≤ length s → open_reasoning (drop n s ++ v) → open_reasoning (s ++ v).
Proof.
  intros Hn (i & j & Hi & Hij & Hj & Hk). rewrite <- (drop_app_le s v n) in * by done.
  assert (n ≤ length (s ++ v)) as Hn' by (rewrite length_app; lia).
  exists (n + i), (n + j). split_and!; [by apply occurs_drop|lia|by apply occurs_drop|].
  intros k Hle Ho. apply (Hk (k - n)); [lia|]. apply occurs_drop; [done|]. by replace (n + (k - n)) with k by lia.
Qed.

Lemma ambiguous_open p : ambiguous p → open_reasoning (buffer p).
Proof.
  intros (_ & Hs & Hr & j & Hj). exists 0, j. pose proof (starts_with_length _ _ Hs) as Hl.
  change (length QWEN_REASONING_START) with 7 in Hl. apply find_Some in Hj as [Hj _].
  assert (0 < j) as Hpos.
  { destruct j as [|j]; [|lia]. destruct Hj as [_ Hf]. rewrite drop_0 in Hf.
    by rewrite (not_both QWEN_REASONING_START) in Hf. }
  split_and!; [split; [lia|by rewrite drop_0]|done|done|].
  intros k _ Ho. unfold reasoning_end in Hr. rewrite Hs, fmap_None in Hr.
  assert (7 ≤ k) as Hk.
  { destruct (decide (7 ≤ k)) as [|Hlt]; [done|exfalso]. destruct Ho as [Hk Ho].
    destruct (decide (k = 0)) as [->|]; [rewrite drop_0 in Ho; by rewrite (not_both QWEN_REASONING_START) in Ho|].
    apply starts_with_app in Hs as [r Hr']. apply (tag_starts QWEN_REASONING_END) in Ho; [|done].
    rewrite Hr', drop_app_le in Ho by (change (length QWEN_REASONING_START) with 7; lia).
    apply (tag_inner QWEN_REASONING_START QWEN_REASONING_START k); [done|done|lia|].
    rewrite head_lookup in Ho |- *. rewrite lookup_app_l in Ho; [done|].
    rewrite length_drop. change (length QWEN_REASONING_START) with 7. lia. }
  apply (proj1 (find_None _ _) Hr (k - 7)). apply occurs_drop; [change (length QWEN_REASONING_START) with 7; lia|].
  change (length QWEN_REASONING_START) with 7. by replace (7 + (k - 7)) with k by lia.
Qed.

Lemma settle_split p v : typed p → starts_char v → ¬ open_reasoning (buffer p) →
  settle (with_tail v p) = '(a, p1) ← settle p; then_settle a (settle (with_tail v p1)).
Proof.
  remember (length (buffer p)) as n eqn:Hn. revert p Hn. induction n as [n IH] using lt_wf_ind.
  intros p -> Ht Hv Ho. pose proof (process_extends v p Ht Hv) as He. pose proof (reads_total p Ht) as Hr.
  rewrite (settle_step p) by done. destruct (process (p, [])) as [[b|e|] [p1 em]].
  - destruct (reads_typed _ _ _ _ _ _ _ Ht Hr) as (Ht1 & Hstay & Hl).
    destruct (reads_suffix _ _ _ _ Hr) as (k & Hk & Hb). destruct b.
    + cbn [extends] in He. rewrite He by (intros Ha; by apply Ho, ambiguous_open).
      rewrite (IH (length (buffer p1)) (Hl eq_refl) p1 eq_refl Ht1 Hv).
      * destruct (settle p1) as [[a p2]|e|]; [|done..]. symmetry. apply then_settle_app.
      * rewrite Hb. intros Hx. apply Ho. rewrite <- (app_nil_r (buffer p)).
        apply (open_reasoning_drop _ k); [done|]. by rewrite app_nil_r.
    + destruct (Hstay eq_refl) as [-> ->]. cbn. by rewrite then_settle_nil.
  - apply He. intros Ha. by apply Ho, ambiguous_open.
  - by apply reads_no_panic in Hr.
Qed.

Lemma settle_suffix p a p' : typed p → settle p = Ok (a, p') → ∃ k, k ≤ length (buffer p) ∧ buffer p' = drop k (buffer p).
Proof.
  remember (length (buffer p)) as n eqn:Hn. revert p a Hn. induction n as [n IH] using lt_wf_ind.
  intros p a -> Ht. rewrite settle_step by done. pose proof (reads_total p Ht) as Hr.
  destruct (process (p, [])) as [[b|e|] [p1 em]]; [|done..].
  destruct (reads_typed _ _ _ _ _ _ _ Ht Hr) as (Ht1 & _ & Hl). destruct b.
  - destruct (reads_suffix _ _ _ _ Hr) as (k & Hk & Hb). intros H.
    destruct (settle p1) as [[a1 p2]| |] eqn:Hs; try discriminate H. injection H as <- <-.
    destruct (IH _ (Hl eq_refl) p1 a1 eq_refl Ht1 Hs) as (k2 & Hk2 & Hb2). rewrite Hb, length_drop in Hk2.
    exists (k + k2). split; [lia|]. by rewrite Hb2, Hb, drop_drop.
  - intros [= _ <-]. exists 0. split; [lia|]. by rewrite drop_0.
Qed.

(** ** Pushes *)
Local Abbreviation push_str := (push_str from_str float_text uuid).
Local Abbreviation push_all := (push_all from_str float_text uuid).

(** What the client of a push sees. *)
Definition observed (r : outcome BackendError (list QwenXmlEmission) * QwenXmlToolParser) :
    outcome BackendError (list atom * QwenXmlToolParser) :=
  let '(o, p) := r in em ← o; mret (atoms em, p).

Lemma push_settle text p : observed (push_str text p) = settle (with_tail text p).
Proof.
  unfold QwenXml.push_str, returning, settle. unfold mbind, stm_bind, self, gets, update, modify, fst.
  change (p <| buffer ::= λ b, b ++ text |>) with (with_tail text p).
  by destruct (process_loop (S (length (buffer (with_tail text p)))) (with_tail text p, [])) as [[[]|e|] [p' em]].
Qed.

Lemma push_all_cons t ts p :
  observed (push_all (t :: ts) p) = '(a, p1) ← observed (push_str t p); then_settle a (observed (push_all ts p1)).
Proof.
  cbn [QwenXml.push_all]. destruct (push_str t p) as [[em|e|] p1]; [|done..]. cbn.
  destruct (push_all ts p1) as [[em2|e|] p2]; [|done..]. cbn. by rewrite atoms_app.
Qed.

(** Parsers that wait for more text. *)
Definition settled (p : QwenXmlToolParser) : Prop := typed p ∧ process (p, []) = waits p.

Lemma settled_new structured schema : settled (parser_new structured schema).
Proof. split; [|by vm_compute]. by apply typed_outside; [set_solver|..]. Qed.

Lemma settled_settle p : settled p → settle p = Ok ([], p).
Proof. intros [Ht Hp]. rewrite settle_step by done. by rewrite Hp. Qed.

Lemma push_settled text p a p' : settled p → observed (push_str text p) = Ok (a, p') → settled p'.
Proof. intros [Ht _]. rewrite push_settle. intros H. eapply settle_typed; [|done]. by apply typed_tail. Qed.

Lemma push_all_settled texts p a p' : settled p → observed (push_all texts p) = Ok (a, p') → settled p'.
Proof.
  revert p a. induction texts as [|t ts IH]; intros p a Hp; [cbn; by intros [= _ <-]|].
  rewrite push_all_cons. destruct (observed (push_str t p)) as [[a1 p1]| |] eqn:Ht; [|done..]. cbn.
  destruct (observed (push_all ts p1)) as [[a2 p2]| |] eqn:Hts; [|done..]. cbn. intros [= _ <-].
  eapply IH; [by eapply push_settled|done].
Qed.

Lemma pieces_settle texts p : settled p → Forall starts_char texts →
  (∀ n, n < length texts → ¬ open_reasoning (buffer p ++ concat (take n texts))) →
  observed (push_all texts p) = settle (with_tail (concat texts) p).
Proof.
  revert p. induction texts as [|t ts IH]; intros p Hp Hsc Ho.
  { cbn [concat]. rewrite with_tail_nil. by rewrite settled_settle. }
  apply Forall_cons in Hsc as [Ht Hts].
  assert (starts_char (concat ts)) as Hc.
  { clear IH Ho. induction ts as [|x ts IH]; [done|]. apply Forall_cons in Hts as [? ?]. cbn. apply starts_char_app; auto. }
  rewrite push_all_cons. cbn [concat]. rewrite <- with_tail_app. pose proof Hp as [Hty _].
  destruct ts as [|t2 ts].
  - cbn [concat]. rewrite with_tail_nil, push_settle. destruct (settle (with_tail t p)) as [[a p1]| |]; [|done..].
    cbn. by rewrite app_nil_r.
  - rewrite (settle_split (with_tail t p)); [|by apply typed_tail|done|].
    + rewrite push_settle. destruct (settle (with_tail t p)) as [[a p1]| |] eqn:Hs; [|done..]. cbn [mbind outcome_bind].
      rewrite IH; [done| |done|].
      * eapply settle_typed; [by apply typed_tail|exact Hs].
      * intros n Hn Hx. apply (Ho (S n)); [simpl in *; lia|]. cbn [take concat]. rewrite app_assoc.
        apply settle_suffix in Hs as (k & Hk & Hb); [|by apply typed_tail].
        apply (open_reasoning_drop _ k); [done|]. change (buffer p ++ t) with (buffer (with_tail t p)). by rewrite <- Hb.
    + specialize (Ho 1 ltac:(simpl; lia)). cbn [take concat] in Ho. by rewrite app_nil_r in Ho.
Qed.
End run.
