(* ===== verification/QwenXmlArguments.v ===== *)
(** * The arguments of the calls the Qwen XML parser announces

    An account of what was emitted for each call: the fragments of a finished
    call spell a JSON object, those of the open call an object that still lacks
    its end, whatever text the model produced. *)
From Stdlib Require Import String.
From stdpp Require Import base gmap sets numbers list.
From S2P Require Import Prelude Text Json Whitespace Api Backend MlxStop QwenXml TagScan QwenXmlSteps QwenXmlRun.
Open Scope nat_scope.
Open Scope record_scope.

(** ** Members of an object *)
Lemma join_snoc sep l x : join sep (l ++ [x]) = match l with [] => x | _ => join sep l ++ sep ++ x end.
Proof.
  destruct l as [|y l]; [done|]. revert y. induction l as [|z l IH]; intros y; [done|].
  change (y ++ sep ++ join sep ((z :: l) ++ [x]) = (y ++ sep ++ join sep (z :: l)) ++ sep ++ x).
  by rewrite IH, <- !app_assoc.
Qed.

Section account.
Context (from_str : str → value + str) (float_text uuid : N → str).
Local Abbreviation json_text := (json_text float_text).

Definition member_text (m : str * value) : str := string_text m.1 ++ lit ":" ++ json_text m.2.

(** What was sent for an object with these members, its end aside. *)
Definition members_body (ms : object) : str :=
  match ms with [] => [] | _ => lit "{" ++ join (lit ",") (map member_text ms) end.
Definition prefix_of (ms : object) (k : str) : str :=
  match ms with [] => lit "{" | _ => lit "," end ++ string_text k ++ lit ":".

Lemma members_object ms : json_text (Object ms) = lit "{" ++ join (lit ",") (map member_text ms) ++ lit "}".
Proof. cbn [Json.json_text]. do 3 f_equal. apply map_ext. by intros [k v]. Qed.

Lemma members_body_snoc ms k v : members_body (ms ++ [(k, v)]) = members_body ms ++ prefix_of ms k ++ json_text v.
Proof.
  unfold members_body, prefix_of. destruct ms as [|m ms].
  - cbn [app map join]. unfold member_text. cbn [fst snd]. by rewrite <- !app_assoc.
  - change ((m :: ms) ++ [(k, v)]) with (m :: (ms ++ [(k, v)])). cbv iota.
    change (map member_text (m :: ms ++ [(k, v)])) with (map member_text ((m :: ms) ++ [(k, v)])).
    rewrite map_app. cbn [map]. rewrite join_snoc. cbn [map]. unfold member_text at 3. cbn [fst snd].
    by rewrite <- !app_assoc.
Qed.

Lemma members_body_close ms c : argument_count c = N.of_nat (length ms) →
  members_body ms ++ closing c = json_text (Object ms).
Proof.
  intros Hc. unfold closing. rewrite Hc, members_object. destruct ms as [|m ms]; [done|].
  rewrite (proj2 (N.eqb_neq _ 0)) by (simpl; lia). unfold members_body. by rewrite <- app_assoc.
Qed.

Lemma parameter_prefix_of ms c k : argument_count c = N.of_nat (length ms) → parameter_prefix c k = prefix_of ms k.
Proof.
  intros Hc. unfold parameter_prefix, prefix_of. rewrite Hc. destruct ms; [done|].
  by rewrite (proj2 (N.eqb_neq _ 0)) by (simpl; lia).
Qed.

(** ** The open call *)
Definition open_object (c : QwenXmlActiveCall) (op : option QwenXmlActiveParameter) : Prop :=
  ∃ ms, match op with
  | None => argument_count c = N.of_nat (length ms) ∧ arguments_json c = members_body ms
  | Some pr =>
      argument_count c = N.of_nat (S (length ms)) ∧ prefix pr = prefix_of ms (key pr)
      ∧ match kind pr with
        | KindString => ∃ s, arguments_json c = members_body ms ++ prefix pr ++ quote ++ concat (escape_byte <$> s)
        | KindJson => arguments_json c = members_body ms
        end
  end.

(** A member whose value has been read completely. *)
Lemma parameter_closes c pr piece f :
  open_object c (Some pr) → parameter_text from_str float_text pr piece = inl f →
  open_object (c <| arguments_json ::= λ a, a ++ f |>) None.
Proof.
  intros (ms & Hn & Hpre & Hk). unfold parameter_text. destruct (kind pr).
  - intros [= <-]. destruct Hk as [s Hs]. exists (ms ++ [(key pr, JString (s ++ piece))]). cbn [argument_count arguments_json upd].
    split; [rewrite length_app, Hn; simpl; lia|]. rewrite members_body_snoc, Hs, Hpre, escape_fragment.
    unfold Json.json_text, string_text, quote. rewrite fmap_app, concat_app. by rewrite <- !app_assoc.
  - destruct (from_str _) as [v|] eqn:Hv; [|done]. intros [= <-]. exists (ms ++ [(key pr, v)]).
    cbn [argument_count arguments_json upd]. split; [rewrite length_app, Hn; simpl; lia|].
    by rewrite members_body_snoc, Hk, Hpre.
Qed.

Lemma parameter_opens c k kd : open_object c None →
  open_object (open_call c k kd) (Some (MkParameter k (parameter_prefix c k) kd [])).
Proof.
  intros (ms & Hn & Ha). exists ms. unfold open_call. cbn [argument_count arguments_json upd prefix key kind].
  split_and!; [rewrite Hn; lia|by apply parameter_prefix_of|]. destruct kd; cbn [opening].
  - exists []. by rewrite Ha.
  - by rewrite Ha, app_nil_r.
Qed.

Lemma value_grows c pr piece : open_object c (Some pr) →
  open_object (c <| arguments_json ::= λ a, a ++ value_piece pr piece |>) (Some (more_value pr piece)).
Proof.
  intros (ms & Hn & Hpre & Hk). exists ms. unfold value_piece, more_value.
  destruct pr as [k pre [] v]; cbn [kind prefix key parameter_value upd argument_count arguments_json] in *.
  - split_and!; [done..|]. destruct Hk as [s Hs]. exists (s ++ piece).
    rewrite Hs, escape_fragment, fmap_app, concat_app. by rewrite <- !app_assoc.
  - by rewrite app_nil_r.
Qed.

(** A member given up: what was sent is the object without it. *)
Lemma parameter_dropped c pr : open_object c (Some pr) → kind pr = KindJson →
  open_object (c <| argument_count ::= λ n, sat_sub n 1 |>) None.
Proof.
  intros (ms & Hn & _ & Hk) Hkd. rewrite Hkd in Hk. exists ms. cbn. split; [|done]. unfold sat_sub. lia.
Qed.

Lemma object_closes c : open_object c None → ∃ ms, arguments_json c ++ closing c = json_text (Object ms).
Proof. intros (ms & Hn & ->). exists ms. by apply members_body_close. Qed.

(** ** The account *)
Definition arguments_of (i : N) (l : list atom) : str :=
  omap (λ a, match a with AArgument j b => if (i =? j)%N then Some b else None | _ => None end) l.
(** The calls announced, in order. *)
Definition announced (l : list atom) : list N :=
  omap (λ a, match a with AStart i _ _ => Some i | _ => None end) l.
Definition indices (n : N) : list N := N.of_nat <$> seq 0 (N.to_nat n).

Lemma arguments_of_app i l k : arguments_of i (l ++ k) = arguments_of i l ++ arguments_of i k.
Proof. apply omap_app. Qed.
Lemma announced_app l k : announced (l ++ k) = announced l ++ announced k.
Proof. apply omap_app. Qed.
Lemma arguments_of_text i s : arguments_of i (AText <$> s) = [].
Proof. by induction s. Qed.
Lemma announced_text s : announced (AText <$> s) = [].
Proof. by induction s. Qed.
Lemma arguments_of_same i s : arguments_of i (AArgument i <$> s) = s.
Proof. induction s as [|b s IH]; [done|]. cbn. rewrite N.eqb_refl. f_equal. exact IH. Qed.
Lemma arguments_of_other i j s : i ≠ j → arguments_of i (AArgument j <$> s) = [].
Proof. intros Hij. induction s as [|b s IH]; [done|]. cbn. rewrite (proj2 (N.eqb_neq i j)) by done. exact IH. Qed.
Lemma announced_fragment i s : announced (AArgument i <$> s) = [].
Proof. by induction s. Qed.

Lemma indices_succ n : indices (n + 1) = indices n ++ [n].
Proof.
  unfold indices. rewrite N2Nat.inj_add, seq_app, fmap_app. change (N.to_nat 1) with 1.
  cbn [seq fmap list_fmap Nat.add]. by rewrite N2Nat.id.
Qed.

(** After the atoms [l], in a parser that sends deltas. *)
Record accounts (l : list atom) (p : QwenXmlToolParser) : Prop := {
  ac_structured : structured_deltas p = true;
  ac_announced : announced l = indices (next_index p);
  ac_call : ∀ c, current_call p = Some c → open_object c (current_parameter p)
    ∧ (index c + 1)%N = next_index p ∧ arguments_of (index c) l = arguments_json c;
  ac_done : ∀ i, (i < next_index p)%N → (∀ c, current_call p = Some c → index c ≠ i) →
    ∃ ms, arguments_of i l = json_text (Object ms);
  ac_fresh : ∀ i, (next_index p ≤ i)%N → arguments_of i l = [];
}.

Lemma accounts_new sch : accounts [] (parser_new true sch).
Proof. split; try done. cbn. lia. Qed.

(** Text is not accounted for. *)
Lemma accounts_text l p p' s : accounts l p →
  structured_deltas p' = structured_deltas p → next_index p' = next_index p →
  current_call p' = current_call p → current_parameter p' = current_parameter p →
  accounts (l ++ (AText <$> s)) p'.
Proof.
  intros [Hs Ha Hc Hd Hf] Es En Ec Ep. split; rewrite ?Es, ?En, ?Ec, ?Ep; [done| | | |].
  - by rewrite announced_app, announced_text, app_nil_r.
  - intros c Hcc. rewrite arguments_of_app, arguments_of_text, app_nil_r. by apply Hc.
  - intros i Hi Ho. rewrite arguments_of_app, arguments_of_text, app_nil_r. by apply Hd.
  - intros i Hi. rewrite arguments_of_app, arguments_of_text, app_nil_r. by apply Hf.
Qed.

(** A fragment of the open call. *)
Lemma accounts_fragment l p p' c c' f : accounts l p → current_call p = Some c →
  structured_deltas p' = structured_deltas p → next_index p' = next_index p →
  current_call p' = Some c' → index c' = index c → arguments_json c' = arguments_json c ++ f →
  open_object c' (current_parameter p') → accounts (l ++ (AArgument (index c) <$> f)) p'.
Proof.
  intros [Hs Ha Hc Hd Hf] Ec Es En Ec' Hi Hj Ho. destruct (Hc c Ec) as (_ & Hn & Hargs).
  split; rewrite ?Es, ?En; [done| | | |].
  - by rewrite announced_app, announced_fragment, app_nil_r.
  - intros c2 Hc2. rewrite Ec' in Hc2. injection Hc2 as <-. rewrite Hi, Hj, arguments_of_app, arguments_of_same, Hargs. done.
  - intros i Hlt Hne. specialize (Hne c' Ec'). rewrite arguments_of_app, arguments_of_other, app_nil_r by congruence.
    apply Hd; [done|]. intros c2 Hc2. congruence.
  - intros i Hlt. rewrite arguments_of_app, arguments_of_other, app_nil_r by lia. by apply Hf.
Qed.

(** The end of the open call. *)
Lemma accounts_close l p p' c : accounts l p → current_call p = Some c → current_parameter p = None →
  structured_deltas p' = structured_deltas p → next_index p' = next_index p → current_call p' = None →
  accounts (l ++ (AArgument (index c) <$> closing c)) p'.
Proof.
  intros [Hs Ha Hc Hd Hf] Ec Ep Es En Ec'. destruct (Hc c Ec) as (Ho & Hn & Hargs). rewrite Ep in Ho.
  split; rewrite ?Es, ?En; [done| | | |].
  - by rewrite announced_app, announced_fragment, app_nil_r.
  - intros c2. by rewrite Ec'.
  - intros i Hlt _. rewrite arguments_of_app. destruct (decide (i = index c)) as [->|Hne].
    + rewrite arguments_of_same, Hargs. by apply object_closes.
    + rewrite arguments_of_other, app_nil_r by done. apply Hd; [done|]. intros c2 Hc2. congruence.
  - intros i Hlt. rewrite arguments_of_app, arguments_of_other, app_nil_r by lia. by apply Hf.
Qed.

(** A new call. *)
Lemma accounts_start l p p' n id : accounts l p → current_call p = None →
  structured_deltas p' = structured_deltas p → next_index p' = (next_index p + 1)%N →
  current_call p' = Some (MkCall (next_index p) n 0 []) → current_parameter p' = None →
  accounts (l ++ [AStart (next_index p) id n]) p'.
Proof.
  intros [Hs Ha Hc Hd Hf] Ec Es En Ec' Ep'. split; rewrite ?Es, ?En; [done| | | |].
  - rewrite announced_app, Ha, indices_succ. done.
  - intros c Hcc. rewrite Ec' in Hcc. injection Hcc as <-. rewrite Ep', arguments_of_app. cbn.
    split_and!; [by exists []|done|]. rewrite app_nil_r. apply Hf. lia.
  - intros i Hlt Hne. specialize (Hne _ Ec'). cbn in Hne. rewrite arguments_of_app, app_nil_r.
    apply Hd; [lia|]. intros c. by rewrite Ec.
  - intros i Hlt. rewrite arguments_of_app, app_nil_r. apply Hf. lia.
Qed.

(** ** Every step keeps the account *)
Lemma fragment_accounts p c f : structured_deltas p = true →
  atoms (fragment_emissions p c f) = AArgument (index c) <$> f.
Proof. intros Hs. by rewrite fragment_atoms, Hs. Qed.

Lemma start_accounts p n : structured_deltas p = true →
  atoms (start_emissions uuid p n) = [AStart (next_index p) (Some (generated_tool_call_id uuid (next_index p))) n].
Proof. intros Hs. unfold start_emissions. by rewrite Hs. Qed.

Lemma accounts_stay l p p' : accounts l p →
  structured_deltas p' = structured_deltas p → next_index p' = next_index p →
  current_call p' = current_call p → current_parameter p' = current_parameter p → accounts l p'.
Proof.
  intros Ha Es En Ec Ep. rewrite <- (app_nil_r l). by apply (accounts_text l p p' []).
Qed.

Lemma reads_accounts l p p' em b : typed p → accounts l p →
  reads from_str float_text uuid p (Ok b, (p', em)) → accounts (l ++ atoms em) p'.
Proof.
  intros Ht Ha Hr. pose proof (ac_structured _ _ Ha) as Hs.
  inversion Hr; clear Hr; subst; unfold take_text;
    rewrite ?atoms_text, ?fragment_accounts, ?start_accounts by done; try (by eapply accounts_text);
    try (rewrite app_nil_r; by eapply accounts_stay).
  - destruct Ht as [? Hc Hp|? Hs' ? ?|? ? Hs' ? ?]; [|congruence..]. by eapply accounts_start.
  - destruct Ht as [Hs' ? ?|c' ? Hc Hp|? ? Hs' ? ?]; [|simplify_eq|congruence].
    + match goal with H : state p = _ |- _ => rewrite H in Hs'; set_solver end.
    + eapply accounts_fragment; [done..|]. cbn [current_parameter upd]. apply parameter_opens.
      destruct (ac_call _ _ Ha c' Hc) as [Ho _]. by rewrite Hp in Ho.
  - rewrite (finish_function_run (pop _ p) c []) in * by done.
    change (structured_deltas (pop (length QWEN_XML_FUNCTION_END) p)) with (structured_deltas p) in *.
    rewrite Hs in *. simplify_eq. cbn [app]. rewrite fragment_accounts by done.
    destruct Ht as [Hs' ? ?|c' ? Hc Hp|? ? Hs' ? ?]; [congruence| |congruence]. by eapply accounts_close.
  - destruct (parameter_text _ _ pr (take i (buffer p))) as [f|e] eqn:Hf; simplify_eq.
    rewrite fragment_accounts by done. destruct (ac_call _ _ Ha c ltac:(done)) as [Ho _].
    match goal with H : current_parameter p = Some pr |- _ => rewrite H in Ho end.
    eapply accounts_fragment; [done..|]. cbn [current_parameter upd]. by eapply parameter_closes.
  - destruct (ac_call _ _ Ha c ltac:(done)) as [Ho _].
    match goal with H : current_parameter p = Some pr |- _ => rewrite H in Ho end.
    eapply accounts_fragment; [done..|]. cbn [current_parameter upd]. by apply value_grows.
Qed.

Lemma settle_accounts l p a p' : typed p → accounts l p →
  settle from_str float_text uuid p = Ok (a, p') → accounts (l ++ a) p'.
Proof.
  remember (length (buffer p)) as n eqn:Hn. revert l p a Hn. induction n as [n IH] using lt_wf_ind.
  intros l p a -> Ht Ha. rewrite settle_step by done. pose proof (reads_total from_str float_text uuid p Ht) as Hr.
  destruct (process from_str float_text uuid (p, [])) as [[b|e|] [p1 em]]; [|done..].
  pose proof (reads_accounts _ _ _ _ _ Ht Ha Hr) as Ha1.
  destruct (reads_typed _ _ _ _ _ _ _ Ht Hr) as (Ht1 & Hstay & Hl). destruct b.
  - intros H. destruct (settle from_str float_text uuid p1) as [[a1 p2]| |] eqn:Hset; try discriminate H.
    injection H as <- <-. rewrite app_assoc. by eapply IH; [exact (Hl eq_refl)|done..].
  - intros [= <- <-]. destruct (Hstay eq_refl) as [-> ->]. exact Ha1.
Qed.

Lemma accounts_tail l p v : accounts l p → accounts l (with_tail v p).
Proof. intros Ha. by eapply accounts_stay. Qed.

Lemma pushes_accounts texts l p a p' : settled from_str float_text uuid p → accounts l p →
  observed (push_all from_str float_text uuid texts p) = Ok (a, p') → accounts (l ++ a) p'.
Proof.
  revert l p a. induction texts as [|t ts IH]; intros l p a Hp Ha.
  - cbn. intros [= <- <-]. by rewrite app_nil_r.
  - rewrite push_all_cons. destruct (observed (push_str from_str float_text uuid t p)) as [[a1 p1]| |] eqn:Ht; [|done..].
    cbn. destruct (observed (push_all from_str float_text uuid ts p1)) as [[a2 p2]| |] eqn:Hts; [|done..].
    cbn. intros [= <- <-]. rewrite app_assoc. eapply IH; [by eapply push_settled| |done].
    rewrite push_settle in Ht. destruct Hp as [Hty _]. eapply settle_accounts; [|by apply accounts_tail|exact Ht].
    by apply typed_tail.
Qed.

(** ** The end of the text *)
Lemma finish_run p : typed p →
  finish p = match state p with
    | Outside => (Ok (if bool_decide (buffer p = []) then [] else [emission_text (buffer p)]), p <| buffer := [] |>)
    | s => (Err (error_other (lit "Qwen XML tool call ended while parser was in " ++ state_debug s)), p)
    end.
Proof.
  intros _. unfold finish, returning, mbind, stm_bind, self, gets, update, modify, push_emission, fst.
  destruct p as [sd sc [] b ni cc cp]; cbn; try reflexivity. by case_bool_decide as E; [rewrite E|].
Qed.

Lemma close_call_run p em c : current_call p = Some c → structured_deltas p = true →
  close_call from_str float_text (p, em)
  = (Ok tt, (p <| current_call := None |> <| state := Outside |>, em ++ fragment_emissions p c (closing c))).
Proof.
  intros Hc Hs. unfold close_call. unfold mbind at 1, stm_bind at 1, self, gets, fst. rewrite Hc.
  unfold mbind, stm_bind. by rewrite (finish_function_run p c em Hc), Hs.
Qed.

Lemma truncated_parameter_run p c pr :
  state p = InParameter → current_call p = Some c → current_parameter p = Some pr → structured_deltas p = true →
  finish_truncated from_str float_text p =
  let '(c1, em) := match parameter_text from_str float_text pr (buffer p) with
    | inl f => (c <| arguments_json ::= λ a, a ++ f |>, fragment_emissions p c f)
    | inr _ => (c <| argument_count ::= λ n, sat_sub n 1 |>, [])
    end in
  (Ok (em ++ fragment_emissions p c1 (closing c1)),
   p <| buffer := [] |> <| current_parameter := None |> <| current_call := None |> <| state := Outside |>).
Proof.
  intros Hst Hc Hp Hs. unfold finish_truncated, returning. unfold mbind at 1, stm_bind at 1, self at 1, gets at 1, fst at 1.
  rewrite Hst. cbv zeta. unfold mbind at 1, stm_bind at 1, update at 1, modify at 1.
  unfold mbind at 1, stm_bind at 1. cbn [fst]. rewrite Hp.
  cbn [fmap option_fmap option_map].
  pose proof (finish_parameter_run from_str float_text (buffer p) (p <| buffer := [] |>) c pr [] Hc Hp) as Hf.
  cbv zeta in Hf. destruct (kind pr) eqn:Hk;
    [|unfold mbind at 1, stm_bind at 1, attempt];
    rewrite Hf.
  - unfold parameter_text. rewrite Hk. cbn [app].
    by erewrite close_call_run by done.
  - destruct (parameter_text from_str float_text pr (buffer p)) as [f|e].
    + cbn [mret stm_ret]. by erewrite close_call_run by done.
    + unfold update at 1, modify at 1. cbn [current_call upd]. rewrite Hc. cbn [fmap option_fmap option_map].
      by erewrite close_call_run by done.
Qed.

(** Text cut off by the token limit always ends well, closing what is open. *)
Lemma truncated_accounts l p : typed p → accounts l p →
  ∃ em p', finish_truncated from_str float_text p = (Ok em, p') ∧ accounts (l ++ atoms em) p' ∧ current_call p' = None.
Proof.
  intros Ht Ha. pose proof (ac_structured _ _ Ha) as Hs. destruct Ht as [Hst Hc Hp|c Hst Hc Hp|c pr Hst Hc Hp].
  - unfold finish_truncated, returning. unfold mbind at 1, stm_bind at 1, self at 1, gets, fst.
    destruct (state p) eqn:E; try (exfalso; set_solver);
      eexists _, _; (split; [reflexivity|]); rewrite app_nil_r; (split; [by eapply accounts_stay|done]).
  - unfold finish_truncated, returning. unfold mbind at 1, stm_bind at 1, self at 1, gets, fst.
    rewrite Hst. unfold mbind at 1, stm_bind at 1, update, modify.
    rewrite (close_call_run (p <| buffer := [] |>) [] c) by done. eexists _, _. split; [reflexivity|].
    cbn [app]. rewrite fragment_accounts by done. split; [|done]. by eapply accounts_close.
  - rewrite (truncated_parameter_run p c pr) by done. destruct (ac_call _ _ Ha c Hc) as [Ho _]. rewrite Hp in Ho.
    destruct (parameter_text from_str float_text pr (buffer p)) as [f|e] eqn:Hf.
    + eexists _, _. split; [reflexivity|]. split; [|done]. rewrite atoms_app, app_assoc, !fragment_accounts by done.
      eapply (accounts_close _ (with_call (c <| arguments_json ::= λ a, a ++ f |>) p <| current_parameter := None |>));
        try done. eapply accounts_fragment; try done. by eapply parameter_closes.
    + eexists _, _. split; [reflexivity|]. split; [|done]. cbn [app]. rewrite fragment_accounts by done.
      eapply (accounts_close _ (with_call (c <| argument_count ::= λ n, sat_sub n 1 |>) p <| current_parameter := None |>));
        try done. rewrite <- (app_nil_r l). eapply (accounts_fragment l p _ c _ []); try done.
      * cbn. by rewrite app_nil_r.
      * eapply parameter_dropped; [done|]. unfold parameter_text in Hf. by destruct (kind pr).
Qed.
End account.
