(* ===== verification/QwenXmlRoundtrip.v ===== *)
(** * Reading back a conversation in Qwen's XML markup

    A rendered conversation (text, reasoning blocks and calls) and what the
    parser makes of it, tag by tag. *)
From Stdlib Require Import String.
From stdpp Require Import base gmap sets numbers list.
From S2P Require Import Prelude Text Json Whitespace Api Backend MlxStop QwenXml TagScan QwenXmlSteps QwenXmlRun QwenXmlArguments.
Open Scope nat_scope.
Open Scope record_scope.

(** ** Conversations *)
Inductive markup :=
| Reasoning (body : str)
| Call (name : str) (parameters : list (str * str)).

(** Pieces of markup, each after some text, and the text after the last. *)
Abbreviation document := (list (str * markup) * str)%type (only parsing).

Definition render_parameter (gap : str) (kv : str * str) : str :=
  QWEN_XML_PARAMETER_START ++ kv.1 ++ [62%N] ++ kv.2 ++ QWEN_XML_PARAMETER_END ++ gap.
Definition render_markup (gap : str) (m : markup) : str :=
  match m with
  | Reasoning body => QWEN_REASONING_START ++ body ++ QWEN_REASONING_END
  | Call n ps =>
      QWEN_XML_TOOL_START ++ gap ++ QWEN_XML_FUNCTION_START ++ n ++ [62%N] ++ gap
      ++ concat (render_parameter gap <$> ps)
      ++ QWEN_XML_FUNCTION_END ++ gap ++ QWEN_XML_TOOL_END
  end.
Definition render (gap : str) (d : document) : str :=
  concat ((λ '(t, m), t ++ render_markup gap m) <$> d.1) ++ d.2.

Section roundtrip.
Context (from_str : str → value + str) (float_text uuid : N → str).
Local Abbreviation settle := (settle from_str float_text uuid).
Local Abbreviation json_text := (json_text float_text).

(** The value of a parameter, as the schema has it. *)
Definition parameter_json (kd : QwenXmlParameterKind) (v : str) : option value :=
  match kd with
  | KindString => Some (JString v)
  | KindJson => match from_str (trim v) with inl x => Some x | inr _ => None end
  end.
Definition member_of (sch : gmap str (gmap str QwenXmlParameterKind)) (n : str) (kv : str * str) : option (str * value) :=
  pair kv.1 <$> parameter_json (parameter_kind n kv.1 sch) kv.2.
Definition arguments (sch : gmap str (gmap str QwenXmlParameterKind)) (n : str) (ps : list (str * str)) : object :=
  omap (member_of sch n) ps.

(** What a client is to see. *)
Definition call_atoms (structured : bool) (i : N) (n : str) (args : object) : list atom :=
  if structured then
    AStart i (Some (generated_tool_call_id uuid i)) n :: (AArgument i <$> json_text (Object args))
  else AText <$> call_markup float_text n (Object args).
Fixpoint document_atoms (structured : bool) (sch : gmap str (gmap str QwenXmlParameterKind)) (i : N)
    (d : list (str * markup)) : list atom :=
  match d with
  | [] => []
  | (t, Reasoning body) :: d =>
      (AText <$> t ++ QWEN_REASONING_START ++ body ++ QWEN_REASONING_END) ++ document_atoms structured sch i d
  | (t, Call n ps) :: d =>
      (AText <$> t) ++ call_atoms structured i n (arguments sch n ps) ++ document_atoms structured sch (i + 1) d
  end.

(** Conversations that can be read back. *)
Definition good_text (t : str) : Prop :=
  find QWEN_XML_TOOL_START t = None ∧ find QWEN_REASONING_START t = None.
Definition good_name (n : str) : Prop := bad_name n = false ∧ 62%N ∉ n.
Definition good_parameter (sch : gmap str (gmap str QwenXmlParameterKind)) (n : str) (kv : str * str) : Prop :=
  good_name kv.1 ∧ find QWEN_XML_PARAMETER_END kv.2 = None ∧ is_Some (member_of sch n kv).
Definition good_markup (structured : bool) (sch : gmap str (gmap str QwenXmlParameterKind)) (m : markup) : Prop :=
  match m with
  | Reasoning body => find QWEN_REASONING_END body = None
  | Call n ps => good_name n ∧ Forall (good_parameter sch n) ps
      ∧ (structured = false → from_str (json_text (Object (arguments sch n ps))) = inl (Object (arguments sch n ps)))
  end.
Fixpoint calls (d : list (str * markup)) : N :=
  match d with
  | [] => 0
  | (_, Call _ _) :: d => 1 + calls d
  | (_, Reasoning _) :: d => calls d
  end.

(** ** Tag by tag *)
Lemma cut_text t w r : good_text t → w ∈ outside_tags → cut outside_tags (t ++ w ++ r) = length t.
Proof.
  intros [Ht Hr] Hw.
  assert (is_tag w = true) as Htag.
  { unfold outside_tags in Hw. apply elem_of_cons in Hw as [-> | ->%list_elem_of_singleton]; done. }
  destruct (tag_cons w Htag) as [w' Hw'].
  apply cut_found.
  - repeat constructor; apply outside_tags_ok.
  - exists w. split; [done|]. split; [rewrite length_app; lia|]. rewrite drop_app_length. apply starts_with_app. by exists r.
  - intros x p Hx Hp Ho. rewrite Hw' in Ho. change ((60%N :: w') ++ r) with (60%N :: (w' ++ r)) in Ho.
    unfold outside_tags in Hx. apply elem_of_cons in Hx as [-> | ->%list_elem_of_singleton].
    + apply occurs_before in Ho; [|done..]. by apply (proj1 (find_None _ _) Ht p).
    + apply occurs_before in Ho; [|done..]. by apply (proj1 (find_None _ _) Hr p).
Qed.

(** A parser in a state, with a buffer and a call. *)
Definition at_ (sd : bool) sch st b i cc : QwenXmlToolParser := MkParser sd sch st b i cc None.

Lemma typed_at_none sd sch st b i : st ≠ InFunction → st ≠ InParameter → typed (at_ sd sch st b i None).
Proof. intros ? ?. apply typed_outside; [|done..]. destruct st; cbn; [set_solver..|done|done|set_solver]. Qed.
Lemma typed_at_call sd sch b i c : typed (at_ sd sch InFunction b i (Some c)).
Proof. by eapply typed_in_function. Qed.

Lemma settle_reads p p' em : typed p →
  process from_str float_text uuid (p, []) = (Ok true, (p', em)) → settle p = then_settle (atoms em) (settle p').
Proof. intros Ht Hp. rewrite settle_step by done. by rewrite Hp. Qed.

Lemma outside_step p : state p = Outside → process from_str float_text uuid (p, []) = process_outside (p, []).
Proof. intros Hst. by rewrite process_state, Hst. Qed.

Lemma read_plain sd sch s n i : cut outside_tags s = S n →
  settle (at_ sd sch Outside s i None)
  = then_settle (AText <$> take (S n) s) (settle (at_ sd sch Outside (drop (S n) s) i None)).
Proof.
  intros Hc. erewrite settle_reads; [|by apply typed_at_none|].
  2: { rewrite outside_step, outside_run by done. cbv zeta. change (buffer (at_ sd sch Outside s i None)) with s.
       rewrite Hc. reflexivity. }
  cbn [app]. unfold take_text. by rewrite atoms_text.
Qed.

Lemma read_text sd sch t w r i : good_text t → w ∈ outside_tags →
  settle (at_ sd sch Outside (t ++ w ++ r) i None)
  = then_settle (AText <$> t) (settle (at_ sd sch Outside (w ++ r) i None)).
Proof.
  intros Ht Hw. pose proof (cut_text t w r Ht Hw) as Hc. destruct t as [|b t]; [by rewrite then_settle_nil|].
  rewrite (read_plain _ _ _ (length t)) by done. by rewrite <- Hc at 1 2; rewrite Hc, take_app_length, drop_app_length.
Qed.

Lemma read_tool sd sch r i :
  settle (at_ sd sch Outside (QWEN_XML_TOOL_START ++ r) i None) = settle (at_ sd sch ExpectFunction r i None).
Proof.
  pose proof (cut_text [] QWEN_XML_TOOL_START r) as Hc. cbn [app length] in Hc.
  erewrite settle_reads; [|by apply typed_at_none|].
  2: { rewrite outside_step, outside_run by done. cbv zeta.
       change (buffer (at_ sd sch Outside (QWEN_XML_TOOL_START ++ r) i None)) with (QWEN_XML_TOOL_START ++ r).
       rewrite Hc by (done || set_solver). cbn [Nat.ltb Nat.leb].
       rewrite (proj2 (starts_with_app _ _)) by by eexists. reflexivity. }
  apply then_settle_nil.
Qed.

Lemma read_reasoning sd sch body r i : find QWEN_REASONING_END body = None →
  settle (at_ sd sch Outside (QWEN_REASONING_START ++ body ++ QWEN_REASONING_END ++ r) i None)
  = then_settle (AText <$> QWEN_REASONING_START ++ body ++ QWEN_REASONING_END) (settle (at_ sd sch Outside r i None)).
Proof.
  intros Hb. set (block := QWEN_REASONING_START ++ body ++ QWEN_REASONING_END).
  replace (QWEN_REASONING_START ++ body ++ QWEN_REASONING_END ++ r) with (block ++ r)
    by (unfold block; rewrite <- !app_assoc; done).
  assert (reasoning_end (block ++ r) = Some (length block)) as He.
  { unfold reasoning_end, block. rewrite <- !app_assoc. rewrite (proj2 (starts_with_app _ _)) by by eexists.
    rewrite drop_app_length, find_tag_end by done. cbn [fmap option_fmap option_map]. f_equal.
    rewrite !length_app. lia. }
  pose proof (cut_text [] QWEN_REASONING_START (body ++ QWEN_REASONING_END ++ r)) as Hc. cbn [length] in Hc.
  erewrite settle_reads; [|by apply typed_at_none|].
  2: { rewrite outside_step, outside_run by done. cbv zeta.
       change (buffer (at_ sd sch Outside (block ++ r) i None)) with (block ++ r).
       replace (block ++ r) with ([] ++ QWEN_REASONING_START ++ body ++ QWEN_REASONING_END ++ r) at 1
         by (unfold block; rewrite <- !app_assoc; done).
       rewrite Hc by (done || set_solver). cbn [Nat.ltb Nat.leb].
       rewrite (not_both QWEN_REASONING_START); [|done..|by eapply reasoning_starts].
       rewrite reasoning_run. change (buffer (at_ sd sch Outside (block ++ r) i None)) with (block ++ r).
       rewrite He. reflexivity. }
  cbn [app]. unfold take_text. rewrite atoms_text.
  change (buffer (at_ sd sch Outside (block ++ r) i None)) with (block ++ r). rewrite take_app_length. f_equal.
  change (settle (at_ sd sch Outside (drop (length block) (block ++ r)) i None) = settle (at_ sd sch Outside r i None)).
  by rewrite drop_app_length.
Qed.

(** Whitespace between tags. *)
Lemma read_gap sd sch st gap r i cc : st ≠ Outside → st ≠ InParameter →
  trim_start gap = [] → starts_char r → leading_space r = None → typed (at_ sd sch st (gap ++ r) i cc) →
  settle (at_ sd sch st (gap ++ r) i cc) = settle (at_ sd sch st r i cc).
Proof.
  intros Hs1 Hs2 Hg Hr Hw Ht.
  assert (st ∈ [ExpectFunction; InFunction; ExpectToolClose]) as Hst by (destruct st; [done|set_solver..|done|set_solver]).
  assert (trim_start (gap ++ r) = r) as Htrim.
  { rewrite trim_start_app, Hg by done. by apply trim_start_none. }
  destruct (leading_space (gap ++ r)) as [n|] eqn:E.
  - rewrite (settle_white _ _ _ _ n) by done. unfold at_. cbn [upd buffer]. by rewrite Htrim.
  - apply trim_start_none in E. by rewrite <- E, Htrim.
Qed.

(** *** A tag with a name *)
Lemma named_tag tag n r : 62%N ∉ tag → good_name n →
  find [62%N] (tag ++ n ++ [62%N] ++ r) = Some (length tag + length n)
  ∧ take (length tag + length n - length tag) (drop (length tag) (tag ++ n ++ [62%N] ++ r)) = n
  ∧ drop (S (length tag + length n)) (tag ++ n ++ [62%N] ++ r) = r.
Proof.
  intros Htag [_ Hn]. split_and!.
  - rewrite app_assoc. change ([62%N] ++ r) with (62%N :: r). rewrite find_char_end, length_app; [done|].
    by rewrite not_elem_of_app.
  - rewrite drop_app_length. replace (length tag + length n - length tag) with (length n) by lia. apply take_app_length.
  - rewrite app_assoc. replace (S (length tag + length n)) with (length ((tag ++ n) ++ [62%N])) by (rewrite !length_app; simpl; lia).
    rewrite app_assoc. apply drop_app_length.
Qed.

Lemma tags_unclosed : (62%N ∉ QWEN_XML_FUNCTION_START) ∧ (62%N ∉ QWEN_XML_PARAMETER_START).
Proof. split; apply find_char_None; by vm_compute. Qed.

(** A call whose members so far are [ms]. *)
Definition call_of (i : N) (n : str) (ms : object) : QwenXmlActiveCall :=
  MkCall i n (N.of_nat (length ms)) (members_body float_text ms).
Definition fragment_of (sd : bool) (i : N) (f : str) : list atom := if sd then AArgument i <$> f else [].

Lemma fragment_of_app sd i f g : fragment_of sd i (f ++ g) = fragment_of sd i f ++ fragment_of sd i g.
Proof. destruct sd; [apply fmap_app|done]. Qed.

Lemma read_function sd sch n r i : good_name n → i ≠ 4294967295%N →
  settle (at_ sd sch ExpectFunction (QWEN_XML_FUNCTION_START ++ n ++ [62%N] ++ r) i None)
  = then_settle (if sd then [AStart i (Some (generated_tool_call_id uuid i)) n] else [])
      (settle (at_ sd sch InFunction r (i + 1) (Some (call_of i n [])))).
Proof.
  intros Hn Hi. destruct (named_tag QWEN_XML_FUNCTION_START n r (proj1 tags_unclosed) Hn) as (Hfind & Htake & Hdrop).
  set (s := QWEN_XML_FUNCTION_START ++ n ++ [62%N] ++ r) in *.
  assert (starts_with QWEN_XML_FUNCTION_START s = true) as Hs by (apply starts_with_app; by eexists).
  erewrite settle_reads; [|by apply typed_at_none|].
  2: { rewrite process_state. change (state (at_ sd sch ExpectFunction s i None)) with ExpectFunction. cbv iota.
       rewrite expected_function_run. change (buffer (at_ sd sch ExpectFunction s i None)) with s.
       rewrite (tag_not_space QWEN_XML_FUNCTION_START), (not_reasoning QWEN_XML_FUNCTION_START) by done.
       rewrite (proj2 (find_starts _ _) Hs), open_function_run.
       change (buffer (at_ sd sch ExpectFunction s i None)) with s. rewrite Hfind. cbv zeta.
       unfold tag_body. change (buffer (at_ sd sch ExpectFunction s i None)) with s. rewrite Htake.
       rewrite (proj1 Hn). change (next_index (at_ sd sch ExpectFunction s i None)) with i.
       rewrite (proj2 (N.eqb_neq _ _) Hi). reflexivity. }
  cbn [app]. f_equal.
  - unfold start_emissions. cbn [structured_deltas at_]. by destruct sd.
  - change (settle (at_ sd sch InFunction (drop (S (length QWEN_XML_FUNCTION_START + length n)) s) (i + 1)
      (Some (MkCall i n 0 []))) = settle (at_ sd sch InFunction r (i + 1) (Some (call_of i n [])))).
    by rewrite Hdrop.
Qed.

(** A parameter whose value is in the buffer up to its end. *)
Lemma read_value p c pr v r f : state p = InParameter → current_call p = Some c → current_parameter p = Some pr →
  buffer p = v ++ QWEN_XML_PARAMETER_END ++ r → find QWEN_XML_PARAMETER_END v = None →
  parameter_text from_str float_text pr v = inl f →
  settle p = then_settle (fragment_of (structured_deltas p) (index c) f)
    (settle (at_ (structured_deltas p) (schema p) InFunction r (next_index p)
       (Some (c <| arguments_json ::= λ a, a ++ f |>)))).
Proof.
  intros Hst Hc Hp Hb Hv Hf. erewrite settle_reads; [|by eapply typed_in_parameter|].
  2: { rewrite process_state, Hst, (in_parameter_run p [] c pr), Hb, find_tag_end, take_app_length, Hf by done. reflexivity. }
  cbn [app]. rewrite fragment_atoms. f_equal. f_equal.
  destruct p as [sd sch st b i cc cp]. cbn [buffer structured_deltas schema next_index] in *.
  unfold with_call, pop, at_. cbn [upd buffer structured_deltas schema next_index]. rewrite Hb.
  by rewrite app_assoc, <- length_app, drop_app_length.
Qed.

Lemma parameter_value_text sch n k v x pre :
  member_of sch n (k, v) = Some (k, x) →
  ∃ f, parameter_text from_str float_text (MkParameter k pre (parameter_kind n k sch) []) v = inl f
    ∧ (match parameter_kind n k sch with KindString => pre ++ quote | KindJson => [] end) ++ f = pre ++ json_text x.
Proof.
  intros Hm. unfold member_of, parameter_json in Hm. cbn [fst snd] in Hm. unfold parameter_text. cbn [kind parameter_value prefix].
  destruct (parameter_kind n k sch).
  - cbn in Hm. injection Hm as <-. eexists. split; [done|]. rewrite escape_fragment.
    unfold Json.json_text, string_text, quote. by rewrite <- !app_assoc.
  - cbn [app]. destruct (from_str (trim v)) as [y|]; [|done]. cbn in Hm. injection Hm as <-. by eexists.
Qed.

Lemma read_parameter sd sch n ms kv x gap r i j : good_parameter sch n kv → member_of sch n kv = Some x →
  trim_start gap = [] → starts_char r → leading_space r = None →
  settle (at_ sd sch InFunction (render_parameter gap kv ++ r) i (Some (call_of j n ms)))
  = then_settle (fragment_of sd j (prefix_of ms x.1 ++ json_text x.2))
      (settle (at_ sd sch InFunction r i (Some (call_of j n (ms ++ [x]))))).
Proof.
  intros (Hk & Hv & _) Hm Hg Hr Hw. destruct kv as [k v]. cbn [fst snd] in *.
  assert (x.1 = k) as Hx1.
  { unfold member_of in Hm. cbn in Hm. destruct (parameter_json _ v); [|done]. by injection Hm as <-. }
  destruct x as [k' x]. cbn [fst snd] in *. subst k'.
  set (rest := v ++ QWEN_XML_PARAMETER_END ++ gap ++ r).
  assert (render_parameter gap (k, v) ++ r = QWEN_XML_PARAMETER_START ++ k ++ [62%N] ++ rest) as ->.
  { unfold render_parameter, rest. cbn [fst snd]. by rewrite <- !app_assoc. }
  destruct (named_tag QWEN_XML_PARAMETER_START k rest (proj2 tags_unclosed) Hk) as (Hfind & Htake & Hdrop).
  set (s := QWEN_XML_PARAMETER_START ++ k ++ [62%N] ++ rest) in *.
  assert (starts_with QWEN_XML_PARAMETER_START s = true) as Hs by (apply starts_with_app; by eexists).
  set (c := call_of j n ms). set (kd := parameter_kind n k sch). set (pre := prefix_of ms k).
  assert (parameter_prefix c k = pre) as Hpre by by apply parameter_prefix_of.
  assert (is_partial_tag_prefix s QWEN_XML_PARAMETER_START = false) as Hnp.
  { unfold is_partial_tag_prefix. apply andb_false_iff. left. apply Nat.ltb_ge. by apply starts_with_length. }
  erewrite settle_reads; [|by apply typed_at_call|].
  2: { rewrite process_state. change (state (at_ sd sch InFunction s i (Some c))) with InFunction. cbv iota.
       rewrite in_function_run. change (buffer (at_ sd sch InFunction s i (Some c))) with s.
       rewrite (tag_not_space QWEN_XML_PARAMETER_START) by done. rewrite Hnp.
       rewrite (not_partial QWEN_XML_PARAMETER_START QWEN_XML_FUNCTION_END) by done. cbn [orb]. rewrite Hs.
       rewrite (open_parameter_run (at_ sd sch InFunction s i (Some c)) [] c eq_refl).
       change (buffer (at_ sd sch InFunction s i (Some c))) with s. rewrite Hfind. cbv zeta.
       unfold tag_body. change (buffer (at_ sd sch InFunction s i (Some c))) with s. rewrite Htake.
       rewrite (proj1 Hk). reflexivity. }
  change (schema (at_ sd sch InFunction s i (Some c))) with sch. change (name c) with n. fold kd. rewrite Hpre.
  destruct (parameter_value_text sch n k v x pre Hm) as (f & Hf & Htext). fold kd in Hf, Htext.
  erewrite (read_value _ (open_call c k kd) (MkParameter k pre kd []) v (gap ++ r) f);
    [|reflexivity|reflexivity|reflexivity|exact Hdrop|done|exact Hf].
  match goal with |- context [at_ (structured_deltas ?P) (schema ?P) _ _ (next_index ?P) _] =>
    change (structured_deltas P) with sd; change (schema P) with sch; change (next_index P) with i end.
  rewrite <- then_settle_app. cbn [app]. rewrite fragment_atoms.
  assert (opening c k kd = match kd with KindString => pre ++ quote | KindJson => [] end) as Hopen.
  { unfold opening. by rewrite Hpre. }
  f_equal.
  - rewrite <- Htext, fragment_of_app, Hopen. done.
  - etransitivity.
    { apply read_gap; [done|done|done|done|done|]. apply typed_at_call. }
    f_equal. unfold at_, with_call, pop. cbn [upd structured_deltas schema next_index]. f_equal. f_equal.
    unfold open_call, c, call_of. cbn [upd index name argument_count arguments_json]. f_equal.
    + rewrite length_app. simpl. lia.
    + rewrite members_body_snoc, <- app_assoc. fold pre. f_equal. rewrite <- Htext. f_equal.
      fold c. exact Hopen.
Qed.

Lemma gap_then gap t r : is_tag t = true → trim_start gap = [] →
  starts_char (t ++ r) ∧ leading_space (t ++ r) = None.
Proof.
  intros Ht _. assert (leading_space (t ++ r) = None) as Hw.
  { apply (tag_not_space t); [done|]. apply starts_with_app. by eexists. }
  destruct (tag_cons t Ht) as [t' ->]. by split.
Qed.

Lemma parameters_start gap ps r : trim_start gap = [] → starts_char r → leading_space r = None →
  starts_char (concat (render_parameter gap <$> ps) ++ r) ∧ leading_space (concat (render_parameter gap <$> ps) ++ r) = None.
Proof.
  intros Hg Hr Hw. destruct ps as [|kv ps]; [done|]. cbn [fmap list_fmap concat]. unfold render_parameter at 1 3.
  rewrite <- !app_assoc. by apply (gap_then gap QWEN_XML_PARAMETER_START).
Qed.

Lemma read_parameters sd sch n ps gap r i j ms : Forall (good_parameter sch n) ps →
  trim_start gap = [] → starts_char r → leading_space r = None →
  ∃ f, settle (at_ sd sch InFunction (concat (render_parameter gap <$> ps) ++ r) i (Some (call_of j n ms)))
    = then_settle (fragment_of sd j f) (settle (at_ sd sch InFunction r i (Some (call_of j n (ms ++ arguments sch n ps)))))
  ∧ members_body float_text ms ++ f = members_body float_text (ms ++ arguments sch n ps).
Proof.
  intros Hps Hg Hr Hw. revert ms. induction Hps as [|kv ps Hkv Hps IH]; intros ms.
  { exists []. rewrite !app_nil_r. split; [|done]. destruct sd; symmetry; apply then_settle_nil. }
  pose proof Hkv as (_ & _ & [x Hx]). destruct (IH (ms ++ [x])) as (f & Hf & Hb).
  exists ((prefix_of ms x.1 ++ json_text x.2) ++ f).
  assert (arguments sch n (kv :: ps) = [x] ++ arguments sch n ps) as -> by (unfold arguments; cbn; rewrite Hx; done).
  rewrite app_assoc. split.
  - assert (starts_char (concat (render_parameter gap <$> ps) ++ r)
      ∧ leading_space (concat (render_parameter gap <$> ps) ++ r) = None) as [Hr' Hw'] by by apply parameters_start.
    rewrite fmap_cons. cbn [concat]. rewrite <- app_assoc, (read_parameter sd sch n ms kv x) by done.
    by rewrite Hf, <- then_settle_app, <- fragment_of_app.
  - rewrite <- Hb. destruct x as [k x]. by rewrite members_body_snoc, <- !app_assoc.
Qed.

Lemma read_function_end sd sch n gap r i j ms : trim_start gap = [] →
  (sd = false → from_str (json_text (Object ms)) = inl (Object ms)) →
  settle (at_ sd sch InFunction (QWEN_XML_FUNCTION_END ++ gap ++ QWEN_XML_TOOL_END ++ r) i (Some (call_of j n ms)))
  = then_settle (if sd then AArgument j <$> closing (call_of j n ms) else AText <$> call_markup float_text n (Object ms))
      (settle (at_ sd sch Outside r i None)).
Proof.
  intros Hg Hparse. set (c := call_of j n ms). set (rest := gap ++ QWEN_XML_TOOL_END ++ r).
  set (s := QWEN_XML_FUNCTION_END ++ rest).
  assert (starts_with QWEN_XML_FUNCTION_END s = true) as Hs by (apply starts_with_app; by eexists).
  assert (settle (at_ sd sch ExpectToolClose rest i None) = settle (at_ sd sch Outside r i None)) as Hclose.
  { destruct (gap_then gap QWEN_XML_TOOL_END r eq_refl Hg) as [Hr Hw]. unfold rest.
    etransitivity; [apply read_gap; [done|done|done|done|done|by apply typed_at_none]|].
    set (q := at_ sd sch ExpectToolClose (QWEN_XML_TOOL_END ++ r) i None).
    erewrite settle_reads; [|by apply typed_at_none|].
    2: { rewrite process_state. change (state q) with ExpectToolClose. cbv iota. rewrite tool_close_run.
         change (buffer q) with (QWEN_XML_TOOL_END ++ r). rewrite Hw.
         assert (starts_with QWEN_XML_TOOL_END (QWEN_XML_TOOL_END ++ r) = true) as Hst by (apply starts_with_app; by eexists).
         assert (is_partial_tag_prefix (QWEN_XML_TOOL_END ++ r) QWEN_XML_TOOL_END = false) as ->.
         { unfold is_partial_tag_prefix. apply andb_false_iff. left. apply Nat.ltb_ge. by apply starts_with_length. }
         rewrite Hst. reflexivity. }
    rewrite then_settle_nil.
    change (settle (at_ sd sch Outside (drop (length QWEN_XML_TOOL_END) (QWEN_XML_TOOL_END ++ r)) i None)
      = settle (at_ sd sch Outside r i None)). by rewrite drop_app_length. }
  set (q := at_ sd sch InFunction s i (Some c)).
  assert (pop (length QWEN_XML_FUNCTION_END) q = at_ sd sch InFunction rest i (Some c)) as Hpop.
  { change (at_ sd sch InFunction (drop (length QWEN_XML_FUNCTION_END) s) i (Some c) = at_ sd sch InFunction rest i (Some c)).
    unfold s. by rewrite drop_app_length. }
  assert (process from_str float_text uuid (q, [])
    = match finish_function from_str float_text (at_ sd sch InFunction rest i (Some c), []) with
      | (Ok _, (p, em)) => (Ok true, (p <| state := ExpectToolClose |>, em))
      | (Err e, s) => (Err e, s)
      | (Panic, s) => (Panic, s)
      end) as Hp.
  { rewrite process_state. change (state q) with InFunction. cbv iota. rewrite in_function_run.
    change (buffer q) with s.
    rewrite (tag_not_space QWEN_XML_FUNCTION_END), (not_partial QWEN_XML_FUNCTION_END QWEN_XML_PARAMETER_START) by done.
    assert (is_partial_tag_prefix s QWEN_XML_FUNCTION_END = false) as ->.
    { unfold is_partial_tag_prefix. apply andb_false_iff. left. apply Nat.ltb_ge. by apply starts_with_length. }
    cbn [orb]. rewrite (not_both QWEN_XML_FUNCTION_END), Hs, Hpop by done. reflexivity. }
  rewrite (finish_function_run _ c) in Hp by done.
  assert (arguments_json c ++ closing c = json_text (Object ms)) as Hargs by by apply members_body_close.
  change (structured_deltas (at_ sd sch InFunction rest i (Some c))) with sd in Hp. destruct sd.
  - erewrite settle_reads; [|by apply typed_at_call|exact Hp]. cbn [app]. rewrite fragment_atoms.
    change (settle (at_ true sch ExpectToolClose rest i None) = settle (at_ true sch Outside r i None)) in Hclose.
    rewrite <- Hclose. reflexivity.
  - rewrite Hargs, (Hparse eq_refl) in Hp. erewrite settle_reads; [|by apply typed_at_call|exact Hp].
    cbn [app]. rewrite atoms_text, <- Hclose. reflexivity.
Qed.

(** A whole call. *)
Lemma read_call sd sch n ps gap r i : good_markup sd sch (Call n ps) → trim_start gap = [] → i ≠ 4294967295%N →
  settle (at_ sd sch Outside (render_markup gap (Call n ps) ++ r) i None)
  = then_settle (call_atoms sd i n (arguments sch n ps)) (settle (at_ sd sch Outside r (i + 1) None)).
Proof.
  intros (Hn & Hps & Hparse) Hg Hi. cbn [render_markup]. rewrite <- !app_assoc, read_tool.
  set (tail := QWEN_XML_FUNCTION_END ++ gap ++ QWEN_XML_TOOL_END ++ r).
  set (body := concat (render_parameter gap <$> ps) ++ tail).
  destruct (gap_then gap QWEN_XML_FUNCTION_START (n ++ [62%N] ++ gap ++ body) eq_refl Hg) as [Hr1 Hw1].
  etransitivity; [apply read_gap; [done|done|done|exact Hr1|exact Hw1|by apply typed_at_none]|].
  rewrite read_function by done.
  destruct (gap_then gap QWEN_XML_FUNCTION_END (gap ++ QWEN_XML_TOOL_END ++ r) eq_refl Hg) as [Hr2 Hw2].
  assert (starts_char body ∧ leading_space body = None) as [Hr3 Hw3].
  { by apply parameters_start. }
  rewrite (read_gap sd sch InFunction gap body (i + 1) (Some (call_of i n [])))
    by (try done; apply typed_at_call).
  destruct (read_parameters sd sch n ps gap tail (i + 1) i [] Hps Hg Hr2 Hw2) as (f & Hf & Hb).
  unfold body. rewrite Hf. cbn [app] in Hb |- *. unfold tail. rewrite read_function_end by done.
  rewrite <- !then_settle_app. f_equal. unfold call_atoms, fragment_of. destruct sd; [|done].
  cbn [app]. f_equal. rewrite <- fmap_app. f_equal. cbn [members_body app] in Hb. rewrite Hb.
  by apply members_body_close.
Qed.

(** *** A whole conversation *)
Lemma read_document sd sch gap d tail i :
  Forall (λ x, good_text x.1 ∧ good_markup sd sch x.2) d → trim_start gap = [] → (i + calls d ≤ 4294967295)%N →
  settle (at_ sd sch Outside (render gap (d, tail)) i None)
  = then_settle (document_atoms sd sch i d) (settle (at_ sd sch Outside tail (i + calls d) None)).
Proof.
  intros Hd Hg. revert i. unfold render. cbn [fst snd]. induction Hd as [|[t m] d [Ht Hm] Hd IH]; intros i Hi.
  { cbn [fmap list_fmap concat app document_atoms calls]. by rewrite then_settle_nil, N.add_0_r. }
  rewrite fmap_cons. cbn [concat fst snd] in *. rewrite <- !app_assoc. destruct m as [body|n ps].
  - cbn [render_markup document_atoms calls] in *. rewrite <- !app_assoc.
    rewrite read_text, read_reasoning by (done || set_solver). rewrite IH by done.
    rewrite <- !then_settle_app. f_equal. by rewrite <- fmap_app.
  - cbn [document_atoms calls] in *.
    assert (∃ r, render_markup gap (Call n ps) ++ concat ((λ '(t, m), t ++ render_markup gap m) <$> d) ++ tail
      = QWEN_XML_TOOL_START ++ r) as [r Hr] by (cbn [render_markup]; rewrite <- !app_assoc; by eexists).
    rewrite Hr, read_text, <- Hr, read_call, IH by (done || lia || set_solver).
    rewrite <- !then_settle_app, <- !app_assoc. by replace (i + 1 + calls d)%N with (i + (1 + calls d))%N by lia.
Qed.

(** The text after the last markup: what may still become a tag is kept back. *)
Lemma read_tail sd sch tail i : good_text tail →
  settle (at_ sd sch Outside tail i None)
  = Ok (AText <$> take (cut outside_tags tail) tail, at_ sd sch Outside (drop (cut outside_tags tail) tail) i None).
Proof.
  intros [Ht Hr].
  assert (∀ n, n ≤ length tail → cut outside_tags (drop n tail) = 0 →
    settle (at_ sd sch Outside (drop n tail) i None) = Ok ([], at_ sd sch Outside (drop n tail) i None)) as Hwait.
  { intros n Hn Hc. set (q := at_ sd sch Outside (drop n tail) i None). rewrite settle_step by by by apply typed_at_none.
    rewrite outside_step, outside_run by done. cbv zeta. change (buffer q) with (drop n tail). rewrite Hc.
    cbn [Nat.ltb Nat.leb].
    destruct (starts_with QWEN_XML_TOOL_START (drop n tail)) eqn:Hs.
    { exfalso. apply (proj1 (find_None _ _) Ht n). by split. }
    rewrite reasoning_run. change (buffer q) with (drop n tail). unfold reasoning_end.
    destruct (starts_with QWEN_REASONING_START (drop n tail)) eqn:Hs2; [|done].
    exfalso. apply (proj1 (find_None _ _) Hr n). by split. }
  destruct (cut outside_tags tail) as [|c] eqn:Hc.
  - specialize (Hwait 0 ltac:(lia) Hc). by rewrite drop_0 in Hwait |- *.
  - rewrite (read_plain _ _ _ c) by done. rewrite Hwait.
    + cbn. by rewrite app_nil_r.
    + rewrite <- Hc. apply cut_le.
    + rewrite <- Hc. apply cut_kept.
Qed.
End roundtrip.
