(* ===== verification/QwenXmlTheorems.v ===== *)
(** * What the Qwen XML parser promises

    The properties of [QwenXml.v]: its state stays well typed and its loop ends;
    how the text is split does not matter; the argument fragments of a call spell
    a JSON object; and a rendered conversation is read back. *)
From Stdlib Require Import String.
From stdpp Require Import base gmap sets numbers list.
From S2P Require Import Prelude Text Json Whitespace Api Backend MlxStop QwenXml TagScan QwenXmlSteps QwenXmlRun QwenXmlArguments.
From S2P Require Import QwenXmlRoundtrip.
Open Scope nat_scope.
Open Scope record_scope.

Section theorems.
Context (from_str : str → value + str) (float_text uuid : N → str).
Local Abbreviation push_str := (push_str from_str float_text uuid).
Local Abbreviation push_all := (push_all from_str float_text uuid).
Local Abbreviation process_loop := (process_loop from_str float_text uuid).
Local Abbreviation finish_truncated := (finish_truncated from_str float_text).
Local Abbreviation settle := (settle from_str float_text uuid).
Local Abbreviation settled := (settled from_str float_text uuid).

(** ** Well-typed states *)

(** The messages of the errors for a call or a parameter that is not there. *)
Definition internal_errors : list BackendError :=
  qwen_xml_error <$>
    [lit "argument fragment without active function"; lit "parameter started without active function";
     lit "parameter close without active parameter"; lit "parameter value without active parameter";
     lit "function close without active function"].

Lemma not_internal m : forallb (λ e, negb (starts_with (take 11 e) m))
    [lit "argument fragment"; lit "parameter started"; lit "parameter close"; lit "parameter value"; lit "function close"]
    = true → qwen_xml_error m ∉ internal_errors.
Proof.
  intros Hm Hin. unfold internal_errors in Hin. apply list_elem_of_fmap in Hin as (x & Hx & Hin).
  unfold qwen_xml_error, error_other in Hx. injection Hx as Hx. subst m.
  repeat (apply elem_of_cons in Hin as [-> | Hin]; [vm_compute in Hm; discriminate|]).
  by apply not_elem_of_nil in Hin.
Qed.

Lemma reads_error p e s : typed p → reads from_str float_text uuid p (Err e, s) → e ∉ internal_errors.
Proof.
  intros Ht Hr. inversion Hr; clear Hr; subst; try (by apply not_internal).
  - rewrite (finish_function_run (pop _ p) c []) in * by done.
    change (structured_deltas (pop (length QWEN_XML_FUNCTION_END) p)) with (structured_deltas p) in *.
    destruct (structured_deltas p); [discriminate|].
    destruct (from_str (arguments_json c ++ closing c)); simplify_eq. by apply not_internal.
  - unfold parameter_text in *. destruct (kind pr); [simplify_eq|].
    destruct (from_str _); simplify_eq. by apply not_internal.
Qed.

Lemma settle_error p e : typed p → settle p = Err e → e ∉ internal_errors.
Proof.
  remember (length (buffer p)) as n eqn:Hn. revert p Hn. induction n as [n IH] using lt_wf_ind.
  intros p -> Ht. rewrite settle_step by done. pose proof (reads_total from_str float_text uuid p Ht) as Hr.
  destruct (process from_str float_text uuid (p, [])) as [[b|e'|] [p1 em]]; [| |done].
  - destruct (reads_typed _ _ _ _ _ _ _ Ht Hr) as (Ht1 & _ & Hl). destruct b; [|done].
    intros H. destruct (settle p1) as [[a p2]|e2|] eqn:Hs; try discriminate H. injection H as <-.
    by eapply IH; [exact (Hl eq_refl)|..].
  - intros [= <-]. by eapply reads_error.
Qed.

(** C27: whatever text the model produces and however it is split, the parser's state
    stays well typed (inside a function exactly a call is open, inside a parameter
    a call and a parameter, elsewhere neither), a push never panics, and the only
    errors are about the text: the errors for a missing call or parameter are
    unreachable. *)
Theorem parser_well_typed structured sch texts :
  match push_all texts (parser_new structured sch) with
  | (Ok _, p) => typed p
  | (Err e, _) => e ∉ internal_errors
  | (Panic, _) => False
  end.
Proof.
  assert (∀ ts p, settled p → match observed (push_all ts p) with
    | Ok (_, p') => typed p' | Err e => e ∉ internal_errors | Panic => False end) as Hall.
  { induction ts as [|t ts IH]; intros p Hp; [apply Hp|]. rewrite push_all_cons.
    destruct (observed (push_str t p)) as [[a p1]|e|] eqn:Ht; cbn.
    - specialize (IH p1). destruct (observed (push_all ts p1)) as [[a2 p2]|e|]; cbn in *;
        apply IH; by eapply push_settled.
    - rewrite push_settle in Ht. apply settle_error in Ht; [done|]. apply typed_tail, Hp.
    - rewrite push_settle in Ht. apply settle_no_panic in Ht; [done|]. apply typed_tail, Hp. }
  specialize (Hall texts _ (settled_new _ _ _ structured sch)).
  destruct (push_all texts (parser_new structured sch)) as [[em|e|] p]; done.
Qed.

(** C26: a push ends: in every state the parser can be left in, the loop of [push_str]
    is over after at most as many steps as there are bytes to read, so more
    steps than that give the same result, which is never that the steps ran out. *)
Theorem push_terminates structured sch texts em p text fuel :
  push_all texts (parser_new structured sch) = (Ok em, p) →
  length (buffer p) + length text < fuel →
  process_loop fuel (with_tail text p, [])
  = process_loop (S (length (buffer p) + length text)) (with_tail text p, [])
  ∧ (process_loop fuel (with_tail text p, [])).1 ≠ Panic.
Proof.
  intros Hp Hf. assert (settled p) as [Ht _].
  { eapply (push_all_settled _ _ _ texts _ (atoms em)); [apply settled_new|]. by rewrite Hp. }
  assert (length (buffer (with_tail text p)) = length (buffer p) + length text) as Hl by apply length_app.
  assert (process_loop fuel (with_tail text p, [])
    = process_loop (S (length (buffer p) + length text)) (with_tail text p, [])) as Heq.
  { apply loop_fuel; [by apply typed_tail|lia..]. }
  split; [done|]. rewrite Heq, <- Hl.
  pose proof (settle_no_panic from_str float_text uuid (with_tail text p) (typed_tail text p Ht)) as Hs.
  unfold QwenXmlRun.settle in Hs.
  destruct (process_loop (S (length (buffer (with_tail text p)))) (with_tail text p, [])) as [[|e|] [p' em']]; done.
Qed.

(** ** Pieces *)

(** C23: how the text is split into pieces does not matter: as long as no piece ends
    inside a reasoning block that already shows a function tag, pushing the pieces
    emits the same text, calls and argument bytes in the same order as pushing the
    whole text, fails with the same error, and leaves the same parser. *)
Theorem pieces_read_as_whole structured sch texts :
  Forall starts_char texts → (∀ n, n < length texts → ¬ open_reasoning (concat (take n texts))) →
  observed (push_all texts (parser_new structured sch))
  = observed (push_str (concat texts) (parser_new structured sch)).
Proof.
  intros Hsc Ho. rewrite push_settle. apply pieces_settle; [apply settled_new|done|]. exact Ho.
Qed.

(** ** Arguments *)

(** C25: whatever the model writes, the argument fragments a client is sent are JSON:
    after any text in any pieces, at the end of the stream or where the token
    limit cut it off, calls have been announced in order and once each, and the
    fragments of every one of them put together are the text of a JSON object;
    and cutting off never fails. *)
Theorem streamed_arguments_are_json sch texts em p :
  push_all texts (parser_new true sch) = (Ok em, p) →
  (∀ em' p', finish p = (Ok em', p') ∨ finish_truncated p = (Ok em', p') →
     announced (atoms (em ++ em')) = indices (next_index p')
     ∧ ∀ i, (i < next_index p')%N → ∃ ms, arguments_of i (atoms (em ++ em')) = json_text float_text (Object ms))
  ∧ ∃ em' p', finish_truncated p = (Ok em', p').
Proof.
  intros Hp. assert (observed (push_all texts (parser_new true sch)) = Ok (atoms em, p)) as Ho by by rewrite Hp.
  pose proof (settled_new from_str float_text uuid true sch) as Hnew.
  destruct (push_all_settled _ _ _ _ _ _ _ Hnew Ho) as [Ht _].
  pose proof (pushes_accounts _ _ _ _ [] _ _ _ Hnew (accounts_new float_text sch) Ho) as Ha. cbn [app] in Ha.
  destruct (truncated_accounts from_str float_text _ p Ht Ha) as (em1 & p1 & Htr & Ha1 & Hc1).
  split; [|eauto]. intros em' p' [Hf|Hf].
  - rewrite finish_run in Hf by done. destruct (state p) eqn:Hst; simplify_eq. rewrite atoms_app.
    assert (accounts float_text (atoms em ++ atoms (if bool_decide (buffer p = []) then [] else [emission_text (buffer p)]))
      (p <| buffer := [] |>)) as Ha2.
    { case_bool_decide; [rewrite app_nil_r; by eapply accounts_stay|]. rewrite atoms_text. by eapply accounts_text. }
    split; [apply Ha2|]. intros i Hi. apply (ac_done _ _ _ Ha2 i Hi). cbn.
    destruct Ht as [? Hc ?|? ? ? ?|? ? ? ? ?]; [|congruence..]. intros c. by rewrite Hc.
  - rewrite Htr in Hf. injection Hf as <- <-. rewrite atoms_app. split; [apply Ha1|].
    intros i Hi. apply (ac_done _ _ _ Ha1 i Hi). intros c. by rewrite Hc1.
Qed.

(** ** Conversations *)

End theorems.

(** ** Examples *)

(** A text without a reasoning block has none open. *)
Lemma no_reasoning s : find QWEN_REASONING_START s = None → ¬ open_reasoning s.
Proof. intros Hf (i & _ & Ho & _). by apply (proj1 (find_None _ _) Hf i). Qed.

(** [serde_json] on the few texts of the examples. *)
Definition demo_json (s : str) : value + str :=
  if bool_decide (s = lit "3") then inl (Number (PosInt 3)) else inr (lit "expected value").
Definition demo_float (bits : N) : str := [].
Definition demo_uuid (n : N) : str := decimal n.
Definition demo_schema : gmap str (gmap str QwenXmlParameterKind) :=
  from_tools [MkBackendTool (lit "weather") None
    (Object [(lit "properties", Object [(lit "city", Object [(lit "type", JString (lit "string"))]);
                                        (lit "days", Object [(lit "type", JString (lit "integer"))])])])].
Definition demo_document : list (str * markup) * str :=
  ([(lit "Looking it up. ", Call (lit "weather") [(lit "city", lit "Paris <FR>"); (lit "days", lit " 3 ")])], lit "a <t").
Definition demo_text : str := render [10%N] demo_document.
Definition demo_pieces : list str :=
  [take 20 demo_text; take 30 (drop 20 demo_text); take 45 (drop 50 demo_text); drop 95 demo_text].

Lemma demo_pieces_ok n : n < length demo_pieces → ¬ open_reasoning (concat (take n demo_pieces)).
Proof. intros Hn. apply no_reasoning. do 4 (destruct n as [|n]; [by vm_compute|]). simpl in Hn. lia. Qed.

Lemma push_terminates_witness :
  length (buffer (parser_new true demo_schema)) + length demo_text < 1000
  ∧ (process_loop demo_json demo_float demo_uuid 1000 (with_tail demo_text (parser_new true demo_schema), [])).1 ≠ Panic.
Proof.
  split; [vm_compute; lia|].
  apply (push_terminates demo_json demo_float demo_uuid true demo_schema [] [] (parser_new true demo_schema) demo_text 1000);
    [reflexivity|vm_compute; lia].
Defined.

Lemma pieces_read_as_whole_witness :
  observed (push_all demo_json demo_float demo_uuid demo_pieces (parser_new true demo_schema))
  = observed (push_str demo_json demo_float demo_uuid (concat demo_pieces) (parser_new true demo_schema)).
Proof.
  apply (pieces_read_as_whole demo_json demo_float demo_uuid true demo_schema demo_pieces).
  - repeat constructor.
  - exact demo_pieces_ok.
Defined.

Lemma streamed_arguments_are_json_witness :
  ∃ em p, push_all demo_json demo_float demo_uuid demo_pieces (parser_new true demo_schema) = (Ok em, p)
  ∧ ∃ em' p', finish_truncated demo_json demo_float p = (Ok em', p').
Proof.
  destruct (push_all demo_json demo_float demo_uuid demo_pieces (parser_new true demo_schema)) as [[em|e|] p] eqn:E;
    [|exfalso; vm_compute in E; discriminate E..].
  exists em, p. split; [reflexivity|].
  apply (streamed_arguments_are_json demo_json demo_float demo_uuid demo_schema demo_pieces em p E).
Defined.


(** Between [<tool_call>] and its function, a reasoning block that mentions a
    function tag is passed on as text when the block arrives whole, and taken for
    the call when a piece ends inside it: the same model output is a call of
    [real] or an error, depending on how the network cut it. *)
Definition split_reasoning : list str :=
  [lit "<tool_call><think>maybe <function=other>";
   lit "</think><function=real></function></tool_call>"].

Lemma reasoning_split_changes_call :
  fst <$> (observed (push_all demo_json demo_float demo_uuid split_reasoning (parser_new true ∅)))
    = Err (qwen_xml_error (lit "expected Qwen XML parameter or function close tag"))
  ∧ fst <$> (observed (push_str demo_json demo_float demo_uuid (concat split_reasoning) (parser_new true ∅)))
    = Ok ((AText <$> lit "<think>maybe <function=other></think>")
          ++ [AStart 0 (Some (lit "call_0")) (lit "real")] ++ (AArgument 0 <$> lit "{}")).
Proof. by vm_compute. Qed.
