(* ===== verification/ToolParseBlocks.v ===== *)
(** * Tagged blocks and texts that read back

    Lemmas about [ToolParse.v]: the loops over tagged blocks read exactly the
    blocks of a document, they always have enough steps, and JSON texts are
    neither trimmed nor cut. *)
From Stdlib Require Import String.
From stdpp Require Import base sets numbers list.
From S2P Require Import Prelude Text Json Whitespace Api MlxStop QwenXml TagScan ToolParse.
Open Scope nat_scope.

(** ** Whitespace *)
Definition ascii_visible (b : N) : bool := (32 <? b)%N && (b <? 128)%N.

Lemma visible_not_space b s : ascii_visible b = true → leading_space (b :: s) = None.
Proof.
  intros Hb. destruct (leading_space (b :: s)) as [n|] eqn:E; [exfalso|done].
  apply leading_space_Some in E as (w & Hw & Hst & _).
  assert (forallb (λ w, match w with c :: _ => negb (ascii_visible c) | [] => false end) whitespace_encodings = true) as Hall
    by by vm_compute.
  rewrite forallb_forall in Hall. specialize (Hall w (proj1 (list_elem_of_In _ _) Hw)). destruct w as [|c w]; [done|].
  cbn in Hall, Hst. apply andb_true_iff in Hst as [->%N.eqb_eq _]. by rewrite Hb in Hall.
Qed.

Lemma trim_start_visible b s : ascii_visible b = true → trim_start (b :: s) = b :: s.
Proof. intros Hb. by apply trim_start_none, visible_not_space. Qed.

Lemma visible_not_trailing b s : ascii_visible b = true → trailing_space (s ++ [b]) = None.
Proof.
  intros Hb. unfold trailing_space. destruct (List.find _ _) as [w|] eqn:E; [exfalso|done].
  apply List.find_some in E as [Hw [p Hp]%ends_with_spec].
  assert (forallb (λ w, match last w with Some c => negb (ascii_visible c) | None => false end) whitespace_encodings = true) as Hall
    by by vm_compute.
  rewrite forallb_forall in Hall. specialize (Hall w Hw).
  destruct (last w) as [c|] eqn:Hl; [|done]. apply last_Some in Hl as [w' ->].
  rewrite app_assoc in Hp. apply app_inj_tail in Hp as [_ <-]. by rewrite Hb in Hall.
Qed.

Lemma trim_end_visible b s : ascii_visible b = true → trim_end (s ++ [b]) = s ++ [b].
Proof.
  intros Hb. unfold trim_end. rewrite length_app, Nat.add_1_r. cbn [trim_end_loop]. by rewrite visible_not_trailing.
Qed.

(** A text between visible characters is not trimmed. *)
Lemma trim_visible b s c : ascii_visible b = true → ascii_visible c = true → trim (b :: s ++ [c]) = b :: s ++ [c].
Proof.
  intros Hb Hc. unfold trim. rewrite trim_start_visible by done. by apply (trim_end_visible c (b :: s)).
Qed.

(** ** Documents *)
Lemma drop_add_app {A} (a b c : list A) : drop (length a + length b) (a ++ b ++ c) = c.
Proof. rewrite app_assoc, <- length_app. apply drop_app_length. Qed.

Section documents.
Context (open close : str) (unterminated : ParserError) (parse_call : str → N → outcome ParserError ToolCall).
Hypotheses (Hopen : is_tag open = true) (Hclose : is_tag close = true).
Local Abbreviation blocks := (blocks open close unterminated parse_call).

(** Texts that each precede a block, and what is inside the blocks. *)
Fixpoint document (items : list (str * str)) (tail : str) : str :=
  match items with
  | [] => tail
  | (text, inner) :: items => text ++ open ++ inner ++ close ++ document items tail
  end.

Fixpoint read_calls (index : N) (inners : list str) : outcome ParserError (list ToolCall) :=
  match inners with
  | [] => Ok []
  | inner :: inners =>
      call ← parse_call (trim inner) index;
      calls ← read_calls (index + 1) inners;
      Ok (call :: calls)
  end.

Definition plain_items (items : list (str * str)) : Prop :=
  Forall (λ '(text, inner), find open text = None ∧ find close inner = None) items.

Lemma open_length : 0 < length open.
Proof. destruct (tag_cons open Hopen) as [t ->]. simpl. lia. Qed.

Lemma blocks_document items tail fuel content calls :
  plain_items items → find open tail = None → length (document items tail) < fuel →
  blocks fuel (document items tail) content calls
  = cs ← read_calls (N.of_nat (length calls)) items.*2;
    Ok (content ++ concat items.*1 ++ tail, calls ++ cs).
Proof.
  intros Hitems Htail. revert fuel content calls.
  induction Hitems as [|[text inner] items [Ht Hi] _ IH]; intros fuel content calls Hf; (destruct fuel as [|fuel]; [lia|]).
  - cbn [document ToolParse.blocks]. rewrite Htail. cbn. by rewrite app_nil_r.
  - cbn [document ToolParse.blocks]. cbn [document] in Hf. rewrite !length_app in Hf.
    pose proof open_length.
    rewrite (find_tag_end open text), drop_add_app, take_app_length by done.
    rewrite (find_tag_end close inner), drop_add_app, take_app_length by done.
    rewrite !fmap_cons. cbn [fst snd read_calls concat].
    destruct (parse_call (trim inner) (N.of_nat (length calls))) as [call|e|]; [|done..].
    cbn [mbind outcome_bind]. rewrite IH by lia. rewrite length_app. cbn [length].
    replace (N.of_nat (length calls + 1)) with (N.of_nat (length calls) + 1)%N by lia.
    destruct (read_calls _ _) as [cs|e|]; [|done..]. cbn [mbind outcome_bind].
    by rewrite <- !app_assoc.
Qed.

Lemma parse_blocks_document items tail : plain_items items → find open tail = None →
  parse_blocks open close unterminated parse_call (document items tail)
  = cs ← read_calls 0 items.*2; Ok (concat items.*1 ++ tail, cs).
Proof. intros Hi Ht. unfold parse_blocks. by rewrite blocks_document by (done || lia). Qed.

(** The loop has enough steps: it panics only where a call does. *)
Lemma blocks_panic fuel rest content calls : length rest < fuel →
  blocks fuel rest content calls = Panic → ∃ inner index, parse_call (trim inner) index = Panic.
Proof.
  revert rest content calls. induction fuel as [|fuel IH]; intros rest content calls Hf; [lia|].
  cbn [ToolParse.blocks]. destruct (find open rest) as [start|] eqn:Hs; [|done].
  destruct (find close _) as [len|]; [|done].
  destruct (parse_call _ _) as [call|e|] eqn:Hc; [|done|intros _; by eexists _, _].
  cbn [mbind outcome_bind]. apply IH.
  apply find_Some in Hs as [Ho _]. apply occurs_length in Ho.
  assert (0 < length open) by (destruct open; [done|simpl; lia]). rewrite !length_drop. lia.
Qed.
End documents.

(** ** Calls that return

    A result that is not a panic and, for a reader of Gemma's arguments, leaves no
    more text than there was. *)
Lemma bind_returns {E A B} (m : outcome E A) (f : A → outcome E B) :
  m ≠ Panic → (∀ a, m = Ok a → f a ≠ Panic) → (m ≫= f) ≠ Panic.
Proof. destruct m as [a|e|]; intros Hm Hf; [by apply Hf|done|done]. Qed.

Create HintDb returns.
Ltac returns :=
  repeat (lazymatch goal with
    | |- mbind _ _ ≠ Panic => apply bind_returns; [|intros]
    | |- Ok _ ≠ Panic => discriminate
    | |- Err _ ≠ Panic => discriminate
    | |- ok_or _ ?o ≠ Panic => destruct o; discriminate
    | |- (match ?x with _ => _ end) ≠ Panic => destruct x
    | |- _ => solve [auto 1 with returns nocore]
    end).

Definition reads_on {A} (s : str) (r : outcome ParserError (A * str)) : Prop :=
  r ≠ Panic ∧ ∀ a s', r = Ok (a, s') → length s' ≤ length s.

Lemma reads_on_Ok {A} s (a : A) s' : length s' ≤ length s → reads_on s (Ok (a, s')).
Proof. intros Hl. split; [done|]. by intros a' s'' [= _ <-]. Qed.
Lemma reads_on_Err {A} s e : reads_on s (Err e : outcome ParserError (A * str)).
Proof. by split. Qed.
Lemma reads_on_bind {A B} s (m : outcome ParserError (A * str)) (f : A * str → outcome ParserError (B * str)) :
  reads_on s m → (∀ a s', length s' ≤ length s → reads_on s (f (a, s'))) → reads_on s (m ≫= f).
Proof.
  intros [Hp Hl] Hf. destruct m as [[a s']|e|]; [|by split|done]. cbn. apply Hf. by apply (Hl a).
Qed.
Lemma reads_on_le {A} s t (r : outcome ParserError (A * str)) : length t ≤ length s → reads_on t r → reads_on s r.
Proof. intros Hl [Hp Ht]. split; [done|]. intros a s' Hr. apply Ht in Hr. lia. Qed.

Lemma trim_start_le s : length (trim_start s) ≤ length s.
Proof. destruct (trim_start_suffix s) as (k & _ & ->). rewrite length_drop. lia. Qed.
Lemma at_char_length c s : at_char c s = true → 0 < length s.
Proof. destruct s; [done|simpl; lia]. Qed.

Section returns.
Context (from_str : str → value + str) (string_from_str : str → str + str) (uuid : N → str).
Local Abbreviation parse_value := (parse_value from_str string_from_str).
Local Abbreviation parse_members := (parse_members from_str string_from_str).
Local Abbreviation parse_items := (parse_items from_str string_from_str).

Lemma json_string_reads_on s : reads_on s (parse_json_string string_from_str s).
Proof.
  unfold parse_json_string, expect_char. destruct (at_char 34 s); [|apply reads_on_Err]. cbn [mbind outcome_bind].
  destruct (json_string_end _ _); [|apply reads_on_Err]. destruct (string_from_str _); [|apply reads_on_Err].
  apply reads_on_Ok. rewrite !length_drop. lia.
Qed.
Lemma gemma_string_reads_on s : reads_on s (parse_gemma_string s).
Proof.
  unfold parse_gemma_string, strip_prefix. destruct (starts_with _ _); [|apply reads_on_Err].
  destruct (find _ _); [|apply reads_on_Err]. apply reads_on_Ok. rewrite !length_drop. lia.
Qed.
Lemma key_reads_on s : reads_on s (parse_key string_from_str s).
Proof.
  unfold parse_key. pose proof (trim_start_le s) as Ht.
  destruct (at_char 34 _); [eapply reads_on_le, json_string_reads_on; exact Ht|].
  destruct (starts_with _ _); [eapply reads_on_le, gemma_string_reads_on; exact Ht|].
  destruct (trim_start s) as [|b r] eqn:E; [apply reads_on_Err|]. cbv zeta.
  destruct (_ =? 0); [apply reads_on_Err|]. apply reads_on_Ok. rewrite length_drop. lia.
Qed.
Lemma atom_reads_on s : reads_on s (parse_atom from_str s).
Proof.
  unfold parse_atom. case_bool_decide; [apply reads_on_Err|]. apply reads_on_Ok. rewrite length_drop. lia.
Qed.
Lemma string_value_reads_on s (r : outcome ParserError (str * str)) : reads_on s r →
  reads_on s ('(text, s) ← r; Ok (JString text, s)).
Proof. intros Hr. apply reads_on_bind; [done|]. intros a s' Hl. by apply reads_on_Ok. Qed.

Lemma expect_char_spec c s :
  (∃ s', expect_char c s = Ok s' ∧ length s' < length s) ∨ ∃ e, expect_char c s = Err e.
Proof.
  unfold expect_char. destruct (at_char c s) eqn:E; [left|right; by eexists]. apply at_char_length in E.
  eexists. split; [done|]. rewrite length_drop. lia.
Qed.

(** One step of the argument parser. *)
Lemma parse_value_step fuel s : parse_value (S fuel) s
  = let s := trim_start s in
    if at_char 123 s then parse_members fuel (drop 1 s) []
    else if at_char 91 s then parse_items fuel (drop 1 s) []
    else if at_char 34 s then '(text, s) ← parse_json_string string_from_str s; Ok (JString text, s)
    else if starts_with GEMMA_QUOTE s then '(text, s) ← parse_gemma_string s; Ok (JString text, s)
    else match s with
         | [] => Err (malformed_tool (lit "Gemma tool argument ended before value"))
         | _ => parse_atom from_str s
         end.
Proof. done. Qed.
Lemma parse_members_step fuel s m : parse_members (S fuel) s m
  = let s := trim_start s in
    if at_char 125 s then Ok (Object m, drop 1 s)
    else
      '(key, s) ← parse_key string_from_str s;
      s ← expect_char 58 (trim_start s);
      '(v, s) ← parse_value fuel s;
      let s := trim_start s in
      if at_char 44 s then parse_members fuel (drop 1 s) (map_insert key v m)
      else s ← expect_char 125 s; Ok (Object (map_insert key v m), s).
Proof. done. Qed.
Lemma parse_items_step fuel s l : parse_items (S fuel) s l
  = let s := trim_start s in
    if at_char 93 s then Ok (Array l, drop 1 s)
    else
      '(v, s) ← parse_value fuel s;
      let s := trim_start s in
      if at_char 44 s then parse_items fuel (drop 1 s) (l ++ [v])
      else s ← expect_char 93 s; Ok (Array (l ++ [v]), s).
Proof. done. Qed.

(** The argument parser has enough steps. *)
Lemma arguments_read_on fuel :
  (∀ s, 2 * length s + 1 ≤ fuel → reads_on s (parse_value fuel s))
  ∧ (∀ s m, 2 * length s + 1 ≤ fuel → reads_on s (parse_members fuel s m))
  ∧ (∀ s l, 2 * length s + 2 ≤ fuel → reads_on s (parse_items fuel s l)).
Proof.
  induction fuel as [|fuel (IHv & IHm & IHi)]; [split_and!; intros; lia|].
  assert (∀ c s s3 (more : str → outcome ParserError (value * str)) v,
    (∀ s4, length s4 < length s → reads_on s4 (more s4)) → length s3 ≤ length s →
    reads_on s (if at_char 44 (trim_start s3) then more (drop 1 (trim_start s3))
                else s ← expect_char c (trim_start s3); Ok (v, s))) as Hsep.
  { intros c s s3 more v Hmore H3. pose proof (trim_start_le s3) as Ht.
    destruct (at_char 44 (trim_start s3)) eqn:E.
    - apply at_char_length in E. apply (reads_on_le _ (drop 1 (trim_start s3))); [|apply Hmore]; rewrite length_drop; lia.
    - destruct (expect_char_spec c (trim_start s3)) as [(s4 & -> & H4)|[e ->]]; [|apply reads_on_Err].
      apply reads_on_Ok. lia. }
  split_and!.
  - intros s Hf. rewrite parse_value_step. cbv zeta. pose proof (trim_start_le s) as Ht.
    apply (reads_on_le _ (trim_start s)); [done|].
    assert (2 * length (trim_start s) + 1 ≤ S fuel) as Hf' by lia. revert Hf'. generalize (trim_start s). clear s Hf Ht.
    intros s Hf. destruct (at_char 123 s) eqn:E.
    { apply at_char_length in E. apply (reads_on_le _ (drop 1 s)); [rewrite length_drop; lia|].
      apply IHm. rewrite length_drop. lia. }
    destruct (at_char 91 s) eqn:E1.
    { apply at_char_length in E1. apply (reads_on_le _ (drop 1 s)); [rewrite length_drop; lia|].
      apply IHi. rewrite length_drop. lia. }
    destruct (at_char 34 s); [apply string_value_reads_on, json_string_reads_on|].
    destruct (starts_with _ _); [apply string_value_reads_on, gemma_string_reads_on|].
    destruct s; [apply reads_on_Err|apply atom_reads_on].
  - intros s m Hf. rewrite parse_members_step. cbv zeta. pose proof (trim_start_le s) as Ht.
    destruct (at_char 125 _); [apply reads_on_Ok; rewrite length_drop; lia|].
    apply reads_on_bind; [by eapply reads_on_le, key_reads_on|]. intros key s1 H1.
    destruct (expect_char_spec 58 (trim_start s1)) as [(s2 & -> & H2)|[e ->]]; [|apply reads_on_Err].
    pose proof (trim_start_le s1) as Ht1. cbn [mbind outcome_bind].
    apply reads_on_bind; [apply (reads_on_le _ s2), IHv; lia|]. intros v s3 H3. apply (Hsep 125%N s s3 (λ s4, parse_members fuel s4 (map_insert key v m))); [|done]. intros s4 H4. apply IHm. lia.
  - intros s l Hf. rewrite parse_items_step. cbv zeta. pose proof (trim_start_le s) as Ht.
    destruct (at_char 93 _); [apply reads_on_Ok; rewrite length_drop; lia|].
    apply reads_on_bind; [apply (reads_on_le _ (trim_start s)), IHv; lia|]. intros v s3 H3.
    apply (Hsep 93%N s s3 (λ s4, parse_items fuel s4 (l ++ [v]))); [|done]. intros s4 H4. apply IHi. lia.
Qed.

(** *** The parsers of the families *)
Lemma json_returns context text : parse_json from_str context text ≠ Panic.
Proof. unfold parse_json. by destruct (from_str text). Qed.
Local Hint Resolve json_returns : returns.
Lemma json_arguments_returns v : parse_json_tool_arguments from_str v ≠ Panic.
Proof. unfold parse_json_tool_arguments. returns. Qed.
Lemma arguments_or_empty_returns o : arguments_or_empty from_str o ≠ Panic.
Proof. destruct o; [apply json_arguments_returns|done]. Qed.
Local Hint Resolve arguments_or_empty_returns : returns.
Lemma json_call_returns inner index : parse_json_call from_str uuid inner index ≠ Panic.
Proof. unfold parse_json_call. returns. Qed.
Lemma json_value_call_returns v index : parse_json_tool_value_as_call from_str uuid v index ≠ Panic.
Proof. unfold parse_json_tool_value_as_call. returns. Qed.
Local Hint Resolve json_call_returns json_value_call_returns : returns.
Lemma json_values_return items index : parse_json_tool_values from_str uuid index items ≠ Panic.
Proof. revert index. induction items; intros index; cbn [parse_json_tool_values]; returns. Qed.
Local Hint Resolve json_values_return : returns.
Lemma json_tool_value_returns v : parse_json_tool_value from_str uuid v ≠ Panic.
Proof. unfold parse_json_tool_value. returns. Qed.
Lemma json_tool_like_returns r rest : parse_json_tool_output_if_tool_like from_str uuid r rest ≠ Panic.
Proof.
  unfold parse_json_tool_output_if_tool_like. destruct (extract_json_tool_candidate rest) as [[c s]|]; [|done].
  destruct (from_str _); [|done]. destruct (json_value_has_tool_shape _); [|done].
  by destruct (parse_json_tool_value _ _ _) eqn:E; [..|by apply json_tool_value_returns in E].
Qed.
Lemma deepseek_json_call_returns inner index : parse_deepseek_json_call from_str uuid inner index ≠ Panic.
Proof. unfold parse_deepseek_json_call. returns. Qed.
Lemma deepseek_native_call_returns inner index : parse_deepseek_native_call from_str uuid inner index ≠ Panic.
Proof. unfold parse_deepseek_native_call, parse_deepseek_markdown_json. returns. Qed.

Lemma gemma_arguments_return input : parse_gemma_arguments from_str string_from_str input ≠ Panic.
Proof.
  unfold parse_gemma_arguments. apply bind_returns; [|intros [v s] _; returns].
  apply arguments_read_on. lia.
Qed.
Local Hint Resolve gemma_arguments_return : returns.
Lemma gemma_call_returns inner index : parse_gemma_call from_str string_from_str uuid inner index ≠ Panic.
Proof. unfold parse_gemma_call. returns. Qed.

Lemma xml_parameters_return fuel rest m : length rest < fuel → xml_parameters fuel rest m ≠ Panic.
Proof.
  revert rest m. induction fuel as [|fuel IH]; intros rest m Hf; [lia|]. cbn [xml_parameters].
  destruct (find (lit "<parameter=") rest) as [i|] eqn:Hi; [|done].
  apply find_Some in Hi as [Hi _]. apply occurs_length in Hi. change (length (lit "<parameter=")) with 11 in Hi.
  destruct (find (lit ">") _); [|done]. destruct (find (lit "</parameter>") _); [|done].
  apply IH. rewrite !length_drop. lia.
Qed.
End returns.
