(* ===== verification/MlxSse.v ===== *)
(** * The event stream of the MLX server

    Models [MlxSseParser] of [crates/llm-engine/src/mlx/sse.rs]: the server's
    reply is cut into lines, each [data:] line is a completion chunk, and its text
    goes through the control-token filter of [MlxStop.v] and, for Qwen's markup,
    through the parser of [QwenXml.v]; token counts are turned into increments and
    structured tool calls are passed on or rendered.  Also [fold_mlx_chunks] and
    [parse_mlx_completion_body_with_tools].

    The typed deserializer of a completion chunk is generated code: it is the
    parameter [response_from_str]. *)
From Stdlib Require Import String.
From stdpp Require Import base gmap sets numbers list.
From S2P Require Import Prelude Text Json Whitespace Backend MlxStop QwenXml.
Open Scope N_scope.
Open Scope record_scope.

(** ** Wire data *)
Record MlxPromptTokensDetails := MkDetails { cached_tokens : option N }.
Record MlxUsage := MkUsage {
  usage_prompt_tokens : option N;
  usage_completion_tokens : option N;
  prompt_tokens_details : option MlxPromptTokensDetails;
}.
Record MlxToolCallFunction := MkFunction { function_name : option str; function_arguments : option str }.
Record MlxToolCall := MkToolCall {
  tool_index : option N;
  tool_id : option str;
  call_type : option BackendToolCallType;
  function : option MlxToolCallFunction;
}.
Record MlxMessage := MkMessage { content : option str; message_tool_calls : option (list MlxToolCall) }.
Record MlxCompletionChoice := MkChoice {
  choice_text : option str;
  message : option MlxMessage;
  delta : option MlxMessage;
  choice_finish_reason : option str;
}.
Record MlxCompletionResponse := MkResponse { choices : list MlxCompletionChoice; usage : option MlxUsage }.

Inductive MlxToolMarkup := MarkupJson | MarkupQwenXml | MarkupDeepSeek | MarkupGemma.

(** ** The parser *)
Record MlxToolCallAccumulator := MkAccumulator {
  acc_id : option str;
  acc_name : str;
  acc_arguments : str;
}.
#[export] Instance eta_accumulator : Eta MlxToolCallAccumulator := {| eta a :=
  MkAccumulator (acc_id a) (acc_name a) (acc_arguments a) |}.
Definition accumulator_default : MlxToolCallAccumulator := MkAccumulator None [] [].

Record MlxSseParser := MkSse {
  prompt_tokens : N;
  prompt_cached_tokens : option N;
  has_upstream_prompt_tokens : bool;
  emitted_completion_tokens : N;
  saw_done : bool;
  line_buffer : str;
  stop_filter : MlxControlStopFilter;
  tool_markup : MlxToolMarkup;
  tool_calls : list MlxToolCallAccumulator;
  emit_structured_tool_deltas : bool;
  qwen_xml : option QwenXmlToolParser;
}.
#[export] Instance eta_sse : Eta MlxSseParser := {| eta p :=
  MkSse (prompt_tokens p) (prompt_cached_tokens p) (has_upstream_prompt_tokens p) (emitted_completion_tokens p)
    (saw_done p) (line_buffer p) (stop_filter p) (tool_markup p) (tool_calls p) (emit_structured_tool_deltas p)
    (qwen_xml p) |}.

Definition new_inner (stop_tokens : list str) (markup : MlxToolMarkup) (structured : bool)
    (schema : gmap str (gmap str QwenXmlParameterKind)) : MlxSseParser :=
  MkSse 0 None false 0 false [] (filter_new stop_tokens) markup [] structured
    match markup with MarkupQwenXml => Some (parser_new structured schema) | _ => None end.
Definition new_with_tools (stop_tokens : list str) (markup : MlxToolMarkup) (tools : list BackendToolDefinition) :=
  new_inner stop_tokens markup false (from_tools tools).
Definition new_streaming (stop_tokens : list str) (markup : MlxToolMarkup) := new_inner stop_tokens markup true ∅.
Definition new_streaming_with_tools (stop_tokens : list str) (markup : MlxToolMarkup)
    (tools : list BackendToolDefinition) := new_inner stop_tokens markup true (from_tools tools).

(** ** Helpers *)
Definition mlx_sse_data (line : str) : option str :=
  (λ data, default data (strip_prefix [32] data)) <$> strip_prefix (lit "data:") line.

Definition mlx_finish_reason (reason : option str) : BackendFinishReason + BackendError :=
  match reason with
  | None => inl BStop
  | Some reason =>
      if bool_decide (reason = lit "length") then inl BLength
      else if bool_decide (reason = lit "tool_calls") then inl BToolCalls
      else if bool_decide (reason = lit "stop") then inl BStop
      else inr (error_other (lit "unsupported MLX finish reason `" ++ reason ++ lit "`"))
  end.

Definition max_optional_u64 (current next : option N) : option N :=
  match current, next with
  | Some current, Some next => Some (N.max current next)
  | Some current, None => Some current
  | None, Some next => Some next
  | None, None => None
  end.

(** [String::pop] when the string ends with an ASCII character, and
    [trim_end_matches] of one. *)
Definition pop_char (c : N) (s : str) : str :=
  if ends_with s [c] then take (length s - 1) s else s.
Fixpoint trim_end_char (c : N) (s : str) : str :=
  match s with
  | [] => []
  | b :: s => match trim_end_char c s with [] => if b =? c then [] else [b] | s => b :: s end
  end.

(** The most accumulators of 72 bytes a vector can hold. *)
Definition max_accumulators : N := 9223372036854775807 / 72.

(** [resize_with(len, Default::default)] to a greater length. *)
Definition resize_calls (len : N) (calls : list MlxToolCallAccumulator) : list MlxToolCallAccumulator :=
  calls ++ replicate (N.to_nat len - length calls) accumulator_default.

Section sse.
(** [serde_json::from_str], generic and typed, or the text of its error. *)
Variable from_str : str → value + str.
Variable response_from_str : str → MlxCompletionResponse + str.
(** The number formatter of [serde_json], and the UUIDs of generated calls. *)
Variable float_text : N → str.
Variable uuid : N → str.

(** ** Rendering structured calls *)
Definition parse_mlx_tool_arguments (arguments : str) : value + BackendError :=
  let trimmed := trim arguments in
  if bool_decide (trimmed = []) then inl (Object [])
  else match from_str trimmed with
  | inl value => inl value
  | inr err =>
      inr (error_other (lit "invalid MLX structured tool call arguments `" ++ trimmed ++ lit "`: " ++ err))
  end.

Fixpoint render_gemma_tool_value (v : value) : str :=
  match v with
  | Object m =>
      lit "{" ++ (fix members (index : nat) (m : list (str * value)) : str :=
        match m with
        | [] => []
        | (key, v) :: m =>
            (if (0 <? index)%nat then lit "," else []) ++ string_text key ++ lit ":" ++ render_gemma_tool_value v
            ++ members (S index) m
        end) 0%nat m ++ lit "}"
  | Array l =>
      lit "[" ++ (fix items (index : nat) (l : list value) : str :=
        match l with
        | [] => []
        | v :: l => (if (0 <? index)%nat then lit "," else []) ++ render_gemma_tool_value v ++ items (S index) l
        end) 0%nat l ++ lit "]"
  | _ => json_text float_text v
  end.
Definition render_gemma_tool_object (m : list (str * value)) : str := render_gemma_tool_value (Object m).

Definition render_mlx_tool_call (call : MlxToolCallAccumulator) (markup : MlxToolMarkup) : str + BackendError :=
  if trim_is_empty (acc_name call) then
    inr (error_other (lit "MLX structured tool call was missing a function name"))
  else
    match parse_mlx_tool_arguments (acc_arguments call) with
    | inr err => inr err
    | inl arguments =>
        match markup with
        | MarkupJson | MarkupQwenXml =>
            let payload := [(lit "name", JString (acc_name call)); (lit "arguments", arguments)]
              ++ match acc_id call with Some id => [(lit "id", JString id)] | None => [] end in
            inl (lit "<tool_call>" ++ json_text float_text (Object payload) ++ lit "</tool_call>")
        | MarkupDeepSeek =>
            inl (deepseek_tag [lit "tool"; lit "calls"; lit "begin"] ++ deepseek_tag [lit "tool"; lit "call"; lit "begin"]
              ++ lit "function" ++ deepseek_tag [lit "tool"; lit "sep"] ++ acc_name call ++ [10] ++ lit "```json" ++ [10]
              ++ json_text float_text arguments ++ [10] ++ lit "```"
              ++ deepseek_tag [lit "tool"; lit "call"; lit "end"] ++ deepseek_tag [lit "tool"; lit "calls"; lit "end"])
        | MarkupGemma =>
            match arguments with
            | Object m =>
                inl (lit "<|tool_call>call:" ++ acc_name call ++ render_gemma_tool_object m ++ lit "<tool_call|>")
            | _ => inr (error_other (lit "MLX structured Gemma tool arguments must be a JSON object"))
            end
        end
    end.

(** ** Methods *)
Definition sstm (A : Type) : Type := stm MlxSseParser BackendError A.
Definition self : sstm MlxSseParser := get_state.
Definition update (f : MlxSseParser → MlxSseParser) : sstm unit := modify f.
Definition try_ {A} (r : A + BackendError) : sstm A :=
  lift_outcome match r with inl a => Ok a | inr e => Err e end.

Definition chunk (text : str) (deltas : list BackendToolCallDelta) (p : MlxSseParser) : BackendStreamChunk :=
  MkChunk text deltas (prompt_tokens p) (prompt_cached_tokens p) 0 None None.

Definition completion_token_delta (usage_completion_tokens : option N) : sstm N :=
  p ← self;
  match usage_completion_tokens with
  | Some total =>
      _ ← update (λ p, p <| emitted_completion_tokens ::= λ e, N.max e total |>);
      mret (sat_sub total (emitted_completion_tokens p))
  | None => mret 0
  end.

Definition finalize_completion_chunks (chunks : list BackendStreamChunk) (usage_completion_tokens : option N)
    (finish_reason : option BackendFinishReason) : sstm (list BackendStreamChunk) :=
  completion_tokens ← completion_token_delta usage_completion_tokens;
  p ← self;
  match vec_pop chunks with
  | Some (last, chunks) =>
      mret (chunks ++ [MkChunk (chunk_text last) (chunk_tool_call_deltas last) (prompt_tokens p)
        (prompt_cached_tokens p) (sat_add (chunk_completion_tokens last) completion_tokens) finish_reason
        (chunk_progress last)])
  | None =>
      if bool_decide (is_Some finish_reason) || (0 <? completion_tokens) then
        mret [MkChunk [] [] (prompt_tokens p) (prompt_cached_tokens p) completion_tokens finish_reason None]
      else mret []
  end.

(** One call of [push_tool_calls]. *)
Definition push_tool_call (call : MlxToolCall) : sstm (list BackendToolCallDelta) :=
  p ← self;
  let index := default (N.of_nat (length (tool_calls p))) (tool_index call) in
  _ ← (if N.of_nat (length (tool_calls p)) <=? index then
         if max_accumulators <=? index then lift_outcome Panic
         else update (λ p, p <| tool_calls ::= resize_calls (index + 1) |>)
       else mret tt);
  _ ← update (λ p, p <| tool_calls ::= alter (λ a,
        let a := match tool_id call with Some id => a <| acc_id := Some id |> | None => a end in
        match function call with
        | Some f => a <| acc_name ::= λ n, n ++ default [] (function_name f) |>
                      <| acc_arguments ::= λ n, n ++ default [] (function_arguments f) |>
        | None => a
        end) (N.to_nat index) |>);
  if emit_structured_tool_deltas p then
    if 4294967295 <? index then
      lift_outcome (Err (error_other (lit "MLX tool call index does not fit u32: out of range integral type conversion attempted")))
    else
      mret [MkBackendToolCallDelta index (tool_id call) (call_type call)
        ((λ f, MkBackendFunctionDelta (function_name f) (function_arguments f)) <$> function call)]
  else mret [].

Fixpoint push_tool_calls (calls : list MlxToolCall) : sstm (list BackendToolCallDelta) :=
  match calls with
  | [] => mret []
  | call :: calls =>
      deltas ← push_tool_call call;
      rest ← push_tool_calls calls;
      mret (deltas ++ rest)
  end.

Fixpoint render_all (calls : list MlxToolCallAccumulator) (markup : MlxToolMarkup) : str + BackendError :=
  match calls with
  | [] => inl []
  | call :: calls =>
      match render_mlx_tool_call call markup with
      | inr e => inr e
      | inl text => match render_all calls markup with inl rest => inl (text ++ rest) | inr e => inr e end
      end
  end.
(** [std::mem::take] empties the calls also when one of them fails. *)
Definition render_tool_calls : sstm str :=
  p ← self;
  _ ← update (λ p, p <| tool_calls := [] |>);
  try_ (render_all (tool_calls p) (tool_markup p)).

(** Running a method of the Qwen parser in place. *)
Definition with_qwen (f : QwenXmlToolParser → outcome BackendError (list QwenXmlEmission) * QwenXmlToolParser)
    (q : QwenXmlToolParser) : sstm (list QwenXmlEmission) :=
  let '(r, q) := f q in
  _ ← update (λ p, p <| qwen_xml := Some q |>);
  lift_outcome r.

Definition qwen_xml_emissions_to_chunks (emissions : list QwenXmlEmission) (p : MlxSseParser) : list BackendStreamChunk :=
  map (λ emission, chunk (text emission) (tool_call_deltas emission) p) emissions.

Definition push_text_chunks (text : str) : sstm (list BackendStreamChunk) :=
  p ← self;
  match qwen_xml p with
  | Some q =>
      emissions ← with_qwen (QwenXml.push_str from_str float_text uuid text) q;
      gets (qwen_xml_emissions_to_chunks emissions)
  | None => mret [chunk text [] p]
  end.

Definition filter_push (text : str) : sstm str :=
  p ← self;
  let '(out, f) := MlxStop.push_str text (stop_filter p) in
  _ ← update (λ p, p <| stop_filter := f |>);
  mret out.
Definition filter_finish : sstm str :=
  p ← self;
  let '(out, f) := MlxStop.finish (stop_filter p) in
  _ ← update (λ p, p <| stop_filter := f |>);
  mret out.

(** The counts reported so far. *)
Definition record_usage (completion : MlxCompletionResponse) (p : MlxSseParser) : MlxSseParser :=
  let p := match usage completion ≫= usage_prompt_tokens with
    | Some tokens => p <| has_upstream_prompt_tokens := true |> <| prompt_tokens := tokens |>
    | None => p
    end in
  match (usage completion ≫= prompt_tokens_details) ≫= cached_tokens with
  | Some cached => p <| prompt_cached_tokens ::= λ c, max_optional_u64 c (Some cached) |>
  | None => p
  end.

Definition choice_tool_calls (choice : MlxCompletionChoice) : option (list MlxToolCall) :=
  or_else (delta choice ≫= message_tool_calls) (message choice ≫= message_tool_calls).
Definition choice_content (choice : MlxCompletionChoice) : str :=
  default [] (or_else (choice_text choice) (or_else (delta choice ≫= content) (message choice ≫= content))).

Definition parse_completion (completion : MlxCompletionResponse) : sstm (list BackendStreamChunk) :=
  _ ← update (record_usage completion);
  let completion_tokens := usage completion ≫= usage_completion_tokens in
  match choices completion with
  | [] => finalize_completion_chunks [] completion_tokens None
  | choice :: _ =>
      tool_call_deltas ← match choice_tool_calls choice with
        | Some calls => push_tool_calls calls
        | None => mret []
        end;
      text ← filter_push (choice_content choice);
      finish_reason ← match choice_finish_reason choice with
        | Some reason => r ← try_ (mlx_finish_reason (Some reason)); mret (Some r)
        | None => mret None
        end;
      p ← self;
      let finish_reason := or_else finish_reason (if stopped (stop_filter p) then Some BStop else None) in
      let delta_chunks := match tool_call_deltas with [] => [] | _ => [chunk [] tool_call_deltas p] end in
      text_chunks ← (if bool_decide (text = []) then mret [] else push_text_chunks text);
      p ← self;
      truncated ← match finish_reason, qwen_xml p with
        | Some BLength, Some q =>
            emissions ← with_qwen (QwenXml.finish_truncated from_str float_text) q;
            gets (qwen_xml_emissions_to_chunks emissions)
        | _, _ => mret []
        end;
      rendered ← match finish_reason with
        | Some BToolCalls =>
            if negb (emit_structured_tool_deltas p) && bool_decide (tool_calls p ≠ []) then
              tool_text ← render_tool_calls;
              gets (λ p, [chunk tool_text [] p])
            else mret []
        | _ => mret []
        end;
      finalize_completion_chunks (delta_chunks ++ text_chunks ++ truncated ++ rendered) completion_tokens finish_reason
  end.

Definition parse_line (line : str) : sstm (list BackendStreamChunk) :=
  match mlx_sse_data line with
  | None => mret []
  | Some data =>
      if bool_decide (data = lit "[DONE]") then
        _ ← update (λ p, p <| saw_done := true |>);
        mret []
      else
        completion ← try_ match response_from_str data with
          | inl completion => inl completion
          | inr err => inr (error_other (lit "invalid MLX SSE completion JSON: " ++ err))
          end;
        parse_completion completion
  end.

(** The loop of [push_str] over the complete lines; [fuel] bounds their number. *)
Fixpoint push_lines (fuel : nat) : sstm (list BackendStreamChunk) :=
  match fuel with
  | O => lift_outcome Panic
  | S fuel =>
      p ← self;
      match find [10] (line_buffer p) with
      | None => mret []
      | Some index =>
          let line := take (S index) (line_buffer p) in
          _ ← update (λ p, p <| line_buffer ::= drop (S index) |>);
          chunks ← parse_line (pop_char 13 (pop_char 10 line));
          rest ← push_lines fuel;
          mret (chunks ++ rest)
      end
  end.

Definition push_str (input : str) : sstm (list BackendStreamChunk) :=
  _ ← update (λ p, p <| line_buffer ::= λ b, b ++ input |>);
  p ← self;
  push_lines (S (length (line_buffer p))).

Definition flush_pending : sstm (list BackendStreamChunk) :=
  p ← self;
  line_chunks ← (if bool_decide (line_buffer p = []) then mret []
    else
      _ ← update (λ p, p <| line_buffer := [] |>);
      parse_line (trim_end_char 13 (line_buffer p)));
  text ← filter_finish;
  text_chunks ← (if bool_decide (text = []) then mret [] else push_text_chunks text);
  p ← self;
  final ← match qwen_xml p with
    | Some q => emissions ← with_qwen QwenXml.finish q; gets (qwen_xml_emissions_to_chunks emissions)
    | None => mret []
    end;
  finalize_completion_chunks (line_chunks ++ text_chunks ++ final) None None.

Definition finish : sstm (list BackendStreamChunk) :=
  p ← self;
  if negb (saw_done p) then
    lift_outcome (Err (error_other (lit "MLX SSE completion ended before data: [DONE]")))
  else flush_pending.
Definition finish_non_streaming : sstm (list BackendStreamChunk) := flush_pending.

(** ** A whole reply *)

(** The accumulators of [fold_mlx_chunks], and one turn of its loop. *)
Definition fold_chunk (o : BackendOutput) (c : BackendStreamChunk) : BackendOutput :=
  MkOutput (out_text o ++ chunk_text c) (N.max (out_prompt_tokens o) (chunk_prompt_tokens c))
    (max_optional_u64 (out_prompt_cached_tokens o) (chunk_prompt_cached_tokens c))
    (sat_add (out_completion_tokens o) (chunk_completion_tokens c))
    (default (out_finish_reason o) (chunk_finish_reason c)).
Definition fold_mlx_chunks (chunks : list BackendStreamChunk) : BackendOutput :=
  foldl fold_chunk (MkOutput [] 0 None 0 BStop) chunks.

Definition parse_body (body : str) : sstm (list BackendStreamChunk) :=
  if starts_with (lit "data:") (trim_start body) then
    chunks ← push_str body;
    final ← finish;
    mret (chunks ++ final)
  else
    completion ← try_ match response_from_str body with
      | inl completion => inl completion
      | inr err => inr (error_other (lit "invalid MLX completion JSON: " ++ err))
      end;
    chunks ← parse_completion completion;
    final ← finish_non_streaming;
    mret (chunks ++ final).

Definition parse_mlx_completion_body_with_tools (body : str) (stop_tokens : list str) (markup : MlxToolMarkup)
    (tools : list BackendToolDefinition) : outcome BackendError (BackendOutput * nat) :=
  chunks ← fst (parse_body body (new_with_tools stop_tokens markup tools));
  mret (fold_mlx_chunks chunks, length chunks).

(** Pieces of the reply pushed one after another. *)
Fixpoint push_pieces (pieces : list str) : sstm (list BackendStreamChunk) :=
  match pieces with
  | [] => mret []
  | piece :: pieces =>
      chunks ← push_str piece;
      rest ← push_pieces pieces;
      mret (chunks ++ rest)
  end.
End sse.
