(* ===== verification/MlxSseLines.v ===== *)
(** * Lines of the MLX event stream

    The line framing of [MlxSse.v]: what a push does is what its complete lines
    do one by one, so how the network cuts the reply does not matter. *)
From Stdlib Require Import String.
From stdpp Require Import base gmap sets numbers list.
From S2P Require Import Prelude Text Json Whitespace Backend MlxStop QwenXml TagScan MlxSse.
Open Scope N_scope.
Open Scope record_scope.

(** ** Lines *)

(** The complete lines of a text, without their ends, and what follows the last. *)
Fixpoint split_lines (s : str) : list str * str :=
  match s with
  | [] => ([], [])
  | b :: s =>
      let '(ls, r) := split_lines s in
      if b =? 10 then ([] :: ls, r)
      else match ls with [] => ([], b :: r) | l :: ls => ((b :: l) :: ls, r) end
  end.

Lemma split_lines_app a b :
  split_lines (a ++ b)
  = let '(la, ra) := split_lines a in let '(lb, rb) := split_lines (ra ++ b) in (la ++ lb, rb).
Proof.
  induction a as [|c a IH]; [cbn; by destruct (split_lines b)|]. cbn [app split_lines]. rewrite IH.
  destruct (split_lines a) as [la ra]. destruct (N.eqb_spec c 10) as [->|Hc].
  - by destruct (split_lines (ra ++ b)).
  - destruct la as [|l la].
    + cbn [app split_lines]. destruct (split_lines (ra ++ b)) as [lb rb]. cbn [app].
      rewrite (proj2 (N.eqb_neq c 10) Hc). by destruct lb.
    + cbn [app]. by destruct (split_lines (ra ++ b)).
Qed.

Lemma split_lines_none s : find [10] s = None ↔ split_lines s = ([], s).
Proof.
  rewrite find_char_None. induction s as [|b s IH]; [split; [done|set_solver]|].
  cbn [split_lines]. rewrite not_elem_of_cons. destruct (split_lines s) as [ls r]. destruct (N.eqb_spec b 10) as [->|Hb].
  - split; [by intros []|by intros [=]].
  - destruct ls as [|l ls]; split.
    + intros [_ Hs]. apply IH in Hs. by injection Hs as ->.
    + intros [= ->]. split; [done|]. by apply IH.
    + intros [_ Hs]. by apply IH in Hs.
    + intros [=].
Qed.

Lemma split_lines_some s i : find [10] s = Some i →
  split_lines s = let '(ls, r) := split_lines (drop (S i) s) in (take i s :: ls, r).
Proof.
  revert i. induction s as [|b s IH]; intros i; [done|]. cbn [find starts_with]. rewrite andb_true_r.
  destruct (N.eqb_spec 10 b) as [<-|Hb].
  - intros [= <-]. cbn [split_lines drop take]. change (drop 0 s) with s. by destruct (split_lines s).
  - intros (j & Hj & ->)%fmap_Some. cbn [split_lines]. rewrite (IH j Hj).
    cbn [drop take]. destruct (split_lines (drop (S j) s)) as [ls r].
    by rewrite (proj2 (N.eqb_neq b 10)) by done.
Qed.

Lemma find_line_length s i : find [10] s = Some i → (i < length s)%nat.
Proof. intros [Ho _]%find_Some. apply occurs_length in Ho. simpl in Ho. lia. Qed.

Lemma find_line_at s i : find [10] s = Some i → take (S i) s = take i s ++ [10].
Proof.
  intros Hf. pose proof (find_line_length s i Hf) as Hl. apply find_Some in Hf as [[_ Ho] _].
  apply starts_with_app in Ho as [r Hr].
  rewrite <- (take_drop i s) at 1. rewrite Hr. rewrite take_app_ge by (rewrite length_take; lia).
  rewrite length_take_le by lia. replace (S i - i)%nat with 1%nat by lia. done.
Qed.

Lemma pop_char_last c s : pop_char c (s ++ [c]) = s.
Proof.
  unfold pop_char. rewrite (proj2 (ends_with_spec _ _)) by by eexists.
  rewrite length_app. cbn [length]. rewrite Nat.add_sub. apply take_app_length.
Qed.

(** ** Methods that leave the line buffer alone *)
Section lines.
Context (from_str : str → value + str) (response_from_str : str → MlxCompletionResponse + str)
  (float_text uuid : N → str).
Local Abbreviation parse_line := (parse_line from_str response_from_str float_text uuid).
Local Abbreviation parse_completion := (parse_completion from_str float_text uuid).
Local Abbreviation push_lines := (push_lines from_str response_from_str float_text uuid).
Local Abbreviation push_str := (push_str from_str response_from_str float_text uuid).
Local Abbreviation push_pieces := (push_pieces from_str response_from_str float_text uuid).

Definition with_buffer (b : str) (p : MlxSseParser) : MlxSseParser := p <| line_buffer := b |>.
Definition buffered {A} (m : sstm A) : Prop :=
  ∀ p b, m (with_buffer b p) = let '(r, p') := m p in (r, with_buffer b p').

Lemma buffered_bind {A B} (m : sstm A) (f : A → sstm B) : buffered m → (∀ a, buffered (f a)) → buffered (m ≫= f).
Proof.
  intros Hm Hf p b. unfold mbind, stm_bind. rewrite Hm. destruct (m p) as [[a|e|] p']; [apply Hf|done..].
Qed.
Lemma buffered_self {B} (f : MlxSseParser → sstm B) :
  (∀ p b, f (with_buffer b p) = f p) → (∀ p, buffered (f p)) → buffered (self ≫= f).
Proof. intros He Hf p b. unfold mbind, stm_bind, self, get_state. rewrite He. apply Hf. Qed.
Lemma buffered_ret {A} (a : A) : buffered (mret a).
Proof. done. Qed.
Lemma buffered_lift {A} (o : outcome BackendError A) : buffered (lift_outcome o).
Proof. done. Qed.
Lemma buffered_gets {A} (f : MlxSseParser → A) : (∀ p b, f (with_buffer b p) = f p) → buffered (gets f).
Proof. intros He p b. unfold gets. by rewrite He. Qed.
Lemma buffered_update f : (∀ p b, f (with_buffer b p) = with_buffer b (f p)) → buffered (update f).
Proof. intros He p b. unfold update, modify. by rewrite He. Qed.
Lemma buffered_if {A} (c : bool) (m n : sstm A) : buffered m → buffered n → buffered (if c then m else n).
Proof. by destruct c. Qed.

Create HintDb buffered.
Ltac buffered :=
  repeat (lazymatch goal with
    | |- buffered (match ?x with _ => _ end) => destruct x
    | |- buffered (mbind _ self) => apply buffered_self; [reflexivity|intros]
    | |- buffered (mbind _ _) => apply buffered_bind; [|intros]
    | |- buffered (mret _) => apply buffered_ret
    | |- buffered (lift_outcome _) => apply buffered_lift
    | |- buffered (gets _) => apply buffered_gets; reflexivity
    | |- buffered (update _) => first [solve [auto 1 with buffered nocore] | apply buffered_update; reflexivity]
    | |- _ => solve [auto 1 with buffered nocore]
    end).

Lemma buffered_qwen f q : buffered (with_qwen f q).
Proof. unfold with_qwen. buffered. Qed.
Local Hint Resolve buffered_qwen : buffered.
Lemma buffered_text t : buffered (push_text_chunks from_str float_text uuid t).
Proof. unfold push_text_chunks. buffered. Qed.
Lemma buffered_filter t : buffered (filter_push t).
Proof. unfold filter_push. buffered. Qed.
Lemma buffered_finalize cs u r : buffered (finalize_completion_chunks cs u r).
Proof. unfold finalize_completion_chunks, completion_token_delta. buffered. Qed.
Lemma buffered_tool_call c : buffered (push_tool_call c).
Proof. unfold push_tool_call. buffered. Qed.
Local Hint Resolve buffered_text buffered_filter buffered_finalize buffered_tool_call : buffered.
Lemma buffered_tool_calls cs : buffered (push_tool_calls cs).
Proof. induction cs; cbn [push_tool_calls]; buffered. Qed.
Lemma buffered_render : buffered (render_tool_calls from_str float_text).
Proof. unfold render_tool_calls, try_. buffered. Qed.
Lemma buffered_usage c : buffered (update (record_usage c)).
Proof.
  apply buffered_update. intros p b. unfold record_usage.
  destruct (usage c ≫= usage_prompt_tokens), ((usage c ≫= prompt_tokens_details) ≫= cached_tokens); reflexivity.
Qed.
Local Hint Resolve buffered_tool_calls buffered_render buffered_usage : buffered.

Lemma buffered_completion c : buffered (parse_completion c).
Proof. unfold MlxSse.parse_completion, try_. buffered. Qed.
Local Hint Resolve buffered_completion : buffered.

Lemma buffered_line l : buffered (parse_line l).
Proof. unfold MlxSse.parse_line, try_. buffered. Qed.

(** ** Pushes as lines *)
Fixpoint parse_lines (ls : list str) : sstm (list BackendStreamChunk) :=
  match ls with
  | [] => mret []
  | l :: ls => chunks ← parse_line (pop_char 13 l); rest ← parse_lines ls; mret (chunks ++ rest)
  end.

Lemma buffered_lines ls : buffered (parse_lines ls).
Proof. induction ls; cbn [parse_lines]; buffered; apply buffered_line. Qed.

(** What was parsed, and for a result the parser left behind. *)
Definition parsed {A} (x : outcome BackendError A * MlxSseParser) : outcome BackendError (A * MlxSseParser) :=
  let '(r, p) := x in a ← r; mret (a, p).

Lemma parsed_bind {A B} (m : sstm A) (f : A → sstm B) p :
  parsed ((m ≫= f) p) = '(a, p) ← parsed (m p); parsed (f a p).
Proof. unfold mbind, stm_bind. by destruct (m p) as [[a|e|] p']. Qed.

Lemma push_lines_spec fuel p : (length (line_buffer p) < fuel)%nat →
  parsed (push_lines fuel p)
  = let '(ls, r) := split_lines (line_buffer p) in parsed (parse_lines ls (with_buffer r p)).
Proof.
  revert p. induction fuel as [|fuel IH]; intros p Hf; [lia|]. cbn [MlxSse.push_lines].
  unfold mbind at 1, stm_bind at 1, self, get_state. destruct (find [10] (line_buffer p)) as [i|] eqn:Hi.
  - cbv zeta. unfold mbind at 1, stm_bind at 1, update, modify. rewrite parsed_bind.
    rewrite (split_lines_some _ i Hi), (find_line_at _ _ Hi), pop_char_last.
    change (p <| line_buffer ::= drop (S i) |>) with (with_buffer (drop (S i) (line_buffer p)) p).
    destruct (split_lines (drop (S i) (line_buffer p))) as [ls r] eqn:Hs. cbn [parse_lines]. rewrite parsed_bind.
    rewrite (buffered_line _ _ (drop (S i) (line_buffer p))), (buffered_line _ _ r).
    destruct (parse_line (pop_char 13 (take i (line_buffer p))) p) as [[cs|e|] p1]; [|done..].
    cbn [parsed mbind outcome_bind mret outcome_ret]. rewrite !parsed_bind.
    pose proof (find_line_length _ _ Hi) as Hl.
    rewrite IH by (cbn [line_buffer with_buffer upd]; rewrite length_drop; lia).
    cbn [line_buffer with_buffer upd]. rewrite Hs. done.
  - rewrite (proj1 (split_lines_none _) Hi). cbn [parse_lines]. by destruct p.
Qed.

Lemma push_str_spec input p :
  parsed (push_str input p)
  = let '(ls, r) := split_lines (line_buffer p ++ input) in parsed (parse_lines ls (with_buffer r p)).
Proof.
  unfold MlxSse.push_str. unfold mbind at 1, stm_bind at 1, update, modify.
  unfold mbind at 1, stm_bind at 1, self, get_state.
  change (p <| line_buffer ::= λ b, b ++ input |>) with (with_buffer (line_buffer p ++ input) p).
  rewrite push_lines_spec by (cbn; lia). cbn [line_buffer with_buffer upd].
  by destruct (split_lines (line_buffer p ++ input)).
Qed.

Lemma parse_lines_app la lb p :
  parsed (parse_lines (la ++ lb) p)
  = '(ca, p) ← parsed (parse_lines la p); '(cb, p) ← parsed (parse_lines lb p); mret (ca ++ cb, p).
Proof.
  revert p. induction la as [|l la IH]; intros p.
  - cbn. by destruct (parse_lines lb p) as [[cs|e|] p'].
  - cbn [app parse_lines]. rewrite !parsed_bind. destruct (parse_line (pop_char 13 l) p) as [[cs|e|] p1]; [|done..].
    cbn [parsed mbind outcome_bind mret outcome_ret]. rewrite !parsed_bind, IH.
    destruct (parse_lines la p1) as [[ca|e|] p2]; [|done..]. cbn [parsed mbind outcome_bind mret outcome_ret stm_ret].
    destruct (parse_lines lb p2) as [[cb|e|] p3]; [|done..]. cbn. by rewrite app_assoc.
Qed.

(** The line buffer holds no complete line between pushes. *)
Definition partial_line (p : MlxSseParser) : Prop := find [10] (line_buffer p) = None.

Lemma parse_lines_buffer ls b p cs p' :
  parsed (parse_lines ls (with_buffer b p)) = Ok (cs, p') → line_buffer p' = b.
Proof.
  rewrite (buffered_lines ls p b). destruct (parse_lines ls p) as [[c|e|] p1]; [|done..]. by intros [= _ <-].
Qed.

Lemma rest_partial s : find [10] (split_lines s).2 = None.
Proof.
  apply find_char_None. induction s as [|b s IH]; [cbn; set_solver|]. cbn [split_lines].
  destruct (split_lines s) as [ls r]. cbn [snd] in IH. destruct (N.eqb_spec b 10); [done|].
  destruct ls; cbn [snd]; [|done]. by rewrite not_elem_of_cons.
Qed.

Lemma push_pieces_spec pieces p : partial_line p →
  parsed (push_pieces pieces p)
  = let '(ls, r) := split_lines (line_buffer p ++ concat pieces) in parsed (parse_lines ls (with_buffer r p)).
Proof.
  revert p. induction pieces as [|a pieces IH]; intros p Hp.
  { cbn [concat]. rewrite app_nil_r, (proj1 (split_lines_none _) Hp). by destruct p. }
  cbn [MlxSse.push_pieces concat]. rewrite parsed_bind, push_str_spec, app_assoc, (split_lines_app (line_buffer p ++ a)).
  destruct (split_lines (line_buffer p ++ a)) as [la ra] eqn:Ha.
  assert (find [10] ra = None) as Hra by (pose proof (rest_partial (line_buffer p ++ a)) as H; by rewrite Ha in H).
  destruct (split_lines (ra ++ concat pieces)) as [lb rb] eqn:Hb.
  cbv beta iota. rewrite parse_lines_app, (buffered_lines la p ra), (buffered_lines la p rb).
  destruct (parse_lines la p) as [[ca|e|] p1]; [|done..]. cbn [parsed mbind outcome_bind mret outcome_ret].
  rewrite parsed_bind, IH by done. cbn [line_buffer with_buffer upd]. rewrite Hb.
  change (p1 <| line_buffer := ra |> <| line_buffer := rb |>) with (with_buffer rb p1).
  by destruct (parse_lines lb (with_buffer rb p1)) as [[cb|e|] p2].
Qed.
End lines.
