(* ===== verification/MlxSseTheorems.v ===== *)
(** * What the event stream of the MLX server promises

    Theorems about [MlxSse.v]: the reply may be cut anywhere, the token counts
    add up to what the server reported, the text is the model's text before the
    first control token, and the tool-call deltas rebuild the calls. *)
From Stdlib Require Import String.
From stdpp Require Import base gmap sets numbers list.
From S2P Require Import Prelude Text Json Whitespace Stop Backend MlxStop QwenXml TagScan MlxSse MlxSseLines.
Open Scope N_scope.
Open Scope record_scope.

(** ** Sums over chunks *)
Definition texts (cs : list BackendStreamChunk) : str := concat (map chunk_text cs).
Definition deltas (cs : list BackendStreamChunk) : list BackendToolCallDelta := concat (map chunk_tool_call_deltas cs).
Definition tokens (cs : list BackendStreamChunk) : N := foldr (λ c n, chunk_completion_tokens c + n) 0 cs.

Lemma texts_app a b : texts (a ++ b) = texts a ++ texts b.
Proof. unfold texts. by rewrite map_app, concat_app. Qed.
Lemma deltas_app a b : deltas (a ++ b) = deltas a ++ deltas b.
Proof. unfold deltas. by rewrite map_app, concat_app. Qed.
Lemma tokens_app a b : tokens (a ++ b) = tokens a + tokens b.
Proof. unfold tokens. induction a as [|c a IH]; [done|]. cbn [app foldr]. rewrite IH. lia. Qed.

Lemma fold_text cs o : out_text (foldl fold_chunk o cs) = out_text o ++ texts cs.
Proof. revert o. induction cs as [|c cs IH]; intros o; [by rewrite app_nil_r|]. cbn [foldl]. rewrite IH. cbn. by rewrite <- app_assoc. Qed.
Lemma fold_tokens cs o : out_completion_tokens o + tokens cs ≤ u64_max →
  out_completion_tokens (foldl fold_chunk o cs) = out_completion_tokens o + tokens cs.
Proof.
  revert o. induction cs as [|c cs IH]; intros o Ho; [cbn in *; lia|]. cbn [foldl tokens foldr] in *.
  fold (tokens cs) in *. rewrite IH; cbn [fold_chunk out_completion_tokens]; unfold sat_add; lia.
Qed.

(** ** Successful runs *)
Lemma bind_Ok_inv {S E A B} (m : stm S E A) (f : A → stm S E B) s b s' :
  (m ≫= f) s = (Ok b, s') ↔ ∃ a s1, m s = (Ok a, s1) ∧ f a s1 = (Ok b, s').
Proof.
  unfold mbind, stm_bind. split.
  - destruct (m s) as [[a|e|] s1] eqn:Hm; [|done..]. intros H. by exists a, s1.
  - by intros (a & s1 & -> & H).
Qed.
Lemma parsed_Ok {A} (x : outcome BackendError A * MlxSseParser) a p : parsed x = Ok (a, p) ↔ x = (Ok a, p).
Proof. destruct x as [[b|e|] p']; cbn; split; [by intros [= -> ->]|by intros [= -> ->]|done..]. Qed.

(** Splits a successful run into its steps. *)
Ltac run_steps H :=
  lazymatch type of H with
  | mbind _ _ _ = (Ok _, _) =>
      let a := fresh "a" in let p := fresh "p" in let H1 := fresh "Hrun" in
      apply bind_Ok_inv in H as (a & p & H1 & H); run_steps H1; run_steps H
  | self _ = (Ok _, _) => injection H as <- <-
  | gets _ _ = (Ok _, _) => injection H as <- <-
  | update _ _ = (Ok _, _) => injection H as <- <-
  | mret _ _ = (Ok _, _) => injection H as <- <-
  | _ => idtac
  end.

(** ** What methods leave alone *)
Definition leaves {A B} (f : MlxSseParser → B) (m : sstm A) : Prop :=
  ∀ p a p', m p = (Ok a, p') → f p' = f p.

Section leaves.
Context {B : Type} (f : MlxSseParser → B).
Lemma leaves_bind {A C} (m : sstm A) (g : A → sstm C) : leaves f m → (∀ a, leaves f (g a)) → leaves f (m ≫= g).
Proof. intros Hm Hg p a p' (b & p1 & H1 & H2)%bind_Ok_inv. rewrite (Hg _ _ _ _ H2). by apply Hm in H1. Qed.
Lemma leaves_ret {A} (a : A) : leaves f (mret a).
Proof. by intros p b p' [= _ <-]. Qed.
Lemma leaves_self : leaves f self.
Proof. by intros p b p' [= _ <-]. Qed.
Lemma leaves_gets {A} (g : MlxSseParser → A) : leaves f (gets g).
Proof. by intros p b p' [= _ <-]. Qed.
Lemma leaves_lift {A} (o : outcome BackendError A) : leaves f (lift_outcome o).
Proof. by intros p b p' [= _ <-]. Qed.
Lemma leaves_update g : (∀ p, f (g p) = f p) → leaves f (update g).
Proof. intros Hg p b p' [= _ <-]. apply Hg. Qed.
End leaves.

Create HintDb leaves.
Ltac leaves :=
  repeat (lazymatch goal with
    | |- leaves _ (match ?x with _ => _ end) => destruct x
    | |- leaves _ (mbind _ _) => apply leaves_bind; [|intros]
    | |- leaves _ (mret _) => apply leaves_ret
    | |- leaves _ self => apply leaves_self
    | |- leaves _ (gets _) => apply leaves_gets
    | |- leaves _ (lift_outcome _) => apply leaves_lift
    | |- leaves _ (update _) => apply leaves_update; intros; reflexivity
    | |- _ => solve [auto 1 with leaves nocore]
    end).

(** ** The last chunk of a line *)
Definition total (u : option N) : N := default 0 u.

Lemma finalize_spec cs u r p :
  ∃ out, finalize_completion_chunks cs u r p = (Ok out, p <| emitted_completion_tokens ::= λ e, N.max e (total u) |>)
    ∧ texts out = texts cs ∧ deltas out = deltas cs
    ∧ (tokens cs + (total u - emitted_completion_tokens p) ≤ u64_max →
       tokens out = tokens cs + (total u - emitted_completion_tokens p)).
Proof.
  unfold finalize_completion_chunks.
  assert (completion_token_delta u p
    = (Ok (total u - emitted_completion_tokens p), p <| emitted_completion_tokens ::= λ e, N.max e (total u) |>)) as Hd.
  { destruct u as [t|]; [done|]. cbn. rewrite N.max_0_r. by destruct p. }
  unfold mbind, stm_bind. rewrite Hd. set (p' := p <| _ ::= _ |>). unfold self, get_state.
  set (d := total u - _).
  destruct (vec_pop cs) as [[last front]|] eqn:Hv.
  - apply vec_pop_Some in Hv as ->. eexists. split; [done|].
    rewrite !texts_app, !deltas_app, !tokens_app. split_and!; [done..|]. cbn [tokens foldr chunk_completion_tokens].
    unfold sat_add. lia.
  - apply vec_pop_None in Hv as ->. case_match eqn:Hc; (eexists; split; [done|]); split_and!; try done; cbn [tokens foldr chunk_completion_tokens].
    + lia.
    + apply orb_false_elim in Hc as [_ Hc%N.ltb_ge]. lia.
Qed.

(** ** Token counts of a line *)
Definition highest (l : list N) : N := foldr N.max 0 l.
Lemma highest_app a b : highest (a ++ b) = N.max (highest a) (highest b).
Proof. induction a as [|x a IH]; [unfold highest; cbn [app foldr]; lia|]. unfold highest in *. cbn [app foldr]. rewrite IH. lia. Qed.
Lemma highest_one x : highest [x] = x.
Proof. apply N.max_0_r. Qed.
Lemma highest_le l n : (∀ x, x ∈ l → x ≤ n) → highest l ≤ n.
Proof.
  intros Hl. induction l as [|x l IH]; [apply N.le_0_l|]. apply N.max_lub; [|apply IH]; set_solver.
Qed.

Section counts.
Context (from_str : str → value + str) (response_from_str : str → MlxCompletionResponse + str)
  (float_text uuid : N → str).
Local Abbreviation parse_line := (parse_line from_str response_from_str float_text uuid).
Local Abbreviation parse_completion := (parse_completion from_str float_text uuid).
Local Abbreviation parse_lines := (parse_lines from_str response_from_str float_text uuid).
Local Abbreviation push_text_chunks := (push_text_chunks from_str float_text uuid).
Local Abbreviation flush_pending := (flush_pending from_str response_from_str float_text uuid).
Local Abbreviation emitted := emitted_completion_tokens.

Lemma emitted_qwen f q : leaves emitted (with_qwen f q).
Proof. unfold with_qwen. leaves. Qed.
Local Hint Resolve emitted_qwen : leaves.
Lemma emitted_text t : leaves emitted (push_text_chunks t).
Proof. unfold MlxSse.push_text_chunks. leaves. Qed.
Lemma emitted_filter t : leaves emitted (filter_push t).
Proof. unfold filter_push. leaves. Qed.
Lemma emitted_filter_finish : leaves emitted filter_finish.
Proof. unfold filter_finish. leaves. Qed.
Lemma emitted_tool_call c : leaves emitted (push_tool_call c).
Proof. unfold push_tool_call. leaves. Qed.
Local Hint Resolve emitted_text emitted_filter emitted_filter_finish emitted_tool_call : leaves.
Lemma emitted_tool_calls cs : leaves emitted (push_tool_calls cs).
Proof. induction cs; cbn [push_tool_calls]; leaves. Qed.
Lemma emitted_render : leaves emitted (render_tool_calls from_str float_text).
Proof. unfold render_tool_calls, try_. leaves. Qed.
Lemma emitted_usage c p : emitted (record_usage c p) = emitted p.
Proof.
  unfold record_usage.
  by destruct (usage c ≫= usage_prompt_tokens), ((usage c ≫= prompt_tokens_details) ≫= cached_tokens).
Qed.

(** Chunks other than the last one of a line count nothing. *)
Lemma tokens_qwen es p : tokens (qwen_xml_emissions_to_chunks es p) = 0.
Proof. by induction es as [|e es IH]. Qed.
Lemma tokens_text t p cs p' : push_text_chunks t p = (Ok cs, p') → tokens cs = 0.
Proof.
  unfold MlxSse.push_text_chunks. intros H. apply bind_Ok_inv in H as (q & p1 & [= <- <-] & H).
  destruct (qwen_xml p); [run_steps H; apply tokens_qwen|by injection H as <- <-].
Qed.

(** The completion a line carries, and the total it reports. *)
Definition line_completion (line : str) : option MlxCompletionResponse :=
  match mlx_sse_data line with
  | Some data =>
      if bool_decide (data = lit "[DONE]") then None
      else match response_from_str data with inl c => Some c | inr _ => None end
  | None => None
  end.
Definition completion_total (c : MlxCompletionResponse) : N := total (usage c ≫= usage_completion_tokens).
Definition reported (line : str) : N :=
  match line_completion line with Some c => completion_total c | None => 0 end.

(** What a run counts beside [k] tokens already in its chunks: [n] is the highest
    total it reads. *)
Definition counts (k n : N) (m : sstm (list BackendStreamChunk)) : Prop :=
  ∀ p cs p', m p = (Ok cs, p') → k + (n - emitted p) ≤ u64_max →
  emitted p' = N.max (emitted p) n ∧ tokens cs = k + (n - emitted p).

Lemma counts_finalize k cs u r : tokens cs = k → counts k (total u) (finalize_completion_chunks cs u r).
Proof.
  intros <- p out p' H Hn. destruct (finalize_spec cs u r p) as (out' & Hf & _ & _ & Ht).
  rewrite Hf in H. injection H as <- <-. cbn [emitted_completion_tokens upd]. rewrite Ht by done. lia.
Qed.

Lemma counts_bind {A} (Q : A → Prop) k n (m : sstm A) (f : A → sstm (list BackendStreamChunk)) :
  leaves emitted m → (∀ p a p', m p = (Ok a, p') → Q a) → (∀ a, Q a → counts k n (f a)) → counts k n (m ≫= f).
Proof.
  intros Hk HQ Hf p cs p' (a & p1 & H1 & H2)%bind_Ok_inv. rewrite <- (Hk _ _ _ H1).
  by apply (Hf a (HQ _ _ _ H1) _ _ _ H2).
Qed.
Lemma counts_then {A} k n (m : sstm A) (f : A → sstm (list BackendStreamChunk)) :
  leaves emitted m → (∀ a, counts k n (f a)) → counts k n (m ≫= f).
Proof. intros Hk Hf. by apply (counts_bind (λ _, True)). Qed.
Lemma counts_nothing : counts 0 0 (mret []).
Proof. intros p cs p' [= <- <-] _. cbn [tokens foldr]. lia. Qed.

Lemma quiet_text text p cs p' :
  (if bool_decide (text = []) then mret [] else push_text_chunks text) p = (Ok cs, p') → tokens cs = 0.
Proof. case_bool_decide; [by intros [= <- _]|apply tokens_text]. Qed.

Lemma counts_completion c : counts 0 (completion_total c) (parse_completion c).
Proof.
  unfold MlxSse.parse_completion. apply counts_then; [apply leaves_update, emitted_usage|intros _].
  destruct (choices c) as [|choice rest]; [by apply counts_finalize|].
  apply counts_then; [destruct (choice_tool_calls choice); [apply emitted_tool_calls|apply leaves_ret]|intros ds].
  apply counts_then; [apply emitted_filter|intros text].
  apply counts_then; [unfold try_; leaves|intros r]. apply counts_then; [apply leaves_self|intros pa].
  cbv zeta. generalize (or_else r (if stopped (stop_filter pa) then Some BStop else None)). intros reason.
  apply (counts_bind (λ cs, tokens cs = 0)); [leaves|apply quiet_text|intros tc Htc].
  apply counts_then; [apply leaves_self|intros pb].
  apply (counts_bind (λ cs, tokens cs = 0)); [leaves| |intros tr Htr].
  { intros p cs p' H. destruct reason as [[]|], (qwen_xml pb); run_steps H; done || apply tokens_qwen. }
  apply (counts_bind (λ cs, tokens cs = 0)).
  { destruct reason as [[]|]; leaves. apply emitted_render. }
  { intros p cs p' H. destruct reason as [[]|]; try by run_steps H.
    destruct (negb _ && _); by run_steps H. }
  intros rd Hrd. apply counts_finalize. rewrite !tokens_app, Htc, Htr, Hrd. by destruct ds.
Qed.

Lemma counts_line l : counts 0 (reported l) (parse_line l).
Proof.
  unfold MlxSse.parse_line, reported, line_completion. destruct (mlx_sse_data l) as [data|]; [|apply counts_nothing].
  case_bool_decide as Hd; [apply counts_then; [leaves|intros _; apply counts_nothing]|].
  unfold try_. destruct (response_from_str data) as [c|e]; [apply counts_completion|by intros p cs p' [=]].
Qed.

Lemma counts_app m n (a b : sstm (list BackendStreamChunk)) : counts 0 m a → counts 0 n b →
  counts 0 (N.max m n) (x ← a; y ← b; mret (x ++ y)).
Proof.
  intros Ha Hb p cs p' H Hn. apply bind_Ok_inv in H as (x & p1 & H1 & H). apply bind_Ok_inv in H as (y & p2 & H2 & H).
  injection H as <- <-. destruct (Ha _ _ _ H1 ltac:(lia)) as [Hp1 Hx].
  destruct (Hb _ _ _ H2 ltac:(lia)) as [Hp2 Hy]. rewrite tokens_app. lia.
Qed.

Lemma counts_lines ls : counts 0 (highest (map (λ l, reported (pop_char 13 l)) ls)) (parse_lines ls).
Proof.
  induction ls as [|l ls IH]; [apply counts_nothing|]. cbn [MlxSseLines.parse_lines map highest foldr].
  apply counts_app; [apply counts_line|exact IH].
Qed.

(** What follows the last line. *)
Definition flush_rest (line_chunks : list BackendStreamChunk) : sstm (list BackendStreamChunk) :=
  text ← filter_finish;
  text_chunks ← (if bool_decide (text = []) then mret [] else push_text_chunks text);
  p ← self;
  final ← match qwen_xml p with
    | Some q => emissions ← with_qwen QwenXml.finish q; gets (qwen_xml_emissions_to_chunks emissions)
    | None => mret []
    end;
  finalize_completion_chunks (line_chunks ++ text_chunks ++ final) None None.

(** An empty unterminated line does nothing, so there always is one. *)
Lemma flush_lines : ∀ p, flush_pending p
  = (line_chunks ← parse_line (trim_end_char 13 (line_buffer p)); flush_rest line_chunks) (with_buffer [] p).
Proof.
  intros p. unfold MlxSse.flush_pending. unfold mbind at 1, stm_bind at 1, self at 1, get_state at 1.
  unfold mbind at 1, stm_bind at 1. case_bool_decide as Hb; [|done].
  rewrite Hb. destruct p. cbn in Hb. by subst.
Qed.

Lemma counts_rest line : counts (tokens line) 0 (flush_rest line).
Proof.
  unfold flush_rest. apply counts_then; [apply emitted_filter_finish|intros text].
  apply (counts_bind (λ cs, tokens cs = 0)); [leaves|apply quiet_text|intros tc Htc].
  apply counts_then; [apply leaves_self|intros p].
  apply (counts_bind (λ cs, tokens cs = 0)); [leaves| |intros fi Hfi].
  { intros p1 cs p' H. destruct (qwen_xml p); run_steps H; done || apply tokens_qwen. }
  apply (counts_finalize _ _ None). rewrite !tokens_app, Htc, Hfi. lia.
Qed.

Lemma counts_flush p cs p' : flush_pending p = (Ok cs, p') →
  reported (trim_end_char 13 (line_buffer p)) - emitted p ≤ u64_max →
  emitted p' = N.max (emitted p) (reported (trim_end_char 13 (line_buffer p)))
  ∧ tokens cs = reported (trim_end_char 13 (line_buffer p)) - emitted p.
Proof.
  intros H Hn. rewrite flush_lines in H. apply bind_Ok_inv in H as (line & p1 & H1 & H2).
  destruct (counts_line _ _ _ _ H1 Hn) as [He1 Ht1]. change (emitted (with_buffer [] p)) with (emitted p) in *.
  destruct (counts_rest _ _ _ _ H2) as [He2 Ht2]; [lia|]. lia.
Qed.
End counts.

(** ** Text and tool calls of a line

    Of a parser that streams structured tool calls and has no Qwen markup to
    read. *)
Definition plain (p : MlxSseParser) : Prop := qwen_xml p = None ∧ emit_structured_tool_deltas p = true.

(** What a client does with a tool-call delta: it makes room for the index, takes
    the id, and appends the fragments. *)
Definition apply_delta (calls : list MlxToolCallAccumulator) (d : BackendToolCallDelta) : list MlxToolCallAccumulator :=
  alter (λ a, MkAccumulator (or_else (btd_id d) (acc_id a))
      (acc_name a ++ default [] (btd_function d ≫= bfd_name))
      (acc_arguments a ++ default [] (btd_function d ≫= bfd_arguments)))
    (N.to_nat (btd_index d)) (resize_calls (btd_index d + 1) calls).

Lemma alter_at {A} (f g : A → A) (l : list A) (i : nat) : (∀ a, f a = g a) → alter f i l = alter g i l.
Proof. intros He. revert i. induction l as [|a l IH]; intros [|i]; cbn; f_equal; auto. Qed.

Lemma resize_enough len calls : len ≤ N.of_nat (length calls) → resize_calls len calls = calls.
Proof. intros Hl. unfold resize_calls. replace (_ - _)%nat with 0%nat by lia. apply app_nil_r. Qed.

Section plain.
Context (from_str : str → value + str) (response_from_str : str → MlxCompletionResponse + str)
  (float_text uuid : N → str).
Local Abbreviation parse_line := (parse_line from_str response_from_str float_text uuid).
Local Abbreviation parse_completion := (parse_completion from_str float_text uuid).
Local Abbreviation parse_lines := (parse_lines from_str response_from_str float_text uuid).
Local Abbreviation push_text_chunks := (push_text_chunks from_str float_text uuid).

(** The filter and the calls after a run whose model text is [t]. *)
Definition streams (t : str) (p : MlxSseParser) (cs : list BackendStreamChunk) (p' : MlxSseParser) : Prop :=
  plain p' ∧ texts cs = (MlxStop.push_str t (stop_filter p)).1
  ∧ stop_filter p' = (MlxStop.push_str t (stop_filter p)).2
  ∧ tool_calls p' = foldl apply_delta (tool_calls p) (deltas cs).

Lemma push_call_delta call p ds p' : push_tool_call call p = (Ok ds, p') → plain p →
  plain p' ∧ stop_filter p' = stop_filter p ∧ tool_calls p' = foldl apply_delta (tool_calls p) ds.
Proof.
  intros H [Hq Hs]. unfold push_tool_call in H. apply bind_Ok_inv in H as (q & q' & [= <- <-] & H). cbv zeta in H.
  rewrite Hs in H. set (index := default _ (tool_index call)) in *.
  apply bind_Ok_inv in H as ([] & p1 & H1 & H). apply bind_Ok_inv in H as ([] & p2 & [= <-] & H).
  destruct (4294967295 <? index); [done|]. injection H as <- <-.
  assert (p1 = p <| tool_calls ::= resize_calls (index + 1) |>) as ->.
  { destruct (N.leb_spec (N.of_nat (length (tool_calls p))) index).
    - destruct (max_accumulators <=? index); [done|]. by injection H1 as <-.
    - injection H1 as <-. destruct p. cbn -[resize_calls] in *. by rewrite resize_enough by lia. }
  split; [done|]. split; [done|]. cbn [tool_calls upd foldl]. unfold apply_delta.
  apply alter_at. intros a. destruct call as [i id ty [f|]], id; cbn; by rewrite ?app_nil_r; destruct a.
Qed.

Lemma push_calls_deltas calls p ds p' : push_tool_calls calls p = (Ok ds, p') → plain p →
  plain p' ∧ stop_filter p' = stop_filter p ∧ tool_calls p' = foldl apply_delta (tool_calls p) ds.
Proof.
  revert p ds p'. induction calls as [|c calls IH]; intros p ds p' H Hp; cbn [push_tool_calls] in H.
  { by injection H as <- <-. }
  apply bind_Ok_inv in H as (d & p1 & H1 & H). apply bind_Ok_inv in H as (rest & p2 & H2 & H). injection H as <- <-.
  destruct (push_call_delta _ _ _ _ H1 Hp) as (Hp1 & Hf1 & Hc1).
  destruct (IH _ _ _ H2 Hp1) as (Hp2 & Hf2 & Hc2). by rewrite foldl_app, <- Hc1, <- Hf1.
Qed.

Lemma filter_push_spec t p out p' : filter_push t p = (Ok out, p') →
  out = (MlxStop.push_str t (stop_filter p)).1 ∧ p' = p <| stop_filter := (MlxStop.push_str t (stop_filter p)).2 |>.
Proof.
  unfold filter_push. intros H. apply bind_Ok_inv in H as (q & q' & [= <- <-] & H).
  destruct (MlxStop.push_str t (stop_filter p)) as [o f]. run_steps H. done.
Qed.

Lemma plain_text text p cs p' : qwen_xml p = None →
  (if bool_decide (text = []) then mret [] else push_text_chunks text) p = (Ok cs, p') →
  p' = p ∧ texts cs = text ∧ deltas cs = [].
Proof.
  intros Hq. case_bool_decide as Ht; [by intros [= <- <-]|]. unfold MlxSse.push_text_chunks. intros H.
  apply bind_Ok_inv in H as (q & q' & [= <- <-] & H). rewrite Hq in H. injection H as <- <-.
  cbn. by rewrite app_nil_r.
Qed.

Lemma plain_usage c p : plain p →
  plain (record_usage c p) ∧ stop_filter (record_usage c p) = stop_filter p ∧ tool_calls (record_usage c p) = tool_calls p.
Proof.
  unfold record_usage, plain.
  by destruct (usage c ≫= usage_prompt_tokens), ((usage c ≫= prompt_tokens_details) ≫= cached_tokens).
Qed.

Definition completion_text (c : MlxCompletionResponse) : str :=
  match choices c with choice :: _ => choice_content choice | [] => [] end.

Lemma push_nothing f : MlxStop.push_str [] f = ([], f).
Proof. unfold MlxStop.push_str. rewrite bool_decide_eq_true_2 by done. by rewrite orb_true_r. Qed.

Lemma streams_nothing p p' : plain p → plain p' → stop_filter p' = stop_filter p → tool_calls p' = tool_calls p →
  streams [] p [] p'.
Proof. intros Hp Hp' Hf Hc. unfold streams. by rewrite push_nothing. Qed.

Lemma plain_finalize cs u r p out p' : finalize_completion_chunks cs u r p = (Ok out, p') → plain p →
  plain p' ∧ texts out = texts cs ∧ deltas out = deltas cs ∧ stop_filter p' = stop_filter p ∧ tool_calls p' = tool_calls p.
Proof.
  intros H Hp. destruct (finalize_spec cs u r p) as (out' & Hf & Ht & Hd & _). rewrite Hf in H.
  injection H as <- <-. done.
Qed.

Lemma plain_completion c p cs p' : parse_completion c p = (Ok cs, p') → plain p → streams (completion_text c) p cs p'.
Proof.
  unfold MlxSse.parse_completion, completion_text. intros H Hp. apply bind_Ok_inv in H as ([] & p0 & [= <-] & H).
  destruct (plain_usage c p Hp) as (Hp0 & Hf0 & Hc0). unfold streams. rewrite <- Hf0, <- Hc0. clear Hp Hf0 Hc0.
  revert H Hp0. generalize (record_usage c p). clear p. intros p H Hp.
  destruct (choices c) as [|choice rest].
  { destruct (plain_finalize _ _ _ _ _ _ H Hp) as (Hp' & Ht & Hd & Hf & Hc). rewrite Ht, Hd. by apply streams_nothing. }
  apply bind_Ok_inv in H as (ds & p1 & H1 & H).
  assert (plain p1 ∧ stop_filter p1 = stop_filter p ∧ tool_calls p1 = foldl apply_delta (tool_calls p) ds) as (Hp1 & Hf1 & Hc1).
  { destruct (choice_tool_calls choice); [by apply (push_calls_deltas _ _ _ _ H1)|by injection H1 as <- <-]. }
  apply bind_Ok_inv in H as (text & p2 & (-> & ->)%filter_push_spec & H). rewrite Hf1 in H.
  set (pushed := MlxStop.push_str _ _) in *. clearbody pushed.
  apply bind_Ok_inv in H as (r & p3 & H3 & H). apply bind_Ok_inv in H as (p3' & ? & [= <- <-] & H).
  cbv zeta in H. revert H. generalize (or_else r (if stopped (stop_filter p3) then Some BStop else None)). intros reason H.
  assert (p3 = p1 <| stop_filter := pushed.2 |>) as ->.
  { destruct (choice_finish_reason choice) as [fr|]; [|by injection H3 as _ <-].
    apply bind_Ok_inv in H3 as (? & ? & H3 & [= _ <-]). unfold try_ in H3. by destruct (mlx_finish_reason (Some fr)); injection H3 as _ <-. }
  assert (plain (p1 <| stop_filter := pushed.2 |>) ∧ stop_filter (p1 <| stop_filter := pushed.2 |>) = pushed.2
    ∧ tool_calls (p1 <| stop_filter := pushed.2 |>) = tool_calls p1) as (Hp3 & Hf3 & Hc3) by done.
  revert Hp3 Hf3 Hc3 H. generalize (p1 <| stop_filter := pushed.2 |>). clear H3. intros p3 [Hq3 Hs3] Hf3 Hc3 H.
  apply bind_Ok_inv in H as (tc & p4 & (-> & Ht & Hd)%plain_text & H); [|done].
  apply bind_Ok_inv in H as (? & ? & [= <- <-] & H). apply bind_Ok_inv in H as (tr & p5 & H5 & H).
  assert (tr = [] ∧ p5 = p3) as [-> ->].
  { rewrite Hq3 in H5. by destruct reason as [[]|]; injection H5 as <- <-. }
  apply bind_Ok_inv in H as (rd & p6 & H6 & H).
  assert (rd = [] ∧ p6 = p3) as [-> ->].
  { rewrite Hs3 in H6. by destruct reason as [[]|]; injection H6 as <- <-. }
  destruct (plain_finalize _ _ _ _ _ _ H) as (Hp' & Ht' & Hd' & Hf & Hc); [done|].
  rewrite Ht', Hd', !texts_app, !deltas_app, Ht, Hd, Hf, Hc, Hf3, Hc3, Hc1. split; [done|].
  destruct ds; cbn; by rewrite ?app_nil_r.
Qed.

(** The model's text in a line. *)
Definition line_text (line : str) : str :=
  match line_completion response_from_str line with Some c => completion_text c | None => [] end.

Lemma plain_line l p cs p' : parse_line l p = (Ok cs, p') → plain p → streams (line_text l) p cs p'.
Proof.
  unfold MlxSse.parse_line, line_text, line_completion. destruct (mlx_sse_data l) as [data|].
  2: { intros [= <- <-] Hp. by apply streams_nothing. }
  case_bool_decide as Hd; intros H Hp.
  { run_steps H. by apply streams_nothing. }
  unfold try_ in H. apply bind_Ok_inv in H as (c & p1 & H1 & H).
  destruct (response_from_str data) as [c'|e]; [|done]. injection H1 as -> ->. by apply plain_completion in H.
Qed.

Lemma line_text_starts l :
  (∀ data c, response_from_str data = inl c → starts_char (completion_text c)) → starts_char (line_text l).
Proof.
  intros Hsc. unfold line_text, line_completion. destruct (mlx_sse_data l) as [data|]; [|done].
  case_bool_decide; [done|]. destruct (response_from_str data) as [c|] eqn:Hc; [|done]. by apply (Hsc data).
Qed.

(** A sequence of model texts. *)
Definition streams_all (ts : list str) (p : MlxSseParser) (cs : list BackendStreamChunk) (p' : MlxSseParser) : Prop :=
  plain p' ∧ texts cs = (MlxStop.push_all ts (stop_filter p)).1
  ∧ stop_filter p' = (MlxStop.push_all ts (stop_filter p)).2
  ∧ tool_calls p' = foldl apply_delta (tool_calls p) (deltas cs).

Lemma push_all_app ts us f :
  MlxStop.push_all (ts ++ us) f = let '(a, f) := MlxStop.push_all ts f in let '(b, f) := MlxStop.push_all us f in (a ++ b, f).
Proof.
  revert f. induction ts as [|t ts IH]; intros f; [cbn; by destruct (MlxStop.push_all us f)|]. cbn [app MlxStop.push_all].
  destruct (MlxStop.push_str t f) as [o f1]. rewrite IH. destruct (MlxStop.push_all ts f1) as [a f2].
  destruct (MlxStop.push_all us f2). by rewrite app_assoc.
Qed.

Lemma streams_all_app ts us p a p1 b p2 :
  streams_all ts p a p1 → streams_all us p1 b p2 → streams_all (ts ++ us) p (a ++ b) p2.
Proof.
  intros (Hp1 & Ht1 & Hf1 & Hc1) (Hp2 & Ht2 & Hf2 & Hc2). unfold streams_all.
  rewrite push_all_app, texts_app, deltas_app, foldl_app, <- Hc1, Ht1, Ht2, Hf2, Hf1.
  destruct (MlxStop.push_all ts (stop_filter p)) as [x f]. cbn [fst snd]. destruct (MlxStop.push_all us f) as [y f']. done.
Qed.

Lemma streams_one t p cs p' : streams t p cs p' → streams_all [t] p cs p'.
Proof.
  intros (Hp & Ht & Hf & Hc). unfold streams_all. cbn [MlxStop.push_all]. rewrite Ht, Hf, Hc.
  destruct (MlxStop.push_str t (stop_filter p)). cbn. by rewrite app_nil_r.
Qed.

Lemma plain_lines ls p cs p' : parse_lines ls p = (Ok cs, p') → plain p →
  streams_all (map (λ l, line_text (pop_char 13 l)) ls) p cs p'.
Proof.
  revert p cs p'. induction ls as [|l ls IH]; intros p cs p' H Hp; cbn [MlxSseLines.parse_lines] in H.
  { injection H as <- <-. done. }
  apply bind_Ok_inv in H as (a & p1 & H1 & H). apply bind_Ok_inv in H as (b & p2 & H2 & H). injection H as <- <-.
  apply plain_line in H1; [|done]. apply (streams_all_app [_] _ p a p1); [by apply streams_one in H1|].
  apply IH; [done|]. by destruct H1.
Qed.

Lemma plain_rest line p cs p' : flush_rest from_str float_text uuid line p = (Ok cs, p') → plain p →
  plain p' ∧ texts cs = texts line ++ (MlxStop.finish (stop_filter p)).1 ∧ deltas cs = deltas line
  ∧ tool_calls p' = tool_calls p.
Proof.
  unfold flush_rest, filter_finish. intros H Hp. apply bind_Ok_inv in H as (text & p1 & H1 & H).
  apply bind_Ok_inv in H1 as (q & ? & [= <- <-] & H1). destruct (MlxStop.finish (stop_filter p)) as [o f].
  run_steps H1. destruct Hp as [Hq Hs].
  apply bind_Ok_inv in H as (tc & p2 & (-> & Ht & Hd)%plain_text & H); [|done].
  apply bind_Ok_inv in H as (? & ? & [= <- <-] & H). apply bind_Ok_inv in H as (fi & p3 & H3 & H).
  cbn [qwen_xml upd] in H3. rewrite Hq in H3. injection H3 as <- <-.
  destruct (plain_finalize _ _ _ _ _ _ H) as (Hp' & Ht' & Hd' & Hf & Hc); [done|].
  rewrite Ht', Hd', texts_app, deltas_app, Hc, app_nil_r, Ht, Hd, app_nil_r. done.
Qed.
End plain.

(** ** Whole replies *)
Section reply.
Context (from_str : str → value + str) (response_from_str : str → MlxCompletionResponse + str)
  (float_text uuid : N → str).
Local Abbreviation push_str := (MlxSse.push_str from_str response_from_str float_text uuid).
Local Abbreviation push_pieces := (push_pieces from_str response_from_str float_text uuid).
Local Abbreviation finish := (MlxSse.finish from_str response_from_str float_text uuid).
Local Abbreviation flush_pending := (flush_pending from_str response_from_str float_text uuid).
Local Abbreviation parse_lines := (parse_lines from_str response_from_str float_text uuid).

(** The pieces of a reply and its end, the body of [stream_completion]. *)
Definition stream_reply (pieces : list str) : sstm (list BackendStreamChunk) :=
  chunks ← push_pieces pieces;
  final ← finish;
  mret (chunks ++ final).

(** The lines of a reply, the last one possibly unterminated, without their ends. *)
Definition reply_lines (reply : str) : list str :=
  let '(ls, r) := split_lines reply in map (pop_char 13) ls ++ [trim_end_char 13 r].

Lemma finish_Ok p cs p' : finish p = (Ok cs, p') → flush_pending p = (Ok cs, p').
Proof. unfold MlxSse.finish, mbind, stm_bind, self, get_state. by destruct (saw_done p). Qed.

Lemma stream_reply_Ok pieces stop markup structured schema cs p' :
  stream_reply pieces (new_inner stop markup structured schema) = (Ok cs, p') →
  let '(ls, r) := split_lines (concat pieces) in
  ∃ a p1 b, parse_lines ls (with_buffer r (new_inner stop markup structured schema)) = (Ok a, p1)
    ∧ line_buffer p1 = r ∧ flush_pending p1 = (Ok b, p') ∧ cs = a ++ b.
Proof.
  unfold stream_reply. intros (a & p1 & H1 & H)%bind_Ok_inv. apply bind_Ok_inv in H as (b & p2 & H2%finish_Ok & [= <- <-]).
  apply parsed_Ok in H1. rewrite push_pieces_spec in H1 by done. cbn [line_buffer new_inner app] in H1.
  destruct (split_lines (concat pieces)) as [ls r]. exists a, p1, b.
  split_and!; [by apply parsed_Ok|by apply parse_lines_buffer in H1|done..].
Qed.


(** The completion tokens of a reply read to its end are the highest total
    any of its lines reports: the increments in the chunks never count a token
    twice, whichever lines repeat or lower the total, and the 64-bit sums do not
    saturate. *)
Theorem reported_tokens_counted pieces stop markup structured schema cs p' :
  (∀ data c n, response_from_str data = inl c → usage c ≫= usage_completion_tokens = Some n → n ≤ u64_max) →
  stream_reply pieces (new_inner stop markup structured schema) = (Ok cs, p') →
  out_completion_tokens (fold_mlx_chunks cs)
  = highest (map (reported response_from_str) (reply_lines (concat pieces))).
Proof.
  intros Hu64 H. assert (highest (map (reported response_from_str) (reply_lines (concat pieces))) ≤ u64_max) as Hmax.
  { apply highest_le. intros x (l & -> & _)%list_elem_of_fmap.
    unfold reported, line_completion, completion_total. destruct (mlx_sse_data l) as [data|]; [|done].
    case_bool_decide; [done|]. destruct (response_from_str data) as [c|] eqn:Hc; [|done].
    destruct (usage c ≫= usage_completion_tokens) as [n|] eqn:Hn; [|done]. by apply (Hu64 data c n). }
  apply stream_reply_Ok in H. unfold reply_lines in *.
  destruct (split_lines (concat pieces)) as [ls r]. destruct H as (a & p1 & b & H1 & Hr & H2 & ->).
  rewrite map_app, map_map, highest_app in *. cbn [map] in *. rewrite highest_one in *.
  destruct (counts_lines _ _ _ _ _ _ _ _ H1) as [He1 Ht1];
    [cbn [with_buffer emitted_completion_tokens upd new_inner]; lia|].
  cbn [with_buffer emitted_completion_tokens upd new_inner] in *.
  destruct (counts_flush _ _ _ _ _ _ _ H2) as [He2 Ht2]; rewrite Hr in *; [lia|].
  assert (tokens (a ++ b) = N.max (highest (map (λ l, reported response_from_str (pop_char 13 l)) ls))
    (reported response_from_str (trim_end_char 13 r))) as Ht by (rewrite tokens_app; lia).
  unfold fold_mlx_chunks. rewrite fold_tokens; rewrite Ht; cbn [out_completion_tokens]; lia.
Qed.


(** The structured tool-call deltas of a streamed reply are complete: a client
    that makes room for each delta's index, takes its id and appends its fragments
    holds, after the last chunk, exactly the calls the parser accumulated for
    rendering. *)
Theorem streamed_calls_reassemble pieces stop markup schema cs p' :
  markup ≠ MarkupQwenXml → stream_reply pieces (new_inner stop markup true schema) = (Ok cs, p') →
  foldl apply_delta [] (deltas cs) = tool_calls p'.
Proof.
  intros Hm H. apply stream_reply_Ok in H.
  destruct (split_lines (concat pieces)) as [ls r]. destruct H as (a & p1 & b & H1 & Hr & H2 & ->).
  rewrite flush_lines, Hr in H2. apply bind_Ok_inv in H2 as (line & p2 & H2 & H3).
  apply plain_lines in H1; [|by destruct markup].
  apply plain_line in H2; [|by destruct H1]. apply streams_one in H2.
  apply plain_rest in H3 as (_ & _ & Hd3 & Hc3); [|by destruct H2].
  pose proof (streams_all_app _ _ _ _ _ _ _ H1 H2) as (_ & _ & _ & Hc).
  rewrite deltas_app, Hd3, <- deltas_app, Hc3, Hc. done.
Qed.
End reply.

(** ** Concrete replies *)

(** A deserializer for the examples: a digit, the total so far, or [!], which
    ends the choice, and then the text. *)
Definition demo_response (data : str) : MlxCompletionResponse + str :=
  match data with
  | d :: t =>
      if match t with b :: _ => is_continuation b | [] => false end then inr (lit "not a character")
      else if d =? 33 then inl (MkResponse [MkChoice (Some t) None None (Some (lit "stop"))] None)
      else if (48 <=? d) && (d <=? 57) then
        inl (MkResponse [MkChoice (Some t) None None None] (Some (MkUsage None (Some (d - 48)) None)))
      else inr (lit "not a total")
  | [] => inr (lit "empty")
  end.
Definition demo_value (_ : str) : value + str := inr [].
Definition demo_text (_ : N) : str := [].
Local Abbreviation demo_reply pieces :=
  (stream_reply demo_value demo_response demo_text demo_text pieces
    (new_inner MLX_LLAMA_CONTROL_STOP_TOKENS MarkupJson true ∅)).
Definition demo_pieces : list str :=
  [lit "data: 1Hel"; [10] ++ lit "data: 3lo<|eo" ++ [10; 10] ++ lit "data: 2t_id|>x" ++ [13; 10] ++ lit "da"; lit "ta: [DONE]" ++ [10]].

Lemma demo_response_wf :
  (∀ data c n, demo_response data = inl c → usage c ≫= usage_completion_tokens = Some n → n ≤ u64_max)
  ∧ ∀ data c, demo_response data = inl c → starts_char (completion_text c).
Proof.
  assert (∀ data c, demo_response data = inl c →
    (∀ n, usage c ≫= usage_completion_tokens = Some n → n ≤ u64_max) ∧ starts_char (completion_text c)) as H.
  { intros [|d t] c; [done|]. unfold demo_response.
    assert (match t with b :: _ => is_continuation b | [] => false end = false → starts_char t) as Ht by (by destruct t).
    destruct (match t with b :: _ => is_continuation b | [] => false end); [done|]. specialize (Ht eq_refl).
    destruct (d =? 33); [intros [= <-]; by split|].
    destruct (N.leb_spec 48 d), (N.leb_spec d 57); intros [= <-]. split; [|done].
    intros n [= <-]. unfold u64_max. lia. }
  split; [intros data c n Hc|intros data c Hc]; apply (H data c Hc).
Qed.

Lemma demo_runs : ∃ cs p, demo_reply demo_pieces = (Ok cs, p).
Proof. eexists _, _. vm_compute. reflexivity. Qed.

Lemma reported_tokens_counted_witness :
  ∃ cs p, demo_reply demo_pieces = (Ok cs, p) ∧ out_completion_tokens (fold_mlx_chunks cs) = 3.
Proof.
  destruct demo_runs as (cs & p & H). exists cs, p. split; [exact H|].
  rewrite (reported_tokens_counted demo_value demo_response demo_text demo_text demo_pieces MLX_LLAMA_CONTROL_STOP_TOKENS
    MarkupJson true ∅ cs p); [vm_compute; reflexivity| |exact H].
  apply demo_response_wf.
Defined.


(** [parse_completion] passes the finish reason on while the filter still
    withholds text that starts like a control token: the text of the last line
    follows the chunk with the finish reason, and a consumer that stops reading
    there, as the streams of the runtime do, loses it; the reply read at once
    leaves it. *)
Lemma finish_before_withheld_text :
  ∃ a b p, demo_reply [lit "data: 1a" ++ [10]; lit "data: !<" ++ [10]; lit "data: [DONE]" ++ [10]]
      = (Ok (a ++ b), p)
    ∧ (∃ c, last a = Some c ∧ chunk_finish_reason c = Some BStop) ∧ texts a = lit "a" ∧ texts b = lit "<".
Proof.
  eexists [_; _], [_], _. split; [vm_compute; reflexivity|]. split; [by eexists|]. done.
Qed.

(** A reply whose end line lacks its newline is refused, though [flush_pending]
    reads an unterminated line. *)
Lemma unterminated_done_refused :
  (demo_reply [lit "data: 1a" ++ [10] ++ lit "data: [DONE]"]).1
  = Err (error_other (lit "MLX SSE completion ended before data: [DONE]")).
Proof. by vm_compute. Qed.

(** The totals a server sends after the finish reason are in a chunk after it. *)
Lemma usage_after_finish :
  ∃ a c b p, demo_reply [lit "data: !a" ++ [10]; lit "data: 5" ++ [10]; lit "data: [DONE]" ++ [10]]
      = (Ok (a ++ c :: b), p)
    ∧ chunk_finish_reason c = Some BStop ∧ tokens (a ++ [c]) = 0 ∧ tokens b = 5.
Proof. eexists [], _, [_], _. split; [vm_compute; reflexivity|]. done. Qed.

(** One call in two deltas. *)
Definition demo_call_response (data : str) : MlxCompletionResponse + str :=
  inl (MkResponse [MkChoice None None (Some (MkMessage None (Some
    [MkToolCall (Some 0) None None (Some (MkFunction (Some data) None))]))) None] None).

Local Abbreviation call_reply :=
  (stream_reply demo_value demo_call_response demo_text demo_text
    [lit "data:ge" ++ [10]; lit "data:t" ++ [10]; lit "data: [DONE]" ++ [10]]
    (new_inner MLX_LLAMA_CONTROL_STOP_TOKENS MarkupJson true ∅)).
Lemma demo_call_runs : ∃ cs p, call_reply = (Ok cs, p) ∧ tool_calls p = [MkAccumulator None (lit "get") []].
Proof. eexists _, _. split; [vm_compute; reflexivity|done]. Qed.

Lemma streamed_calls_reassemble_witness :
  ∃ cs p, call_reply = (Ok cs, p) ∧ foldl apply_delta [] (deltas cs) = [MkAccumulator None (lit "get") []].
Proof.
  destruct demo_call_runs as (cs & p & H & Hc). exists cs, p. split; [exact H|].
  rewrite (streamed_calls_reassemble _ _ _ _ _ _ MarkupJson _ cs p ltac:(done) H). exact Hc.
Defined.
