(* ===== verification/ToolParseGemma.v ===== *)
(** * Gemma's argument parser reads JSON

    The compact JSON text of a value, which the MLX bridge renders structured
    arguments to, is read back by [GemmaArgumentParser] of [ToolParse.v]. *)
From Stdlib Require Import String.
From stdpp Require Import base gmap sets numbers list.
From S2P Require Import Prelude Text Json Whitespace Api Backend MlxStop QwenXml TagScan ToolParse ToolParseBlocks MlxSse.
Open Scope nat_scope.

(** ** What the renderer writes *)
Section render.
Variable float_text : N → str.

Lemma join_cons (t : str) (ts : list str) :
  join (lit ",") (t :: ts) = t ++ concat (map (app (lit ",")) ts).
Proof.
  revert t. induction ts as [|u ts IH]; intros t; [by rewrite app_nil_r|].
  change (join (lit ",") (t :: u :: ts)) with (t ++ lit "," ++ join (lit ",") (u :: ts)). rewrite IH.
  cbn [map concat]. by rewrite <- !app_assoc.
Qed.

Definition member_text (m : str * value) : str := string_text m.1 ++ lit ":" ++ json_text float_text m.2.

Lemma json_text_object (m : list (str * value)) :
  json_text float_text (Object m) = lit "{" ++ join (lit ",") (map member_text m) ++ lit "}".
Proof.
  cbn [json_text]. do 3 f_equal; apply map_ext. by intros [k v].
Qed.

Lemma render_gemma_text v : render_gemma_tool_value float_text v = json_text float_text v.
Proof.
  induction v as [| | | |l Hl|m Hm] using value_nested_ind; try done.
  - cbn [render_gemma_tool_value json_text]. f_equal. f_equal.
    match goal with |- ?f 0 l = _ => set (items := f) end.
    assert (∀ l i, Forall (λ v, render_gemma_tool_value float_text v = json_text float_text v) l →
      items (S i) l = concat (map (app (lit ",")) (map (json_text float_text) l))) as Hitems.
    { clear. intros l i Hl. revert i. induction Hl as [|v l Hv _ IH]; intros i; [done|]. cbn [items map concat].
      rewrite Hv, <- (IH (S i)). cbn. done. }
    destruct Hl as [|v l Hv Hl]; [done|]. cbn [items map]. rewrite join_cons, Hv, Hitems by done. done.
  - rewrite json_text_object. cbn [render_gemma_tool_value]. f_equal. f_equal.
    match goal with |- ?f 0 m = _ => set (members := f) end.
    assert (∀ m i, Forall (λ kv, render_gemma_tool_value float_text kv.2 = json_text float_text kv.2) m →
      members (S i) m = concat (map (app (lit ",")) (map member_text m))) as Hmembers.
    { clear. intros m i Hm. revert i. induction Hm as [|[k v] m Hv _ IH]; intros i; [done|]. cbn [members map concat].
      cbn [snd] in Hv. rewrite Hv, <- (IH (S i)). unfold member_text. cbn. by rewrite <- !app_assoc. }
    destruct Hm as [|[k v] m Hv Hm]; [done|]. cbn [members map]. rewrite join_cons. cbn [snd] in Hv.
    rewrite Hv, Hmembers by done. unfold member_text. cbn. by rewrite <- !app_assoc.
Qed.
End render.

(** ** Strings *)
Definition quiet_byte (b : N) : bool := negb (b =? 92)%N && negb (b =? 34)%N.

Lemma quiet_scanned t r : forallb quiet_byte t = true →
  json_string_end false (t ++ r) = Nat.add (length t) <$> json_string_end false r.
Proof.
  induction t as [|b t IH]; cbn [forallb]; [cbn; by destruct (json_string_end false r)|].
  intros [[Hb1%negb_true_iff Hb2%negb_true_iff]%andb_true_iff Ht]%andb_true_iff. cbn [app json_string_end].
  rewrite Hb1, Hb2, IH by done. by destruct (json_string_end false r).
Qed.

Lemma hex_quiet d : quiet_byte (hex_digit (d mod 16)) = true.
Proof.
  unfold quiet_byte, hex_digit. pose proof (N.mod_lt d 16 ltac:(done)) as Hd. revert Hd.
  generalize (d mod 16)%N. intros x Hd. destruct (N.ltb_spec x 10);
    rewrite (proj2 (N.eqb_neq _ 92)), (proj2 (N.eqb_neq _ 34)) by lia; reflexivity.
Qed.

Lemma escape_scanned b r : json_string_end false (escape_byte b ++ r) = Nat.add (length (escape_byte b)) <$> json_string_end false r.
Proof.
  unfold escape_byte.
  repeat match goal with |- context [if (b =? ?x)%N then _ else _] => destruct (N.eqb_spec b x) as [->|] end;
    try (cbn; by destruct (json_string_end false r)).
  destruct (N.ltb_spec b 32).
  - set (h1 := hex_digit (b / 16)). set (h2 := hex_digit (b mod 16)).
    assert (json_string_end false ([48; 48; h1; h2]%N ++ r) = Nat.add 4 <$> json_string_end false r) as Hq.
    { apply (quiet_scanned [48; 48; h1; h2]%N). cbn [forallb]. unfold h1, h2.
      rewrite <- (N.mod_small (b / 16) 16) by (apply N.Div0.div_lt_upper_bound; lia). by rewrite !hex_quiet. }
    change (json_string_end false ((lit "\u00" ++ [h1; h2]) ++ r))
      with (S <$> (S <$> json_string_end false ([48; 48; h1; h2]%N ++ r))).
    rewrite Hq. by destruct (json_string_end false r).
  - apply (quiet_scanned [b]). unfold quiet_byte. cbn. by rewrite (proj2 (N.eqb_neq b 92)), (proj2 (N.eqb_neq b 34)) by done.
Qed.

Lemma string_scanned s r : json_string_end false (concat (escape_byte <$> s) ++ 34%N :: r)
  = Some (length (concat (escape_byte <$> s)) + 1).
Proof.
  induction s as [|b s IH]; [done|]. rewrite fmap_cons. cbn [concat].
  rewrite <- app_assoc, escape_scanned, IH, length_app. cbn. f_equal. lia.
Qed.

Section strings.
Context (string_from_str : str → str + str).
(** What [serde_json] reads from the text it writes for a string. *)
Definition string_reads (s : str) : Prop := string_from_str (string_text s) = inl s.

Lemma parse_string_text s r : string_reads s →
  parse_json_string string_from_str (string_text s ++ r) = Ok (s, r).
Proof.
  intros Hs. unfold parse_json_string, string_text, expect_char. cbn [app at_char].
  change (34 =? 34)%N with true. cbv iota. cbn [mbind outcome_bind drop].
  change (drop 0 ?x) with x. rewrite <- app_assoc. cbn [app]. rewrite string_scanned.
  set (body := concat (escape_byte <$> s)).
  assert (body ++ 34%N :: r = (body ++ [34%N]) ++ r) as He by (by rewrite <- app_assoc).
  assert (length (body ++ [34%N]) = length body + 1) as Hl by apply length_app.
  cbn [take]. rewrite He, take_app_length', drop_app_length' by done.
  change (34%N :: body ++ [34%N]) with (string_text s). by rewrite Hs.
Qed.
End strings.

(** ** Atoms *)
Definition delimiter (b : N) : bool := (b =? 44)%N || (b =? 125)%N || (b =? 93)%N.
Definition delimited (r : str) : Prop := match r with [] => True | b :: _ => delimiter b = true end.

(** The characters of numbers and literals. *)
Definition atom_char (b : N) : bool := ascii_visible b && negb (delimiter b).
Definition atom_stop (s : str) : bool := at_char 44 s || at_char 125 s || at_char 93 s || at_space s.

Lemma delimiter_visible b : delimiter b = true → ascii_visible b = true.
Proof.
  unfold delimiter. intros [[->%N.eqb_eq| ->%N.eqb_eq]%orb_true_iff| ->%N.eqb_eq]%orb_true_iff; done.
Qed.

Lemma atom_char_goes b s : atom_char b = true → atom_stop (b :: s) = false ∧ char_len b = 1.
Proof.
  intros [Hv Hd%negb_true_iff]%andb_true_iff. unfold atom_stop, at_space. rewrite visible_not_space by done.
  unfold delimiter in Hd. cbn [at_char is_some]. rewrite orb_false_r. split; [done|].
  unfold char_len. apply andb_true_iff in Hv as [_ Hl]. by rewrite Hl.
Qed.

Lemma skip_atom t r fuel : forallb atom_char t = true → delimited r → length (t ++ r) ≤ fuel →
  skip_until fuel atom_stop (t ++ r) = length t.
Proof.
  revert fuel. induction t as [|b t IH]; intros fuel Ht Hr Hf.
  - destruct fuel as [|fuel], r as [|b r]; try done. cbn [app skip_until].
    assert (atom_stop (b :: r) = true) as ->; [|done]. change (delimiter b || at_space (b :: r) = true). by rewrite (Hr : delimiter b = true).
  - apply andb_true_iff in Ht as [Hb Ht]. destruct fuel as [|fuel]; [simpl in Hf; lia|]. cbn [app skip_until].
    destruct (atom_char_goes b (t ++ r) Hb) as [-> ->]. cbn [drop]. change (drop 0 ?x) with x.
    rewrite IH; [done|done|done|simpl in Hf; lia].
Qed.

Section values.
Context (from_str : str → value + str) (string_from_str : str → str + str) (float_text : N → str).
Local Abbreviation json_text := (json_text float_text).
Local Abbreviation number_text := (number_text float_text).
Local Abbreviation string_reads := (string_reads string_from_str).
Local Abbreviation parse_value := (parse_value from_str string_from_str).
Local Abbreviation parse_members := (parse_members from_str string_from_str).
Local Abbreviation parse_items := (parse_items from_str string_from_str).

(** What [serde_json] reads from the text it writes for a number, and of what
    characters that text is. *)
Definition number_char (b : N) : bool := ((48 <=? b) && (b <=? 57))%N || bool_decide (b ∈ [43; 45; 46; 69; 101]%N).
Definition number_reads (n : number) : Prop :=
  from_str (number_text n) = inl (Number n) ∧ number_text n ≠ [] ∧ forallb number_char (number_text n) = true.

(** Every string, key and number of a value reads back, and its keys are
    distinct. *)
Fixpoint readable (v : value) : Prop :=
  match v with
  | Null | Bool _ => True
  | Number n => number_reads n
  | JString s => string_reads s
  | Array l => (fix go l := match l with [] => True | v :: l => readable v ∧ go l end) l
  | Object m => NoDup m.*1 ∧ (fix go (m : object) :=
      match m with [] => True | (k, v) :: m => (string_reads k ∧ readable v) ∧ go m end) m
  end.

Lemma readable_array l : readable (Array l) ↔ Forall readable l.
Proof. simpl. induction l as [|v l IH]; [by rewrite Forall_nil|]. by rewrite Forall_cons, IH. Qed.
Lemma readable_object m : readable (Object m) ↔ NoDup m.*1 ∧ Forall (λ kv, string_reads kv.1 ∧ readable kv.2) m.
Proof.
  simpl. apply and_iff_compat_l. induction m as [|[k v] m IH]; [by rewrite Forall_nil|]. by rewrite Forall_cons, IH.
Qed.

Lemma number_char_atom b : number_char b = true →
  atom_char b = true ∧ (b =? 123)%N = false ∧ (b =? 91)%N = false ∧ (b =? 34)%N = false ∧ (b =? 60)%N = false.
Proof.
  unfold number_char. intros [[Hl%N.leb_le Hu%N.leb_le]%andb_true_iff|Hb%bool_decide_eq_true]%orb_true_iff.
  - unfold atom_char, ascii_visible, delimiter. repeat rewrite (proj2 (N.eqb_neq b _)) by lia.
    by rewrite !(proj2 (N.ltb_lt _ _)) by lia.
  - repeat (apply elem_of_cons in Hb as [->|Hb]; [done|]). by apply not_elem_of_nil in Hb.
Qed.

(** An atom that is not a literal is read by [serde_json]. *)
Lemma parse_atom_text t v r : t ≠ [] → forallb atom_char t = true → delimited r →
  (if bool_decide (t = lit "true") then Bool true
   else if bool_decide (t = lit "false") then Bool false
   else if bool_decide (t = lit "null") then Null
   else match from_str t with inl v => v | inr _ => JString t end) = v →
  parse_atom from_str (t ++ r) = Ok (v, r).
Proof.
  intros Hne Ht Hr Hv. unfold parse_atom. change (λ s, at_char 44 s || at_char 125 s || at_char 93 s || at_space s) with atom_stop.
  rewrite skip_atom by done. rewrite take_app_length, drop_app_length, bool_decide_eq_false_2, Hv by done. done.
Qed.

(** A text that starts with a visible character of an atom goes to [parse_atom]. *)
Lemma parse_value_atom fuel b s : ascii_visible b = true →
  (b =? 123)%N = false → (b =? 91)%N = false → (b =? 34)%N = false → (b =? 60)%N = false →
  parse_value (S fuel) (b :: s) = parse_atom from_str (b :: s).
Proof.
  intros Hb H1 H2 H3 H4. rewrite parse_value_step, trim_start_visible by done. cbv zeta. cbn [at_char].
  rewrite H1, H2, H3. assert (starts_with GEMMA_QUOTE (b :: s) = false) as ->; [|done].
  change GEMMA_QUOTE with (60 :: [124; 34; 124; 62])%N. cbn [starts_with]. by rewrite N.eqb_sym, H4.
Qed.

Lemma parse_value_string fuel s r : string_reads s → parse_value (S fuel) (string_text s ++ r) = Ok (JString s, r).
Proof.
  intros Hs. rewrite parse_value_step. unfold string_text at 1. cbn [app].
  rewrite (trim_start_visible 34) by done. cbv zeta. cbn [at_char]. change (34 =? 34)%N with true. cbv iota.
  change (34%N :: (concat (escape_byte <$> s) ++ [34%N]) ++ r) with (string_text s ++ r).
  by rewrite parse_string_text.
Qed.

(** After a member or an item: the next one, or the end. *)
Definition reads_back (v : value) : Prop := ∀ fuel r,
  2 * length (json_text v) + 1 ≤ fuel → delimited r → parse_value fuel (json_text v ++ r) = Ok (v, r).

Lemma json_text_head v : readable v → ∃ b t, json_text v = b :: t ∧ ascii_visible b = true ∧ b ≠ 93%N.
Proof.
  destruct v as [|[]|n|s|l|m]; cbn [Json.json_text readable]; try (intros _; by eexists _, _).
  intros (_ & Hne & Hn). destruct (number_text n) as [|b t]; [done|]. cbn [forallb] in Hn.
  apply andb_true_iff in Hn as [Hb _]. exists b, t. split; [done|].
  apply number_char_atom in Hb as ([Hv Hd%negb_true_iff]%andb_true_iff & _). split; [done|]. by intros ->.
Qed.

Lemma join_step (t : str) (ts : list str) :
  join (lit ",") (t :: ts) = t ++ match ts with [] => [] | _ => 44%N :: join (lit ",") ts end.
Proof. destruct ts; [by rewrite app_nil_r|done]. Qed.

Lemma parse_items_text l acc r fuel : l ≠ [] → Forall readable l → Forall reads_back l →
  2 * length (join (lit ",") (map json_text l)) + 2 ≤ fuel →
  parse_items fuel (join (lit ",") (map json_text l) ++ 93%N :: r) acc = Ok (Array (acc ++ l), r).
Proof.
  intros Hne Hr Hl. revert acc fuel Hne. induction Hl as [|v l Hv _ IH]; intros acc fuel Hne Hf; [done|].
  apply Forall_cons in Hr as [Hrv Hr]. specialize (IH Hr). cbn [map] in *. rewrite join_step in *.
  rewrite length_app in Hf. destruct fuel as [|fuel]; [lia|]. rewrite <- app_assoc, parse_items_step. cbv zeta.
  destruct (json_text_head v Hrv) as (b & t & Ht & Hvis & Hb).
  assert (∀ x, trim_start (json_text v ++ x) = json_text v ++ x) as ->
    by (intros x; rewrite Ht; by apply (trim_start_visible b)).
  assert (∀ x, at_char 93 (json_text v ++ x) = false) as -> by (intros x; rewrite Ht; by apply N.eqb_neq).
  destruct l as [|w l].
  - cbn [map app] in *. rewrite Hv by (done || lia). cbn [mbind outcome_bind].
    by rewrite (trim_start_visible 93).
  - change (map json_text (w :: l)) with (json_text w :: map json_text l) in *. cbv iota in *. cbn [length] in Hf.
    rewrite Hv by (done || lia). cbn [mbind outcome_bind app].
    rewrite (trim_start_visible 44) by done. cbn [at_char drop]. change (drop 0 ?x) with x.
    change (44 =? 44)%N with true. cbv iota. change (json_text w :: map json_text l) with (map json_text (w :: l)) in *.
    rewrite IH by (done || lia). by rewrite <- app_assoc.
Qed.

Lemma map_insert_new k v (m : list (str * value)) : k ∉ m.*1 → map_insert k v m = m ++ [(k, v)].
Proof.
  induction m as [|[k' v'] m IH]; [done|]. rewrite fmap_cons, not_elem_of_cons. intros [Hk Hm]. cbn [map_insert fst] in *.
  rewrite bool_decide_eq_false_2 by congruence. by rewrite IH.
Qed.

Local Abbreviation member_text := (member_text float_text).

Lemma parse_key_text k r : string_reads k → parse_key string_from_str (string_text k ++ r) = Ok (k, r).
Proof.
  intros Hk. unfold parse_key. assert (trim_start (string_text k ++ r) = string_text k ++ r) as -> by (by apply (trim_start_visible 34)).
  change (at_char 34 (string_text k ++ r)) with true. by apply parse_string_text.
Qed.

Lemma parse_members_text m acc r fuel : m ≠ [] → Forall (λ kv, string_reads kv.1 ∧ readable kv.2) m →
  Forall (λ kv, reads_back kv.2) m → NoDup (acc ++ m).*1 →
  2 * length (join (lit ",") (map member_text m)) + 1 ≤ fuel →
  parse_members fuel (join (lit ",") (map member_text m) ++ 125%N :: r) acc = Ok (Object (acc ++ m), r).
Proof.
  intros Hne Hr Hm. revert acc fuel Hne. induction Hm as [|[k v] m Hv _ IH]; intros acc fuel Hne Hd Hf; [done|].
  apply Forall_cons in Hr as [[Hk Hrv] Hr]. specialize (IH Hr). cbn [map fst snd] in *. rewrite join_step in *.
  unfold ToolParseGemma.member_text at 1. unfold ToolParseGemma.member_text at 1 in Hf. cbn [fst snd] in *.
  rewrite !length_app in Hf. change (length (lit ":")) with 1 in Hf. destruct fuel as [|fuel]; [lia|].
  rewrite <- !app_assoc, parse_members_step. cbv zeta.
  assert (∀ x, trim_start (string_text k ++ x) = string_text k ++ x) as -> by (intros x; by apply (trim_start_visible 34)).
  change (at_char 125 (string_text k ++ ?x)) with false. cbv iota.
  rewrite parse_key_text by done. cbn [mbind outcome_bind].
  assert (map_insert k v acc = acc ++ [(k, v)]) as Hins.
  { apply map_insert_new. rewrite fmap_app, fmap_cons in Hd. apply NoDup_app in Hd as (_ & Hd & _).
    intros Hin. apply (Hd k Hin), elem_of_cons. by left. }
  change (lit ":" ++ ?x) with (58%N :: x). rewrite (trim_start_visible 58) by done.
  match goal with |- context [expect_char 58 (58%N :: ?x)] => change (expect_char 58 (58%N :: x)) with (Ok (E:=ParserError) x) end.
  cbn [mbind outcome_bind].
  destruct m as [|[k2 v2] m].
  - cbn [map app] in *. rewrite Hv by (done || lia). cbn [mbind outcome_bind].
    rewrite (trim_start_visible 125) by done. by rewrite Hins.
  - change (map member_text ((k2, v2) :: m)) with (member_text (k2, v2) :: map member_text m) in *. cbv iota in *.
    cbn [length] in Hf. rewrite Hv by (done || lia). cbn [mbind outcome_bind app].
    rewrite (trim_start_visible 44) by done. cbn [at_char drop]. change (drop 0 ?x) with x.
    change (44 =? 44)%N with true. cbv iota.
    change (member_text (k2, v2) :: map member_text m) with (map member_text ((k2, v2) :: m)) in *.
    rewrite Hins, IH; [by rewrite <- app_assoc|done|by rewrite <- app_assoc|lia].
Qed.

Lemma value_reads_back v : readable v → reads_back v.
Proof.
  induction v as [|b|n|s|l Hl|m Hm] using value_nested_ind; intros Hr fuel r Hf Hd; (destruct fuel as [|fuel]; [lia|]).
  - cbn [Json.json_text]. change (lit "null" ++ r) with (110%N :: (lit "ull" ++ r)).
    rewrite parse_value_atom by done. by apply (parse_atom_text (lit "null")).
  - destruct b; cbn [Json.json_text].
    + change (lit "true" ++ r) with (116%N :: (lit "rue" ++ r)).
    rewrite parse_value_atom by done. by apply (parse_atom_text (lit "true")).
    + change (lit "false" ++ r) with (102%N :: (lit "alse" ++ r)).
    rewrite parse_value_atom by done. by apply (parse_atom_text (lit "false")).
  - destruct Hr as (Hn & Hne & Hc). cbn [Json.json_text].
    assert (forallb atom_char (number_text n) = true) as Ha.
    { apply forallb_forall. intros b Hb. rewrite forallb_forall in Hc. by apply number_char_atom, Hc. }
    destruct (number_text n) as [|b t] eqn:E; [done|]. assert (number_char b = true) as Hb.
    { rewrite forallb_forall in Hc. apply Hc. by left. }
    destruct (number_char_atom b Hb) as (Hv & H1 & H2 & H3 & H4). apply andb_true_iff in Hv as [Hv _].
    change ((b :: t) ++ r) with (b :: (t ++ r)). rewrite parse_value_atom by done.
    apply (parse_atom_text (b :: t)); [done..|].
    rewrite !bool_decide_eq_false_2 by (intros Heq; rewrite Heq in Hc; vm_compute in Hc; discriminate).
    by rewrite Hn.
  - by apply parse_value_string.
  - apply readable_array in Hr. cbn [Json.json_text]. cbn [Json.json_text] in Hf. rewrite !length_app in Hf.
    change (length (lit "[")) with 1 in Hf. change (length (lit "]")) with 1 in Hf.
    rewrite parse_value_step. change (lit "[" ++ ?x) with (91%N :: x). cbn [app].
    rewrite (trim_start_visible 91) by done. cbv zeta. cbn [at_char drop]. change (drop 0 ?x) with x.
    change (91 =? 123)%N with false. change (91 =? 91)%N with true. cbv iota. rewrite <- app_assoc.
    change (lit "]" ++ r) with (93%N :: r).
    destruct l as [|v l]; [destruct fuel as [|fuel]; [simpl in Hf; lia|]; by rewrite parse_items_step|].
    apply (parse_items_text _ []); [done|done| |lia].
    rewrite Forall_forall in Hl, Hr |- *. intros w Hw. by apply Hl, Hr.
  - apply readable_object in Hr as [Hnd Hr]. rewrite json_text_object in *. rewrite !length_app in Hf.
    change (length (lit "{")) with 1 in Hf. change (length (lit "}")) with 1 in Hf.
    rewrite parse_value_step. change (lit "{" ++ ?x) with (123%N :: x). cbn [app].
    rewrite (trim_start_visible 123) by done. cbv zeta. cbn [at_char drop]. change (drop 0 ?x) with x.
    change (123 =? 123)%N with true. cbv iota. rewrite <- app_assoc. change (lit "}" ++ r) with (125%N :: r).
    destruct m as [|kv m]; [destruct fuel as [|fuel]; [lia|]; by rewrite parse_members_step|].
    apply (parse_members_text _ []); [done|done| |done|lia].
    rewrite Forall_forall in Hm, Hr |- *. intros w Hw. apply Hm; [done|]. by apply Hr.
Qed.
End values.
