(* ===== verification/ToolParseTheorems.v ===== *)
(** * What the assistant-output parsers promise

    The parsers of [ToolParse.v] return, except on one kind of malformed tag;
    and a structured tool call that the MLX bridge renders to a family's markup
    ([MlxSse.v]) is the call the family's parser reads. *)
From Stdlib Require Import String.
From stdpp Require Import base gmap sets numbers list.
From S2P Require Import Prelude Text Json Whitespace Api Backend MlxStop QwenXml TagScan ToolParse ToolParseBlocks MlxSse.
From S2P Require Import ToolParseGemma.
Open Scope nat_scope.

(** ** Panics *)

(** The close tag of the function comes before the end of its name. *)
Definition close_before_name (inner : str) : Prop :=
  ∃ start len close, find (lit "<function=") inner = Some start ∧ find (lit ">") (drop (start + 10) inner) = Some len
    ∧ find (lit "</function>") inner = Some close ∧ close < start + 10 + len + 1.

Lemma xml_call_panics uuid inner index : parse_xml_call uuid inner index = Panic ↔ close_before_name inner.
Proof.
  unfold parse_xml_call, close_before_name.
  destruct (find (lit "<function=") inner) as [start|]; [|split; [done|by intros (? & ? & ? & [=] & _)]].
  cbn [ok_or mbind outcome_bind].
  destruct (find (lit ">") (drop (start + 10) inner)) as [len|] eqn:Hl.
  2: { split; [done|]. intros (s & l & c & [= <-] & H & _). by rewrite Hl in H. }
  cbn [ok_or mbind outcome_bind].
  destruct (find (lit "</function>") inner) as [close|]; [|split; [done|by intros (? & ? & ? & _ & _ & [=] & _)]].
  cbn [ok_or mbind outcome_bind]. unfold between.
  destruct (Nat.leb_spec (start + 10 + len + 1) close) as [Hle|Hlt]; cbn [mbind outcome_bind].
  - split; [|intros (s & l & c & [= <-] & H & [= <-] & Hc); rewrite Hl in H; injection H as <-; lia].
    intros Hp. exfalso. revert Hp. apply bind_returns; [apply xml_parameters_return; lia|done].
  - split; [|done]. intros _. by exists start, len, close.
Qed.

Section returns.
Context (from_str : str → value + str) (string_from_str : str → str + str) (uuid : N → str).
Local Abbreviation parse_family := (parse_assistant_for_family from_str string_from_str uuid).

Lemma tool_calls_panic r rest : parse_tool_calls from_str uuid r rest = Panic → ∃ inner, close_before_name (trim inner).
Proof.
  unfold parse_tool_calls, parse_blocks. intros Hp.
  destruct (blocks _ _ _ _ _ _ _ _) as [[content calls]|e|] eqn:Hb; [done..|].
  apply blocks_panic in Hb as (inner & index & Hc); [|done|lia]. unfold parse_qwen_call in Hc.
  destruct (starts_with _ _); [|by apply json_call_returns in Hc]. exists inner. by apply xml_call_panics in Hc.
Qed.

Lemma blocks_return open close e parse_call rest : is_tag open = true → (∀ inner index, parse_call inner index ≠ Panic) →
  parse_blocks open close e parse_call rest ≠ Panic.
Proof. intros Ho Hc Hp. unfold parse_blocks in Hp. apply blocks_panic in Hp as (i & n & Hi); [by apply Hc in Hi|done|lia]. Qed.

Lemma split_reasoning_returns text : split_reasoning text ≠ Panic.
Proof. unfold split_reasoning. returns. Qed.

End returns.

(** [<tool_call><function=a</function></tool_call>] panics. *)
Definition unclosed_name : str := lit "<tool_call><function=a</function></tool_call>".
Lemma function_tag_panics :
  parse_assistant_for_family (λ _, inr []) (λ _, inr []) (λ _, []) Qwen unclosed_name = Panic.
Proof. by vm_compute. Qed.


(** ** Rendered calls *)

(** The tags a family's parser looks for do not occur where they would be taken
    for its own. *)
Definition quiet (tags : list str) (text : str) : bool := forallb (λ t, negb (contains text t)) tags.
Definition inside (open close text : str) : str :=
  take (length text - (length open + length close)) (drop (length open) text).
Definition undisturbed (family : ModelFamily) (text : str) : bool :=
  match family with
  | Qwen => quiet [lit "<think>"] text && quiet [TOOL_END] (inside TOOL_START TOOL_END text)
  | Llama =>
      quiet [lit "<think>"; lit "<|eot_id|>"; lit "<|end_of_text|>"; lit "<|start_header_id|>"] text
      && quiet [TOOL_END] (inside TOOL_START TOOL_END text)
  | DeepSeek =>
      quiet [lit "<think>"; END_OF_SENTENCE; USER_TAG] text
      && quiet [CALLS_END] (inside CALLS_BEGIN CALLS_END text)
      && quiet [CALL_END] (inside CALL_BEGIN CALL_END (inside CALLS_BEGIN CALLS_END text))
  | Gemma =>
      quiet (GEMMA_THOUGHT :: lit "<turn|>" :: lit "<|tool_response>" :: lit "<eos>" :: gemma_unsupported) text
      && quiet [GEMMA_END] (inside GEMMA_START GEMMA_END text)
  end.

Lemma contains_find text t : negb (contains text t) = true → find t text = None.
Proof. unfold contains. by destruct (find t text). Qed.

Lemma quiet_in tags text t : quiet tags text = true → In t tags → find t text = None.
Proof. unfold quiet. rewrite forallb_forall. intros H Hin. by apply contains_find, H. Qed.

Lemma inside_wrap open x close : inside open close (open ++ x ++ close) = x.
Proof.
  unfold inside. rewrite drop_app_length, !length_app.
  replace (length open + (length x + length close) - (length open + length close)) with (length x) by lia.
  apply take_app_length.
Qed.

Lemma split_reasoning_quiet text : find (lit "<think>") text = None → split_reasoning text = Ok (None, text).
Proof. unfold split_reasoning. by intros ->. Qed.

Lemma before_first_quiet tokens text : (∀ t, In t tokens → find t text = None) → before_first tokens text = text.
Proof.
  intros Hq. unfold before_first. assert (omap (λ token, find token text) tokens = []) as ->; [|done].
  induction tokens as [|t tokens IH]; [done|]. cbn. rewrite (Hq t) by (by left). apply IH. intros u Hu. apply Hq. by right.
Qed.

Lemma find_prefix t r : find t (t ++ r) = Some 0.
Proof. apply find_Some. split; [split; [lia|apply starts_with_app; by exists r]|lia]. Qed.

Lemma contains_prefix t r : contains (t ++ r) t = true.
Proof. unfold contains. by rewrite find_prefix. Qed.

(** A single block. *)
Lemma one_block open close e parse_call inner : is_tag open = true → is_tag close = true → find close inner = None →
  parse_blocks open close e parse_call (open ++ inner ++ close) = call ← parse_call (trim inner) 0%N; Ok ([], [call]).
Proof.
  intros Ho Hc Hi. pose proof (parse_blocks_document open close e parse_call Ho Hc [([], inner)] []) as H.
  cbn [document app] in H. rewrite app_nil_r in H. rewrite H; clear H.
  - cbn [read_calls fmap list_fmap snd]. by destruct (parse_call (trim inner) 0%N).
  - apply Forall_singleton. split; [|done]. by destruct (tag_cons open Ho) as [t ->].
  - by destruct (tag_cons open Ho) as [t ->].
Qed.

Section rendered.
Context (from_str : str → value + str) (string_from_str : str → str + str) (float_text uuid : N → str).
Local Abbreviation parse_family := (parse_assistant_for_family from_str string_from_str uuid).
Local Abbreviation json_text := (json_text float_text).

Definition call_payload (call : MlxToolCallAccumulator) (arguments : value) : value :=
  Object ([(lit "name", JString (acc_name call)); (lit "arguments", arguments)]
    ++ match acc_id call with Some id => [(lit "id", JString id)] | None => [] end).

(** [serde_json] reads back what it writes for the call: its payload, or its
    arguments. *)
Definition payload_reads (markup : MlxToolMarkup) (call : MlxToolCallAccumulator) (arguments : value) : Prop :=
  match markup with
  | MarkupJson | MarkupQwenXml => from_str (json_text (call_payload call arguments)) = inl (call_payload call arguments)
  | MarkupDeepSeek => from_str (json_text arguments) = inl arguments
  | MarkupGemma => readable from_str string_from_str float_text arguments
  end.

(** A name the native markups can carry. *)
Definition carried_name (markup : MlxToolMarkup) (name : str) : bool :=
  match markup with
  | MarkupJson | MarkupQwenXml => true
  | MarkupDeepSeek => bool_decide (trim name = name) && negb (contains name [10%N])
  | MarkupGemma => bool_decide (trim name = name) && negb (contains name (lit "{"))
  end.

Definition markup_family (markup : MlxToolMarkup) (family : ModelFamily) : Prop :=
  match markup with
  | MarkupJson => family = Qwen ∨ family = Llama
  | MarkupQwenXml => family = Qwen
  | MarkupDeepSeek => family = DeepSeek
  | MarkupGemma => family = Gemma
  end.

(** The identifier a call is read with. *)
Definition read_id (markup : MlxToolMarkup) (call : MlxToolCallAccumulator) : str :=
  match markup with
  | MarkupJson | MarkupQwenXml => call_id uuid (JString <$> acc_id call) 0
  | MarkupDeepSeek | MarkupGemma => generated_tool_call_id uuid 0
  end.

Lemma object_text_trim m : trim (json_text (Object m)) = json_text (Object m).
Proof.
  change (json_text (Object m)) with
    (123%N :: join (lit ",") (map (λ '(k, v), string_text k ++ lit ":" ++ json_text v) m) ++ [125%N]).
  by apply trim_visible.
Qed.

Lemma json_call_read call m text :
  from_str (json_text (call_payload call (Object m))) = inl (call_payload call (Object m)) →
  text = TOOL_START ++ json_text (call_payload call (Object m)) ++ TOOL_END →
  quiet [TOOL_END] (inside TOOL_START TOOL_END text) = true →
  parse_tool_calls from_str uuid None text
  = Ok (MkParsed None [] [function_call (call_id uuid (JString <$> acc_id call) 0) (acc_name call) (Object m)]).
Proof.
  intros Hread -> Hq. rewrite inside_wrap in Hq. unfold parse_tool_calls.
  rewrite one_block by (done || (eapply quiet_in; [exact Hq|by left])).
  unfold call_payload at 1. rewrite object_text_trim. fold (call_payload call (Object m)).
  unfold parse_qwen_call. change (starts_with (lit "<function=") (json_text (call_payload call (Object m)))) with false.
  cbv iota. unfold parse_json_call, parse_json. rewrite Hread. cbn [mbind outcome_bind].
  unfold call_payload. destruct (acc_id call); reflexivity.
Qed.

(** *** DeepSeek *)
Lemma trailing_newline s : trailing_space (s ++ [10%N]) = Some 1.
Proof.
  unfold trailing_space.
  change whitespace_encodings with ([9] :: [10] :: drop 2 whitespace_encodings)%N. cbn [List.find].
  assert (ends_with (s ++ [10%N]) [9%N] = false) as ->.
  { apply not_true_iff_false. intros [p Hp]%ends_with_spec. by apply app_inj_tail in Hp as [_ [=]]. }
  by rewrite (proj2 (ends_with_spec _ _)) by by exists s.
Qed.

Lemma trim_lines m : trim (10%N :: json_text (Object m) ++ [10%N]) = json_text (Object m).
Proof.
  pose proof (object_text_trim m) as Ht. unfold trim in Ht.
  assert (trim_start (json_text (Object m)) = json_text (Object m)) as Hs by (by apply (trim_start_visible 123)).
  rewrite Hs in Ht. unfold trim. rewrite trim_start_step.
  change (leading_space (10%N :: json_text (Object m) ++ [10%N])) with (Some 1). cbv iota. cbn [drop]. change (drop 0 ?x) with x.
  assert (trim_start (json_text (Object m) ++ [10%N]) = json_text (Object m) ++ [10%N]) as -> by (by apply (trim_start_visible 123)).
  unfold trim_end. rewrite length_app, Nat.add_1_r. cbn [trim_end_loop]. rewrite trailing_newline.
  rewrite length_app, Nat.add_sub, take_app_length. exact Ht.
Qed.

Definition native_call (name : str) (arguments : value) : str :=
  lit "function" ++ CALL_SEP ++ name ++ [10%N] ++ lit "```json" ++ [10%N] ++ json_text arguments ++ [10%N] ++ lit "```".

Lemma markdown_read m : from_str (json_text (Object m)) = inl (Object m) →
  parse_deepseek_markdown_json from_str (trim (lit "```json" ++ [10%N] ++ json_text (Object m) ++ [10%N] ++ lit "```"))
  = Ok (Object m).
Proof.
  intros Hread. set (block := lit "```json" ++ _).
  assert (block = 96%N :: (lit "``json" ++ [10%N] ++ json_text (Object m) ++ [10%N] ++ lit "``") ++ [96%N]) as Hb
    by (unfold block; by rewrite <- !app_assoc).
  assert (trim block = block) as Ht by (rewrite Hb; by apply trim_visible).
  unfold parse_deepseek_markdown_json. rewrite !Ht. unfold block at 2.
  change (strip_prefix (lit "```json") (lit "```json" ++ ?x)) with (Some x). cbn [mbind option_bind].
  unfold strip_suffix. rewrite (proj2 (ends_with_spec _ _)) by (exists ([10%N] ++ json_text (Object m) ++ [10%N]); by rewrite <- !app_assoc).
  rewrite (app_assoc (json_text (Object m))), (app_assoc [10%N]), length_app, Nat.add_sub, take_app_length.
  change (parse_json from_str (lit "invalid DeepSeek native tool JSON: ") (trim (10%N :: json_text (Object m) ++ [10%N]))
    = Ok (Object m)). rewrite trim_lines. unfold parse_json. by rewrite Hread.
Qed.

Lemma native_call_read name m index : from_str (json_text (Object m)) = inl (Object m) →
  name ≠ [] → trim name = name → find [10%N] name = None →
  parse_deepseek_native_call from_str uuid (trim (native_call name (Object m))) index
  = Ok (function_call (generated_tool_call_id uuid index) name (Object m)).
Proof.
  intros Hread Hne Htrim Hline.
  assert (trim (native_call name (Object m)) = native_call name (Object m)) as ->.
  { assert (native_call name (Object m) = 102%N :: (lit "unction" ++ CALL_SEP ++ name ++ [10%N] ++ lit "```json" ++ [10%N]
      ++ json_text (Object m) ++ [10%N] ++ lit "``") ++ [96%N]) as ->; [|by apply trim_visible].
    unfold native_call. rewrite <- !app_assoc. done. }
  unfold parse_deepseek_native_call, native_call, split_once.
  rewrite (find_tag_end CALL_SEP (lit "function")) by (by vm_compute).
  cbn [fmap option_fmap option_map ok_or mbind outcome_bind].
  rewrite take_app_length, drop_add_app. rewrite bool_decide_eq_true_2 by (by vm_compute).
  change ([10%N] ++ lit "```json" ++ ?x) with (10%N :: (lit "```json" ++ x)).
  rewrite find_char_end by (by apply find_char_None). cbn [fmap option_fmap option_map ok_or mbind outcome_bind].
  change (10%N :: ?x) with ([10%N] ++ x). rewrite take_app_length, drop_add_app, Htrim, bool_decide_eq_false_2 by done.
  rewrite markdown_read by done. done.
Qed.

(** *** Gemma *)
Lemma gemma_call_read name m index : readable from_str string_from_str float_text (Object m) →
  name ≠ [] → trim name = name → find (lit "{") name = None →
  parse_gemma_call from_str string_from_str uuid (trim (lit "call:" ++ name ++ json_text (Object m))) index
  = Ok (function_call (generated_tool_call_id uuid index) name (Object m)).
Proof.
  intros Hread Hne Htrim Hbrace.
  assert (json_text (Object m) = 123%N :: join (lit ",") (map (λ '(k, v), string_text k ++ lit ":" ++ json_text v) m) ++ [125%N]) as HJ by done.
  assert (trim (lit "call:" ++ name ++ json_text (Object m)) = lit "call:" ++ name ++ json_text (Object m)) as ->.
  { rewrite HJ. set (body := join _ _).
    assert (lit "call:" ++ name ++ 123%N :: body ++ [125%N] = 99%N :: (lit "all:" ++ name ++ 123%N :: body) ++ [125%N]) as ->;
      [|by apply trim_visible]. by rewrite <- !app_assoc. }
  unfold parse_gemma_call. change (strip_prefix (lit "call:") (lit "call:" ++ ?x)) with (Some x).
  cbn [ok_or mbind outcome_bind]. rewrite HJ at 1. change (lit "{") with [123%N] in *.
  rewrite find_char_end by (by apply find_char_None). cbn [ok_or mbind outcome_bind].
  rewrite take_app_length, drop_app_length, Htrim, bool_decide_eq_false_2 by done.
  unfold parse_gemma_arguments. rewrite <- (app_nil_r (json_text (Object m))) at 2.
  rewrite value_reads_back by (done || lia). done.
Qed.

Lemma gemma_markers_quiet text : (∀ t, In t gemma_unsupported → find t text = None) →
  reject_gemma_multimodal_markers text = Ok tt.
Proof.
  intros Hq. unfold reject_gemma_multimodal_markers. destruct (List.find _ _) as [t|] eqn:E; [exfalso|done].
  apply List.find_some in E as [Hin Hc]. unfold contains in Hc. by rewrite (Hq t Hin) in Hc.
Qed.

End rendered.

Definition braces_from_str (text : str) : value + str := if bool_decide (text = lit "{}") then inl (Object []) else inr [].
Definition bare_call : MlxToolCallAccumulator := MkAccumulator None (lit "noop") (lit "{}").
Definition bare_markup : str :=
  CALLS_BEGIN ++ CALL_BEGIN ++ lit "function" ++ CALL_SEP ++ lit "noop" ++ [10%N] ++ lit "```json" ++ [10%N]
    ++ lit "{}" ++ [10%N] ++ lit "```" ++ CALL_END ++ CALLS_END.

